(* ===== verification/_CoqProject ===== *)
-Q . S2P
Prelude.v
RaftNode.v
RaftLog.v
RaftInv.v
RaftEvolve.v
RaftSystem.v
RaftSafety.v
RaftHistory.v
RaftApply.v
RaftPeer.v
RaftReplication.v
RaftElection.v
RaftEvents.v
RaftMatching.v
RaftCommit.v
RaftAnnals.v
RaftCompleteness.v
RaftAgreement.v
RaftProgress.v
RaftService.v
RaftChecks.v
GoStrings.v
GossipStore.v
GossipNode.v
GossipNet.v
GossipDaemon.v
GossipFlood.v
GossipTraces.v
MRFiles.v
MRTasks.v
MRSpec.v
MRApps.v
MRSchedule.v
MRShared.v
MROperations.v
MRConcurrent.v
MRUndisturbed.v
MRWorker.v
MRMaster.v
MRDistributed.v
MRMain.v
MRExamples.v
MRTraces.v
MRConcurrentTraces.v
Drivers.v
LabRpc.v
Tester.v
TesterTables.v
RaftNet.v
RaftNetSim.v
RaftNetRefines.v
LabTraces.v
GobWire.v
RaftTraces.v
RaftNetTraces.v
RaftCommitTraces.v
