(* ===== verification/Prelude.v ===== *)
(** * A verification library for the CS240 repository

    The repository holds four programs in Go and a few command-line drivers,
    and this library models them from their source and proves what makes them
    correct:

    - a Raft peer (src/src/raft/raft.go, persister.go) with the cluster it is
      tested in (src/src/raft/config.go);
    - labrpc, the simulated network that cluster runs on
      (src/src/labrpc/labrpc.go);
    - a MapReduce library with its sequential and distributed masters, its
      workers and two applications (src/src/mapreduce, src/src/main/wc.go,
      ii.go);
    - a gossip daemon over UDP with an HTTP interface
      (src/project/gossip/pkg/gossip, cmd/gossipd);
    - drivers for services whose packages are not in the repository
      (src/src/main/lockc.go, lockd.go, pbc.go, pbd.go, viewd.go, diskvd.go).

    ** How code becomes definitions

    A Go method that holds its mutex for its whole body is a function on the
    state the mutex protects.  A method that releases the lock (to make an RPC,
    to accept a connection) is cut there: each piece is a function, and a
    transition system runs the pieces of all goroutines in any order.  The
    transition functions ([step], [nstep], [wstep], [mstep], [dstep],
    [schedStep], [cstep], [gstep]) take a label that says which goroutine moves and what
    it draws from the clock, the random generator or a map's iteration order,
    so they are executable and a concrete execution is a list of labels.  An
    index or slice error is [None], [Panic] or [Panicked], [log.Fatal] and
    [t.Fatalf] are values too: "does not panic" is a theorem, not a convention.
    A Go [int] is a [Z]; the values here are counters, terms and indices that
    stay far from 2^63, and the one arithmetic that does wrap, the FNV hash of
    [ihash], is written out at 32 bits.

    ** Files

    Prelude.v has slices, loops, outcomes and the lemmas on them; GoStrings.v
    what is used of strconv, sort, strings, of the decoding of runes and of
    encoding/json's replacement of invalid UTF-8 ([toValid]).

    Raft.
    - RaftNode.v: the record [Raft] and every critical section of raft.go and
      persister.go ([RequestVote], [AppendEntries], [Heartbeat], [StartElection],
      [voteReply], [replicateBegin], [replicateReply], [tryAdvanceCommitLocked],
      [applyOne], [Start], [persist], [readPersist], [Make]).
    - RaftSystem.v: the cluster.  A [world] has the peers, the goroutines they
      have started, the RPCs in flight and what was sent on the apply channels;
      [step] is one critical section.  Messages are lost, delayed and
      reordered, and peers crash and restart from their persister.
    - RaftLog.v, RaftInv.v, RaftEvolve.v, RaftHistory.v: the loops on logs, the
      invariant [node_ok] of a peer, what a critical section may change, and
      the projection of an execution to one peer.
    - RaftSafety.v: no execution panics, and a crash loses nothing
      ([raft_never_panics], [crash_recovers]).
    - RaftPeer.v, RaftReplication.v: the handlers on every branch, elections by
      majority, the commit rule.
    - RaftElection.v, RaftEvents.v, RaftMatching.v: election safety and log
      matching, each by a history variable that only grows (the votes cast, the
      leaders' logs), what each critical section does to a log, and the
      termination of an undisturbed [replicateTo]'s repair of a follower, as a
      run of the cluster ([iterations], [replicateTo_repairs]).
    - RaftApply.v: the applier and the tester's reader of the apply channels.
    - RaftCommit.v, RaftAnnals.v, RaftCompleteness.v: what has been acknowledged
      and committed as two more histories, the invariant that ties them to a
      world, and leader completeness and state machine safety
      ([leader_completeness], [state_machine_safety]).
    - RaftAgreement.v: the tester's readers never stop such an execution.
    - RaftProgress.v, RaftService.v: what a majority can do.  From any world such
      an execution has reached, a majority of two or more peers has steps of
      its own ([quorum_steps]: no crash, no failed call, no step of another
      peer) that elect a leader, take a command, repair the followers' logs,
      commit and apply it everywhere ([majority_commits]).  A single peer has
      none: it elects itself and never commits ([alone_never_commits]).
    - RaftChecks.v: the tester's assertions ([checkOneLeader], [checkTerms],
      [checkNoLeader], [nCommitted], [wait], [one]) and what they say of a
      cluster they poll while it runs.
    - Tester.v: the tester's network set-up ([make_config], [connect],
      [disconnect], [crash1], [start1]) on labrpc's tables.
    - RaftNet.v: the peers on labrpc itself.  [xstep] interleaves the steps of
      the network, of every instance of [Raft] ever started and of the tester;
      a call is encoded, carried by [ProcessReq] and executed by the service of
      the instance its end leads to.  A crashed instance is not stopped.
      TesterTables.v, RaftNetSim.v, RaftNetRefines.v: every such execution is
      one of RaftSystem.v, and no running instance panics in its own
      goroutines, in a handler or on the return of a call, nor does the network
      ([raft_on_labrpc], [runs_safely]).
    - GobWire.v, RaftTraces.v, RaftCommitTraces.v, RaftNetTraces.v: a codec for the persisted
      state, and executions.

    Election safety, log matching and the theorems built on them hold for
    executions with timely replies ([timely]): no caller processes a granted
    vote of an election it is no longer running, nor a heartbeat reply that
    announces a term it has itself reached since.  RaftTraces.v shows that this
    is needed: the code compares a reply with the term of the request, and
    [stale_heartbeat_two_leaders] and [stale_vote_two_leaders] are executions
    with two leaders of a term.

    Leader completeness, state machine safety and the readers' theorem hold for
    executions that are also orderly ([orderly]): no AppendEntries request is
    executed whose entries the follower already has and more.  [syncLocked]
    cuts a log after the last entry it is given even when all entries match;
    [stale_append_diverges] is a timely execution in which such a request,
    delayed by the network, cuts a committed entry off a follower and two
    commands are applied at one index.  Nothing else is assumed of the network,
    the clocks or the crashes.

    labrpc.
    - LabRpc.v: [Network], [Server], [Service], [ClientEnd.Call] and
      [ProcessReq] as a transition system, its refinement to an abstract
      network ([labrpc_refines]: at most one execution per request, a true
      [Call] only after it), what deleting a server does to requests on their
      way, and when calls succeed and return.  LabTraces.v: executions.

    MapReduce.
    - MRFiles.v, MRTasks.v: the file system, [doMap], [doReduce], [merge],
      [CleanupFiles], [Sequential].
    - MRSpec.v: what a job computes ([report]), and that [Sequential] does.
      Theorems about a job assume [job_ok]: a positive number of reduce tasks,
      files that can be created, no intermediate file left over from an earlier
      job, no input that is an intermediate file, keys and values of valid
      UTF-8.
    - MRApps.v: the functions of word count and inverted index.
    - MRSchedule.v: [schedule] over workers whose calls fail, before or after
      the task is executed, and are retried; it cannot get stuck
      ([distributed_completes]).
    - MRShared.v, MROperations.v: [doMap] and [doReduce] one file operation at a
      time.
    - MRConcurrent.v: any number of executions of the same and of different
      tasks at once.  A descriptor writes at its own offset, so executions of
      one task write the same bytes at the same places; only [os.Create] undoes
      what another has written, and by [guarded] there is always an execution up
      to whose offset the file is right.  As long as none is under way when a
      phase returns, the result is the report ([overlapping_tasks]).
    - MRUndisturbed.v: these operations, one after the other, are [DoTask] of
      MRSchedule.v.
    - MRWorker.v, MRMaster.v: [RunWorker] with its quota and its [Shutdown],
      and the master's registration server; a worker executes a task one
      operation at a time, and several at once.
    - MRDistributed.v: [Distributed], [run], [killWorkers], [stopRPCServer] and
      [call] over the master, its server, the worker processes and the disk.
      Such an execution is one of MRConcurrent.v ([sim], [follows]).  If no
      worker is at a task when a phase returns ([calm_dsteps]), nothing panics
      and the merged output is the report ([distributed_job]); so it is if a
      call fails only when its request was refused or lost or has been executed
      ([late_dsteps]), and the output is then what [Sequential] computes
      ([distributed_equals_sequential]).  MRConcurrentTraces.v has an execution
      with one call that fails too early, which corrupts the output
      ([late_task_corrupts]).
    - MRMain.v: [main] of wc.go and ii.go, and word count from its command line
      to its output ([wc_main_report]).
    - MRExamples.v, MRTraces.v: a record codec, jobs and executions.

    Gossip.
    - GossipStore.v: the store; every rumor is pushed exactly once.
    - GossipNode.v: [Inject], [tickOnce], [pickPeers], [Handle], the
      anti-entropy messages and the HTTP handlers.
    - GossipNet.v: nodes and a soup of packets that may be lost, duplicated and
      reordered, and carry what [json.Unmarshal] makes of what [json.Marshal]
      wrote ([wire]); where rumors come from, that they are kept, that nothing
      panics, and that anti-entropy moves no rumor as long as identifiers are
      valid UTF-8 ([valid_ids]).
    - GossipDaemon.v: the process around a node: [main], [splitCSV], [Start] and
      its loops, the socket's reader, the HTTP server and [Close], which can
      always return and then stops everything ([daemon_closes]).
    - GossipFlood.v: with fanouts that cover the seeds a rumor is known after k
      rounds exactly within k hops; a round is a schedule of [gstep]s chosen
      for the theorem, not code.  GossipTraces.v: executions, one of them with
      an identifier that is not UTF-8 ([invalid_id_renamed]).

    Drivers.
    - Drivers.v: the six drivers over the services they call, which are
      parameters; when diskvd starts its server and with what
      ([diskvd_command_line]).

    ** Libraries outside the repository

    encoding/gob, encoding/json's records in MapReduce files and
    unicode.IsLetter are parameters: the
    classes [Gob]/[GobOk] and [Json]/[JsonOk] state the round trips the code
    relies on and have instances (GobWire.v, MRExamples.v); the handlers behind
    labrpc's reflection are functions; which names [os.Create] can create is
    the predicate [creatable].

    ** Fuel and bounds

    Loops that end for a reason other than their data take fuel, and a theorem
    says how much is enough: [applierLoop] needs one more than the entries it
    applies ([applier_sends_committed]), [decodeLoop] one more than the length
    of its input.  [replicateTo_repairs] bounds the iterations of [replicateTo]
    by the length of the leader's log.  The tester's polling loops run over the list of what they
    read: at most ten rounds in [checkOneLeader], thirty in [wait], and as many
    as fit into its seconds in [one]; the theorems hold for any number.

    ** What is abstracted

    - In MRSchedule.v one execution of a map or reduce task is one step, and is
      over when its call fails.  MRWorker.v and MRDistributed.v have its
      operations, also those of an execution whose call has failed.
      MRConcurrent.v has a master reduced to its phases, and there an execution
      may start at any moment of its phase, which is more than [schedule] does;
      only statements about all executions are made of it.  A decoder reads its
      file in pieces of any size and decodes it when it has reached the end.
    - A call in RaftSystem.v may also return a reply that was computed before
      the callee crashed, and goroutines of a crashed peer do not go on.  In
      RaftNet.v they do, and [raft_on_labrpc] says that it makes no difference
      to the peers; only what an old instance still sends on its own apply
      channel ([stray]) has no counterpart.  The tester's [connect],
      [disconnect] and [start1] are single steps there, [crash1] is two, and a
      peer is connected only while it is running.
    - UDP is the set of all packets sent; a packet is delivered any number of
      times, or never, as one too large for a datagram is.  Timers are arbitrary
      moments.
    - A connection to a MapReduce socket carries one request, which is what
      [call] sends; a worker's socket name is used by one process.

    ** Not modelled

    The debug prints (src/src/raft/util.go, [say], the mapreduce [debug] lines);
    the text of JSON and gob; sockets, listeners' backlogs and HTTP framing;
    the flag package's parsing of the gossip daemon's command line;
    [randstring] and [cleanup] of the tester; src/src/mapreduce/readme.go, which
    has only documentation, and src/HelloWorld.go, which prints one line.  The
    tests are not modelled either; RaftChecks.v and Tester.v model the harness
    they use.  Time is not measured: that a leader is elected within a bound
    on the clock is not stated. *)
From stdpp Require Export prelude strings gmap sorting.
From Stdlib Require Export ZArith Lia.

#[export] Set Default Goal Selector "!".
Open Scope Z_scope.

(** ** Go slices

    A Go slice of [T] is a list; an [int] index is a [Z].  The accessors
    return [None] exactly where the Go runtime panics with an index or slice
    bounds error, so "this operation never panics" is a provable statement
    and not a convention. *)

Definition len {A} (l : list A) : Z := Z.of_nat (length l).

Definition slice_get {A} (l : list A) (i : Z) : option A :=
  if decide (0 ≤ i) then l !! Z.to_nat i else None.

Definition slice_set {A} (l : list A) (i : Z) (x : A) : option (list A) :=
  if decide (0 ≤ i < len l) then Some (<[Z.to_nat i := x]> l) else None.

(** [l[i:]] *)
Definition slice_from {A} (l : list A) (i : Z) : option (list A) :=
  if decide (0 ≤ i ≤ len l) then Some (drop (Z.to_nat i) l) else None.

(** [l[:i]] *)
Definition slice_to {A} (l : list A) (i : Z) : option (list A) :=
  if decide (0 ≤ i ≤ len l) then Some (take (Z.to_nat i) l) else None.

(** The values [0, 1, ..., n-1] a loop [for i := 0; i < n; i++] visits. *)
Definition range (n : Z) : list Z := seqZ 0 n.

(** ** Lemmas on slices *)

Lemma len_nonneg {A} (l : list A) : 0 ≤ len l.
Proof. unfold len. lia. Qed.

Lemma len_nil {A} : len (@nil A) = 0.
Proof. done. Qed.

Lemma len_cons {A} (x : A) l : len (x :: l) = len l + 1.
Proof. unfold len. simpl. lia. Qed.

Lemma len_app {A} (l k : list A) : len (l ++ k) = len l + len k.
Proof. unfold len. rewrite length_app. lia. Qed.

Lemma len_insert {A} (l : list A) i x : len (<[i:=x]> l) = len l.
Proof. unfold len. by rewrite length_insert. Qed.

Lemma len_replicate {A} n (x : A) : len (replicate n x) = Z.of_nat n.
Proof. unfold len. by rewrite length_replicate. Qed.

Lemma len_take {A} (l : list A) i :
  0 ≤ i ≤ len l → len (take (Z.to_nat i) l) = i.
Proof. unfold len. rewrite length_take. lia. Qed.

Lemma len_drop {A} (l : list A) i :
  0 ≤ i ≤ len l → len (drop (Z.to_nat i) l) = len l - i.
Proof. unfold len. rewrite length_drop. lia. Qed.

Lemma slice_get_lookup {A} (l : list A) i x :
  slice_get l i = Some x ↔ 0 ≤ i ∧ l !! Z.to_nat i = Some x.
Proof. unfold slice_get. case_decide; naive_solver. Qed.

Lemma slice_get_Some {A} (l : list A) i :
  is_Some (slice_get l i) ↔ 0 ≤ i < len l.
Proof.
  unfold slice_get, len. case_decide.
  - rewrite lookup_lt_is_Some. lia.
  - split; [by intros []|lia].
Qed.

Lemma slice_get_inr {A} (l : list A) i :
  0 ≤ i < len l → ∃ x, slice_get l i = Some x.
Proof. intros H. by apply slice_get_Some. Qed.

Lemma slice_get_bound {A} (l : list A) i x :
  slice_get l i = Some x → 0 ≤ i < len l.
Proof. intros H. apply slice_get_Some. eauto. Qed.

Lemma slice_set_inr {A} (l : list A) i x :
  0 ≤ i < len l → slice_set l i x = Some (<[Z.to_nat i := x]> l).
Proof. intros H. unfold slice_set. by rewrite decide_True. Qed.

Lemma slice_set_Some {A} (l l' : list A) i x :
  slice_set l i x = Some l' ↔ 0 ≤ i < len l ∧ l' = <[Z.to_nat i := x]> l.
Proof. unfold slice_set. case_decide; naive_solver. Qed.

Lemma slice_from_inr {A} (l : list A) i :
  0 ≤ i ≤ len l → slice_from l i = Some (drop (Z.to_nat i) l).
Proof. intros H. unfold slice_from. by rewrite decide_True. Qed.

Lemma slice_from_Some {A} (l l' : list A) i :
  slice_from l i = Some l' ↔ 0 ≤ i ≤ len l ∧ l' = drop (Z.to_nat i) l.
Proof. unfold slice_from. case_decide; naive_solver. Qed.

Lemma slice_get_app_l {A} (l k : list A) i :
  i < len l → slice_get (l ++ k) i = slice_get l i.
Proof.
  intros H. unfold slice_get, len in *. case_decide; [|done].
  apply lookup_app_l. lia.
Qed.

Lemma slice_get_app_r {A} (l k : list A) i :
  len l ≤ i → slice_get (l ++ k) i = slice_get k (i - len l).
Proof.
  intros H. unfold slice_get, len in *.
  rewrite !decide_True by lia. rewrite lookup_app_r by lia. f_equal. lia.
Qed.

Lemma slice_get_take {A} (l : list A) n i :
  i < n → slice_get (take (Z.to_nat n) l) i = slice_get l i.
Proof.
  intros H. unfold slice_get. case_decide; [|done].
  apply lookup_take_lt. lia.
Qed.

Lemma slice_get_drop {A} (l : list A) n i :
  0 ≤ n → 0 ≤ i → slice_get (drop (Z.to_nat n) l) i = slice_get l (n + i).
Proof.
  intros Hn Hi. unfold slice_get. rewrite !decide_True by lia.
  rewrite lookup_drop. f_equal. lia.
Qed.

Lemma slice_get_insert_eq {A} (l : list A) i x :
  0 ≤ i < len l → slice_get (<[Z.to_nat i := x]> l) i = Some x.
Proof.
  intros H. unfold slice_get, len in *. rewrite decide_True by lia.
  apply list_lookup_insert_eq. lia.
Qed.

Lemma slice_get_insert_ne {A} (l : list A) i j x :
  0 ≤ i → i ≠ j → slice_get (<[Z.to_nat i := x]> l) j = slice_get l j.
Proof.
  intros H Hne. unfold slice_get. case_decide; [|done].
  apply list_lookup_insert_ne. lia.
Qed.

Lemma slice_get_replicate {A} n (x y : A) i :
  slice_get (replicate n x) i = Some y ↔ y = x ∧ 0 ≤ i < Z.of_nat n.
Proof.
  rewrite slice_get_lookup, lookup_replicate. split; [|naive_solver lia].
  intros (? & -> & ?). split; [done|lia].
Qed.

Lemma elem_of_range n i : i ∈ range n ↔ 0 ≤ i < n.
Proof. unfold range. rewrite elem_of_seqZ. lia. Qed.

Lemma fmap_range_get {A} (x : A) (l : list A) :
  (λ j, default x (slice_get l j)) <$> range (len l) = l.
Proof.
  apply list_eq. intros i. rewrite list_lookup_fmap. unfold range, slice_get.
  destruct (decide (i < length l)%nat) as [Hi|Hi].
  - rewrite lookup_seqZ_lt by (unfold len; lia). simpl. rewrite decide_True by lia.
    rewrite ?Z.add_0_l, Nat2Z.id. by destruct (lookup_lt_is_Some_2 l i Hi) as [y ->].
  - rewrite lookup_seqZ_ge by (unfold len; lia). symmetry. simpl. apply lookup_ge_None. lia.
Qed.

Lemma NoDup_range n : NoDup (range n).
Proof. apply NoDup_seqZ. Qed.

Lemma elem_of_insert_inv {A} (l : list A) k x y : y ∈ <[k:=x]> l → y = x ∨ y ∈ l.
Proof.
  intros (j & Hj)%list_elem_of_lookup_1.
  destruct (decide (j = k)) as [->|Hne].
  - left. pose proof (lookup_lt_Some _ _ _ Hj) as Hlt. rewrite length_insert in Hlt.
    rewrite list_lookup_insert_eq in Hj by done. congruence.
  - right. rewrite list_lookup_insert_ne in Hj by done. by eapply list_elem_of_lookup_2.
Qed.

Lemma NoDup_submseteq {A} (l k : list A) : l ⊆+ k → NoDup k → NoDup l.
Proof. intros [k' ->]%submseteq_Permutation. by intros [? _]%NoDup_app. Qed.

(** Removing or replacing the element at [k], seen through [omap]. *)
Lemma omap_delete {A B} (f : A → option B) l k x :
  l !! k = Some x → omap f l ≡ₚ option_list (f x) ++ omap f (delete k l).
Proof.
  intros H. rewrite (delete_Permutation l k x H) at 1. simpl. by destruct (f x).
Qed.

Lemma delete_insert {A} (l : list A) k y : delete k (<[k := y]> l) = delete k l.
Proof. revert k. induction l as [|x l IH]; intros [|k]; simpl; [done..|]. by rewrite IH. Qed.

Lemma omap_insert {A B} (f : A → option B) l k x y :
  l !! k = Some x →
  omap f (<[k := y]> l) ≡ₚ option_list (f y) ++ omap f (delete k l).
Proof.
  intros H. rewrite (omap_delete f (<[k:=y]> l) k y).
  - by rewrite delete_insert.
  - apply list_lookup_insert_eq. by eapply lookup_lt_Some.
Qed.

Lemma Forall_submseteq' {A} (P : A → Prop) (l k : list A) : l ⊆+ k → Forall P k → Forall P l.
Proof.
  intros Hs Hk. apply Forall_forall. intros x Hx.
  eapply Forall_forall in Hk; [done|]. by eapply elem_of_submseteq.
Qed.

Lemma omap_submseteq {A B} (f : A → option B) (l k : list A) : l ⊆+ k → omap f l ⊆+ omap f k.
Proof.
  intros [k' ->]%submseteq_Permutation. rewrite omap_app. by apply submseteq_inserts_r.
Qed.

Lemma omap_fmap_same {A B} (f : A → option B) (g : A → A) (l : list A) :
  (∀ x, f (g x) = f x) → omap f (g <$> l) = omap f l.
Proof. intros Hf. induction l as [|x l IH]; [done|]. cbn. by rewrite Hf, IH. Qed.

Create HintDb slices.
Create Rewrite HintDb slices.
#[export] Hint Rewrite @len_nil @len_cons @len_app @len_insert @len_replicate : slices.
#[export] Hint Resolve len_nonneg : slices.

(** ** Outcomes of a step

    What a step of a system can do: succeed, be impossible in this world (no
    such goroutine or message), or end the process. *)
Inductive outcome (A : Type) := Done (a : A) | Disabled | Panicked.
Arguments Done {A}.
Arguments Disabled {A}.
Arguments Panicked {A}.

Definition outcome_bind {A B} (m : outcome A) (k : A → outcome B) : outcome B :=
  match m with Done a => k a | Disabled => Disabled | Panicked => Panicked end.

Definition is_Done {A} (o : outcome A) : bool :=
  match o with Done _ => true | _ => false end.

(** A lookup that must succeed for the label to make sense. *)
Definition enabled {A} (o : option A) : outcome A :=
  match o with Some a => Done a | None => Disabled end.

(** A computation of the program, which may panic. *)
Definition program {A} (o : option A) : outcome A :=
  match o with Some a => Done a | None => Panicked end.

Declare Scope outcome_scope.
Delimit Scope outcome_scope with outcome.
Notation "x <~ m ; k" := (outcome_bind m (λ x, k))
  (at level 20, m at level 100, k at level 200, right associativity,
   only parsing) : outcome_scope.
Notation "' p <~ m ; k" := (outcome_bind m (λ x, match x with p => k end))
  (at level 20, p pattern, m at level 100, k at level 200, only parsing)
  : outcome_scope.

(** ** Results: a value, a run-time panic, or [log.Fatal] *)
Inductive result (A : Type) := Ok (a : A) | Panic | Fatal.
Arguments Ok {A}.
Arguments Panic {A}.
Arguments Fatal {A}.

Definition result_bind {A B} (m : result A) (k : A → result B) : result B :=
  match m with Ok a => k a | Panic => Panic | Fatal => Fatal end.

Declare Scope result_scope.
Delimit Scope result_scope with result.
Notation "x <- m ; k" := (result_bind m (λ x, k))
  (at level 20, m at level 100, k at level 200, right associativity,
   only parsing) : result_scope.

(** The loop [for x := range l { s = body(x, s) }]. *)
Fixpoint forEach {A S} (body : A → S → result S) (l : list A) (s : S) : result S :=
  match l with
  | [] => Ok s
  | x :: l => (s <- body x s; forEach body l s)%result
  end.

Lemma forEach_app {A S} (body : A → S → result S) l k s :
  forEach body (l ++ k) s = (s <- forEach body l s; forEach body k s)%result.
Proof. revert s. induction l as [|x l IH]; intros s; simpl; [done|]. destruct (body x s); simpl; [apply IH|done..]. Qed.

Lemma result_bind_Ok {A B} (m : result A) (k : A → result B) b :
  result_bind m k = Ok b ↔ ∃ a, m = Ok a ∧ k a = Ok b.
Proof. destruct m; simpl; naive_solver. Qed.

(** What holds of one turn of the loop and composes holds of the loop. *)
Lemma forEach_rel {A S} (R : S → S → Prop) `{!PreOrder R} (body : A → S → result S) l s s' :
  (∀ x s s', body x s = Ok s' → R s s') → forEach body l s = Ok s' → R s s'.
Proof.
  intros Hb. revert s. induction l as [|x l IH]; intros s; cbn [forEach]; [by intros [= ->]|].
  intros (s1 & H1%Hb & H2%IH)%result_bind_Ok. by trans s1.
Qed.

(** A computation that ends the process when it does not return. *)
Definition outcome_of {A} (r : result A) : outcome A :=
  match r with Ok a => Done a | _ => Panicked end.
