(* ===== verification/RaftNode.v ===== *)
(** * The Raft peer (src/src/raft/raft.go, src/src/raft/persister.go)

    The state of one peer ([Raft]) and every operation raft.go performs on it,
    in the order of the source.  Each definition is the body of one critical
    section: raft.go takes [rf.mu] at its start and releases it at its end, so
    a critical section is an atomic function from states to states.  Where a
    Go function releases the lock to perform an RPC ([StartElection],
    [StartHeartbeat], [replicateTo]) it is split at that point, and the
    goroutines it starts are returned as data ([goroutine]); RaftSystem.v
    interleaves them.

    An operation that can panic (index out of range) returns [option]; [None]
    is the panic.  Time ([time.Now]) and randomness ([rand.Int63n]) are inputs
    ([Env]). *)
From S2P Require Import Prelude.

(** ** Persister *)

(** A [Persister] is two byte slices; [nil] and the empty slice are the same
    to every caller. *)
Record Persister := mkPersister { raftstate : list Z; snapshot : list Z }.

Definition MakePersister : Persister := mkPersister [] [].
Definition Copy (ps : Persister) : Persister :=
  mkPersister ps.(raftstate) ps.(snapshot).
Definition SaveRaftState (data : list Z) (ps : Persister) : Persister :=
  mkPersister data ps.(snapshot).
Definition ReadRaftState (ps : Persister) : list Z := ps.(raftstate).
Definition RaftStateSize (ps : Persister) : Z := len ps.(raftstate).
Definition SaveSnapshot (data : list Z) (ps : Persister) : Persister :=
  mkPersister ps.(raftstate) data.
Definition ReadSnapshot (ps : Persister) : list Z := ps.(snapshot).

(** What the tester does with the persister of a peer it kills ([crash1] of
    src/src/raft/config.go: only the Raft state survives) and restarts
    ([start1], which copies it once more). *)
Definition crash1 (ps : Persister) : Persister :=
  SaveRaftState (ReadRaftState (Copy ps)) MakePersister.
Definition start1 (ps : Persister) : Persister := Copy (crash1 ps).

(** ** Data *)

Record ApplyMsg (Cmd : Type) := mkApplyMsg {
  amIndex : Z; amCommand : option Cmd;
  amUseSnapshot : bool; amSnapshot : list Z
}.
Arguments mkApplyMsg {Cmd}.
Arguments amIndex {Cmd}.
Arguments amCommand {Cmd}.
Arguments amUseSnapshot {Cmd}.
Arguments amSnapshot {Cmd}.

(** [Command interface{}] is a value of an arbitrary type; [None] is the nil
    interface the dummy entry at index 0 carries. *)
Record LogEntry (Cmd : Type) := mkEntry { eTerm : Z; eCommand : option Cmd }.
Arguments mkEntry {Cmd}.
Arguments eTerm {Cmd}.
Arguments eCommand {Cmd}.

#[export] Instance LogEntry_eq_dec {Cmd} `{EqDecision Cmd} : EqDecision (LogEntry Cmd).
Proof. solve_decision. Defined.

Inductive state := leader | candidate | follower.

#[export] Instance state_eq_dec : EqDecision state.
Proof. solve_decision. Defined.

Definition Millisecond : Z := 1000000.
Definition minElectionTimeout : Z := 500 * Millisecond.
Definition maxElectionTimeout : Z := 900 * Millisecond.
Definition heartbeatInterval : Z := 100 * Millisecond.

(** What a critical section reads of the outside world: the clock, and the
    draw behind [rand.Int63n]. *)
Record Env := mkEnv { now : Z; draw : Z }.

(** [rand.Int63n(n)] reduces an accepted draw modulo [n]. *)
Definition Int63n (env : Env) (n : Z) : Z := env.(draw) mod n.

Record Raft (Cmd : Type) := mkRaft {
  peers : list string;        (* the ClientEnds, by end name *)
  persister : Persister;
  me : Z;
  rstate : state;
  term : Z;
  votedFor : Z;
  electionTimeout : Z;
  lastHeartbeat : Z;
  voteCount : Z;
  log : list (LogEntry Cmd);
  commitIndex : Z;
  lastApplied : Z;
  nextIndex : list Z;
  matchIndex : list Z
}.
Arguments mkRaft {Cmd}.
Arguments peers {Cmd}.
Arguments persister {Cmd}.
Arguments me {Cmd}.
Arguments rstate {Cmd}.
Arguments term {Cmd}.
Arguments votedFor {Cmd}.
Arguments electionTimeout {Cmd}.
Arguments lastHeartbeat {Cmd}.
Arguments voteCount {Cmd}.
Arguments log {Cmd}.
Arguments commitIndex {Cmd}.
Arguments lastApplied {Cmd}.
Arguments nextIndex {Cmd}.
Arguments matchIndex {Cmd}.

(** Field updates [rf.f = v]. *)
Definition set_persister {Cmd} v (rf : Raft Cmd) : Raft Cmd :=
  mkRaft rf.(peers) v rf.(me) rf.(rstate) rf.(term) rf.(votedFor)
    rf.(electionTimeout) rf.(lastHeartbeat) rf.(voteCount) rf.(log)
    rf.(commitIndex) rf.(lastApplied) rf.(nextIndex) rf.(matchIndex).
Definition set_rstate {Cmd} v (rf : Raft Cmd) : Raft Cmd :=
  mkRaft rf.(peers) rf.(persister) rf.(me) v rf.(term) rf.(votedFor)
    rf.(electionTimeout) rf.(lastHeartbeat) rf.(voteCount) rf.(log)
    rf.(commitIndex) rf.(lastApplied) rf.(nextIndex) rf.(matchIndex).
Definition set_term {Cmd} v (rf : Raft Cmd) : Raft Cmd :=
  mkRaft rf.(peers) rf.(persister) rf.(me) rf.(rstate) v rf.(votedFor)
    rf.(electionTimeout) rf.(lastHeartbeat) rf.(voteCount) rf.(log)
    rf.(commitIndex) rf.(lastApplied) rf.(nextIndex) rf.(matchIndex).
Definition set_votedFor {Cmd} v (rf : Raft Cmd) : Raft Cmd :=
  mkRaft rf.(peers) rf.(persister) rf.(me) rf.(rstate) rf.(term) v
    rf.(electionTimeout) rf.(lastHeartbeat) rf.(voteCount) rf.(log)
    rf.(commitIndex) rf.(lastApplied) rf.(nextIndex) rf.(matchIndex).
Definition set_electionTimeout {Cmd} v (rf : Raft Cmd) : Raft Cmd :=
  mkRaft rf.(peers) rf.(persister) rf.(me) rf.(rstate) rf.(term) rf.(votedFor) v
    rf.(lastHeartbeat) rf.(voteCount) rf.(log) rf.(commitIndex) rf.(lastApplied)
    rf.(nextIndex) rf.(matchIndex).
Definition set_lastHeartbeat {Cmd} v (rf : Raft Cmd) : Raft Cmd :=
  mkRaft rf.(peers) rf.(persister) rf.(me) rf.(rstate) rf.(term) rf.(votedFor)
    rf.(electionTimeout) v rf.(voteCount) rf.(log) rf.(commitIndex)
    rf.(lastApplied) rf.(nextIndex) rf.(matchIndex).
Definition set_voteCount {Cmd} v (rf : Raft Cmd) : Raft Cmd :=
  mkRaft rf.(peers) rf.(persister) rf.(me) rf.(rstate) rf.(term) rf.(votedFor)
    rf.(electionTimeout) rf.(lastHeartbeat) v rf.(log) rf.(commitIndex)
    rf.(lastApplied) rf.(nextIndex) rf.(matchIndex).
Definition set_log {Cmd} v (rf : Raft Cmd) : Raft Cmd :=
  mkRaft rf.(peers) rf.(persister) rf.(me) rf.(rstate) rf.(term) rf.(votedFor)
    rf.(electionTimeout) rf.(lastHeartbeat) rf.(voteCount) v rf.(commitIndex)
    rf.(lastApplied) rf.(nextIndex) rf.(matchIndex).
Definition set_commitIndex {Cmd} v (rf : Raft Cmd) : Raft Cmd :=
  mkRaft rf.(peers) rf.(persister) rf.(me) rf.(rstate) rf.(term) rf.(votedFor)
    rf.(electionTimeout) rf.(lastHeartbeat) rf.(voteCount) rf.(log) v
    rf.(lastApplied) rf.(nextIndex) rf.(matchIndex).
Definition set_lastApplied {Cmd} v (rf : Raft Cmd) : Raft Cmd :=
  mkRaft rf.(peers) rf.(persister) rf.(me) rf.(rstate) rf.(term) rf.(votedFor)
    rf.(electionTimeout) rf.(lastHeartbeat) rf.(voteCount) rf.(log)
    rf.(commitIndex) v rf.(nextIndex) rf.(matchIndex).
Definition set_nextIndex {Cmd} v (rf : Raft Cmd) : Raft Cmd :=
  mkRaft rf.(peers) rf.(persister) rf.(me) rf.(rstate) rf.(term) rf.(votedFor)
    rf.(electionTimeout) rf.(lastHeartbeat) rf.(voteCount) rf.(log)
    rf.(commitIndex) rf.(lastApplied) v rf.(matchIndex).
Definition set_matchIndex {Cmd} v (rf : Raft Cmd) : Raft Cmd :=
  mkRaft rf.(peers) rf.(persister) rf.(me) rf.(rstate) rf.(term) rf.(votedFor)
    rf.(electionTimeout) rf.(lastHeartbeat) rf.(voteCount) rf.(log)
    rf.(commitIndex) rf.(lastApplied) rf.(nextIndex) v.

(** ** RPC arguments and replies *)

Record RequestVoteArgs := mkRVArgs {
  rvElectionTerm : Z; rvCandidateID : Z; rvLastLogIndex : Z; rvLastLogTerm : Z
}.
Record RequestVoteReply := mkRVReply { rvrElectionTerm : Z; rvrVote : bool }.

Record HeartbeatArgs := mkHBArgs { hbLeaderID : Z; hbTerm : Z; hbEntry : Z }.
Record HeartbeatReply := mkHBReply { hbrTerm : Z; hbrStatus : bool }.

Record AppendEntriesArgs (Cmd : Type) := mkAEArgs {
  aeTerm : Z; aeLeaderID : Z; aePrevLogIndex : Z; aePrevLogTerm : Z;
  aeEntries : list (LogEntry Cmd); aeLeaderCommit : Z
}.
Arguments mkAEArgs {Cmd}.
Arguments aeTerm {Cmd}.
Arguments aeLeaderID {Cmd}.
Arguments aePrevLogIndex {Cmd}.
Arguments aePrevLogTerm {Cmd}.
Arguments aeEntries {Cmd}.
Arguments aeLeaderCommit {Cmd}.
Record AppendEntriesReply := mkAEReply {
  aerTerm : Z; aerSuccess : bool; aerConflictTerm : Z; aerConflictIndex : Z
}.

(** The goroutines a critical section starts.  [GReplicate ps t] runs
    [replicateTo(p, t)] for the peers of [ps] one after the other: the
    goroutine of [becomeLeaderLocked] has all the other peers, a
    [go rf.replicateTo(p, t)] has one.  [GVote] is the body of the goroutine
    of [StartElection], [GHeartbeat] that of [StartHeartbeat];
    [GStartHeartbeat] is the call of [StartHeartbeat] after a won election. *)
Inductive goroutine :=
| GReplicate (ps : list Z) (leaderTerm : Z)
| GVote (peer : Z) (args : RequestVoteArgs) (term nPeers : Z)
| GHeartbeat (peer t : Z)
| GStartHeartbeat.

(** ** encoding/gob, as persist and readPersist use it

    One [gob.Encoder] writes a term, a vote and a log; one [gob.Decoder] reads
    them back in the same order.  [gob_ok] is what the package documents: a
    decoder reads back the values of the stream in the order they were
    written. *)
Class Gob (Cmd : Type) := {
  enc_int : Z → list Z;
  enc_log : list (LogEntry Cmd) → list Z;
  dec_int : list Z → option (Z * list Z);
  dec_log : list Z → option (list (LogEntry Cmd) * list Z)
}.

Class GobOk (Cmd : Type) `{!Gob Cmd} := {
  dec_enc_int z rest : dec_int (enc_int z ++ rest) = Some (z, rest);
  dec_enc_log l rest : dec_log (enc_log l ++ rest) = Some (l, rest);
  enc_int_nonempty z : enc_int z ≠ []
}.

(** ** Operations *)

Section operations.
Context {Cmd : Type} `{!Gob Cmd}.
Implicit Types (rf : Raft Cmd) (env : Env).

Definition persist rf : Raft Cmd :=
  let data := enc_int rf.(term) ++ enc_int rf.(votedFor) ++ enc_log rf.(log) in
  set_persister (SaveRaftState data rf.(persister)) rf.

(** The entry [LogEntry{Term: 0}] every log starts with. *)
Definition dummyEntry : LogEntry Cmd := mkEntry 0 None.

Definition readPersist (data : list Z) rf : Raft Cmd :=
  match data with
  | [] => rf
  | _ =>
    match
      '(t, data1) ← dec_int data;
      '(v, data2) ← dec_int data1;
      '(l, _) ← dec_log data2;
      Some (t, v, l)
    with
    | None => rf
    | Some (t, v, l) =>
      let rf := set_votedFor v (set_term t rf) in
      match l with
      | [] => set_log [dummyEntry] rf
      | _ => set_log l rf
      end
    end
  end.

Definition resetElectionTimeoutLocked env rf : Raft Cmd :=
  set_electionTimeout
    (Int63n env (maxElectionTimeout - minElectionTimeout) + minElectionTimeout) rf.

Definition updateLastHeartbeatLocked env rf : Raft Cmd :=
  set_lastHeartbeat env.(now) rf.

Definition stepDownLocked env (t : Z) rf : Raft Cmd :=
  let rf := if decide (t > rf.(term)) then set_term t rf else rf in
  let rf := set_votedFor (-1) rf in
  let rf := set_rstate follower rf in
  let rf := set_voteCount 0 rf in
  let rf := persist rf in
  let rf := updateLastHeartbeatLocked env rf in
  resetElectionTimeoutLocked env rf.

Definition lastLogIndexLocked rf : Z := len rf.(log) - 1.

Definition lastLogTermLocked rf : option Z :=
  eTerm <$> slice_get rf.(log) (len rf.(log) - 1).

Definition termAtLocked rf (i : Z) : Z :=
  if decide (i = 0) then 0
  else match slice_get rf.(log) i with
       | None => -1
       | Some e => e.(eTerm)
       end.

Definition logContainsLocked rf (prevIndex prevTerm : Z) : bool :=
  if decide (prevIndex = 0) then bool_decide (prevTerm = 0)
  else match slice_get rf.(log) prevIndex with
       | None => false
       | Some e => bool_decide (e.(eTerm) = prevTerm)
       end.

(** The peers other than [rf.me], in the order of the loops over [rf.peers]. *)
Definition otherPeers rf : list Z :=
  filter (λ p, p ≠ rf.(me)) (range (len rf.(peers))).

Definition becomeLeaderLocked rf : option (Raft Cmd * list goroutine) :=
  let rf := set_rstate leader rf in
  let rf := persist rf in
  let n := length rf.(peers) in
  let last := lastLogIndexLocked rf in
  let rf := set_nextIndex (replicate n (last + 1)) rf in
  let rf := set_matchIndex (replicate n 0) rf in
  mi ← slice_set rf.(matchIndex) rf.(me) last;
  let rf := set_matchIndex mi rf in
  ni ← slice_set rf.(nextIndex) rf.(me) (last + 1);
  let rf := set_nextIndex ni rf in
  Some (rf, [GReplicate (otherPeers rf) rf.(term)]).

Definition GetState rf : Z * bool :=
  (rf.(term), bool_decide (rf.(rstate) = leader)).

Definition RequestVote env (args : RequestVoteArgs) rf
    : option (Raft Cmd * RequestVoteReply) :=
  let reply := mkRVReply rf.(term) false in
  if decide (args.(rvElectionTerm) < rf.(term)) then Some (rf, reply)
  else
    let rf := if decide (args.(rvElectionTerm) > rf.(term))
              then stepDownLocked env args.(rvElectionTerm) rf else rf in
    let myLastIdx := lastLogIndexLocked rf in
    myLastTerm ← lastLogTermLocked rf;
    let upToDate :=
      bool_decide (args.(rvLastLogTerm) > myLastTerm) ||
      (bool_decide (args.(rvLastLogTerm) = myLastTerm) &&
       bool_decide (args.(rvLastLogIndex) >= myLastIdx)) in
    if (bool_decide (rf.(votedFor) = -1) ||
        bool_decide (rf.(votedFor) = args.(rvCandidateID))) && upToDate
    then
      let rf := set_votedFor args.(rvCandidateID) rf in
      Some (persist rf, mkRVReply rf.(term) true)
    else Some (rf, reply).

Definition StartElection env rf : option (Raft Cmd * list goroutine) :=
  let rf := resetElectionTimeoutLocked env rf in
  let rf := set_term (rf.(term) + 1) rf in
  let rf := set_rstate candidate rf in
  let rf := set_votedFor rf.(me) rf in
  let rf := set_voteCount 1 rf in
  let nPeers := len rf.(peers) in
  let lastIdx := lastLogIndexLocked rf in
  lastTerm ← lastLogTermLocked rf;
  let rf := persist rf in
  let rf := updateLastHeartbeatLocked env rf in
  if decide (rf.(voteCount) > nPeers / 2) then becomeLeaderLocked rf
  else
    let args := mkRVArgs rf.(term) rf.(me) lastIdx lastTerm in
    Some (rf, (λ p, GVote p args rf.(term) nPeers) <$> otherPeers rf).

(** The part of [StartElection]'s goroutine after the RPC returned [true]. *)
Definition voteReply env (t nPeers : Z) (reply : RequestVoteReply) rf
    : option (Raft Cmd * list goroutine) :=
  if decide (reply.(rvrElectionTerm) > rf.(term)) then
    Some (stepDownLocked env reply.(rvrElectionTerm) rf, [])
  else if reply.(rvrVote) then
    let rf := set_voteCount (rf.(voteCount) + 1) rf in
    if decide (rf.(voteCount) > nPeers / 2 ∧ rf.(rstate) = candidate ∧
               rf.(term) = t) then
      '(rf, gs) ← becomeLeaderLocked rf;
      Some (rf, gs ++ [GStartHeartbeat])
    else Some (rf, [])
  else Some (rf, []).

Definition Heartbeat env (args : HeartbeatArgs) rf : Raft Cmd * HeartbeatReply :=
  if decide (args.(hbTerm) < rf.(term)) then (rf, mkHBReply rf.(term) false)
  else
    let rf := if decide (args.(hbTerm) > rf.(term))
              then set_votedFor (-1) (set_term args.(hbTerm) rf) else rf in
    let rf := if decide (rf.(rstate) ≠ follower)
              then set_rstate follower rf else rf in
    let rf := updateLastHeartbeatLocked env rf in
    let rf := persist rf in
    (rf, mkHBReply rf.(term) true).

Definition StartHeartbeat env rf : Raft Cmd * list goroutine :=
  let rf := updateLastHeartbeatLocked env rf in
  (rf, (λ p, GHeartbeat p rf.(term)) <$> otherPeers rf).

(** The arguments [StartHeartbeat]'s goroutine sends to a peer. *)
Definition heartbeatArgs rf (t : Z) : HeartbeatArgs := mkHBArgs rf.(me) t 0.

(** The critical section of [StartHeartbeat]'s goroutine after the RPC; a
    failed RPC leaves the zero reply.  The goroutine goes on with
    [replicateTo] in either case. *)
Definition heartbeatReply env (t : Z) (reply : HeartbeatReply) rf : Raft Cmd :=
  if decide (reply.(hbrTerm) > t) then stepDownLocked env reply.(hbrTerm) rf else rf.

Definition Make env (ends : list string) (i : Z) (ps : Persister) : Raft Cmd :=
  let rf := mkRaft ends ps i follower 0 (-1) 0 0 0 [dummyEntry] 0 0 [] [] in
  let rf := resetElectionTimeoutLocked env rf in
  let rf := updateLastHeartbeatLocked env rf in
  readPersist (ReadRaftState ps) rf.

(** *** life

    One round of the main loop reads the state under the lock, releases it,
    and acts later on what it read ([LifeSnapshot]). *)
Record LifeSnapshot := mkLife {
  lsState : state; lsTerm : Z; lsLastHeartbeat : Z; lsTimeout : Z
}.

Definition lifeRead rf : LifeSnapshot :=
  mkLife rf.(rstate) rf.(term) rf.(lastHeartbeat) rf.(electionTimeout).

Inductive lifeAction := LifeStartElection | LifeStartHeartbeat | LifeNothing.

Definition lifeDecide (t : Z) (s : LifeSnapshot) : lifeAction :=
  match s.(lsState) with
  | follower | candidate =>
    if decide (t - s.(lsLastHeartbeat) > s.(lsTimeout))
    then LifeStartElection else LifeNothing
  | leader => LifeStartHeartbeat
  end.

Definition lifeAct env (s : LifeSnapshot) rf : option (Raft Cmd * list goroutine) :=
  match lifeDecide env.(now) s with
  | LifeStartElection => StartElection env rf
  | LifeStartHeartbeat => Some (StartHeartbeat env rf)
  | LifeNothing => Some (rf, [])
  end.

(** *** AppendEntries *)

(** [for i > 0 && rf.termAtLocked(i-1) == ct { i-- }] *)
Fixpoint firstIndexOfTerm rf (ct : Z) (i : nat) : Z :=
  match i with
  | O => 0
  | S j => if decide (termAtLocked rf (Z.of_nat j) = ct)
           then firstIndexOfTerm rf ct j else Z.of_nat i
  end.

(** The loop of [syncLocked]: the number of positions by which [i] and [j]
    advance while the terms agree. *)
Fixpoint matchingPrefix (l entries : list (LogEntry Cmd)) : nat :=
  match l, entries with
  | x :: l, y :: entries =>
    if decide (x.(eTerm) = y.(eTerm)) then S (matchingPrefix l entries) else O
  | _, _ => O
  end.

Definition syncLocked (startIndex : Z) (entries : list (LogEntry Cmd)) rf : Raft Cmd :=
  if decide (len entries = 0) then rf
  else
    let startIndex := if decide (startIndex < 0) then 0 else startIndex in
    let startIndex := if decide (startIndex > len rf.(log))
                      then len rf.(log) else startIndex in
    let s := Z.to_nat startIndex in
    let j := matchingPrefix (drop s rf.(log)) entries in
    let rf := set_log (take (s + j) rf.(log)) rf in
    if decide (Z.of_nat j < len entries)
    then set_log (rf.(log) ++ drop j entries) rf
    else rf.

Definition AppendEntries env (args : AppendEntriesArgs Cmd) rf
    : Raft Cmd * AppendEntriesReply :=
  let t0 := rf.(term) in
  if decide (args.(aeTerm) < rf.(term)) then (rf, mkAEReply t0 false 0 0)
  else
    let rf := if decide (args.(aeTerm) > rf.(term))
              then stepDownLocked env args.(aeTerm) rf
              else if decide (rf.(rstate) ≠ follower)
                   then set_rstate follower rf else rf in
    let rf := updateLastHeartbeatLocked env rf in
    if decide (args.(aePrevLogIndex) > lastLogIndexLocked rf) then
      (rf, mkAEReply t0 false (-1) (lastLogIndexLocked rf + 1))
    else if decide (args.(aePrevLogIndex) >= 0 ∧
                    termAtLocked rf args.(aePrevLogIndex) ≠ args.(aePrevLogTerm)) then
      let ct := termAtLocked rf args.(aePrevLogIndex) in
      (rf, mkAEReply t0 false ct
             (firstIndexOfTerm rf ct (Z.to_nat args.(aePrevLogIndex))))
    else
      let rf := syncLocked (args.(aePrevLogIndex) + 1) args.(aeEntries) rf in
      let reply := mkAEReply rf.(term) true 0 0 in
      let rf := persist rf in
      let rf :=
        if decide (args.(aeLeaderCommit) > rf.(commitIndex)) then
          let max := lastLogIndexLocked rf in
          let max := if decide (args.(aeLeaderCommit) < max)
                     then args.(aeLeaderCommit) else max in
          set_commitIndex max rf
        else rf in
      (rf, reply).

(** *** replicateTo

    [replicateBegin] is the first critical section of an iteration: [None] as
    the second component is the early return of a deposed leader. *)
Definition replicateBegin (peer leaderTerm : Z) rf
    : option (Raft Cmd * option (AppendEntriesArgs Cmd)) :=
  if decide (rf.(rstate) ≠ leader ∨ rf.(term) ≠ leaderTerm) then Some (rf, None)
  else
    next ← slice_get rf.(nextIndex) peer;
    '(next, rf) ← (if decide (next < 1) then
                     ni ← slice_set rf.(nextIndex) peer 1;
                     Some (1, set_nextIndex ni rf)
                   else Some (next, rf));
    let prevIdx := next - 1 in
    let prevTerm := termAtLocked rf prevIdx in
    entries ← slice_from rf.(log) next;
    Some (rf, Some (mkAEArgs rf.(term) rf.(me) prevIdx prevTerm entries
                      rf.(commitIndex))).

(** The inner loop of [tryAdvanceCommitLocked]: how many peers (counting
    ourselves) hold index [N]. *)
Definition countMatches rf (N : Z) : option Z :=
  foldl (λ acc i,
           count ← acc;
           if decide (i = rf.(me)) then Some count
           else
             m ← slice_get rf.(matchIndex) i;
             Some (if decide (m >= N) then count + 1 else count))
        (Some 1) (range (len rf.(peers))).

(** The outer loop of [tryAdvanceCommitLocked] from [N = commitIndex + k]
    down: the new commit index, if one is found. *)
Fixpoint scanCommit rf (k : nat) : option (option Z) :=
  match k with
  | O => Some None
  | S k' =>
    let N := rf.(commitIndex) + Z.of_nat k in
    e ← slice_get rf.(log) N;
    if decide (e.(eTerm) ≠ rf.(term)) then scanCommit rf k'
    else
      count ← countMatches rf N;
      if decide (count > len rf.(peers) / 2) then Some (Some N)
      else scanCommit rf k'
  end.

Definition tryAdvanceCommitLocked rf : option (Raft Cmd * list goroutine) :=
  r ← scanCommit rf (Z.to_nat (lastLogIndexLocked rf - rf.(commitIndex)));
  match r with
  | None => Some (rf, [])
  | Some N =>
    let rf := set_commitIndex N rf in
    Some (rf, (λ p, GReplicate [p] rf.(term)) <$> otherPeers rf)
  end.

(** [for i := rf.lastLogIndexLocked(); i >= 1; i--]: the last index that
    holds the conflicting term, or -1. *)
Fixpoint lastIndexOfTerm rf (ct : Z) (i : nat) : option Z :=
  match i with
  | O => Some (-1)
  | S j =>
    e ← slice_get rf.(log) (Z.of_nat i);
    if decide (e.(eTerm) = ct) then Some (Z.of_nat i)
    else if decide (e.(eTerm) < ct) then Some (-1)
    else lastIndexOfTerm rf ct j
  end.

(** Where an iteration of [replicateTo] ends: the goroutine returns, after
    starting the goroutines listed, or the loop runs again. *)
Inductive replNext := ReplReturn (gs : list goroutine) | ReplAgain.

Definition replicateReply env (peer leaderTerm : Z) (args : AppendEntriesArgs Cmd)
    (reply : AppendEntriesReply) rf : option (Raft Cmd * replNext) :=
  if decide (reply.(aerTerm) > rf.(term)) then
    Some (stepDownLocked env reply.(aerTerm) rf, ReplReturn [])
  else if decide (rf.(term) ≠ leaderTerm ∨ rf.(rstate) ≠ leader) then
    Some (rf, ReplReturn [])
  else if reply.(aerSuccess) then
    let mtch := args.(aePrevLogIndex) + len args.(aeEntries) in
    cur ← slice_get rf.(matchIndex) peer;
    rf ← (if decide (mtch > cur) then
            mi ← slice_set rf.(matchIndex) peer mtch;
            ni ← slice_set rf.(nextIndex) peer (mtch + 1);
            Some (set_nextIndex ni (set_matchIndex mi rf))
          else Some rf);
    '(rf, gs) ← tryAdvanceCommitLocked rf;
    Some (rf, ReplReturn gs)
  else
    next ← (if decide (reply.(aerConflictTerm) = -1) then
              Some reply.(aerConflictIndex)
            else
              last ← lastIndexOfTerm rf reply.(aerConflictTerm)
                       (Z.to_nat (lastLogIndexLocked rf));
              Some (if decide (last ≠ -1) then last + 1
                    else reply.(aerConflictIndex)));
    ni ← slice_set rf.(nextIndex) peer next;
    let rf := set_nextIndex ni rf in
    rf ← (if decide (next < 1) then
            ni ← slice_set rf.(nextIndex) peer 1;
            Some (set_nextIndex ni rf)
          else Some rf);
    Some (rf, ReplAgain).

(** *** applier and Start *)

(** One turn of the applier's inner loop: the message sent on [applyCh], or
    [None] when there is nothing to apply yet. *)
Definition applyOne rf : option (Raft Cmd * option (ApplyMsg Cmd)) :=
  if decide (rf.(lastApplied) >= rf.(commitIndex)) then Some (rf, None)
  else
    let next := rf.(lastApplied) + 1 in
    if decide (next >= len rf.(log)) then Some (rf, None)
    else
      let rf := set_lastApplied next rf in
      e ← slice_get rf.(log) next;
      Some (rf, Some (mkApplyMsg next e.(eCommand) false [])).

Definition Start (command : Cmd) rf
    : option (Raft Cmd * (Z * Z * bool) * list goroutine) :=
  if decide (rf.(rstate) ≠ leader) then Some (rf, (-1, rf.(term), false), [])
  else
    let rf := set_log (rf.(log) ++ [mkEntry rf.(term) (Some command)]) rf in
    let index := len rf.(log) - 1 in
    let rf := persist rf in
    mi ← slice_set rf.(matchIndex) rf.(me) index;
    let rf := set_matchIndex mi rf in
    ni ← slice_set rf.(nextIndex) rf.(me) (index + 1);
    let rf := set_nextIndex ni rf in
    Some (rf, (index, rf.(term), true),
          (λ p, GReplicate [p] rf.(term)) <$> otherPeers rf).

End operations.
