(* ===== verification/RaftLog.v ===== *)
(** * Raft's log operations: functional specifications

    What the loops of raft.go compute on the log: the merge of
    [syncLocked], the conflict search of [AppendEntries], the search of a
    conflicting term by [replicateTo] and the commit rule of
    [tryAdvanceCommitLocked]. *)
From S2P Require Import Prelude RaftNode.

Section log.
Context {Cmd : Type}.
Implicit Types (rf : Raft Cmd) (l es : list (LogEntry Cmd)).

(** ** The commit rule *)

(** Peer [i] other than ourselves is known to hold index [N]. *)
Definition holds rf (N i : Z) : bool :=
  bool_decide (i ≠ rf.(me)) &&
  match slice_get rf.(matchIndex) i with
  | Some m => bool_decide (m >= N)
  | None => false
  end.

(** The peers known to hold index [N], ourselves excluded. *)
Definition holders rf (N : Z) : list Z :=
  filter (λ i, holds rf N i = true) (range (len rf.(peers))).

(** What the paper lets a leader commit: an entry of its own term that a
    majority (the leader included) holds. *)
Definition committable rf (N : Z) : Prop :=
  (∃ e, slice_get rf.(log) N = Some e ∧ e.(eTerm) = rf.(term)) ∧
  1 + len (holders rf N) > len rf.(peers) / 2.

Lemma holds_true rf N i m :
  slice_get rf.(matchIndex) i = Some m →
  holds rf N i = true ↔ i ≠ rf.(me) ∧ m >= N.
Proof. intros H. unfold holds. by rewrite H, andb_true_iff, !bool_decide_eq_true. Qed.

Lemma countMatches_foldl rf N js acc :
  (∀ i, i ∈ js → 0 ≤ i < len rf.(matchIndex)) →
  foldl (λ acc i,
           count ← acc;
           if decide (i = rf.(me)) then Some count
           else
             m ← slice_get rf.(matchIndex) i;
             Some (if decide (m >= N) then count + 1 else count))
        (Some acc) js = Some (acc + len (filter (λ i, holds rf N i = true) js)).
Proof.
  revert acc. induction js as [|i js IH]; intros acc Hin.
  { simpl. f_equal. autorewrite with slices. lia. }
  assert (∀ j, j ∈ js → 0 ≤ j < len (matchIndex rf)) by (intros; apply Hin; by right).
  destruct (slice_get_inr rf.(matchIndex) i) as [m Hm]; [apply Hin; left|].
  pose proof (holds_true rf N i m Hm) as Hh.
  cbn [foldl mbind option_bind]. rewrite filter_cons, Hm. cbn [mbind option_bind].
  destruct (decide (i = me rf)); destruct (decide (m >= N));
    destruct (decide (holds rf N i = true)); try tauto;
    rewrite IH by done; autorewrite with slices; f_equal; lia.
Qed.

Lemma countMatches_spec rf N :
  len rf.(matchIndex) = len rf.(peers) →
  countMatches rf N = Some (1 + len (holders rf N)).
Proof.
  intros H. apply countMatches_foldl. intros i Hi%elem_of_range. lia.
Qed.

Lemma scanCommit_spec rf k :
  len rf.(matchIndex) = len rf.(peers) → 0 ≤ rf.(commitIndex) →
  rf.(commitIndex) + Z.of_nat k < len rf.(log) ∨ k = 0%nat →
  ∃ r, scanCommit rf k = Some r ∧
    match r with
    | Some N => rf.(commitIndex) < N ≤ rf.(commitIndex) + Z.of_nat k ∧ committable rf N ∧
                ∀ M, N < M ≤ rf.(commitIndex) + Z.of_nat k → ¬ committable rf M
    | None => ∀ M, rf.(commitIndex) < M ≤ rf.(commitIndex) + Z.of_nat k → ¬ committable rf M
    end.
Proof.
  intros Hm Hc. induction k as [|k IH]; intros Hk.
  { eexists. split; [done|]. intros M ?. lia. }
  cbn [scanCommit]. set (N := commitIndex rf + Z.of_nat (S k)).
  destruct (slice_get_inr (log rf) N) as [e He]; [lia|]. rewrite He.
  cbn [mbind option_bind]. rewrite countMatches_spec by done. cbn [mbind option_bind].
  assert (∀ M, M ≤ N → ¬ M ≤ commitIndex rf + Z.of_nat k → M = N) by lia.
  assert (¬ committable rf N → ∃ r, scanCommit rf k = Some r ∧
    match r with
    | Some N' => rf.(commitIndex) < N' ≤ N ∧ committable rf N' ∧
                ∀ M, N' < M ≤ N → ¬ committable rf M
    | None => ∀ M, rf.(commitIndex) < M ≤ N → ¬ committable rf M
    end) as Hno.
  { intros HN. destruct IH as (r & -> & Hr); [lia|]. exists r. split; [done|].
    destruct r as [N'|].
    - destruct Hr as (? & ? & Hr). split_and!; [lia|lia|done|].
      intros M ?. destruct (decide (M = N)) as [->|]; [done|]. apply Hr. lia.
    - intros M ?. destruct (decide (M = N)) as [->|]; [done|]. apply Hr. lia. }
  case_decide as Ht.
  { apply Hno. intros [(e' & ? & ?) _]. congruence. }
  case_decide as Hq; [|by apply Hno; intros [_ ?]].
  exists (Some N). split; [done|]. split_and!; [lia|lia| |lia].
  split; [|lia]. exists e. split; [done|]. by destruct (decide (eTerm e = term rf)).
Qed.

(** ** Terms of a log *)

(** The term at index [i], as the logs have it; [termAtLocked] differs from it
    only at index 0, where it answers 0 without looking. *)
Definition terms l : list Z := eTerm <$> l.

Lemma terms_lookup l i t :
  slice_get (terms l) i = Some t ↔ ∃ e, slice_get l i = Some e ∧ e.(eTerm) = t.
Proof.
  unfold terms. rewrite slice_get_lookup, list_lookup_fmap, fmap_Some.
  split.
  - intros (? & e & He & ->). exists e. by rewrite slice_get_lookup.
  - intros (e & [??]%slice_get_lookup & <-). naive_solver.
Qed.

(** ** syncLocked *)

Lemma matchingPrefix_le l es :
  (matchingPrefix l es ≤ length l ∧ matchingPrefix l es ≤ length es)%nat.
Proof.
  revert es. induction l as [|x l IH]; intros [|y es]; simpl; try lia.
  case_decide; simpl; [|lia]. specialize (IH es). lia.
Qed.

Lemma matchingPrefix_terms l es :
  terms (take (matchingPrefix l es) l) = terms (take (matchingPrefix l es) es).
Proof.
  revert es. induction l as [|x l IH]; intros [|y es]; simpl; try done.
  case_decide as E; [|done]. simpl. by rewrite E, IH.
Qed.

(** What [syncLocked] makes of a log, for the start indices [AppendEntries]
    passes: the log up to the start index, then the entries, of which those
    that already match in term are kept from the log.  Nothing of the log
    survives beyond the last entry. *)
Definition merged (s : nat) es l : list (LogEntry Cmd) :=
  if decide (es = []) then l
  else take (s + matchingPrefix (drop s l) es) l ++
       drop (matchingPrefix (drop s l) es) es.

Lemma syncLocked_merged start es rf :
  0 ≤ start ≤ len rf.(log) →
  syncLocked start es rf = set_log (merged (Z.to_nat start) es rf.(log)) rf.
Proof.
  intros Hs. unfold syncLocked, merged.
  destruct es as [|e es]; [by destruct rf|].
  rewrite (decide_False (P := len _ = 0)) by (autorewrite with slices; pose proof (len_nonneg es); lia).
  rewrite (decide_False (P := start < 0)) by lia.
  rewrite (decide_False (P := start > _)) by lia.
  rewrite (decide_False (P := _ = [])) by done.
  set (j := matchingPrefix _ _).
  pose proof (matchingPrefix_le (drop (Z.to_nat start) (log rf)) (e :: es)) as [_ Hj].
  fold j in Hj. case_decide as Hlt.
  - by destruct rf.
  - rewrite drop_ge by (unfold len in Hlt; lia). rewrite app_nil_r. by destruct rf.
Qed.

Lemma merged_length s es l :
  (s ≤ length l)%nat → es ≠ [] → length (merged s es l) = (s + length es)%nat.
Proof.
  intros Hs Hes. unfold merged. rewrite decide_False by done.
  pose proof (matchingPrefix_le (drop s l) es) as [H1 H2]. rewrite length_drop in H1.
  rewrite length_app, length_take, length_drop. lia.
Qed.

Lemma merged_take s es l : (s ≤ length l)%nat → take s (merged s es l) = take s l.
Proof.
  intros Hs. unfold merged. case_decide; [done|].
  pose proof (matchingPrefix_le (drop s l) es) as [H1 _]. rewrite length_drop in H1.
  rewrite take_app_le by (rewrite length_take; lia).
  rewrite take_take. f_equal. lia.
Qed.

Lemma merged_drop_terms s es l :
  (s ≤ length l)%nat → es ≠ [] → terms (drop s (merged s es l)) = terms es.
Proof.
  intros Hs Hes. unfold merged. rewrite decide_False by done.
  set (j := matchingPrefix (drop s l) es).
  pose proof (matchingPrefix_le (drop s l) es) as [H1 H2]. rewrite length_drop in H1.
  rewrite drop_app_le by (rewrite length_take; fold j in H1; lia).
  rewrite <- (take_drop j es) at 2. unfold terms. rewrite !fmap_app. f_equal.
  rewrite skipn_firstn_comm. replace (s + j - s)%nat with j by lia.
  apply matchingPrefix_terms.
Qed.

(** What the receiver of [es] at index [s] should have, without the loop: the
    entries up to [s] are those of [l]; of the entries from [s] on those of [l]
    are kept as long as every one of them so far has the term of the entry of
    [es] at its place, and those of [es] are taken from the first one on that
    has not, or is missing; and nothing follows the last entry of [es]. *)
Definition same_terms (s : nat) es l (k : nat) : Prop :=
  ∀ i, (i ≤ k)%nat → ∃ e e', l !! (s + i)%nat = Some e ∧ es !! i = Some e' ∧ e.(eTerm) = e'.(eTerm).

Record appends (s : nat) es l l' : Prop := {
  ap_none : es = [] → l' = l;
  ap_length : es ≠ [] → length l' = (s + length es)%nat;
  ap_before : ∀ i, (i < s)%nat → l' !! i = l !! i;
  ap_kept : ∀ k, (k < length es)%nat → same_terms s es l k → l' !! (s + k)%nat = l !! (s + k)%nat;
  ap_taken : ∀ k, (k < length es)%nat → ¬ same_terms s es l k → l' !! (s + k)%nat = es !! k
}.

Lemma matchingPrefix_lt s es l k : (k < matchingPrefix (drop s l) es)%nat ↔ same_terms s es l k.
Proof.
  assert (∀ l es k, (k < matchingPrefix l es)%nat ↔ same_terms 0 es l k) as H.
  { intros l0. induction l0 as [|x l0 IH]; intros es0 k0.
    { split; [simpl; lia|]. intros H. by destruct (H 0%nat) as (? & ? & ? & _); [lia|]. }
    destruct es0 as [|y es0].
    { split; [simpl; lia|]. intros H. by destruct (H 0%nat) as (? & ? & _ & ? & _); [lia|]. }
    simpl. case_decide as Hxy.
    - destruct k0 as [|k0].
      { split; [|lia]. intros _ i Hi. replace i with 0%nat by lia. by exists x, y. }
      rewrite <- Nat.succ_lt_mono, IH. split; intros Hs i Hi.
      + destruct i as [|i]; [by exists x, y|]. apply Hs. lia.
      + apply (Hs (S i)). lia.
    - split; [lia|]. intros Hs. destruct (Hs 0%nat) as (? & ? & ? & ? & ?); [lia|]. by simplify_eq/=. }
  rewrite H. unfold same_terms. by setoid_rewrite lookup_drop.
Qed.

Lemma merged_appends s es l : (s ≤ length l)%nat → appends s es l (merged s es l).
Proof.
  intros Hs. pose proof (matchingPrefix_le (drop s l) es) as [H1 H2]. rewrite length_drop in H1. split.
  - intros ->. unfold merged. by rewrite decide_True.
  - by apply merged_length.
  - intros i Hi. rewrite <- (lookup_take_lt (merged s es l) s i) by done. rewrite merged_take by done. by apply lookup_take_lt.
  - intros k Hk Hsame%matchingPrefix_lt. unfold merged. rewrite decide_False by (by intros ->; simpl in Hk; lia).
    rewrite lookup_app_l by (rewrite length_take; lia). apply lookup_take_lt. lia.
  - intros k Hk Hdiff. rewrite <- matchingPrefix_lt in Hdiff. unfold merged. rewrite decide_False by (by intros ->; simpl in Hk; lia).
    rewrite lookup_app_r by (rewrite length_take; lia). rewrite lookup_drop, length_take. f_equal. lia.
Qed.

(** Where equal terms mean equal entries (Raft's log matching), the merged log
    holds exactly the leader's entries from the start index on. *)
Lemma merged_drop s es l :
  (s ≤ length l)%nat → es ≠ [] →
  (∀ i e e', l !! (s + i)%nat = Some e → es !! i = Some e' → e.(eTerm) = e'.(eTerm) → e = e') →
  merged s es l = take s l ++ es.
Proof.
  intros Hs Hes Hm. rewrite <- (take_drop s (merged s es l)), merged_take by done. f_equal.
  unfold merged. rewrite decide_False by done.
  set (j := matchingPrefix (drop s l) es).
  pose proof (matchingPrefix_le (drop s l) es) as [H1 H2]. rewrite length_drop in H1.
  pose proof (matchingPrefix_terms (drop s l) es) as Ht. fold j in H1, H2, Ht.
  rewrite drop_app_le by (rewrite length_take; lia).
  rewrite skipn_firstn_comm. replace (s + j - s)%nat with j by lia.
  enough (take j (drop s l) = take j es) as -> by apply take_drop.
  apply list_eq. intros i. destruct (decide (i < j)%nat) as [Hi|Hi].
  2: { rewrite !lookup_ge_None_2; [done|rewrite length_take; lia..]. }
  apply (f_equal (.!! i)) in Ht. unfold terms in Ht.
  rewrite !list_lookup_fmap in Ht. rewrite !lookup_take_lt in * by done.
  rewrite lookup_drop in *.
  destruct (lookup_lt_is_Some_2 l (s + i)) as [e He]; [lia|].
  destruct (lookup_lt_is_Some_2 es i) as [e' He']; [lia|].
  rewrite He, He' in *. simpl in Ht. f_equal. eapply Hm; eauto. congruence.
Qed.

(** ** Conflict search *)

Lemma firstIndexOfTerm_spec rf ct i :
  let r := firstIndexOfTerm rf ct i in
  0 ≤ r ≤ Z.of_nat i ∧
  (∀ j, r ≤ j < Z.of_nat i → termAtLocked rf j = ct) ∧
  (0 < r → termAtLocked rf (r - 1) ≠ ct).
Proof.
  induction i as [|i IH]; cbn [firstIndexOfTerm]; [split_and!; intros; lia|].
  case_decide as Ht.
  - destruct IH as (? & Hj & ?). split_and!; [lia|lia| |done].
    intros j ?. destruct (decide (j = Z.of_nat i)) as [->|]; [done|]. apply Hj. lia.
  - split_and!; [lia|lia|lia|]. intros _. by replace (Z.of_nat (S i) - 1) with (Z.of_nat i) by lia.
Qed.

Lemma termAtLocked_log rf i :
  0 < i → termAtLocked rf i = default (-1) (slice_get (terms rf.(log)) i).
Proof.
  intros Hi. unfold termAtLocked. rewrite decide_False by lia.
  destruct (slice_get (terms rf.(log)) i) as [t|] eqn:E.
  - apply terms_lookup in E as (e & -> & <-). done.
  - destruct (slice_get (log rf) i) as [e|] eqn:E'; [|done].
    assert (slice_get (terms (log rf)) i = Some (eTerm e)) by (apply terms_lookup; eauto).
    congruence.
Qed.

Lemma lastIndexOfTerm_spec rf ct k :
  Z.of_nat k < len rf.(log) ∨ k = 0%nat →
  ∃ r, lastIndexOfTerm rf ct k = Some r ∧
    (r = -1 ∨ 1 ≤ r ≤ Z.of_nat k ∧ slice_get (terms rf.(log)) r = Some ct).
Proof.
  induction k as [|k IH]; intros Hk; cbn [lastIndexOfTerm]; [by eauto|].
  destruct (slice_get_inr rf.(log) (Z.of_nat (S k))) as [e He]; [lia|]. rewrite He.
  cbn [mbind option_bind]. case_decide as Ht.
  - eexists. split; [done|]. right. split; [lia|]. apply terms_lookup. eauto.
  - case_decide; [by eauto|]. destruct IH as (r & -> & Hr); [lia|].
    eexists. split; [done|]. destruct Hr as [->|[??]]; [by left|right]. split; [lia|done].
Qed.

(** On a log whose terms do not decrease the search is exact: it finds the last
    index of the term, and gives up only if there is none. *)
Definition sorted_terms l : Prop :=
  ∀ i j t u, i ≤ j → slice_get (terms l) i = Some t → slice_get (terms l) j = Some u → t ≤ u.

Lemma lastIndexOfTerm_max rf ct k r i :
  sorted_terms rf.(log) →
  lastIndexOfTerm rf ct k = Some r →
  1 ≤ i ≤ Z.of_nat k → slice_get (terms rf.(log)) i = Some ct → i ≤ r.
Proof.
  intros Hsort. induction k as [|k IH]; cbn [lastIndexOfTerm]; intros Hr Hi Ht; [lia|].
  destruct (slice_get (log rf) (Z.of_nat (S k))) as [e|] eqn:He; [|done].
  cbn [mbind option_bind] in Hr.
  assert (slice_get (terms (log rf)) (Z.of_nat (S k)) = Some (eTerm e)) as He'
    by (apply terms_lookup; eauto).
  case_decide; [simplify_eq; lia|]. case_decide.
  - pose proof (Hsort i (Z.of_nat (S k)) _ _ ltac:(lia) Ht He'). lia.
  - destruct (decide (i = Z.of_nat (S k))) as [->|]; [congruence|]. apply IH; [done|lia|done].
Qed.

End log.
