(* ===== verification/RaftInv.v ===== *)
(** * Invariants of one Raft peer

    [node_ok n rf] is the well-formedness of a peer of an [n]-peer cluster:
    its persister holds its term, vote and log, and its indices are such that
    no slice access of raft.go is out of range.  Every operation of
    RaftNode.v preserves it and, from a well-formed state, does not panic. *)
From S2P Require Import Prelude RaftNode RaftLog.

Section invariants.
Context {Cmd : Type} `{!Gob Cmd, !GobOk Cmd}.
Implicit Types (rf : Raft Cmd) (env : Env).

(** A restart from the peer's persister recovers its term, vote and log. *)
Definition persisted rf : Prop :=
  ∀ env ends i, let rf' := Make env ends i rf.(persister) in
    rf'.(term) = rf.(term) ∧ rf'.(votedFor) = rf.(votedFor) ∧ rf'.(log) = rf.(log).

Record leader_ok (n : Z) rf : Prop := {
  ok_next_len : len rf.(nextIndex) = n;
  ok_match_len : len rf.(matchIndex) = n;
  ok_next : Forall (λ x, x ≤ len rf.(log)) rf.(nextIndex)
}.

Record node_ok (n : Z) rf : Prop := {
  ok_peers : len rf.(peers) = n;
  ok_me : 0 ≤ rf.(me) < n;
  ok_log : rf.(log) ≠ [];
  ok_term : 0 ≤ rf.(term);
  ok_commit : 0 ≤ rf.(commitIndex);
  ok_applied : 0 ≤ rf.(lastApplied);
  ok_persisted : persisted rf;
  ok_leader : rf.(rstate) = leader → leader_ok n rf
}.

(** *** Persistence *)

Lemma persist_persisted rf : rf.(log) ≠ [] → persisted (persist rf).
Proof.
  intros Hlog env ends i. unfold Make, persist, ReadRaftState, readPersist. simpl.
  destruct (enc_int (term rf) ++ enc_int (votedFor rf) ++ enc_log (log rf)) as [|b bs] eqn:E.
  - apply app_nil in E as [E _]. by apply enc_int_nonempty in E.
  - rewrite <- E, dec_enc_int. simpl. rewrite dec_enc_int. simpl.
    rewrite <- (app_nil_r (enc_log (log rf))), dec_enc_log. simpl.
    by destruct (log rf).
Qed.

Lemma persisted_ext rf rf' :
  rf'.(persister) = rf.(persister) → rf'.(term) = rf.(term) →
  rf'.(votedFor) = rf.(votedFor) → rf'.(log) = rf.(log) →
  persisted rf → persisted rf'.
Proof. intros Hp Ht Hv Hl H env ends i. rewrite Hp, Ht, Hv, Hl. apply H. Qed.

Lemma log_len rf : rf.(log) ≠ [] → 1 ≤ len rf.(log).
Proof. unfold len. destruct (log rf); simpl; [done|lia]. Qed.

Lemma lastLogTerm_total rf : rf.(log) ≠ [] → ∃ t, lastLogTermLocked rf = Some t.
Proof.
  intros H%log_len. unfold lastLogTermLocked.
  destruct (slice_get_inr rf.(log) (len rf.(log) - 1)) as [e ->]; [lia|].
  by eexists.
Qed.

(** Fields an operation leaves alone are discharged by [done]; the persister
    either is untouched, with the fields it holds, or was just written. *)
Ltac pers :=
  first [ assumption
        | apply persist_persisted; simpl; assumption
        | match goal with
          | H : persisted ?rf |- persisted _ =>
            apply (persisted_ext rf); [done|done|done|done|exact H]
          end ].
Ltac node_ok_tac :=
  split; simpl;
  first [ assumption | pers | lia | intros; congruence
        | match goal with
          | H : _ → leader_ok _ _ |- _ → leader_ok _ _ =>
            let Hq := fresh in intros Hq; destruct (H Hq) as [???]; by split
          end
        | idtac ].
Ltac inv_ok H :=
  let Hp := fresh "Hpeers" in let Hm := fresh "Hme" in let Hl := fresh "Hlog" in
  let Ht := fresh "Hterm" in let Hc := fresh "Hcommit" in
  let Ha := fresh "Happlied" in let Hs := fresh "Hpers" in
  let Hd := fresh "Hlead" in
  destruct H as [Hp Hm Hl Ht Hc Ha Hs Hd].

Lemma stepDown_ok n env t rf : node_ok n rf → node_ok n (stepDownLocked env t rf).
Proof.
  intros H. inv_ok H. unfold stepDownLocked. case_decide.
  all: node_ok_tac.
Qed.

Lemma updateLastHeartbeat_ok n env rf :
  node_ok n rf → node_ok n (updateLastHeartbeatLocked env rf).
Proof. intros H. inv_ok H. node_ok_tac. Qed.

Lemma resetElectionTimeout_ok n env rf :
  node_ok n rf → node_ok n (resetElectionTimeoutLocked env rf).
Proof. intros H. inv_ok H. node_ok_tac. Qed.

Lemma RequestVote_ok n env args rf :
  node_ok n rf → ∃ rf' r, RequestVote env args rf = Some (rf', r) ∧ node_ok n rf'.
Proof.
  intros H. unfold RequestVote. case_decide; [by eauto|].
  set (rf1 := if decide (_ > _) then _ else _).
  assert (node_ok n rf1) as H1 by (unfold rf1; case_decide; eauto using stepDown_ok).
  destruct (lastLogTerm_total rf1) as [t ->]; [apply H1|]. cbn [mbind option_bind].
  case_match; do 2 eexists; (split; [done|]); [|done].
  inv_ok H1. node_ok_tac.
Qed.

Lemma Heartbeat_ok n env args rf : node_ok n rf → node_ok n (Heartbeat env args rf).1.
Proof.
  intros H. inv_ok H. unfold Heartbeat.
  repeat case_decide; simpl in *; node_ok_tac.
Qed.

Lemma heartbeatReply_ok n env t r rf : node_ok n rf → node_ok n (heartbeatReply env t r rf).
Proof. intros H. unfold heartbeatReply. case_decide; eauto using stepDown_ok. Qed.

Lemma StartHeartbeat_ok n env rf : node_ok n rf → node_ok n (StartHeartbeat env rf).1.
Proof. apply updateLastHeartbeat_ok. Qed.

Lemma becomeLeader_ok n rf :
  node_ok n rf → ∃ rf' gs, becomeLeaderLocked rf = Some (rf', gs) ∧ node_ok n rf'.
Proof.
  intros H. inv_ok H. unfold becomeLeaderLocked. simpl.
  rewrite slice_set_inr by (autorewrite with slices; unfold len in *; lia).
  cbn [mbind option_bind]. simpl.
  rewrite slice_set_inr by (autorewrite with slices; unfold len in *; lia).
  cbn [mbind option_bind]. do 2 eexists. split; [done|].
  node_ok_tac. intros _. split; simpl; autorewrite with slices; [done|done|].
  apply Forall_insert; [|unfold lastLogIndexLocked; simpl; lia].
  apply Forall_replicate. unfold lastLogIndexLocked. simpl. lia.
Qed.

Lemma StartElection_ok n env rf :
  node_ok n rf → ∃ rf' gs, StartElection env rf = Some (rf', gs) ∧ node_ok n rf'.
Proof.
  intros H. unfold StartElection.
  match goal with |- context [lastLogTermLocked ?r] => set (rf1 := r) end.
  destruct (lastLogTerm_total rf1) as [t ->]; [apply H|]. cbn [mbind option_bind].
  set (rf2 := updateLastHeartbeatLocked _ _).
  assert (node_ok n rf2) by (inv_ok H; node_ok_tac).
  case_decide; [by apply becomeLeader_ok|by eauto].
Qed.

Lemma voteReply_ok n env t m r rf :
  node_ok n rf → ∃ rf' gs, voteReply env t m r rf = Some (rf', gs) ∧ node_ok n rf'.
Proof.
  intros H. unfold voteReply. case_decide; [by eauto using stepDown_ok|].
  case_match eqn:Hv; [|by eauto].
  set (rf1 := set_voteCount _ _).
  assert (node_ok n rf1) as H1 by (inv_ok H; node_ok_tac).
  case_decide; [|by eauto].
  destruct (becomeLeader_ok n rf1 H1) as (rf2 & gs & -> & ?). cbn [mbind option_bind]. eauto.
Qed.

Lemma syncLocked_log start es rf :
  ∃ l, syncLocked start es rf = set_log l rf ∧ (rf.(log) ≠ [] → l ≠ []).
Proof.
  unfold syncLocked. case_decide as Hes; [exists (log rf); by destruct rf|].
  set (s := Z.to_nat _). set (j := matchingPrefix _ _). simpl.
  case_decide as Hj; eexists; (split; [by destruct rf|]); simpl; intros Hl.
  - intros [_ Hd]%app_nil. apply (f_equal length) in Hd.
    rewrite length_drop in Hd. unfold len in *. simpl in *. lia.
  - intros Ht%(f_equal length). rewrite length_take in Ht.
    apply log_len in Hl. unfold len in *. simpl in *. lia.
Qed.

Lemma AppendEntries_ok n env args rf :
  node_ok n rf → node_ok n (AppendEntries env args rf).1.
Proof.
  intros H. unfold AppendEntries. case_decide as Ht; [done|].
  set (rf1 := updateLastHeartbeatLocked _ _).
  assert (node_ok n rf1 ∧ rstate rf1 = follower) as [H1 Hf].
  { unfold rf1. split.
    - apply updateLastHeartbeat_ok. case_decide; [by apply stepDown_ok|].
      case_decide; [|done]. inv_ok H. node_ok_tac.
    - simpl. case_decide; [done|]. case_decide as Hs; [done|].
      destruct (rstate rf); [destruct Hs..|]; done. }
  clearbody rf1. case_decide; [done|]. case_decide; [done|].
  destruct (syncLocked_log (aePrevLogIndex args + 1) (aeEntries args) rf1) as (l & -> & Hl).
  inv_ok H1. specialize (Hl Hlog). pose proof (log_len (set_log l rf1) Hl).
  cbn [fst]. case_decide; [|node_ok_tac].
  unfold lastLogIndexLocked in *. simpl in *. case_decide; node_ok_tac.
Qed.

Lemma replicateBegin_ok n p t rf :
  node_ok n rf → 0 ≤ p < n →
  ∃ rf' a, replicateBegin p t rf = Some (rf', a) ∧ node_ok n rf'.
Proof.
  intros H Hp. unfold replicateBegin. case_decide as Hs; [by eauto|].
  assert (rstate rf = leader) as Hl by (destruct (decide (rstate rf = leader)); tauto).
  inv_ok H. destruct (Hlead Hl) as [Hnl Hml Hn].
  destruct (slice_get_inr (nextIndex rf) p) as [x Hx]; [lia|]. rewrite Hx.
  cbn [mbind option_bind].
  assert (x ≤ len (log rf)) as Hxl.
  { apply slice_get_lookup in Hx as [_ Hx]. by eapply Forall_lookup_1 in Hn. }
  pose proof (log_len rf Hlog).
  case_decide.
  - rewrite slice_set_inr by lia. cbn [mbind option_bind]. simpl.
    rewrite slice_from_inr by lia. cbn [mbind option_bind].
    do 2 eexists. split; [done|]. node_ok_tac.
    intros _. split; simpl; autorewrite with slices; [done|done|].
    apply Forall_insert; [done|lia].
  - cbn [mbind option_bind]. rewrite slice_from_inr by lia. cbn [mbind option_bind].
    do 2 eexists. split; [done|]. by split.
Qed.

Lemma tryAdvanceCommit_ok n rf :
  node_ok n rf → rf.(rstate) = leader →
  ∃ rf' gs, tryAdvanceCommitLocked rf = Some (rf', gs) ∧ node_ok n rf'.
Proof.
  intros H Hl. pose proof H as H'. inv_ok H'. destruct (Hlead Hl) as [Hnl Hml Hn].
  unfold tryAdvanceCommitLocked, lastLogIndexLocked.
  destruct (scanCommit_spec rf (Z.to_nat (len (log rf) - 1 - commitIndex rf)))
    as (r & -> & Hr); [congruence|done|lia|].
  cbn [mbind option_bind]. destruct r as [N|]; [|by eauto].
  destruct Hr as [[??] _]. do 2 eexists. split; [done|]. node_ok_tac.
Qed.

(** What the caller knows of an AppendEntries call of term [t] as long as it is
    the leader of that term: the entries it sent are in its log. *)
Definition sent_ok rf (t : Z) (args : AppendEntriesArgs Cmd) : Prop :=
  rf.(rstate) = leader → rf.(term) = t →
  0 ≤ args.(aePrevLogIndex) ∧
  args.(aePrevLogIndex) + len args.(aeEntries) < len rf.(log).

Definition reply_ok (args : AppendEntriesArgs Cmd) (r : AppendEntriesReply) : Prop :=
  r.(aerConflictIndex) ≤ Z.max 0 args.(aePrevLogIndex).

Lemma AppendEntries_reply_ok env args rf :
  rf.(log) ≠ [] → reply_ok args (AppendEntries env args rf).2.
Proof.
  intros Hlog. unfold AppendEntries, reply_ok. case_decide; [simpl; lia|].
  set (rf1 := updateLastHeartbeatLocked _ _). clearbody rf1.
  case_decide as Hs; [simpl; lia|]. case_decide as Hc; [|simpl; lia].
  simpl. pose proof (firstIndexOfTerm_spec rf1 (termAtLocked rf1 (aePrevLogIndex args))
    (Z.to_nat (aePrevLogIndex args))) as (? & _ & _). lia.
Qed.

Lemma replicateReply_ok n env p t args r rf :
  node_ok n rf → 0 ≤ p < n → sent_ok rf t args → reply_ok args r →
  ∃ rf' next, replicateReply env p t args r rf = Some (rf', next) ∧ node_ok n rf'.
Proof.
  intros H Hp Hsent Hr. unfold replicateReply.
  case_decide; [by eauto using stepDown_ok|]. case_decide as Hs; [by eauto|].
  assert (rstate rf = leader ∧ term rf = t) as [Hl <-].
  { destruct (decide (rstate rf = leader)); destruct (decide (term rf = t)); tauto. }
  destruct (Hsent Hl eq_refl) as [Hprev Hlast]. unfold reply_ok in Hr.
  pose proof H as H'. inv_ok H'. destruct (Hlead Hl) as [Hnl Hml Hn].
  pose proof (len_nonneg (aeEntries args)) as Hes.
  case_match eqn:Hsucc.
  - destruct (slice_get_inr (matchIndex rf) p) as [m ->]; [lia|]. cbn [mbind option_bind].
    case_decide.
    + rewrite slice_set_inr by lia. cbn [mbind option_bind].
      rewrite slice_set_inr by lia. cbn [mbind option_bind].
      match goal with |- context [tryAdvanceCommitLocked ?r] => set (rf1 := r) end.
      assert (node_ok n rf1) as Hok1.
      { node_ok_tac. intros _. split; simpl; autorewrite with slices; [done..|].
        apply Forall_insert; [done|lia]. }
      destruct (tryAdvanceCommit_ok n rf1) as (rf2 & gs & -> & ?); [done..|].
      cbn [mbind option_bind]. eauto.
    + cbn [mbind option_bind].
      destruct (tryAdvanceCommit_ok n rf) as (rf2 & gs & -> & ?); [done..|].
      cbn [mbind option_bind]. eauto.
  - match goal with |- ∃ _ _, ?m ≫= _ = _ ∧ _ =>
      assert (∃ x, m = Some x ∧ x ≤ len (log rf)) as (x & -> & Hx) end.
    { case_decide; [eexists; split; [done|lia]|].
      destruct (lastIndexOfTerm_spec rf (aerConflictTerm r)
        (Z.to_nat (lastLogIndexLocked rf))) as (last & -> & Hlt);
        [unfold lastLogIndexLocked; lia|].
      cbn [mbind option_bind]. eexists. split; [done|].
      unfold lastLogIndexLocked in Hlt. case_decide; lia. }
    cbn [mbind option_bind]. rewrite slice_set_inr by lia. cbn [mbind option_bind].
    set (rf1 := set_nextIndex _ rf).
    assert (node_ok n rf1) as Hok1.
    { node_ok_tac. intros _. split; simpl; autorewrite with slices; [done..|].
      by apply Forall_insert. }
    case_decide; cbn [mbind option_bind]; [|by eauto].
    rewrite slice_set_inr by (simpl; autorewrite with slices; lia).
    cbn [mbind option_bind]. do 2 eexists. split; [done|].
    pose proof (log_len rf Hlog). inv_ok Hok1. node_ok_tac.
    intros _. split; simpl; autorewrite with slices; [done..|].
    apply Forall_insert; [by apply Forall_insert|lia].
Qed.

Lemma applyOne_ok n rf :
  node_ok n rf → ∃ rf' m, applyOne rf = Some (rf', m) ∧ node_ok n rf'.
Proof.
  intros H. pose proof H as H'. inv_ok H'. unfold applyOne.
  case_decide; [by eauto|]. case_decide; [by eauto|]. simpl.
  destruct (slice_get_inr (log rf) (lastApplied rf + 1)) as [e ->]; [lia|].
  cbn [mbind option_bind]. do 2 eexists. split; [done|]. node_ok_tac.
Qed.

Lemma Start_ok n command rf :
  node_ok n rf → ∃ rf' r gs, Start command rf = Some (rf', r, gs) ∧ node_ok n rf'.
Proof.
  intros H. unfold Start. case_decide as Hs; [by eauto|].
  assert (rstate rf = leader) as Hl by (by destruct (decide (rstate rf = leader))).
  inv_ok H. destruct (Hlead Hl) as [Hnl Hml Hn]. simpl.
  rewrite slice_set_inr by lia. cbn [mbind option_bind]. simpl.
  rewrite slice_set_inr by lia. cbn [mbind option_bind].
  do 3 eexists. split; [done|].
  assert (log rf ++ [mkEntry (term rf) (Some command)] ≠ []) by (by destruct (log rf)).
  node_ok_tac. intros _. split; simpl; autorewrite with slices; [done..|].
  apply Forall_insert; [|lia]. eapply Forall_impl; [done|]. simpl. lia.
Qed.

Lemma lifeAct_ok n env s rf :
  node_ok n rf → ∃ rf' gs, lifeAct env s rf = Some (rf', gs) ∧ node_ok n rf'.
Proof.
  intros H. unfold lifeAct. case_match; [by apply StartElection_ok| |by eauto].
  do 2 eexists. split; [done|]. by apply StartHeartbeat_ok.
Qed.

(** A restart recovers the persisted fields and is well formed. *)
Lemma readPersist_persister data ps rf :
  readPersist data (set_persister ps rf) = set_persister ps (readPersist data rf).
Proof.
  unfold readPersist. destruct data as [|b data]; [done|].
  destruct (dec_int (b :: data) ≫= _) as [[[t v] [|e l]]|]; done.
Qed.

Lemma Make_start1 env ends i ps :
  Make env ends i (start1 ps) = set_persister (start1 ps) (Make env ends i ps).
Proof. unfold Make. by rewrite <- readPersist_persister. Qed.

Lemma Make_ok n env ends rf i :
  node_ok n rf → 0 ≤ i < n → len ends = len rf.(peers) → node_ok n (Make env ends i (start1 rf.(persister))).
Proof.
  intros H Hi Hends. inv_ok H. pose proof (Hpers env ends i) as (Ht & Hv & Hl).
  rewrite Make_start1. split; simpl.
  1, 2, 5, 6: unfold Make, readPersist; repeat case_match; simpl; (done || congruence).
  - congruence.
  - congruence.
  - intros env' ends' i'. cbv zeta. simpl. rewrite Make_start1. simpl.
    rewrite Ht, Hv, Hl. apply Hpers.
  - unfold Make, readPersist; repeat case_match; simpl; done.
Qed.

End invariants.
