(* ===== verification/RaftEvolve.v ===== *)
(** * How one critical section changes a peer

    [evolves rf rf'] is what every critical section of raft.go guarantees of
    the state it leaves: the term does not go back; within a term a peer does
    not become a candidate, becomes leader only from candidate, and a leader
    only appends to its log.  [vote_stable] says that within a term a vote,
    once cast, stays; it holds of every critical section but the heartbeat
    reply, which needs the reply to be timely. *)
From S2P Require Import Prelude RaftNode RaftLog RaftInv.

Section evolve.
Context {Cmd : Type} `{!Gob Cmd}.
Implicit Types (rf : Raft Cmd) (env : Env).

Record evolves rf rf' : Prop := {
  ev_me : rf'.(me) = rf.(me);
  ev_peers : rf'.(peers) = rf.(peers);
  ev_term : rf.(term) ≤ rf'.(term);
  ev_candidate : rf'.(term) = rf.(term) → rf'.(rstate) = candidate → rf.(rstate) = candidate;
  ev_leader : rf'.(term) = rf.(term) → rf'.(rstate) = leader →
    rf.(rstate) = candidate ∨ rf.(rstate) = leader ∧ rf.(log) `prefix_of` rf'.(log)
}.

Record vote_stable rf rf' : Prop := {
  vs_term : rf.(term) ≤ rf'.(term);
  vs_vote : rf'.(term) = rf.(term) → rf.(votedFor) ≠ -1 → rf'.(votedFor) = rf.(votedFor)
}.

#[local] Hint Extern 0 (_ `prefix_of` _) => reflexivity : core.

(** A goal about two states that are records of known fields. *)
Ltac evolve_tac :=
  simpl in *; split; simpl; intros;
  first [ done | lia | congruence | by (right; split) | by (destruct_or?; auto) | idtac ].

Lemma evolves_refl rf : evolves rf rf.
Proof. evolve_tac. Qed.

Lemma vote_stable_refl rf : vote_stable rf rf.
Proof. evolve_tac. Qed.

Lemma vote_stable_trans rf1 rf2 rf3 :
  vote_stable rf1 rf2 → vote_stable rf2 rf3 → vote_stable rf1 rf3.
Proof.
  intros [H1 V1] [H2 V2]. split; [lia|]. intros Ht Hv.
  assert (term rf2 = term rf1) as Ht' by lia. specialize (V1 Ht' Hv).
  rewrite V2; [done|lia|congruence].
Qed.

Lemma stepDown_evolves env t rf : evolves rf (stepDownLocked env t rf).
Proof. unfold stepDownLocked. case_decide; evolve_tac. Qed.

Lemma stepDown_vote_stable env t rf : t > rf.(term) → vote_stable rf (stepDownLocked env t rf).
Proof. intros H. unfold stepDownLocked. rewrite decide_True by done. evolve_tac. Qed.

Lemma RequestVote_evolves env args rf rf' r :
  RequestVote env args rf = Some (rf', r) → evolves rf rf' ∧ vote_stable rf rf'.
Proof.
  unfold RequestVote. case_decide.
  { intros; simplify_eq. auto using evolves_refl, vote_stable_refl. }
  set (rf1 := if decide (_ > _) then _ else _).
  assert (evolves rf rf1 ∧ vote_stable rf rf1) as [He Hv].
  { unfold rf1. case_decide.
    - split; [apply stepDown_evolves|by apply stepDown_vote_stable].
    - auto using evolves_refl, vote_stable_refl. }
  clearbody rf1. destruct (lastLogTermLocked rf1); [|done]. cbn [mbind option_bind].
  case_match eqn:Hg; intros; simplify_eq; [|done].
  apply andb_true_iff in Hg as [[Hg%bool_decide_eq_true|Hg%bool_decide_eq_true]%orb_true_iff _].
  all: split; [destruct He; evolve_tac|].
  all: eapply vote_stable_trans; [done|]; evolve_tac.
Qed.

Lemma Heartbeat_evolves env args rf :
  evolves rf (Heartbeat env args rf).1 ∧ vote_stable rf (Heartbeat env args rf).1.
Proof.
  unfold Heartbeat. case_decide.
  { auto using evolves_refl, vote_stable_refl. }
  case_decide; simpl; case_decide as Hs; split; evolve_tac.
  all: by destruct (decide (rstate rf = follower)).
Qed.

Lemma heartbeatReply_evolves env t r rf : evolves rf (heartbeatReply env t r rf).
Proof. unfold heartbeatReply. case_decide; auto using evolves_refl, stepDown_evolves. Qed.

Lemma heartbeatReply_vote_stable env t r rf :
  r.(hbrTerm) ≤ t ∨ r.(hbrTerm) > rf.(term) → vote_stable rf (heartbeatReply env t r rf).
Proof.
  intros H. unfold heartbeatReply. case_decide; [|apply vote_stable_refl].
  apply stepDown_vote_stable. lia.
Qed.

Lemma StartHeartbeat_evolves env rf :
  evolves rf (StartHeartbeat env rf).1 ∧ vote_stable rf (StartHeartbeat env rf).1.
Proof. split; evolve_tac. Qed.

(** What a win of the election changes: only leadership fields. *)
Lemma becomeLeader_shape rf rf' gs :
  becomeLeaderLocked rf = Some (rf', gs) →
  rf'.(me) = rf.(me) ∧ rf'.(peers) = rf.(peers) ∧ rf'.(term) = rf.(term) ∧
  rf'.(votedFor) = rf.(votedFor) ∧ rf'.(log) = rf.(log) ∧ rf'.(rstate) = leader ∧
  rf'.(voteCount) = rf.(voteCount) ∧
  gs = [GReplicate (otherPeers rf) rf.(term)].
Proof.
  unfold becomeLeaderLocked. intros H.
  apply bind_Some in H as (mi & _ & H). apply bind_Some in H as (ni & _ & H).
  by simplify_eq.
Qed.

Lemma StartElection_evolves env rf rf' gs :
  StartElection env rf = Some (rf', gs) → evolves rf rf' ∧ vote_stable rf rf'.
Proof.
  unfold StartElection. intros (t & _ & H)%bind_Some. case_decide.
  - apply becomeLeader_shape in H as (? & ? & Ht & ? & ? & ? & _). simpl in *.
    split; evolve_tac.
  - simplify_eq. split; evolve_tac.
Qed.

Lemma voteReply_evolves env t n r rf rf' gs :
  voteReply env t n r rf = Some (rf', gs) → evolves rf rf' ∧ vote_stable rf rf'.
Proof.
  unfold voteReply. case_decide.
  { intros; simplify_eq. split; [apply stepDown_evolves|by apply stepDown_vote_stable]. }
  case_match; [|intros; simplify_eq; auto using evolves_refl, vote_stable_refl].
  case_decide as Hw.
  - intros ([rf1 gs1] & H1 & ?)%bind_Some. simplify_eq.
    apply becomeLeader_shape in H1 as (? & ? & ? & ? & ? & ? & _). simpl in *.
    destruct Hw as (_ & Hc & _). split; evolve_tac.
  - intros; simplify_eq. split; evolve_tac.
Qed.

Lemma syncLocked_shape start es rf : ∃ l, syncLocked start es rf = set_log l rf.
Proof. destruct (syncLocked_log start es rf) as (l & ? & _). eauto. Qed.

Lemma AppendEntries_evolves env args rf :
  evolves rf (AppendEntries env args rf).1 ∧ vote_stable rf (AppendEntries env args rf).1.
Proof.
  unfold AppendEntries. case_decide.
  { auto using evolves_refl, vote_stable_refl. }
  set (rf1 := updateLastHeartbeatLocked _ _).
  assert (evolves rf rf1 ∧ vote_stable rf rf1 ∧ rstate rf1 = follower) as (He & Hv & Hf).
  { unfold rf1. case_decide.
    - pose proof (stepDown_evolves env (aeTerm args) rf) as [].
      pose proof (stepDown_vote_stable env (aeTerm args) rf) as []; [done|].
      split_and!; [by split|by split|done].
    - case_decide as Hs; (split_and!; [evolve_tac|evolve_tac|]); [done|].
      by destruct (decide (rstate rf = follower)). }
  clearbody rf1. case_decide; [done|]. case_decide; [done|].
  destruct (syncLocked_shape (aePrevLogIndex args + 1) (aeEntries args) rf1) as (l & ->).
  destruct He as [???? ?], Hv as [??].
  case_decide; simpl; split; evolve_tac.
Qed.

Lemma replicateBegin_evolves p t rf rf' a :
  replicateBegin p t rf = Some (rf', a) → evolves rf rf' ∧ vote_stable rf rf'.
Proof.
  unfold replicateBegin. case_decide.
  { intros; simplify_eq. auto using evolves_refl, vote_stable_refl. }
  intros (next & _ & ([n' rf1] & H1 & (es & _ & H2)%bind_Some)%bind_Some)%bind_Some.
  simplify_eq. case_decide.
  - apply bind_Some in H1 as (ni & _ & ?). simplify_eq. split; evolve_tac.
  - simplify_eq. auto using evolves_refl, vote_stable_refl.
Qed.

Lemma tryAdvanceCommit_shape rf rf' gs :
  tryAdvanceCommitLocked rf = Some (rf', gs) → ∃ c, rf' = set_commitIndex c rf.
Proof.
  unfold tryAdvanceCommitLocked. intros ([N|] & _ & ?)%bind_Some; simplify_eq; [eauto|].
  exists (commitIndex rf'). by destruct rf'.
Qed.

Lemma replicateReply_evolves env p t args r rf rf' next :
  replicateReply env p t args r rf = Some (rf', next) → evolves rf rf' ∧ vote_stable rf rf'.
Proof.
  unfold replicateReply. case_decide as Hold.
  { intros; simplify_eq. split; [apply stepDown_evolves|by apply stepDown_vote_stable]. }
  case_decide as Hlead; [intros; simplify_eq; auto using evolves_refl, vote_stable_refl|].
  case_match eqn:Hsucc.
  - intros (cur & _ & (rf1 & Hrf & ([rf2 gs] & Hadv & ?)%bind_Some)%bind_Some)%bind_Some.
    simplify_eq. apply tryAdvanceCommit_shape in Hadv as [c ->].
    case_decide.
    + apply bind_Some in Hrf as (? & _ & (? & _ & ?)%bind_Some). simplify_eq.
      split; evolve_tac.
    + simplify_eq. split; evolve_tac.
  - intros (x & _ & (ni & _ & (rf1 & Hrf & ?)%bind_Some)%bind_Some)%bind_Some. simplify_eq.
    case_decide.
    + apply bind_Some in Hrf as (? & _ & ?). simplify_eq.
      split; evolve_tac.
    + simplify_eq. split; evolve_tac.
Qed.

Lemma applyOne_evolves rf rf' m :
  applyOne rf = Some (rf', m) → evolves rf rf' ∧ vote_stable rf rf'.
Proof.
  unfold applyOne.
  case_decide; [intros; simplify_eq; auto using evolves_refl, vote_stable_refl|].
  case_decide; [intros; simplify_eq; auto using evolves_refl, vote_stable_refl|].
  intros (e & _ & ?)%bind_Some. simplify_eq. split; evolve_tac.
Qed.

Lemma Start_evolves command rf rf' r gs :
  Start command rf = Some (rf', r, gs) → evolves rf rf' ∧ vote_stable rf rf'.
Proof.
  unfold Start.
  case_decide; [intros; simplify_eq; auto using evolves_refl, vote_stable_refl|].
  intros (mi & _ & (ni & _ & ?)%bind_Some)%bind_Some. simplify_eq.
  split; evolve_tac. right. split; [done|]. by apply prefix_app_r.
Qed.

Lemma lifeAct_evolves env s rf rf' gs :
  lifeAct env s rf = Some (rf', gs) → evolves rf rf' ∧ vote_stable rf rf'.
Proof.
  unfold lifeAct. case_match; intros.
  - by eapply StartElection_evolves.
  - match goal with H : Some _ = Some _ |- _ => injection H as <- <- end.
    apply (StartHeartbeat_evolves env rf).
  - simplify_eq. auto using evolves_refl, vote_stable_refl.
Qed.

End evolve.
