(* ===== verification/RaftSystem.v ===== *)
(** * The Raft cluster: peers, goroutines and the network

    A world is the peers with the goroutines each of them runs, the RPCs in
    flight and the messages delivered on the apply channels.  [step] runs one
    critical section: which one is the [label], so an execution is a list of
    labels and a concrete execution can be evaluated.  The network is the one
    labrpc.go documents: a request is executed at most once, requests and
    replies are delayed and reordered arbitrarily, a [Call] may report failure
    before, after or without its request being executed.  [LCrash] is
    [crash1] followed by [start1] of src/src/raft/config.go: the peer restarts
    from a copy of its persister and with a fresh set of client ends, and none
    of its old goroutines go on.  RaftNet.v runs the peers on labrpc itself,
    and shows that this is what it amounts to. *)
From S2P Require Import Prelude RaftNode.

Section system.
Context {Cmd : Type} `{!Gob Cmd}.

(** An RPC between its call and its return, with what its goroutine needs when
    it returns; the reply is present once the handler has run. *)
Inductive rpc :=
| CRequestVote (args : RequestVoteArgs) (term nPeers : Z)
    (reply : option RequestVoteReply)
| CHeartbeat (args : HeartbeatArgs) (t : Z) (reply : option HeartbeatReply)
| CAppendEntries (args : AppendEntriesArgs Cmd) (leaderTerm : Z) (rest : list Z)
    (reply : option AppendEntriesReply).

(** [waiting] holds while the caller's goroutine is blocked in [Call]. *)
Record call := mkCall { src : Z; dst : Z; waiting : bool; body : rpc }.

Record node := mkNode {
  raft : Raft Cmd;
  threads : list goroutine;
  lifeSnap : option LifeSnapshot
}.

Record world := mkWorld {
  nodes : gmap Z node;
  calls : list call;
  applied : list (Z * ApplyMsg Cmd)   (* sent on the apply channels so far *)
}.

Inductive label :=
| LLifeRead (i : Z)
| LLifeAct (i : Z) (env : Env)
| LRun (i : Z) (k : nat) (env : Env)
| LDeliver (k : nat) (env : Env)
| LReturn (k : nat) (env : Env)
| LFail (k : nat) (env : Env)
| LApply (i : Z)
| LStart (i : Z) (command : Cmd)
| LCrash (i : Z) (env : Env) (ends : list string).

Definition set_node (i : Z) (nd : node) (w : world) : world :=
  mkWorld (<[i := nd]> w.(nodes)) w.(calls) w.(applied).

Definition set_calls (cs : list call) (w : world) : world :=
  mkWorld w.(nodes) cs w.(applied).

(** Node [i] after a critical section that started the goroutines [gs]. *)
Definition update (nd : node) (rf : Raft Cmd) (gs : list goroutine) : node :=
  mkNode rf (nd.(threads) ++ gs) nd.(lifeSnap).

Definition drop_thread (k : nat) (nd : node) : node :=
  mkNode nd.(raft) (delete k nd.(threads)) nd.(lifeSnap).

(** Run goroutine [g] of node [i] up to its next RPC: the new state, the
    goroutines it leaves behind, and the call it makes. *)
Definition run_thread (env : Env) (i : Z) (rf : Raft Cmd) (g : goroutine)
    : outcome (Raft Cmd * list goroutine * list call) :=
  (match g with
   | GReplicate [] _ => Done (rf, [], [])
   | GReplicate (p :: ps) t =>
     '(rf, r) <~ program (replicateBegin p t rf);
     match r with
     | None => Done (rf, [GReplicate ps t], [])
     | Some args =>
       Done (rf, [], [mkCall i p true (CAppendEntries args t ps None)])
     end
   | GVote p args t n =>
     Done (rf, [], [mkCall i p true (CRequestVote args t n None)])
   | GHeartbeat p t =>
     Done (rf, [], [mkCall i p true (CHeartbeat (heartbeatArgs rf t) t None)])
   | GStartHeartbeat =>
     let '(rf, gs) := StartHeartbeat env rf in Done (rf, gs, [])
   end)%outcome.

(** Execute the request of a call at the callee. *)
Definition deliver (env : Env) (b : rpc) (rf : Raft Cmd) : outcome (Raft Cmd * rpc) :=
  (match b with
   | CRequestVote args t n None =>
     '(rf, r) <~ program (RequestVote env args rf);
     Done (rf, CRequestVote args t n (Some r))
   | CHeartbeat args t None =>
     let '(rf, r) := Heartbeat env args rf in
     Done (rf, CHeartbeat args t (Some r))
   | CAppendEntries args t rest None =>
     let '(rf, r) := AppendEntries env args rf in
     Done (rf, CAppendEntries args t rest (Some r))
   | _ => Disabled
   end)%outcome.

(** Continue the caller's goroutine after [Call] returned true. *)
Definition return_ok (env : Env) (p : Z) (b : rpc) (rf : Raft Cmd)
    : outcome (Raft Cmd * list goroutine) :=
  (match b with
   | CRequestVote _ t n (Some r) => program (voteReply env t n r rf)
   | CHeartbeat _ t (Some r) =>
     Done (heartbeatReply env t r rf, [GReplicate [p] t])
   | CAppendEntries args t rest (Some r) =>
     '(rf, next) <~ program (replicateReply env p t args r rf);
     match next with
     | ReplReturn gs => Done (rf, gs ++ [GReplicate rest t])
     | ReplAgain => Done (rf, [GReplicate (p :: rest) t])
     end
   | _ => Disabled
   end)%outcome.

(** Continue the caller's goroutine after [Call] returned false. *)
Definition return_fail (env : Env) (p : Z) (b : rpc) (rf : Raft Cmd)
    : Raft Cmd * list goroutine :=
  match b with
  | CRequestVote _ _ _ _ => (rf, [])
  | CHeartbeat _ t _ =>
    (heartbeatReply env t (mkHBReply 0 false) rf, [GReplicate [p] t])
  | CAppendEntries _ t rest _ => (rf, [GReplicate rest t])
  end.

Definition stop_waiting (c : call) : call := mkCall c.(src) c.(dst) false c.(body).

Definition orphan (i : Z) (c : call) : call :=
  if decide (c.(src) = i) then stop_waiting c else c.

Definition step (w : world) (l : label) : outcome world :=
  (match l with
   | LLifeRead i =>
     nd <~ enabled (w.(nodes) !! i);
     Done (set_node i (mkNode nd.(raft) nd.(threads) (Some (lifeRead nd.(raft)))) w)
   | LLifeAct i env =>
     nd <~ enabled (w.(nodes) !! i);
     s <~ enabled nd.(lifeSnap);
     '(rf, gs) <~ program (lifeAct env s nd.(raft));
     Done (set_node i (mkNode rf (nd.(threads) ++ gs) None) w)
   | LRun i k env =>
     nd <~ enabled (w.(nodes) !! i);
     g <~ enabled (nd.(threads) !! k);
     '(rf, gs, cs) <~ run_thread env i nd.(raft) g;
     Done (set_calls (w.(calls) ++ cs) (set_node i (update (drop_thread k nd) rf gs) w))
   | LDeliver k env =>
     c <~ enabled (w.(calls) !! k);
     nd <~ enabled (w.(nodes) !! c.(dst));
     '(rf, b) <~ deliver env c.(body) nd.(raft);
     Done (set_calls (<[k := mkCall c.(src) c.(dst) c.(waiting) b]> w.(calls))
             (set_node c.(dst) (update nd rf []) w))
   | LReturn k env =>
     c <~ enabled (w.(calls) !! k);
     if c.(waiting) then
       nd <~ enabled (w.(nodes) !! c.(src));
       '(rf, gs) <~ return_ok env c.(dst) c.(body) nd.(raft);
       Done (set_calls (delete k w.(calls)) (set_node c.(src) (update nd rf gs) w))
     else Disabled
   | LFail k env =>
     c <~ enabled (w.(calls) !! k);
     if c.(waiting) then
       nd <~ enabled (w.(nodes) !! c.(src));
       let '(rf, gs) := return_fail env c.(dst) c.(body) nd.(raft) in
       Done (set_calls (<[k := stop_waiting c]> w.(calls))
               (set_node c.(src) (update nd rf gs) w))
     else Disabled
   | LApply i =>
     nd <~ enabled (w.(nodes) !! i);
     '(rf, m) <~ program (applyOne nd.(raft));
     Done (mkWorld (<[i := update nd rf []]> w.(nodes)) w.(calls)
             (match m with None => w.(applied) | Some m => w.(applied) ++ [(i, m)] end))
   | LStart i command =>
     nd <~ enabled (w.(nodes) !! i);
     '(rf, _, gs) <~ program (Start command nd.(raft));
     Done (set_node i (update nd rf gs) w)
   | LCrash i env ends =>
     nd <~ enabled (w.(nodes) !! i);
     if decide (len ends = len nd.(raft).(peers)) then
       let rf := Make env ends i (start1 nd.(raft).(persister)) in
       Done (set_calls (orphan i <$> w.(calls)) (set_node i (mkNode rf [] None) w))
     else Disabled
   end)%outcome.

(** A cluster of [length ends] fresh peers ([make_config]). *)
Definition init (env : Env) (ends : list string) : world :=
  mkWorld
    (list_to_map
       ((λ i, (i, mkNode (Make env ends i MakePersister) [] None)) <$> range (len ends)))
    [] [].

Definition steps : world → world → Prop := rtc (λ w w', ∃ l, step w l = Done w').

(** Run a list of labels. *)
Fixpoint run (w : world) (ls : list label) : outcome world :=
  match ls with
  | [] => Done w
  | l :: ls => (w' <~ step w l; run w' ls)%outcome
  end.

Definition isLeader (w : world) (i t : Z) : Prop :=
  ∃ nd, w.(nodes) !! i = Some nd ∧ nd.(raft).(rstate) = leader ∧ nd.(raft).(term) = t.

(** ** Timely replies

    A step is [timely] unless it returns a reply its caller has outgrown: a
    granted vote of an election the candidate is no longer running, or a
    heartbeat reply announcing a term the caller has itself reached since. *)
Definition timely_reply (b : rpc) (rf : Raft Cmd) : bool :=
  match b with
  | CRequestVote _ t _ (Some r) =>
    negb r.(rvrVote) || bool_decide (rf.(term) = t)
  | CHeartbeat _ t (Some r) =>
    bool_decide (r.(hbrTerm) ≤ t) || bool_decide (r.(hbrTerm) > rf.(term))
  | _ => true
  end.

Definition timely (w : world) (l : label) : bool :=
  match l with
  | LReturn k _ =>
    match w.(calls) !! k with
    | Some c =>
      match w.(nodes) !! c.(src) with
      | Some nd => timely_reply c.(body) nd.(raft)
      | None => true
      end
    | None => true
    end
  | _ => true
  end.

Definition timely_steps : world → world → Prop :=
  rtc (λ w w', ∃ l, timely w l = true ∧ step w l = Done w').

End system.

Arguments rpc : clear implicits.
Arguments call : clear implicits.
Arguments node : clear implicits.
Arguments world : clear implicits.
Arguments label : clear implicits.
