(* ===== verification/RaftSafety.v ===== *)
(** * Well-formed Raft worlds: no panic, no lost term, vote or log

    [world_ok n w] lifts [node_ok] to a cluster of [n] peers with its
    goroutines and calls in flight.  It holds initially and after every step,
    whatever the network and the clock do; from it follow the absence of
    panics and the persistence of terms, votes and logs across crashes. *)
From S2P Require Import Prelude RaftNode RaftLog RaftInv RaftEvolve RaftSystem.

Section safety.
Context {Cmd : Type} `{!Gob Cmd, !GobOk Cmd}.
Implicit Types (rf : Raft Cmd) (w : world Cmd) (n : Z).

Definition peer_ok n (p : Z) : Prop := 0 ≤ p < n.

Definition goroutine_ok n (g : goroutine) : Prop :=
  match g with
  | GReplicate ps _ => Forall (peer_ok n) ps
  | GVote p _ _ _ => peer_ok n p
  | GHeartbeat p t => peer_ok n p ∧ 0 ≤ t
  | GStartHeartbeat => True
  end.

(** The caller of an AppendEntries call of term [t] was leader of [t] when it
    made it. *)
Definition caller_ok rf (t : Z) (args : AppendEntriesArgs Cmd) : Prop :=
  t ≤ rf.(term) ∧ (rf.(term) = t → rf.(rstate) ≠ candidate) ∧ sent_ok rf t args.

Definition body_ok n (b : rpc Cmd) : Prop :=
  match b with
  | CAppendEntries args _ rest r =>
    Forall (peer_ok n) rest ∧
    match r with Some r => reply_ok args r | None => True end
  | CHeartbeat _ t _ => 0 ≤ t
  | CRequestVote _ _ _ _ => True
  end.

Definition waiting_ok (b : rpc Cmd) rf : Prop :=
  match b with
  | CAppendEntries args t _ _ => caller_ok rf t args
  | _ => True
  end.

Definition call_ok n (nds : gmap Z (node Cmd)) (c : call Cmd) : Prop :=
  peer_ok n c.(src) ∧ peer_ok n c.(dst) ∧ body_ok n c.(body) ∧
  (c.(waiting) = true → ∀ nd, nds !! c.(src) = Some nd → waiting_ok c.(body) nd.(raft)).

Definition member_ok n (i : Z) (nd : node Cmd) : Prop :=
  node_ok n nd.(raft) ∧ nd.(raft).(me) = i ∧ Forall (goroutine_ok n) nd.(threads).

Record world_ok n w : Prop := {
  wo_dom i : is_Some (w.(nodes) !! i) ↔ peer_ok n i;
  wo_nodes i nd : w.(nodes) !! i = Some nd → member_ok n i nd;
  wo_calls c : c ∈ w.(calls) → call_ok n w.(nodes) c
}.

Lemma waiting_ok_evolves b rf rf' : evolves rf rf' → waiting_ok b rf → waiting_ok b rf'.
Proof.
  intros [_ _ Ht Hc Hl]. destruct b as [| |args t rest r]; simpl; try done.
  intros (Hle & Hnc & Hs). split_and!; [lia| |].
  - intros <- ?. apply Hnc; [lia|]. apply Hc; [lia|done].
  - intros Hlead <-. assert (term rf = term rf') as Heq by lia.
    destruct (Hl (eq_sym Heq) Hlead) as [Hcand|[Hlead' Hpre]].
    + by destruct (Hnc Heq).
    + destruct (Hs Hlead' Heq) as [? ?]. split; [done|].
      apply prefix_length in Hpre. unfold len in *. lia.
Qed.

Lemma call_ok_evolves n nds i nd nd' c :
  nds !! i = Some nd → evolves nd.(raft) nd'.(raft) →
  call_ok n nds c → call_ok n (<[i := nd']> nds) c.
Proof.
  intros Hi He (? & ? & ? & Hw). split_and!; [done..|].
  intros Hwait nd1. rewrite lookup_insert_Some. intros [[-> <-]|[? ?]]; [|by eauto].
  eapply waiting_ok_evolves; eauto.
Qed.

(** The frame of a step: node [i] evolves, the calls change. *)
Lemma world_ok_update n w i nd nd' cs ms :
  world_ok n w → w.(nodes) !! i = Some nd →
  member_ok n i nd' → 
  (∀ c, c ∈ cs → call_ok n (<[i := nd']> w.(nodes)) c) →
  world_ok n (mkWorld (<[i := nd']> w.(nodes)) cs ms).
Proof.
  intros [Hd Hn _] Hi Hm Hc. split; simpl; [| |done].
  - intros j. rewrite <- Hd, lookup_insert_is_Some'. split; [|by right].
    intros [<-|]; [|done]. by eexists.
  - intros j ndj. rewrite lookup_insert_Some. intros [[<- <-]|[? ?]]; eauto.
Qed.

(** The same for a step that leaves the calls alone. *)
Lemma world_ok_node n w i nd nd' ms :
  world_ok n w → w.(nodes) !! i = Some nd → evolves nd.(raft) nd'.(raft) →
  node_ok n nd'.(raft) → Forall (goroutine_ok n) nd'.(threads) →
  world_ok n (mkWorld (<[i := nd']> w.(nodes)) w.(calls) ms).
Proof.
  intros Hw Hi He Hok Ht. eapply world_ok_update; [done..| |].
  - split_and!; [done| |done]. rewrite (ev_me _ _ He). by apply (wo_nodes n w Hw i nd).
  - intros c Hc. eapply call_ok_evolves; eauto. by apply Hw.
Qed.

(** *** The goroutines critical sections start *)

Lemma otherPeers_ok n rf : len rf.(peers) = n → Forall (peer_ok n) (otherPeers rf).
Proof.
  intros <-. apply Forall_forall. by intros p [_ Hp%elem_of_range]%list_elem_of_filter.
Qed.

Lemma fmap_gs n rf (f : Z → goroutine) :
  len rf.(peers) = n → (∀ p, peer_ok n p → goroutine_ok n (f p)) →
  Forall (goroutine_ok n) (f <$> otherPeers rf).
Proof.
  intros H Hf. apply Forall_fmap. eapply Forall_impl; [by apply otherPeers_ok|]. exact Hf.
Qed.

Lemma becomeLeader_gs n rf rf' gs :
  len rf.(peers) = n → becomeLeaderLocked rf = Some (rf', gs) → Forall (goroutine_ok n) gs.
Proof.
  intros H (_ & _ & _ & _ & _ & _ & _ & ->)%becomeLeader_shape.
  apply Forall_singleton. by apply otherPeers_ok.
Qed.

Lemma StartElection_gs n env rf rf' gs :
  len rf.(peers) = n → StartElection env rf = Some (rf', gs) → Forall (goroutine_ok n) gs.
Proof.
  unfold StartElection. intros H (t & _ & Hs)%bind_Some. case_decide.
  - by eapply becomeLeader_gs in Hs.
  - simplify_eq. by apply fmap_gs.
Qed.

Lemma voteReply_gs n env t m r rf rf' gs :
  len rf.(peers) = n → voteReply env t m r rf = Some (rf', gs) → Forall (goroutine_ok n) gs.
Proof.
  intros H. unfold voteReply. repeat case_match; intros Hs; simplify_eq; [constructor| |constructor..].
  apply bind_Some in Hs as ([rf1 gs1] & Hb & ?). simplify_eq.
  apply Forall_app. split; [by eapply becomeLeader_gs in Hb|]. by apply Forall_singleton.
Qed.

Lemma lifeAct_gs n env s rf rf' gs :
  node_ok n rf → lifeAct env s rf = Some (rf', gs) → Forall (goroutine_ok n) gs.
Proof.
  intros H. unfold lifeAct. case_match; intros Hs.
  - eapply StartElection_gs; [apply H|done].
  - injection Hs as <- <-. apply fmap_gs; [apply H|]. intros p Hp. split; [done|apply H].
  - simplify_eq. constructor.
Qed.

Lemma Start_gs n command rf rf' r gs :
  len rf.(peers) = n → Start command rf = Some (rf', r, gs) → Forall (goroutine_ok n) gs.
Proof.
  intros H. unfold Start. case_decide; [intros; simplify_eq; constructor|].
  intros (mi & _ & (ni & _ & ?)%bind_Some)%bind_Some. simplify_eq.
  apply fmap_gs; [done|]. intros. by apply Forall_singleton.
Qed.

Lemma tryAdvanceCommit_gs n rf rf' gs :
  len rf.(peers) = n → tryAdvanceCommitLocked rf = Some (rf', gs) → Forall (goroutine_ok n) gs.
Proof.
  intros H. unfold tryAdvanceCommitLocked. intros ([N|] & _ & ?)%bind_Some; simplify_eq; [|constructor].
  apply fmap_gs; [done|]. intros. by apply Forall_singleton.
Qed.

Lemma replicateReply_gs n env p t args r rf rf' gs :
  len rf.(peers) = n → replicateReply env p t args r rf = Some (rf', ReplReturn gs) →
  Forall (goroutine_ok n) gs.
Proof.
  intros H. unfold replicateReply.
  case_decide; [intros; simplify_eq; constructor|].
  case_decide; [intros; simplify_eq; constructor|].
  case_match.
  - intros (cur & _ & (rf1 & Hrf & ([rf2 gs2] & Hadv & ?)%bind_Some)%bind_Some)%bind_Some.
    simplify_eq. eapply tryAdvanceCommit_gs; [|done].
    case_decide; [apply bind_Some in Hrf as (? & _ & (? & _ & ?)%bind_Some)|]; by simplify_eq.
  - intros (x & _ & (ni & _ & (rf1 & _ & ?)%bind_Some)%bind_Some)%bind_Some. by simplify_eq.
Qed.

(** The arguments [replicateBegin] makes are in the leader's log. *)
Lemma replicateBegin_caller p t rf rf' args :
  rf.(log) ≠ [] → replicateBegin p t rf = Some (rf', Some args) →
  caller_ok rf' t args ∧ rf'.(rstate) = leader ∧ rf'.(term) = t.
Proof.
  intros Hlog. unfold replicateBegin. case_decide as Hs; [by intros|].
  assert (rstate rf = leader ∧ term rf = t) as [Hl <-].
  { destruct (decide (rstate rf = leader)); destruct (decide (term rf = t)); tauto. }
  intros (next & _ & ([n' rf1] & H1 & (es & Hes & H2)%bind_Some)%bind_Some)%bind_Some.
  simplify_eq. apply slice_from_Some in Hes as [Hn ->].
  assert (log rf' = log rf ∧ term rf' = term rf ∧ rstate rf' = leader ∧ 1 ≤ n') as (Hlg & Ht & Hr & Hge).
  { case_decide; [apply bind_Some in H1 as (? & _ & ?)|]; simplify_eq; split_and!; auto with lia. }
  unfold caller_ok, sent_ok. simpl. rewrite Ht, Hr, len_drop by (rewrite Hlg in *; lia).
  split_and!; try done; try lia.
Qed.

(** *** Every step preserves [world_ok] and none panics *)

Definition outcome_ok n (o : outcome (world Cmd)) : Prop :=
  match o with Done w' => world_ok n w' | Disabled => True | Panicked => False end.

Lemma enabled_ok {A} n (o : option A) k :
  (∀ a, o = Some a → outcome_ok n (k a)) → outcome_ok n (outcome_bind (enabled o) k).
Proof. intros H. destruct o; simpl; auto. Qed.

Lemma run_thread_ok n w i nd k g env :
  world_ok n w → w.(nodes) !! i = Some nd → nd.(threads) !! k = Some g →
  outcome_ok n (step w (LRun i k env)).
Proof.
  intros Hw Hi Hg. simpl. rewrite Hi. simpl. rewrite Hg. simpl.
  pose proof (wo_nodes _ _ Hw _ _ Hi) as (Hok & Hme & Hth).
  assert (peer_ok n i) as Hpi by (apply (wo_dom _ _ Hw); by eexists).
  assert (goroutine_ok n g) as Hgok by (by eapply Forall_lookup_1).
  assert (Forall (goroutine_ok n) (delete k (threads nd))) as Hth' by (by apply Forall_delete).
  assert (∀ rf gs cs, evolves nd.(raft) rf → node_ok n rf → Forall (goroutine_ok n) gs →
    (∀ c, c ∈ cs → call_ok n (<[i := update (drop_thread k nd) rf gs]> w.(nodes)) c) →
    world_ok n (set_calls (w.(calls) ++ cs)
                  (set_node i (update (drop_thread k nd) rf gs) w))) as Hgen.
  { intros rf gs cs He Hrf Hgs Hcs. unfold set_calls, set_node. simpl.
    eapply world_ok_update; [done..| |].
    - split_and!; simpl; [done|rewrite (ev_me _ _ He); done|by apply Forall_app].
    - intros c [Hc|Hc]%elem_of_app; [|by apply Hcs].
      eapply call_ok_evolves; [done| |by apply Hw]. done. }
  assert (∀ b p rf gs, body_ok n b → peer_ok n p → waiting_ok b rf →
    ∀ c, c ∈ [mkCall i p true b] → call_ok n (<[i := update (drop_thread k nd) rf gs]> w.(nodes)) c)
    as Hone.
  { intros b p rf gs Hb Hp Hwt c ->%list_elem_of_singleton. split_and!; simpl; [done..|].
    intros _ nd'. rewrite lookup_insert_eq. by intros [= <-]. }
  destruct g as [[|p ps] t|p args t m|p t|]; simpl in *.
  - apply Hgen; [apply evolves_refl|done|constructor|]. by intros c Hc%elem_of_nil.
  - apply Forall_cons in Hgok as [Hp Hps].
    destruct (replicateBegin_ok n p t (raft nd)) as (rf & a & Hb & Hrf); [done..|].
    rewrite Hb. simpl. pose proof (replicateBegin_evolves _ _ _ _ _ Hb) as [He _].
    destruct a as [args|]; simpl.
    + apply replicateBegin_caller in Hb as [Hc _]; [|apply Hok].
      apply Hgen; [done..|constructor|]. by apply Hone.
    + apply Hgen; [done..|by constructor|]. by intros c Hc%elem_of_nil.
  - apply Hgen; [apply evolves_refl|done|constructor|]. by apply Hone.
  - destruct Hgok. apply Hgen; [apply evolves_refl|done|constructor|]. by apply Hone.
  - apply Hgen; [apply (StartHeartbeat_evolves env)|by apply (StartHeartbeat_ok n env)| |].
    + apply fmap_gs; [apply Hok|]. intros p Hp. split; [done|apply Hok].
    + by intros c Hc%elem_of_nil.
Qed.

Lemma deliver_ok n env b rf :
  node_ok n rf → body_ok n b →
  match deliver env b rf with
  | Done (rf', b') => node_ok n rf' ∧ evolves rf rf' ∧ body_ok n b' ∧
                      (∀ rf0, waiting_ok b rf0 → waiting_ok b' rf0)
  | Disabled => True
  | Panicked => False
  end.
Proof.
  intros Hok Hb. destruct b as [args t m [r|]|args t [r|]|args t rest [r|]]; simpl; try done.
  - destruct (RequestVote_ok n env args rf) as (rf' & r & Hr & ?); [done|]. rewrite Hr. simpl.
    apply RequestVote_evolves in Hr as [? _]. done.
  - pose proof (Heartbeat_ok n env args rf Hok). pose proof (Heartbeat_evolves env args rf) as [? _].
    by destruct (Heartbeat env args rf).
  - pose proof (AppendEntries_ok n env args rf Hok).
    pose proof (AppendEntries_evolves env args rf) as [? _].
    pose proof (AppendEntries_reply_ok env args rf (ok_log _ _ Hok)).
    destruct (AppendEntries env args rf). simpl in *. split_and!; [done..| |done|done].
    by destruct Hb.
Qed.

Lemma return_ok_ok n env p b rf :
  node_ok n rf → body_ok n b → waiting_ok b rf → peer_ok n p →
  match return_ok env p b rf with
  | Done (rf', gs) => node_ok n rf' ∧ evolves rf rf' ∧ Forall (goroutine_ok n) gs
  | Disabled => True
  | Panicked => False
  end.
Proof.
  intros Hok Hb Hwt Hp.
  destruct b as [args t m [r|]|args t [r|]|args t rest [r|]]; simpl in *; try done.
  - destruct (voteReply_ok n env t m r rf) as (rf' & gs & Hr & ?); [done|]. rewrite Hr. simpl.
    split_and!; [done|by eapply voteReply_evolves in Hr as [? _]|].
    eapply voteReply_gs; [apply Hok|done].
  - split_and!; [by apply heartbeatReply_ok|apply heartbeatReply_evolves|].
    by apply Forall_singleton, Forall_singleton.
  - destruct Hwt as (_ & _ & Hsent), Hb as [Hrest Hrep].
    destruct (replicateReply_ok n env p t args r rf) as (rf' & next & Hr & ?); [done..|].
    rewrite Hr. simpl. pose proof (replicateReply_evolves _ _ _ _ _ _ _ _ Hr) as [? _].
    destruct next as [gs|]; split_and!; try done.
    + apply Forall_app. split; [|by apply Forall_singleton].
      eapply replicateReply_gs; [apply Hok|done].
    + apply Forall_singleton. by constructor.
Qed.

Lemma return_fail_ok n env p b rf :
  node_ok n rf → body_ok n b → peer_ok n p →
  node_ok n (return_fail env p b rf).1 ∧ evolves rf (return_fail env p b rf).1 ∧
  Forall (goroutine_ok n) (return_fail env p b rf).2.
Proof.
  intros Hok Hb Hp. destruct b as [args t m r|args t r|args t rest r]; simpl.
  - split_and!; [done|apply evolves_refl|constructor].
  - split_and!; [by apply heartbeatReply_ok|apply heartbeatReply_evolves|].
    by apply Forall_singleton, Forall_singleton.
  - split_and!; [done|apply evolves_refl|]. apply Forall_singleton. by destruct Hb.
Qed.

(** A step on call [k]: one node evolves, the calls are the old ones except
    at [k]. *)
Lemma world_ok_call n w i nd rf gs cs :
  world_ok n w → w.(nodes) !! i = Some nd → evolves nd.(raft) rf → node_ok n rf →
  Forall (goroutine_ok n) gs →
  (∀ c, c ∈ cs → call_ok n w.(nodes) c) →
  world_ok n (set_calls cs (set_node i (update nd rf gs) w)).
Proof.
  intros Hw Hi He Hok Hgs Hcs. pose proof (wo_nodes _ _ Hw _ _ Hi) as (_ & Hme & Hth).
  eapply world_ok_update; [done..| |].
  - split_and!; simpl; [done|rewrite (ev_me _ _ He); done|by apply Forall_app].
  - intros c Hc. eapply call_ok_evolves; [done| |by apply Hcs]. done.
Qed.

Lemma call_steps_ok n w k env :
  world_ok n w →
  outcome_ok n (step w (LDeliver k env)) ∧ outcome_ok n (step w (LReturn k env)) ∧
  outcome_ok n (step w (LFail k env)).
Proof.
  intros Hw. simpl. split_and!; apply enabled_ok; intros c Hk.
  all: pose proof (wo_calls _ _ Hw c ltac:(by eapply list_elem_of_lookup_2))
    as (Hsrc & Hdst & Hb & Hwt).
  2, 3: destruct (waiting c) eqn:Hwc; [|done].
  all: apply enabled_ok; intros nd Hnd.
  all: pose proof (wo_nodes _ _ Hw _ _ Hnd) as (Hok & Hme & Hth).
  - pose proof (deliver_ok n env (body c) (raft nd) Hok Hb) as Hd.
    destruct (deliver env (body c) (raft nd)) as [[rf b]| |]; simpl; [|done..].
    destruct Hd as (Hrf & He & Hb' & Hwt'). eapply world_ok_call; [done..|].
    intros c' [->|Hc']%elem_of_insert_inv; [|by apply Hw].
    split_and!; simpl; [done..|]. eauto.
  - pose proof (return_ok_ok n env (dst c) (body c) (raft nd) Hok Hb
      (Hwt eq_refl _ Hnd) Hdst) as Hd.
    destruct (return_ok env (dst c) (body c) (raft nd)) as [[rf gs]| |]; simpl; [|done..].
    destruct Hd as (Hrf & He & Hgs). eapply world_ok_call; [done..|].
    intros c' Hc'. apply Hw. by eapply list_elem_of_delete_inv.
  - pose proof (return_fail_ok n env (dst c) (body c) (raft nd) Hok Hb Hdst) as Hd.
    destruct (return_fail env (dst c) (body c) (raft nd)) as [rf gs]; simpl in *.
    destruct Hd as (Hrf & He & Hgs). eapply world_ok_call; [done..|].
    intros c' [->|Hc']%elem_of_insert_inv; [|by apply Hw]. by split_and!.
Qed.

Lemma step_ok n w l : world_ok n w → outcome_ok n (step w l).
Proof.
  intros Hw. destruct l as [i|i env|i k env|k env|k env|k env|i|i command|i env ends].
  4, 5, 6: by apply call_steps_ok.
  all: simpl; apply enabled_ok; intros nd Hi.
  all: pose proof (wo_nodes _ _ Hw _ _ Hi) as (Hok & Hme & Hth).
  - eapply world_ok_node; [done..|apply evolves_refl|done|done].
  - apply enabled_ok. intros s Hs.
    destruct (lifeAct_ok n env s (raft nd)) as (rf & gs & Hr & ?); [done|]. rewrite Hr. simpl.
    eapply world_ok_node; [done..|by eapply lifeAct_evolves in Hr as [? _]|done|].
    apply Forall_app. split; [done|]. eapply lifeAct_gs; [exact Hok|done].
  - apply enabled_ok. intros g Hg.
    pose proof (run_thread_ok n w i nd k g env Hw Hi Hg) as H.
    simpl in H. rewrite Hi in H. simpl in H. by rewrite Hg in H.
  - destruct (applyOne_ok n (raft nd)) as (rf & m & Hr & ?); [done|]. rewrite Hr. simpl.
    eapply world_ok_node; [done..|by eapply applyOne_evolves in Hr as [? _]|done|].
    simpl. by rewrite app_nil_r.
  - destruct (Start_ok n command (raft nd)) as (rf & r & gs & Hr & ?); [done|]. rewrite Hr. simpl.
    eapply world_ok_node; [done..|by eapply Start_evolves in Hr as [? _]|done|].
    apply Forall_app. split; [done|]. eapply Start_gs; [apply Hok|done].
  - assert (peer_ok n i) as Hpi by (apply (wo_dom _ _ Hw); by eexists).
    case_decide as Hends; [|done]. eapply world_ok_update; [done..| |].
    + split_and!; simpl; [by apply Make_ok| |constructor].
      unfold Make, readPersist. by repeat case_match.
    + intros c' (c & -> & Hc)%list_elem_of_fmap.
      pose proof (wo_calls _ _ Hw c Hc) as (? & ? & ? & Hwt).
      unfold orphan. case_decide as Hsrc; split_and!; simpl; try done.
      intros ? nd'. rewrite lookup_insert_ne by done. by apply Hwt.
Qed.

Lemma steps_ok n w w' : steps w w' → world_ok n w → world_ok n w'.
Proof.
  intros Hs Hw. induction Hs as [|w1 w2 w3 [l Hl] _ IH]; [done|]. apply IH.
  pose proof (step_ok n w1 l Hw) as H. by rewrite Hl in H.
Qed.

Lemma Make_fresh_ok env ends i :
  0 ≤ i < len ends → node_ok (len ends) (Make env ends i MakePersister).
Proof.
  intros Hi. by split.
Qed.

Lemma init_lookup env (ends : list string) i nd :
  (init env ends).(nodes) !! i = Some nd ↔
  0 ≤ i < len ends ∧ nd = mkNode (Make env ends i MakePersister) [] None.
Proof.
  unfold init. simpl. rewrite <- elem_of_list_to_map.
  - rewrite list_elem_of_fmap. setoid_rewrite elem_of_range. naive_solver.
  - rewrite <- list_fmap_compose.
    apply (NoDup_fmap_2 (λ i, i)), NoDup_range.
Qed.

Lemma init_ok env (ends : list string) : world_ok (len ends) (init env ends).
Proof.
  split.
  - intros i. unfold is_Some. setoid_rewrite init_lookup. unfold peer_ok. naive_solver.
  - intros i nd [Hi ->]%init_lookup. split_and!; [by apply Make_fresh_ok|done|constructor].
  - intros c Hc. by apply elem_of_nil in Hc.
Qed.

Lemma reachable_ok env (ends : list string) w :
  steps (init env ends) w → world_ok (len ends) w.
Proof. intros H. eapply steps_ok; [done|apply init_ok]. Qed.


(** ** Theorems *)

(** C7. No critical section of raft.go panics: in every execution from a fresh
    cluster of any size, whatever the network delays, loses or reorders and
    whichever peers crash, no step reads or writes a slice out of range. *)
Theorem raft_never_panics env (ends : list string) w l :
  steps (init env ends) w → step w l ≠ Panicked.
Proof.
  intros H%reachable_ok Hp. pose proof (step_ok _ w l H) as Hok. by rewrite Hp in Hok.
Qed.

(** C8. Persistence: at every moment of every execution, restarting a peer the
    way the tester does, from a copy of its persister, recovers exactly its current term, vote and log. *)
Theorem crash_recovers env (ends : list string) w i nd env' ends' :
  steps (init env ends) w → w.(nodes) !! i = Some nd →
  let rf' := Make env' ends' i (start1 nd.(raft).(persister)) in
  rf'.(term) = nd.(raft).(term) ∧ rf'.(votedFor) = nd.(raft).(votedFor) ∧
  rf'.(log) = nd.(raft).(log) ∧ rf'.(rstate) = follower.
Proof.
  intros H%reachable_ok Hi. destruct (wo_nodes _ _ H _ _ Hi) as (Hok & _ & _).
  cbv zeta. rewrite Make_start1. simpl.
  destruct (ok_persisted _ _ Hok env' ends' i) as (? & ? & ?). split_and!; [done..|].
  unfold Make, readPersist. by repeat case_match.
Qed.

End safety.
