(* ===== verification/RaftHistory.v ===== *)
(** * Terms and votes over the life of a peer

    [node_step] is the state machine of a single peer: the union of its
    critical sections, restarts included.  Every step of the cluster is a
    [node_step] of each of its peers ([step_project]), so a property that all
    critical sections keep holds along every execution. *)
From S2P Require Import Prelude RaftNode RaftLog RaftInv RaftEvolve RaftSystem RaftSafety.

Section history.
Context {Cmd : Type} `{!Gob Cmd, !GobOk Cmd}.
Implicit Types (rf : Raft Cmd) (w : world Cmd) (n : Z).

(** [timely] says whether heartbeat replies must be timely, [applies] whether
    the step may be one of the applier, [arrives] which AppendEntries requests
    the network may deliver, and [answers] which replies to them it may
    return, to which peer's goroutine and of which leader's term. *)
Inductive node_step (timely applies : bool) (arrives : AppendEntriesArgs Cmd → Prop)
    (answers : Z → Z → AppendEntriesArgs Cmd → AppendEntriesReply → Prop) rf : Raft Cmd → Prop :=
| NSkip : node_step timely applies arrives answers rf rf
| NLife env s rf' gs : lifeAct env s rf = Some (rf', gs) → node_step timely applies arrives answers rf rf'
| NHeartbeats env : node_step timely applies arrives answers rf (StartHeartbeat env rf).1
| NReplicate p t rf' a : replicateBegin p t rf = Some (rf', a) → node_step timely applies arrives answers rf rf'
| NRequestVote env args rf' r : RequestVote env args rf = Some (rf', r) → node_step timely applies arrives answers rf rf'
| NHeartbeat env args : node_step timely applies arrives answers rf (Heartbeat env args rf).1
| NAppendEntries env args : arrives args → node_step timely applies arrives answers rf (AppendEntries env args rf).1
| NVoteReply env t m r rf' gs : voteReply env t m r rf = Some (rf', gs) → node_step timely applies arrives answers rf rf'
| NHeartbeatReply env t r :
    (timely = true → r.(hbrTerm) ≤ t ∨ r.(hbrTerm) > rf.(term)) →
    node_step timely applies arrives answers rf (heartbeatReply env t r rf)
| NReplicateReply env p t args r rf' next :
    answers p t args r → replicateReply env p t args r rf = Some (rf', next) → node_step timely applies arrives answers rf rf'
| NApply rf' m : applies = true → applyOne rf = Some (rf', m) → node_step timely applies arrives answers rf rf'
| NStart command rf' r gs : Start command rf = Some (rf', r, gs) → node_step timely applies arrives answers rf rf'
| NCrash env ends : len ends = len rf.(peers) →
    node_step timely applies arrives answers rf (Make env ends rf.(me) (start1 rf.(persister))).

#[local] Hint Constructors node_step : core.

Definition is_apply (l : label Cmd) : bool :=
  match l with LApply _ => true | _ => false end.

(** The AppendEntries requests in flight. *)
Definition requested w (args : AppendEntriesArgs Cmd) : Prop :=
  ∃ c t rest r, c ∈ w.(calls) ∧ c.(body) = CAppendEntries args t rest r.

Lemma requested_call w (k : nat) c args t rest r :
  w.(calls) !! k = Some c → c.(body) = CAppendEntries args t rest r → requested w args.
Proof. intros Hk Hb. exists c, t, rest, r. split; [by eapply list_elem_of_lookup_2|done]. Qed.

(** The request peer [j] is given in the step, and the reply that is returned. *)
Definition delivered w (l : label Cmd) (j : Z) (args : AppendEntriesArgs Cmd) : Prop :=
  ∃ k env c t rest, l = LDeliver k env ∧ w.(calls) !! k = Some c ∧ c.(dst) = j ∧
    c.(body) = CAppendEntries args t rest None.

Definition returned w (l : label Cmd) (p t : Z) (args : AppendEntriesArgs Cmd) (r : AppendEntriesReply) : Prop :=
  ∃ k env c rest, l = LReturn k env ∧ w.(calls) !! k = Some c ∧ c.(dst) = p ∧
    c.(body) = CAppendEntries args t rest (Some r).

Lemma delivered_requested w l j args : delivered w l j args → requested w args.
Proof. intros (k & env & c & t & rest & _ & Hk & _ & Hb). by eapply requested_call. Qed.

(** A delivered request is peer [j]'s. *)
Definition receives w (l : label Cmd) (j : Z) : Prop :=
  ∀ k env c, l = LDeliver k env → w.(calls) !! k = Some c → c.(dst) = j.

(** A step of the cluster is a step of one peer. *)
Lemma step_acts n (tl : bool) w l w' :
  world_ok n w → step w l = Done w' → (tl = true → timely w l = true) →
  ∃ j nd nd', w.(nodes) !! j = Some nd ∧ w'.(nodes) = <[j := nd']> w.(nodes) ∧ receives w l j ∧
    node_step tl (is_apply l) (delivered w l j) (returned w l) nd.(raft) nd'.(raft).
Proof.
  intros Hw Hs Htl.
  assert (∀ j nd ndj cs ms, nodes w !! j = Some nd → receives w l j →
    node_step tl (is_apply l) (delivered w l j) (returned w l) (raft nd) (raft ndj) →
    mkWorld (<[j := ndj]> (nodes w)) cs ms = w' →
    ∃ j nd nd', w.(nodes) !! j = Some nd ∧ w'.(nodes) = <[j := nd']> w.(nodes) ∧ receives w l j ∧
      node_step tl (is_apply l) (delivered w l j) (returned w l) nd.(raft) nd'.(raft)) as Hput.
  { intros j nd ndj cs ms Hj Hr Hn <-. by exists j, nd, ndj. }
  destruct l as [j|j env|j k env|k env|k env|k env|j|j command|j env ends]; simpl in Hs.
  4, 5, 6: destruct (calls w !! k) as [c|] eqn:Hk; simpl in Hs; [|done].
  5, 6: destruct (waiting c); [|done].
  4: destruct (nodes w !! dst c) as [nd|] eqn:Hnd; simpl in Hs; [|done].
  5, 6: destruct (nodes w !! src c) as [nd|] eqn:Hnd; simpl in Hs; [|done].
  1, 2, 3, 7, 8, 9: destruct (nodes w !! j) as [nd|] eqn:Hnd; simpl in Hs; [|done].
  - eapply Hput; [done|by intros ???; intros; simplify_eq| |injection Hs as Hs; exact Hs]. by simpl.
  - destruct (lifeSnap nd); simpl in Hs; [|done].
    destruct (lifeAct _ _ _) as [[rf gs]|] eqn:E; simpl in Hs; [|done].
    eapply Hput; [done|by intros ???; intros; simplify_eq| |injection Hs as Hs; exact Hs]. by eapply NLife.
  - destruct (threads nd !! k) as [g|]; simpl in Hs; [|done].
    destruct g as [[|p ps] t|p args t m|p t|]; simpl in Hs.
    2: { destruct (replicateBegin p t (raft nd)) as [[rf a]|] eqn:E; simpl in Hs; [|done].
         destruct a; simpl in Hs; (eapply Hput; [done|by intros ???; intros; simplify_eq| |injection Hs as Hs; exact Hs]; by eapply NReplicate). }
    all: eapply Hput; [done|by intros ???; intros; simplify_eq| |injection Hs as Hs; exact Hs]; simpl; auto. apply (NHeartbeats _ _ _ _ _ env).
  - destruct (applyOne _) as [[rf m]|] eqn:E; simpl in Hs; [|done].
    eapply Hput; [done|by intros ???; intros; simplify_eq| |injection Hs as Hs; exact Hs]. by eapply NApply.
  - destruct (Start _ _) as [[[rf r] gs]|] eqn:E; simpl in Hs; [|done].
    eapply Hput; [done|by intros ???; intros; simplify_eq| |injection Hs as Hs; exact Hs]. by eapply NStart.
  - pose proof (wo_nodes _ _ Hw _ _ Hnd) as (_ & <- & _).
    destruct (decide (len ends = _)) as [Hl|]; [|done].
    eapply Hput; [done|by intros ???; intros; simplify_eq| |injection Hs as Hs; exact Hs]. by apply NCrash.
  - destruct (body c) as [args t m [r|]|args t [r|]|args t rest [r|]] eqn:Hbody; simpl in Hs; try done.
    + destruct (RequestVote _ _ _) as [[rf r]|] eqn:E; simpl in Hs; [|done].
      eapply Hput; [done|by intros ???; intros; simplify_eq| |injection Hs as Hs; exact Hs]. by eapply NRequestVote.
    + pose proof (NHeartbeat tl false (delivered w (LDeliver k env) (dst c)) (returned w (LDeliver k env)) (raft nd) env args) as Hn.
      destruct (Heartbeat _ _ _) as [rf r]. eapply Hput; [done|by intros ???; intros; simplify_eq| |injection Hs as Hs; exact Hs]. done.
    + pose proof (NAppendEntries tl false (delivered w (LDeliver k env) (dst c)) (returned w (LDeliver k env)) (raft nd) env args) as Hn.
      specialize (Hn ltac:(by exists k, env, c, t, rest)).
      destruct (AppendEntries _ _ _) as [rf r]. eapply Hput; [done|by intros ???; intros; simplify_eq| |injection Hs as Hs; exact Hs]. done.
  - simpl in Htl. rewrite Hk, Hnd in Htl.
    destruct (body c) as [args t m [r|]|args t [r|]|args t rest [r|]] eqn:Hbody; simpl in Hs, Htl; try done.
    + destruct (voteReply _ _ _ _ _) as [[rf gs]|] eqn:E; simpl in Hs; [|done].
      eapply Hput; [done|by intros ???; intros; simplify_eq| |injection Hs as Hs; exact Hs]. by eapply NVoteReply.
    + eapply Hput; [done|by intros ???; intros; simplify_eq| |injection Hs as Hs; exact Hs]. apply NHeartbeatReply. intros Ht.
      specialize (Htl Ht). apply orb_true_iff in Htl. by rewrite !bool_decide_eq_true in Htl.
    + destruct (replicateReply _ _ _ _ _ _) as [[rf next]|] eqn:E; simpl in Hs; [|done].
      destruct next; simpl in Hs; (eapply Hput; [done|by intros ???; intros; simplify_eq| |injection Hs as Hs; exact Hs]; eapply NReplicateReply; [by exists k, env, c, rest|done]).
  - pose proof (wo_calls _ _ Hw c ltac:(by eapply list_elem_of_lookup_2)) as (_ & _ & Hb & _).
    destruct (body c) as [args t m r|args t r|args t rest r]; simpl in Hs, Hb;
      (eapply Hput; [done|by intros ???; intros; simplify_eq| |injection Hs as Hs; exact Hs]); auto.
    apply NHeartbeatReply. intros _. simpl. lia.
Qed.

Lemma step_applied w l w' :
  is_apply l = false → step w l = Done w' → w'.(applied) = w.(applied).
Proof.
  intros Hl Hs. destruct l; simpl in Hl, Hs; try done; unfold outcome_bind in Hs; by repeat case_match; simplify_eq.
Qed.

Lemma step_project n (tl : bool) w l w' i nd' :
  world_ok n w → step w l = Done w' → (tl = true → timely w l = true) →
  w'.(nodes) !! i = Some nd' →
  ∃ nd, w.(nodes) !! i = Some nd ∧ node_step tl (is_apply l) (delivered w l i) (returned w l) nd.(raft) nd'.(raft).
Proof.
  intros Hw Hs Htl Hi'. destruct (step_acts n tl w l w' Hw Hs Htl) as (j & nd & ndj & Hj & Hn & _ & Hstep).
  rewrite Hn, lookup_insert_Some in Hi'. destruct Hi' as [[<- <-]|[_ Hi']]; eauto.
Qed.

Lemma node_step_term n tl ap arr ans rf rf' : node_ok n rf → node_step tl ap arr ans rf rf' → rf.(term) ≤ rf'.(term).
Proof.
  intros Hok. destruct 1 as
    [|???? H|?|???? H|???? H|??|?? _|?????? H|??? H|??????? _ H|?? _ H|???? H|env ends _]; try done.
  - by apply lifeAct_evolves in H as [_ []].
  - by apply replicateBegin_evolves in H as [_ []].
  - by apply RequestVote_evolves in H as [_ []].
  - apply Heartbeat_evolves.
  - apply AppendEntries_evolves.
  - by apply voteReply_evolves in H as [_ []].
  - apply heartbeatReply_evolves.
  - by apply replicateReply_evolves in H as [_ []].
  - by apply applyOne_evolves in H as [_ []].
  - by apply Start_evolves in H as [_ []].
  - destruct (ok_persisted _ _ Hok env ends (me rf)) as (<- & _ & _).
    by rewrite Make_start1.
Qed.

Lemma node_step_vote n ap arr ans rf rf' : node_ok n rf → node_step true ap arr ans rf rf' → vote_stable rf rf'.
Proof.
  intros Hok. destruct 1 as
    [|???? H|?|???? H|???? H|??|?? _|?????? H|??? H|??????? _ H|?? _ H|???? H|env ends _].
  - apply vote_stable_refl.
  - by apply lifeAct_evolves in H as [_ ?].
  - apply (StartHeartbeat_evolves env).
  - by apply replicateBegin_evolves in H as [_ ?].
  - by apply RequestVote_evolves in H as [_ ?].
  - apply Heartbeat_evolves.
  - apply AppendEntries_evolves.
  - by apply voteReply_evolves in H as [_ ?].
  - apply heartbeatReply_vote_stable. by apply H.
  - by apply replicateReply_evolves in H as [_ ?].
  - by apply applyOne_evolves in H as [_ ?].
  - by apply Start_evolves in H as [_ ?].
  - rewrite Make_start1.
    destruct (ok_persisted _ _ Hok env ends (me rf)) as (Ht & Hv & _).
    split; simpl; [lia|done].
Qed.

(** A relation every node step keeps relates a peer's states at any two
    moments of an execution. *)
Lemma steps_relate n (tl : bool) (R : Raft Cmd → Raft Cmd → Prop) `{!PreOrder R} w w' i nd nd' :
  (∀ ap arr ans rf rf', node_ok n rf → node_step tl ap arr ans rf rf' → R rf rf') →
  rtc (λ w w', ∃ l, (tl = true → timely w l = true) ∧ step w l = Done w') w w' →
  world_ok n w → w.(nodes) !! i = Some nd → w'.(nodes) !! i = Some nd' →
  R nd.(raft) nd'.(raft).
Proof.
  intros HR Hs. revert nd. induction Hs as [w|w1 w2 w3 (l & Htl & Hl) _ IH]; intros nd Hw Hi Hi'.
  { by simplify_eq. }
  assert (world_ok n w2) as Hw2 by (pose proof (step_ok n w1 l Hw) as H; by rewrite Hl in H).
  assert (is_Some (nodes w2 !! i)) as [nd2 Hi2].
  { apply (wo_dom _ _ Hw2), (wo_dom _ _ Hw). by eexists. }
  destruct (step_project n tl w1 l w2 i nd2) as (nd1 & ? & Hn); [done..|]. simplify_eq.
  etransitivity; [eapply HR; [|done]|by apply IH].
  by apply (wo_nodes _ _ Hw i).
Qed.

#[local] Instance term_le_preorder : PreOrder (λ rf rf' : Raft Cmd, rf.(term) ≤ rf'.(term)).
Proof. split; [intros ?; lia|intros ????; lia]. Qed.

#[local] Instance vote_stable_preorder : PreOrder (@vote_stable Cmd).
Proof. split; [intros ?; apply vote_stable_refl|intros ???; apply vote_stable_trans]. Qed.

(** C15. Terms never go back: over any execution, crashes and restarts
    included, a peer's term is never smaller than it was. *)
Theorem terms_never_decrease env (ends : list string) w w' i nd nd' :
  steps (init env ends) w → steps w w' →
  w.(nodes) !! i = Some nd → w'.(nodes) !! i = Some nd' →
  nd.(raft).(term) ≤ nd'.(raft).(term).
Proof.
  intros Hw%reachable_ok Hs Hi Hi'.
  apply (steps_relate (len ends) false (λ rf rf', term rf ≤ term rf') w w' i); [|..|done|done|done].
  - intros ap arr ans rf rf'. apply node_step_term.
  - eapply rtc_subrel; [|done]. intros w1 w2 [l ?]. by exists l.
Qed.

(** One vote per term: as long as heartbeat replies are timely, a peer that
    has voted in a term keeps that vote for the rest of the term, also across
    crashes. *)
Lemma vote_is_kept env (ends : list string) w w' i nd nd' :
  timely_steps (init env ends) w → timely_steps w w' →
  w.(nodes) !! i = Some nd → w'.(nodes) !! i = Some nd' →
  nd'.(raft).(term) = nd.(raft).(term) → nd.(raft).(votedFor) ≠ -1 →
  nd'.(raft).(votedFor) = nd.(raft).(votedFor).
Proof.
  intros Hw Hs Hi Hi'. assert (world_ok (len ends) w) as Hok.
  { apply (reachable_ok env). eapply rtc_subrel; [|exact Hw]. intros w1 w2 (l & _ & ?). by exists l. }
  assert (vote_stable (raft nd) (raft nd')) as [_ Hv]; [|done].
  apply (steps_relate (len ends) true (@vote_stable Cmd) w w' i); [|..|done|done|done].
  - intros ap arr ans rf rf'. apply node_step_vote.
  - eapply rtc_subrel; [|done]. intros w1 w2 (l & ? & ?). by exists l.
Qed.
End history.
