(* ===== verification/RaftApply.v ===== *)
(** * The apply channel: the applier and its reader

    The inner loop of [applier] (raft.go), and the goroutine that reads the
    apply channels in the tester ([start1] of src/src/raft/config.go): it
    records every command in [cfg.logs] and stops the program when a peer
    applies an index whose predecessor it has not applied, or a command
    another peer has applied differently. *)
From S2P Require Import Prelude RaftNode RaftLog RaftInv RaftEvolve RaftSystem RaftSafety RaftHistory.

Section applier.
Context {Cmd : Type} `{!Gob Cmd, !GobOk Cmd}.
Implicit Types (rf : Raft Cmd).

(** The inner loop of [applier], run until it breaks: the messages it sends. *)
Fixpoint applierLoop (fuel : nat) rf : option (Raft Cmd * list (ApplyMsg Cmd)) :=
  match fuel with
  | O => None
  | S fuel =>
    '(rf, m) ← applyOne rf;
    match m with
    | None => Some (rf, [])
    | Some m => '(rf, ms) ← applierLoop fuel rf; Some (rf, m :: ms)
    end
  end.

(** The last index the applier can reach: the end of the log may be before the
    commit index. *)
Definition applyLimit rf : Z := Z.min rf.(commitIndex) (lastLogIndexLocked rf).

Lemma applyOne_cases rf :
  0 ≤ rf.(lastApplied) →
  (applyLimit rf ≤ rf.(lastApplied) ∧ applyOne rf = Some (rf, None)) ∨
  (rf.(lastApplied) < applyLimit rf ∧ ∃ e, slice_get rf.(log) (rf.(lastApplied) + 1) = Some e ∧
     applyOne rf = Some (set_lastApplied (rf.(lastApplied) + 1) rf,
                         Some (mkApplyMsg (rf.(lastApplied) + 1) e.(eCommand) false []))).
Proof.
  intros Ha. unfold applyOne, applyLimit, lastLogIndexLocked.
  case_decide; [left; split; [lia|done]|]. case_decide; [left; split; [lia|done]|right].
  split; [lia|]. destruct (slice_get_inr rf.(log) (rf.(lastApplied) + 1)) as [e He]; [lia|].
  exists e. simpl. by rewrite He.
Qed.

Lemma applierLoop_spec fuel rf :
  0 ≤ rf.(lastApplied) → Z.max rf.(lastApplied) (applyLimit rf) - rf.(lastApplied) < Z.of_nat fuel →
  ∃ ms, applierLoop fuel rf =
          Some (set_lastApplied (Z.max rf.(lastApplied) (applyLimit rf)) rf, ms) ∧
    amIndex <$> ms = seqZ (rf.(lastApplied) + 1) (applyLimit rf - rf.(lastApplied)) ∧
    Forall (λ m, ∃ e, slice_get rf.(log) m.(amIndex) = Some e ∧
                      m.(amCommand) = e.(eCommand)) ms.
Proof.
  revert rf. induction fuel as [|fuel IH]; intros rf Ha Hf.
  { lia. }
  cbn [applierLoop].
  destruct (applyOne_cases rf Ha) as [(Hle & ->)|(Hlt & e & He & ->)]; cbn [mbind option_bind].
  - exists []. rewrite Z.max_l, seqZ_nil by lia. split_and!; [by destruct rf|done|constructor].
  - destruct (IH (set_lastApplied (lastApplied rf + 1) rf)) as (ms & -> & Hi & Hm);
      [simpl; lia|unfold applyLimit, lastLogIndexLocked in *; simpl; lia|].
    cbn [mbind option_bind]. eexists. split; [|split].
    + change (applyLimit (set_lastApplied _ rf)) with (applyLimit rf). simpl.
      by replace (Z.max (lastApplied rf) (applyLimit rf))
        with (Z.max (lastApplied rf + 1) (applyLimit rf)) by lia.
    + rewrite fmap_cons, Hi. rewrite (seqZ_cons (lastApplied rf + 1)) by lia. simpl.
      unfold applyLimit, lastLogIndexLocked. simpl. f_equal. f_equal; lia.
    + constructor; [simpl; eauto|done].
Qed.
End applier.

(** ** The reader of the apply channel *)

Inductive applyError := CommitMismatch | OutOfOrder | NotAnInt.

#[export] Instance applyError_eq_dec : EqDecision applyError.
Proof. solve_decision. Defined.

(** One turn of [for m := range applyCh] of peer [i]: the new [cfg.logs] and
    the error it reports, if any; [None] is an index out of range. *)
Definition readApplied (logs : list (gmap Z Z)) (i : Z) (m : ApplyMsg Z)
    : option (list (gmap Z Z) * option applyError) :=
  if m.(amUseSnapshot) then Some (logs, None)
  else match m.(amCommand) with
  | None => Some (logs, Some NotAnInt)
  | Some v =>
    let mismatch :=
      existsb (λ l : gmap Z Z,
                 match l !! m.(amIndex) with
                 | Some old => bool_decide (old ≠ v)
                 | None => false
                 end) logs in
    l ← slice_get logs i;
    let prevok := bool_decide (is_Some (l !! (m.(amIndex) - 1))) in
    logs ← slice_set logs i (<[m.(amIndex) := v]> l);
    Some (logs, if bool_decide (m.(amIndex) > 1) && negb prevok then Some OutOfOrder
                else if mismatch then Some CommitMismatch else None)
  end.

(** The readers over the messages of an execution.  The first error ends the
    program ([log.Fatalf]). *)
Fixpoint readAll (logs : list (gmap Z Z)) (ms : list (Z * ApplyMsg Z))
    : option (list (gmap Z Z) * option applyError) :=
  match ms with
  | [] => Some (logs, None)
  | (i, m) :: ms =>
    '(logs, err) ← readApplied logs i m;
    match err with
    | Some e => Some (logs, Some e)
    | None => readAll logs ms
    end
  end.

(** [cfg.logs] as [make_config] creates it. *)
Definition emptyLogs (n : Z) : list (gmap Z Z) := replicate (Z.to_nat n) ∅.

Section lastApplied.
Context {Cmd : Type} `{!Gob Cmd, !GobOk Cmd}.
Implicit Types (rf : Raft Cmd).

(** Run through the branches of a critical section [H : op = Some _]. *)
Ltac branches :=
  repeat first
    [ match goal with
      | H : _ ≫= _ = Some _ |- _ => apply bind_Some in H as (? & ? & H)
      end
    | progress case_match ];
  simplify_eq/=.

(** Only the applier moves [lastApplied]; a restart resets it. *)
Lemma becomeLeader_lastApplied rf rf' gs :
  becomeLeaderLocked rf = Some (rf', gs) → rf'.(lastApplied) = rf.(lastApplied).
Proof.
  unfold becomeLeaderLocked. intros (mi & _ & (ni & _ & ?)%bind_Some)%bind_Some. by simplify_eq.
Qed.

Lemma stepDown_lastApplied env t rf : (stepDownLocked env t rf).(lastApplied) = rf.(lastApplied).
Proof. unfold stepDownLocked. by case_decide. Qed.

Lemma syncLocked_lastApplied s es rf : (syncLocked s es rf).(lastApplied) = rf.(lastApplied).
Proof. by destruct (syncLocked_shape s es rf) as [l ->]. Qed.

Lemma lifeAct_lastApplied env s rf rf' gs :
  lifeAct env s rf = Some (rf', gs) → rf'.(lastApplied) = rf.(lastApplied).
Proof.
  unfold lifeAct, StartElection. case_match eqn:E; [|by intros [= <- <-]..].
  intros (t & _ & H)%bind_Some. case_decide; [|by simplify_eq].
  by apply becomeLeader_lastApplied in H.
Qed.

Lemma replicateBegin_lastApplied p t rf rf' a :
  replicateBegin p t rf = Some (rf', a) → rf'.(lastApplied) = rf.(lastApplied).
Proof. intros H. unfold replicateBegin in H. by branches. Qed.

Lemma RequestVote_lastApplied env args rf rf' r :
  RequestVote env args rf = Some (rf', r) → rf'.(lastApplied) = rf.(lastApplied).
Proof. 
  unfold RequestVote. case_decide; [intros; by simplify_eq|].
  set (rf1 := if decide (_ > _) then _ else _).
  assert (lastApplied rf1 = lastApplied rf) as <-.
  { unfold rf1. case_decide; [apply stepDown_lastApplied|done]. }
  clearbody rf1. intros (t & _ & Hr)%bind_Some. by case_match; simplify_eq.
 Qed.

Lemma voteReply_lastApplied env t m r rf rf' gs :
  voteReply env t m r rf = Some (rf', gs) → rf'.(lastApplied) = rf.(lastApplied).
Proof. 
  unfold voteReply. case_decide; [intros; simplify_eq; apply stepDown_lastApplied|].
  case_match; [|intros; by simplify_eq]. case_decide; [|intros; by simplify_eq].
  intros ([rf1 gs1] & Hl & ?)%bind_Some. simplify_eq. by apply becomeLeader_lastApplied in Hl.
 Qed.

Lemma replicateReply_lastApplied env p t args r rf rf' next :
  replicateReply env p t args r rf = Some (rf', next) → rf'.(lastApplied) = rf.(lastApplied).
Proof. 
  unfold replicateReply. case_decide; [intros; simplify_eq; apply stepDown_lastApplied|].
  case_decide; [intros; by simplify_eq|]. case_match.
  - intros (c & _ & (rf1 & Hrf & ([rf2 gs] & Ha & ?)%bind_Some)%bind_Some)%bind_Some.
    simplify_eq. apply tryAdvanceCommit_shape in Ha as [d ->]. by branches.
  - intros H'. by branches.
 Qed.

Lemma Start_lastApplied command rf rf' r gs :
  Start command rf = Some (rf', r, gs) → rf'.(lastApplied) = rf.(lastApplied).
Proof. intros H. unfold Start in H. by branches. Qed.

Lemma node_step_lastApplied tl arr ans rf rf' :
  node_step tl false arr ans rf rf' → rf'.(lastApplied) = rf.(lastApplied) ∨ rf'.(lastApplied) = 0.
Proof.
  destruct 1 as [|???? H|?|???? H|???? H|env args|env args|?????? H|env t r H|??????? _ H|?? ? H|???? H|env];
    [left..|done|left|right].
  - done.
  - by eapply lifeAct_lastApplied.
  - done.
  - by eapply replicateBegin_lastApplied.
  - by eapply RequestVote_lastApplied.
  - unfold Heartbeat. by repeat case_decide.
  - unfold AppendEntries. case_decide; [done|].
    set (rf1 := updateLastHeartbeatLocked _ _).
    assert (lastApplied rf1 = lastApplied rf) as <-.
    { unfold rf1. simpl. repeat case_decide; [apply stepDown_lastApplied|done..]. }
    clearbody rf1. repeat (case_decide; simpl; try done); apply syncLocked_lastApplied.
  - by eapply voteReply_lastApplied.
  - unfold heartbeatReply. case_decide; [apply stepDown_lastApplied|done].
  - by eapply replicateReply_lastApplied.
  - by eapply Start_lastApplied.
  - unfold Make, readPersist. by branches.
Qed.

End lastApplied.

Section reader.
Context `{!Gob Z, !GobOk Z}.
Implicit Types (w : world Z) (rf : Raft Z).

Lemma readAll_app logs ms m :
  readAll logs (ms ++ [m]) =
  '(logs, err) ← readAll logs ms;
  match err with Some e => Some (logs, Some e) | None => readAll logs [m] end.
Proof.
  revert logs. induction ms as [|[i x] ms IH]; intros logs; [done|].
  cbn [readAll app]. destruct (readApplied logs i x) as [[logs1 [e|]]|]; cbn [mbind option_bind];
    [done| |done]. apply IH.
Qed.

(** What the readers know of the peers, unless they have stopped the program:
    [cfg.logs[i]] has every index peer [i] has applied since it started. *)
Definition reader_ok (n : Z) w : Prop :=
  match readAll (emptyLogs n) w.(applied) with
  | None => False
  | Some (logs, Some e) => e ≠ OutOfOrder
  | Some (logs, None) =>
    len logs = n ∧
    ∀ i nd l k, w.(nodes) !! i = Some nd → slice_get logs i = Some l →
      1 ≤ k ≤ nd.(raft).(lastApplied) → is_Some (l !! k)
  end.

(** A step that is not the applier's. *)
Lemma reader_skip n w w' :
  reader_ok n w → w'.(applied) = w.(applied) →
  (∀ i nd', w'.(nodes) !! i = Some nd' → ∃ nd, w.(nodes) !! i = Some nd ∧
     (nd'.(raft).(lastApplied) = nd.(raft).(lastApplied) ∨ nd'.(raft).(lastApplied) = 0)) →
  reader_ok n w'.
Proof.
  unfold reader_ok. intros Hr -> Hn. destruct (readAll _ _) as [[logs [e|]]|]; [done| |done].
  destruct Hr as [Hlen Hr]. split; [done|]. intros i nd' l k Hi Hl Hk.
  destruct (Hn i nd' Hi) as (nd & Hi' & Hla). by eapply (Hr i nd); [| |lia].
Qed.

(** The applier's step, seen by the reader. *)
Lemma reader_apply n w i nd e :
  reader_ok n w → 0 ≤ i < n → w.(nodes) !! i = Some nd → 0 ≤ nd.(raft).(lastApplied) →
  let next := nd.(raft).(lastApplied) + 1 in
  reader_ok n (mkWorld (<[i := update nd (set_lastApplied next nd.(raft)) []]> w.(nodes)) w.(calls)
                 (w.(applied) ++ [(i, mkApplyMsg next e false [])])).
Proof.
  unfold reader_ok. intros Hr Hi Hnd Hla. cbn [applied nodes]. rewrite readAll_app.
  destruct (readAll _ _) as [[logs [err|]]|]; cbn [mbind option_bind]; [done| |done].
  destruct Hr as [Hlen Hr]. cbn [readAll]. unfold readApplied.
  cbn [amUseSnapshot amCommand amIndex]. destruct e as [v|]; [|done].
  destruct (slice_get_inr logs i) as [l Hl]; [lia|]. rewrite Hl. cbn [mbind option_bind].
  rewrite slice_set_inr by lia. cbn [mbind option_bind].
  destruct (_ && _) eqn:Ho.
  { exfalso. apply andb_true_iff in Ho as [Ho1%bool_decide_eq_true Ho2%negb_true_iff%bool_decide_eq_false].
    apply Ho2. eapply (Hr i nd); [done|done|lia]. }
  destruct (existsb _ _); [done|]. split; [by autorewrite with slices|].
  intros j ndj lj k Hj Hlj Hk. rewrite lookup_insert_Some in Hj.
  destruct Hj as [[<- <-]|[Hne Hj]].
  - rewrite slice_get_insert_eq in Hlj by lia. simplify_eq. simpl in Hk.
    destruct (decide (k = lastApplied (raft nd) + 1)) as [->|].
    + by rewrite lookup_insert_eq.
    + rewrite lookup_insert_ne by done. eapply (Hr i nd); [done|done|lia].
  - rewrite slice_get_insert_ne in Hlj by lia. by eapply (Hr j ndj).
Qed.

Lemma step_reader n w l w' :
  world_ok n w → step w l = Done w' → reader_ok n w → reader_ok n w'.
Proof.
  intros Hw Hs Hr. destruct (is_apply l) eqn:Hl.
  - destruct l as [| | | | | |i| |]; try done. simpl in Hs.
    destruct (nodes w !! i) as [nd|] eqn:Hi; simpl in Hs; [|done].
    destruct (wo_nodes _ _ Hw _ _ Hi) as (Hok & <- & _).
    pose proof (ok_applied _ _ Hok). pose proof (ok_me _ _ Hok).
    destruct (applyOne_cases (raft nd)) as [(_ & Ha)|(_ & e & _ & Ha)]; [done|..];
      rewrite Ha in Hs; simpl in Hs; injection Hs as <-.
    + apply (reader_skip n w); [done..|]. simpl. intros j nd'.
      rewrite lookup_insert_Some. intros [[<- <-]|[_ ?]]; eauto.
    + by apply reader_apply.
  - apply (reader_skip n w); [done|by eapply step_applied|]. intros i nd' Hi.
    destruct (step_project n false w l w' i nd') as (nd & ? & Hn); [done..|].
    rewrite Hl in Hn. apply node_step_lastApplied in Hn. eauto.
Qed.

(** The readers of a reachable world. *)
Lemma reachable_reader env (ends : list string) w :
  steps (init env ends) w →
  ∃ logs err, readAll (emptyLogs (len ends)) w.(applied) = Some (logs, err) ∧ err ≠ Some OutOfOrder.
Proof.
  intros Hs. assert (world_ok (len ends) w ∧ reader_ok (len ends) w) as [_ Hr].
  { revert w Hs. apply (rtc_ind_r (λ w, world_ok (len ends) w ∧ reader_ok (len ends) w));
      [split; [apply init_ok|]|].
    - unfold reader_ok, emptyLogs. simpl. split; [rewrite len_replicate; pose proof (len_nonneg ends); lia|].
      intros i nd l k [_ ->]%init_lookup _. unfold Make. simpl. lia.
    - intros w1 w2 _ [l Hl] [Hw Hr]. split; [|by eapply step_reader].
      pose proof (step_ok (len ends) w1 l Hw) as H. by rewrite Hl in H. }
  unfold reader_ok in Hr. destruct (readAll _ _) as [[logs [e|]]|]; [|by eauto|done].
  do 2 eexists. split; [done|]. congruence.
Qed.

(** ** Theorems *)

(** C20. Peers apply in order: in every execution, crashes and restarts
    included, the reader of the apply channels indexes within its logs and
    never stops because a peer applied an index without its predecessor. *)
Theorem applied_in_order env (ends : list string) w :
  steps (init env ends) w →
  ∃ logs err, readAll (emptyLogs (len ends)) w.(applied) = Some (logs, err) ∧
              err ≠ Some OutOfOrder.
Proof. apply reachable_reader. Qed.
End reader.

(** The applier's inner loop ends, and it sends exactly the entries after
    [lastApplied] up to the commit index or the end of the log, whichever
    comes first, in order, each with the command the log has there. *)
Lemma applier_sends_committed {Cmd} `{!Gob Cmd} n (rf : Raft Cmd) :
  node_ok n rf →
  let k := Z.max rf.(lastApplied) (applyLimit rf) - rf.(lastApplied) in
  ∃ ms, applierLoop (S (Z.to_nat k)) rf = Some (set_lastApplied (rf.(lastApplied) + k) rf, ms) ∧
    amIndex <$> ms = seqZ (rf.(lastApplied) + 1) k ∧
    Forall (λ m, ∃ e, slice_get rf.(log) m.(amIndex) = Some e ∧
                      m.(amCommand) = e.(eCommand)) ms.
Proof.
  intros Hok k. destruct (applierLoop_spec (S (Z.to_nat k)) rf (ok_applied _ _ Hok)) as (ms & -> & Hi & Hm).
  { unfold k. lia. }
  exists ms. split_and!; [|rewrite Hi|done].
  - by replace (lastApplied rf + k) with (Z.max (lastApplied rf) (applyLimit rf)) by (unfold k; lia).
  - unfold k. destruct (decide (applyLimit rf ≤ lastApplied rf)).
    + by rewrite !seqZ_nil by lia.
    + f_equal. lia.
Qed.
