(* ===== verification/RaftPeer.v ===== *)
(** * The handlers of one Raft peer, branch by branch

    What [RequestVote], [Start], [syncLocked] and [readPersist] do on every
    branch, and that an election is won by a majority of granted replies. *)
From S2P Require Import Prelude RaftNode RaftLog RaftInv RaftEvolve.

Section peer.
Context {Cmd : Type} `{!Gob Cmd, !GobOk Cmd}.
Implicit Types (rf : Raft Cmd) (env : Env).

(** Raft's election restriction: the candidate's log, given by its last index
    and term, is at least as up to date as one that ends in [(i, t)]. *)
Definition upToDate (args : RequestVoteArgs) (i t : Z) : Prop :=
  args.(rvLastLogTerm) > t ∨ args.(rvLastLogTerm) = t ∧ args.(rvLastLogIndex) >= i.

(** ** Collecting votes

    [StartElection]'s goroutines hand their replies to [voteReply] one at a
    time. *)
Fixpoint collectVotes env (t n : Z) (replies : list RequestVoteReply) rf : option (Raft Cmd) :=
  match replies with
  | [] => Some rf
  | r :: replies => '(rf, _) ← voteReply env t n r rf; collectVotes env t n replies rf
  end.

Definition granted (replies : list RequestVoteReply) : list RequestVoteReply :=
  filter (λ r, r.(rvrVote) = true) replies.

(** A candidate or leader of term [t] with [v] votes counted. *)
Record counting (n t v : Z) rf : Prop := {
  ct_ok : node_ok n rf;
  ct_term : rf.(term) = t;
  ct_votes : rf.(voteCount) = v;
  ct_state : rf.(rstate) = if decide (v > n / 2) then leader else candidate
}.

Lemma becomeLeader_wins n rf :
  node_ok n rf → ∃ rf' gs, becomeLeaderLocked rf = Some (rf', gs) ∧ node_ok n rf' ∧
    rf'.(term) = rf.(term) ∧ rf'.(voteCount) = rf.(voteCount) ∧ rf'.(rstate) = leader.
Proof.
  intros Hok. destruct (becomeLeader_ok n rf) as (rf' & gs & Hb & Hok'); [done..|].
  pose proof (becomeLeader_shape _ _ _ Hb) as (_ & _ & ? & _ & _ & ? & ? & _). eauto 10.
Qed.

Lemma voteReply_counts n t v env r rf :
  counting n t v rf → r.(rvrElectionTerm) ≤ t →
  ∃ rf' gs, voteReply env t n r rf = Some (rf', gs) ∧
            counting n t (if r.(rvrVote) then v + 1 else v) rf'.
Proof.
  intros [Hok Ht Hv Hs] Hr. unfold voteReply. rewrite decide_False by lia.
  destruct (rvrVote r); [|by do 2 eexists]. simpl. rewrite Hv.
  assert (node_ok n (set_voteCount (v + 1) rf)) as Hok1.
  { destruct Hok as [??????? Hl]. split; try done. intros H. destruct (Hl H). by split. }
  destruct (decide (v + 1 > n / 2 ∧ rstate rf = candidate ∧ term rf = t)) as [Hw|Hw].
  - destruct (becomeLeader_wins n _ Hok1) as (rf' & gs & -> & Hok' & ? & ? & ?).
    cbn [mbind option_bind]. do 2 eexists. split; [done|]. simpl in *. split; [done|congruence|done|].
    by rewrite decide_True by lia.
  - do 2 eexists. split; [done|]. split; [done..|]. simpl. rewrite Hs. repeat case_decide; try done; try lia.
    by destruct Hw.
Qed.

Lemma collectVotes_counts n t v env replies rf :
  counting n t v rf → Forall (λ r, r.(rvrElectionTerm) ≤ t) replies →
  ∃ rf', collectVotes env t n replies rf = Some rf' ∧
         counting n t (v + len (granted replies)) rf'.
Proof.
  intros Hc Hr. revert v rf Hc. induction Hr as [|r replies Hr _ IH]; intros v rf Hc.
  { exists rf. split; [done|]. change (len (granted [])) with 0. by rewrite Z.add_0_r. }
  destruct (voteReply_counts n t v env r rf) as (rf1 & gs & Hv & Hc1); [done..|].
  cbn [collectVotes]. rewrite Hv. cbn [mbind option_bind].
  destruct (IH _ _ Hc1) as (rf2 & -> & Hc2). exists rf2. split; [done|].
  unfold granted in *. rewrite filter_cons. destruct (rvrVote r).
  - rewrite decide_True by done. autorewrite with slices.
    by replace (v + (len _ + 1)) with (v + 1 + len (filter (λ r, rvrVote r = true) replies)) by lia.
  - by rewrite decide_False by done.
Qed.

(** What [RequestVote] answers, and what it leaves behind. *)
Lemma RequestVote_cases n env args rf :
  node_ok n rf →
  ∃ rf' r lt, RequestVote env args rf = Some (rf', r) ∧
    lastLogTermLocked rf = Some lt ∧ rf'.(log) = rf.(log) ∧
    (r.(rvrVote) = true ↔
       rf.(term) ≤ args.(rvElectionTerm) ∧ upToDate args (lastLogIndexLocked rf) lt ∧
       (rf.(term) < args.(rvElectionTerm) ∨ rf.(votedFor) = -1 ∨
        rf.(votedFor) = args.(rvCandidateID))) ∧
    (r.(rvrVote) = true →
       rf'.(term) = args.(rvElectionTerm) ∧ rf'.(votedFor) = args.(rvCandidateID) ∧
       r.(rvrElectionTerm) = args.(rvElectionTerm)) ∧
    (r.(rvrVote) = false → r.(rvrElectionTerm) = rf.(term) ∧
       if decide (rf.(term) < args.(rvElectionTerm))
       then rf'.(term) = args.(rvElectionTerm) ∧ rf'.(votedFor) = -1 ∧ rf'.(rstate) = follower
       else rf' = rf).
Proof.
  intros Hok. destruct (lastLogTerm_total rf (ok_log _ _ Hok)) as [lt Hlt].
  unfold RequestVote. case_decide as Hold.
  { do 3 eexists. split; [done|]. simpl. split_and!; [done|done|naive_solver lia|done|].
    intros _. split; [done|]. by rewrite decide_False by lia. }
  set (rf1 := if decide (_ > _) then _ else _).
  assert (log rf1 = log rf ∧ lastLogTermLocked rf1 = Some lt ∧ term rf1 = rvElectionTerm args ∧
    votedFor rf1 = (if decide (term rf < rvElectionTerm args) then -1 else votedFor rf) ∧
    if decide (term rf < rvElectionTerm args) then rstate rf1 = follower else rf1 = rf)
    as (Hlog & Hlt1 & Ht & Hv & Hf).
  { unfold rf1, stepDownLocked. case_decide; [rewrite !decide_True by lia|rewrite !decide_False by lia].
    - done.
    - split_and!; try done. lia. }
  clearbody rf1. rewrite Hlt1. cbn [mbind option_bind]. unfold lastLogIndexLocked. rewrite Hlog.
  match goal with |- context [if ?b then Some _ else _] => destruct b eqn:Hg end.
  all: do 3 eexists; (split; [reflexivity|]); simpl; (split; [exact Hlt|]); (split; [done|]).
  all: (split; [|split]); [| |try done].
  - apply andb_true_iff in Hg as [Hg1 Hg2]. apply orb_true_iff in Hg1, Hg2.
    rewrite andb_true_iff, !bool_decide_eq_true in *. rewrite Hv in Hg1. unfold upToDate.
    case_decide; naive_solver lia.
  - done.
  - split; [done|]. intros (_ & Hu & Hvote). exfalso. apply not_true_iff_false in Hg. apply Hg.
    rewrite andb_true_iff, !orb_true_iff, andb_true_iff, !bool_decide_eq_true, Hv.
    unfold upToDate in Hu. case_decide; naive_solver lia.
  - done.
  - intros _. split; [done|]. by case_decide.
Qed.

(** ** Theorems *)

(** An election is won exactly by a majority: a peer that starts an
    election and then receives any replies, none of a later term, ends as
    leader of its new term when the granted replies and its own vote are more
    than half of the cluster, and as candidate of that term otherwise. *)
Lemma majority_elects n env rf rf1 gs replies :
  node_ok n rf → StartElection env rf = Some (rf1, gs) →
  Forall (λ r, r.(rvrElectionTerm) ≤ rf.(term) + 1) replies →
  ∃ rf2, collectVotes env (rf.(term) + 1) n replies rf1 = Some rf2 ∧
    rf2.(term) = rf.(term) + 1 ∧
    rf2.(rstate) = if decide (1 + len (granted replies) > n / 2) then leader else candidate.
Proof.
  intros Hok Hse Hr. assert (counting n (term rf + 1) 1 rf1) as Hc.
  { destruct (StartElection_ok n env rf Hok) as (rf' & gs' & Hse' & Hok').
    rewrite Hse in Hse'. simplify_eq. unfold StartElection in Hse.
    apply bind_Some in Hse as (lt & _ & Hse). simpl in Hse. rewrite (ok_peers _ _ Hok) in Hse.
    case_decide as Hw.
    - apply becomeLeader_shape in Hse as (_ & _ & ? & _ & _ & ? & ? & _). split; try done.
      by rewrite decide_True.
    - simplify_eq. split; try done. by rewrite decide_False. }
  destruct (collectVotes_counts n _ 1 env replies rf1 Hc Hr) as (rf2 & -> & [_ ? _ ?]). eauto.
Qed.

(** C18. A vote is granted exactly to a candidate of a current term, to whom
    this peer can still give its vote of that term and whose log is at least as
    up to date; then the vote is recorded with that term.  Otherwise the vote
    is refused; the peer then only adopts a newer term, with no vote in it. *)
Theorem RequestVote_spec n env args rf :
  node_ok n rf →
  ∃ rf' r lt, RequestVote env args rf = Some (rf', r) ∧
    lastLogTermLocked rf = Some lt ∧ rf'.(log) = rf.(log) ∧
    (r.(rvrVote) = true ↔
       rf.(term) ≤ args.(rvElectionTerm) ∧ upToDate args (lastLogIndexLocked rf) lt ∧
       (rf.(term) < args.(rvElectionTerm) ∨ rf.(votedFor) = -1 ∨
        rf.(votedFor) = args.(rvCandidateID))) ∧
    (r.(rvrVote) = true →
       rf'.(term) = args.(rvElectionTerm) ∧ rf'.(votedFor) = args.(rvCandidateID) ∧
       r.(rvrElectionTerm) = args.(rvElectionTerm)) ∧
    (r.(rvrVote) = false → r.(rvrElectionTerm) = rf.(term) ∧
       if decide (rf.(term) < args.(rvElectionTerm))
       then rf'.(term) = args.(rvElectionTerm) ∧ rf'.(votedFor) = -1 ∧ rf'.(rstate) = follower
       else rf' = rf).
Proof. apply RequestVote_cases. Qed.

(** [syncLocked] with a start index inside the log keeps everything before
    it and every entry from there on whose term matches, and leaves a log that
    ends with the given entries: as long, and with the same terms.  With no
    entries it does nothing. *)
Theorem syncLocked_spec start es rf :
  0 ≤ start ≤ len rf.(log) →
  let s := Z.to_nat start in
  let l' := (syncLocked start es rf).(log) in
  syncLocked start es rf = set_log l' rf ∧
  if decide (es = []) then l' = rf.(log)
  else
    len l' = start + len es ∧ terms (drop s l') = terms es ∧
    let kept := (s + matchingPrefix (drop s rf.(log)) es)%nat in
    take kept l' = take kept rf.(log).
Proof.
  intros Hs s l'. unfold l'. rewrite !syncLocked_merged by done. split; [done|]. simpl. fold s.
  assert (s ≤ length rf.(log))%nat as Hs' by (unfold s, len in *; lia). case_decide as He.
  { subst. unfold merged. by rewrite decide_True. }
  split_and!.
  - unfold len. rewrite merged_length by done. unfold s. lia.
  - by apply merged_drop_terms.
  - pose proof (matchingPrefix_le (drop s rf.(log)) es) as [H1 _]. rewrite length_drop in H1.
    unfold merged. rewrite decide_False by done.
    rewrite take_app_le by (rewrite length_take; lia). rewrite take_take. f_equal. lia.
Qed.

(** [Start] on a leader appends one entry of its term to the log, at the
    index it returns, records it on disk and starts one replication per other
    peer; on any other peer it changes nothing and returns -1. *)
Lemma Start_spec n command rf :
  node_ok n rf →
  ∃ rf' index t isLeader gs, Start command rf = Some (rf', (index, t, isLeader), gs) ∧
    t = rf.(term) ∧ isLeader = bool_decide (rf.(rstate) = leader) ∧
    if decide (rf.(rstate) = leader) then
      rf'.(log) = rf.(log) ++ [mkEntry rf.(term) (Some command)] ∧
      slice_get rf'.(log) index = Some (mkEntry rf.(term) (Some command)) ∧
      slice_get rf'.(matchIndex) rf.(me) = Some index ∧
      rf'.(rstate) = leader ∧ rf'.(term) = rf.(term) ∧ rf'.(commitIndex) = rf.(commitIndex) ∧
      persisted rf' ∧ gs = (λ p, GReplicate [p] rf.(term)) <$> otherPeers rf
    else index = -1 ∧ rf' = rf ∧ gs = [].
Proof.
  intros Hok. unfold Start. destruct (decide (rstate rf = leader)) as [Hl|Hl].
  - destruct (ok_leader _ _ Hok Hl) as [Hn Hm _]. pose proof (ok_me _ _ Hok).
    rewrite decide_False by tauto. simpl.
    rewrite slice_set_inr by lia. cbn [mbind option_bind]. simpl.
    rewrite slice_set_inr by lia. cbn [mbind option_bind].
    do 5 eexists. split; [done|]. rewrite bool_decide_true by done. simpl. split_and!; try done.
    + autorewrite with slices. rewrite slice_get_app_r by lia.
      by replace (_ - _) with 0 by lia.
    + rewrite slice_get_insert_eq by lia. done.
    + eapply (persisted_ext (persist (set_log (log rf ++ [mkEntry (term rf) (Some command)]) rf)));
        [done..|]. apply persist_persisted. simpl. by destruct (log rf).
  - rewrite decide_True by done. do 5 eexists. split; [done|]. by rewrite bool_decide_false.
Qed.
End peer.
