(* ===== verification/RaftReplication.v ===== *)
(** * Log replication: AppendEntries, repair of a follower, commit

    The handler of AppendEntries on every branch; what an iteration of
    [replicateTo] does to the next index when the follower has answered; and
    the commit rule. *)
From S2P Require Import Prelude RaftNode RaftLog RaftInv RaftEvolve.

Section replication.
Context {Cmd : Type} `{!Gob Cmd, !GobOk Cmd}.
Implicit Types (rf : Raft Cmd) (env : Env) (args : AppendEntriesArgs Cmd).

(** ** AppendEntries *)

Lemma AppendEntries_entry env args rf :
  ∃ rf1, updateLastHeartbeatLocked env
           (if decide (args.(aeTerm) > rf.(term))
            then stepDownLocked env args.(aeTerm) rf
            else if decide (rf.(rstate) ≠ follower)
                 then set_rstate follower rf else rf) = rf1 ∧
    rf1.(log) = rf.(log) ∧ rf1.(rstate) = follower ∧ rf1.(commitIndex) = rf.(commitIndex) ∧
    rf1.(me) = rf.(me) ∧ rf1.(peers) = rf.(peers) ∧
    (rf.(term) ≤ args.(aeTerm) → rf1.(term) = args.(aeTerm)).
Proof.
  eexists. split; [done|]. simpl. case_decide.
  - unfold stepDownLocked. rewrite decide_True by done. done.
  - case_decide as Hs; simpl; split_and!; try done; try lia.
Qed.

Lemma termAtLocked_ext rf rf' i : rf'.(log) = rf.(log) → termAtLocked rf' i = termAtLocked rf i.
Proof. intros H. unfold termAtLocked. by rewrite H. Qed.

Lemma firstIndexOfTerm_ext rf rf' ct i :
  rf'.(log) = rf.(log) → firstIndexOfTerm rf' ct i = firstIndexOfTerm rf ct i.
Proof.
  intros H. induction i as [|i IH]; [done|]. cbn [firstIndexOfTerm].
  by rewrite (termAtLocked_ext rf rf'), IH by done.
Qed.

(** The request is consistent with the log of [rf]. *)
Definition consistent args rf : Prop :=
  args.(aePrevLogIndex) ≤ lastLogIndexLocked rf ∧
  termAtLocked rf args.(aePrevLogIndex) = args.(aePrevLogTerm).

Lemma AppendEntries_reject_old env args rf :
  args.(aeTerm) < rf.(term) → AppendEntries env args rf = (rf, mkAEReply rf.(term) false 0 0).
Proof. intros H. unfold AppendEntries. by rewrite decide_True. Qed.

(** The rejection of an inconsistent request of a current leader. *)
Lemma AppendEntries_reject env args rf :
  rf.(term) ≤ args.(aeTerm) → 0 ≤ args.(aePrevLogIndex) → ¬ consistent args rf →
  ∃ rf' r, AppendEntries env args rf = (rf', r) ∧
    rf'.(log) = rf.(log) ∧ rf'.(commitIndex) = rf.(commitIndex) ∧
    rf'.(term) = args.(aeTerm) ∧ rf'.(rstate) = follower ∧
    r = (if decide (args.(aePrevLogIndex) > lastLogIndexLocked rf)
         then mkAEReply rf.(term) false (-1) (len rf.(log))
         else let ct := termAtLocked rf args.(aePrevLogIndex) in
              mkAEReply rf.(term) false ct
                (firstIndexOfTerm rf ct (Z.to_nat args.(aePrevLogIndex)))).
Proof.
  intros Ht Hp Hc. unfold AppendEntries. cbv zeta. rewrite decide_False by lia.
  destruct (AppendEntries_entry env args rf) as (rf1 & -> & Hl & Hf & Hci & _ & _ & Hterm).
  specialize (Hterm Ht). unfold consistent, lastLogIndexLocked in *. rewrite Hl.
  case_decide as Hs.
  - do 2 eexists. split; [done|]. split_and!; [done..|]. f_equal. lia.
  - rewrite (termAtLocked_ext rf rf1) by done.
    rewrite decide_True by (split; [lia|]; intros E; apply Hc; split; [lia|done]).
    do 2 eexists. split; [done|]. split_and!; [done..|].
    by rewrite (firstIndexOfTerm_ext rf rf1).
Qed.

(** The acceptance of a consistent one. *)
Lemma AppendEntries_accept env args rf :
  rf.(term) ≤ args.(aeTerm) → 0 ≤ args.(aePrevLogIndex) → consistent args rf →
  ∃ rf', AppendEntries env args rf = (rf', mkAEReply args.(aeTerm) true 0 0) ∧
    rf'.(log) = merged (Z.to_nat (args.(aePrevLogIndex) + 1)) args.(aeEntries) rf.(log) ∧
    rf'.(term) = args.(aeTerm) ∧ rf'.(rstate) = follower ∧
    rf'.(commitIndex) = (if decide (args.(aeLeaderCommit) > rf.(commitIndex))
                         then Z.min args.(aeLeaderCommit) (lastLogIndexLocked rf')
                         else rf.(commitIndex)).
Proof.
  intros Ht Hp [Hlast Htm]. unfold AppendEntries. cbv zeta. rewrite decide_False by lia.
  destruct (AppendEntries_entry env args rf) as (rf1 & -> & Hl & Hf & Hci & _ & _ & Hterm).
  specialize (Hterm Ht). unfold lastLogIndexLocked in *. rewrite Hl.
  rewrite decide_False by lia. rewrite (termAtLocked_ext rf rf1) by done.
  rewrite decide_False by tauto.
  rewrite syncLocked_merged by (rewrite Hl; lia). rewrite Hl. simpl.
  rewrite Hci, Hterm.
  eexists. split; [done|]. case_decide; simpl; split_and!; try done. case_decide; lia.
Qed.

(** ** An iteration of replicateTo

    of leader [l] with peer [p], whose state is [f] when it executes the
    request. *)

(** Raft's log matching, across indices: where an entry of [f] at [i] and an
    entry of [l] at [j ≥ i] have the same term, the logs agree up to [i]. *)
Definition coherent (l f : list (LogEntry Cmd)) : Prop :=
  ∀ i j a b, slice_get l j = Some a → slice_get f i = Some b → a.(eTerm) = b.(eTerm) → i ≤ j →
    take (Z.to_nat (i + 1)) l = take (Z.to_nat (i + 1)) f.

(** The leader during the loop: it leads term [t] and tries index [x] next. *)
Record leading (n p t x : Z) (lg : list (LogEntry Cmd)) (l : Raft Cmd) : Prop := {
  ld_ok : node_ok n l;
  ld_leader : l.(rstate) = leader;
  ld_term : l.(term) = t;
  ld_log : l.(log) = lg;
  ld_next : slice_get l.(nextIndex) p = Some x
}.

Lemma leading_bound n p t x lg l : leading n p t x lg l → x ≤ len lg.
Proof.
  intros [Hok Hl _ <- Hx]. destruct (ok_leader _ _ Hok Hl) as [_ _ Hn].
  apply slice_get_lookup in Hx as [_ Hx]. by eapply Forall_lookup_1 in Hn.
Qed.

Lemma replicateBegin_leading n p t x lg l :
  0 ≤ p < n → leading n p t x lg l →
  ∃ l1, replicateBegin p t l =
          Some (l1, Some (mkAEArgs t l.(me) (Z.max 1 x - 1) (termAtLocked l (Z.max 1 x - 1))
                            (drop (Z.to_nat (Z.max 1 x)) lg) l.(commitIndex))) ∧
    leading n p t (Z.max 1 x) lg l1.
Proof.
  intros Hp Hld. pose proof (leading_bound _ _ _ _ _ _ Hld) as Hx.
  destruct Hld as [Hok Hl <- <- Hn].
  destruct (replicateBegin_ok n p (term l) l Hok Hp) as (l1 & a & Hb & Hok1).
  pose proof (log_len _ (ok_log _ _ Hok)) as Hll. pose proof Hb as Hb'.
  destruct (ok_leader _ _ Hok Hl) as [Hnl _ _].
  unfold replicateBegin in Hb. rewrite decide_False in Hb by naive_solver.
  rewrite Hn in Hb. cbn [mbind option_bind] in Hb. exists l1. rewrite Hb'. case_decide.
  - rewrite slice_set_inr in Hb by lia. cbn [mbind option_bind] in Hb. simpl in Hb.
    rewrite slice_from_inr in Hb by lia. cbn [mbind option_bind] in Hb.
    replace (Z.max 1 x) with 1 by lia. simplify_eq. split; [done|].
    split; try done. simpl. apply slice_get_insert_eq. lia.
  - cbn [mbind option_bind] in Hb. rewrite slice_from_inr in Hb by lia.
    cbn [mbind option_bind] in Hb. replace (Z.max 1 x) with x by lia. simplify_eq.
    split; [done|]. by split.
Qed.

(** A rejection moves the index down, whatever it reports. *)
Lemma replicateReply_reject n p t x lg l args r env :
  0 ≤ p < n → leading n p t x lg l → 1 ≤ x →
  r.(aerTerm) ≤ t → r.(aerSuccess) = false →
  (r.(aerConflictTerm) = -1 → r.(aerConflictIndex) < x) →
  (r.(aerConflictTerm) ≠ -1 → 2 ≤ x ∧ r.(aerConflictIndex) < x ∧
     ∀ i, slice_get (terms lg) i = Some r.(aerConflictTerm) → i < x - 1) →
  ∃ l1 y, replicateReply env p t args r l = Some (l1, ReplAgain) ∧
    leading n p t y lg l1 ∧ y ≤ Z.max 1 (x - 1).
Proof.
  intros Hp Hld Hx1 Hrt Hfail Hshort Hconf. pose proof (leading_bound _ _ _ _ _ _ Hld) as Hxb.
  destruct Hld as [Hok Hl <- <- Hn]. pose proof (log_len _ (ok_log _ _ Hok)) as Hll.
  destruct (ok_leader _ _ Hok Hl) as [Hnl Hml Hnx].
  unfold replicateReply. rewrite decide_False by lia. rewrite decide_False by naive_solver.
  rewrite Hfail.
  match goal with |- ∃ _ _, ?m ≫= _ = _ ∧ _ =>
    assert (∃ z, m = Some z ∧ z < x) as (z & -> & Hz) end.
  { case_decide as Hc; [eexists; split; [done|by apply Hshort]|].
    destruct (Hconf Hc) as (? & ? & Hlast).
    destruct (lastIndexOfTerm_spec l (aerConflictTerm r) (Z.to_nat (lastLogIndexLocked l)))
      as (last & -> & Hlt); [unfold lastLogIndexLocked; lia|].
    cbn [mbind option_bind]. eexists. split; [done|]. case_decide; [|lia].
    destruct Hlt as [?|[? Hlt]]; [done|]. specialize (Hlast _ Hlt). lia. }
  cbn [mbind option_bind]. rewrite slice_set_inr by lia. cbn [mbind option_bind].
  assert (∀ y, y ≤ len (log l) → node_ok n (set_nextIndex (<[Z.to_nat p := y]> (nextIndex l)) l)) as Hok'.
  { intros y Hy. destruct Hok. split; simpl; try done.
    intros _. split; simpl; autorewrite with slices; [done..|]. by apply Forall_insert. }
  case_decide as Hz1.
  - rewrite slice_set_inr by (simpl; autorewrite with slices; lia). cbn [mbind option_bind].
    do 2 eexists. split; [done|]. simpl. rewrite list_insert_insert_eq.
    split; [|apply Z.le_max_l]. split; try done.
    + by apply Hok'; lia.
    + apply slice_get_insert_eq. lia.
  - cbn [mbind option_bind]. do 2 eexists. split; [done|]. split; [|instantiate (1 := z); lia].
    split; try done.
    + apply Hok'. lia.
    + apply slice_get_insert_eq. lia.
Qed.

Lemma coherent_lookup (l f : list (LogEntry Cmd)) (i : nat) a b :
  coherent l f → l !! i = Some a → f !! i = Some b → a.(eTerm) = b.(eTerm) → a = b.
Proof.
  intros Hc Ha Hb Ht.
  pose proof (Hc (Z.of_nat i) (Z.of_nat i) a b) as H. rewrite !slice_get_lookup, !Nat2Z.id in H.
  specialize (H ltac:(split; [lia|done]) ltac:(split; [lia|done]) Ht ltac:(lia)).
  apply (f_equal (.!! i)) in H. rewrite !lookup_take_lt in H by lia. congruence.
Qed.

(** What the follower ends up with once the leader's request is accepted. *)
Lemma merged_repairs (lg fg : list (LogEntry Cmd)) x :
  coherent lg fg → 1 ≤ x ≤ len lg → x ≤ len fg →
  take (Z.to_nat x) lg = take (Z.to_nat x) fg →
  lg `prefix_of` merged (Z.to_nat x) (drop (Z.to_nat x) lg) fg.
Proof.
  intros Hc Hx Hf Heq. destruct (decide (drop (Z.to_nat x) lg = [])) as [Hnil|Hne].
  - unfold merged. rewrite decide_True by done.
    rewrite <- (take_drop (Z.to_nat x) lg), Hnil, app_nil_r, Heq. apply prefix_take.
  - rewrite merged_drop; [by rewrite <- Heq, take_drop|unfold len in *; lia|done|].
    intros i e e'. rewrite lookup_drop. intros He He' Ht.
    symmetry. by eapply coherent_lookup.
Qed.

Lemma termAt_slice rf i e :
  0 < i → slice_get rf.(log) i = Some e → termAtLocked rf i = e.(eTerm).
Proof. intros Hi He. unfold termAtLocked. rewrite decide_False by lia. by rewrite He. Qed.

(** A consistent request starts where the logs agree. *)
Lemma consistent_agree (l f : Raft Cmd) x args :
  coherent l.(log) f.(log) → head l.(log) = head f.(log) → f.(log) ≠ [] →
  1 ≤ x ≤ len l.(log) →
  args.(aePrevLogIndex) = x - 1 → args.(aePrevLogTerm) = termAtLocked l (x - 1) →
  consistent args f → take (Z.to_nat x) l.(log) = take (Z.to_nat x) f.(log).
Proof.
  intros Hc Hh Hne Hx Hp Ht [Hlast Htm]. rewrite Hp, Ht in *. unfold lastLogIndexLocked in Hlast.
  destruct (decide (x = 1)) as [->|Hx1].
  - destruct (log l) as [|a ll], (log f) as [|b ff]; simplify_eq/=; done.
  - destruct (slice_get_inr (log l) (x - 1)) as [a Ha]; [lia|].
    destruct (slice_get_inr (log f) (x - 1)) as [b Hb]; [lia|].
    rewrite (termAt_slice l _ a), (termAt_slice f _ b) in Htm by (done || lia).
    replace x with (x - 1 + 1) by lia. eapply Hc; [done|done|done|lia].
Qed.

(** The two ways an iteration of the loop goes on after [replicateBegin]. *)
Section round.
Context (n p t x : Z) (env : Env) (l l1 f : Raft Cmd) (args : AppendEntriesArgs Cmd).
Context (Hp : 0 ≤ p < n) (Hld1 : leading n p t x l.(log) l1) (Hx : 1 ≤ x).
Context (Hfne : f.(log) ≠ []) (Hft : f.(term) ≤ t).
Context (Hc : coherent l.(log) f.(log)) (Hh : head l.(log) = head f.(log)).
Context (Hargs : args = mkAEArgs t l.(me) (x - 1) (termAtLocked l (x - 1))
                          (drop (Z.to_nat x) l.(log)) l.(commitIndex)).

(** An accepting reply makes the goroutine return. *)
Lemma replicateReply_accept l2 next :
  replicateReply env p t args (mkAEReply t true 0 0) l1 = Some (l2, next) →
  ∃ gs, next = ReplReturn gs.
Proof using All.
  destruct Hld1 as [_ Hl1 Ht1 _ _]. unfold replicateReply. simpl.
  rewrite decide_False by lia. rewrite decide_False by naive_solver.
  intros (? & _ & (? & _ & ([??] & _ & ?)%bind_Some)%bind_Some)%bind_Some.
  simplify_eq. eauto.
Qed.

Lemma round_accept :
  consistent args f →
  ∃ f' r l2 gs, AppendEntries env args f = (f', r) ∧
    replicateReply env p t args r l1 = Some (l2, ReplReturn gs) ∧
    l.(log) `prefix_of` f'.(log).
Proof using All.
  intros Hcon. pose proof (leading_bound _ _ _ _ _ _ Hld1) as Hxb.
  destruct (AppendEntries_accept env args f) as (f' & -> & Hlog & _); [by subst|subst; simpl; lia|done|].
  assert (take (Z.to_nat x) (log l) = take (Z.to_nat x) (log f)) as Heq.
  { by apply (consistent_agree l f x args); subst; try done; lia. }
  destruct Hcon as [Hlast _]. unfold lastLogIndexLocked in Hlast. rewrite Hargs in Hlast, Hlog.
  simpl in Hlast, Hlog.
  destruct (replicateReply_ok n env p t args (mkAEReply t true 0 0) l1)
    as (l2 & next & Hr & _); [apply Hld1|done| |unfold reply_ok; simpl; lia|].
  { intros _ _. subst; simpl. rewrite (ld_log _ _ _ _ _ _ Hld1), len_drop by lia. lia. }
  destruct (replicateReply_accept _ _ Hr) as [gs ->].
  exists f', (mkAEReply t true 0 0), l2, gs. split_and!; [by subst|done|].
  rewrite Hlog. replace (x - 1 + 1) with x by lia. apply merged_repairs; [done|lia|lia|done].
Qed.

(** A follower that has an entry at the previous index, with another term
    than the leader's there, has a term there the leader has only earlier. *)
Lemma conflict_is_earlier i :
  ¬ consistent args f → 2 ≤ x → x ≤ len f.(log) →
  slice_get (terms l.(log)) i = Some (termAtLocked f (x - 1)) → i < x - 1.
Proof using All.
  intros Hcon Hx2 Hxf (a & Ha & Hat)%terms_lookup.
  destruct (decide (i < x - 1)) as [|Hge]; [done|]. exfalso.
  destruct (slice_get_inr (log f) (x - 1)) as [b Hb]; [lia|].
  rewrite (termAt_slice f _ b) in Hat by (done || lia).
  pose proof (Hc (x - 1) i a b Ha Hb Hat ltac:(lia)) as Htk.
  apply Hcon. rewrite Hargs. split; simpl; [unfold lastLogIndexLocked; lia|].
  assert (slice_get (log l) (x - 1) = Some b) as Hlb.
  { rewrite <- (slice_get_take (log l) (x - 1 + 1)), Htk by lia.
    by rewrite slice_get_take by lia. }
  by rewrite (termAt_slice f _ b), (termAt_slice l _ b) by (done || lia).
Qed.

Lemma round_reject :
  ¬ consistent args f →
  ∃ f' r l2 y, AppendEntries env args f = (f', r) ∧
    replicateReply env p t args r l1 = Some (l2, ReplAgain) ∧
    leading n p t y l.(log) l2 ∧ y ≤ Z.max 1 (x - 1) ∧ 2 ≤ x ∧
    f'.(log) = f.(log) ∧ f'.(term) ≤ t.
Proof using All.
  intros Hcon.
  destruct (AppendEntries_reject env args f) as (f' & r & -> & Hlog & _ & Htm & _ & Hr);
    [by subst|subst; simpl; lia|done|].
  assert (2 ≤ x) as Hx2.
  { destruct (decide (x = 1)) as [E|]; [|lia]. destruct Hcon. subst. split; [|done].
    simpl. pose proof (log_len f Hfne). unfold lastLogIndexLocked. lia. }
  assert (aePrevLogIndex args = x - 1) as Hpi by (by rewrite Hargs). rewrite Hpi in Hr.
  pose proof (firstIndexOfTerm_spec f (termAtLocked f (x - 1)) (Z.to_nat (x - 1))) as (? & _ & _).
  destruct (replicateReply_reject n p t x (log l) l1 args r env) as (l2 & y & Hrr & Hld2 & Hy);
    [done|done|lia|by rewrite Hr; case_decide|by rewrite Hr; case_decide|..].
  - intros _. rewrite Hr. case_decide; simpl in *; [|lia]. unfold lastLogIndexLocked in *. lia.
  - intros Hct. split; [done|]. rewrite Hr in Hct |- *. case_decide as Hs; simpl in *; [done|].
    split; [lia|]. intros i. unfold lastLogIndexLocked in Hs. apply conflict_is_earlier; [done|lia..].
  - exists f', r, l2, y. split_and!; try done. rewrite Htm. by subst.
Qed.
End round.

(** What [tryAdvanceCommitLocked] finds. *)
Lemma tryAdvanceCommit_cases n rf :
  node_ok n rf → rf.(rstate) = leader →
  ∃ rf' gs, tryAdvanceCommitLocked rf = Some (rf', gs) ∧
    ((∃ N, rf.(commitIndex) < N ≤ lastLogIndexLocked rf ∧ committable rf N ∧
           (∀ M, N < M ≤ lastLogIndexLocked rf → ¬ committable rf M) ∧
           rf' = set_commitIndex N rf ∧
           gs = (λ p, GReplicate [p] rf.(term)) <$> otherPeers rf) ∨
     ((∀ M, rf.(commitIndex) < M ≤ lastLogIndexLocked rf → ¬ committable rf M) ∧
      rf' = rf ∧ gs = [])).
Proof.
  intros Hok Hl. destruct (ok_leader _ _ Hok Hl) as [Hnl Hml _].
  pose proof (ok_peers _ _ Hok). pose proof (ok_commit _ _ Hok).
  unfold tryAdvanceCommitLocked. set (k := Z.to_nat (lastLogIndexLocked rf - commitIndex rf)).
  assert (∀ M, commitIndex rf < M → M ≤ lastLogIndexLocked rf ↔ M ≤ commitIndex rf + Z.of_nat k)
    as Hk by lia.
  destruct (scanCommit_spec rf k) as (r & -> & Hr); [congruence|done| |].
  { unfold k, lastLogIndexLocked. lia. }
  cbn [mbind option_bind]. destruct r as [N|]; do 2 eexists; (split; [done|]).
  - left. destruct Hr as ([? ?] & ? & Hmax). exists N. rewrite Hk by lia.
    split_and!; [lia..|done| |done|done]. intros M [? ?]. apply Hmax. by rewrite <- Hk by lia.
  - right. split_and!; [|done|done]. intros M [? ?]. apply Hr. by rewrite <- Hk by lia.
Qed.

(** ** Theorems *)

(** C16. AppendEntries, on every branch: a request is accepted exactly when its
    term is current and the log has its previous entry.  A request without
    entries then leaves the log alone; otherwise the log ends with the last
    entry of the request, its entries up to the previous one are as before, and
    each later one is the one it had, as long as all of them so far have the
    terms of the request's, and from the first difference on the request's
    ([appends]); the peer follows the request's term and the commit index
    moves to the smaller of the leader's and the end of the log.  A
    rejected request leaves log and commit index alone, and its reply tells
    the caller where to go on: the end of a log that is too short, else the
    conflicting term and the first index of the run of that term. *)
Theorem AppendEntries_spec env args rf rf' r :
  0 ≤ args.(aePrevLogIndex) → AppendEntries env args rf = (rf', r) →
  (r.(aerSuccess) = true ↔ rf.(term) ≤ args.(aeTerm) ∧ consistent args rf) ∧
  (r.(aerSuccess) = true →
     appends (Z.to_nat (args.(aePrevLogIndex) + 1)) args.(aeEntries) rf.(log) rf'.(log) ∧
     rf'.(term) = args.(aeTerm) ∧ rf'.(rstate) = follower ∧
     rf'.(commitIndex) = (if decide (args.(aeLeaderCommit) > rf.(commitIndex))
                          then Z.min args.(aeLeaderCommit) (lastLogIndexLocked rf')
                          else rf.(commitIndex))) ∧
  (r.(aerSuccess) = false → rf'.(log) = rf.(log) ∧ rf'.(commitIndex) = rf.(commitIndex)) ∧
  (rf.(term) ≤ args.(aeTerm) → r.(aerSuccess) = false →
     args.(aePrevLogIndex) > lastLogIndexLocked rf ∧
       r.(aerConflictTerm) = -1 ∧ r.(aerConflictIndex) = len rf.(log) ∨
     r.(aerConflictTerm) = termAtLocked rf args.(aePrevLogIndex) ∧
       0 ≤ r.(aerConflictIndex) ≤ args.(aePrevLogIndex) ∧
       (∀ j, r.(aerConflictIndex) ≤ j ≤ args.(aePrevLogIndex) →
             termAtLocked rf j = r.(aerConflictTerm)) ∧
       (0 < r.(aerConflictIndex) →
        termAtLocked rf (r.(aerConflictIndex) - 1) ≠ r.(aerConflictTerm))).
Proof.
  intros Hp Hae. destruct (decide (args.(aeTerm) < term rf)) as [Hold|Hcur].
  { rewrite AppendEntries_reject_old in Hae by done. simplify_eq. simpl.
    split_and!; [split; [done|lia]|done|done|lia]. }
  assert (term rf ≤ aeTerm args) as Ht by lia.
  destruct (decide (consistent args rf)) as [Hc|Hc].
  - destruct (AppendEntries_accept env args rf Ht Hp Hc) as (rf1 & E & Hlog & ?).
    rewrite E in Hae. simplify_eq. split_and!; try done. intros _. split; [|done]. rewrite Hlog.
    apply merged_appends. destruct Hc as [Hlast _]. unfold lastLogIndexLocked, len in Hlast. lia.
  - destruct (AppendEntries_reject env args rf Ht Hp Hc) as (rf1 & r1 & E & ? & ? & ? & ? & Hr).
    rewrite E in Hae. injection Hae as <- <-.
    assert (aerSuccess r1 = false) as -> by (rewrite Hr; by case_decide).
    split_and!; [naive_solver|done|done|]. intros _ _. rewrite Hr. case_decide; [by left|right].
    pose proof (firstIndexOfTerm_spec rf (termAtLocked rf (aePrevLogIndex args))
      (Z.to_nat (aePrevLogIndex args))) as (? & Hrun & ?). simpl in *.
    split_and!; [done|lia|lia| |done]. intros j ?.
    destruct (decide (j = aePrevLogIndex args)) as [->|]; [done|]. apply Hrun. lia.
Qed.

(** C17. The commit rule: [tryAdvanceCommitLocked] moves the commit index
    exactly to the largest index of the leader's own term that it knows on a
    majority, tells the other peers when it moved, and does nothing when there
    is no such index above the commit index. *)
Theorem tryAdvanceCommit_spec n rf :
  node_ok n rf → rf.(rstate) = leader →
  ∃ rf' gs, tryAdvanceCommitLocked rf = Some (rf', gs) ∧
    ((∃ N, rf.(commitIndex) < N ≤ lastLogIndexLocked rf ∧ committable rf N ∧
           (∀ M, N < M ≤ lastLogIndexLocked rf → ¬ committable rf M) ∧
           rf' = set_commitIndex N rf ∧
           gs = (λ p, GReplicate [p] rf.(term)) <$> otherPeers rf) ∨
     ((∀ M, rf.(commitIndex) < M ≤ lastLogIndexLocked rf → ¬ committable rf M) ∧
      rf' = rf ∧ gs = [])).
Proof. apply tryAdvanceCommit_cases. Qed.
End replication.
