(* ===== verification/RaftElection.v ===== *)
(** * Election safety

    At most one peer ever leads a term, in every execution whose replies are
    timely (RaftSystem.v), with messages lost, delayed, reordered and peers
    crashing and restarting from their persister at any point.

    The proof carries the set [V] of the votes cast so far, triples (voter,
    term, candidate), which only grows: [ballots n V w] relates it to the
    world.  A candidate's [voteCount] is the size of a set of voters whose
    replies it has consumed; a leader has a majority of [V] behind it. *)
From S2P Require Import Prelude RaftNode RaftLog RaftInv RaftEvolve RaftSystem RaftSafety.

Section election.
Context {Cmd : Type} `{!Gob Cmd, !GobOk Cmd}.
Implicit Types (rf : Raft Cmd) (w : world Cmd) (V : gset (Z * Z * Z)) (n : Z).

(** ** The vote requests still open for a candidate *)

Definition pending_thread (t : Z) (g : goroutine) : option Z :=
  match g with
  | GVote p _ t' _ => if decide (t' = t) then Some p else None
  | _ => None
  end.

Definition pending_call (i t : Z) (c : call Cmd) : option Z :=
  match c.(body) with
  | CRequestVote _ t' _ _ =>
    if decide (c.(waiting) = true ∧ c.(src) = i ∧ t' = t) then Some c.(dst) else None
  | _ => None
  end.

Definition outstanding (i t : Z) (gs : list goroutine) (cs : list (call Cmd)) : list Z :=
  omap (pending_thread t) gs ++ omap (pending_call i t) cs.

(** ** The invariant *)

Definition supporters n V (t i : Z) (S : gset Z) : Prop :=
  ∀ v, v ∈ S → peer_ok n v ∧ (v, t, i) ∈ V.

Definition standing n V (i : Z) rf (out : list Z) : Prop :=
  match rf.(rstate) with
  | follower => True
  | candidate => ∃ S, Z.of_nat (size S) = rf.(voteCount) ∧ supporters n V rf.(term) i S ∧
                      NoDup out ∧ ∀ v, v ∈ S → v ∉ out
  | leader => ∃ S, Z.of_nat (size S) > n / 2 ∧ supporters n V rf.(term) i S
  end.

(** The votes of peer [i] in [V] agree with its term and vote. *)
Definition voted n V (i : Z) rf : Prop :=
  ∀ t c, (i, t, c) ∈ V →
    t ≤ rf.(term) ∧ c ≠ -1 ∧ (t = rf.(term) → rf.(votedFor) = c).

Definition vote_thread_ok n (i : Z) rf (g : goroutine) : Prop :=
  match g with
  | GVote _ args t m =>
    args.(rvElectionTerm) = t ∧ args.(rvCandidateID) = i ∧ m = n ∧ t ≤ rf.(term)
  | _ => True
  end.

Definition vote_call_ok n V (nds : gmap Z (node Cmd)) (c : call Cmd) : Prop :=
  match c.(body) with
  | CRequestVote args t m r =>
    args.(rvElectionTerm) = t ∧ args.(rvCandidateID) = c.(src) ∧ m = n ∧
    (∀ r', r = Some r' → r'.(rvrVote) = true → (c.(dst), t, c.(src)) ∈ V) ∧
    (c.(waiting) = true → ∀ nd, nds !! c.(src) = Some nd → t ≤ nd.(raft).(term))
  | _ => True
  end.

Definition functional V : Prop :=
  ∀ v t c c', (v, t, c) ∈ V → (v, t, c') ∈ V → c = c'.

Record seat n V (i : Z) (nd : node Cmd) (cs : list (call Cmd)) : Prop := {
  st_voted : voted n V i nd.(raft);
  st_threads : Forall (vote_thread_ok n i nd.(raft)) nd.(threads);
  st_standing : standing n V i nd.(raft)
                  (outstanding i nd.(raft).(term) nd.(threads) cs)
}.

Record ballots n V w : Prop := {
  b_functional : functional V;
  b_calls c : c ∈ w.(calls) → vote_call_ok n V w.(nodes) c;
  b_seats i nd : w.(nodes) !! i = Some nd → seat n V i nd w.(calls)
}.

(** Two majorities of the same cluster share a peer. *)
Lemma quorum_intersection n (S T : gset Z) :
  0 ≤ n → (∀ v, v ∈ S → peer_ok n v) → (∀ v, v ∈ T → peer_ok n v) →
  Z.of_nat (size S) > n / 2 → Z.of_nat (size T) > n / 2 → ∃ v, v ∈ S ∧ v ∈ T.
Proof.
  intros Hn HS HT Hs Ht.
  destruct (decide (S ∩ T = ∅)) as [He|[v ?]%set_choose_L]; [|set_solver].
  assert (size (S ∪ T) ≤ size (list_to_set (range n) : gset Z))%nat as Hle.
  { apply subseteq_size. intros v. rewrite elem_of_list_to_set, elem_of_range, elem_of_union.
    intros [?%HS|?%HT]; done. }
  rewrite size_union in Hle by set_solver.
  rewrite size_list_to_set in Hle by apply NoDup_range.
  unfold range in Hle. rewrite length_seqZ in Hle.
  pose proof (Z.div_mod n 2 ltac:(lia)). pose proof (Z.mod_pos_bound n 2 ltac:(lia)). lia.
Qed.

(** Leaders of the same term, now and later, are the same peer. *)
Lemma ballots_leaders n V1 V2 w1 w2 i j t :
  0 ≤ n → ballots n V1 w1 → ballots n V2 w2 → V1 ⊆ V2 →
  isLeader w1 i t → isLeader w2 j t → i = j.
Proof.
  intros Hn B1 B2 HV (nd1 & Hi & Hl1 & Ht1) (nd2 & Hj & Hl2 & Ht2).
  pose proof (st_standing _ _ _ _ _ (b_seats _ _ _ B1 _ _ Hi)) as S1.
  pose proof (st_standing _ _ _ _ _ (b_seats _ _ _ B2 _ _ Hj)) as S2.
  unfold standing in S1, S2. rewrite Hl1 in S1. rewrite Hl2 in S2.
  destruct S1 as (S1 & Hq1 & Hs1), S2 as (S2 & Hq2 & Hs2).
  destruct (quorum_intersection n S1 S2) as (v & Hv1 & Hv2); [done|by intros ? [? _]%Hs1|by intros ? [? _]%Hs2|done|done|].
  destruct (Hs1 v Hv1) as [_ H1], (Hs2 v Hv2) as [_ H2].
  rewrite Ht1 in H1. rewrite Ht2 in H2.
  eapply (b_functional _ _ _ B2); [by apply HV|done].
Qed.

(** ** Preservation *)

(** An update that is no election event: the vote is stable, and a candidate
    or leader afterwards was one before, in the same term. *)
Record quiet rf rf' : Prop := {
  q_votes : vote_stable rf rf';
  q_state : rf'.(rstate) ≠ follower →
    rf'.(rstate) = rf.(rstate) ∧ rf'.(term) = rf.(term);
  q_count : rf'.(rstate) = candidate → rf'.(voteCount) = rf.(voteCount)
}.

Lemma quiet_refl rf : quiet rf rf.
Proof. by split; [apply vote_stable_refl| |]. Qed.

Lemma quiet_follower rf rf' : vote_stable rf rf' → rf'.(rstate) = follower → quiet rf rf'.
Proof. intros ? H. split; [done|congruence..]. Qed.

(** Fields other than the election's own may change at will. *)
Lemma quiet_fields rf rf' :
  rf'.(term) = rf.(term) → rf'.(votedFor) = rf.(votedFor) →
  rf'.(rstate) = rf.(rstate) → rf'.(voteCount) = rf.(voteCount) → quiet rf rf'.
Proof. intros. split; [split; [lia|done]|done..]. Qed.

Lemma standing_mono n V V' i rf rf' out out' :
  V ⊆ V' → quiet rf rf' → (rf'.(rstate) ≠ follower → out' ⊆+ out) →
  standing n V i rf out → standing n V' i rf' out'.
Proof.
  intros HV [_ Hq Hc] Hout. unfold standing.
  destruct (decide (rstate rf' = follower)) as [->|Hnf]; [done|].
  destruct (Hq Hnf) as [Hst Ht]. specialize (Hout Hnf). rewrite Hst, Ht.
  assert (∀ S, supporters n V (term rf) i S → supporters n V' (term rf) i S) as Hs.
  { intros S HS v Hv. destruct (HS v Hv). auto. }
  destruct (rstate rf) eqn:E; [| |done].
  - intros (S & ? & ?). eauto.
  - intros (S & ? & ? & Hnd & Hdis). exists S. split_and!; [|by auto| |].
    + rewrite Hc; [done|congruence].
    + by eapply NoDup_submseteq.
    + intros v Hv Hin. apply (Hdis v Hv). by eapply elem_of_submseteq.
Qed.

Lemma voted_stable n V i rf rf' : vote_stable rf rf' → voted n V i rf → voted n V i rf'.
Proof.
  intros [Ht Hv] H t c Hin. destruct (H t c Hin) as (Hle & Hc & Heq).
  split_and!; [lia|done|]. intros ->. assert (term rf' = term rf) as E by lia.
  rewrite Hv; [by apply Heq|done|]. rewrite Heq; [done|lia].
Qed.

Lemma vote_thread_mono n i rf rf' g :
  rf.(term) ≤ rf'.(term) → vote_thread_ok n i rf g → vote_thread_ok n i rf' g.
Proof. destruct g; simpl; naive_solver lia. Qed.

Lemma vote_call_mono n V V' nds i nd nd' c :
  V ⊆ V' → nds !! i = Some nd → nd.(raft).(term) ≤ nd'.(raft).(term) →
  vote_call_ok n V nds c → vote_call_ok n V' (<[i := nd']> nds) c.
Proof.
  intros HV Hi Ht. unfold vote_call_ok. destruct (body c); [|done..].
  intros (? & ? & ? & Hg & Hw). split_and!; [done..|naive_solver|].
  intros Hwt nd1. rewrite lookup_insert_Some. intros [[-> <-]|[? ?]]; [|by eauto].
  specialize (Hw Hwt _ Hi). lia.
Qed.

(** The frame of a step of node [i]: what has to be shown of node [i] and of
    the calls, the rest of the invariant carries over. *)
Lemma ballots_update n V V' w i nd nd' cs ms :
  ballots n V w → w.(nodes) !! i = Some nd → V ⊆ V' → functional V' →
  (∀ v t c, (v, t, c) ∈ V' → v ≠ i → (v, t, c) ∈ V) →
  (∀ j t, j ≠ i → omap (pending_call j t) cs ⊆+ omap (pending_call j t) w.(calls)) →
  (∀ c, c ∈ cs → vote_call_ok n V' (<[i := nd']> w.(nodes)) c) →
  seat n V' i nd' cs →
  ballots n V' (mkWorld (<[i := nd']> w.(nodes)) cs ms).
Proof.
  intros [Hf Hc Hs] Hi HV Hf' Hother Hpend Hcs Hseat. split; simpl; [done..|].
  intros j ndj. rewrite lookup_insert_Some. intros [[<- <-]|[Hne Hj]]; [done|].
  destruct (Hs j ndj Hj) as [Hv Ht Hst]. split; [| done |].
  - intros t c Hin. apply Hv. by apply Hother.
  - eapply standing_mono; [done|apply quiet_refl| |done].
    intros _. apply submseteq_app; [done|]. by apply Hpend.
Qed.

(** *** Critical sections that are no election event *)

Lemma RequestVote_quiet env args rf rf' r :
  RequestVote env args rf = Some (rf', r) → quiet rf rf'.
Proof.
  intros Hr. pose proof (RequestVote_evolves _ _ _ _ _ Hr) as [_ Hv]. revert Hr.
  unfold RequestVote. case_decide; [intros; simplify_eq; apply quiet_refl|].
  destruct (lastLogTermLocked _); [|done]. cbn [mbind option_bind].
  case_decide; [|repeat case_match; intros; simplify_eq; by (apply quiet_refl || split)].
  repeat case_match; intros; simplify_eq; by apply quiet_follower.
Qed.

Lemma Heartbeat_quiet env args rf : quiet rf (Heartbeat env args rf).1.
Proof.
  pose proof (Heartbeat_evolves env args rf) as [_ Hv]. revert Hv. unfold Heartbeat.
  case_decide; [intros; apply quiet_refl|]. intros Hv. apply quiet_follower; [done|].
  simpl. case_decide as Hs; simpl; [done|]. revert Hs.
  by case_decide; simpl; destruct (rstate rf).
Qed.

Lemma AppendEntries_quiet env args rf : quiet rf (AppendEntries env args rf).1.
Proof.
  pose proof (AppendEntries_evolves env args rf) as [_ Hv]. revert Hv. unfold AppendEntries.
  case_decide; [intros; apply quiet_refl|].
  set (rf1 := updateLastHeartbeatLocked _ _).
  assert (rstate rf1 = follower) as Hf.
  { unfold rf1. simpl. case_decide; [done|]. case_decide as Hs; [done|].
    by destruct (decide (rstate rf = follower)). }
  clearbody rf1. intros Hv. apply quiet_follower; [done|]. revert Hv.
  case_decide; [done|]. case_decide; [done|].
  destruct (syncLocked_shape (aePrevLogIndex args + 1) (aeEntries args) rf1) as (l & ->).
  by case_decide.
Qed.

Lemma heartbeatReply_quiet env t r rf :
  r.(hbrTerm) ≤ t ∨ r.(hbrTerm) > rf.(term) → quiet rf (heartbeatReply env t r rf).
Proof.
  intros H. pose proof (heartbeatReply_vote_stable env t r rf H) as Hv. revert Hv.
  unfold heartbeatReply. case_decide; [|intros; apply quiet_refl].
  intros. by apply quiet_follower.
Qed.

Lemma replicateBegin_quiet p t rf rf' a :
  replicateBegin p t rf = Some (rf', a) → quiet rf rf'.
Proof.
  unfold replicateBegin. case_decide; [intros; simplify_eq; apply quiet_refl|].
  intros (next & _ & ([m rf1] & H1 & (es & _ & H2)%bind_Some)%bind_Some)%bind_Some.
  simplify_eq. case_decide; [apply bind_Some in H1 as (ni & _ & ?)|]; simplify_eq.
  - by apply quiet_fields.
  - apply quiet_refl.
Qed.

Lemma replicateReply_quiet env p t args r rf rf' next :
  replicateReply env p t args r rf = Some (rf', next) → quiet rf rf'.
Proof.
  intros Hr. pose proof (replicateReply_evolves _ _ _ _ _ _ _ _ Hr) as [_ Hv]. revert Hr.
  unfold replicateReply. case_decide; [intros; simplify_eq; by apply quiet_follower|].
  case_decide; [intros; simplify_eq; apply quiet_refl|].
  case_match.
  - intros (cur & _ & (rf1 & Hrf & ([rf2 gs] & Hadv & ?)%bind_Some)%bind_Some)%bind_Some.
    simplify_eq. apply tryAdvanceCommit_shape in Hadv as [c ->].
    case_decide; [apply bind_Some in Hrf as (? & _ & (? & _ & ?)%bind_Some)|];
      simplify_eq; by apply quiet_fields.
  - intros (x & _ & (ni & _ & (rf1 & Hrf & ?)%bind_Some)%bind_Some)%bind_Some. simplify_eq.
    case_decide; [apply bind_Some in Hrf as (? & _ & ?)|]; simplify_eq; by apply quiet_fields.
Qed.

Lemma applyOne_quiet rf rf' m : applyOne rf = Some (rf', m) → quiet rf rf'.
Proof.
  unfold applyOne. case_decide; [intros; simplify_eq; apply quiet_refl|].
  case_decide; [intros; simplify_eq; apply quiet_refl|].
  intros (e & _ & ?)%bind_Some. simplify_eq. by apply quiet_fields.
Qed.

Lemma Start_quiet command rf rf' r gs : Start command rf = Some (rf', r, gs) → quiet rf rf'.
Proof.
  unfold Start. case_decide; [intros; simplify_eq; apply quiet_refl|].
  intros (mi & _ & (ni & _ & ?)%bind_Some)%bind_Some. simplify_eq. by apply quiet_fields.
Qed.

(** *** Frames for steps that are no election event *)

Definition novote (g : goroutine) : Prop :=
  match g with GVote _ _ _ _ => False | _ => True end.

Lemma novote_pending t gs : Forall novote gs → omap (pending_thread t) gs = [].
Proof. induction 1 as [|[] gs Hg _ IH]; simpl in *; done. Qed.

Lemma novote_fmap {A} (f : A → goroutine) l : (∀ x, novote (f x)) → Forall novote (f <$> l).
Proof. intros H. apply Forall_fmap, Forall_true. intros x. apply H. Qed.

Lemma novote_thread_ok n i rf gs : Forall novote gs → Forall (vote_thread_ok n i rf) gs.
Proof. intros H. eapply Forall_impl; [done|]. by intros []. Qed.

Lemma ballots_quiet n V w i nd rf ths gs s cs ms :
  ballots n V w → w.(nodes) !! i = Some nd → quiet nd.(raft) rf →
  ths ⊆+ nd.(threads) → Forall novote gs →
  (∀ j t, omap (pending_call j t) cs ⊆+ omap (pending_call j t) w.(calls)) →
  (∀ c, c ∈ cs → vote_call_ok n V w.(nodes) c) →
  ballots n V (mkWorld (<[i := mkNode rf (ths ++ gs) s]> w.(nodes)) cs ms).
Proof.
  intros Hb Hi Hq Hths Hgs Hpend Hcs.
  pose proof (vs_term _ _ (q_votes _ _ Hq)) as Ht.
  destruct (b_seats _ _ _ Hb i nd Hi) as [Hv Hth Hst].
  eapply ballots_update; [done..|apply Hb|done|by intros; apply Hpend| |].
  - intros c Hc. eapply vote_call_mono; [done..|]. by apply Hcs.
  - split; simpl.
    + eapply voted_stable; [apply Hq|done].
    + apply Forall_app. split; [|by apply novote_thread_ok].
      eapply Forall_submseteq'; [done|]. eapply Forall_impl; [done|].
      intros g. by apply vote_thread_mono.
    + eapply standing_mono; [done|done| |done].
      intros Hnf. destruct (q_state _ _ Hq Hnf) as [_ ->]. unfold outstanding.
      rewrite omap_app, (novote_pending _ gs Hgs), app_nil_r.
      apply submseteq_app; [|apply Hpend]. by apply omap_submseteq.
Qed.

(** Replacing a call by one with the same request keeps what is pending. *)
Lemma pending_insert (cs : list (call Cmd)) k c c' j t :
  cs !! k = Some c → (∀ d, pending_call j t c' = Some d → pending_call j t c = Some d) →
  omap (pending_call j t) (<[k := c']> cs) ⊆+ omap (pending_call j t) cs.
Proof.
  intros Hk Hp. rewrite (omap_insert _ _ _ _ _ Hk), (omap_delete _ cs k c Hk).
  destruct (pending_call j t c') as [d|] eqn:E.
  - by rewrite (Hp d eq_refl).
  - by apply submseteq_inserts_l.
Qed.

Lemma pending_stop j t c d :
  pending_call j t (stop_waiting c) = Some d → pending_call j t c = Some d.
Proof. unfold pending_call. simpl. destruct (body c); [|done..]. by case_decide. Qed.

Lemma vote_call_stop n V nds c :
  vote_call_ok n V nds c → vote_call_ok n V nds (stop_waiting c).
Proof. unfold vote_call_ok. simpl. destruct (body c); naive_solver. Qed.

Lemma pending_delete (cs : list (call Cmd)) k j t :
  omap (pending_call j t) (delete k cs) ⊆+ omap (pending_call j t) cs.
Proof. apply omap_submseteq. apply sublist_submseteq, sublist_delete. Qed.

(** *** Granting a vote *)

Lemma RequestVote_granted env args rf rf' r :
  RequestVote env args rf = Some (rf', r) → r.(rvrVote) = true →
  rf'.(votedFor) = args.(rvCandidateID) ∧ rf'.(term) = args.(rvElectionTerm) ∧
  rf.(term) ≤ args.(rvElectionTerm) ∧
  (args.(rvElectionTerm) = rf.(term) →
   rf.(votedFor) = -1 ∨ rf.(votedFor) = args.(rvCandidateID)).
Proof.
  unfold RequestVote. case_decide; [intros; by simplify_eq|].
  destruct (lastLogTermLocked _); [|done]. cbn [mbind option_bind].
  case_match eqn:Hg; [|intros; by simplify_eq].
  apply andb_true_iff in Hg as [Hg _].
  apply orb_true_iff in Hg. rewrite !bool_decide_eq_true in Hg.
  intros ? _. simplify_eq. simpl. revert Hg. case_decide; simpl; intros Hg.
  - unfold stepDownLocked. rewrite decide_True by done. simpl. split_and!; [done|done|lia|lia].
  - split_and!; [done|lia|lia|done].
Qed.

(** A vote of peer [i] for [c] in term [t] may join [V] when its term and vote
    say so. *)
Lemma functional_vote n V i t c rf :
  functional V → voted n V i rf →
  rf.(term) ≤ t → (t = rf.(term) → rf.(votedFor) = -1 ∨ rf.(votedFor) = c) →
  functional (V ∪ {[(i, t, c)]}).
Proof.
  intros Hf Hv Ht Hc.
  assert (∀ c', (i, t, c') ∈ V → c' = c) as Hone.
  { intros c' Hin. destruct (Hv t c' Hin) as (Hle & Hne & Heq).
    assert (t = term rf) as E by lia. specialize (Heq E). destruct (Hc E); congruence. }
  intros v u c1 c2. rewrite !elem_of_union, !elem_of_singleton.
  intros [H1|H1] [H2|H2]; simplify_eq; [by eapply Hf|by apply Hone|symmetry; by apply Hone|done].
Qed.

Lemma voted_vote n V i t c rf rf' :
  voted n V i rf → vote_stable rf rf' → c ≠ -1 →
  rf'.(term) = t → rf'.(votedFor) = c → voted n (V ∪ {[(i, t, c)]}) i rf'.
Proof.
  intros Hv Hs Hc Ht Hvf u c'. rewrite elem_of_union, elem_of_singleton. intros [H|H].
  - revert H. by apply (voted_stable n V i rf rf').
  - simplify_eq. split_and!; [lia|done|done].
Qed.

Lemma seat_quiet n V V' i nd rf s cs cs' :
  V ⊆ V' → seat n V i nd cs → quiet nd.(raft) rf → voted n V' i rf →
  (∀ t, omap (pending_call i t) cs' ⊆+ omap (pending_call i t) cs) →
  seat n V' i (mkNode rf nd.(threads) s) cs'.
Proof.
  intros HV [_ Hth Hst] Hq Hv Hp. split; simpl; [done| |].
  - eapply Forall_impl; [done|]. intros g. apply vote_thread_mono, Hq.
  - eapply standing_mono; [done..| |done]. intros Hnf.
    destruct (q_state _ _ Hq Hnf) as [_ ->]. by apply submseteq_app.
Qed.

Lemma deliver_vote n V w k env c args t m nd rf r :
  world_ok n w → ballots n V w →
  w.(calls) !! k = Some c → c.(body) = CRequestVote args t m None →
  w.(nodes) !! c.(dst) = Some nd → RequestVote env args nd.(raft) = Some (rf, r) →
  ∃ V', V ⊆ V' ∧ (∀ x, x ∈ V' → x ∈ V ∨ r.(rvrVote) = true ∧ x = (c.(dst), t, c.(src))) ∧ ballots n V'
    (set_calls (<[k := mkCall c.(src) c.(dst) c.(waiting) (CRequestVote args t m (Some r))]> w.(calls))
       (set_node c.(dst) (update nd rf []) w)).
Proof.
  intros Hw Hb Hk Hbody Hnd Hr.
  assert (c ∈ calls w) as Hc by (by eapply list_elem_of_lookup_2).
  pose proof (b_calls _ _ _ Hb c Hc) as Hcok. unfold vote_call_ok in Hcok.
  rewrite Hbody in Hcok. destruct Hcok as (Ha1 & Ha2 & -> & _ & Hwt).
  pose proof (wo_calls _ _ Hw c Hc) as (Hsrc & _).
  pose proof (RequestVote_quiet _ _ _ _ _ Hr) as Hq.
  pose proof (b_seats _ _ _ Hb _ _ Hnd) as Hseat.
  set (c' := mkCall _ _ _ _). set (V' := if rvrVote r then V ∪ {[(dst c, t, src c)]} else V).
  assert (V ⊆ V') as HV by (unfold V'; case_match; set_solver).
  assert (functional V' ∧ voted n V' (dst c) rf) as [Hf Hv].
  { unfold V'. case_match eqn:Hg.
    - destruct (RequestVote_granted _ _ _ _ _ Hr Hg) as (Hvf & Ht & Hle & Hor).
      rewrite Ha1, Ha2 in *. split.
      + eapply functional_vote; [apply Hb|apply Hseat|done|done].
      + eapply voted_vote; [apply Hseat|apply Hq| |done|done]. unfold peer_ok in Hsrc. lia.
    - split; [apply Hb|]. eapply voted_stable; [apply Hq|apply Hseat]. }
  assert (∀ j u, omap (pending_call j u) (<[k := c']> (calls w)) ⊆+ omap (pending_call j u) (calls w)) as Hp.
  { intros j u. eapply pending_insert; [done|]. intros d. unfold pending_call. simpl. by rewrite Hbody. }
  exists V'. split; [done|]. split; [intros x; unfold V'; case_match; set_solver|].
  eapply ballots_update; [done..| |by intros; apply Hp| |].
  - intros v u d. unfold V'. case_match; set_solver.
  - intros d [->|Hd]%elem_of_insert_inv.
    + split_and!; simpl; [done..| |].
      * intros r' [= <-] Hg. unfold V'. rewrite Hg. set_solver.
      * intros Hwait nd1. rewrite lookup_insert_Some.
        intros [[E <-]|[? ?]]; [|by eapply Hwt]. simpl. rewrite E in Hnd.
        specialize (Hwt Hwait _ Hnd). pose proof (vs_term _ _ (q_votes _ _ Hq)). lia.
    + eapply vote_call_mono; [done..|apply Hq|by apply Hb].
  - unfold update. rewrite app_nil_r. by eapply seat_quiet.
Qed.

(** *** Starting an election *)

Lemma StartElection_shape env rf rf' gs :
  StartElection env rf = Some (rf', gs) →
  rf'.(term) = rf.(term) + 1 ∧ rf'.(votedFor) = rf.(me) ∧ rf'.(voteCount) = 1 ∧
  ((rf'.(rstate) = leader ∧ 1 > len rf.(peers) / 2 ∧ Forall novote gs) ∨
   (rf'.(rstate) = candidate ∧
    ∃ args, args.(rvElectionTerm) = rf'.(term) ∧ args.(rvCandidateID) = rf.(me) ∧
      gs = (λ p, GVote p args rf'.(term) (len rf.(peers))) <$> otherPeers rf)).
Proof.
  unfold StartElection. intros (t & _ & H)%bind_Some. case_decide as Hq.
  - apply becomeLeader_shape in H as (_ & _ & Ht & Hv & _ & Hs & Hc & ->). simpl in *.
    split_and!; [done..|]. left. split_and!; [done|done|]. by repeat constructor.
  - simplify_eq. simpl. split_and!; [done..|]. right. split; [done|].
    by exists (mkRVArgs (term rf + 1) (me rf) (lastLogIndexLocked rf) t).
Qed.

Lemma outstanding_later n V i nd rf w :
  ballots n V w → w.(nodes) !! i = Some nd → nd.(raft).(term) < rf.(term) →
  outstanding i rf.(term) nd.(threads) w.(calls) = [].
Proof.
  intros Hb Hi Ht. unfold outstanding.
  destruct (b_seats _ _ _ Hb _ _ Hi) as [_ Hth _].
  assert (∀ l : list Z, (∀ x, x ∉ l) → l = []) as Hnil.
  { intros [|x l] H; [done|]. destruct (H x). by left. }
  rewrite (Hnil (omap _ (threads nd))), (Hnil (omap _ (calls w))); [done|..].
  - intros x (c & Hc & Hp)%list_elem_of_omap. pose proof (b_calls _ _ _ Hb c Hc) as Hok.
    unfold pending_call, vote_call_ok in *. destruct (body c); [|done..].
    case_decide as Hd; [|done]. destruct Hd as (Hwt & <- & ->), Hok as (_ & _ & _ & _ & Hle).
    specialize (Hle Hwt _ Hi). lia.
  - intros x (g & Hg & Hp)%list_elem_of_omap. rewrite Forall_forall in Hth.
    specialize (Hth g Hg). destruct g; simpl in *; try done. case_decide; [|done].
    destruct Hth as (_ & _ & _ & ?). lia.
Qed.

Lemma pending_fresh_votes args t m (ps : list Z) :
  omap (pending_thread t) ((λ p, GVote p args t m) <$> ps) = ps.
Proof. induction ps as [|p ps IH]; [done|]. simpl. rewrite decide_True by done. by f_equal. Qed.

Lemma start_election n V w i nd env rf gs s ms :
  world_ok n w → ballots n V w → w.(nodes) !! i = Some nd →
  StartElection env nd.(raft) = Some (rf, gs) →
  ∃ V', V ⊆ V' ∧ (∀ x, x ∈ V' → x ∈ V ∨ x = (i, rf.(term), i)) ∧
    ballots n V' (mkWorld (<[i := mkNode rf (nd.(threads) ++ gs) s]> w.(nodes)) w.(calls) ms).
Proof.
  intros Hw Hb Hi Hr.
  pose proof (wo_nodes _ _ Hw _ _ Hi) as (Hok & Hme & _).
  pose proof (StartElection_evolves _ _ _ _ Hr) as [_ Hvs].
  destruct (StartElection_shape _ _ _ _ Hr) as (Ht & Hv & Hc & Hst).
  pose proof (b_seats _ _ _ Hb _ _ Hi) as Hseat.
  pose proof (ok_me _ _ Hok) as Hrange. rewrite Hme in *.
  assert (len (peers (raft nd)) = n) as Hn by apply Hok. rewrite Hn in *.
  set (V' := V ∪ {[(i, rf.(term), i)]}).
  assert (supporters n V' (term rf) i {[i]}) as Hsup.
  { intros v ->%elem_of_singleton. split; [done|]. unfold V'. set_solver. }
  exists V'. split; [set_solver|]. split; [intros x; unfold V'; set_solver|].
  eapply ballots_update; [done|done|set_solver| |set_solver|done| |].
  - eapply functional_vote; [apply Hb|apply Hseat|lia|lia].
  - intros c Hcin. apply (vote_call_mono n V V' _ i nd); [set_solver|done|apply Hvs|by apply Hb].
  - split; simpl.
    + eapply voted_vote; [apply Hseat|done|lia|done|done].
    + apply Forall_app. split.
      { eapply Forall_impl; [apply Hseat|]. intros g. apply vote_thread_mono, Hvs. }
      destruct Hst as [(_ & _ & Hnv)|(_ & args & Ha1 & Ha2 & ->)]; [by apply novote_thread_ok|].
      apply Forall_fmap, Forall_true. intros p. simpl. done.
    + unfold standing. destruct Hst as [(-> & Hq & _)|(-> & args & Ha1 & Ha2 & ->)].
      * exists {[i]}. rewrite size_singleton. split; [lia|done].
      * assert (outstanding i (term rf) (threads nd ++
            ((λ p, GVote p args (term rf) n) <$> otherPeers (raft nd))) (calls w)
          ≡ₚ otherPeers (raft nd)) as Hout.
        { unfold outstanding. rewrite omap_app, pending_fresh_votes.
          pose proof (outstanding_later n V i nd rf w Hb Hi ltac:(lia)) as [-> ->]%app_nil.
          by rewrite app_nil_r. }
        exists {[i]}. rewrite size_singleton. split_and!; [by rewrite Hc|done| |].
        -- rewrite Hout. apply NoDup_filter, NoDup_range.
        -- intros v ->%elem_of_singleton. rewrite Hout. unfold otherPeers.
           rewrite list_elem_of_filter, Hme. tauto.
Qed.

(** *** Counting a vote *)

Lemma voteReply_shape env t m r rf rf' gs :
  voteReply env t m r rf = Some (rf', gs) →
  (r.(rvrVote) = true → rf.(term) = t) →
  Forall novote gs ∧
  (quiet rf rf' ∨
   r.(rvrVote) = true ∧ rf'.(term) = rf.(term) ∧ rf'.(votedFor) = rf.(votedFor) ∧
   rf'.(voteCount) = rf.(voteCount) + 1 ∧ rf.(term) = t ∧
   (rf.(rstate) = candidate ∧ rf'.(rstate) = leader ∧ rf'.(voteCount) > m / 2 ∨
    rf'.(rstate) = rf.(rstate))).
Proof.
  intros Hr Htl. pose proof (voteReply_evolves _ _ _ _ _ _ _ Hr) as [_ Hv]. revert Hr.
  unfold voteReply. case_decide.
  { intros; simplify_eq. split; [constructor|]. left. by apply quiet_follower. }
  case_match eqn:Hg; [|intros; simplify_eq; split; [constructor|left; apply quiet_refl]].
  case_decide as Hw.
  - intros ([rf1 gs1] & Hb & ?)%bind_Some. simplify_eq.
    apply becomeLeader_shape in Hb as (_ & _ & Ht & Hvf & _ & Hs & Hc & ->). simpl in *.
    split; [by repeat constructor|]. right. split_and!; [done..|by apply Htl|].
    left. destruct Hw as (? & ? & _). split_and!; [done|done|lia].
  - intros; simplify_eq. simpl. split; [constructor|]. right. split_and!; [done..|by apply Htl|].
    by right.
Qed.

(** A candidate that consumes a granted reply of its election has one more
    supporter and one open request less. *)
Lemma standing_vote n V w i nd k c args m r :
  world_ok n w → ballots n V w → w.(nodes) !! i = Some nd →
  w.(calls) !! k = Some c → c.(waiting) = true → c.(src) = i →
  c.(body) = CRequestVote args nd.(raft).(term) m (Some r) → r.(rvrVote) = true →
  nd.(raft).(rstate) = candidate →
  ∃ S, Z.of_nat (size S) = nd.(raft).(voteCount) + 1 ∧
    supporters n V nd.(raft).(term) i S ∧
    NoDup (outstanding i nd.(raft).(term) nd.(threads) (delete k w.(calls))) ∧
    ∀ v, v ∈ S → v ∉ outstanding i nd.(raft).(term) nd.(threads) (delete k w.(calls)).
Proof.
  intros Hw Hb Hi Hk Hwt Hsrc Hbody Hg Hcand.
  pose proof (st_standing _ _ _ _ _ (b_seats _ _ _ Hb _ _ Hi)) as Hst.
  unfold standing in Hst. rewrite Hcand in Hst. destruct Hst as (S & Hsz & Hsup & Hnd & Hdis).
  assert (c ∈ calls w) as Hc by (by eapply list_elem_of_lookup_2).
  pose proof (b_calls _ _ _ Hb c Hc) as Hcok. unfold vote_call_ok in Hcok.
  rewrite Hbody in Hcok. destruct Hcok as (_ & _ & _ & Hgr & _).
  assert (outstanding i (term (raft nd)) (threads nd) (calls w)
    ≡ₚ dst c :: outstanding i (term (raft nd)) (threads nd) (delete k (calls w))) as Hout.
  { unfold outstanding. rewrite (omap_delete _ _ _ _ Hk).
    unfold pending_call at 1. rewrite Hbody, decide_True by done. simpl.
    by rewrite Permutation_middle. }
  rewrite Hout in Hnd. apply NoDup_cons in Hnd as [Hd Hnd].
  assert (dst c ∉ S) as HdS by (intros Hin; apply (Hdis _ Hin); rewrite Hout; left).
  exists ({[dst c]} ∪ S). split_and!.
  - rewrite size_union by set_solver. rewrite size_singleton. lia.
  - intros v [->%elem_of_singleton|Hv]%elem_of_union; [|by apply Hsup].
    split; [by apply (wo_calls _ _ Hw c Hc)|]. rewrite <- Hsrc. by eapply Hgr.
  - done.
  - intros v [->%elem_of_singleton|Hv]%elem_of_union; [done|].
    intros Hin. apply (Hdis v Hv). rewrite Hout. by right.
Qed.

Lemma count_vote n V w k env c args t m r nd rf gs :
  world_ok n w → ballots n V w →
  w.(calls) !! k = Some c → c.(waiting) = true →
  c.(body) = CRequestVote args t m (Some r) → w.(nodes) !! c.(src) = Some nd →
  voteReply env t m r nd.(raft) = Some (rf, gs) →
  (r.(rvrVote) = true → nd.(raft).(term) = t) →
  ballots n V (set_calls (delete k w.(calls)) (set_node c.(src) (update nd rf gs) w)).
Proof.
  intros Hw Hb Hk Hwt Hbody Hnd Hr Htl.
  assert (c ∈ calls w) as Hc by (by eapply list_elem_of_lookup_2).
  assert (∀ c', c' ∈ delete k (calls w) → c' ∈ calls w) as Hdel
    by (intros ?; apply list_elem_of_delete_inv).
  destruct (voteReply_shape _ _ _ _ _ _ _ Hr Htl) as [Hgs [Hq|Hvote]].
  { eapply ballots_quiet; [done..|intros; apply pending_delete|]. intros c' ?%Hdel. by apply Hb. }
  destruct Hvote as (Hg & Ht & Hv & Hcount & <- & Hcase).
  pose proof (voteReply_evolves _ _ _ _ _ _ _ Hr) as [_ Hvs].
  pose proof (b_seats _ _ _ Hb _ _ Hnd) as Hseat.
  pose proof (b_calls _ _ _ Hb c Hc) as Hcok. unfold vote_call_ok in Hcok.
  rewrite Hbody in Hcok. destruct Hcok as (_ & _ & -> & _ & _).
  eapply ballots_update; [done|done|done|apply Hb|done|intros; apply pending_delete| |].
  - intros c' ?%Hdel. eapply vote_call_mono; [done..|apply Hvs|by apply Hb].
  - split; simpl.
    + eapply voted_stable; [done|apply Hseat].
    + apply Forall_app. split; [|by apply novote_thread_ok].
      eapply Forall_impl; [apply Hseat|]. intros g. apply vote_thread_mono, Hvs.
    + rewrite Ht. unfold outstanding. rewrite omap_app, (novote_pending _ gs Hgs), app_nil_r.
      destruct (decide (rstate (raft nd) = candidate)) as [Hcand|Hncand].
      * destruct (standing_vote n V w (src c) nd k c args n r) as (S & ? & ? & ? & ?); [done..|].
        unfold standing. rewrite Ht. destruct Hcase as [(_ & -> & Hmaj)| ->].
        -- exists S. split; [lia|done].
        -- rewrite Hcand. exists S. split_and!; [lia|done..].
      * destruct Hcase as [(? & _)|Hsame]; [done|]. unfold standing. rewrite Hsame, Ht.
        pose proof (st_standing _ _ _ _ _ Hseat) as Hst. unfold standing in Hst.
        by destruct (rstate (raft nd)).
Qed.

(** *** Sending a vote request *)

Lemma run_vote n V w i nd k p args t m :
  ballots n V w → w.(nodes) !! i = Some nd → nd.(threads) !! k = Some (GVote p args t m) →
  ballots n V (set_calls (w.(calls) ++ [mkCall i p true (CRequestVote args t m None)])
                 (set_node i (update (drop_thread k nd) nd.(raft) []) w)).
Proof.
  intros Hb Hi Hk. pose proof (b_seats _ _ _ Hb _ _ Hi) as Hseat.
  pose proof (st_threads _ _ _ _ _ Hseat) as Hth.
  pose proof (Forall_lookup_1 _ _ _ _ Hth Hk) as (Ha1 & Ha2 & -> & Hle).
  eapply ballots_update; [done|done|done|apply Hb|done| | |].
  - intros j u Hne. rewrite omap_app. simpl. unfold pending_call at 2. simpl.
    rewrite decide_False by naive_solver. by rewrite app_nil_r.
  - intros c [Hc| ->%list_elem_of_singleton]%elem_of_app.
    + eapply vote_call_mono; [done..|by apply Hb].
    + split_and!; simpl; [done..|]. intros _ nd'. rewrite lookup_insert_eq. by intros [= <-].
  - destruct Hseat as [Hv _ Hst]. split; simpl; [done| |].
    + rewrite app_nil_r. by apply Forall_delete.
    + eapply standing_mono; [done|apply quiet_refl| |done]. intros _. unfold outstanding.
      rewrite app_nil_r, omap_app, (omap_delete _ _ _ _ Hk). simpl. unfold pending_call at 2. simpl.
      destruct (decide (t = term (raft nd))) as [->|Hne].
      * rewrite decide_True by done. simpl. rewrite (comm (++) _ [p]), (assoc (++)), (comm (++) _ [p]).
        by rewrite <- (assoc (++)).
      * rewrite decide_False by naive_solver. by rewrite app_nil_r.
Qed.

(** *** Crashing *)

Lemma pending_orphan i j t (cs : list (call Cmd)) :
  j ≠ i → omap (pending_call j t) (orphan i <$> cs) = omap (pending_call j t) cs.
Proof.
  intros Hne. induction cs as [|c cs IH]; [done|]. csimpl. rewrite IH.
  replace (pending_call j t (orphan i c)) with (pending_call j t c); [done|].
  unfold orphan. case_decide as Hs; [|done]. unfold pending_call. simpl.
  destruct (body c); [|done..]. by rewrite !decide_False by naive_solver.
Qed.

Lemma crash n V w i nd env ends :
  world_ok n w → ballots n V w → w.(nodes) !! i = Some nd →
  ballots n V (set_calls (orphan i <$> w.(calls))
    (set_node i (mkNode (Make env ends i (start1 nd.(raft).(persister))) [] None) w)).
Proof.
  intros Hw Hb Hi. pose proof (wo_nodes _ _ Hw _ _ Hi) as (Hok & _ & _).
  pose proof (ok_persisted _ _ Hok env ends i) as (Ht & Hv & _).
  rewrite Make_start1. set (rf := set_persister _ _) in *.
  assert (vote_stable (raft nd) rf) as Hvs by (split; simpl; [lia|done]).
  eapply ballots_update; [done|done|done|apply Hb|done| | |].
  - intros j t Hne. by rewrite pending_orphan.
  - intros c' (c & -> & Hc)%list_elem_of_fmap.
    assert (vote_call_ok n V (<[i := mkNode rf [] None]> (nodes w)) c) as Hcok.
    { eapply vote_call_mono; [done..|apply Hvs|by apply Hb]. }
    unfold orphan. case_decide; [by apply vote_call_stop|done].
  - split; simpl; [|constructor|].
    + eapply voted_stable; [done|]. by apply (b_seats _ _ _ Hb).
    + unfold standing. replace (rstate rf) with follower; [done|].
      unfold rf, Make, readPersist. simpl. by repeat case_match.
Qed.

(** *** Every timely step *)

Lemma deliver_other_quiet n V w k c nd rf b :
  ballots n V w → w.(calls) !! k = Some c → w.(nodes) !! c.(dst) = Some nd →
  quiet nd.(raft) rf →
  (∀ args t m r, c.(body) ≠ CRequestVote args t m r) →
  (∀ args t m r, b ≠ CRequestVote args t m r) →
  ballots n V (set_calls (<[k := mkCall c.(src) c.(dst) c.(waiting) b]> w.(calls))
                 (set_node c.(dst) (update nd rf []) w)).
Proof.
  intros Hb Hk Hnd Hq Hc Hb'. eapply ballots_quiet; [done|done|done|done|constructor| |].
  - intros j t. eapply pending_insert; [done|]. intros d. unfold pending_call. simpl.
    destruct b; try done. by destruct (Hb' args term nPeers reply).
  - intros c' [->|Hc']%elem_of_insert_inv; [|by apply Hb].
    unfold vote_call_ok. simpl. destruct b; try done. by destruct (Hb' args term nPeers reply).
Qed.

(** The votes cast in a step: by a peer for itself when it starts an election,
    and by a peer that grants a request. *)
Inductive cast w (l : label Cmd) w' : Z * Z * Z → Prop :=
| cast_self i env nd nd' gs :
    l = LLifeAct i env → w.(nodes) !! i = Some nd → w'.(nodes) !! i = Some nd' →
    StartElection env nd.(raft) = Some (nd'.(raft), gs) → cast w l w' (i, nd'.(raft).(term), i)
| cast_grant k env c args t m nd nd' r :
    l = LDeliver k env → w.(calls) !! k = Some c → c.(body) = CRequestVote args t m None →
    w.(nodes) !! c.(dst) = Some nd → w'.(nodes) !! c.(dst) = Some nd' →
    RequestVote env args nd.(raft) = Some (nd'.(raft), r) →
    r.(rvrVote) = true → cast w l w' (c.(dst), t, c.(src)).

Lemma step_deliver n V w k env w' :
  world_ok n w → ballots n V w → step w (LDeliver k env) = Done w' →
  ∃ V', V ⊆ V' ∧ (∀ x, x ∈ V' → x ∈ V ∨ cast w (LDeliver k env) w' x) ∧ ballots n V' w'.
Proof.
  intros Hw Hb. simpl. destruct (calls w !! k) as [c|] eqn:Hk; [|done]. simpl.
  destruct (nodes w !! dst c) as [nd|] eqn:Hnd; [|done]. simpl.
  destruct (body c) as [args t m [r|]|args t [r|]|args t rest [r|]] eqn:Hbody; simpl; try done.
  - destruct (RequestVote env args (raft nd)) as [[rf r]|] eqn:Hr; [|done]. simpl.
    intros [= <-]. edestruct deliver_vote as (V' & HV & Hnew & Hb'); [exact Hw|exact Hb|exact Hk|exact Hbody|exact Hnd|exact Hr|].
    exists V'. split_and!; [done| |done]. intros x Hx. destruct (Hnew x Hx) as [?|[? ->]]; [by left|].
    right. eapply cast_grant; [done|done|done|done|simpl; by rewrite lookup_insert_eq|done|done].
  - pose proof (Heartbeat_quiet env args (raft nd)) as Hq.
    destruct (Heartbeat env args (raft nd)) as [rf r]. simpl in *. intros [= <-].
    exists V. split_and!; [done|by left|]. eapply deliver_other_quiet; [done..|by rewrite Hbody|done].
  - pose proof (AppendEntries_quiet env args (raft nd)) as Hq.
    destruct (AppendEntries env args (raft nd)) as [rf r]. simpl in *. intros [= <-].
    exists V. split_and!; [done|by left|]. eapply deliver_other_quiet; [done..|by rewrite Hbody|done].
Qed.

Lemma tryAdvanceCommit_novote rf rf' gs :
  tryAdvanceCommitLocked rf = Some (rf', gs) → Forall novote gs.
Proof.
  unfold tryAdvanceCommitLocked. intros ([N|] & _ & ?)%bind_Some; simplify_eq; [|constructor].
  by apply novote_fmap.
Qed.

Lemma replicateReply_novote env p t args r rf rf' gs :
  replicateReply env p t args r rf = Some (rf', ReplReturn gs) → Forall novote gs.
Proof.
  unfold replicateReply. case_decide; [intros; simplify_eq; constructor|].
  case_decide; [intros; simplify_eq; constructor|]. case_match.
  - intros (cur & _ & (rf1 & Hrf & ([rf2 gs2] & Hadv & ?)%bind_Some)%bind_Some)%bind_Some.
    simplify_eq. by eapply tryAdvanceCommit_novote.
  - intros (x & _ & (ni & _ & (rf1 & _ & ?)%bind_Some)%bind_Some)%bind_Some. by simplify_eq.
Qed.

Lemma step_return n V w k env w' :
  world_ok n w → ballots n V w → timely w (LReturn k env) = true →
  step w (LReturn k env) = Done w' → ballots n V w'.
Proof.
  intros Hw Hb. simpl. destruct (calls w !! k) as [c|] eqn:Hk; [|done]. simpl.
  destruct (waiting c) eqn:Hwt; [|done].
  destruct (nodes w !! src c) as [nd|] eqn:Hnd; [|done]. simpl.
  assert (∀ rf gs, quiet (raft nd) rf → Forall novote gs →
    ballots n V (set_calls (delete k (calls w)) (set_node (src c) (update nd rf gs) w))) as Hquiet.
  { intros rf gs Hq Hgs. eapply ballots_quiet; [done..|intros; apply pending_delete|].
    intros c' ?%list_elem_of_delete_inv. by apply Hb. }
  destruct (body c) as [args t m [r|]|args t [r|]|args t rest [r|]] eqn:Hbody; simpl; try done.
  - intros Htl. destruct (voteReply env t m r (raft nd)) as [[rf gs]|] eqn:Hr; [|done]. simpl.
    intros [= <-]. eapply count_vote; [done..|].
    intros Hg. rewrite Hg in Htl. by apply bool_decide_eq_true in Htl.
  - intros Htl%orb_true_iff [= <-]. apply Hquiet; [|by repeat constructor].
    apply heartbeatReply_quiet. rewrite !bool_decide_eq_true in Htl. done.
  - intros _. destruct (replicateReply env (dst c) t args r (raft nd)) as [[rf next]|] eqn:Hr; [|done].
    simpl. pose proof (replicateReply_quiet _ _ _ _ _ _ _ _ Hr).
    destruct next as [gs|]; intros [= <-]; apply Hquiet; try done.
    + apply Forall_app. split; [by eapply replicateReply_novote|by repeat constructor].
    + by repeat constructor.
Qed.

Lemma step_fail n V w k env w' :
  world_ok n w → ballots n V w → step w (LFail k env) = Done w' → ballots n V w'.
Proof.
  intros Hw Hb. simpl. destruct (calls w !! k) as [c|] eqn:Hk; [|done]. simpl.
  pose proof (wo_calls _ _ Hw c ltac:(by eapply list_elem_of_lookup_2)) as (_ & _ & Hbody & _).
  destruct (waiting c) eqn:Hwt; [|done].
  destruct (nodes w !! src c) as [nd|] eqn:Hnd; [|done]. simpl.
  assert (∀ rf gs, quiet (raft nd) rf → Forall novote gs →
    ballots n V (set_calls (<[k := stop_waiting c]> (calls w))
                   (set_node (src c) (update nd rf gs) w))) as Hquiet.
  { intros rf gs Hq Hgs. eapply ballots_quiet; [done..| |].
    - intros j t. eapply pending_insert; [done|]. apply pending_stop.
    - intros c' [->|?]%elem_of_insert_inv; [|by apply Hb].
      apply vote_call_stop, Hb. by eapply list_elem_of_lookup_2. }
  destruct (body c) as [args t m r|args t r|args t rest r]; simpl in *; intros [= <-];
    apply Hquiet; try apply quiet_refl; try by repeat constructor.
  apply heartbeatReply_quiet. simpl. lia.
Qed.

Lemma step_run n V w i k env w' :
  ballots n V w → step w (LRun i k env) = Done w' → ballots n V w'.
Proof.
  intros Hb. simpl. destruct (nodes w !! i) as [nd|] eqn:Hi; [|done]. simpl.
  destruct (threads nd !! k) as [g|] eqn:Hg; [|done]. simpl.
  assert (∀ rf gs cs, quiet (raft nd) rf → Forall novote gs →
    (∀ c, c ∈ cs → ∀ args t m r, c.(body) ≠ CRequestVote args t m r) →
    ballots n V (set_calls (calls w ++ cs) (set_node i (update (drop_thread k nd) rf gs) w))) as Hquiet.
  { intros rf gs cs Hq Hgs Hcs.
    assert (∀ j t, omap (pending_call j t) cs = []) as Hnil.
    { intros j t. induction cs as [|c cs IH]; [done|]. csimpl.
      rewrite IH by (intros; apply Hcs; by right). unfold pending_call.
      pose proof (Hcs c ltac:(left)) as Hc. destruct (body c); try done. by destruct (Hc args term nPeers reply). }
    eapply ballots_quiet; [done..|apply sublist_submseteq, sublist_delete|done| |].
    - intros j t. by rewrite omap_app, Hnil, app_nil_r.
    - intros c [Hc|Hc]%elem_of_app; [by apply Hb|].
      unfold vote_call_ok. pose proof (Hcs c Hc) as Hno. destruct (body c); try done.
      by destruct (Hno args term nPeers reply). }
  destruct g as [[|p ps] t|p args t m|p t|]; simpl.
  - intros [= <-]. apply Hquiet; [apply quiet_refl|constructor|]. by intros c ?%elem_of_nil.
  - destruct (replicateBegin p t (raft nd)) as [[rf a]|] eqn:Hr; [|done]. simpl.
    pose proof (replicateBegin_quiet _ _ _ _ _ Hr).
    destruct a as [args|]; intros [= <-]; apply Hquiet; try done; try by repeat constructor.
    + by intros c ->%list_elem_of_singleton.
    + by intros c ?%elem_of_nil.
  - intros [= <-]. by apply run_vote.
  - intros [= <-]. apply Hquiet; [apply quiet_refl|constructor|]. by intros c ->%list_elem_of_singleton.
  - intros [= <-]. apply Hquiet; [by apply quiet_fields|by apply novote_fmap|].
    by intros c ?%elem_of_nil.
Qed.

Lemma step_ballots n V w l w' :
  world_ok n w → ballots n V w → timely w l = true → step w l = Done w' →
  ∃ V', V ⊆ V' ∧ (∀ x, x ∈ V' → x ∈ V ∨ cast w l w' x) ∧ ballots n V' w'.
Proof.
  intros Hw Hb Htl Hs.
  assert (∀ i nd rf gs s ms w0, nodes w !! i = Some nd → quiet (raft nd) rf → Forall novote gs →
    ∃ V', V ⊆ V' ∧ (∀ x, x ∈ V' → x ∈ V ∨ cast w l w0 x) ∧ ballots n V' (mkWorld (<[i := mkNode rf (threads nd ++ gs) s]> (nodes w)) (calls w) ms))
    as Hquiet.
  { intros i nd rf gs s ms w0 Hi Hq Hgs. exists V. split_and!; [done|by left|].
    eapply ballots_quiet; [done..|]. apply Hb. }
  destruct l as [i|i env|i k env|k env|k env|k env|i|i command|i env ends].
  3: { exists V. split_and!; [done|by left|]. by eapply step_run. }
  3: { by eapply step_deliver. }
  3: { exists V. split_and!; [done|by left|]. by eapply step_return. }
  3: { exists V. split_and!; [done|by left|]. by eapply step_fail. }
  all: simpl in Hs; destruct (nodes w !! i) as [nd|] eqn:Hi; simpl in Hs; [|done].
  - injection Hs as <-. rewrite <- (app_nil_r (threads nd)).
    apply Hquiet; [done|apply quiet_refl|constructor].
  - destruct (lifeSnap nd) as [s|]; simpl in Hs; [|done].
    destruct (lifeAct env s (raft nd)) as [[rf gs]|] eqn:Hr; simpl in Hs; [|done].
    injection Hs as <-. unfold lifeAct in Hr. destruct (lifeDecide _ _).
    + edestruct start_election as (V' & HV & Hnew & Hb'); [exact Hw|exact Hb|exact Hi|exact Hr|].
      exists V'. split_and!; [done| |exact Hb']. intros x Hx. destruct (Hnew x Hx) as [?| ->]; [by left|].
      right. apply (cast_self _ _ _ _ env nd (mkNode rf (threads nd ++ gs) None) gs); [done|done|simpl; by rewrite lookup_insert_eq|done].
    + injection Hr as <- <-. apply Hquiet; [done|by apply quiet_fields|by apply novote_fmap].
    + simplify_eq. apply Hquiet; [done|apply quiet_refl|constructor].
  - destruct (applyOne (raft nd)) as [[rf m]|] eqn:Hr; simpl in Hs; [|done].
    injection Hs as <-. apply Hquiet; [done|by eapply applyOne_quiet|constructor].
  - destruct (Start command (raft nd)) as [[[rf r] gs]|] eqn:Hr; simpl in Hs; [|done].
    injection Hs as <-. apply Hquiet; [done|by eapply Start_quiet|].
    revert Hr. unfold Start. case_decide; [intros; simplify_eq; constructor|].
    intros (mi & _ & (ni & _ & ?)%bind_Some)%bind_Some. simplify_eq. by apply novote_fmap.
  - case_decide; [|done]. injection Hs as <-. exists V. split_and!; [done|by left|]. by apply crash.
Qed.

Lemma timely_steps_steps w w' : timely_steps w w' → steps w w'.
Proof. apply rtc_subrel. intros w1 w2 (l & _ & H). by exists l. Qed.

Lemma timely_steps_ballots n V w w' :
  timely_steps w w' → world_ok n w → ballots n V w → ∃ V', V ⊆ V' ∧ ballots n V' w'.
Proof.
  intros Hs. revert V. induction Hs as [w|w1 w2 w3 (l & Htl & Hl) _ IH]; intros V Hw Hb; [eauto|].
  destruct (step_ballots n V w1 l w2) as (V1 & ? & _ & Hb1); [done..|].
  destruct (IH V1) as (V2 & ? & ?); [|done|exists V2; split; [set_solver|done]].
  pose proof (step_ok n w1 l Hw) as Hok. by rewrite Hl in Hok.
Qed.

Lemma init_ballots env (ends : list string) : ballots (len ends) ∅ (init env ends).
Proof.
  split.
  - intros v t c c' H. by apply not_elem_of_empty in H.
  - intros c Hc. by apply elem_of_nil in Hc.
  - intros i nd [_ ->]%init_lookup. split; [|constructor|done].
    intros t c H. by apply not_elem_of_empty in H.
Qed.

(** Two leaders of a term, at the same time or one after the other. *)
Lemma leaders_agree env (ends : list string) w1 w2 i j t :
  timely_steps (init env ends) w1 → timely_steps w1 w2 →
  isLeader w1 i t → isLeader w2 j t → i = j.
Proof.
  intros H1 H2 Hi Hj.
  destruct (timely_steps_ballots (len ends) ∅ (init env ends) w1) as (V1 & _ & B1);
    [done|apply init_ok|apply init_ballots|].
  assert (world_ok (len ends) w1) as Hw1 by (eapply reachable_ok; by apply timely_steps_steps).
  destruct (timely_steps_ballots (len ends) V1 w1 w2) as (V2 & HV & B2); [done..|].
  eapply (ballots_leaders (len ends) V1 V2); eauto using len_nonneg.
Qed.

(** ** The theorem *)

(** C1. Election safety: in every execution of the cluster in which replies
    are timely, if peer [i] leads term [t] now and peer [j] leads term [t] at
    the same time or at any later time, they are the same peer.  Crashes,
    restarts, lost, delayed and reordered messages are all allowed. *)
Theorem election_safety env (ends : list string) w1 w2 i j t :
  timely_steps (init env ends) w1 → timely_steps w1 w2 →
  isLeader w1 i t → isLeader w2 j t → i = j.
Proof. apply leaders_agree. Qed.

End election.
