(* ===== verification/RaftEvents.v ===== *)
(** * What a step does to a log, a commit index and the calls

    [log_event] sorts the critical sections of a peer by what they do to its
    log, its commit index and its match indices: nothing, a restart, a
    candidacy, a won election, a command of [Start], an accepted AppendEntries
    request, a counted acknowledgement.  [step_calls] and [step_threads] say
    where the calls and the vote goroutines of a world come from. *)
From S2P Require Import Prelude RaftNode RaftLog RaftInv RaftEvolve RaftSystem RaftSafety RaftHistory RaftReplication RaftElection.

Section events.
Context {Cmd : Type} `{!Gob Cmd, !GobOk Cmd}.
Implicit Types (rf : Raft Cmd) (w : world Cmd) (args : AppendEntriesArgs Cmd).

(** ** Critical sections *)

Definition steady rf rf' : Prop :=
  rf.(term) ≤ rf'.(term) ∧
  (rf'.(rstate) ≠ follower → rf'.(rstate) = rf.(rstate) ∧ rf'.(term) = rf.(term)).

Definition kept rf rf' : Prop :=
  rf'.(log) = rf.(log) ∧ rf'.(commitIndex) = rf.(commitIndex) ∧
  (rf'.(rstate) = leader → rf'.(matchIndex) = rf.(matchIndex)).

Inductive log_event (arrives : AppendEntriesArgs Cmd → Prop)
    (answers : Z → Z → AppendEntriesArgs Cmd → AppendEntriesReply → Prop) rf rf' : Prop :=
| LE_steady : steady rf rf' → kept rf rf' → log_event arrives answers rf rf'
| LE_restart : rf'.(term) = rf.(term) → rf'.(rstate) = follower → rf'.(log) = rf.(log) →
    rf'.(commitIndex) = 0 → log_event arrives answers rf rf'
| LE_campaign : rf'.(term) = rf.(term) + 1 → rf'.(rstate) = candidate → kept rf rf' →
    log_event arrives answers rf rf'
| LE_won : rf'.(rstate) = leader →
    rf'.(term) = rf.(term) + 1 ∨ rf'.(term) = rf.(term) ∧ rf.(rstate) = candidate →
    rf'.(log) = rf.(log) → rf'.(commitIndex) = rf.(commitIndex) →
    rf'.(matchIndex) = <[Z.to_nat rf.(me) := lastLogIndexLocked rf]> (replicate (length rf.(peers)) 0) →
    log_event arrives answers rf rf'
| LE_start command : rf'.(term) = rf.(term) → rf.(rstate) = leader → rf'.(rstate) = leader →
    rf'.(log) = rf.(log) ++ [mkEntry rf.(term) (Some command)] → rf'.(commitIndex) = rf.(commitIndex) →
    rf'.(matchIndex) = <[Z.to_nat rf.(me) := lastLogIndexLocked rf']> rf.(matchIndex) →
    log_event arrives answers rf rf'
| LE_accept args : arrives args → rf.(term) ≤ args.(aeTerm) → rf'.(term) = args.(aeTerm) →
    rf'.(rstate) = follower → consistent args rf →
    rf'.(log) = merged (Z.to_nat (args.(aePrevLogIndex) + 1)) args.(aeEntries) rf.(log) →
    rf'.(commitIndex) = (if decide (args.(aeLeaderCommit) > rf.(commitIndex))
                         then Z.min args.(aeLeaderCommit) (lastLogIndexLocked rf')
                         else rf.(commitIndex)) →
    log_event arrives answers rf rf'
| LE_acked p args r : answers p rf.(term) args r → r.(aerSuccess) = true →
    rf.(rstate) = leader → rf'.(rstate) = leader → rf'.(term) = rf.(term) → rf'.(log) = rf.(log) →
    rf'.(matchIndex) = rf.(matchIndex) ∨
      0 ≤ p ∧ rf'.(matchIndex) = <[Z.to_nat p := args.(aePrevLogIndex) + len args.(aeEntries)]> rf.(matchIndex) →
    rf'.(commitIndex) = rf.(commitIndex) ∨ committable rf' rf'.(commitIndex) →
    log_event arrives answers rf rf'.

Lemma quiet_steady rf rf' : quiet rf rf' → steady rf rf'.
Proof. intros [[Ht _] Hs _]. split; [done|]. intros Hf. by apply Hs. Qed.

Lemma kept_refl rf : kept rf rf.
Proof. done. Qed.

Lemma stepDown_kept env t rf : kept rf (stepDownLocked env t rf).
Proof. unfold stepDownLocked. by case_decide. Qed.

Lemma RequestVote_kept env a rf rf' r : RequestVote env a rf = Some (rf', r) → kept rf rf'.
Proof.
  unfold RequestVote. case_decide; [by intros; simplify_eq|].
  set (rf1 := if decide (_ > _) then _ else _).
  assert (kept rf rf1) as Hk by (unfold rf1; case_decide; [apply stepDown_kept|done]).
  clearbody rf1. intros (lt & _ & Hr)%bind_Some. by case_match; simplify_eq.
Qed.

Lemma replicateBegin_kept p t rf rf' a : replicateBegin p t rf = Some (rf', a) → kept rf rf'.
Proof.
  unfold replicateBegin. case_decide; [by intros; simplify_eq|].
  intros (next & _ & ([m rf1] & H1 & (es & _ & H2)%bind_Some)%bind_Some)%bind_Some.
  simplify_eq. by case_decide; [apply bind_Some in H1 as (ni & _ & ?)|]; simplify_eq.
Qed.

Lemma Heartbeat_kept env a rf : kept rf (Heartbeat env a rf).1.
Proof. unfold Heartbeat. by repeat case_decide. Qed.

Lemma heartbeatReply_kept env t r rf : kept rf (heartbeatReply env t r rf).
Proof. unfold heartbeatReply. case_decide; [apply stepDown_kept|done]. Qed.

Lemma applyOne_kept rf rf' m : applyOne rf = Some (rf', m) → kept rf rf'.
Proof.
  unfold applyOne. repeat (case_decide; [by intros; simplify_eq|]).
  by intros (e & _ & ?)%bind_Some; simplify_eq.
Qed.

Lemma becomeLeader_event arrives answers rf0 rf rf' gs :
  becomeLeaderLocked rf = Some (rf', gs) → kept rf0 rf → rf.(me) = rf0.(me) → rf.(peers) = rf0.(peers) →
  rf.(term) = rf0.(term) + 1 ∨ rf.(term) = rf0.(term) ∧ rf0.(rstate) = candidate →
  log_event arrives answers rf0 rf'.
Proof.
  intros Hb (Hl & Hc & _) Hme Hp Ht. unfold becomeLeaderLocked in Hb.
  apply bind_Some in Hb as (mi & [_ ->]%slice_set_Some & (ni & _ & ?)%bind_Some). simplify_eq/=.
  apply LE_won; simpl; [done|done|done|done|]. unfold lastLogIndexLocked. simpl. by rewrite Hl, Hme, Hp.
Qed.

Lemma StartElection_event arrives answers env rf rf' gs :
  StartElection env rf = Some (rf', gs) → log_event arrives answers rf rf'.
Proof.
  unfold StartElection. intros (lt & _ & Hr)%bind_Some. case_decide.
  - by eapply becomeLeader_event; [done|done|done|done|left].
  - simplify_eq. by apply LE_campaign.
Qed.

Lemma voteReply_event arrives answers env t m r rf rf' gs :
  voteReply env t m r rf = Some (rf', gs) → log_event arrives answers rf rf'.
Proof.
  unfold voteReply. case_decide.
  { intros; simplify_eq. apply LE_steady; [|apply stepDown_kept].
    apply quiet_steady, quiet_follower; [by apply stepDown_vote_stable|done]. }
  case_match; [|by intros; simplify_eq; apply LE_steady; [split; [lia|]|]].
  case_decide as Hw; [|by intros; simplify_eq; apply LE_steady; [split; simpl; [lia|]|]].
  intros ([rf1 gs1] & H1 & ?)%bind_Some. simplify_eq.
  eapply becomeLeader_event; [done|done|done|done|right]. by destruct Hw as (_ & ? & _).
Qed.

Lemma AppendEntries_event (arrives : AppendEntriesArgs Cmd → Prop) answers env args rf :
  0 ≤ args.(aePrevLogIndex) → arrives args →
  log_event arrives answers rf (AppendEntries env args rf).1.
Proof.
  intros Hp Ha. destruct (decide (aeTerm args < term rf)) as [Hold|Hnew].
  { rewrite AppendEntries_reject_old by done. apply LE_steady; [by split; [simpl; lia|]|done]. }
  destruct (decide (args.(aePrevLogIndex) ≤ lastLogIndexLocked rf)) as [H1|H1].
  1: destruct (decide (termAtLocked rf args.(aePrevLogIndex) = args.(aePrevLogTerm))) as [H2|H2].
  1: { destruct (AppendEntries_accept env args rf) as (rf' & -> & Hl & Ht & Hs & Hc); [lia|done|done|].
       apply (LE_accept _ _ _ _ args); simpl; [done|lia|done..]. }
  all: destruct (AppendEntries_reject env args rf) as (rf' & r & Hr & Hl & Hc & Ht & Hs & _);
         [lia|done|by intros []|].
  all: rewrite Hr; apply LE_steady; simpl; [split; [lia|congruence]|].
  all: split_and!; [done|done|congruence].
Qed.

Lemma scanCommit_committable rf k N :
  len rf.(matchIndex) = len rf.(peers) → scanCommit rf k = Some (Some N) → committable rf N.
Proof.
  intros Hm. induction k as [|k IH]; [done|]. cbn [scanCommit].
  intros (e & He & Hr)%bind_Some. case_decide as Ht; [by auto|].
  apply bind_Some in Hr as (cnt & Hcnt & Hr). rewrite countMatches_spec in Hcnt by done.
  case_decide; [|by auto]. simplify_eq. split; [|lia]. exists e. split; [done|].
  by destruct (decide (eTerm e = term rf)).
Qed.

Lemma replicateReply_event n arrives (answers : Z → Z → AppendEntriesArgs Cmd → AppendEntriesReply → Prop)
    env p t args r rf rf' next :
  node_ok n rf → answers p t args r → replicateReply env p t args r rf = Some (rf', next) →
  log_event arrives answers rf rf'.
Proof.
  intros Hok Ha Hr. pose proof (replicateReply_quiet _ _ _ _ _ _ _ _ Hr) as Hq%quiet_steady. revert Hr.
  unfold replicateReply. case_decide; [intros; simplify_eq; apply LE_steady; [done|apply stepDown_kept]|].
  case_decide as Hl; [by intros; simplify_eq; apply LE_steady|].
  destruct (decide (rstate rf = leader)) as [Hld|]; [|by destruct Hl; right].
  destruct (decide (term rf = t)) as [<-|]; [|by destruct Hl; left]. case_match eqn:Hsuc.
  - intros (cur & _ & (rf1 & Hrf & ([rf2 gs] & Hadv & ?)%bind_Some)%bind_Some)%bind_Some. simplify_eq.
    assert (rstate rf1 = leader ∧ term rf1 = term rf ∧ log rf1 = log rf ∧ commitIndex rf1 = commitIndex rf ∧
      len (matchIndex rf1) = len (peers rf1) ∧
      (matchIndex rf1 = matchIndex rf ∨ 0 ≤ p ∧
       matchIndex rf1 = <[Z.to_nat p := aePrevLogIndex args + len (aeEntries args)]> (matchIndex rf)))
      as (Hl1 & Ht1 & Hlg1 & Hc1 & Hlen & Hm).
    { pose proof (ok_match_len _ _ (ok_leader _ _ Hok Hld)) as Hlen. pose proof (ok_peers _ _ Hok) as Hpn.
      case_decide; [|simplify_eq; split_and!; [done..|congruence|by left]].
      apply bind_Some in Hrf as (mi & [? ->]%slice_set_Some & (ni & _ & ?)%bind_Some). simplify_eq/=.
      split_and!; [done..|autorewrite with slices; congruence|right; by split; [lia|]]. }
    unfold tryAdvanceCommitLocked in Hadv. apply bind_Some in Hadv as ([N|] & Hscan & ?); simplify_eq.
    + apply scanCommit_committable in Hscan; [|done]. apply (LE_acked _ _ _ _ p args r); simpl; auto.
    + apply (LE_acked _ _ _ _ p args r); simpl; auto.
  - intros (x & _ & (ni & _ & (rf1 & Hrf & ?)%bind_Some)%bind_Some)%bind_Some. simplify_eq.
    apply LE_steady; [done|]. by case_decide; [apply bind_Some in Hrf as (? & _ & ?)|]; simplify_eq.
Qed.

Lemma node_step_event n ap (arrives : AppendEntriesArgs Cmd → Prop) answers rf rf' :
  node_ok n rf → (∀ args, arrives args → 0 ≤ args.(aePrevLogIndex)) →
  node_step true ap arrives answers rf rf' → log_event arrives answers rf rf'.
Proof.
  intros Hok Hprev. destruct 1 as
    [|env s rf' gs H|?|???? H|???? H|??|env args H|?????? H|env t r H|??????? Ha H|?? _ H|command rf' r gs H|env ends Hends].
  - by apply LE_steady; [split; [lia|]|].
  - revert H. unfold lifeAct, StartHeartbeat. destruct (lifeDecide _ _); intros H; simplify_eq.
    + by eapply StartElection_event.
    + by apply LE_steady; [split; [simpl; lia|]|].
    + by apply LE_steady; [split; [simpl; lia|]|].
  - by apply LE_steady; [split; [simpl; lia|]|].
  - apply LE_steady; [by eapply quiet_steady, replicateBegin_quiet|by eapply replicateBegin_kept].
  - apply LE_steady; [by eapply quiet_steady, RequestVote_quiet|by eapply RequestVote_kept].
  - apply LE_steady; [apply quiet_steady, Heartbeat_quiet|apply Heartbeat_kept].
  - apply AppendEntries_event; [by apply Hprev|done].
  - by eapply voteReply_event.
  - apply LE_steady; [by apply quiet_steady, heartbeatReply_quiet, H|apply heartbeatReply_kept].
  - by eapply replicateReply_event.
  - apply LE_steady; [by eapply quiet_steady, applyOne_quiet|by eapply applyOne_kept].
  - revert H. unfold Start. case_decide as Hs; [by intros; simplify_eq; apply LE_steady; [split; [lia|]|]|].
    intros (mi & [_ ->]%slice_set_Some & (ni & _ & ?)%bind_Some)%bind_Some. simplify_eq.
    destruct (decide (rstate rf = leader)) as [Hl|Hl]; [|by destruct Hs]. by apply (LE_start _ _ _ _ command).
  - destruct (ok_persisted _ _ Hok env ends (me rf)) as (Ht & _ & Hl). rewrite Make_start1.
    apply LE_restart; simpl; [done| |done|]; unfold Make, readPersist; by repeat case_match.
Qed.

(** ** Calls *)

(** The calls a goroutine of peer [i] makes. *)
Inductive makes (i : Z) rf : goroutine → call Cmd → Prop :=
| makes_append p ps t rf' args : replicateBegin p t rf = Some (rf', Some args) →
    makes i rf (GReplicate (p :: ps) t) (mkCall i p true (CAppendEntries args t ps None))
| makes_vote p a t m :
    makes i rf (GVote p a t m) (mkCall i p true (CRequestVote a t m None))
| makes_heartbeat p t :
    makes i rf (GHeartbeat p t) (mkCall i p true (CHeartbeat (heartbeatArgs rf t) t None)).

Lemma run_thread_makes env i rf g rf' gs cs c :
  run_thread env i rf g = Done (rf', gs, cs) → c ∈ cs → makes i rf g c.
Proof.
  destruct g as [[|p ps] t|p a t m|p t|]; simpl.
  2: destruct (replicateBegin p t rf) as [[rf1 [args|]]|] eqn:E; simpl; [| |done].
  all: intros Hr Hc; injection Hr as <- <- <-.
  all: first [by apply not_elem_of_nil in Hc | apply list_elem_of_singleton in Hc as ->; by econstructor].
Qed.

(** A call of the new world: an old one, perhaps no longer waited for; a new
    one; or one whose request has just been executed. *)
Inductive call_origin w (lb : label Cmd) w' (c : call Cmd) : Prop :=
| origin_old c0 : c0 ∈ w.(calls) → c.(src) = c0.(src) → c.(dst) = c0.(dst) → c.(body) = c0.(body) →
    call_origin w lb w' c
| origin_made i nd g : w.(nodes) !! i = Some nd → g ∈ nd.(threads) → makes i nd.(raft) g c →
    call_origin w lb w' c
| origin_delivered k env c0 nd nd' : lb = LDeliver k env → w.(calls) !! k = Some c0 →
    c.(src) = c0.(src) → c.(dst) = c0.(dst) →
    w.(nodes) !! c.(dst) = Some nd → w'.(nodes) = <[c.(dst) := nd']> w.(nodes) →
    deliver env c0.(body) nd.(raft) = Done (nd'.(raft), c.(body)) → call_origin w lb w' c.

Lemma step_calls w lb w' c : step w lb = Done w' → c ∈ w'.(calls) → call_origin w lb w' c.
Proof.
  intros Hs Hc.
  assert (c ∈ w.(calls) → call_origin w lb w' c) as Hold by (intros; by apply (origin_old _ _ _ _ c)).
  destruct lb as [j|j env|j k env|k env|k env|k env|j|j command|j env ends]; simpl in Hs.
  4, 5, 6: destruct (calls w !! k) as [c0|] eqn:Hk; simpl in Hs; [|done].
  5, 6: destruct (waiting c0); [|done].
  4: destruct (nodes w !! dst c0) as [nd|] eqn:Hnd; simpl in Hs; [|done].
  5, 6: destruct (nodes w !! src c0) as [nd|]; simpl in Hs; [|done].
  1, 2, 3, 7, 8, 9: destruct (nodes w !! j) as [nd|] eqn:Hnd; simpl in Hs; [|done].
  - simplify_eq/=. auto.
  - destruct (lifeSnap nd); simpl in Hs; [|done]. destruct (lifeAct _ _ _) as [[rf gs]|]; simplify_eq/=. auto.
  - destruct (threads nd !! k) as [g|] eqn:Hg; simpl in Hs; [|done].
    destruct (run_thread env j (raft nd) g) as [[[rf gs] cs]| |] eqn:E; simplify_eq/=.
    apply elem_of_app in Hc as [Hc|Hc]; [by auto|].
    eapply origin_made; [done|by eapply list_elem_of_lookup_2|by eapply run_thread_makes].
  - destruct (applyOne _) as [[rf m]|]; simplify_eq/=. auto.
  - destruct (Start _ _) as [[[rf q] gs]|]; simplify_eq/=. auto.
  - case_decide; [|done]. simplify_eq/=. apply list_elem_of_fmap in Hc as (c1 & -> & Hc).
    apply (origin_old _ _ _ _ c1); [done|..]; unfold orphan; by case_decide.
  - destruct (deliver _ _ _) as [[rf b]| |] eqn:Hd; simplify_eq/=.
    apply elem_of_insert_inv in Hc as [->|Hc]; [|by auto]. by eapply origin_delivered.
  - destruct (return_ok _ _ _ _) as [[rf gs]| |]; simplify_eq/=. apply Hold.
    by eapply elem_of_submseteq, sublist_submseteq, sublist_delete.
  - destruct (return_fail _ _ _ _) as [rf gs]; simplify_eq/=.
    apply elem_of_insert_inv in Hc as [->|Hc]; [|by auto].
    apply (origin_old _ _ _ _ c0); [by eapply list_elem_of_lookup_2|done..].
Qed.

(** Delivering a request fills in its reply. *)
Lemma deliver_append env b rf rf' args t rest r :
  deliver env b rf = Done (rf', CAppendEntries args t rest r) →
  b = CAppendEntries args t rest None ∧ ∃ a, r = Some a ∧ AppendEntries env args rf = (rf', a).
Proof.
  unfold deliver. destruct b as [a0 t0 m0 [?|]|a0 t0 [?|]|a0 t0 rest0 [?|]]; try done.
  - by destruct (RequestVote _ _ _) as [[? ?]|].
  - by destruct (Heartbeat _ _ _).
  - destruct (AppendEntries _ _ _) eqn:E. intros; simplify_eq. eauto.
Qed.

Lemma deliver_request env b rf rf' a t m r :
  deliver env b rf = Done (rf', CRequestVote a t m r) → b = CRequestVote a t m None.
Proof.
  unfold deliver. destruct b as [a0 t0 m0 [?|]|a0 t0 [?|]|a0 t0 rest0 [?|]]; try done.
  - destruct (RequestVote _ _ _) as [[? ?]|]; simpl; [|done]. intros; by simplify_eq.
  - by destruct (Heartbeat _ _ _).
  - by destruct (AppendEntries _ _ _).
Qed.

(** A message on an apply channel was there before, or its peer's applier has
    just sent it. *)
Lemma step_applies w lb w' i m :
  step w lb = Done w' → (i, m) ∈ w'.(applied) →
  (i, m) ∈ w.(applied) ∨
  ∃ nd rf', w.(nodes) !! i = Some nd ∧ applyOne nd.(raft) = Some (rf', Some m).
Proof.
  intros Hs Hm. destruct (is_apply lb) eqn:Hl.
  - destruct lb as [| | | | | |j| |]; try done. simpl in Hs.
    destruct (nodes w !! j) as [nd|] eqn:Hj; simpl in Hs; [|done].
    destruct (applyOne (raft nd)) as [[rf [m'|]]|] eqn:E; simplify_eq/=; [|by left].
    apply elem_of_app in Hm as [Hm|Hm]; [by left|]. apply list_elem_of_singleton in Hm. simplify_eq. eauto.
  - left. by rewrite <- (step_applied _ _ _ Hl Hs).
Qed.

(** ** Vote goroutines *)

Lemma lifeAct_votes env s rf rf' gs g :
  lifeAct env s rf = Some (rf', gs) → g ∈ gs → novote g ∨ StartElection env rf = Some (rf', gs).
Proof.
  unfold lifeAct, StartHeartbeat. destruct (lifeDecide _ _); [by right| |]; intros [= <- <-] Hg; left.
  - by apply list_elem_of_fmap in Hg as (p & -> & _).
  - by apply not_elem_of_nil in Hg.
Qed.

Lemma run_thread_novote env i rf g rf' gs cs :
  run_thread env i rf g = Done (rf', gs, cs) → Forall novote gs.
Proof.
  destruct g as [[|p ps] t|p args t m|p t|]; simpl.
  2: destruct (replicateBegin p t rf) as [[rf1 [args|]]|] eqn:E; simpl; [| |done].
  all: intros; simplify_eq; first [by repeat constructor | by apply novote_fmap].
Qed.

Lemma Start_novote command rf rf' r gs : Start command rf = Some (rf', r, gs) → Forall novote gs.
Proof.
  unfold Start. case_decide; [intros; simplify_eq; constructor|].
  intros (mi & _ & (ni & _ & ?)%bind_Some)%bind_Some. simplify_eq. by apply novote_fmap.
Qed.

Lemma voteReply_novote env t m r rf rf' gs : voteReply env t m r rf = Some (rf', gs) → Forall novote gs.
Proof.
  unfold voteReply. case_decide; [intros; by simplify_eq|]. case_match; [|intros; by simplify_eq].
  case_decide; [|by intros; simplify_eq]. intros ([rf1 gs1] & Hb & ?)%bind_Some. simplify_eq.
  apply becomeLeader_shape in Hb as (_ & _ & _ & _ & _ & _ & _ & ->). by repeat constructor.
Qed.

Lemma return_ok_novote env p b rf rf' gs : return_ok env p b rf = Done (rf', gs) → Forall novote gs.
Proof.
  destruct b as [args t m [r|]|args t [r|]|args t rest [r|]]; simpl; try done.
  - destruct (voteReply _ _ _ _ _) as [[rf1 gs1]|] eqn:E; simpl; intros; simplify_eq. by eapply voteReply_novote.
  - intros; simplify_eq. by repeat constructor.
  - destruct (replicateReply _ _ _ _ _ _) as [[rf1 [gs1|]]|] eqn:E; simpl; intros; simplify_eq.
    + apply Forall_app. split; [by eapply replicateReply_novote|by repeat constructor].
    + by repeat constructor.
Qed.

Lemma return_fail_novote env p b rf rf' gs : return_fail env p b rf = (rf', gs) → Forall novote gs.
Proof. destruct b; simpl; intros; simplify_eq; by repeat constructor. Qed.

(** A goroutine of the new world that asks for a vote was there before, or its
    peer has just started an election. *)
Lemma step_threads w lb w' i nd' g :
  step w lb = Done w' → w'.(nodes) !! i = Some nd' → g ∈ nd'.(threads) →
  novote g ∨ ∃ nd, w.(nodes) !! i = Some nd ∧
    (g ∈ nd.(threads) ∨ ∃ env gs, StartElection env nd.(raft) = Some (nd'.(raft), gs) ∧ g ∈ gs).
Proof.
  intros Hs Hi Hg.
  assert (∀ j nd nd1, w.(nodes) !! j = Some nd → w'.(nodes) = <[j := nd1]> w.(nodes) →
    (g ∈ nd1.(threads) → novote g ∨ g ∈ nd.(threads) ∨ ∃ env gs, StartElection env nd.(raft) = Some (nd1.(raft), gs) ∧ g ∈ gs) →
    novote g ∨ ∃ nd, w.(nodes) !! i = Some nd ∧
      (g ∈ nd.(threads) ∨ ∃ env gs, StartElection env nd.(raft) = Some (nd'.(raft), gs) ∧ g ∈ gs)) as Hput.
  { intros j nd nd1 Hj Hn Hg1. rewrite Hn, lookup_insert_Some in Hi. destruct Hi as [[<- <-]|[_ Hi]]; [|by eauto].
    destruct (Hg1 Hg); eauto. }
  assert (∀ gs, Forall novote gs → g ∈ gs → novote g) as Hno by (intros gs Hgs; by apply Forall_forall).
  destruct lb as [j|j env|j k env|k env|k env|k env|j|j command|j env ends]; simpl in Hs.
  4, 5, 6: destruct (calls w !! k) as [c0|] eqn:Hk; simpl in Hs; [|done].
  5, 6: destruct (waiting c0); [|done].
  4: destruct (nodes w !! dst c0) as [nd|] eqn:Hnd; simpl in Hs; [|done].
  5, 6: destruct (nodes w !! src c0) as [nd|] eqn:Hnd; simpl in Hs; [|done].
  1, 2, 3, 7, 8, 9: destruct (nodes w !! j) as [nd|] eqn:Hnd; simpl in Hs; [|done].
  - simplify_eq/=. eapply Hput; [done|done|]. by auto.
  - destruct (lifeSnap nd); simpl in Hs; [|done]. destruct (lifeAct _ _ _) as [[rf gs]|] eqn:E; simplify_eq/=.
    eapply Hput; [done|done|]. simpl. intros [?|Hgs]%elem_of_app; [by auto|].
    destruct (lifeAct_votes _ _ _ _ _ _ E Hgs) as [?|?]; [by left|]. right. right. by exists env, gs.
  - destruct (threads nd !! k) as [g1|] eqn:Hg1; simpl in Hs; [|done].
    destruct (run_thread env j (raft nd) g1) as [[[rf gs] cs]| |] eqn:E; simplify_eq/=.
    eapply Hput; [done|done|]. simpl. intros [Hd|Hgs]%elem_of_app.
    + right. left. by eapply elem_of_submseteq, sublist_submseteq, sublist_delete.
    + left. by eapply Hno; [by eapply run_thread_novote|].
  - destruct (applyOne _) as [[rf m]|]; simplify_eq/=. eapply Hput; [done|done|]. simpl. rewrite app_nil_r. auto.
  - destruct (Start _ _) as [[[rf q] gs]|] eqn:E; simplify_eq/=. eapply Hput; [done|done|]. simpl.
    intros [?|Hgs]%elem_of_app; [by auto|]. left. by eapply Hno; [by eapply Start_novote|].
  - case_decide; [|done]. simplify_eq/=. eapply Hput; [done|done|]. by intros ?%not_elem_of_nil.
  - destruct (deliver _ _ _) as [[rf b]| |] eqn:Hd; simplify_eq/=.
    eapply Hput; [done|done|]. simpl. rewrite app_nil_r. auto.
  - destruct (return_ok _ _ _ _) as [[rf gs]| |] eqn:E; simplify_eq/=. eapply Hput; [done|done|]. simpl.
    intros [?|Hgs]%elem_of_app; [by auto|]. left. by eapply Hno; [by eapply return_ok_novote|].
  - destruct (return_fail _ _ _ _) as [rf gs] eqn:E; simplify_eq/=. eapply Hput; [done|done|]. simpl.
    intros [?|Hgs]%elem_of_app; [by auto|]. left. by eapply Hno; [by eapply return_fail_novote|].
Qed.

End events.


