(* ===== verification/RaftMatching.v ===== *)
(** * Log matching

    Two logs that have an entry of the same term at the same index are the same
    up to there, in every execution whose replies are timely.

    The proof carries the history [L] of the logs of the leaders: for every
    term that had one, who it was and the longest log it had as leader.  Every
    entry any peer holds, and every entry in a request in flight, is an entry
    of the log of its term's leader, at the same place and with the same
    entries before it.  The last part runs [replicateTo] of a leader against one
    peer, which leaves the peer with the leader's log. *)
From S2P Require Import Prelude RaftNode RaftLog RaftInv RaftEvolve RaftSystem RaftSafety RaftHistory RaftReplication RaftElection RaftEvents.

Section matching.
Context {Cmd : Type} `{!Gob Cmd, !GobOk Cmd}.
Implicit Types (rf : Raft Cmd) (w : world Cmd) (V : gset (Z * Z * Z)) (n : Z).
Implicit Types (l lg : list (LogEntry Cmd)) (args : AppendEntriesArgs Cmd).

(** ** The leaders' logs *)

Implicit Types L : gmap Z (Z * list (LogEntry Cmd)).

(** Every entry is where the leader of its term put it. *)
Definition log_ok L l : Prop :=
  head l = Some dummyEntry ∧
  ∀ k e, l !! k = Some e → (0 < k)%nat →
    ∃ i lg, L !! e.(eTerm) = Some (i, lg) ∧ take (S k) lg = take (S k) l.

(** The history grows by terms, and by entries of its term at the end of a
    log. *)
Definition extends L L' : Prop :=
  ∀ t i lg, L !! t = Some (i, lg) →
    ∃ s, L' !! t = Some (i, lg ++ s) ∧ Forall (λ e, e.(eTerm) = t) s.

Lemma extends_refl L : extends L L.
Proof. intros t i lg H. exists []. by rewrite app_nil_r. Qed.

Lemma extends_trans L1 L2 L3 : extends L1 L2 → extends L2 L3 → extends L1 L3.
Proof.
  intros H1 H2 t i lg (s & Hs & Ht)%H1. destruct (H2 _ _ _ Hs) as (s' & Hs' & Ht').
  exists (s ++ s'). rewrite (assoc (++)). split; [done|]. by apply Forall_app.
Qed.

Lemma extends_prefix L L' t i lg :
  extends L L' → L !! t = Some (i, lg) → ∃ lg', L' !! t = Some (i, lg') ∧ lg `prefix_of` lg'.
Proof. intros HL (s & Hs & _)%HL. exists (lg ++ s). split; [done|]. by eexists. Qed.

Lemma take_prefix_of l lg k : (k ≤ length l)%nat → l `prefix_of` lg → take k lg = take k l.
Proof. intros Hk [r ->]. by rewrite take_app_le. Qed.

Lemma log_ok_mono L L' l : extends L L' → log_ok L l → log_ok L' l.
Proof.
  intros HL [Hh Hl]. split; [done|]. intros k e Hk H0. destruct (Hl k e Hk H0) as (i & lg & Hlg & Ht).
  destruct (extends_prefix _ _ _ _ _ HL Hlg) as (lg' & Hlg' & Hp). exists i, lg'. split; [done|]. rewrite <- Ht.
  apply take_prefix_of; [|done]. apply (f_equal length) in Ht. rewrite !length_take in Ht.
  apply lookup_lt_Some in Hk. lia.
Qed.

Lemma log_ok_prefix L l lg : l ≠ [] → l `prefix_of` lg → log_ok L lg → log_ok L l.
Proof.
  intros Hne [r ->] [Hh Hl]. split; [by destruct l|]. intros k e Hk H0.
  destruct (Hl k e) as (i & lg & Hlg & Ht); [by apply lookup_app_l_Some|done|]. exists i, lg. split; [done|].
  rewrite Ht. apply take_app_le. apply lookup_lt_Some in Hk. lia.
Qed.

(** Logs made of the leaders' entries agree as Raft's log matching demands. *)
Lemma log_ok_coherent L l1 l2 : log_ok L l1 → log_ok L l2 → coherent l1 l2.
Proof.
  intros [H1 Hl1] [H2 Hl2] i j a b [Hj0 Ha]%slice_get_lookup [Hi0 Hb]%slice_get_lookup Ht Hij.
  replace (Z.to_nat (i + 1)) with (S (Z.to_nat i)) by lia.
  destruct (decide (Z.to_nat i = 0%nat)) as [->|Hi].
  { destruct l1, l2; try done. simpl in *. by rewrite !take_0; simplify_eq. }
  destruct (Hl1 _ _ Ha ltac:(lia)) as (x & lg & Hlg & Hta).
  destruct (Hl2 _ _ Hb ltac:(lia)) as (y & lg' & Hlg' & Htb). rewrite Ht in Hlg. simplify_eq.
  rewrite <- Htb. apply (f_equal (take (S (Z.to_nat i)))) in Hta. rewrite !take_take in Hta.
  by replace (S (Z.to_nat i) `min` S (Z.to_nat j))%nat with (S (Z.to_nat i)) in Hta by lia.
Qed.

(** A request carries a piece of its leader's log. *)
Definition sent L args : Prop :=
  ∃ i lg p, L !! args.(aeTerm) = Some (i, lg) ∧ 0 ≤ args.(aePrevLogIndex) ∧
    len p = args.(aePrevLogIndex) + 1 ∧ (p ++ args.(aeEntries)) `prefix_of` lg ∧
    (0 < args.(aePrevLogIndex) →
     slice_get (terms p) args.(aePrevLogIndex) = Some args.(aePrevLogTerm)).

Lemma sent_mono L L' args : extends L L' → sent L args → sent L' args.
Proof.
  intros HL (i & lg & p & Hlg & H0 & Hp & Hpre & Ht). destruct (extends_prefix _ _ _ _ _ HL Hlg) as (lg' & Hlg' & ?).
  exists i, lg', p. split_and!; [done..|by etrans|done].
Qed.

(** A peer that accepts a request agrees with the leader's log [lg] before its
    entries [p], and then has the leader's entries, or its old log. *)
Lemma accept_merged L args rf :
  sent L args → (∀ t i lg, L !! t = Some (i, lg) → log_ok L lg) → log_ok L rf.(log) → consistent args rf →
  ∃ i lg p, L !! args.(aeTerm) = Some (i, lg) ∧ len p = args.(aePrevLogIndex) + 1 ∧ p ≠ [] ∧
    (p ++ args.(aeEntries)) `prefix_of` lg ∧ take (Z.to_nat (args.(aePrevLogIndex) + 1)) rf.(log) = p ∧
    merged (Z.to_nat (args.(aePrevLogIndex) + 1)) args.(aeEntries) rf.(log) =
      (if decide (args.(aeEntries) = []) then rf.(log) else p ++ args.(aeEntries)).
Proof.
  intros (i & lg & p & Hlg & H0 & Hp & Hpre & Hpt) HL Hok [Hlast Htm].
  set (s := Z.to_nat (aePrevLogIndex args + 1)).
  assert (length p = s) as Hps by (unfold s, len in *; lia).
  assert (s ≤ length (log rf))%nat as Hs by (unfold s, lastLogIndexLocked, len in *; lia).
  assert (p ≠ []) as Hpne by (by destruct p; [unfold s in *; simpl in *; lia|]).
  assert (log_ok L (p ++ aeEntries args)) as Hpe.
  { eapply log_ok_prefix; [|done|by eapply HL]. by destruct p. }
  assert (coherent (p ++ aeEntries args) (log rf)) as Hco by (by eapply log_ok_coherent).
  assert (take s (log rf) = p) as Htake.
  { destruct (decide (aePrevLogIndex args = 0)) as [Hz|Hnz].
    - destruct Hok as [Hh _], Hpe as [Hh' _]. unfold s. rewrite Hz. simpl.
      destruct p as [|e [|]], (log rf); simpl in *; try (unfold s in Hps; rewrite Hz in Hps; done).
      rewrite take_0. congruence.
    - specialize (Hpt ltac:(lia)). apply terms_lookup in Hpt as (a & Ha & Hat).
      unfold termAtLocked in Htm. rewrite decide_False in Htm by done.
      destruct (slice_get_inr (log rf) (aePrevLogIndex args)) as [b Hb].
      { unfold s, lastLogIndexLocked in *. lia. }
      rewrite Hb in Htm. unfold s. rewrite <- (Hco (aePrevLogIndex args) (aePrevLogIndex args) a b); [|..|done|congruence|lia].
      + fold s. rewrite <- Hps. by rewrite take_app_length.
      + rewrite slice_get_app_l by lia. done. }
  exists i, lg, p. split_and!; [done..|]. case_decide as He.
  { unfold merged. by rewrite decide_True. }
  rewrite merged_drop; [by rewrite Htake|done|done|].
  intros k e e' Hk Hk' Ht. symmetry. eapply (coherent_lookup (p ++ aeEntries args) (log rf)); [done| |exact Hk|done].
  rewrite lookup_app_r by lia. by replace (_ + k - length p)%nat with k by lia.
Qed.

Lemma accept_log_ok L args rf :
  sent L args → (∀ t i lg, L !! t = Some (i, lg) → log_ok L lg) → log_ok L rf.(log) → consistent args rf →
  log_ok L (merged (Z.to_nat (args.(aePrevLogIndex) + 1)) args.(aeEntries) rf.(log)).
Proof.
  intros Hs HL Hok Hc. destruct (accept_merged L args rf) as (i & lg & p & Hlg & _ & Hp & Hpre & _ & ->); [done..|].
  case_decide; [done|]. eapply log_ok_prefix; [by destruct p|done|by eapply HL].
Qed.

(** ** The invariant *)

(** Peer [i] led term [t] with log [lg], and will not lead it anew. *)
Record reign n V L w (t i : Z) lg : Prop := {
  re_log : log_ok L lg;
  re_quorum : ∃ S : gset Z, Z.of_nat (size S) > n / 2 ∧ supporters n V t i S;
  re_over nd : w.(nodes) !! i = Some nd →
    t ≤ nd.(raft).(term) ∧ (nd.(raft).(term) = t → nd.(raft).(rstate) ≠ candidate)
}.

Record logs n V L w : Prop := {
  lo_reigns t i lg : L !! t = Some (i, lg) → reign n V L w t i lg;
  lo_nodes i nd : w.(nodes) !! i = Some nd → log_ok L nd.(raft).(log);
  lo_leaders i nd : w.(nodes) !! i = Some nd → nd.(raft).(rstate) = leader →
    L !! nd.(raft).(term) = Some (i, nd.(raft).(log));
  lo_sent args : requested w args → sent L args
}.

(** A request in the new world was there before, or a leader has just made it. *)
Lemma step_requested w lb w' args :
  step w lb = Done w' → requested w' args →
  requested w args ∨
  ∃ i nd p t rf', w.(nodes) !! i = Some nd ∧ replicateBegin p t nd.(raft) = Some (rf', Some args).
Proof.
  intros Hs (c & t & rest & r & Hc & Hb).
  destruct (step_calls _ _ _ _ Hs Hc) as [c0 Hc0 _ _ Hb0|i nd g Hi _ Hcall|k env c0 nd nd' _ Hk _ _ _ _ Hd].
  - left. exists c0, t, rest, r. by rewrite <- Hb0.
  - right. destruct Hcall as [p ps t' rf' args'|?|?]; simplify_eq/=. by exists i, nd, p, t, rf'.
  - left. rewrite Hb in Hd. apply deliver_append in Hd as [Hb0 _]. by eapply requested_call.
Qed.

Lemma supporters_mono n V V' t i S : V ⊆ V' → supporters n V t i S → supporters n V' t i S.
Proof. intros HV HS v Hv. destruct (HS v Hv). auto. Qed.

(** The frame of a step of peer [j]: what has to be shown of [j], of the new
    history and of the requests. *)
Lemma logs_frame n V V' L L' w w' j nd nd' :
  logs n V L w → V ⊆ V' → extends L L' →
  w.(nodes) !! j = Some nd → w'.(nodes) = <[j := nd']> w.(nodes) →
  log_ok L' nd'.(raft).(log) →
  (nd'.(raft).(rstate) = leader → L' !! nd'.(raft).(term) = Some (j, nd'.(raft).(log))) →
  (∀ t i lg, L' !! t = Some (i, lg) → L !! t = Some (i, lg) ∨
     i = j ∧ t = nd'.(raft).(term) ∧ nd'.(raft).(rstate) = leader ∧ lg = nd'.(raft).(log) ∧
     ∃ S : gset Z, Z.of_nat (size S) > n / 2 ∧ supporters n V' t i S) →
  (∀ t lg, L !! t = Some (j, lg) → t ≤ nd'.(raft).(term) ∧
     (nd'.(raft).(term) = t → nd'.(raft).(rstate) ≠ candidate)) →
  (∀ t i lg, i ≠ j → L !! t = Some (i, lg) → L' !! t = Some (i, lg)) →
  (∀ args, requested w' args → sent L' args) →
  logs n V' L' w'.
Proof.
  intros [Hre Hno Hle Hse] HV HL Hj Hn Hlog Hlead Hnew Hover Hoth Hreq. split; [| | |done].
  - intros t i lg Hi. destruct (Hnew t i lg Hi) as [Hold|(-> & -> & Hl & -> & Hq)].
    + destruct (Hre t i lg Hold) as [Hlg (S & HS & Hsup) Ho]. split.
      * by eapply log_ok_mono.
      * exists S. split; [done|]. by eapply supporters_mono.
      * intros ndi. rewrite Hn, lookup_insert_Some. intros [[<- <-]|[_ ?]]; [by eapply Hover|by apply Ho].
    + split; [done|done|]. intros ndi. rewrite Hn, lookup_insert_eq. intros [= <-]. split; [lia|congruence].
  - intros i ndi. rewrite Hn, lookup_insert_Some. intros [[<- <-]|[_ Hi]]; [done|].
    eapply log_ok_mono; [done|]. by eapply Hno.
  - intros i ndi. rewrite Hn, lookup_insert_Some. intros [[<- <-]|[Hne Hi]] Hl; [by apply Hlead|].
    apply Hoth; [done|]. by apply Hle.
Qed.

(** A request the leader makes from its log. *)
Lemma replicateBegin_sent p t rf rf' args L i :
  replicateBegin p t rf = Some (rf', Some args) →
  (rf.(rstate) = leader → L !! rf.(term) = Some (i, rf.(log))) → sent L args.
Proof.
  unfold replicateBegin. case_decide as Hd; [done|].
  intros (next & _ & ([x rf1] & H1 & (es & Hes & H2)%bind_Some)%bind_Some)%bind_Some HL.
  assert (1 ≤ x ∧ log rf1 = log rf ∧ term rf1 = term rf) as (Hx & Hl & Ht).
  { case_decide; [apply bind_Some in H1 as (ni & _ & ?)|]; simplify_eq/=; split_and!; (done || lia). }
  simplify_eq/=. destruct (decide (rstate rf = leader)) as [Hld|]; [|by destruct Hd; left].
  unfold slice_from in Hes. case_decide as Hr; [|done]. injection Hes as <-. rewrite Hl in *.
  exists i, (log rf), (take (Z.to_nat x) (log rf)). simpl. rewrite Ht. split_and!; [by auto|lia| | |].
  - rewrite len_take by lia. lia.
  - by rewrite take_drop.
  - intros Hp. rewrite termAtLocked_log, Hl by lia.
    destruct (slice_get_inr (log rf) (x - 1)) as [e He]; [lia|].
    assert (slice_get (terms (log rf)) (x - 1) = Some (eTerm e)) as -> by (apply terms_lookup; eauto). simpl.
    apply terms_lookup. exists e. split; [|done]. rewrite slice_get_take; [done|lia].
Qed.

(** A peer that wins an election is the first to lead its term. *)
Lemma won_fresh n V V' L w w' j nd nd' :
  0 ≤ n → logs n V L w → V ⊆ V' → ballots n V' w' →
  w.(nodes) !! j = Some nd → w'.(nodes) = <[j := nd']> w.(nodes) →
  nd'.(raft).(rstate) = leader →
  nd'.(raft).(term) = nd.(raft).(term) + 1 ∨
    nd'.(raft).(term) = nd.(raft).(term) ∧ nd.(raft).(rstate) = candidate →
  L !! nd'.(raft).(term) = None.
Proof.
  intros Hn0 Hlogs HV Hb Hj Hn Hl Hwon. destruct (L !! term (raft nd')) as [[i lg]|] eqn:E; [|done]. exfalso.
  destruct (lo_reigns _ _ _ _ Hlogs _ _ _ E) as [_ (S & HS & Hsup) Hover].
  assert (nodes w' !! j = Some nd') as Hj' by (by rewrite Hn, lookup_insert_eq).
  pose proof (st_standing _ _ _ _ _ (b_seats _ _ _ Hb _ _ Hj')) as Hst. unfold standing in Hst. rewrite Hl in Hst.
  destruct Hst as (S' & HS' & Hsup').
  destruct (quorum_intersection n S S') as (v & Hv & Hv'); [done|by intros ? [? _]%Hsup|by intros ? [? _]%Hsup'|done|done|].
  destruct (Hsup v Hv) as [_ Hi], (Hsup' v Hv') as [_ Hjv].
  assert (i = j) as -> by (eapply (b_functional _ _ _ Hb); [by apply HV|done]).
  destruct (Hover nd Hj) as [Ht Hc]. destruct Hwon as [?|[? ?]]; [lia|]. by apply Hc.
Qed.

Lemma log_ok_snoc L j t l command :
  let l' := l ++ [mkEntry t (Some command)] in
  l ≠ [] → log_ok (<[t := (j, l')]> L) l → log_ok (<[t := (j, l')]> L) l'.
Proof.
  intros l' Hne [Hh Hl]. split; [by destruct l|]. intros k e Hk H0.
  apply lookup_app_Some in Hk as [Hk|[Hk He]].
  - destruct (Hl k e Hk H0) as (i & lg & Hlg & Ht). exists i, lg. split; [done|]. rewrite Ht.
    symmetry. apply take_app_le. apply lookup_lt_Some in Hk. lia.
  - apply list_lookup_singleton_Some in He as [Hz <-]. exists j, l'. split; [apply lookup_insert_eq|done].
Qed.

(** What a step adds to the history is the log of a leader. *)
Definition crowned L L' w' : Prop :=
  ∀ t i lg, L' !! t = Some (i, lg) → L !! t = Some (i, lg) ∨
    ∃ nd, w'.(nodes) !! i = Some nd ∧ nd.(raft).(rstate) = leader ∧ nd.(raft).(term) = t ∧ nd.(raft).(log) = lg.

(** One timely step, of peer [j]. *)
Section step.
Context (n : Z) (V V' : gset (Z * Z * Z)) (L : gmap Z (Z * list (LogEntry Cmd))).
Context (w w' : world Cmd) (lb : label Cmd) (j : Z) (nd nd' : node Cmd).
Context (Hlogs : logs n V L w) (HV : V ⊆ V') (Hb : ballots n V' w') (Hs : step w lb = Done w').
Context (Hj : w.(nodes) !! j = Some nd) (Hn : w'.(nodes) = <[j := nd']> w.(nodes)).
Context (Hterm : nd.(raft).(term) ≤ nd'.(raft).(term)).

Lemma step_sent L' args : extends L L' → requested w' args → sent L' args.
Proof using Hlogs Hs.
  intros HL Hargs. eapply sent_mono; [done|].
  destruct (step_requested _ _ _ _ Hs Hargs) as [Hold|(i & ndi & p & t & rf & Hi & Hr)]; [by apply Hlogs|].
  eapply replicateBegin_sent; [done|]. by apply Hlogs.
Qed.

(** The step leaves the leaders' logs as they are. *)
Lemma step_same :
  nd'.(raft).(rstate) ≠ leader ∨ nd.(raft).(rstate) = leader ∧
    nd'.(raft).(term) = nd.(raft).(term) ∧ nd'.(raft).(log) = nd.(raft).(log) →
  log_ok L nd'.(raft).(log) →
  (nd'.(raft).(term) = nd.(raft).(term) → nd'.(raft).(rstate) = candidate →
   nd.(raft).(rstate) = candidate) →
  ∃ L', extends L L' ∧ crowned L L' w' ∧ logs n V' L' w'.
Proof using Hlogs HV Hs Hj Hn Hterm.
  intros Hnl Hlog Hc. exists L. split_and!; [apply extends_refl|by left|].
  eapply logs_frame; [done|done|apply extends_refl|done|done|done| |by auto| |by auto|by intros; apply step_sent; [apply extends_refl|]].
  - intros Hl. destruct Hnl as [?|(Hl0 & -> & ->)]; [done|]. by apply Hlogs.
  - intros t lg Hlg. destruct (re_over _ _ _ _ _ _ _ (lo_reigns _ _ _ _ Hlogs _ _ _ Hlg) nd Hj) as [? Hnc].
    split; [lia|]. intros Htt Hcd. apply Hnc; [lia|]. apply Hc; [lia|done].
Qed.

(** After the step [j] leads its term with the log [lg']. *)
Lemma step_crowned lg' :
  nd'.(raft).(rstate) = leader → nd'.(raft).(log) = lg' →
  L !! nd'.(raft).(term) = None ∨
    (∃ lg s, L !! nd'.(raft).(term) = Some (j, lg) ∧ lg' = lg ++ s ∧ Forall (λ e, e.(eTerm) = nd'.(raft).(term)) s) →
  (let L' := <[nd'.(raft).(term) := (j, lg')]> L in extends L L' → log_ok L' lg') →
  ∃ L', extends L L' ∧ crowned L L' w' ∧ logs n V' L' w'.
Proof using Hlogs HV Hb Hs Hj Hn Hterm.
  intros Hl Hlg' Hfree Hlok.
  assert (extends L (<[term (raft nd') := (j, lg')]> L)) as HL.
  { intros t i lg Hi. destruct (decide (term (raft nd') = t)) as [<-|Hne].
    - rewrite lookup_insert_eq. destruct Hfree as [?|(lg0 & s & ? & -> & ?)]; simplify_eq. eauto.
    - rewrite lookup_insert_ne by done. by apply extends_refl. }
  exists (<[term (raft nd') := (j, lg')]> L). split; [done|]. split.
  { intros t i lg. rewrite lookup_insert_Some. intros [[<- [= <- <-]]|[_ ?]]; [right|by left].
    exists nd'. split_and!; [by rewrite Hn, lookup_insert_eq|done..]. }
  eapply logs_frame; [done|done|done|done|done|rewrite Hlg'; by apply Hlok|..|by intros; apply step_sent].
  - intros _. by rewrite lookup_insert_eq, Hlg'.
  - intros t i lg. rewrite lookup_insert_Some. intros [[<- [= <- <-]]|[_ ?]]; [right|by left].
    split_and!; [done..|].
    assert (nodes w' !! j = Some nd') as Hj' by (by rewrite Hn, lookup_insert_eq).
    pose proof (st_standing _ _ _ _ _ (b_seats _ _ _ Hb _ _ Hj')) as Hst. unfold standing in Hst. by rewrite Hl in Hst.
  - intros t lg Hlg. destruct (re_over _ _ _ _ _ _ _ (lo_reigns _ _ _ _ Hlogs _ _ _ Hlg) nd Hj).
    split; [lia|congruence].
  - intros t i lg Hne Hi. rewrite lookup_insert_ne; [done|]. intros <-.
    destruct Hfree as [?|(lg0 & s & ? & _)]; congruence.
Qed.

(** [j] wins an election with the log it has. *)
Lemma step_won :
  0 ≤ n → nd'.(raft).(rstate) = leader → nd'.(raft).(log) = nd.(raft).(log) →
  nd'.(raft).(term) = nd.(raft).(term) + 1 ∨
    nd'.(raft).(term) = nd.(raft).(term) ∧ nd.(raft).(rstate) = candidate →
  ∃ L', extends L L' ∧ crowned L L' w' ∧ logs n V' L' w'.
Proof using All.
  intros Hn0 Hld Hl Hwon. eapply step_crowned; [done|done|left; by eapply won_fresh|].
  intros L' HL'. eapply log_ok_mono; [done|]. by eapply lo_nodes.
Qed.
End step.

Lemma step_logs n V V' L w lb w' :
  world_ok n w → logs n V L w → V ⊆ V' → ballots n V' w' →
  timely w lb = true → step w lb = Done w' → ∃ L', extends L L' ∧ crowned L L' w' ∧ logs n V' L' w'.
Proof.
  intros Hw Hlogs HV Hb Htl Hs.
  destruct (step_acts n true w lb w' Hw Hs) as (j & nd & nd' & Hj & Hn & _ & Hstep); [done|].
  pose proof (wo_nodes _ _ Hw _ _ Hj) as (Hok & _ & _).
  assert (0 ≤ n) as Hn0 by (assert (peer_ok n j) as [? ?] by (by apply (wo_dom _ _ Hw); eauto); lia).
  pose proof (lo_nodes _ _ _ _ Hlogs _ _ Hj) as Hlj.
  apply (node_step_event n) in Hstep; [|done|].
  2: { intros args Hargs%delivered_requested. by destruct (lo_sent _ _ _ _ Hlogs args Hargs) as (? & ? & ? & _ & ? & _). }
  assert (steady nd.(raft) nd'.(raft) → nd'.(raft).(log) = nd.(raft).(log) →
    ∃ L', extends L L' ∧ crowned L L' w' ∧ logs n V' L' w') as Hsteady.
  { intros [Ht Hst] Hl. apply (step_same n V V' L w w' lb j nd nd'); [done..| |by rewrite Hl|].
    + destruct (decide (rstate (raft nd') = leader)) as [Hld|]; [right|by left].
      destruct Hst as [? ?]; [congruence|]. split_and!; [congruence|done|done].
    + intros _ Hcd. destruct Hst as [? _]; congruence. }
  destruct Hstep as [Hst [Hl _]|Ht Hf Hl _|Ht Hc [Hl _]|Hld Ht Hl _ _|command Ht Hld0 Hld Hl _ _|
    args Hargs Hle Ht Hf Hcon Hl _|p args r _ _ Hld0 Hld Ht Hl _ _].
  - by apply Hsteady.
  - apply Hsteady; [|done]. split; [lia|congruence].
  - apply (step_same n V V' L w w' lb j nd nd'); [done..|lia|left; congruence|by rewrite Hl|lia].
  - apply (step_won n V V' L w w' lb j nd nd'); [done..|lia|done|done|done|done].
  - eapply (step_crowned n V V' L w w' lb j nd nd'); [done..|lia|done|done| |].
    + right. exists (log (raft nd)). eexists. split_and!; [rewrite Ht; by apply Hlogs|done|]. by repeat constructor; simpl.
    + intros L' HL'. unfold L' in *. rewrite Ht in *. apply log_ok_snoc; [apply Hok|]. by eapply log_ok_mono.
  - apply (step_same n V V' L w w' lb j nd nd'); [done..|lia|left; congruence| |congruence]. rewrite Hl.
    apply accept_log_ok; [by eapply Hlogs, delivered_requested| |done|done]. intros t i lg Hi. by apply (lo_reigns _ _ _ _ Hlogs _ _ _ Hi).
  - apply Hsteady; [|done]. split; [lia|]. intros _. split; congruence.
Qed.

Lemma init_logs env (ends : list string) : logs (len ends) ∅ ∅ (init env ends).
Proof.
  split.
  - intros t i lg H. by rewrite lookup_empty in H.
  - intros i nd [_ ->]%init_lookup. simpl. split; [done|]. intros k e Hk H0. destruct k as [|k]; [lia|done].
  - intros i nd [_ ->]%init_lookup. done.
  - intros args (c & ? & ? & ? & Hc & _). by apply elem_of_nil in Hc.
Qed.

(** The logs of a reachable world. *)
Lemma timely_steps_logs env (ends : list string) w :
  timely_steps (init env ends) w →
  world_ok (len ends) w ∧ ∃ V L, ballots (len ends) V w ∧ logs (len ends) V L w.
Proof.
  intros Hs. assert (∃ V L, ballots (len ends) V (init env ends) ∧ logs (len ends) V L (init env ends)) as H0
    by (exists ∅, ∅; split; [apply init_ballots|apply init_logs]).
  assert (world_ok (len ends) (init env ends)) as Hw0 by apply init_ok.
  induction Hs as [w|w1 w2 w3 (lb & Htl & Hl) _ IH]; [done|]. apply IH.
  - destruct H0 as (V & L & Hb & Hlg). destruct (step_ballots (len ends) V w1 lb w2) as (V' & HV & _ & Hb'); [done..|].
    destruct (step_logs (len ends) V V' L w1 lb w2) as (L' & _ & _ & Hlg'); [done..|]. eauto.
  - pose proof (step_ok (len ends) w1 lb Hw0) as Hok. by rewrite Hl in Hok.
Qed.

(** *** The loop of replicateTo *)

(** An iteration that nothing interrupts: goroutine [k] of leader [i] prepares
    its request and makes the call, which has number [m]; the peer executes it;
    the call returns. *)
Definition iteration (i : Z) (k m : nat) env : list (label Cmd) := [LRun i k env; LDeliver m env; LReturn m env].

(** The first iteration and [r] more; a goroutine that goes on is the last one. *)
Definition iterations (i : Z) (k last m r : nat) env : list (label Cmd) :=
  iteration i k m env ++ mjoin (replicate r (iteration i last m env)).

Lemma run_app (w : world Cmd) ls ls' w1 : run w ls = Done w1 → run w (ls ++ ls') = run w1 ls'.
Proof.
  revert w. induction ls as [|lb ls IH]; intros w; simpl; [by intros [= ->]|].
  destruct (step w lb) as [w2| |]; simpl; [apply IH|done..].
Qed.

Lemma run_iteration (w : world Cmd) i p k nd ndp ps t env (l1 : Raft Cmd) args f' r (l2 : Raft Cmd) next :
  i ≠ p → w.(nodes) !! i = Some nd → w.(nodes) !! p = Some ndp → nd.(threads) !! k = Some (GReplicate (p :: ps) t) →
  replicateBegin p t nd.(raft) = Some (l1, Some args) → AppendEntries env args ndp.(raft) = (f', r) →
  replicateReply env p t args r l1 = Some (l2, next) →
  let gs := match next with ReplReturn gs => gs ++ [GReplicate ps t] | ReplAgain => [GReplicate (p :: ps) t] end in
  ∃ w', run w (iteration i k (length w.(calls)) env) = Done w' ∧
    w'.(nodes) !! i = Some (mkNode l2 (delete k nd.(threads) ++ gs) nd.(lifeSnap)) ∧
    w'.(nodes) !! p = Some (mkNode f' ndp.(threads) ndp.(lifeSnap)) ∧ w'.(calls) = w.(calls).
Proof.
  intros Hne Hi Hp Hk Hb Ha Hr gs. set (m := length w.(calls)).
  set (c := mkCall i p true (CAppendEntries args t ps None)). set (c' := mkCall i p true (CAppendEntries args t ps (Some r))).
  set (w1 := set_calls (w.(calls) ++ [c]) (set_node i (update (drop_thread k nd) l1 []) w)).
  set (w2 := set_calls (<[m := c']> (w.(calls) ++ [c])) (set_node p (update ndp f' []) w1)).
  assert (w1.(calls) !! m = Some c) as Hc1 by (by apply list_lookup_middle).
  assert (w1.(nodes) !! p = Some ndp) as Hn1 by (simpl; by rewrite lookup_insert_ne).
  assert (w2.(calls) !! m = Some c') as Hc2 by (simpl; apply list_lookup_insert_eq; rewrite length_app; simpl; lia).
  assert (w2.(nodes) !! i = Some (update (drop_thread k nd) l1 [])) as Hn2
    by (simpl; rewrite lookup_insert_ne by done; by rewrite lookup_insert_eq).
  assert (step w (LRun i k env) = Done w1) as Hs1 by (simpl; rewrite Hi; simpl; rewrite Hk; simpl; by rewrite Hb).
  assert (step w1 (LDeliver m env) = Done w2) as Hs2.
  { unfold step. rewrite Hc1. cbn [enabled outcome_bind dst c]. rewrite Hn1. simpl. by rewrite Ha. }
  set (nd2 := update (update (drop_thread k nd) l1 []) l2 gs).
  assert (step w2 (LReturn m env) = Done (set_calls (calls w) (set_node i nd2 w2))) as Hs3.
  { unfold step. rewrite Hc2. cbn [enabled outcome_bind waiting src c']. rewrite Hn2. simpl. rewrite Hr. simpl.
    assert (delete m (<[m:=c']> (calls w ++ [c])) = calls w) as Hdel.
    { rewrite delete_insert. unfold m. by rewrite delete_middle, app_nil_r. }
    by destruct next; simpl; rewrite Hdel. }
  exists (set_calls (calls w) (set_node i nd2 w2)). split_and!.
  - unfold iteration, run. rewrite Hs1. cbn [outcome_bind]. rewrite Hs2. cbn [outcome_bind]. by rewrite Hs3.
  - simpl. rewrite lookup_insert_eq. unfold nd2, update, drop_thread. simpl. by rewrite app_nil_r.
  - simpl. rewrite lookup_insert_ne, lookup_insert_eq by done. unfold update. by rewrite app_nil_r.
  - done.
Qed.

Lemma replicateReply_leads env p t args (l1 l2 : Raft Cmd) gs :
  l1.(rstate) = leader → l1.(term) = t →
  replicateReply env p t args (mkAEReply t true 0 0) l1 = Some (l2, ReplReturn gs) →
  l2.(rstate) = leader ∧ l2.(term) = t ∧ l2.(log) = l1.(log).
Proof.
  intros Hl Ht. unfold replicateReply. simpl. rewrite decide_False by lia. rewrite decide_False by naive_solver.
  intros (cur & _ & (l3 & Hl3 & ([l4 gs'] & [c ->]%tryAdvanceCommit_shape & ?)%bind_Some)%bind_Some)%bind_Some.
  simplify_eq/=. case_decide; [|by simplify_eq].
  apply bind_Some in Hl3 as (mi & _ & (ni & _ & ?)%bind_Some). by simplify_eq/=.
Qed.

Lemma iterations_repair n (fuel : nat) i p ps t env (w : world Cmd) k nd ndp x :
  i ≠ p → 0 ≤ p < n → w.(nodes) !! i = Some nd → w.(nodes) !! p = Some ndp →
  nd.(threads) !! k = Some (GReplicate (p :: ps) t) → leading n p t x nd.(raft).(log) nd.(raft) →
  ndp.(raft).(log) ≠ [] → ndp.(raft).(term) ≤ t →
  coherent nd.(raft).(log) ndp.(raft).(log) → head nd.(raft).(log) = head ndp.(raft).(log) →
  Z.max 1 x ≤ Z.of_nat fuel →
  ∃ (r : nat) w' nd' ndp', (r < fuel)%nat ∧
    run w (iterations i k (pred (length nd.(threads))) (length w.(calls)) r env) = Done w' ∧
    w'.(nodes) !! i = Some nd' ∧ w'.(nodes) !! p = Some ndp' ∧
    nd'.(raft).(rstate) = leader ∧ nd'.(raft).(term) = t ∧ nd'.(raft).(log) = nd.(raft).(log) ∧
    nd.(raft).(log) `prefix_of` ndp'.(raft).(log) ∧
    (∃ gs, nd'.(threads) = delete k nd.(threads) ++ gs ++ [GReplicate ps t]) ∧
    w'.(calls) = w.(calls).
Proof.
  intros Hne Hpn. revert w k nd ndp x. induction fuel as [|fuel IH]; intros w k nd ndp x Hi Hp Hk Hld Hfne Hft Hc Hh Hx; [lia|].
  destruct (replicateBegin_leading _ _ _ _ _ _ Hpn Hld) as (l1 & Hb & Hld1). set (args := mkAEArgs _ _ _ _ _ _) in Hb.
  destruct (decide (consistent args (raft ndp))) as [Hcon|Hcon].
  - destruct (round_accept n p t (Z.max 1 x) env (raft nd) l1 (raft ndp) args)
      as (f' & r & l2 & gs & Ha & Hr & Hpre); [done|done|lia|done..|].
    destruct (run_iteration w i p k nd ndp ps t env l1 args f' r l2 (ReplReturn gs) Hne Hi Hp Hk Hb Ha Hr)
      as (w' & Hrun & Hi' & Hp' & Hcalls).
    destruct (AppendEntries_accept env args (raft ndp)) as (f2 & Ha2 & _); [done|simpl; lia|done|].
    rewrite Ha in Ha2. injection Ha2 as <- ->.
    destruct (replicateReply_leads env p t args l1 l2 gs) as (Hs2 & Ht2 & Hl2); [apply Hld1|apply Hld1|done|].
    exists 0%nat, w'. do 2 eexists. split_and!; [lia| |exact Hi'|exact Hp'|done|done| |done|by eexists|done].
    + unfold iterations. by rewrite (run_app _ _ _ _ Hrun).
    + simpl. rewrite Hl2. apply Hld1.
  - destruct (round_reject n p t (Z.max 1 x) env (raft nd) l1 (raft ndp) args)
      as (f' & r & l2 & y & Ha & Hr & Hld2 & Hy & Hx2 & Hlf & Htf); [done|done|lia|done..|].
    destruct (run_iteration w i p k nd ndp ps t env l1 args f' r l2 ReplAgain Hne Hi Hp Hk Hb Ha Hr)
      as (w1 & Hrun & Hi' & Hp' & Hcalls).
    pose proof (ld_log _ _ _ _ _ _ Hld2) as Hl2. pose proof (lookup_lt_Some _ _ _ Hk) as Hkl.
    assert (length (delete k (threads nd)) = pred (length (threads nd))) as Hlen by (rewrite length_delete by eauto; lia).
    destruct (IH w1 (pred (length (threads nd))) _ _ y Hi' Hp')
      as (r2 & w2 & nd2 & ndp2 & Hr2 & Hrun2 & ? & ? & ? & ? & Hlog2 & Hpre2 & (gs & Hth2) & Hc2); cbn [raft threads lifeSnap] in *.
    all: rewrite ?Hl2, ?Hlf; try done; try lia.
    { rewrite <- Hlen. by apply list_lookup_middle. }
    exists (S r2), w2, nd2, ndp2. rewrite Hl2 in *. split_and!; try done; [lia| |exists gs|congruence].
    + rewrite Hcalls in Hrun2. rewrite length_app, Hlen in Hrun2. cbn [length] in Hrun2.
      replace (pred (pred (length (threads nd)) + 1)) with (pred (length (threads nd))) in Hrun2 by lia.
      unfold iterations in *. rewrite (run_app _ _ _ _ Hrun). exact Hrun2.
    + rewrite Hth2. f_equal. rewrite <- Hlen. by rewrite delete_middle, app_nil_r.
Qed.

(** ** Theorems *)

(** C2. Log matching: in every execution with timely replies, if the logs of two
    peers have an entry of the same term at the same index, the logs are
    identical up to that index, commands included. *)
Theorem log_matching env (ends : list string) w i1 i2 nd1 nd2 k e1 e2 :
  timely_steps (init env ends) w →
  w.(nodes) !! i1 = Some nd1 → w.(nodes) !! i2 = Some nd2 →
  slice_get nd1.(raft).(log) k = Some e1 → slice_get nd2.(raft).(log) k = Some e2 →
  e1.(eTerm) = e2.(eTerm) →
  take (Z.to_nat (k + 1)) nd1.(raft).(log) = take (Z.to_nat (k + 1)) nd2.(raft).(log).
Proof.
  intros Hs H1 H2 He1 He2 Ht. destruct (timely_steps_logs env ends w Hs) as (_ & V & L & _ & Hlg).
  eapply (log_ok_coherent L); [by eapply lo_nodes|by eapply lo_nodes|done|done|done|lia].
Qed.

(** C9. [replicateTo] repairs a follower.  In every execution with timely
    replies, let a goroutine of a leader be about to replicate to another peer
    of no later term.  If from then on, until the goroutine leaves its loop,
    nothing happens but the critical sections of this loop and the executions of
    its requests by the peer (so that neither of them takes another step), the
    loop is left after at most as many iterations as the leader's log has
    entries; the leader still leads with the same log, its whole log is then a
    prefix of the peer's, and the goroutine goes on with the peers it had left. *)
Theorem replicateTo_repairs env0 (ends : list string) w i p k ps nd ndp env :
  timely_steps (init env0 ends) w → i ≠ p →
  w.(nodes) !! i = Some nd → w.(nodes) !! p = Some ndp →
  nd.(raft).(rstate) = leader → ndp.(raft).(term) ≤ nd.(raft).(term) →
  nd.(threads) !! k = Some (GReplicate (p :: ps) nd.(raft).(term)) →
  ∃ (r : nat) w' nd' ndp', (r < length nd.(raft).(log))%nat ∧
    run w (iterations i k (pred (length nd.(threads))) (length w.(calls)) r env) = Done w' ∧
    w'.(nodes) !! i = Some nd' ∧ w'.(nodes) !! p = Some ndp' ∧
    nd'.(raft).(rstate) = leader ∧ nd'.(raft).(term) = nd.(raft).(term) ∧ nd'.(raft).(log) = nd.(raft).(log) ∧
    nd.(raft).(log) `prefix_of` ndp'.(raft).(log) ∧
    (∃ gs, nd'.(threads) = delete k nd.(threads) ++ gs ++ [GReplicate ps nd.(raft).(term)]) ∧
    w'.(calls) = w.(calls).
Proof.
  intros Hs Hne Hi Hp Hld Ht Hk. destruct (timely_steps_logs env0 ends w Hs) as (Hw & V & L & _ & Hlg).
  destruct (wo_nodes _ _ Hw _ _ Hi) as [Hok _], (wo_nodes _ _ Hw _ _ Hp) as [Hokp _].
  destruct (lo_nodes _ _ _ _ Hlg _ _ Hi) as [Hh Hl], (lo_nodes _ _ _ _ Hlg _ _ Hp) as [Hhp Hlp].
  assert (0 ≤ p < len ends) as Hpn by (apply (wo_dom _ _ Hw); eauto).
  destruct (ok_leader _ _ Hok Hld) as [Hnl _ _]. destruct (slice_get_inr (nextIndex (raft nd)) p) as [x Hx]; [lia|].
  assert (leading (len ends) p (term (raft nd)) x (log (raft nd)) (raft nd)) as Hlead by (by split).
  pose proof (leading_bound _ _ _ _ _ _ Hlead) as Hxb. pose proof (log_len _ (ok_log _ _ Hok)) as Hll.
  destruct (iterations_repair (len ends) (length (log (raft nd))) i p ps (term (raft nd)) env w k nd ndp x)
    as (r & w' & nd' & ndp' & Hr & Hrun & Hi' & Hp' & Hld' & Ht' & Hl' & Hpre & Hth & Hc);
    [done|done|done|done|done|done|apply Hokp|done|by apply (log_ok_coherent L)|congruence|unfold len in *; lia|].
  exists r, w', nd', ndp'. by split_and!.
Qed.
End matching.
