(* ===== verification/RaftCommit.v ===== *)
(** * Acknowledgements, commitment and leader completeness

    What a majority has acknowledged is in the log of every later leader: the
    argument, on the histories of an execution alone.  RaftAnnals.v and
    RaftCompleteness.v relate the histories to the worlds of an execution.

    Besides the votes [V] and the leaders' logs [L] of RaftElection.v and
    RaftMatching.v there are [A], which peer has acknowledged which prefix of
    which term's leader's log, and [B], the log with which each candidate ran.
    [faithful] is the heart of it: what a peer has acknowledged is in a given
    log, or some leader in between did not have it.

    An AppendEntries request is [outdated] if the follower has all its entries
    and more: [syncLocked] then cuts the rest off, acknowledged or not.
    RaftTraces.v has an execution in which such a request undoes a commit, so
    the executions considered here are those without ([orderly_steps]). *)
From S2P Require Import Prelude RaftNode RaftLog RaftInv RaftEvolve RaftSystem RaftSafety RaftHistory RaftReplication RaftElection RaftEvents RaftMatching.

Section commit.
Context {Cmd : Type} `{!Gob Cmd, !GobOk Cmd}.
Implicit Types (rf : Raft Cmd) (w : world Cmd) (V : gset (Z * Z * Z)) (n : Z).
Implicit Types (l lg p q : list (LogEntry Cmd)) (args : AppendEntriesArgs Cmd).
Implicit Types (L : gmap Z (Z * list (LogEntry Cmd))) (A B : list (Z * Z * list (LogEntry Cmd))).

(** ** Outdated requests *)

(** The request matches the log to its end, and the log goes on: an accepted
    request of this kind cuts entries that agree with the leader's. *)
Definition outdated args rf : bool :=
  bool_decide (rf.(term) ≤ args.(aeTerm)) &&
  bool_decide (args.(aePrevLogIndex) ≤ lastLogIndexLocked rf) &&
  bool_decide (termAtLocked rf args.(aePrevLogIndex) = args.(aePrevLogTerm)) &&
  bool_decide (0 < len args.(aeEntries)) &&
  bool_decide (matchingPrefix (drop (Z.to_nat (args.(aePrevLogIndex) + 1)) rf.(log)) args.(aeEntries)
               = length args.(aeEntries)) &&
  bool_decide (args.(aePrevLogIndex) + 1 + len args.(aeEntries) < len rf.(log)).

(** A step is [orderly] unless it delivers an outdated request. *)
Definition orderly w (lb : label Cmd) : bool :=
  match lb with
  | LDeliver k _ =>
    match w.(calls) !! k with
    | Some c =>
      match c.(body), w.(nodes) !! c.(dst) with
      | CAppendEntries args _ _ _, Some nd => negb (outdated args nd.(raft))
      | _, _ => true
      end
    | None => true
    end
  | _ => true
  end.

Definition orderly_steps : world Cmd → world Cmd → Prop :=
  rtc (λ w w', ∃ lb, timely w lb = true ∧ orderly w lb = true ∧ step w lb = Done w').

(** ** Histories *)

(** [q] ends with an entry the leader of term [t] made. *)
Definition own L (t : Z) q : Prop :=
  ∃ i lg e, L !! t = Some (i, lg) ∧ q `prefix_of` lg ∧ last q = Some e ∧ e.(eTerm) = t.

(** The leader of term [u] does not have [q]. *)
Definition lacks L q (u : Z) : Prop := ∃ i lg, L !! u = Some (i, lg) ∧ ¬ q `prefix_of` lg.

(** Peer [v] has acknowledged [q] in term [t]. *)
Definition held A (v t : Z) q : Prop := ∃ p, (v, t, p) ∈ A ∧ q `prefix_of` p.

(** What [v] has acknowledged in terms before [u] is in [l], unless a leader of
    a later term, before [m], lacks it. *)
Definition faithful L A (v u m : Z) l : Prop :=
  ∀ t q, held A v t q → own L t q → t < u → q `prefix_of` l ∨ ∃ u', t < u' < m ∧ lacks L q u'.

(** A majority has acknowledged [q]. *)
Definition chosen n L A (t : Z) q : Prop :=
  own L t q ∧ ∃ Q : gset Z, Z.of_nat (size Q) > n / 2 ∧ ∀ v, v ∈ Q → peer_ok n v ∧ held A v t q.

(** The first [c] entries of [l] (after the dummy) are committed, by term [T]. *)
Definition settled n L A (c T : Z) l : Prop :=
  0 < c → ∃ t q, chosen n L A t q ∧ t ≤ T ∧ c < len q ∧ take (Z.to_nat (c + 1)) q `prefix_of` l.

Definition bounded (T : Z) l : Prop := Forall (λ e, e.(eTerm) ≤ T) l.

Definition known L A : Prop :=
  ∀ v t p, (v, t, p) ∈ A → ∃ i lg, L !! t = Some (i, lg) ∧ p `prefix_of` lg.
Definition dated L : Prop := ∀ t i lg, L !! t = Some (i, lg) → 0 < t ∧ log_ok L lg ∧ bounded t lg.

(** *** They only grow *)

Lemma own_mono L L' t q : extends L L' → own L t q → own L' t q.
Proof.
  intros HL (i & lg & e & Hlg & Hq & He & Ht). destruct (extends_prefix _ _ _ _ _ HL Hlg) as (lg' & Hlg' & ?).
  exists i, lg', e. split_and!; [done|by etrans|done|done].
Qed.

Lemma own_back L L' A v t q : extends L L' → known L A → held A v t q → own L' t q → own L t q.
Proof.
  intros HL HA (p & Hp & Hq) (i & lg & e & Hlg & _ & He & Ht). destruct (HA _ _ _ Hp) as (i0 & lg0 & Hlg0 & Hpre).
  exists i0, lg0, e. split_and!; [done|by etrans|done|done].
Qed.

Lemma own_bounded L t q : dated L → own L t q → bounded t q.
Proof.
  intros HL (i & lg & e & Hlg & [s ->] & _). destruct (HL _ _ _ Hlg) as (_ & _ & Hb). by apply Forall_app in Hb as [? _].
Qed.

(** A leader appends entries of its own term only, so it never gets an entry of
    an older term it lacks. *)
Lemma lacks_mono L L' t q u : extends L L' → dated L → own L t q → t < u → lacks L q u → lacks L' q u.
Proof.
  intros HL Hd Hown Htu (i & lg & Hlg & Hno). destruct (HL _ _ _ Hlg) as (s & Hs & Hterm).
  exists i, (lg ++ s). split; [done|]. intros Hq. apply Hno.
  destruct (prefix_weak_total q lg (lg ++ s)) as [?|[r ->]]; [done|by eexists|done|].
  apply prefix_app_inv in Hq. destruct r as [|e r]; [by rewrite app_nil_r|]. exfalso.
  apply own_bounded in Hown; [|done]. apply Forall_app in Hown as [_ Hb]. apply Forall_inv in Hb.
  destruct Hq as [s' ->]. apply Forall_inv in Hterm. simpl in *. lia.
Qed.

Lemma held_mono A A' v t q : A ⊆ A' → held A v t q → held A' v t q.
Proof. intros HA (p & ? & ?). exists p. auto. Qed.

Lemma faithful_log_mono L L' A v u m l :
  extends L L' → known L A → dated L → faithful L A v u m l → faithful L' A v u m l.
Proof.
  intros HL HA Hd Hf t q Hh Ho Ht. apply (own_back L L' A v) in Ho; [|done..].
  destruct (Hf t q Hh Ho Ht) as [?|(u' & Hu & Hlack)]; [by left|]. right. exists u'. split; [done|].
  apply (lacks_mono L L' t); [done|done|done|lia|done].
Qed.

(** New acknowledgements of [v] are not older than [u]. *)
Lemma faithful_acks L A A' v u m l :
  (∀ t p, (v, t, p) ∈ A' → (v, t, p) ∈ A ∨ u ≤ t) → faithful L A v u m l → faithful L A' v u m l.
Proof.
  intros HA Hf t q (p & Hp & Hq) Ho Ht. destruct (HA t p Hp) as [?|?]; [|lia].
  apply Hf; [by exists p|done|done].
Qed.

Lemma faithful_weaken L A v u m m' l : m ≤ m' → faithful L A v u m l → faithful L A v u m' l.
Proof.
  intros Hm Hf t q Hh Ho Ht. destruct (Hf t q Hh Ho Ht) as [?|(u' & ? & ?)]; [by left|]. right. exists u'. split; [lia|done].
Qed.

Lemma chosen_mono n L L' A A' t q :
  extends L L' → A ⊆ A' → chosen n L A t q → chosen n L' A' t q.
Proof.
  intros HL HA (Ho & Q & HQ & Hh). split; [by eapply own_mono|]. exists Q. split; [done|].
  intros v Hv. destruct (Hh v Hv). split; [done|]. by eapply held_mono.
Qed.

Lemma settled_mono n L L' A A' c T T' l l' :
  extends L L' → A ⊆ A' → T ≤ T' → l `prefix_of` l' → settled n L A c T l → settled n L' A' c T' l'.
Proof.
  intros HL HA HT Hl Hs Hc. destruct (Hs Hc) as (t & q & Hcm & Ht & Hlen & Hq). exists t, q.
  split_and!; [by eapply chosen_mono|lia|done|by etrans].
Qed.

(** ** Leader completeness, from the histories *)

(** Every leader was elected by a majority that had told it what it had
    acknowledged. *)
Definition elected n V L A : Prop :=
  ∀ u i lg, L !! u = Some (i, lg) →
    ∃ S : gset Z, Z.of_nat (size S) > n / 2 ∧ supporters n V u i S ∧ ∀ v, v ∈ S → faithful L A v u u lg.

Lemma completeness n V L A t q u i lg :
  0 ≤ n → elected n V L A → chosen n L A t q → L !! u = Some (i, lg) → t < u → q `prefix_of` lg.
Proof.
  intros Hn He (Ho & Q & HQ & Hh).
  assert (∀ (m : nat) u i lg, u - t < Z.of_nat m → L !! u = Some (i, lg) → t < u → q `prefix_of` lg) as Hind.
  { clear u i lg. induction m as [|m IH]; intros u i lg Hm Hlg Htu; [lia|].
    destruct (He u i lg Hlg) as (S & HS & Hsup & Hf).
    destruct (quorum_intersection n S Q) as (v & HvS & HvQ); [done|by intros ? [? _]%Hsup|by intros ? [? _]%Hh|done|done|].
    destruct (Hf v HvS t q) as [?|(u' & [? ?] & (i' & lg' & Hlg' & Hno))]; [by apply Hh|done|done|done|].
    destruct Hno. apply (IH u' i' lg'); [lia|done|done]. }
  intros Hlg Htu. apply (Hind (Z.to_nat (u - t + 1)) u i lg); [lia|done|done].
Qed.

(** Two committed prefixes are prefixes of one another. *)
Lemma chosen_agree n V L A t q t' q' :
  0 ≤ n → elected n V L A → chosen n L A t q → chosen n L A t' q' →
  q `prefix_of` q' ∨ q' `prefix_of` q.
Proof.
  assert (∀ t q t' q', 0 ≤ n → elected n V L A → t ≤ t' → chosen n L A t q → chosen n L A t' q' →
    q `prefix_of` q' ∨ q' `prefix_of` q) as Hle.
  { clear t q t' q'. intros t q t' q' Hn He Ht Hc Hc'. pose proof Hc as ((i & lg & e & Hlg & Hq & _) & _).
    pose proof Hc' as ((i' & lg' & e' & Hlg' & Hq' & _) & _).
    assert (q `prefix_of` lg'); [|by eapply prefix_weak_total].
    destruct (decide (t = t')) as [->|]; [by simplify_eq|]. apply (completeness n V L A t q t' i' lg'); [done..|lia]. }
  intros Hn He Hc Hc'. destruct (decide (t ≤ t')); [by eapply Hle|].
  destruct (Hle t' q' t q); [done|done|lia|done|done|by right|by left].
Qed.

(** ** What an up-to-date candidate has *)

Lemma log_ok_entry L l k e : log_ok L l → l !! k = Some e → (0 < k)%nat →
  ∃ i lg, L !! e.(eTerm) = Some (i, lg) ∧ take (S k) l `prefix_of` lg.
Proof.
  intros [_ Hl] Hk H0. destruct (Hl k e Hk H0) as (i & lg & Hlg & Ht). exists i, lg. split; [done|].
  rewrite <- Ht. apply prefix_take.
Qed.

Lemma last_take l e : last l = Some e → l !! pred (length l) = Some e ∧ take (S (pred (length l))) l = l.
Proof.
  intros H. rewrite last_lookup in H. split; [done|]. apply take_ge. apply lookup_lt_Some in H. lia.
Qed.

(** The last entries decide, as in [RequestVote]. *)
Definition up_to_date (lastTerm lastIndex : Z) l : Prop :=
  ∃ e, last l = Some e ∧ (lastTerm > e.(eTerm) ∨ lastTerm = e.(eTerm) ∧ lastIndex >= len l - 1).

(** Not just the dummy entry. *)
Lemma own_long L t q : dated L → own L t q → (1 < length q)%nat.
Proof.
  intros HL (i & lg & e & Hlg & [s ->] & He & Ht). destruct (HL _ _ _ Hlg) as (Hpos & [Hh _] & _).
  destruct q as [|e0 [|e1 q]]; simpl in *; [done| |lia]. congruence || (simplify_eq; simpl in *; lia).
Qed.

(** The last entry of a log that is more than the dummy comes from a leader. *)
Lemma last_entry_leader L l e :
  log_ok L l → last l = Some e → e.(eTerm) ≠ 0 → ∃ i lg, L !! e.(eTerm) = Some (i, lg) ∧ l `prefix_of` lg.
Proof.
  intros Hl He Ht. apply last_take in He as [Hk Hall].
  destruct (decide (pred (length l) = 0%nat)) as [E|E].
  - rewrite E in Hk. destruct Hl as [Hh _]. destruct l; by simplify_eq/=.
  - destruct (log_ok_entry L l _ e Hl Hk) as (i & lg & ? & ?); [lia|]. rewrite Hall in *. eauto.
Qed.

(** Entries after [q] in a later leader's log. *)
Lemma prefix_bounded t q lg l e :
  bounded t q → q `prefix_of` lg → l `prefix_of` lg → last l = Some e → t < e.(eTerm) → q `prefix_of` l.
Proof.
  intros Hb Hq Hl He Ht. destruct (prefix_weak_total q l lg Hq Hl) as [?|[s ->]]; [done|]. exfalso.
  apply last_Some in He as [l' ->]. rewrite <- app_assoc in Hb. apply Forall_app in Hb as [_ Hb%Forall_inv].
  simpl in *. lia.
Qed.

(** By log matching the terms decide whether a log has [q]. *)
Lemma own_decide L t q l : dated L → own L t q → log_ok L l → q `prefix_of` l ∨ ¬ q `prefix_of` l.
Proof.
  intros Hd Ho Hl. pose proof (own_long _ _ _ Hd Ho). destruct Ho as (i & lg & e & Hlg & Hq & He & <-).
  apply last_take in He as [Hk Hall]. destruct (l !! pred (length q)) as [e'|] eqn:E.
  - destruct (decide (e'.(eTerm) = e.(eTerm))) as [Ht|Ht].
    + left. destruct Hl as [_ Hl]. destruct (Hl _ _ E) as (i' & lg' & Hlg' & Htk); [lia|].
      rewrite Ht, Hlg in Hlg'. injection Hlg' as <- <-. rewrite <- Hall, <- (take_prefix_of q lg) by (lia || done).
      rewrite Htk. apply prefix_take.
    + right. intros Hp. apply (prefix_lookup_Some _ _ _ _ Hk) in Hp. congruence.
  - right. intros Hp. apply (prefix_lookup_Some _ _ _ _ Hk) in Hp. congruence.
Qed.

Lemma up_to_date_has L t q u lv lc ec :
  dated L → own L t q → log_ok L lv → log_ok L lc → Forall (λ e, e.(eTerm) < u) lc →
  last lc = Some ec → up_to_date ec.(eTerm) (len lc - 1) lv → q `prefix_of` lv →
  q `prefix_of` lc ∨ ∃ u', t < u' < u ∧ lacks L q u'.
Proof.
  intros Hd Ho Hlv Hlc Hu Hec (ev & Hev & Hup) Hq.
  pose proof (own_bounded _ _ _ Hd Ho) as Hbq. pose proof (own_long _ _ _ Hd Ho) as Hlong.
  pose proof Ho as (i & lg & eq & Hlg & Hqlg & Heq & Heqt). destruct (Hd _ _ _ Hlg) as (Hpos & _ & _).
  assert (eTerm ec < u) as Hecu by (eapply Forall_lookup_1 in Hu; [exact Hu|by apply last_take in Hec as [? _]]).
  apply last_take in Hev as Hev'. destruct Hev' as [Hkv Htv]. pose proof (prefix_length _ _ Hq).
  destruct (log_ok_entry L lv _ ev Hlv Hkv) as (iv & lgv & Hlgv & Hpv); [lia|]. rewrite Htv in Hpv.
  assert (t ≤ eTerm ev) as Htev.
  { rewrite <- Heqt. destruct (Hd _ _ _ Hlgv) as (_ & _ & Hb). rewrite last_lookup in Heq.
    eapply Forall_lookup_1 in Hb; [exact Hb|]. eapply prefix_lookup_Some; [exact Heq|]. etrans; [exact Hq|exact Hpv]. }
  destruct (last_entry_leader L lc ec Hlc Hec) as (ic & lgc & Hlgc & Hpc); [lia|].
  destruct Hup as [Hgt|[Hsame Hlen]].
  - destruct (own_decide L t q lgc) as [Hqc|Hqc]; [done|done|by eapply Hd|..].
    + left. eapply (prefix_bounded t); [done|exact Hqc|done|done|lia].
    + right. exists (eTerm ec). split; [lia|]. by exists ic, lgc.
  - left. rewrite Hsame, Hlgv in Hlgc. injection Hlgc as <- <-. etrans; [exact Hq|].
    destruct (prefix_weak_total lv lc lgv Hpv Hpc) as [?|Hp]; [done|].
    apply prefix_length_eq in Hp as ->; [done|]. unfold len in *. lia.
Qed.

End commit.
