(* ===== verification/RaftAnnals.v ===== *)
(** * The histories of a world

    [annals n V L A B w] relates the histories of RaftCommit.v to a world: what
    every peer has acknowledged, bid and committed, what its vote requests and
    AppendEntries requests say, and what has been applied.  [annals_step] is the
    frame of a step: given what the step does to the peer that takes it, the
    rest of the invariant follows. *)
From S2P Require Import Prelude RaftNode RaftLog RaftInv RaftEvolve RaftSystem RaftSafety RaftHistory RaftApply RaftReplication RaftElection RaftEvents RaftMatching RaftCommit.

Section annals.
Context {Cmd : Type} `{!Gob Cmd, !GobOk Cmd}.
Implicit Types (rf : Raft Cmd) (w : world Cmd) (V : gset (Z * Z * Z)) (n : Z).
Implicit Types (l lg p q : list (LogEntry Cmd)) (args : AppendEntriesArgs Cmd).
Implicit Types (L : gmap Z (Z * list (LogEntry Cmd))) (A B : list (Z * Z * list (LogEntry Cmd))).

(** ** The invariant *)

(** The acknowledgements, the bids and the commit index of peer [i]. *)
Record chronicle n L A B (i : Z) rf : Prop := {
  ch_bounded : bounded rf.(term) rf.(log);
  ch_acks t p : (i, t, p) ∈ A → t ≤ rf.(term);
  ch_faithful : faithful L A i (rf.(term) + 1) (rf.(term) + 1) rf.(log);
  ch_bids u l : (u, i, l) ∈ B → u ≤ rf.(term);
  ch_candidate : rf.(rstate) = candidate → (rf.(term), i, rf.(log)) ∈ B;
  ch_leader : rf.(rstate) = leader → (i, rf.(term), rf.(log)) ∈ A;
  ch_matches (v m : Z) : rf.(rstate) = leader → slice_get rf.(matchIndex) v = Some m → 0 < m →
    ∃ q, (v, rf.(term), q) ∈ A ∧ m < len q;
  ch_settled : settled n L A rf.(commitIndex) rf.(term) rf.(log)
}.

(** A vote request is of a candidate's bid. *)
Definition bid B (args : RequestVoteArgs) : Prop :=
  ∃ l e, (args.(rvElectionTerm), args.(rvCandidateID), l) ∈ B ∧ last l = Some e ∧
    args.(rvLastLogTerm) = e.(eTerm) ∧ args.(rvLastLogIndex) = len l - 1.

(** What a leader says is committed is, and is in what it sends. *)
Definition pledged n L A args : Prop :=
  args.(aeLeaderCommit) ≤ args.(aePrevLogIndex) + len args.(aeEntries) ∧
  ∀ i lg, L !! args.(aeTerm) = Some (i, lg) → settled n L A args.(aeLeaderCommit) args.(aeTerm) lg.

Definition acked A (v : Z) args : Prop :=
  ∃ q, (v, args.(aeTerm), q) ∈ A ∧ args.(aePrevLogIndex) + len args.(aeEntries) < len q.

Definition call_true n L A B (c : call Cmd) : Prop :=
  match c.(body) with
  | CRequestVote args _ _ _ => bid B args
  | CHeartbeat _ _ _ => True
  | CAppendEntries args t _ r =>
    t = args.(aeTerm) ∧ pledged n L A args ∧
    ∀ r', r = Some r' → r'.(aerSuccess) = true → acked A c.(dst) args
  end.

Definition thread_true B (g : goroutine) : Prop :=
  match g with GVote _ args _ _ => bid B args | _ => True end.

(** An applied command is committed. *)
Definition applied_ok n L A (m : ApplyMsg Cmd) : Prop :=
  ∃ t q e, chosen n L A t q ∧ slice_get q m.(amIndex) = Some e ∧ m.(amCommand) = e.(eCommand).

Record annals n V L A B w : Prop := {
  an_known : known L A;
  an_dated : dated L;
  an_elected : elected n V L A;
  an_votes v u c : (v, u, c) ∈ V → ∃ l, (u, c, l) ∈ B ∧ faithful L A v u (u + 1) l;
  an_bids u c l : (u, c, l) ∈ B → log_ok L l ∧ Forall (λ e, e.(eTerm) < u) l;
  an_bid u c l l' : (u, c, l) ∈ B → (u, c, l') ∈ B → l = l';
  an_nodes i nd : w.(nodes) !! i = Some nd → chronicle n L A B i nd.(raft);
  an_threads i nd g : w.(nodes) !! i = Some nd → g ∈ nd.(threads) → thread_true B g;
  an_calls c : c ∈ w.(calls) → call_true n L A B c;
  an_applied i m : (i, m) ∈ w.(applied) → applied_ok n L A m
}.

(** ** The invariant is monotone in the histories *)

Lemma bid_mono B B' a : B ⊆ B' → bid B a → bid B' a.
Proof. intros HB (l & e & ? & ?). exists l, e. auto. Qed.

Lemma thread_true_mono B B' g : B ⊆ B' → thread_true B g → thread_true B' g.
Proof. destruct g; simpl; eauto using bid_mono. Qed.

Lemma pledged_mono n L L' A A' args :
  extends L L' → A ⊆ A' → is_Some (L !! args.(aeTerm)) → pledged n L A args → pledged n L' A' args.
Proof.
  intros HL HA [[i lg] Hlg] [Hc Hs]. split; [done|]. intros i' lg' Hlg'.
  destruct (extends_prefix _ _ _ _ _ HL Hlg) as (lg1 & Hlg1 & Hp). simplify_eq.
  eapply settled_mono; [done..|by eapply Hs].
Qed.

Lemma acked_mono A A' v args : A ⊆ A' → acked A v args → acked A' v args.
Proof. intros HA (q & ? & ?). exists q. auto. Qed.

Lemma applied_ok_mono n L L' A A' m : extends L L' → A ⊆ A' → applied_ok n L A m → applied_ok n L' A' m.
Proof. intros HL HA (t & q & e & ? & ?). exists t, q, e. split; [by eapply chosen_mono|done]. Qed.

(** A peer that has not moved: its own acknowledgements and bids are the old
    ones. *)
Lemma chronicle_mono n L L' A A' B B' i rf :
  extends L L' → A ⊆ A' → B ⊆ B' → known L A → dated L →
  (∀ t p, (i, t, p) ∈ A' → (i, t, p) ∈ A) → (∀ u l, (u, i, l) ∈ B' → (u, i, l) ∈ B) →
  chronicle n L A B i rf → chronicle n L' A' B' i rf.
Proof.
  intros HL HA HB Hk Hd HAi HBi [Hb Hac Hf Hbi Hc Hl Hm Hs]. split; [done|by eauto| |by eauto|by auto|by auto| |].
  - apply (faithful_acks L' A A'); [by auto|]. by eapply faithful_log_mono.
  - intros v m ? ? ?. destruct (Hm v m) as (q & ? & ?); eauto.
  - by eapply settled_mono.
Qed.

(** A granted vote request is up to date. *)
Lemma RequestVote_up_to_date env a rf rf' r :
  RequestVote env a rf = Some (rf', r) → r.(rvrVote) = true →
  up_to_date a.(rvLastLogTerm) a.(rvLastLogIndex) rf.(log).
Proof.
  unfold RequestVote. case_decide; [by intros; simplify_eq|].
  set (rf1 := if decide (_ > _) then _ else _).
  assert (log rf1 = log rf) as <- by (unfold rf1; case_decide; [apply stepDown_kept|done]).
  clearbody rf1. intros (lt & Hlt & Hr)%bind_Some. case_match eqn:Hg; [|by intros; simplify_eq].
  intros _. apply andb_true_iff in Hg as [_ Hup]. unfold lastLogTermLocked, lastLogIndexLocked in *.
  apply fmap_Some in Hlt as (e & He & ->). exists e. split.
  - apply slice_get_lookup in He as [_ He]. rewrite last_lookup, <- He. f_equal. unfold len. lia.
  - apply orb_true_iff in Hup as [Hup|Hup].
    + left. by apply bool_decide_eq_true in Hup.
    + right. by apply andb_true_iff in Hup as [?%bool_decide_eq_true ?%bool_decide_eq_true].
Qed.

Lemma StartElection_bid env rf rf' gs :
  StartElection env rf = Some (rf', gs) →
  rf'.(term) = rf.(term) + 1 ∧ rf'.(rstate) ≠ follower ∧ rf'.(log) = rf.(log).
Proof.
  unfold StartElection. intros (lt & _ & Hr)%bind_Some. case_decide; [|by simplify_eq].
  apply becomeLeader_shape in Hr as (_ & _ & ? & _ & ? & Hs & _). by rewrite Hs.
Qed.

Lemma call_true_mono n L L' A A' B B' c c0 :
  extends L L' → A ⊆ A' → B ⊆ B' → c.(dst) = c0.(dst) → c.(body) = c0.(body) →
  (∀ args t rest r, c0.(body) = CAppendEntries args t rest r → is_Some (L !! args.(aeTerm))) →
  call_true n L A B c0 → call_true n L' A' B' c.
Proof.
  unfold call_true. intros HL HA HB -> -> Hsome. destruct (body c0); [by apply bid_mono|done|].
  intros (Ht & Hp & Hr). split_and!; [done| |by eauto using acked_mono].
  eapply pledged_mono; [done|done|by eapply Hsome|done].
Qed.

(** A new request pledges the leader's commit index. *)
Lemma replicateBegin_pledged n L A B i v t rf rf' args :
  chronicle n L A B i rf → (rf.(rstate) = leader → L !! rf.(term) = Some (i, rf.(log))) → rf.(log) ≠ [] →
  replicateBegin v t rf = Some (rf', Some args) →
  t = args.(aeTerm) ∧ L !! args.(aeTerm) = Some (i, rf.(log)) ∧ pledged n L A args.
Proof.
  intros Hch HL Hne. unfold replicateBegin. case_decide as Hd; [done|].
  destruct (decide (rstate rf = leader)) as [Hld|]; [|by destruct Hd; left].
  destruct (decide (term rf = t)) as [<-|]; [|by destruct Hd; right].
  intros (next & _ & ([x rf1] & H1 & (es & Hes & H2)%bind_Some)%bind_Some)%bind_Some.
  assert (1 ≤ x ∧ log rf1 = log rf ∧ term rf1 = term rf ∧ commitIndex rf1 = commitIndex rf) as (Hx & Hl & Ht & Hc).
  { case_decide; [apply bind_Some in H1 as (ni & _ & ?)|]; simplify_eq/=; split_and!; (done || lia). }
  simplify_eq/=. rewrite Ht, Hc. specialize (HL Hld). unfold slice_from in Hes. case_decide as Hr; [|done].
  injection Hes as <-. rewrite Hl in *. split_and!; [done|done|]. unfold pledged. simpl.
  rewrite HL. pose proof (ch_settled _ _ _ _ _ _ Hch) as Hs. split.
  - rewrite len_drop by lia. destruct (decide (0 < commitIndex rf)) as [Hpos|]; [|pose proof (log_len rf Hne); lia].
    destruct (Hs Hpos) as (t & q & _ & _ & Hlen & Hq). apply prefix_length in Hq.
    rewrite length_take in Hq. unfold len in *. lia.
  - by intros i' lg' [= <- <-].
Qed.

Lemma applyOne_true n m L A B i rf rf' :
  0 ≤ rf.(lastApplied) → chronicle n L A B i rf → applyOne rf = Some (rf', Some m) → applied_ok n L A m.
Proof.
  intros Hla Hch. unfold applyOne. case_decide as Hc; [done|]. case_decide as Hlen; [done|].
  simpl. intros (e & He & ?)%bind_Some. simplify_eq.
  destruct (ch_settled _ _ _ _ _ _ Hch) as (t & q & Hcm & _ & Hq & Hp); [lia|].
  destruct (slice_get_inr q (lastApplied rf + 1)) as [e' He']; [lia|]. exists t, q, e'. split_and!; [done|done|].
  simpl. rewrite <- (slice_get_take q (commitIndex rf + 1)) in He' by lia.
  apply slice_get_lookup in He' as [_ He'], He as [_ He].
  apply (prefix_lookup_Some _ _ _ _ He') in Hp. congruence.
Qed.

(** ** One step, of peer [j] *)

Section step.
Context (n : Z) (V V' : gset (Z * Z * Z)) (L L' : gmap Z (Z * list (LogEntry Cmd))).
Context (A A' B B' : list (Z * Z * list (LogEntry Cmd))).
Context (w w' : world Cmd) (lb : label Cmd) (j : Z) (nd nd' : node Cmd).
Context (Hw : world_ok n w) (Hb : ballots n V w) (Hb' : ballots n V' w').
Context (Hlogs : logs n V L w) (Hlogs' : logs n V' L' w') (Hann : annals n V L A B w).
Context (HV : V ⊆ V') (Hcast : ∀ x, x ∈ V' → x ∈ V ∨ cast w lb w' x).
Context (HL : extends L L') (Hcr : crowned L L' w') (Hs : step w lb = Done w').
Context (Hj : w.(nodes) !! j = Some nd) (Hn : w'.(nodes) = <[j := nd']> w.(nodes)) (Hrec : receives w lb j).

(** What the step adds to the histories. *)
Context (HA : A ⊆ A') (HB : B ⊆ B').
Context (HAnew : ∀ v t p, (v, t, p) ∈ A' → (v, t, p) ∈ A ∨
  v = j ∧ t = nd'.(raft).(term) ∧ ∃ i lg, L' !! t = Some (i, lg) ∧ p `prefix_of` lg).
Context (HBnew : ∀ u c l, (u, c, l) ∈ B' → (u, c, l) ∈ B ∨
  c = j ∧ u = nd.(raft).(term) + 1 ∧ l = nd.(raft).(log)).
Context (Hbid : nd'.(raft).(term) = nd.(raft).(term) + 1 → nd'.(raft).(rstate) ≠ follower →
  (nd'.(raft).(term), j, nd.(raft).(log)) ∈ B').
Context (Hwon : nd'.(raft).(rstate) = leader → L !! nd'.(raft).(term) = None →
  (nd'.(raft).(term), j, nd'.(raft).(log)) ∈ B').
Context (Hack : ∀ env args r, delivered w lb j args → AppendEntries env args nd.(raft) = (nd'.(raft), r) →
  r.(aerSuccess) = true → acked A' j args).
Context (Hch : chronicle n L' A' B' j nd'.(raft)).

Lemma step_node i ndi : w'.(nodes) !! i = Some ndi → i = j ∧ ndi = nd' ∨ i ≠ j ∧ w.(nodes) !! i = Some ndi.
Proof using All. rewrite Hn, lookup_insert_Some. naive_solver. Qed.

Lemma node_j : w'.(nodes) !! j = Some nd'.
Proof using All. by rewrite Hn, lookup_insert_eq. Qed.

(** *** Bids *)

Lemma bids_step u c l : (u, c, l) ∈ B' → log_ok L' l ∧ Forall (λ e, e.(eTerm) < u) l.
Proof using All.
  intros [Hold|(-> & -> & ->)]%HBnew.
  - destruct (an_bids _ _ _ _ _ _ Hann _ _ _ Hold). split; [by eapply log_ok_mono|done].
  - split; [eapply log_ok_mono, lo_nodes; done|].
    eapply Forall_impl; [exact (ch_bounded _ _ _ _ _ _ (an_nodes _ _ _ _ _ _ Hann _ _ Hj))|]. simpl. lia.
Qed.

Lemma bid_step u c l l' : (u, c, l) ∈ B' → (u, c, l') ∈ B' → l = l'.
Proof using All.
  assert (∀ u l, u = term (raft nd) + 1 → (u, j, l) ∈ B → False) as Hno.
  { intros u1 l1 -> H1. apply (ch_bids _ _ _ _ _ _ (an_nodes _ _ _ _ _ _ Hann _ _ Hj)) in H1. lia. }
  intros [H1|(-> & -> & ->)]%HBnew [H2|(? & ? & ->)]%HBnew; subst.
  - by eapply (an_bid _ _ _ _ _ _ Hann).
  - by destruct (Hno _ _ eq_refl H1).
  - by destruct (Hno _ _ eq_refl H2).
  - done.
Qed.

Lemma bid_positive u c l : (u, c, l) ∈ B' → 0 < u.
Proof using All.
  intros [[Hh _] Hu]%bids_step. destruct l as [|e l]; simplify_eq/=. by apply Forall_inv in Hu.
Qed.

(** *** Votes *)

(** Every vote is for a bid that has what the voter has acknowledged. *)
Lemma votes_step v u c : (v, u, c) ∈ V' → ∃ l, (u, c, l) ∈ B' ∧ faithful L A v u (u + 1) l.
Proof using All.
  intros [Hold|Hnew]%Hcast.
  { destruct (an_votes _ _ _ _ _ _ Hann _ _ _ Hold) as (l & ? & ?). exists l. auto. }
  remember (v, u, c) as x eqn:Hx.
  destruct Hnew as [i env nd0 nd1 gs _ Hi Hi' Hse|k env c0 a t m nd0 nd1 r _ Hk Hbody Hi Hi' Hrv Hg]; injection Hx as <- <- <-.
  - destruct (StartElection_bid _ _ _ _ Hse) as (Ht & Hf & Hl). destruct (step_node _ _ Hi') as [[-> ->]|[_ Hsame]].
    + rewrite Hj in Hi. injection Hi as <-. exists (log (raft nd)). split; [by apply Hbid|]. rewrite Ht.
      eapply faithful_weaken; [|exact (ch_faithful _ _ _ _ _ _ (an_nodes _ _ _ _ _ _ Hann _ _ Hj))]. lia.
    + rewrite Hi in Hsame. injection Hsame as <-. lia.
  - assert (c0 ∈ calls w) as Hc0 by (by eapply list_elem_of_lookup_2).
    pose proof (an_calls _ _ _ _ _ _ Hann c0 Hc0) as Hbd. unfold call_true in Hbd. rewrite Hbody in Hbd.
    pose proof (b_calls _ _ _ Hb c0 Hc0) as Hvc. unfold vote_call_ok in Hvc. rewrite Hbody in Hvc.
    destruct Hvc as (Ha1 & Ha2 & _). destruct Hbd as (l & e & Hin & He & Hlt & Hli).
    rewrite Ha1, Ha2 in Hin. exists l. split; [by apply HB|].
    destruct (RequestVote_granted _ _ _ _ _ Hrv Hg) as (_ & _ & Hle & _). rewrite Ha1 in Hle.
    pose proof (RequestVote_up_to_date _ _ _ _ _ Hrv Hg) as Hup. rewrite Hlt, Hli in Hup.
    pose proof (an_nodes _ _ _ _ _ _ Hann _ _ Hi) as Hchd. destruct (an_bids _ _ _ _ _ _ Hann _ _ _ Hin) as [Hlok Hu].
    intros t0 q Hh Ho Ht0. pose proof Hh as (p & Hp & _). apply (ch_acks _ _ _ _ _ _ Hchd) in Hp.
    destruct (ch_faithful _ _ _ _ _ _ Hchd t0 q Hh Ho) as [Hq|(u' & ? & ?)]; [lia| |].
    + destruct (up_to_date_has L t0 q t (log (raft nd0)) l e) as [?|(u' & ? & ?)];
        [by apply Hann|done|by eapply lo_nodes|done|done|done|done|done|by left|].
      right. exists u'. split; [lia|done].
    + right. exists u'. split; [lia|done].
Qed.

(** New acknowledgements are not older than the votes of the same peer. *)
Lemma faithful_step v u c m l : (v, u, c) ∈ V' → faithful L A v u m l → faithful L' A' v u m l.
Proof using All.
  intros Hv Hf. apply (faithful_acks L' A A').
  - intros t p [?|(-> & -> & _)]%HAnew; [by left|right].
    by destruct (st_voted _ _ _ _ _ (b_seats _ _ _ Hb' _ _ node_j) _ _ Hv).
  - eapply faithful_log_mono; [done|by apply Hann|by apply Hann|done].
Qed.

(** *** Leaders *)

Lemma leader_step t i lg : L' !! t = Some (i, lg) → L !! t = Some (i, lg) ∨
  i = j ∧ t = nd'.(raft).(term) ∧ lg = nd'.(raft).(log) ∧ nd'.(raft).(rstate) = leader.
Proof using All.
  intros Hlg. destruct (Hcr t i lg Hlg) as [?|(ndi & Hi & Hl & <- & <-)]; [by left|].
  destruct (step_node _ _ Hi) as [[-> ->]|[_ Hold]]; [by right|]. left. by eapply lo_leaders.
Qed.

Lemma elected_step : elected n V' L' A'.
Proof using All.
  assert (∀ u i lg lg', L !! u = Some (i, lg) → lg `prefix_of` lg' →
    ∃ S : gset Z, Z.of_nat (size S) > n / 2 ∧ supporters n V' u i S ∧ ∀ v, v ∈ S → faithful L' A' v u u lg') as Hold.
  { intros u i lg lg' Hlg Hp. destruct (an_elected _ _ _ _ _ _ Hann _ _ _ Hlg) as (S & HS & Hsup & Hf).
    exists S. split; [done|]. assert (supporters n V' u i S) as Hsup' by (by eapply supporters_mono).
    split; [done|]. intros v Hv. destruct (Hsup' v Hv) as [_ Hvote]. eapply faithful_step; [done|].
    intros t q Hh Ho Ht. destruct (Hf v Hv t q Hh Ho Ht); [left; by etrans|by right]. }
  intros u i lg Hlg. destruct (leader_step _ _ _ Hlg) as [Hlg0|(-> & -> & -> & Hld)]; [by eapply Hold|].
  assert (L !! term (raft nd') = None ∨ ∃ i0 lg0, L !! term (raft nd') = Some (i0, lg0)) as [E|(i0 & lg0 & E)].
  { destruct (L !! term (raft nd')) as [[]|]; eauto. }
  2: { destruct (extends_prefix _ _ _ _ _ HL E) as (lg1 & Hlg1 & Hp). rewrite Hlg in Hlg1. injection Hlg1 as <- <-.
    by eapply Hold. }
  - pose proof (st_standing _ _ _ _ _ (b_seats _ _ _ Hb' _ _ node_j)) as Hst. unfold standing in Hst.
    rewrite Hld in Hst. destruct Hst as (S & HS & Hsup). exists S. split_and!; [done|done|].
    intros v Hv. destruct (Hsup v Hv) as [_ Hvote]. destruct (votes_step _ _ _ Hvote) as (l & Hl & Hf).
    rewrite (bid_step _ _ _ _ (Hwon Hld E) Hl). eapply faithful_step; [done|].
    intros t q Hh Ho Ht. destruct (Hf t q Hh Ho Ht) as [?|(u' & Hu & (i' & lg' & Hlg' & Hno))]; [by left|].
    right. exists u'. split; [|by exists i', lg']. assert (u' ≠ term (raft nd')) by congruence. lia.
Qed.

Lemma dated_step : 0 ≤ n → dated L'.
Proof using All.
  intros Hn0 t i lg Hlg. destruct (elected_step _ _ _ Hlg) as (S & HS & Hsup & _).
  split_and!.
  - assert (S ≠ ∅) as [v Hv]%set_choose_L.
    { intros ->. rewrite size_empty in HS. pose proof (Z.div_pos n 2 Hn0 ltac:(lia)). lia. }
    destruct (Hsup v Hv) as [_ Hvote]. destruct (votes_step _ _ _ Hvote) as (l & Hl & _). by eapply bid_positive.
  - by apply (re_log _ _ _ _ _ _ _ (lo_reigns _ _ _ _ Hlogs' _ _ _ Hlg)).
  - destruct (leader_step _ _ _ Hlg) as [Hlg0|(-> & -> & -> & Hld)]; [by eapply an_dated|apply Hch].
Qed.
(** *** Calls *)

Lemma calls_step c : c ∈ w'.(calls) → call_true n L' A' B' c.
Proof using All.
  assert (∀ args, requested w args → is_Some (L !! args.(aeTerm))) as Hreq.
  { intros args Hr. destruct (lo_sent _ _ _ _ Hlogs args Hr) as (i & lg & p & Hlg & _). eauto. }
  intros Hc. destruct (step_calls _ _ _ _ Hs Hc) as [c0 Hc0 _ Hd Hbd|i ndi g Hi Hg Hmk|k env c0 nd0 nd1 Hlb Hk _ Hd Hnd Hn1 Hdel].
  - eapply (call_true_mono n L); [done..| |by apply Hann]. intros args t rest r Hb0. apply Hreq. by exists c0, t, rest, r.
  - destruct Hmk as [v ps t rf' args Hr|v a t m|v t]; [| |done].
    + destruct (wo_nodes _ _ Hw _ _ Hi) as (Hok & _ & _).
      destruct (replicateBegin_pledged n L A B i v t (raft ndi) rf' args) as (Ht & Hlg & Hp);
        [by apply Hann|by apply Hlogs|apply Hok|done|]. split_and!; [done| |done].
      eapply pledged_mono; [done|done| |done]. by eexists.
    + simpl. eapply bid_mono; [done|]. by apply (an_threads _ _ _ _ _ _ Hann _ _ _ Hi Hg).
  - assert (c0 ∈ calls w) as Hc0 by (by eapply list_elem_of_lookup_2).
    pose proof (an_calls _ _ _ _ _ _ Hann c0 Hc0) as Hold. unfold call_true in *.
    destruct (body c) as [a t m r|a t r|args t rest r] eqn:Hbc; [|done|].
    + apply deliver_request in Hdel. rewrite Hdel in Hold. by eapply bid_mono.
    + apply deliver_append in Hdel as (Hb0 & a & -> & Hae). rewrite Hb0 in Hold. destruct Hold as (Ht & Hp & _).
      split_and!; [done| |].
      * eapply pledged_mono; [done|done| |done]. apply Hreq. by eapply requested_call.
      * intros r' [= <-] Hsuc. assert (dst c = j) as Hcj by (rewrite Hd; by eapply Hrec). rewrite Hcj in *.
        rewrite Hj in Hnd. injection Hnd as <-. eapply Hack; [|rewrite Hae; f_equal|done].
        -- exists k, env, c0, t, rest. rewrite <- Hd. done.
        -- rewrite Hn in Hn1. apply (f_equal (.!! j)) in Hn1. rewrite !lookup_insert_eq in Hn1. congruence.
Qed.

Lemma threads_step i ndi g : w'.(nodes) !! i = Some ndi → g ∈ ndi.(threads) → thread_true B' g.
Proof using All.
  intros Hi Hg. destruct (step_threads _ _ _ _ _ _ Hs Hi Hg) as [Hno|(nd0 & Hi0 & [Hold|(env & gs & Hse & Hgs)])].
  - by destruct g.
  - eapply thread_true_mono; [done|]. by apply (an_threads _ _ _ _ _ _ Hann _ _ _ Hi0).
  - destruct (StartElection_bid _ _ _ _ Hse) as (Ht & Hf & Hl).
    destruct (step_node _ _ Hi) as [[-> ->]|[_ Hsame]]; [|rewrite Hi0 in Hsame; injection Hsame as <-; lia].
    rewrite Hj in Hi0. injection Hi0 as <-. specialize (Hbid Ht Hf). revert Hse Hgs.
    unfold StartElection. intros (lt & Hlt & Hr)%bind_Some. case_decide.
    + apply becomeLeader_shape in Hr as (_ & _ & _ & _ & _ & _ & _ & ->). by intros ->%list_elem_of_singleton.
    + injection Hr as Hrf <-. intros (v & -> & _)%list_elem_of_fmap.
      apply fmap_Some in Hlt as (e & He & ->). exists (log (raft nd)), e. simpl in *.
      apply slice_get_lookup in He as [_ He].
      destruct (wo_nodes _ _ Hw _ _ Hj) as (_ & Hme & _). rewrite Hme, <- Ht. split_and!; [done| |done|done].
      rewrite last_lookup, <- He. f_equal. unfold len. lia.
Qed.

Lemma applied_step i m : (i, m) ∈ w'.(applied) → applied_ok n L' A' m.
Proof using All.
  intros Hm. eapply applied_ok_mono; [done|done|].
  destruct (step_applies _ _ _ _ _ Hs Hm) as [Hold|(nd0 & rf' & Hi & Ha)]; [by eapply an_applied|].
  eapply applyOne_true; [|by eapply an_nodes|done]. by apply (wo_nodes _ _ Hw _ _ Hi).
Qed.

Lemma annals_step : 0 ≤ n → annals n V' L' A' B' w'.
Proof using All.
  intros Hn0. split.
  - intros v t p [Hold|(_ & _ & ?)]%HAnew; [|done].
    destruct (an_known _ _ _ _ _ _ Hann _ _ _ Hold) as (i & lg & Hlg & Hp).
    destruct (extends_prefix _ _ _ _ _ HL Hlg) as (lg' & Hlg' & ?). exists i, lg'. split; [done|by etrans].
  - by apply dated_step.
  - apply elected_step.
  - intros v u c Hv. destruct (votes_step _ _ _ Hv) as (l & ? & ?). exists l. split; [done|]. by eapply faithful_step.
  - apply bids_step.
  - apply bid_step.
  - intros i ndi Hi. destruct (step_node _ _ Hi) as [[-> ->]|[Hne Hold]]; [done|].
    apply (chronicle_mono n L L' A A' B B'); [done..|by apply Hann|by apply Hann| | |by apply Hann].
    + intros t p [?|(? & _)]%HAnew; done.
    + intros u l [?|(? & _)]%HBnew; done.
  - apply threads_step.
  - apply calls_step.
  - apply applied_step.
Qed.
End step.

End annals.
