(* ===== verification/RaftCompleteness.v ===== *)
(** * Leader completeness and state machine safety along executions

    The invariant of RaftAnnals.v holds after every timely and orderly step.
    From it follow the two properties a replicated state machine is built on: a
    committed entry is in the log of every later leader, and no two peers apply
    different commands at the same index. *)
From S2P Require Import Prelude RaftNode RaftLog RaftInv RaftEvolve RaftSystem RaftSafety RaftHistory RaftApply RaftReplication RaftElection RaftEvents RaftMatching RaftCommit RaftAnnals.

Section completeness.
Context {Cmd : Type} `{!Gob Cmd, !GobOk Cmd}.
Implicit Types (rf : Raft Cmd) (w : world Cmd) (V : gset (Z * Z * Z)) (n : Z).
Implicit Types (l lg p q : list (LogEntry Cmd)) (args : AppendEntriesArgs Cmd).
Implicit Types (L : gmap Z (Z * list (LogEntry Cmd))) (A B : list (Z * Z * list (LogEntry Cmd))).

(** ** The peer that moves *)

Section peer.
Context (n : Z) (L L' : gmap Z (Z * list (LogEntry Cmd))) (A B B' : list (Z * Z * list (LogEntry Cmd))).
Context (j : Z) (rf rf' : Raft Cmd).
Context (HL : extends L L') (Hknown : known L A) (Hdated : dated L) (Hch : chronicle n L A B j rf).
Context (Hterm : rf.(term) ≤ rf'.(term)).
Context (Hbids : ∀ u l, (u, j, l) ∈ B' → u ≤ rf'.(term)).

(** What [j] had acknowledged is still in its log, or was lost to a leader. *)
Lemma faithful_keeps : rf.(log) `prefix_of` rf'.(log) →
  faithful L' A j (rf'.(term) + 1) (rf'.(term) + 1) rf'.(log).
Proof using HL Hknown Hdated Hch Hterm.
  intros Hp. apply (faithful_log_mono L); [done..|]. intros t q Hh Ho _. pose proof Hh as (p & Hin & _).
  apply (ch_acks _ _ _ _ _ _ Hch) in Hin.
  destruct (ch_faithful _ _ _ _ _ _ Hch t q Hh Ho) as [?|(u & ? & ?)]; [lia|left; by etrans|].
  right. exists u. split; [lia|done].
Qed.

Lemma bounded_mono t t' l : t ≤ t' → bounded t l → bounded t' l.
Proof using. intros Ht Hl. eapply Forall_impl; [exact Hl|]. simpl. lia. Qed.

(** Nothing is acknowledged. *)
Lemma chronicle_same :
  rf'.(log) = rf.(log) → rf'.(commitIndex) = rf.(commitIndex) ∨ rf'.(commitIndex) = 0 →
  (rf'.(rstate) = candidate → (rf'.(term), j, rf.(log)) ∈ B') →
  (rf'.(rstate) = leader → rf.(rstate) = leader ∧ rf'.(term) = rf.(term) ∧ rf'.(matchIndex) = rf.(matchIndex)) →
  chronicle n L' A B' j rf'.
Proof using HL Hknown Hdated Hch Hterm Hbids.
  intros Hl Hc Hcand Hlead. pose proof Hch as [Hb Hac Hf Hbi _ Hld Hm Hs]. split.
  - rewrite Hl. by eapply bounded_mono.
  - intros t p Hin%Hac. lia.
  - apply faithful_keeps. by rewrite Hl.
  - done.
  - rewrite Hl. done.
  - intros (Hld0 & -> & _)%Hlead. rewrite Hl. by apply Hld.
  - intros v m (Hld0 & -> & ->)%Hlead. by apply Hm.
  - destruct Hc as [-> | ->]; [|by intros ?]. rewrite Hl. by eapply settled_mono.
Qed.

(** [j] leads, and acknowledges its own log. *)
Lemma chronicle_leads :
  rf'.(rstate) = leader → rf.(log) `prefix_of` rf'.(log) → bounded rf'.(term) rf'.(log) →
  rf'.(commitIndex) = rf.(commitIndex) →
  (∀ v m, slice_get rf'.(matchIndex) v = Some m → 0 < m →
     v = j ∧ m < len rf'.(log) ∨ ∃ q, (v, rf'.(term), q) ∈ A ∧ m < len q) →
  chronicle n L' ((j, rf'.(term), rf'.(log)) :: A) B' j rf'.
Proof using HL Hknown Hdated Hch Hterm Hbids.
  intros Hld Hl Hb Hc Hm. split.
  - done.
  - intros t p [Hin|Hin]%elem_of_cons; [by simplify_eq|]. apply (ch_acks _ _ _ _ _ _ Hch) in Hin. lia.
  - intros t q (p & Hin & Hq) Ho Ht. apply elem_of_cons in Hin as [Hin|Hin]; [left; by simplify_eq|].
    apply faithful_keeps; [done|by exists p|done|done].
  - done.
  - congruence.
  - intros _. left.
  - intros v m _ Hv Hpos. destruct (Hm v m Hv Hpos) as [[-> ?]|(q & ? & ?)].
    + exists (log rf'). split; [left|done].
    + exists q. split; [by right|done].
  - rewrite Hc. eapply settled_mono; [done|by intros x; right|done|done|apply Hch].
Qed.

End peer.

(** *** Counting acknowledgements *)

(** What a majority holds is committed. *)
Lemma committable_settled n L A j rf :
  node_ok n rf → rf.(me) = j → known L A → L !! rf.(term) = Some (j, rf.(log)) → (j, rf.(term), rf.(log)) ∈ A →
  (∀ v m, slice_get rf.(matchIndex) v = Some m → 0 < m → ∃ q, (v, rf.(term), q) ∈ A ∧ m < len q) →
  committable rf rf.(commitIndex) → settled n L A rf.(commitIndex) rf.(term) rf.(log).
Proof.
  intros Hok <- Hk HL Hme Hm [(e & He & Het) Hmaj] Hpos. set (N := commitIndex rf) in *.
  apply slice_get_lookup in He as [_ He]. pose proof (lookup_lt_Some _ _ _ He) as Hlen.
  set (q := take (Z.to_nat (N + 1)) (log rf)).
  assert (length q = Z.to_nat (N + 1)) as Hlq by (unfold q; rewrite length_take; lia).
  exists (term rf), q. split_and!; [|done|unfold len; lia|].
  2: { rewrite take_ge by lia. apply prefix_take. }
  split.
  { exists (me rf), (log rf), e. split_and!; [done|apply prefix_take| |done].
    rewrite last_lookup, Hlq. unfold q. rewrite lookup_take_lt by lia. rewrite <- He. f_equal. lia. }
  exists ({[me rf]} ∪ list_to_set (holders rf N)). split.
  - rewrite size_union, size_singleton, size_list_to_set.
    + rewrite (ok_peers _ _ Hok) in Hmaj. unfold len in Hmaj. lia.
    + apply NoDup_filter, NoDup_range.
    + apply disjoint_singleton_l. rewrite elem_of_list_to_set. unfold holders.
      rewrite list_elem_of_filter. intros [Hh _]. unfold holds in Hh. apply andb_true_iff in Hh as [Hh _].
      by apply bool_decide_eq_true in Hh.
  - intros v. rewrite elem_of_union, elem_of_singleton, elem_of_list_to_set. intros [->|Hv].
    { split; [apply Hok|]. exists (log rf). split; [done|apply prefix_take]. }
    unfold holders in Hv. apply list_elem_of_filter in Hv as [Hh Hr%elem_of_range].
    rewrite (ok_peers _ _ Hok) in Hr. split; [done|]. unfold holds in Hh. apply andb_true_iff in Hh as [_ Hh].
    destruct (slice_get (matchIndex rf) v) as [m|] eqn:Hv; [|done]. apply bool_decide_eq_true in Hh.
    destruct (Hm v m Hv ltac:(lia)) as (p & Hp & Hmp). exists p. split; [done|].
    destruct (Hk _ _ _ Hp) as (i & lg & Hlg & Hpre). rewrite HL in Hlg. injection Hlg as <- <-.
    destruct (prefix_weak_total q p (log rf)) as [?|Hqp]; [apply prefix_take|done|done|].
    apply prefix_length_eq in Hqp as ->; [done|]. unfold len in *. lia.
Qed.

(** *** Accepting a request *)

Lemma matchingPrefix_prefix (l es : list (LogEntry Cmd)) :
  es `prefix_of` l → matchingPrefix l es = length es.
Proof.
  intros [k ->]. induction es as [|e es IH]; simpl; [by destruct k|]. by rewrite decide_True, IH.
Qed.

(** A request that is not outdated cuts nothing the leader has. *)
Lemma accept_keeps L args rf i lg q :
  sent L args → dated L → log_ok L rf.(log) → rf.(term) ≤ args.(aeTerm) → consistent args rf →
  outdated args rf = false → L !! args.(aeTerm) = Some (i, lg) →
  q `prefix_of` lg → q `prefix_of` rf.(log) →
  q `prefix_of` merged (Z.to_nat (args.(aePrevLogIndex) + 1)) args.(aeEntries) rf.(log).
Proof.
  intros Hs Hd Hok Ht Hc Hout HL Hq Hql.
  destruct (accept_merged L args rf) as (i' & lg' & p & Hlg & Hlen & _ & Hpre & Htk & ->);
    [done|by intros ??? (_ & ? & _)%Hd|done|done|]. rewrite HL in Hlg. injection Hlg as <- <-.
  case_decide as He; [done|]. destruct (prefix_weak_total q (p ++ aeEntries args) lg) as [?|Hpq]; [done..|].
  assert (p ++ aeEntries args `prefix_of` log rf) as Hpl by (by etrans).
  destruct (decide (len (log rf) = len (p ++ aeEntries args))) as [Heq|Hne].
  { apply prefix_length_eq in Hpl as ->; [done|]. unfold len in *. lia. }
  exfalso. apply not_true_iff_false in Hout. apply Hout. destruct Hc as [Hc1 Hc2]. unfold outdated.
  rewrite !andb_true_iff, !bool_decide_eq_true. apply prefix_length in Hpl as Hle. rewrite length_app in Hle.
  unfold len in *. rewrite length_app in Hne. split_and!; [done..| | |lia].
  - destruct (aeEntries args); [done|simpl; lia].
  - apply matchingPrefix_prefix. destruct Hpl as [k Hk]. rewrite Hk, <- app_assoc.
    rewrite drop_app_ge by lia. replace (_ - length p)%nat with 0%nat by lia. by exists k.
Qed.

Section accept.
Context (n : Z) (V : gset (Z * Z * Z)) (L L' : gmap Z (Z * list (LogEntry Cmd))).
Context (A B B' : list (Z * Z * list (LogEntry Cmd))) (j : Z) (rf rf' : Raft Cmd) (args : AppendEntriesArgs Cmd).
Context (Hn0 : 0 ≤ n) (HL : extends L L') (Hk : known L A) (Hd : dated L) (Hel : elected n V L A).
Context (Hok : log_ok L rf.(log)) (Hch : chronicle n L A B j rf).
Context (Hs : sent L args) (Hpl : pledged n L A args) (Hout : outdated args rf = false).
Context (Hle : rf.(term) ≤ args.(aeTerm)) (Ht : rf'.(term) = args.(aeTerm)) (Hc : consistent args rf).
Context (Hlog : rf'.(log) = merged (Z.to_nat (args.(aePrevLogIndex) + 1)) args.(aeEntries) rf.(log)).
Context (i : Z) (lg : list (LogEntry Cmd)) (Hlg : L !! args.(aeTerm) = Some (i, lg)).

Lemma accepted_keeps q : q `prefix_of` lg → q `prefix_of` rf.(log) → q `prefix_of` rf'.(log).
Proof using All. intros Hq Hql. rewrite Hlog. by eapply (accept_keeps L). Qed.

(** The acknowledged prefix [p] of the leader's log is in the follower's. *)
Lemma accepted_prefix : ∃ p, p `prefix_of` lg ∧ p `prefix_of` rf'.(log) ∧
  len p = args.(aePrevLogIndex) + len args.(aeEntries) + 1.
Proof using All.
  destruct (accept_merged L args rf) as (i0 & lg0 & p & Hlg0 & Hlen & _ & Hpre & Htk & Hm);
    [done|by intros ??? (_ & ? & _)%Hd|done|done|]. rewrite Hlg in Hlg0. injection Hlg0 as <- <-.
  exists (p ++ aeEntries args). split_and!; [done| |unfold len in *; rewrite length_app; lia].
  rewrite Hlog, Hm. case_decide as He; [|done]. rewrite He, app_nil_r, <- Htk. apply prefix_take.
Qed.

Lemma accepted_bounded : bounded rf'.(term) rf'.(log).
Proof using All.
  destruct (accept_merged L args rf) as (i0 & lg0 & p & Hlg0 & _ & _ & Hpre & _ & Hm);
    [done|by intros ??? (_ & ? & _)%Hd|done|done|]. rewrite Ht, Hlog, Hm. case_decide.
  - eapply bounded_mono; [exact Hle|apply Hch].
  - destruct (Hd _ _ _ Hlg0) as (_ & _ & Hb). destruct Hpre as [k ->]. by apply Forall_app in Hb as [? _].
Qed.

Lemma accepted_faithful p : p `prefix_of` rf'.(log) →
  faithful L' ((j, args.(aeTerm), p) :: A) j (rf'.(term) + 1) (rf'.(term) + 1) rf'.(log).
Proof using All.
  intros Hp t q (p1 & [Hin|Hin]%elem_of_cons & Hq) Ho Htt; [simplify_eq; left; by etrans|].
  assert (held A j t q) as Hh by (by exists p1). apply (own_back L L' A j) in Ho; [|done..].
  apply (ch_acks _ _ _ _ _ _ Hch) in Hin as Hta.
  destruct (ch_faithful _ _ _ _ _ _ Hch t q Hh Ho) as [Hql|(u & Hu & Hla)]; [lia| |].
  2: { right. exists u. split; [lia|]. apply (lacks_mono L L' t); [done..|lia|done]. }
  destruct (own_decide L t q lg) as [Hqg|Hqg]; [done|done|by eapply Hd|left; by apply accepted_keeps|].
  assert (t ≠ aeTerm args) by (intros E; destruct Ho as (i1 & lg1 & e & Hlg1 & ? & _); congruence).
  right. exists (aeTerm args). split; [lia|]. apply (lacks_mono L L' t); [done..|lia|]. by exists i, lg.
Qed.

(** What was committed in the follower's log stays there. *)
Lemma accepted_settled : settled n L A rf.(commitIndex) args.(aeTerm) rf'.(log).
Proof using All.
  intros Hpos. destruct (ch_settled _ _ _ _ _ _ Hch Hpos) as (t & q & Hcm & Htq & Hlq & Hq). exists t, q.
  split_and!; [done|lia|done|]. apply accepted_keeps; [|done].
  etrans; [apply prefix_take|]. destruct (decide (t = aeTerm args)) as [E|].
  - destruct Hcm as [(i1 & lg1 & e & Hlg1 & ? & _) _]. congruence.
  - apply (completeness n V L A t q (aeTerm args) i lg); [done..|lia].
Qed.

(** What the leader says is committed is in the acknowledged prefix. *)
Lemma accepted_pledge p : p `prefix_of` lg → p `prefix_of` rf'.(log) → args.(aeLeaderCommit) < len p →
  settled n L A args.(aeLeaderCommit) args.(aeTerm) rf'.(log).
Proof using All.
  intros Hpg Hp Hlen Hpos. destruct Hpl as [_ Hpl0].
  destruct (Hpl0 i lg Hlg Hpos) as (t & q & Hcm & Htq & Hlq & Hq). exists t, q.
  split_and!; [done|done|done|]. etrans; [|exact Hp].
  destruct (prefix_weak_total _ p _ Hq Hpg) as [?|Hpq]; [done|].
  apply prefix_length_eq in Hpq as <-; [done|]. rewrite length_take. unfold len in *. lia.
Qed.

Lemma chronicle_accept :
  (∀ u l, (u, j, l) ∈ B' → u ≤ rf'.(term)) → rf'.(rstate) = follower →
  rf'.(commitIndex) = (if decide (args.(aeLeaderCommit) > rf.(commitIndex))
                       then Z.min args.(aeLeaderCommit) (lastLogIndexLocked rf')
                       else rf.(commitIndex)) →
  ∃ p, p `prefix_of` lg ∧ args.(aePrevLogIndex) + len args.(aeEntries) < len p ∧
    chronicle n L' ((j, args.(aeTerm), p) :: A) B' j rf'.
Proof using All.
  intros Hbids Hf Hci. destruct accepted_prefix as (p & Hpg & Hp & Hlen). exists p. split_and!; [done|lia|].
  assert (A ⊆ (j, aeTerm args, p) :: A) as HA by (by intros x; right).
  split; [apply accepted_bounded| |by apply accepted_faithful|done|congruence|congruence|congruence|].
  - intros t q [Hin|Hin]%elem_of_cons; [simplify_eq; lia|]. apply (ch_acks _ _ _ _ _ _ Hch) in Hin. lia.
  - pose proof (prefix_length _ _ Hp). destruct Hpl as [Hlc _]. rewrite Ht, Hci. case_decide.
    + replace (Z.min _ _) with (aeLeaderCommit args) by (unfold lastLogIndexLocked, len in *; lia).
      apply (settled_mono n L L' A _ _ (aeTerm args) _ (log rf')); [done..|]. apply (accepted_pledge p); [done|done|lia].
    + apply (settled_mono n L L' A _ _ (aeTerm args) _ (log rf')); [done..|apply accepted_settled].
Qed.
End accept.

(** *** Counting acknowledgements: the leader *)

Lemma known_mono L L' A : extends L L' → known L A → known L' A.
Proof.
  intros HL Hk v t p (i & lg & Hlg & Hp)%Hk. destruct (extends_prefix _ _ _ _ _ HL Hlg) as (lg' & Hlg' & ?).
  exists i, lg'. split; [done|by etrans].
Qed.

Lemma chronicle_counts n L L' A B j rf rf' :
  extends L L' → known L A → dated L → chronicle n L A B j rf → node_ok n rf' → rf'.(me) = j →
  rf.(rstate) = leader → rf'.(rstate) = leader → rf'.(term) = rf.(term) → rf'.(log) = rf.(log) →
  L' !! rf'.(term) = Some (j, rf'.(log)) →
  (∀ v m, slice_get rf'.(matchIndex) v = Some m → 0 < m → ∃ q, (v, rf'.(term), q) ∈ A ∧ m < len q) →
  rf'.(commitIndex) = rf.(commitIndex) ∨ committable rf' rf'.(commitIndex) →
  chronicle n L' A B j rf'.
Proof.
  intros HL Hk Hd Hch Hok Hme Hld Hld' Ht Hl HL' Hm Hc.
  assert (chronicle n L' A B j (set_commitIndex 0 (set_matchIndex rf.(matchIndex) rf'))) as [Hb Ha Hf Hbi Hca Hle _ _].
  { apply (chronicle_same n L L' A B B j rf); simpl; [done..|lia| |done|by right|congruence|done].
    rewrite Ht. by apply (ch_bids _ _ _ _ _ _ Hch). }
  split; simpl in *; try done; [by intros v m _; apply Hm|]. destruct Hc as [-> |Hc].
  - rewrite Ht, Hl. eapply settled_mono; [done..|apply Hch].
  - apply (committable_settled n L' A j); [done|done|by eapply known_mono|done|by apply Hle|done|done].
Qed.

(** *** Which request arrives *)

Lemma delivered_unique w lb j args args' : delivered w lb j args → delivered w lb j args' → args = args'.
Proof. intros (k & env & c & t & r & -> & Hk & _ & Hb) (k' & env' & c' & t' & r' & [= <- <-] & Hk' & _ & Hb'). congruence. Qed.

Lemma delivered_dec w lb j rf :
  (∃ args, delivered w lb j args ∧ rf.(term) ≤ args.(aeTerm) ∧ consistent args rf) ∨
  (∀ args, delivered w lb j args → ¬ (rf.(term) ≤ args.(aeTerm) ∧ consistent args rf)).
Proof.
  assert ((∃ args, delivered w lb j args) ∨ ∀ args, ¬ delivered w lb j args) as [[args Hd]|Hno].
  - destruct lb as [|?|?|k env|?|?|?|?|?]; try (right; intros args (? & ? & ? & ? & ? & ? & _); done).
    destruct (calls w !! k) as [c|] eqn:Hk; [|right; intros args (? & ? & ? & ? & ? & ? & ? & _); simplify_eq; congruence].
    destruct (decide (dst c = j)) as [<-|Hne];
      [|right; intros args (? & ? & ? & ? & ? & ? & ? & ? & _); simplify_eq; congruence].
    destruct (body c) as [| |args t rest [|]] eqn:Hb;
      try (right; intros args' (? & ? & ? & ? & ? & ? & ? & ? & ?); simplify_eq; congruence).
    left. by exists args, k, env, c, t, rest.
  - destruct (decide (rf.(term) ≤ args.(aeTerm) ∧ args.(aePrevLogIndex) ≤ lastLogIndexLocked rf ∧
      termAtLocked rf args.(aePrevLogIndex) = args.(aePrevLogTerm))) as [[? [? ?]]|Hn].
    + left. by exists args.
    + right. intros args' Hd'. rewrite <- (delivered_unique _ _ _ _ _ Hd Hd'). unfold consistent. tauto.
  - right. intros args Hd. by destruct (Hno args).
Qed.

Lemma delivered_step w lb w' j nd args :
  step w lb = Done w' → delivered w lb j args → w.(nodes) !! j = Some nd →
  ∃ env, w'.(nodes) = <[j := update nd (AppendEntries env args nd.(raft)).1 []]> w.(nodes).
Proof.
  intros Hs (k & env & c & t & rest & -> & Hk & <- & Hb) Hj. exists env. simpl in Hs.
  rewrite Hk in Hs. simpl in Hs. rewrite Hj in Hs. simpl in Hs. rewrite Hb in Hs. simpl in Hs.
  by destruct (AppendEntries env args (raft nd)); simplify_eq/=.
Qed.

(** A reply that accepts is the answer to a consistent request. *)
Lemma AppendEntries_success env args rf rf' r :
  0 ≤ args.(aePrevLogIndex) → AppendEntries env args rf = (rf', r) → r.(aerSuccess) = true →
  rf.(term) ≤ args.(aeTerm) ∧ consistent args rf.
Proof.
  intros Hp Hr Hs. destruct (decide (aeTerm args < term rf)) as [|Ht].
  { rewrite AppendEntries_reject_old in Hr by done. by simplify_eq. }
  split; [lia|]. destruct (decide (args.(aePrevLogIndex) ≤ lastLogIndexLocked rf ∧
    termAtLocked rf args.(aePrevLogIndex) = args.(aePrevLogTerm))) as [|Hn]; [done|]. exfalso.
  destruct (AppendEntries_reject env args rf) as (rf1 & r1 & Hr1 & _ & _ & _ & _ & ->); [lia|done|done|].
  rewrite Hr in Hr1. simplify_eq. by case_decide.
Qed.

(** ** Every timely and orderly step *)

Section turn.
Context (n : Z) (V V' : gset (Z * Z * Z)) (L L' : gmap Z (Z * list (LogEntry Cmd))).
Context (A B : list (Z * Z * list (LogEntry Cmd))).
Context (w w' : world Cmd) (lb : label Cmd) (j : Z) (nd nd' : node Cmd).
Context (Hn0 : 0 ≤ n) (Hw : world_ok n w) (Hw' : world_ok n w') (Hb : ballots n V w) (Hb' : ballots n V' w').
Context (Hlogs : logs n V L w) (Hlogs' : logs n V' L' w') (Hann : annals n V L A B w).
Context (HV : V ⊆ V') (Hcast : ∀ x, x ∈ V' → x ∈ V ∨ cast w lb w' x).
Context (HL : extends L L') (Hcr : crowned L L' w') (Hs : step w lb = Done w').
Context (Hj : w.(nodes) !! j = Some nd) (Hn : w'.(nodes) = <[j := nd']> w.(nodes)) (Hrec : receives w lb j).
Context (Hterm : nd.(raft).(term) ≤ nd'.(raft).(term)).

Definition advances : Prop := ∃ A' B', A ⊆ A' ∧ B ⊆ B' ∧ annals n V' L' A' B' w'.

Lemma chronicle_j : chronicle n L A B j nd.(raft).
Proof using Hann Hj. by eapply an_nodes. Qed.

Lemma leads_j : nd.(raft).(rstate) = leader → L !! nd.(raft).(term) = Some (j, nd.(raft).(log)).
Proof using Hlogs Hj. by eapply lo_leaders. Qed.

Lemma leads_j' : nd'.(raft).(rstate) = leader → L' !! nd'.(raft).(term) = Some (j, nd'.(raft).(log)).
Proof using Hlogs' Hn. eapply lo_leaders; [done|]. by rewrite Hn, lookup_insert_eq. Qed.

Lemma bids_j u l : (u, j, l) ∈ B → u ≤ nd'.(raft).(term).
Proof using Hann Hj Hterm. intros Hu%(ch_bids _ _ _ _ _ _ chronicle_j). lia. Qed.

(** No request is accepted. *)
Section other.
Context (Hno : ∀ args, delivered w lb j args → ¬ (nd.(raft).(term) ≤ args.(aeTerm) ∧ consistent args nd.(raft))).

Lemma no_ack env args r : delivered w lb j args → AppendEntries env args nd.(raft) = (nd'.(raft), r) →
  r.(aerSuccess) = true → False.
Proof using Hlogs Hno.
  intros Hd Hr Hsuc. apply (Hno args Hd).
  destruct (lo_sent _ _ _ _ Hlogs args) as (i & lg & p & _ & Hp & _); [by eapply delivered_requested|].
  by eapply AppendEntries_success.
Qed.

(** Nothing is added to the histories. *)
Lemma advance_same :
  chronicle n L' A B j nd'.(raft) →
  (nd'.(raft).(rstate) ≠ follower → nd'.(raft).(term) = nd.(raft).(term)) →
  (nd'.(raft).(rstate) = leader → nd.(raft).(rstate) = leader) → advances.
Proof using All.
  intros Hch Hsame Hld. exists A, B. split_and!; [done..|].
  apply (annals_step n V V' L L' A A B B w w' lb j nd nd'); try done.
  - by left.
  - by left.
  - intros Ht Hf. specialize (Hsame Hf). lia.
  - intros Hl HN. rewrite Hsame, leads_j in HN; [done|auto|congruence].
  - intros env args r Hd Hr Hsuc. by destruct (no_ack env args r).
Qed.

(** [j] runs for a new term. *)
Lemma advance_bid :
  let B' := (nd'.(raft).(term), j, nd.(raft).(log)) :: B in
  chronicle n L' A B' j nd'.(raft) → nd'.(raft).(term) = nd.(raft).(term) + 1 →
  nd'.(raft).(rstate) ≠ leader → advances.
Proof using All.
  intros B' Hch Ht Hl. exists A, B'. split_and!; [done|by intros x; right|].
  apply (annals_step n V V' L L' A A B B' w w' lb j nd nd'); try done.
  - by intros x; right.
  - by left.
  - intros u c l [?|?]%elem_of_cons; [right; by simplify_eq|by left].
  - intros _ _. left.
  - intros env args r Hd Hr Hsuc. by destruct (no_ack env args r).
Qed.

(** [j] leads with the log it now has. *)
Lemma advance_leads B' :
  let A' := (j, nd'.(raft).(term), nd'.(raft).(log)) :: A in
  B ⊆ B' → (∀ u c l, (u, c, l) ∈ B' → (u, c, l) ∈ B ∨ c = j ∧ u = nd.(raft).(term) + 1 ∧ l = nd.(raft).(log)) →
  chronicle n L' A' B' j nd'.(raft) → nd'.(raft).(rstate) = leader →
  (nd'.(raft).(term) = nd.(raft).(term) + 1 → (nd'.(raft).(term), j, nd.(raft).(log)) ∈ B') →
  (L !! nd'.(raft).(term) = None → (nd'.(raft).(term), j, nd'.(raft).(log)) ∈ B') → advances.
Proof using All.
  intros A' HB HBnew Hch Hld Hbid Hwon. exists A', B'. split_and!; [by intros x; right|done|].
  apply (annals_step n V V' L L' A A' B B' w w' lb j nd nd'); try done; try by auto.
  - by intros x; right.
  - intros v t p [?|?]%elem_of_cons; [|by left]. simplify_eq. right. split_and!; [done..|].
    exists j, (log (raft nd')). split; [by apply leads_j'|done].
  - intros env args r Hd Hr Hsuc. by destruct (no_ack env args r).
Qed.
Lemma known_j : known L A ∧ dated L.
Proof using Hann. split; by apply Hann. Qed.

Lemma advance_won :
  nd'.(raft).(rstate) = leader →
  nd'.(raft).(term) = nd.(raft).(term) + 1 ∨ nd'.(raft).(term) = nd.(raft).(term) ∧ nd.(raft).(rstate) = candidate →
  nd'.(raft).(log) = nd.(raft).(log) → nd'.(raft).(commitIndex) = nd.(raft).(commitIndex) →
  nd'.(raft).(matchIndex) = <[Z.to_nat nd.(raft).(me) := lastLogIndexLocked nd.(raft)]>
                              (replicate (length nd.(raft).(peers)) 0) → advances.
Proof using All.
  intros Hld Ht Hl Hc Hm. destruct known_j as [Hk Hd]. destruct (wo_nodes _ _ Hw _ _ Hj) as (Hok & Hme & _).
  assert (∀ B', (∀ u l, (u, j, l) ∈ B' → u ≤ nd'.(raft).(term)) →
    chronicle n L' ((j, nd'.(raft).(term), nd'.(raft).(log)) :: A) B' j nd'.(raft)) as Hch.
  { intros B' HB'. apply (chronicle_leads n L L' A B B' j (raft nd)); try done.
    - apply chronicle_j.
    - by rewrite Hl.
    - rewrite Hl. eapply bounded_mono; [exact Hterm|apply chronicle_j].
    - intros v m. rewrite Hm. intros Hv Hpos. left. pose proof (ok_me _ _ Hok) as Hmer.
      destruct (decide (v = me (raft nd))) as [->|Hne].
      + split; [done|]. rewrite slice_get_insert_eq in Hv.
        2: { unfold len. rewrite length_replicate. pose proof (ok_peers _ _ Hok). unfold len in *. lia. }
        injection Hv as <-. unfold lastLogIndexLocked. rewrite Hl. lia.
      + rewrite slice_get_insert_ne in Hv by (done || lia). apply slice_get_replicate in Hv as [? _]. lia. }
  destruct Ht as [Ht|[Ht Hca]].
  - apply (advance_leads ((nd'.(raft).(term), j, nd.(raft).(log)) :: B)); [by intros x; right| |apply Hch|done|..].
    + intros u c l [?|?]%elem_of_cons; [right; by simplify_eq|by left].
    + intros u l [?|?]%elem_of_cons; [by simplify_eq|by eapply bids_j].
    + intros _. left.
    + intros _. rewrite Hl. left.
  - apply (advance_leads B); [done|by left|apply Hch, bids_j|done|lia|].
    intros _. rewrite Ht, Hl. by apply chronicle_j.
Qed.

Lemma advance_start command :
  nd'.(raft).(term) = nd.(raft).(term) → nd.(raft).(rstate) = leader → nd'.(raft).(rstate) = leader →
  nd'.(raft).(log) = nd.(raft).(log) ++ [mkEntry nd.(raft).(term) (Some command)] →
  nd'.(raft).(commitIndex) = nd.(raft).(commitIndex) →
  nd'.(raft).(matchIndex) = <[Z.to_nat nd.(raft).(me) := lastLogIndexLocked nd'.(raft)]> nd.(raft).(matchIndex) →
  advances.
Proof using All.
  intros Ht Hld Hld' Hl Hc Hm. destruct known_j as [Hk Hd]. destruct (wo_nodes _ _ Hw _ _ Hj) as (Hok & Hme & _).
  apply (advance_leads B); [done|by left| |done|lia|rewrite Ht, leads_j; done].
  apply (chronicle_leads n L L' A B B j (raft nd)); try done.
  - apply chronicle_j.
  - apply bids_j.
  - rewrite Hl. by eexists.
  - rewrite Hl. apply Forall_app. split; [rewrite Ht; apply chronicle_j|]. repeat constructor. simpl. lia.
  - intros v m. rewrite Hm. intros Hv Hpos. pose proof (ok_me _ _ Hok) as Hmer.
    destruct (decide (v = me (raft nd))) as [->|Hne].
    + left. split; [done|]. rewrite slice_get_insert_eq in Hv by (rewrite (ok_match_len _ _ (ok_leader _ _ Hok Hld)); lia).
      injection Hv as <-. unfold lastLogIndexLocked. lia.
    + right. rewrite slice_get_insert_ne in Hv by (done || lia). rewrite Ht. by apply (ch_matches _ _ _ _ _ _ chronicle_j).
Qed.

Lemma advance_acked v args r :
  returned w lb v nd.(raft).(term) args r → r.(aerSuccess) = true →
  nd.(raft).(rstate) = leader → nd'.(raft).(rstate) = leader → nd'.(raft).(term) = nd.(raft).(term) →
  nd'.(raft).(log) = nd.(raft).(log) →
  nd'.(raft).(matchIndex) = nd.(raft).(matchIndex) ∨
    0 ≤ v ∧ nd'.(raft).(matchIndex) = <[Z.to_nat v := args.(aePrevLogIndex) + len args.(aeEntries)]> nd.(raft).(matchIndex) →
  nd'.(raft).(commitIndex) = nd.(raft).(commitIndex) ∨ committable nd'.(raft) nd'.(raft).(commitIndex) → advances.
Proof using All.
  intros (k & env & c & rest & _ & Hk & <- & Hbd) Hsuc Hld Hld' Ht Hl Hm Hc. destruct known_j as [Hkn Hd].
  assert (nodes w' !! j = Some nd') as Hj' by (by rewrite Hn, lookup_insert_eq).
  destruct (wo_nodes _ _ Hw' _ _ Hj') as (Hok' & Hme' & _).
  pose proof (an_calls _ _ _ _ _ _ Hann c ltac:(by eapply list_elem_of_lookup_2)) as Hct. unfold call_true in Hct.
  rewrite Hbd in Hct. destruct Hct as (Htt & _ & Hr). destruct (Hr r eq_refl Hsuc) as (q & Hq & Hlq).
  apply advance_same; [|done|done]. apply (chronicle_counts n L L' A B j (raft nd)); try done.
  - apply chronicle_j.
  - by apply leads_j'.
  - rewrite Ht. intros v m Hv Hpos. destruct Hm as [Hm|[H0 Hm]]; rewrite Hm in Hv.
    { by apply (ch_matches _ _ _ _ _ _ chronicle_j). }
    destruct (decide (v = dst c)) as [->|Hne].
    + pose proof (slice_get_bound _ _ _ Hv) as Hbnd. rewrite len_insert in Hbnd.
      rewrite slice_get_insert_eq in Hv by done. injection Hv as <-. exists q. by rewrite Htt.
    + rewrite slice_get_insert_ne in Hv by done. by apply (ch_matches _ _ _ _ _ _ chronicle_j).
Qed.

Lemma advance_event : log_event (delivered w lb j) (returned w lb) nd.(raft) nd'.(raft) → advances.
Proof using All.
  destruct known_j as [Hk Hd].
  intros [[_ Hst] (Hl & Hc & Hm)|Ht Hf Hl Hc|Ht Hca (Hl & Hc & _)|Hld Ht Hl Hc Hm|command Ht Hld0 Hld Hl Hc Hm|
    args Hdl Hle _ _ Hcon _ _|v args r Hr Hsuc Hld0 Hld Ht Hl Hm Hc].
  - apply advance_same; [|by apply Hst|intros Hld; destruct Hst; congruence].
    apply (chronicle_same n L L' A B B j (raft nd)); try done; [apply chronicle_j|apply bids_j|by left|..].
    + intros Hca. destruct Hst as [Hs0 ->]; [congruence|]. apply chronicle_j. congruence.
    + intros Hld. destruct Hst as [Hs0 Ht0]; [congruence|]. split_and!; [congruence|done|by apply Hm].
  - apply advance_same; [|done|congruence].
    apply (chronicle_same n L L' A B B j (raft nd)); try done; [apply chronicle_j|apply bids_j|by right|congruence..].
  - apply advance_bid; [|done|congruence].
    apply (chronicle_same n L L' A B _ j (raft nd)); try done; [apply chronicle_j| |by left|by left|congruence].
    intros u l [?|?]%elem_of_cons; [by simplify_eq|by eapply bids_j].
  - by apply advance_won.
  - by eapply advance_start.
  - by destruct (Hno args Hdl).
  - by eapply advance_acked.
Qed.
End other.

(** A request is accepted. *)
Lemma advance_accept args :
  delivered w lb j args → nd.(raft).(term) ≤ args.(aeTerm) → consistent args nd.(raft) → orderly w lb = true →
  advances.
Proof using All.
  intros Hdl Hle Hcon Hord. destruct known_j as [Hk Hd]. pose proof Hdl as (k & env0 & c & t & rest & Hlb & Hck & Hdst & Hbd).
  assert (outdated args (raft nd) = false) as Hout.
  { rewrite Hlb in Hord. simpl in Hord. rewrite Hck, Hbd, Hdst, Hj in Hord. by apply negb_true_iff in Hord. }
  pose proof (lo_sent _ _ _ _ Hlogs args (delivered_requested _ _ _ _ Hdl)) as Hsent.
  pose proof Hsent as (_ & _ & _ & _ & Hprev & _).
  pose proof (an_calls _ _ _ _ _ _ Hann c ltac:(by eapply list_elem_of_lookup_2)) as Hct. unfold call_true in Hct.
  rewrite Hbd in Hct. destruct Hct as (_ & Hpl & _).
  destruct (delivered_step w lb w' j nd args) as [env Hn1]; [done..|].
  destruct (AppendEntries_accept env args (raft nd)) as (rf' & Hae & Hl & Ht & Hf & Hc); [done..|].
  assert (raft nd' = rf') as Hrf.
  { rewrite Hn in Hn1. apply (f_equal (.!! j)) in Hn1. rewrite !lookup_insert_eq in Hn1.
    injection Hn1 as ->. simpl. by rewrite Hae. }
  rewrite <- Hrf in *.
  pose proof Hsent as (i & lg & _ & Hlg & _).
  destruct (chronicle_accept n V L L' A B B j (raft nd) (raft nd') args) with i lg as (p & Hp & Hlen & Hch);
    [done|done|done|done|by apply Hann|by eapply lo_nodes|apply chronicle_j|done..|apply bids_j|done|done|].
  exists ((j, aeTerm args, p) :: A), B. split_and!; [by intros x; right|done|].
  apply (annals_step n V V' L L' A _ B B w w' lb j nd nd'); try done.
  - by intros x; right.
  - intros v u q [?|?]%elem_of_cons; [|by left]. simplify_eq. right. split_and!; [done..|].
    destruct (extends_prefix _ _ _ _ _ HL Hlg) as (lg' & Hlg' & ?). exists i, lg'. split; [done|by etrans].
  - by left.
  - congruence.
  - intros env1 args1 r1 Hdl1 _ _. rewrite <- (delivered_unique _ _ _ _ _ Hdl Hdl1). exists p. split; [left|done].
Qed.
End turn.

Lemma step_annals n V V' L L' A B w lb w' :
  world_ok n w → ballots n V w → ballots n V' w' → logs n V L w → logs n V' L' w' → annals n V L A B w →
  V ⊆ V' → (∀ x, x ∈ V' → x ∈ V ∨ cast w lb w' x) → extends L L' → crowned L L' w' →
  timely w lb = true → orderly w lb = true → step w lb = Done w' →
  ∃ A' B', A ⊆ A' ∧ B ⊆ B' ∧ annals n V' L' A' B' w'.
Proof.
  intros Hw Hb Hb' Hlogs Hlogs' Hann HV Hcast HL Hcr Htl Hord Hs.
  assert (world_ok n w') as Hw' by (pose proof (step_ok n w lb Hw) as Hok; by rewrite Hs in Hok).
  destruct (step_acts n true w lb w' Hw Hs) as (j & nd & nd' & Hj & Hn & Hrec & Hstep); [done|].
  pose proof (wo_nodes _ _ Hw _ _ Hj) as (Hok & _ & _).
  assert (0 ≤ n) as Hn0 by (assert (peer_ok n j) as [? ?] by (by apply (wo_dom _ _ Hw); eauto); lia).
  pose proof (node_step_term _ _ _ _ _ _ _ Hok Hstep) as Hterm.
  destruct (delivered_dec w lb j (raft nd)) as [(args & Hdl & Hle & Hcon)|Hno].
  - by apply (advance_accept n V V' L L' A B w w' lb j nd nd' Hn0) with args.
  - apply (advance_event n V V' L L' A B w w' lb j nd nd'); try done.
    apply (node_step_event n) in Hstep; [done|done|]. intros args Hargs%delivered_requested.
    by destruct (lo_sent _ _ _ _ Hlogs args Hargs) as (? & ? & ? & _ & ? & _).
Qed.

(** *** Executions *)

(** The whole invariant. *)
Definition chronicled n V L A B w : Prop :=
  world_ok n w ∧ ballots n V w ∧ logs n V L w ∧ annals n V L A B w.

Lemma init_chronicled env (ends : list string) : chronicled (len ends) ∅ ∅ [] [] (init env ends).
Proof.
  split_and!; [apply init_ok|apply init_ballots|apply init_logs|]. split.
  - intros v t p Hin. by apply not_elem_of_nil in Hin.
  - intros t i lg H. by rewrite lookup_empty in H.
  - intros t i lg H. by rewrite lookup_empty in H.
  - intros v u c H. by apply not_elem_of_empty in H.
  - intros u c l Hin. by apply not_elem_of_nil in Hin.
  - intros u c l l' Hin. by apply not_elem_of_nil in Hin.
  - intros i nd [_ ->]%init_lookup. split; simpl; try done.
    + by repeat constructor.
    + intros t p Hin. by apply not_elem_of_nil in Hin.
    + intros t q (p & Hin & _). by apply not_elem_of_nil in Hin.
    + intros u l Hin. by apply not_elem_of_nil in Hin.
  - intros i nd g [_ ->]%init_lookup Hg. by apply not_elem_of_nil in Hg.
  - intros c Hc. by apply not_elem_of_nil in Hc.
  - intros i m Hm. by apply not_elem_of_nil in Hm.
Qed.

Lemma orderly_chronicled n V L A B w w' :
  orderly_steps w w' → chronicled n V L A B w →
  ∃ V' L' A' B', extends L L' ∧ A ⊆ A' ∧ chronicled n V' L' A' B' w'.
Proof.
  intros Hs. revert V L A B. induction Hs as [w|w1 w2 w3 (lb & Htl & Hord & Hl) _ IH]; intros V L A B Hr.
  { exists V, L, A, B. split_and!; [apply extends_refl|done|done]. }
  destruct Hr as (Hw & Hb & Hlg & Ha).
  destruct (step_ballots n V w1 lb w2) as (V1 & HV & Hcast & Hb1); [done..|].
  destruct (step_logs n V V1 L w1 lb w2) as (L1 & HL & Hcr & Hlg1); [done..|].
  destruct (step_annals n V V1 L L1 A B w1 lb w2) as (A1 & B1 & HA & _ & Ha1); [done..|].
  destruct (IH V1 L1 A1 B1) as (V2 & L2 & A2 & B2 & HL2 & HA2 & Hr2).
  { split_and!; [|done..]. pose proof (step_ok n w1 lb Hw) as Hok. by rewrite Hl in Hok. }
  exists V2, L2, A2, B2. split_and!; [by eapply extends_trans|set_solver|done].
Qed.

Lemma applied_agree env (ends : list string) w i1 m1 i2 m2 :
  orderly_steps (init env ends) w →
  (i1, m1) ∈ w.(applied) → (i2, m2) ∈ w.(applied) → m1.(amIndex) = m2.(amIndex) →
  m1.(amCommand) = m2.(amCommand).
Proof.
  intros Hs H1 H2 Hidx.
  destruct (orderly_chronicled _ _ _ _ _ _ _ Hs (init_chronicled env ends)) as (V & L & A & B & _ & _ & (_ & _ & _ & Ha)).
  destruct (an_applied _ _ _ _ _ _ Ha _ _ H1) as (t1 & q1 & e1 & Hc1 & He1 & ->).
  destruct (an_applied _ _ _ _ _ _ Ha _ _ H2) as (t2 & q2 & e2 & Hc2 & He2 & ->).
  rewrite Hidx in He1. apply slice_get_lookup in He1 as [_ He1], He2 as [_ He2].
  destruct (chosen_agree (len ends) V L A t1 q1 t2 q2) as [Hp|Hp]; [apply len_nonneg|by apply Ha|done|done|..].
  - apply (prefix_lookup_Some _ _ _ _ He1) in Hp. congruence.
  - apply (prefix_lookup_Some _ _ _ _ He2) in Hp. congruence.
Qed.

(** ** Theorems *)

(** C4. Leader completeness: in every timely and orderly execution, the log up
    to an index a peer has committed is in the log of every peer that leads a
    later term, then or at any later time. *)
Theorem leader_completeness env (ends : list string) w1 w2 i j nd1 nd2 k :
  orderly_steps (init env ends) w1 → orderly_steps w1 w2 →
  w1.(nodes) !! i = Some nd1 → w2.(nodes) !! j = Some nd2 →
  0 < k ≤ nd1.(raft).(commitIndex) →
  nd2.(raft).(rstate) = leader → nd1.(raft).(term) < nd2.(raft).(term) →
  len (take (Z.to_nat (k + 1)) nd1.(raft).(log)) = k + 1 ∧
  take (Z.to_nat (k + 1)) nd1.(raft).(log) `prefix_of` nd2.(raft).(log).
Proof.
  intros Hs1 Hs2 Hi Hj Hk Hld Ht.
  destruct (orderly_chronicled _ _ _ _ _ _ _ Hs1 (init_chronicled env ends)) as (V1 & L1 & A1 & B1 & _ & _ & Hr1).
  destruct (orderly_chronicled _ _ _ _ _ _ _ Hs2 Hr1) as (V2 & L2 & A2 & B2 & HL & HA & (_ & _ & Hlg2 & Ha2)).
  destruct Hr1 as (_ & _ & _ & Ha1).
  destruct (ch_settled _ _ _ _ _ _ (an_nodes _ _ _ _ _ _ Ha1 _ _ Hi)) as (t & q & Hcm & Htt & Hlq & Hq); [lia|].
  assert (q `prefix_of` log (raft nd2)) as Hq2.
  { apply (completeness (len ends) V2 L2 A2 t q (term (raft nd2)) j);
      [apply len_nonneg|by apply Ha2|by eapply chosen_mono|by apply Hlg2|lia]. }
  assert (take (Z.to_nat (k + 1)) (log (raft nd1)) = take (Z.to_nat (k + 1)) q) as ->.
  { rewrite (take_prefix_of (take (Z.to_nat (commitIndex (raft nd1) + 1)) q)); [|rewrite length_take; unfold len in *; lia|done].
    rewrite take_take. f_equal. lia. }
  split; [rewrite len_take; lia|]. etrans; [apply prefix_take|done].
Qed.

(** C3. State machine safety: in every timely and orderly execution, two peers
    that apply a command at the same index apply the same command, whatever
    the order in which they do it and however often they crash. *)
Theorem state_machine_safety env (ends : list string) w i1 m1 i2 m2 :
  orderly_steps (init env ends) w →
  (i1, m1) ∈ w.(applied) → (i2, m2) ∈ w.(applied) → m1.(amIndex) = m2.(amIndex) →
  m1.(amCommand) = m2.(amCommand).
Proof. apply applied_agree. Qed.

End completeness.
