(* ===== verification/RaftAgreement.v ===== *)
(** * The tester's reader never stops a Raft cluster

    config.go checks, at every message on an apply channel, that the command is
    an integer, that the peer has applied the previous index and that no other
    peer has applied a different command at this index; a violation ends the
    program.  In every timely and orderly execution none of the three happens.
    The last is state machine safety, the second RaftApply.v; for the first,
    every log holds a command at every index after the dummy entry. *)
From S2P Require Import Prelude RaftNode RaftLog RaftInv RaftEvolve RaftSystem RaftSafety RaftHistory RaftApply RaftReplication RaftElection RaftEvents RaftMatching RaftCommit RaftAnnals RaftCompleteness.

(** ** Logs hold commands *)

Section filled.
Context {Cmd : Type} `{!Gob Cmd, !GobOk Cmd}.
Implicit Types (rf : Raft Cmd) (w : world Cmd) (l es : list (LogEntry Cmd)) (n : Z).

Definition command_ok (e : LogEntry Cmd) : Prop := is_Some e.(eCommand).

Definition filled l : Prop := Forall command_ok (drop 1 l).

Lemma filled_merged s es l : (1 ≤ s)%nat → filled l → Forall command_ok es → filled (merged s es l).
Proof.
  intros Hs Hl Hes. unfold merged, filled in *. case_decide; [done|]. set (k := matchingPrefix _ _).
  destruct l as [|e l]; simpl in *; [rewrite take_nil; simpl; by apply Forall_drop, Forall_drop|].
  destruct s as [|s]; [lia|]. simpl. apply Forall_app. split; [by apply Forall_take|by apply Forall_drop].
Qed.

Record stocked w : Prop := {
  sk_nodes i nd : w.(nodes) !! i = Some nd → filled nd.(raft).(log);
  sk_requests args : requested w args → Forall command_ok args.(aeEntries);
  sk_applied i m : (i, m) ∈ w.(applied) → is_Some m.(amCommand) ∧ m.(amUseSnapshot) = false
}.

Lemma applyOne_command rf rf' m :
  0 ≤ rf.(lastApplied) → filled rf.(log) → applyOne rf = Some (rf', Some m) →
  is_Some m.(amCommand) ∧ m.(amUseSnapshot) = false.
Proof.
  intros Hla Hl. unfold applyOne. case_decide; [done|]. case_decide; [done|]. simpl.
  intros (e & [_ He]%slice_get_lookup & ?)%bind_Some. simplify_eq/=. split; [|done].
  assert (drop 1 (log rf) !! Z.to_nat (lastApplied rf) = Some e) as Hd.
  { rewrite lookup_drop, <- He. f_equal. lia. }
  exact (Forall_lookup_1 _ _ _ _ Hl Hd).
Qed.

Lemma replicateBegin_commands p t rf rf' args :
  filled rf.(log) → replicateBegin p t rf = Some (rf', Some args) → Forall command_ok args.(aeEntries).
Proof.
  intros Hl. unfold replicateBegin. case_decide; [done|].
  intros (next & _ & ([x rf1] & H1 & (es & Hes & H2)%bind_Some)%bind_Some)%bind_Some.
  assert (1 ≤ x ∧ log rf1 = log rf) as (Hx & Hlog).
  { case_decide; [apply bind_Some in H1 as (ni & _ & ?)|]; simplify_eq/=; split; (done || lia). }
  simplify_eq/=. unfold slice_from in Hes. case_decide; [|done]. injection Hes as <-. rewrite Hlog.
  replace (Z.to_nat x) with (1 + (Z.to_nat x - 1))%nat by lia. rewrite <- drop_drop. by apply Forall_drop.
Qed.

Lemma log_event_filled (arrives : AppendEntriesArgs Cmd → Prop) answers rf rf' :
  filled rf.(log) → rf.(log) ≠ [] →
  (∀ args, arrives args → 0 ≤ args.(aePrevLogIndex) ∧ Forall command_ok args.(aeEntries)) →
  log_event arrives answers rf rf' → filled rf'.(log).
Proof.
  intros Hl Hne Ha. destruct 1 as [_ (-> & _)|_ _ ->|_ _ (-> & _)|_ _ ->|command _ _ _ ->|args Hin _ _ _ _ ->|??? _ _ _ _ _ ->]; try done.
  - unfold filled in *. destruct (log rf); [done|]. simpl in *. rewrite drop_0 in *. apply Forall_app. split; [done|].
    apply Forall_singleton. by eexists.
  - destruct (Ha args Hin). apply filled_merged; [lia|done|done].
Qed.

Lemma step_stocked n V L w lb w' :
  world_ok n w → logs n V L w → timely w lb = true → step w lb = Done w' → stocked w → stocked w'.
Proof.
  intros Hw Hlg Htl Hs [Hn Hr Ha]. split.
  - destruct (step_acts n true w lb w' Hw Hs) as (j & nd & nd' & Hj & Hnd & _ & Hstep); [done|].
    pose proof (wo_nodes _ _ Hw _ _ Hj) as (Hok & _ & _).
    assert (∀ args, delivered w lb j args → 0 ≤ args.(aePrevLogIndex) ∧ Forall command_ok args.(aeEntries)) as Hdel.
    { intros args Hd%delivered_requested. split; [|by apply Hr].
      by destruct (lo_sent _ _ _ _ Hlg args Hd) as (? & ? & ? & _ & ? & _). }
    apply (node_step_event n) in Hstep; [|done|by intros args [? _]%Hdel].
    intros i ndi. rewrite Hnd, lookup_insert_Some. intros [[<- <-]|[_ Hi]]; [|by eapply Hn].
    eapply log_event_filled; [by eapply Hn|apply Hok|exact Hdel|done].
  - intros args Hargs. destruct (step_requested _ _ _ _ Hs Hargs) as [?|(i & nd & p & t & rf & Hi & Hb)]; [by apply Hr|].
    eapply replicateBegin_commands; [|done]. by eapply Hn.
  - intros i m Hm. destruct (step_applies _ _ _ _ _ Hs Hm) as [?|(nd & rf & Hi & Hap)]; [by eapply Ha|].
    eapply applyOne_command; [|by eapply Hn|done]. by apply (wo_nodes _ _ Hw _ _ Hi).
Qed.

Lemma orderly_timely_steps w w' : orderly_steps w w' → timely_steps w w'.
Proof. apply rtc_subrel. intros w1 w2 (lb & ? & _ & ?). by exists lb. Qed.

Lemma timely_stocked env (ends : list string) w : timely_steps (init env ends) w → stocked w.
Proof.
  intros Hs. assert (stocked w ∧ timely_steps (init env ends) w) as [? _]; [|done].
  revert w Hs. apply (rtc_ind_r (λ w, stocked w ∧ timely_steps (init env ends) w)).
  - split; [|done]. split.
    + intros i nd [_ ->]%init_lookup. unfold filled. simpl. constructor.
    + intros args (c & ? & ? & ? & Hc & _). by apply elem_of_nil in Hc.
    + intros i m Hm. by apply elem_of_nil in Hm.
  - intros w1 w2 _ (lb & Htl & Hl) [Hk Hs].
    destruct (timely_steps_logs env ends w1 Hs) as (Hw & V & L & _ & Hlg).
    split; [by eapply step_stocked|]. eapply rtc_r; [done|by exists lb].
Qed.
End filled.

(** ** The readers *)

Section readers.
Context `{!Gob Z, !GobOk Z}.

(** What the readers have chronicled was applied. *)
Definition sound (logs : list (gmap Z Z)) (ms : list (Z * ApplyMsg Z)) : Prop :=
  ∀ l k v, l ∈ logs → l !! k = Some v → ∃ i m, (i, m) ∈ ms ∧ m.(amIndex) = k ∧ m.(amCommand) = Some v.

Definition agreeing (ms : list (Z * ApplyMsg Z)) : Prop :=
  (∀ i1 m1 i2 m2, (i1, m1) ∈ ms → (i2, m2) ∈ ms → m1.(amIndex) = m2.(amIndex) → m1.(amCommand) = m2.(amCommand)) ∧
  ∀ i m, (i, m) ∈ ms → is_Some m.(amCommand) ∧ m.(amUseSnapshot) = false.

Lemma readApplied_accepts logs ms0 i m ms logs' err :
  agreeing (ms0 ++ (i, m) :: ms) → sound logs ms0 → readApplied logs i m = Some (logs', err) →
  (err = None ∨ err = Some OutOfOrder) ∧ sound logs' (ms0 ++ [(i, m)]).
Proof.
  intros [Hag Hcmd] Hsd. assert ((i, m) ∈ ms0 ++ (i, m) :: ms) as Hin by (apply elem_of_app; right; left).
  destruct (Hcmd i m Hin) as [[v Hv] Hus]. unfold readApplied. rewrite Hus, Hv.
  intros (l & Hl & (logs1 & [_ ->]%slice_set_Some & ?)%bind_Some)%bind_Some. simplify_eq.
  assert (∀ l k v', l ∈ logs → l !! k = Some v' → ∃ i' m', (i', m') ∈ ms0 ++ [(i, m)] ∧ amIndex m' = k ∧ amCommand m' = Some v') as Hold.
  { intros l0 k v' Hl0 Hk. destruct (Hsd l0 k v' Hl0 Hk) as (i' & m' & ? & ? & ?). exists i', m'.
    split_and!; [apply elem_of_app; by left|done..]. }
  split.
  - case_match; [by right|]. case_match eqn:Hex; [|by left]. exfalso.
    apply existsb_exists in Hex as (l0 & Hl0%list_elem_of_In & Hb).
    destruct (l0 !! amIndex m) as [old|] eqn:Ho; [|done]. apply bool_decide_eq_true in Hb. apply Hb.
    destruct (Hsd l0 _ _ Hl0 Ho) as (i' & m' & Hin' & Hidx & Hc).
    pose proof (Hag i' m' i m ltac:(apply elem_of_app; by left) Hin Hidx). congruence.
  - intros l0 k v' Hl0 Hk. apply elem_of_insert_inv in Hl0 as [->|Hl0]; [|by eapply Hold].
    apply lookup_insert_Some in Hk as [[<- <-]|[_ Hk]].
    + exists i, m. split_and!; [apply elem_of_app; right; left|done..].
    + eapply Hold; [|done]. apply slice_get_lookup in Hl as [_ Hl]. by eapply list_elem_of_lookup_2.
Qed.

Lemma readAll_accepts ms : ∀ logs ms0 logs' err,
  agreeing (ms0 ++ ms) → sound logs ms0 → readAll logs ms = Some (logs', err) →
  err = None ∨ err = Some OutOfOrder.
Proof.
  induction ms as [|[i m] ms IH]; intros logs ms0 logs' err Hag Hsd; simpl; [intros; simplify_eq; by left|].
  destruct (readApplied logs i m) as [[logs1 e]|] eqn:E; simpl; [|done].
  destruct (readApplied_accepts _ _ _ _ _ _ _ Hag Hsd E) as [He Hsd1]. destruct e as [e|].
  - intros [= <- <-]. by destruct He; [left|right].
  - apply (IH logs1 (ms0 ++ [(i, m)])); [|done]. by rewrite <- (assoc (++)).
Qed.

(** ** Theorem *)

(** C19. The tester's check of the apply channels never fails: in every timely
    and orderly execution the readers of all peers together accept every
    message; every command is an integer, no peer skips an index, and no two
    peers apply different commands at an index. *)
Theorem readers_never_fail env (ends : list string) w :
  orderly_steps (init env ends) w →
  ∃ logs, readAll (emptyLogs (len ends)) w.(applied) = Some (logs, None).
Proof.
  intros Hs. pose proof (orderly_timely_steps _ _ Hs) as Ht.
  destruct (reachable_reader env ends w) as (logs & err & Hr & Hno); [by apply timely_steps_steps|].
  destruct (readAll_accepts w.(applied) (emptyLogs (len ends)) [] logs err) as [->| ->]; [..|done|by eauto|done].
  - split.
    + intros i1 m1 i2 m2. by apply (applied_agree env ends).
    + intros i m. by apply (sk_applied _ (timely_stocked env ends w Ht)).
  - intros l k v Hl. unfold emptyLogs in Hl. apply elem_of_replicate in Hl as [-> _]. by rewrite lookup_empty.
Qed.
End readers.
