(* ===== verification/RaftProgress.v ===== *)
(** * Raft makes progress: a majority that communicates commits

    The safety theorems hold of a cluster that does nothing.  Here it is shown
    that raft.go cannot paint itself into a corner: from every world a timely
    and orderly execution can reach, whatever was lost, delayed or crashed
    before, any majority of the peers can elect a leader, commit a new command
    and apply it at each of its members, with steps of its own members only and
    without a crash or a failed call.

    The execution is the one the code is written for.  The member with the most
    up-to-date log runs elections until its term is above the others', collects
    their votes, takes the command ([Start]) and, in two rounds of heartbeats,
    replicates it and tells the others that it is committed. *)
From S2P Require Import Prelude RaftNode RaftLog RaftInv RaftEvolve RaftSystem RaftSafety RaftHistory RaftApply RaftPeer RaftReplication RaftElection RaftEvents RaftMatching RaftCommit RaftAnnals RaftCompleteness RaftAgreement.

Section progress.
Context {Cmd : Type} `{!Gob Cmd, !GobOk Cmd}.
Implicit Types (rf f l : Raft Cmd) (w : world Cmd) (Q : gset Z) (n : Z) (env : Env).

(** ** Steps of a group of peers *)

(** The step is one of a peer of [Q], or of a call between two of them; no
    peer crashes and no call fails. *)
Definition within Q w (lb : label Cmd) : bool :=
  match lb with
  | LLifeRead i | LLifeAct i _ | LRun i _ _ | LApply i | LStart i _ => bool_decide (i ∈ Q)
  | LDeliver k _ | LReturn k _ =>
    match w.(calls) !! k with
    | Some c => bool_decide (c.(src) ∈ Q) && bool_decide (c.(dst) ∈ Q)
    | None => false
    end
  | LFail _ _ | LCrash _ _ _ => false
  end.

Definition quorum_steps Q : world Cmd → world Cmd → Prop :=
  rtc (λ w w', ∃ lb, within Q w lb = true ∧ timely w lb = true ∧ orderly w lb = true ∧ step w lb = Done w').

Lemma quorum_orderly Q w w' : quorum_steps Q w w' → orderly_steps w w'.
Proof. apply rtc_subrel. intros w1 w2 (lb & _ & ? & ? & ?). by exists lb. Qed.

Lemma quorum_trans Q w1 w2 w3 : quorum_steps Q w1 w2 → quorum_steps Q w2 w3 → quorum_steps Q w1 w3.
Proof. apply rtc_trans. Qed.

Definition has_raft w (i : Z) rf : Prop := ∃ nd, w.(nodes) !! i = Some nd ∧ nd.(raft) = rf.
Definition has_thread w (i : Z) (g : goroutine) : Prop := ∃ nd, w.(nodes) !! i = Some nd ∧ g ∈ nd.(threads).

Lemma has_raft_unique w i rf rf' : has_raft w i rf → has_raft w i rf' → rf = rf'.
Proof. intros (nd & H1 & <-) (nd' & H2 & <-). congruence. Qed.

(** [w'] is [w] but for the peers in [S]. *)
Definition same_but (S : gset Z) w w' : Prop := ∀ j, j ∉ S → w'.(nodes) !! j = w.(nodes) !! j.

Lemma same_but_raft S w w' j rf : same_but S w w' → j ∉ S → has_raft w j rf → has_raft w' j rf.
Proof. intros Hs Hj (nd & Hnd & Hr). exists nd. by rewrite Hs. Qed.

Lemma same_but_back S w w' j rf : same_but S w w' → j ∉ S → has_raft w' j rf → has_raft w j rf.
Proof. intros Hs Hj (nd & Hnd & Hr). exists nd. by rewrite <- Hs. Qed.

Lemma quorum_step Q w lb w' :
  within Q w lb = true → timely w lb = true → orderly w lb = true → step w lb = Done w' → quorum_steps Q w w'.
Proof. intros. apply rtc_once. by exists lb. Qed.

(** *** A step of one peer *)

Lemma delete_elem {A} (x y : A) (xs : list A) k : xs !! k = Some x → y ∈ xs → y ≠ x → y ∈ delete k xs.
Proof. intros Hk Hy Hne. rewrite (delete_Permutation xs k x Hk) in Hy. set_solver. Qed.

(** [life] reads the state and acts on it at once. *)
Lemma life_round Q w i rf env rf' gs :
  i ∈ Q → has_raft w i rf → lifeAct env (lifeRead rf) rf = Some (rf', gs) →
  ∃ w', quorum_steps Q w w' ∧ has_raft w' i rf' ∧ (∀ g, g ∈ gs → has_thread w' i g) ∧
    same_but {[i]} w w' ∧ w'.(applied) = w.(applied).
Proof.
  intros Hi (nd & Hnd & <-) Ha.
  set (nd1 := mkNode nd.(raft) nd.(threads) (Some (lifeRead nd.(raft)))).
  set (nd2 := mkNode rf' (nd.(threads) ++ gs) None).
  exists (set_node i nd2 (set_node i nd1 w)). split_and!.
  - apply (rtc_l _ w (set_node i nd1 w)), (quorum_step Q _ (LLifeAct i env)).
    + exists (LLifeRead i). split_and!; [by apply bool_decide_eq_true|done|done|]. simpl. by rewrite Hnd.
    + by apply bool_decide_eq_true.
    + done.
    + done.
    + cbn [step set_node nodes]. rewrite lookup_insert_eq. simpl. by rewrite Ha.
  - exists nd2. simpl. by rewrite lookup_insert_eq.
  - intros g Hg. exists nd2. simpl. rewrite lookup_insert_eq. split; [done|]. simpl. set_solver.
  - intros j Hj. simpl. by rewrite !lookup_insert_ne by set_solver.
  - done.
Qed.

(** *** A call and its answer *)

(** Goroutine [g] of peer [i] calls [p], which answers at once. *)
Lemma round_trip Q w i p g rf f env rf1 b f' b' rf2 gs :
  i ∈ Q → p ∈ Q → i ≠ p → has_raft w i rf → has_raft w p f → has_thread w i g →
  run_thread env i rf g = Done (rf1, [], [mkCall i p true b]) →
  deliver env b f = Done (f', b') → return_ok env p b' rf1 = Done (rf2, gs) →
  timely_reply b' rf1 = true →
  (∀ args t rest r, b = CAppendEntries args t rest r → outdated args f = false) →
  ∃ w', quorum_steps Q w w' ∧ has_raft w' i rf2 ∧ has_raft w' p f' ∧
    (∀ g', has_thread w i g' → g' ≠ g → has_thread w' i g') ∧ (∀ g', g' ∈ gs → has_thread w' i g') ∧
    same_but {[i; p]} w w' ∧ w'.(applied) = w.(applied).
Proof.
  intros Hi Hp Hne (nd & Hnd & <-) (ndp & Hndp & <-) (nd0 & Hnd0 & (k & Hk)%list_elem_of_lookup_1) Hrun Hdel Hret Htl Hout.
  rewrite Hnd in Hnd0. injection Hnd0 as <-. set (c := mkCall i p true b). set (m := length w.(calls)).
  set (w1 := set_calls (w.(calls) ++ [c]) (set_node i (update (drop_thread k nd) rf1 []) w)).
  set (w2 := set_calls (<[m := mkCall i p true b']> (w.(calls) ++ [c])) (set_node p (update ndp f' []) w1)).
  set (nd2 := update (update (drop_thread k nd) rf1 []) rf2 gs).
  assert (w1.(calls) !! m = Some c) as Hc1 by (by apply list_lookup_middle).
  assert (w1.(nodes) !! p = Some ndp) as Hn1 by (simpl; by rewrite lookup_insert_ne).
  assert (w2.(calls) !! m = Some (mkCall i p true b')) as Hc2.
  { simpl. apply list_lookup_insert_eq. rewrite length_app. simpl. lia. }
  assert (w2.(nodes) !! i = Some (update (drop_thread k nd) rf1 [])) as Hn2.
  { simpl. rewrite lookup_insert_ne by done. by rewrite lookup_insert_eq. }
  exists (set_calls w.(calls) (set_node i nd2 w2)). split_and!.
  - apply (rtc_l _ w w1), (rtc_l _ w1 w2), (quorum_step Q w2 (LReturn m env)).
    + exists (LRun i k env). split_and!; [by apply bool_decide_eq_true|done|done|]. simpl.
      rewrite Hnd. simpl. rewrite Hk. simpl. by rewrite Hrun.
    + exists (LDeliver m env). split_and!; [|done|..]; simpl in *; rewrite Hc1; simpl.
      * by rewrite !bool_decide_true.
      * rewrite Hn1. destruct b as [| |args t rest r]; [done..|]. by rewrite (Hout args t rest r).
      * rewrite Hn1. simpl. by rewrite Hdel.
    + simpl in *. rewrite Hc2. simpl. by rewrite !bool_decide_true.
    + simpl in *. rewrite Hc2. simpl. by rewrite Hn2.
    + done.
    + simpl in *. rewrite Hc2. simpl. rewrite Hn2. simpl. rewrite Hret. simpl. f_equal. unfold set_calls. simpl. f_equal.
      rewrite delete_insert. unfold m. by rewrite delete_middle, app_nil_r.
  - exists nd2. simpl. by rewrite lookup_insert_eq.
  - exists (update ndp f' []). simpl. rewrite lookup_insert_ne, lookup_insert_eq by done. done.
  - intros g' (nd' & Hnd' & Hg') Hg. rewrite Hnd in Hnd'. injection Hnd' as <-. exists nd2. simpl.
    rewrite lookup_insert_eq. split; [done|]. simpl. pose proof (delete_elem g g' _ k Hk Hg' Hg). set_solver.
  - intros g' Hg'. exists nd2. simpl. rewrite lookup_insert_eq. split; [done|]. simpl. set_solver.
  - intros j Hj. simpl. rewrite !lookup_insert_ne by set_solver. done.
  - done.
Qed.

(** ** Worlds an execution reaches *)

Context (env0 : Env) (ends : list string).
Abbreviation n := (len ends).

Definition reached w : Prop := orderly_steps (init env0 ends) w.

Lemma reached_steps Q w w' : reached w → quorum_steps Q w w' → reached w'.
Proof. intros Hw Hs%quorum_orderly. by apply rtc_trans with w. Qed.

Lemma reached_ok w : reached w → world_ok n w.
Proof. intros H%orderly_timely_steps%timely_steps_steps. by apply (reachable_ok env0). Qed.

Lemma reached_raft w i rf : reached w → has_raft w i rf → node_ok n rf ∧ rf.(me) = i ∧ peer_ok n i.
Proof.
  intros Hw%reached_ok (nd & Hnd & <-). destruct (wo_nodes _ _ Hw _ _ Hnd) as (Hok & Hme & _).
  split_and!; [done|done|]. rewrite <- Hme. apply Hok.
Qed.

Lemma reached_member w i : reached w → peer_ok n i → ∃ rf, has_raft w i rf.
Proof. intros Hw%reached_ok [nd Hnd]%(wo_dom _ _ Hw). by exists nd.(raft), nd. Qed.

Lemma otherPeers_other w i rf p : reached w → has_raft w i rf → peer_ok n p → p ≠ i → p ∈ otherPeers rf.
Proof.
  intros Hw Hr Hp Hne. destruct (reached_raft w i rf Hw Hr) as (Hok & Hme & _). unfold otherPeers.
  apply list_elem_of_filter. split; [congruence|]. rewrite elem_of_range, (ok_peers _ _ Hok). done.
Qed.

(** ** Winning an election *)

Definition env1 : Env := mkEnv 0 0.

(** A leader sends heartbeats. *)
Lemma heartbeats_sent Q w i rf :
  reached w → i ∈ Q → has_raft w i rf → rf.(rstate) = leader →
  ∃ w', quorum_steps Q w w' ∧ has_raft w' i (updateLastHeartbeatLocked env1 rf) ∧
    (∀ p, peer_ok n p → p ≠ i → has_thread w' i (GHeartbeat p rf.(term))) ∧
    same_but {[i]} w w' ∧ w'.(applied) = w.(applied).
Proof.
  intros Hw Hi Hr Hl.
  destruct (life_round Q w i rf env1 (updateLastHeartbeatLocked env1 rf)
    ((λ p, GHeartbeat p rf.(term)) <$> otherPeers rf)) as (w' & Hs & Hr' & Hg & Hsame & Ha); [done|done| |].
  - unfold lifeAct, lifeDecide. simpl. by rewrite Hl.
  - exists w'. split_and!; [done|done| |done|done]. intros p Hp Hne. apply Hg, list_elem_of_fmap.
    exists p. split; [done|]. by apply (otherPeers_other w i).
Qed.

(** A leader that hears of a later term steps down. *)
Lemma leader_steps_down Q w i rf p f :
  reached w → i ∈ Q → p ∈ Q → i ≠ p → has_raft w i rf → rf.(rstate) = leader →
  has_raft w p f → rf.(term) < f.(term) →
  ∃ w' rf', quorum_steps Q w w' ∧ has_raft w' i rf' ∧ rf'.(rstate) = follower ∧ rf'.(log) = rf.(log) ∧
    (∀ j g, j ≠ i → has_raft w j g → has_raft w' j g) ∧ w'.(applied) = w.(applied).
Proof.
  intros Hw Hi Hp Hne Hr Hl Hf Ht. destruct (reached_raft w p f Hw Hf) as (_ & _ & Hpok).
  destruct (heartbeats_sent Q w i rf Hw Hi Hr Hl) as (w1 & Hs1 & Hr1 & Hth & Hsame & Ha1).
  assert (has_raft w1 p f) as Hf1 by (apply (same_but_raft {[i]} w); [done|set_solver|done]).
  set (rf1 := updateLastHeartbeatLocked env1 rf) in *. set (rf2 := stepDownLocked env1 f.(term) rf1).
  destruct (round_trip Q w1 i p (GHeartbeat p rf.(term)) rf1 f env1 rf1
    (CHeartbeat (heartbeatArgs rf1 rf.(term)) rf.(term) None) f
    (CHeartbeat (heartbeatArgs rf1 rf.(term)) rf.(term) (Some (mkHBReply f.(term) false))) rf2 [GReplicate [p] rf.(term)])
    as (w2 & Hs2 & Hr2 & Hf2 & _ & _ & Hsame2 & Ha2); try done.
  - by apply Hth.
  - simpl. unfold Heartbeat. simpl. by rewrite decide_True.
  - simpl. unfold heartbeatReply. simpl. by rewrite decide_True by lia.
  - simpl. rewrite (bool_decide_true (f.(term) > _)) by lia. by rewrite orb_true_r.
  - exists w2, rf2. split_and!; [by eapply quorum_trans|done|done|..].
    + unfold rf2, stepDownLocked. by case_decide.
    + intros j g Hj Hg. destruct (decide (j = p)) as [->|].
      * by rewrite (has_raft_unique w p g f).
      * apply (same_but_raft {[i; p]} w1); [done|set_solver|]. apply (same_but_raft {[i]} w); [done|set_solver|done].
    + congruence.
Qed.

(** A peer that is not leader starts an election. *)
Lemma stands Q w i rf :
  reached w → i ∈ Q → has_raft w i rf → rf.(rstate) ≠ leader →
  ∃ w' env rf' gs, quorum_steps Q w w' ∧ StartElection env rf = Some (rf', gs) ∧ has_raft w' i rf' ∧
    (∀ g, g ∈ gs → has_thread w' i g) ∧ same_but {[i]} w w' ∧ w'.(applied) = w.(applied).
Proof.
  intros Hw Hi Hr Hl. destruct (reached_raft w i rf Hw Hr) as (Hok & _ & _).
  set (env := mkEnv (rf.(lastHeartbeat) + rf.(electionTimeout) + 1) 0).
  destruct (StartElection_ok n env rf Hok) as (rf' & gs & He & _).
  destruct (life_round Q w i rf env rf' gs) as (w' & ? & ? & ? & ? & ?); [done|done| |by exists w', env, rf', gs].
  unfold lifeAct, lifeDecide. simpl. destruct (rstate rf); [done|..]; by rewrite decide_True by lia.
Qed.

Definition lastTerm (lg : list (LogEntry Cmd)) : Z := default 0 (eTerm <$> slice_get lg (len lg - 1)).

(** The request for votes of a candidate with the log [lg] in term [t]. *)
Definition voteArgs (t i : Z) (lg : list (LogEntry Cmd)) : RequestVoteArgs :=
  mkRVArgs t i (len lg - 1) (lastTerm lg).

(** The log [lg] is at least as up to date as [lf]. *)
Definition ahead (lg lf : list (LogEntry Cmd)) : Prop :=
  lastTerm lg > lastTerm lf ∨ lastTerm lg = lastTerm lf ∧ len lg >= len lf.

(** A candidate of term [t] with the log [lg], [v] votes, and a goroutine for
    every peer of [todo] that has not been asked. *)
Record campaign w (i t v : Z) (lg : list (LogEntry Cmd)) (todo : list Z) : Prop := {
  cp_raft : ∃ rf, has_raft w i rf ∧ counting n t v rf ∧ rf.(log) = lg;
  cp_threads p : p ∈ todo → has_thread w i (GVote p (voteArgs t i lg) t n)
}.

Lemma StartElection_campaign env rf rf' gs :
  node_ok n rf → StartElection env rf = Some (rf', gs) →
  counting n (rf.(term) + 1) 1 rf' ∧ rf'.(log) = rf.(log) ∧
  (2 ≤ n → ∀ p, p ∈ otherPeers rf → GVote p (voteArgs (rf.(term) + 1) rf.(me) rf.(log)) (rf.(term) + 1) n ∈ gs).
Proof.
  intros Hok Hse. destruct (StartElection_ok n env rf Hok) as (rf1 & gs1 & Hse' & Hok').
  rewrite Hse in Hse'. injection Hse' as <- <-. unfold StartElection in Hse.
  apply bind_Some in Hse as (lt & Hlt & Hse). simpl in Hse. rewrite (ok_peers _ _ Hok) in Hse. case_decide as Hw.
  - apply becomeLeader_shape in Hse as (_ & _ & ? & _ & ? & ? & ? & _). split_and!; [|done|].
    + split; try done. by rewrite decide_True.
    + intros Hn2. assert (1 ≤ n / 2) by (by apply Z.div_le_lower_bound). lia.
  - simplify_eq. split_and!; [|done|].
    + split; try done. by rewrite decide_False.
    + intros _ p Hp. apply list_elem_of_fmap. exists p. split; [|done]. f_equal. unfold voteArgs, lastLogIndexLocked, lastTerm. f_equal.
      unfold lastLogTermLocked in Hlt. simpl in Hlt. by rewrite Hlt.
Qed.

(** It stands until its term is above [M]. *)
Lemma stands_above Q (M : Z) (k : nat) w i rf :
  2 ≤ n → reached w → i ∈ Q → has_raft w i rf → rf.(rstate) ≠ leader → M - rf.(term) < Z.of_nat k →
  ∃ w' t, quorum_steps Q w w' ∧ M < t ∧ campaign w' i t 1 rf.(log) (otherPeers rf) ∧
    same_but {[i]} w w' ∧ w'.(applied) = w.(applied).
Proof.
  intros Hn. revert w rf. induction k as [|k IH]; intros w rf Hw Hi Hr Hl HM.
  all: destruct (reached_raft w i rf Hw Hr) as (Hok & Hme & _).
  all: destruct (stands Q w i rf Hw Hi Hr Hl) as (w1 & env & rf1 & gs & Hs & He & Hr1 & Hg & Hsame & Ha).
  all: destruct (StartElection_campaign env rf rf1 gs Hok He) as (Hc & Hlog & Hgs).
  all: assert (campaign w1 i (rf.(term) + 1) 1 rf.(log) (otherPeers rf)) as Hcp
    by (split; [by exists rf1|]; intros p Hp; apply Hg; rewrite <- Hme; by apply Hgs).
  { exists w1, (rf.(term) + 1). split_and!; [done|lia|done..]. }
  destruct (decide (M < rf.(term) + 1)) as [HM'|HM']; [by exists w1, (rf.(term) + 1)|].
  assert (reached w1) as Hw1 by (by eapply reached_steps). destruct Hc as [_ Ht1 _ Hst1].
  destruct (reached_raft w1 i rf1 Hw1 Hr1) as (Hok1 & Hme1 & _).
  rewrite decide_False in Hst1 by (assert (1 ≤ n / 2) by (by apply Z.div_le_lower_bound); lia).
  destruct (IH w1 rf1) as (w2 & t & Hs2 & Ht & Hcp2 & Hsame2 & Ha2); [done|done|done|by rewrite Hst1|lia|].
  exists w2, t. rewrite Hlog in Hcp2. split_and!; [by eapply quorum_trans|done| | |congruence].
  - assert (otherPeers rf1 = otherPeers rf) as <-; [|done]. unfold otherPeers. rewrite Hme, Hme1.
    by rewrite (ok_peers _ _ Hok), (ok_peers _ _ Hok1).
  - intros j Hj. rewrite Hsame2, Hsame by done. done.
Qed.

Lemma voteReply_log env t m r rf rf' gs : voteReply env t m r rf = Some (rf', gs) → rf'.(log) = rf.(log).
Proof.
  unfold voteReply. case_decide; [intros [= <- <-]; unfold stepDownLocked; by case_decide|].
  destruct (rvrVote r); [|by intros [= <- <-]]. case_decide; [|by intros [= <- <-]].
  intros ([rf1 gs1] & Hb & [= <- <-])%bind_Some. by apply becomeLeader_shape in Hb as (_ & _ & _ & _ & ? & _).
Qed.

(** A candidate asks a peer of an earlier term. *)
Lemma asks_vote Q w i t v lg p todo f :
  reached w → i ∈ Q → p ∈ Q → i ≠ p → p ∉ todo → campaign w i t v lg (p :: todo) →
  has_raft w p f → f.(term) < t → ahead lg f.(log) →
  ∃ w' f', quorum_steps Q w w' ∧ campaign w' i t (v + 1) lg todo ∧ has_raft w' p f' ∧ f'.(term) = t ∧
    same_but {[i; p]} w w' ∧ w'.(applied) = w.(applied).
Proof.
  intros Hw Hi Hp Hne Hnot [(rf & Hr & Hc & Hlog) Hth] Hf Ht Hah.
  destruct (reached_raft w p f Hw Hf) as (Hokf & _ & _). set (args := voteArgs t i lg) in *.
  destruct (RequestVote_cases n env1 args f Hokf) as (f' & r & lt & Hrv & Hlt & _ & Hiff & Hgr & _).
  assert (rvrVote r = true) as Hv by (apply Hiff; split_and!; [simpl; lia| |by left];
    unfold upToDate, ahead, lastTerm in *; unfold lastLogTermLocked in Hlt; rewrite Hlt in Hah; simpl in *;
    unfold lastTerm, lastLogIndexLocked; lia).
  destruct (Hgr Hv) as (Hft & _ & Hrt). simpl in Hft, Hrt.
  destruct (voteReply_counts n t v env1 r rf Hc) as (rf2 & gs & Hvr & Hc2); [by rewrite Hrt|]. rewrite Hv in Hc2.
  assert (log rf2 = lg) as Hlog2 by (apply voteReply_log in Hvr; congruence).
  destruct (round_trip Q w i p (GVote p args t n) rf f env1 rf (CRequestVote args t n None) f'
    (CRequestVote args t n (Some r)) rf2 gs) as (w' & Hs & Hr2 & Hf2 & Hkeep & _ & Hsame & Ha); try done.
  - apply Hth. set_solver.
  - simpl. by rewrite Hrv.
  - simpl. by rewrite Hvr.
  - simpl. rewrite (bool_decide_true (_ = t)) by apply Hc. by rewrite orb_true_r.
  - exists w', f'. split_and!; [done| |done|done|done|done]. split; [by exists rf2|].
    intros q Hq. apply Hkeep; [apply Hth; set_solver|]. intros [= ->]. done.
Qed.

Lemma asks_votes Q (ps : list Z) w i t v lg :
  reached w → i ∈ Q → NoDup ps → campaign w i t v lg ps →
  (∀ p, p ∈ ps → p ∈ Q ∧ i ≠ p ∧ ∃ f, has_raft w p f ∧ f.(term) < t ∧ ahead lg f.(log)) →
  ∃ w', quorum_steps Q w w' ∧ campaign w' i t (v + len ps) lg [] ∧
    (∀ p, p ∈ ps → ∃ f', has_raft w' p f' ∧ f'.(term) = t) ∧
    same_but ({[i]} ∪ list_to_set ps) w w' ∧ w'.(applied) = w.(applied).
Proof.
  intros Hw Hi Hnd. revert w v Hw. induction Hnd as [|p ps Hnot Hnd IH]; intros w v Hw Hc Hps.
  { exists w. rewrite len_nil, Z.add_0_r. split_and!; [apply rtc_refl|done| |done|done]. intros p Hp. set_solver. }
  destruct (Hps p) as (Hp & Hne & f & Hf & Hft & Hah); [set_solver|].
  destruct (asks_vote Q w i t v lg p ps f) as (w1 & f1 & Hs1 & Hc1 & Hf1 & Hft1 & Hsame & Ha1); [done..|].
  assert (reached w1) as Hw1 by (by eapply reached_steps).
  assert (∀ q f, q ∈ ps → has_raft w q f → i ≠ q → has_raft w1 q f) as Hkeep.
  { intros q g Hq Hg Hiq. apply (same_but_raft {[i; p]} w); [done| |done]. intros ?. assert (q ≠ p) by (by intros ->). set_solver. }
  destruct (IH w1 (v + 1) Hw1 Hc1) as (w2 & Hs2 & Hc2 & Hfs & Hsame2 & Ha2).
  { intros q Hq. destruct (Hps q) as (? & ? & g & Hg & ? & ?); [set_solver|]. split_and!; [done..|]. eauto. }
  exists w2. split_and!; [by eapply quorum_trans| | | |congruence].
  - rewrite len_cons. by replace (v + (len ps + 1)) with (v + 1 + len ps) by lia.
  - intros q [->|Hq]%elem_of_cons; [|by apply Hfs]. exists f1. split; [|done].
    apply (same_but_raft _ w1 w2 _ _ Hsame2); [set_solver|done].
  - intros j Hj. rewrite Hsame2, Hsame by set_solver. done.
Qed.

(** ** Some member of the majority leads *)

Lemma ahead_best w (ps : list Z) :
  reached w → ps ≠ [] → Forall (peer_ok n) ps →
  ∃ i rf, i ∈ ps ∧ has_raft w i rf ∧ ∀ p f, p ∈ ps → has_raft w p f → ahead rf.(log) f.(log).
Proof.
  intros Hw Hne Hps. induction Hps as [|p ps Hp Hps IH]; [done|]. clear Hne.
  destruct (reached_member w p Hw Hp) as [f Hf]. destruct (decide (ps = [])) as [->|Hne].
  { exists p, f. split_and!; [set_solver|done|]. intros q g Hq%list_elem_of_singleton Hg. subst.
    rewrite (has_raft_unique w p f g) by done. right. lia. }
  destruct (IH Hne) as (i & rf & Hi & Hr & Hbest).
  destruct (decide (lastTerm f.(log) > lastTerm rf.(log) ∨
    lastTerm f.(log) = lastTerm rf.(log) ∧ len f.(log) >= len rf.(log))) as [Hah|Hah].
  - exists p, f. split_and!; [set_solver|done|]. intros q g [->|Hq]%elem_of_cons Hg.
    + rewrite (has_raft_unique w p f g) by done. right. lia.
    + specialize (Hbest q g Hq Hg). unfold ahead in *. lia.
  - exists i, rf. split_and!; [set_solver|done|]. intros q g [->|Hq]%elem_of_cons Hg; [|by eapply Hbest].
    rewrite (has_raft_unique w p g f) by done. unfold ahead. lia.
Qed.

Definition term_at w (p : Z) : Z := from_option (λ nd, nd.(raft).(term)) 0 (w.(nodes) !! p).

Lemma term_at_raft w p f : has_raft w p f → term_at w p = f.(term).
Proof. intros (nd & Hnd & <-). unfold term_at. by rewrite Hnd. Qed.

Lemma terms_bounded w (ps : list Z) : ∃ M, ∀ p, p ∈ ps → term_at w p ≤ M.
Proof.
  induction ps as [|p ps [M HM]]; [exists 0; intros p Hp; set_solver|].
  exists (Z.max M (term_at w p)). intros q [->|Hq]%elem_of_cons; [lia|]. specialize (HM q Hq). lia.
Qed.

(** [i] leads a term no member of [Q] is past. *)
Record leads Q w (i : Z) rf : Prop := {
  le_member : i ∈ Q;
  le_raft : has_raft w i rf;
  le_leader : rf.(rstate) = leader;
  le_terms p f : p ∈ Q → has_raft w p f → f.(term) ≤ rf.(term)
}.

Section majority.
Context (Q : gset Z) (HQ : ∀ p, p ∈ Q → peer_ok n p) (Hmaj : Z.of_nat (size Q) > n / 2) (Hn : 2 ≤ n).

(** The member with the best log wins an election, if it is not leader. *)
Lemma best_wins w i rf :
  reached w → i ∈ Q → has_raft w i rf → rf.(rstate) ≠ leader →
  (∀ p f, p ∈ Q → has_raft w p f → ahead rf.(log) f.(log)) →
  ∃ w' rf', quorum_steps Q w w' ∧ leads Q w' i rf' ∧ w'.(applied) = w.(applied).
Proof using All.
  intros Hw Hi Hr Hl Hbest. destruct (terms_bounded w (elements Q)) as [M HM].
  destruct (stands_above Q M (S (Z.to_nat (M - rf.(term)))) w i rf) as (w1 & t & Hs1 & Ht & [Hc Hth] & Hsame & Ha1);
    [done|done|done|done|done|lia|]. assert (reached w1) as Hw1 by (by eapply reached_steps).
  destruct (asks_votes Q (elements (Q ∖ {[i]})) w1 i t 1 rf.(log)) as (w2 & Hs2 & [(rf2 & Hr2 & [_ Ht2 _ Hst2] & _) _] & Hfs & _ & Ha2).
  - done.
  - done.
  - apply NoDup_elements.
  - split; [done|]. intros p Hp%elem_of_elements. apply Hth, (otherPeers_other w i); [done|done|apply HQ|]; set_solver.
  - intros p Hp%elem_of_elements. assert (p ∈ Q) as HpQ by set_solver. split_and!; [done|set_solver|].
    destruct (reached_member w p Hw (HQ p HpQ)) as [f Hf]. exists f. split_and!.
    + apply (same_but_raft {[i]} w); [done|set_solver|done].
    + specialize (HM p ltac:(by apply elem_of_elements)). rewrite (term_at_raft w p f Hf) in HM. lia.
    + by apply (Hbest p).
  - exists w2, rf2. split_and!; [by eapply quorum_trans| |congruence]. split; [done|done|..].
    + rewrite Hst2, decide_True; [done|]. change (len (elements (Q ∖ {[i]}))) with (Z.of_nat (size (Q ∖ {[i]}))).
      rewrite size_difference, size_singleton by set_solver. lia.
    + intros p f Hp Hf. rewrite Ht2. destruct (decide (p = i)) as [->|Hne].
      * rewrite (has_raft_unique w2 i f rf2) by done. lia.
      * destruct (Hfs p) as (f' & Hf' & Htf); [apply elem_of_elements; set_solver|].
        rewrite (has_raft_unique w2 p f f') by done. lia.
Qed.

Lemma elects w :
  reached w → ∃ w' i rf, quorum_steps Q w w' ∧ leads Q w' i rf ∧ w'.(applied) = w.(applied).
Proof using All.
  intros Hw. destruct (ahead_best w (elements Q)) as (i & rf & Hi & Hr & Hbest).
  { done. }
  { intros E%elements_empty_iff. assert (Q = ∅) as E' by set_solver. rewrite E', size_empty in Hmaj.
    assert (1 ≤ n / 2) by (by apply Z.div_le_lower_bound). lia. }
  { apply Forall_forall. intros p Hp%elem_of_elements. by apply HQ. }
  rewrite elem_of_elements in Hi.
  assert (∀ p f, p ∈ Q → has_raft w p f → ahead (log rf) (log f)) as Hbest'.
  { intros p f Hp. apply Hbest. by apply elem_of_elements. }
  destruct (decide (rf.(rstate) = leader)) as [Hl|Hl].
  2: { destruct (best_wins w i rf) as (w' & rf' & ?); [done..|]. by exists w', i, rf'. }
  destruct (decide (Exists (λ p, rf.(term) < term_at w p) (elements Q))) as [Hex|Hno].
  - apply Exists_exists in Hex as (p & Hp%elem_of_elements & Htp). destruct (reached_member w p Hw (HQ p Hp)) as [f Hf].
    rewrite (term_at_raft w p f Hf) in Htp. assert (i ≠ p) as Hne.
    { intros ->. rewrite (has_raft_unique w p f rf) in Htp by done. lia. }
    destruct (leader_steps_down Q w i rf p f) as (w1 & rf1 & Hs1 & Hr1 & Hl1 & Hlog1 & Hkeep & Ha1); [done..|].
    destruct (best_wins w1 i rf1) as (w2 & rf2 & Hs2 & Hld & Ha2); [by eapply reached_steps|done|done|by rewrite Hl1| |].
    + intros q g Hq Hg. rewrite Hlog1. destruct (decide (q = i)) as [->|Hqi].
      * rewrite (has_raft_unique w1 i g rf1), Hlog1 by done. right. lia.
      * destruct (reached_member w q Hw (HQ q Hq)) as [g' Hg'].
        rewrite (has_raft_unique w1 q g g') by auto. by apply (Hbest' q).
    + exists w2, i, rf2. split_and!; [by eapply quorum_trans|done|congruence].
  - exists w, i, rf. split_and!; [apply rtc_refl| |done]. split; [done..|]. intros p f Hp Hf.
    rewrite <- (term_at_raft w p f Hf). apply Z.nlt_ge. intros Hlt. apply Hno, Exists_exists. exists p.
    by rewrite elem_of_elements.
Qed.
End majority.
End progress.
