(* ===== verification/RaftService.v ===== *)
(** * Raft serves a majority: replication, commit and application

    The second half of the argument of RaftProgress.v: a leader no member of a
    majority is ahead of takes a command, brings every member's log up to its
    own with [replicateTo], commits the command and has every member apply it. *)
From S2P Require Import Prelude RaftNode RaftLog RaftInv RaftEvolve RaftSystem RaftSafety RaftHistory RaftApply RaftPeer RaftReplication RaftElection RaftEvents RaftMatching RaftCommit RaftAnnals RaftCompleteness RaftAgreement RaftProgress.

Section replies.
Context {Cmd : Type} `{!Gob Cmd, !GobOk Cmd}.
Implicit Types (rf l : Raft Cmd) (env : Env) (n : Z).

(** ** What an iteration of replicateTo leaves alone *)

Lemma replicateBegin_next p t l l1 a :
  replicateBegin p t l = Some (l1, a) → ∃ ni, l1 = set_nextIndex ni l.
Proof.
  unfold replicateBegin. case_decide; [intros [= <- <-]; exists (nextIndex l); by destruct l|].
  intros (next & _ & ([x l2] & Hx & (es & _ & [= <- <-])%bind_Some)%bind_Some)%bind_Some.
  case_decide; [apply bind_Some in Hx as (ni & _ & [= _ <-]); by eexists|].
  injection Hx as _ <-. exists (nextIndex l). by destruct l.
Qed.

Lemma replicateReply_next env p t args r l l1 :
  replicateReply env p t args r l = Some (l1, ReplAgain) → ∃ ni, l1 = set_nextIndex ni l.
Proof.
  unfold replicateReply. do 2 (case_decide; [done|]). destruct (aerSuccess r).
  - intros (c & _ & (l2 & _ & ([l3 gs] & _ & ?)%bind_Some)%bind_Some)%bind_Some. done.
  - intros (next & _ & (ni & _ & (l2 & Hl2 & [= <-])%bind_Some)%bind_Some)%bind_Some.
    case_decide; [apply bind_Some in Hl2 as (ni2 & _ & [= <-]); by eexists|].
    injection Hl2 as <-. by eexists.
Qed.

(** A leader counts an acknowledgement up to index [m] from peer [p]: what it
    knows of [p], and that nothing above the new commit index can be committed. *)
Record counted (p m : Z) l l' : Prop := {
  cn_fields : l'.(rstate) = l.(rstate) ∧ l'.(term) = l.(term) ∧ l'.(log) = l.(log) ∧ l'.(me) = l.(me) ∧ l'.(peers) = l.(peers);
  cn_match : ∃ k, slice_get l'.(matchIndex) p = Some k ∧ m ≤ k;
  cn_others q : q ≠ p → slice_get l'.(matchIndex) q = slice_get l.(matchIndex) q;
  cn_commit : l.(commitIndex) ≤ l'.(commitIndex);
  cn_most M : l'.(commitIndex) < M ≤ lastLogIndexLocked l' → ¬ committable l' M
}.

Lemma match_ok n p m l :
  node_ok n l → l.(rstate) = leader → m < len l.(log) →
  node_ok n (set_nextIndex (<[Z.to_nat p := m + 1]> l.(nextIndex)) (set_matchIndex (<[Z.to_nat p := m]> l.(matchIndex)) l)).
Proof.
  intros Hok Hl Hm. destruct (ok_leader _ _ Hok Hl) as [Hnl Hml Hnx]. destruct Hok. split; simpl; try done.
  intros _. split; simpl; autorewrite with slices; [done..|]. apply Forall_insert; [done|lia].
Qed.

Lemma replicateReply_counted n env p t args l l2 gs m :
  node_ok n l → l.(rstate) = leader → l.(term) = t → 0 ≤ p < n →
  args.(aePrevLogIndex) + len args.(aeEntries) = m → 0 ≤ m < len l.(log) →
  replicateReply env p t args (mkAEReply t true 0 0) l = Some (l2, ReplReturn gs) → counted p m l l2.
Proof.
  intros Hok Hl Ht Hp Hargs Hm. destruct (ok_leader _ _ Hok Hl) as [Hnl Hml _].
  unfold replicateReply. simpl. rewrite decide_False by lia. rewrite decide_False by naive_solver.
  destruct (slice_get_inr (matchIndex l) p) as [cur Hcur]; [lia|]. rewrite Hcur, Hargs. cbn [mbind option_bind].
  set (l1 := if decide (m > cur) then
    set_nextIndex (<[Z.to_nat p := m + 1]> l.(nextIndex)) (set_matchIndex (<[Z.to_nat p := m]> l.(matchIndex)) l) else l).
  assert (node_ok n l1) as Hok1 by (unfold l1; case_decide; [by apply match_ok; [..|lia]|done]).
  assert (rstate l1 = rstate l ∧ term l1 = term l ∧ log l1 = log l ∧ me l1 = me l ∧ peers l1 = peers l ∧ commitIndex l1 = commitIndex l)
    as (Hf1 & Hf2 & Hf3 & Hf4 & Hf5 & Hf6) by (unfold l1; by case_decide).
  assert (∃ k, slice_get l1.(matchIndex) p = Some k ∧ m ≤ k) as Hk.
  { unfold l1. case_decide; [|exists cur; split; [done|lia]]. exists m. simpl. rewrite slice_get_insert_eq by lia. done. }
  assert (∀ q, q ≠ p → slice_get l1.(matchIndex) q = slice_get l.(matchIndex) q) as Hq.
  { intros q Hq. unfold l1. case_decide; [|done]. simpl. by rewrite slice_get_insert_ne by (done || lia). }
  assert ((if decide (m > cur) then mi ← slice_set (matchIndex l) p m; ni ← slice_set (nextIndex l) p (m + 1);
    Some (set_nextIndex ni (set_matchIndex mi l)) else Some l) = Some l1) as ->.
  { unfold l1. case_decide; [|done]. rewrite slice_set_inr by lia. cbn [mbind option_bind].
    rewrite slice_set_inr by lia. done. }
  clearbody l1. cbn [mbind option_bind].
  destruct (tryAdvanceCommit_cases n l1 Hok1) as (l3 & gs3 & -> & Hcases); [congruence|]. cbn [mbind option_bind].
  intros [= <- <-]. destruct Hcases as [(N & HN & _ & Hmax & -> & _)|(Hno & -> & _)].
  - split; simpl; [by split_and!|done|done|lia|]. intros M HM. by apply (Hmax M).
  - split; [by split_and!|done|done|lia|done].
Qed.
End replies.

Section service.
Context {Cmd : Type} `{!Gob Cmd, !GobOk Cmd}.
Context (env0 : Env) (ends : list string).
Implicit Types (rf f l : Raft Cmd) (w : world Cmd) (Q : gset Z) (lg : list (LogEntry Cmd)).
Abbreviation n := (len ends).
Abbreviation reached := (reached env0 ends).

(** ** The logs of a reached world *)

Lemma reached_coherent w i l p f :
  reached w → has_raft w i l → has_raft w p f → coherent l.(log) f.(log) ∧ head l.(log) = head f.(log).
Proof.
  intros Hw (nd & Hi & <-) (ndp & Hp & <-).
  destruct (timely_steps_logs env0 ends w) as (_ & V & L & _ & Hlg); [by apply orderly_timely_steps|].
  destruct (lo_nodes _ _ _ _ Hlg _ _ Hi) as [Hh Hl], (lo_nodes _ _ _ _ Hlg _ _ Hp) as [Hhp Hlp].
  split; [by apply (log_ok_coherent L)|congruence].
Qed.

(** A log with an entry of the leader's term at the end of the leader's log
    goes no further. *)
Lemma reached_no_longer w i l p f e :
  reached w → has_raft w i l → l.(rstate) = leader → has_raft w p f → f.(term) ≤ l.(term) →
  f.(log) !! (length l.(log) - 1)%nat = Some e → e.(eTerm) = l.(term) → (length f.(log) ≤ length l.(log))%nat.
Proof.
  intros Hw (nd & Hi & <-) Hld (ndp & Hp & <-) Ht He Het. apply Nat.nlt_ge. intros Hlt.
  destruct (orderly_chronicled _ _ _ _ _ _ _ Hw (init_chronicled env0 ends)) as (V & L & A & B & _ & _ & (Hwo & _ & Hlg & Ha)).
  pose proof (lo_leaders _ _ _ _ Hlg _ _ Hi Hld) as HL. pose proof (wo_nodes _ _ Hwo _ _ Hi) as (Hok & _).
  set (lg := log (raft nd)) in *. set (lf := log (raft ndp)) in *.
  assert (0 < length lg)%nat as Hpos by (pose proof (log_len _ (ok_log _ _ Hok)); unfold len, lg in *; lia).
  destruct (lookup_lt_is_Some_2 lf (length lg) Hlt) as [e' He'].
  destruct (lo_nodes _ _ _ _ Hlg _ _ Hp) as [_ Hlf]. destruct (Hlf _ _ He' Hpos) as (i' & lg' & HL' & Htk). fold lf in Htk.
  assert (eTerm e' ≤ term (raft ndp)) as Hle.
  { eapply (Forall_lookup_1 _ _ _ _ (ch_bounded _ _ _ _ _ _ (an_nodes _ _ _ _ _ _ Ha _ _ Hp))). exact He'. }
  destruct (decide (eTerm e' = term (raft nd))) as [E|E].
  - assert (lg' = lg) as -> by congruence. apply (f_equal length) in Htk. rewrite !length_take in Htk. lia.
  - destruct (an_dated _ _ _ _ _ _ Ha _ _ _ HL') as (_ & _ & Hb).
    assert (lg' !! (length lg - 1)%nat = Some e) as He2.
    { rewrite <- (lookup_take_lt lg' (S (length lg))), Htk, lookup_take_lt by lia. done. }
    apply (Forall_lookup_1 _ _ _ _ Hb) in He2. lia.
Qed.

Lemma lastTerm_last lg t : lg ≠ [] → lastTerm lg = t → ∃ e, lg !! (length lg - 1)%nat = Some e ∧ e.(eTerm) = t.
Proof.
  intros Hne <-. unfold lastTerm. assert (0 < length lg)%nat by (destruct lg; simpl; [done|lia]).
  destruct (slice_get_inr lg (len lg - 1)) as [e He]; [unfold len; lia|]. rewrite He. exists e. split; [|done].
  apply slice_get_lookup in He as [_ He]. rewrite <- He. f_equal. unfold len. lia.
Qed.

(** What such a leader sends is never outdated. *)
Lemma reached_orderly w i l p f x mei c pt :
  reached w → has_raft w i l → l.(rstate) = leader → lastTerm l.(log) = l.(term) →
  has_raft w p f → f.(term) ≤ l.(term) → 1 ≤ x ≤ len l.(log) →
  outdated (mkAEArgs l.(term) mei (x - 1) pt (drop (Z.to_nat x) l.(log)) c) f = false.
Proof.
  intros Hw Hr Hld Hlast Hf Ht Hx. apply not_true_iff_false. unfold outdated. simpl.
  rewrite !andb_true_iff, !bool_decide_eq_true. intros (((((_ & _) & _) & Hne) & Hm) & Hlen).
  replace (x - 1 + 1) with x in * by lia. set (x' := Z.to_nat x) in *. set (es := drop x' (log l)) in *.
  assert (length es = (length (log l) - x')%nat) as Hes by apply length_drop. unfold len in *.
  destruct (lastTerm_last (log l) (term l)) as (e & He & Het); [by intros E; unfold es in *; rewrite E, drop_nil in Hne|done|].
  pose proof (matchingPrefix_terms (drop x' (log f)) es) as Hterms. rewrite Hm, firstn_all in Hterms.
  assert (es !! (length es - 1)%nat = Some e) as Hes1.
  { pose proof (lookup_drop (log l) x' (length es - 1)) as Hd. fold es in Hd. rewrite Hd, <- He. f_equal. lia. }
  apply (f_equal (.!! (length es - 1)%nat)) in Hterms. unfold terms in Hterms.
  rewrite !list_lookup_fmap, Hes1, lookup_take_lt, lookup_drop in Hterms by lia.
  replace (x' + (length es - 1))%nat with (length (log l) - 1)%nat in Hterms by lia.
  destruct (log f !! (length (log l) - 1)%nat) as [e'|] eqn:He'; [|done]. simpl in Hterms. injection Hterms as Hte.
  pose proof (reached_no_longer w i l p f e' Hw Hr Hld Hf Ht He' ltac:(congruence)). lia.
Qed.

(** ** One follower is brought up to date *)

(** What [replicateTo] leaves behind at leader [i] and follower [p]. *)
Record repaired w w' (i p : Z) l l' : Prop := {
  rp_leader : has_raft w' i l';
  rp_counted : counted p (len l.(log) - 1) l l';
  rp_follower : ∃ f', has_raft w' p f' ∧ f'.(term) = l.(term) ∧ l.(log) `prefix_of` f'.(log) ∧
    Z.min l.(commitIndex) (len l.(log) - 1) ≤ f'.(commitIndex);
  rp_same : same_but {[i; p]} w w';
  rp_applied : w'.(applied) = w.(applied)
}.

(** The fields of a leader that replication is about. *)
Definition alike l l0 : Prop :=
  l0.(rstate) = l.(rstate) ∧ l0.(term) = l.(term) ∧ l0.(log) = l.(log) ∧ l0.(me) = l.(me) ∧
  l0.(peers) = l.(peers) ∧ l0.(matchIndex) = l.(matchIndex) ∧ l0.(commitIndex) = l.(commitIndex).

Lemma repaired_after w w1 w2 i p l l0 l' :
  same_but {[i; p]} w w1 → w1.(applied) = w.(applied) → alike l l0 →
  repaired w1 w2 i p l0 l' → repaired w w2 i p l l'.
Proof.
  intros Hs Ha (Es & Et & El & Em & Ep & Ei & Ec) [Hl [Hf Hm Ho Hc Hk] Hp Hs' Ha'].
  rewrite Es, Et, El, Em, Ep in Hf. rewrite El in Hm. rewrite Ei in Ho. rewrite Ec in Hc. rewrite Et, El, Ec in Hp.
  split; [done|by split|done| |congruence]. intros j Hj. by rewrite Hs', Hs.
Qed.

(** The call of an iteration and its answer. *)
Lemma replicate_trip Q w i p l f t l1 args f' r l2 next gs :
  i ∈ Q → p ∈ Q → i ≠ p → has_raft w i l → has_raft w p f → has_thread w i (GReplicate [p] t) →
  replicateBegin p t l = Some (l1, Some args) → AppendEntries env1 args f = (f', r) → outdated args f = false →
  replicateReply env1 p t args r l1 = Some (l2, next) →
  gs = match next with ReplReturn gs => gs ++ [GReplicate [] t] | ReplAgain => [GReplicate [p] t] end →
  ∃ w', quorum_steps Q w w' ∧ has_raft w' i l2 ∧ has_raft w' p f' ∧ (∀ g', g' ∈ gs → has_thread w' i g') ∧
    same_but {[i; p]} w w' ∧ w'.(applied) = w.(applied).
Proof.
  intros Hi Hp Hne Hl Hf Hth Hb Ha Hout Hr ->.
  edestruct (round_trip Q w i p (GReplicate [p] t) l f env1 l1 (CAppendEntries args t [] None) f'
    (CAppendEntries args t [] (Some r)) l2) as (w' & ? & ? & ? & _ & ? & ? & ?); [done..| | | | | |by eauto 10].
  - simpl. by rewrite Hb.
  - simpl. by rewrite Ha.
  - simpl. rewrite Hr. simpl. by destruct next.
  - done.
  - by intros ???? [= <- _ _ _].
Qed.

Lemma replicates Q (fuel : nat) w i p x l f :
  reached w → i ∈ Q → p ∈ Q → i ≠ p → has_raft w i l → leading n p l.(term) x l.(log) l → lastTerm l.(log) = l.(term) →
  has_raft w p f → f.(term) ≤ l.(term) → has_thread w i (GReplicate [p] l.(term)) → Z.max 1 x ≤ Z.of_nat fuel →
  ∃ w' l', quorum_steps Q w w' ∧ repaired w w' i p l l'.
Proof.
  intros Hw Hi Hp Hne. revert w x l f Hw. induction fuel as [|fuel IH]; intros w x l f Hw Hl Hld Hlast Hf Hft Hth Hx; [lia|].
  destruct (reached_raft _ _ w p f Hw Hf) as (Hokf & _ & Hpok). destruct (reached_coherent w i l p f Hw Hl Hf) as [Hco Hh].
  destruct (replicateBegin_leading _ _ _ _ _ _ Hpok Hld) as (l1 & Hb & Hld1). pose proof (leading_bound _ _ _ _ _ _ Hld1) as Hxb.
  set (args := mkAEArgs _ _ _ _ _ _) in *. destruct (replicateBegin_next _ _ _ _ _ Hb) as [ni ->].
  assert (outdated args f = false) as Hout by (apply (reached_orderly w i l p); [done|done|apply Hld|done|done|done|lia]).
  destruct (decide (consistent args f)) as [Hcon|Hcon].
  - destruct (round_accept n p l.(term) (Z.max 1 x) env1 l (set_nextIndex ni l) f args) as (f' & r & l2 & gs & Ha & Hr & Hpre);
      [done|done|lia|apply Hokf|done|done|done|done|done|].
    destruct (AppendEntries_accept env1 args f) as (f2 & Ha2 & _ & Hft' & _ & Hci); [done|simpl; lia|done|].
    rewrite Ha in Ha2. injection Ha2 as <- ->. simpl in Hft', Hci.
    destruct (replicate_trip Q w i p l f l.(term) (set_nextIndex ni l) args f' _ l2 (ReplReturn gs) _ Hi Hp Hne Hl Hf Hth Hb Ha Hout Hr eq_refl)
      as (w' & Hs & Hl2 & Hf2 & _ & Hsame & Hap).
    exists w', l2. split; [done|]. apply (repaired_after w w w' i p l (set_nextIndex ni l)); [done|done|done|]. split; [done| | |done|done].
    + apply (replicateReply_counted n env1 p l.(term) args _ l2 gs); [apply Hld1|apply Hld1|done|done| |simpl; lia|done].
      simpl. rewrite len_drop by lia. lia.
    + exists f'. split_and!; [done|done|done|]. apply prefix_length in Hpre. simpl.
      rewrite Hci. unfold lastLogIndexLocked, len in *. case_decide; lia.
  - destruct (round_reject n p l.(term) (Z.max 1 x) env1 l (set_nextIndex ni l) f args) as (f' & r & l2 & y & Ha & Hr & Hld2 & Hy & Hx2 & _ & Hft');
      [done|done|lia|apply Hokf|done|done|done|done|done|].
    destruct (replicate_trip Q w i p l f l.(term) (set_nextIndex ni l) args f' _ l2 ReplAgain _ Hi Hp Hne Hl Hf Hth Hb Ha Hout Hr eq_refl)
      as (w1 & Hs1 & Hl2 & Hf2 & Hth1 & Hsame1 & Hap1).
    destruct (replicateReply_next _ _ _ _ _ _ _ Hr) as [ni' ->].
    destruct (IH w1 y (set_nextIndex ni' (set_nextIndex ni l)) f') as (w2 & l' & Hs2 & Hrep);
      [by eapply reached_steps|done|done|done|done|done|apply Hth1; set_solver|lia|].
    exists w2, l'. split; [by eapply quorum_trans|]. by apply (repaired_after w w1 w2 i p l (set_nextIndex ni' l)).
Qed.

Lemma Heartbeat_follows env args f :
  f.(term) ≤ args.(hbTerm) → ∃ f', Heartbeat env args f = (f', mkHBReply args.(hbTerm) true) ∧ f'.(term) = args.(hbTerm).
Proof.
  intros Ht. unfold Heartbeat. rewrite decide_False by lia. eexists. split; [f_equal; f_equal|]; simpl.
  all: repeat case_decide; simpl; lia.
Qed.

(** A round of heartbeats, of which [p]'s is answered. *)
Lemma syncs Q w i l p :
  reached w → leads Q w i l → lastTerm l.(log) = l.(term) → p ∈ Q → peer_ok n p → i ≠ p →
  ∃ w' l', quorum_steps Q w w' ∧ leads Q w' i l' ∧ repaired w w' i p l l'.
Proof.
  intros Hw [Hi Hl Hld Hts] Hlast Hp Hpok Hne. destruct (reached_member _ _ w p Hw Hpok) as [f Hf]. specialize (Hts p f Hp Hf) as Hft.
  destruct (heartbeats_sent env0 ends Q w i l Hw Hi Hl Hld) as (w1 & Hs1 & Hl1 & Hth & Hsame1 & Ha1).
  set (l1 := updateLastHeartbeatLocked env1 l) in *. set (t := term l) in *.
  assert (has_raft w1 p f) as Hf1 by (apply (same_but_raft {[i]} w); [done|set_solver|done]).
  destruct (Heartbeat_follows env1 (heartbeatArgs l1 t) f Hft) as (f1 & Hhb & Hft1). simpl in Hhb, Hft1.
  destruct (round_trip Q w1 i p (GHeartbeat p t) l1 f env1 l1 (CHeartbeat (heartbeatArgs l1 t) t None) f1
    (CHeartbeat (heartbeatArgs l1 t) t (Some (mkHBReply t true))) l1 [GReplicate [p] t])
    as (w2 & Hs2 & Hl2 & Hf2 & _ & Hth2 & Hsame2 & Ha2); try done.
  { by apply Hth. }
  { simpl. by rewrite Hhb. }
  { simpl. unfold heartbeatReply. simpl. by rewrite decide_False by lia. }
  { simpl. by rewrite bool_decide_true by lia. }
  assert (reached w2) as Hw2 by (eapply reached_steps; [|done]; by eapply reached_steps).
  destruct (reached_raft _ _ w2 i l1 Hw2 Hl2) as (Hok1 & _ & _). destruct (ok_leader _ _ Hok1 Hld) as [Hnl _ _].
  destruct (slice_get_inr (nextIndex l1) p) as [x Hx]; [unfold peer_ok in Hpok; lia|].
  destruct (replicates Q (Z.to_nat (Z.max 1 x)) w2 i p x l1 f1) as (w3 & l' & Hs3 & Hrep);
    [done|done|done|done|done|by split|done|done|simpl; lia|apply Hth2; set_solver|lia|].
  assert (repaired w w3 i p l l') as Hrep'.
  { eapply (repaired_after w w2 w3 i p l l1); [|congruence|done|done].
    intros j Hj. rewrite Hsame2, Hsame1 by set_solver. done. }
  exists w3, l'. split_and!; [eapply quorum_trans; [|done]; by eapply quorum_trans| |done].
  destruct Hrep' as [Hl3 [(Es & Et & _) _ _ _ _] (f' & Hf' & Hft' & _) Hsame _].
  split; [done|done|congruence|]. intros q g Hq Hg. rewrite Et. destruct (decide (q = i)) as [->|].
  { rewrite (has_raft_unique w3 i g l') by done. lia. }
  destruct (decide (q = p)) as [->|]; [rewrite (has_raft_unique w3 p g f') by done; lia|].
  apply (Hts q g Hq). apply (same_but_back {[i; p]} w w3); [done|set_solver|done].
Qed.

(** ** All members are brought up to date *)

(** What a round of [replicateTo] with the peers [ps] leaves behind. *)
Record synced w w' (i : Z) (ps : list Z) l l' : Prop := {
  sy_log : l'.(log) = l.(log);
  sy_term : l'.(term) = l.(term);
  sy_commit : l.(commitIndex) ≤ l'.(commitIndex);
  sy_match p : p ∈ ps → ∃ k, slice_get l'.(matchIndex) p = Some k ∧ len l.(log) - 1 ≤ k;
  sy_others q : q ∉ ps → slice_get l'.(matchIndex) q = slice_get l.(matchIndex) q;
  sy_followers p : p ∈ ps → ∃ f', has_raft w' p f' ∧ l.(log) `prefix_of` f'.(log) ∧
    Z.min l.(commitIndex) (len l.(log) - 1) ≤ f'.(commitIndex);
  sy_most M : ps ≠ [] → l'.(commitIndex) < M ≤ lastLogIndexLocked l' → ¬ committable l' M;
  sy_nil : ps = [] → l' = l;
  sy_same : same_but ({[i]} ∪ list_to_set ps) w w';
  sy_applied : w'.(applied) = w.(applied)
}.

Lemma synced_cons w w1 w2 i p ps l l1 l2 :
  i ≠ p → p ∉ ps → repaired w w1 i p l l1 → synced w1 w2 i ps l1 l2 → synced w w2 i (p :: ps) l l2.
Proof.
  intros Hne Hnot [_ [(_ & Et & El & _) Hm Ho Hc Hk] (f & Hf & _ & Hpre & Hfc) Hs Ha] [Sl St Sc Sm So Sf Sk Sn Ss Sa].
  rewrite El in *. split; [done|congruence|lia|..].
  - intros q [->|Hq]%elem_of_cons; [|by apply Sm]. by rewrite So.
  - intros q [Hq1 Hq2]%not_elem_of_cons. rewrite So, Ho by done. done.
  - intros q [->|Hq]%elem_of_cons.
    + exists f. split_and!; [|done|done]. eapply same_but_raft; [done|set_solver|done].
    + destruct (Sf q Hq) as (g & ? & ? & ?). exists g. split_and!; [done..|lia].
  - intros M _. destruct (decide (ps = [])) as [->|]; [|by apply Sk].
    rewrite Sn by done. apply Hk.
  - done.
  - intros j Hj. rewrite Ss, Hs by set_solver. done.
  - congruence.
Qed.

Lemma syncs_all Q (ps : list Z) w i l :
  NoDup ps → reached w → leads Q w i l → lastTerm l.(log) = l.(term) →
  (∀ p, p ∈ ps → p ∈ Q ∧ peer_ok n p ∧ i ≠ p) →
  ∃ w' l', quorum_steps Q w w' ∧ leads Q w' i l' ∧ synced w w' i ps l l'.
Proof.
  intros Hnd. revert w l. induction Hnd as [|p ps Hnot Hnd IH]; intros w l Hw Hld Hlast Hps.
  { exists w, l. split_and!; [apply rtc_refl|done|]. split; try done; try set_solver. }
  destruct (Hps p) as (Hp & Hpok & Hne); [set_solver|].
  destruct (syncs Q w i l p) as (w1 & l1 & Hs1 & Hld1 & Hrep); [done..|].
  pose proof (rp_counted _ _ _ _ _ _ Hrep) as [(_ & Et & El & _) _ _ _ _].
  destruct (IH w1 l1) as (w2 & l2 & Hs2 & Hld2 & Hsy); [by eapply reached_steps|done|by rewrite El, Et|intros q Hq; apply Hps; by right|].
  exists w2, l2. split_and!; [by eapply quorum_trans|done|by eapply synced_cons].
Qed.

(** ** The leader takes a command *)

Lemma lastTerm_snoc lg e : lastTerm (lg ++ [e]) = e.(eTerm).
Proof.
  unfold lastTerm. assert (len (lg ++ [e]) - 1 = len lg) as -> by (autorewrite with slices; lia).
  rewrite slice_get_app_r, Z.sub_diag by lia. done.
Qed.

Lemma starts Q w i l command :
  reached w → leads Q w i l →
  ∃ w' l', quorum_steps Q w w' ∧ leads Q w' i l' ∧ l'.(log) = l.(log) ++ [mkEntry l.(term) (Some command)] ∧
    l'.(term) = l.(term) ∧ w'.(applied) = w.(applied).
Proof.
  intros Hw [Hi Hl Hld Hts]. destruct (reached_raft _ _ w i l Hw Hl) as (Hok & _ & _).
  destruct (Start_spec n command l Hok) as (l' & idx & t & b & gs & Hst & _ & _ & Hcase).
  rewrite decide_True in Hcase by done. destruct Hcase as (Hlog & _ & _ & Hld' & Ht & _). destruct Hl as (nd & Hnd & <-).
  set (w' := set_node i (update nd l' gs) w). assert (quorum_steps Q w w') as Hs.
  { apply (quorum_step Q w (LStart i command)); [by apply bool_decide_eq_true|done|done|]. simpl. rewrite Hnd. simpl. by rewrite Hst. }
  assert (has_raft w' i l') as Hl' by (exists (update nd l' gs); simpl; by rewrite lookup_insert_eq).
  exists w', l'. split_and!; [done| |done|done|done]. split; [done|done|done|]. intros p f Hp Hf. rewrite Ht.
  destruct (decide (p = i)) as [->|]; [rewrite (has_raft_unique w' i f l') by done; lia|].
  apply (Hts p f Hp). destruct Hf as (ndf & Hndf & ?). exists ndf. simpl in Hndf. by rewrite lookup_insert_ne in Hndf by done.
Qed.

(** ** The command is committed at every member *)

Section majority.
Context (Q : gset Z) (HQ : ∀ p, p ∈ Q → peer_ok n p) (Hmaj : Z.of_nat (size Q) > n / 2) (Hn : 2 ≤ n).

Lemma two_members : (2 ≤ size Q)%nat.
Proof using Hmaj Hn. assert (1 ≤ n / 2) by (by apply Z.div_le_lower_bound). lia. Qed.

(** Once all members have acknowledged the log, its last entry is committed. *)
Lemma synced_commits w w' i l l' :
  leads Q w' i l' → reached w' → lastTerm l.(log) = l.(term) → synced w w' i (elements (Q ∖ {[i]})) l l' →
  len l.(log) - 1 ≤ l'.(commitIndex).
Proof using All.
  intros [Hi Hl' _ _] Hw' Hlast Hsy. destruct (reached_raft _ _ w' i l' Hw' Hl') as (Hok & Hme & _).
  pose proof two_members as H2. assert (size (Q ∖ {[i]}) = (size Q - 1)%nat) as Hsz
    by (rewrite size_difference, size_singleton by set_solver; done).
  destruct (decide (len l.(log) - 1 ≤ l'.(commitIndex))) as [|Hno]; [done|]. exfalso.
  apply (sy_most _ _ _ _ _ _ Hsy (len l.(log) - 1)).
  - intros E%elements_empty_iff. assert (Q ∖ {[i]} = ∅) as E' by set_solver. rewrite E', size_empty in Hsz. lia.
  - unfold lastLogIndexLocked. rewrite (sy_log _ _ _ _ _ _ Hsy). lia.
  - pose proof (log_len _ (ok_log _ _ Hok)) as Hlen. rewrite (sy_log _ _ _ _ _ _ Hsy) in Hlen. split.
    + rewrite (sy_log _ _ _ _ _ _ Hsy), (sy_term _ _ _ _ _ _ Hsy), <- Hlast. unfold lastTerm.
      destruct (slice_get_inr l.(log) (len l.(log) - 1)) as [e ->]; [lia|]. by exists e.
    + rewrite (ok_peers _ _ Hok). assert (elements (Q ∖ {[i]}) ⊆+ holders l' (len l.(log) - 1)) as Hsub.
      { apply list.NoDup_submseteq; [apply NoDup_elements|]. intros p Hp.
        destruct (sy_match _ _ _ _ _ _ Hsy p Hp) as (k & Hk & Hle). apply elem_of_elements in Hp.
        apply list_elem_of_filter. rewrite (holds_true l' _ p k Hk), elem_of_range, (ok_peers _ _ Hok).
        assert (peer_ok n p) by (apply HQ; set_solver). split; [split; [set_solver|lia]|done]. }
      apply submseteq_length in Hsub. change (length (elements (Q ∖ {[i]}))) with (size (Q ∖ {[i]})) in Hsub.
      unfold len in *. lia.
Qed.

(** Every member has committed the leader's log. *)
Lemma commits w i l :
  reached w → leads Q w i l → lastTerm l.(log) = l.(term) →
  ∃ w', quorum_steps Q w w' ∧ w'.(applied) = w.(applied) ∧
    ∀ p, p ∈ Q → ∃ f, has_raft w' p f ∧ l.(log) `prefix_of` f.(log) ∧ len l.(log) - 1 ≤ f.(commitIndex).
Proof using All.
  intros Hw Hld Hlast. set (ps := elements (Q ∖ {[i]})).
  assert (∀ p, p ∈ ps → p ∈ Q ∧ peer_ok n p ∧ i ≠ p) as Hps.
  { intros p Hp%elem_of_elements. split_and!; [set_solver|apply HQ; set_solver|set_solver]. }
  destruct (syncs_all Q ps w i l) as (w1 & l1 & Hs1 & Hld1 & Hsy1); [apply NoDup_elements|done..|].
  assert (reached w1) as Hw1 by (by eapply reached_steps).
  pose proof (synced_commits w w1 i l l1 Hld1 Hw1 Hlast Hsy1) as Hc1.
  pose proof (sy_log _ _ _ _ _ _ Hsy1) as El. pose proof (sy_term _ _ _ _ _ _ Hsy1) as Et.
  destruct (syncs_all Q ps w1 i l1) as (w2 & l2 & Hs2 & [_ Hl2 _ _] & Hsy2); [apply NoDup_elements|done|done|by rewrite El, Et|done|].
  exists w2. split_and!; [by eapply quorum_trans|by rewrite (sy_applied _ _ _ _ _ _ Hsy2), (sy_applied _ _ _ _ _ _ Hsy1)|].
  intros p Hp. destruct (decide (p = i)) as [->|Hne].
  - exists l2. split_and!; [done|by rewrite (sy_log _ _ _ _ _ _ Hsy2), El|].
    pose proof (sy_commit _ _ _ _ _ _ Hsy2). lia.
  - destruct (sy_followers _ _ _ _ _ _ Hsy2 p) as (f & Hf & Hpre & Hc); [apply elem_of_elements; set_solver|].
    exists f. rewrite El in *. split_and!; [done..|lia].
Qed.
End majority.

(** ** The command is applied at every member *)

(** What a peer has applied since it started was sent on its channel. *)
Lemma reached_applied w j f :
  reached w → has_raft w j f → 0 < f.(lastApplied) →
  ∃ m, (j, m) ∈ w.(applied) ∧ m.(amIndex) = f.(lastApplied).
Proof.
  intros Hw. assert (∀ j nd, w.(nodes) !! j = Some nd → 0 < nd.(raft).(lastApplied) →
    ∃ m, (j, m) ∈ w.(applied) ∧ m.(amIndex) = nd.(raft).(lastApplied)) as H.
  2: { intros (nd & Hnd & <-). by apply H. }
  clear j f. revert w Hw. apply (rtc_ind_r (λ w, ∀ j nd, w.(nodes) !! j = Some nd → 0 < nd.(raft).(lastApplied) →
    ∃ m, (j, m) ∈ w.(applied) ∧ m.(amIndex) = nd.(raft).(lastApplied))).
  { intros j nd [_ ->]%init_lookup. simpl. lia. }
  intros w w' Hw (lb & _ & _ & Hs) IH j nd' Hj' Hpos. pose proof (reached_ok env0 ends w Hw) as Hok.
  destruct (is_apply lb) eqn:Hlb.
  - destruct lb as [| | | | | |i| |]; try done. simpl in Hs. destruct (nodes w !! i) as [nd|] eqn:Hi; simpl in Hs; [|done].
    destruct (wo_nodes _ _ Hok _ _ Hi) as (Hno & _ & _).
    destruct (applyOne_cases (raft nd) (ok_applied _ _ Hno)) as [(_ & Ha)|(_ & e & _ & Ha)]; rewrite Ha in Hs; simpl in Hs;
      injection Hs as <-; simpl in *; apply lookup_insert_Some in Hj' as [[<- <-]|[_ Hj']]; simpl in *.
    + by apply IH.
    + by apply IH.
    + eexists. split; [apply elem_of_app; right; by apply list_elem_of_singleton|done].
    + destruct (IH j nd' Hj' Hpos) as (m & ? & ?). exists m. split; [|done]. apply elem_of_app. by left.
  - rewrite (step_applied w lb w') by done.
    destruct (step_project n false w lb w' j nd' Hok Hs ltac:(done) Hj') as (nd & Hj & Hst). rewrite Hlb in Hst.
    apply node_step_lastApplied in Hst as [E|E]; [|lia]. rewrite E in *. by apply IH.
Qed.

(** Nothing past the end of the leader's log has been applied anywhere. *)
Lemma applied_short Q w i l j m :
  (∀ p, p ∈ Q → peer_ok n p) → Z.of_nat (size Q) > n / 2 → reached w → leads Q w i l → (j, m) ∈ w.(applied) → m.(amIndex) < len l.(log).
Proof.
  intros HQ Hmaj Hw [_ (nd & Hi & <-) Hld Hts] Hm.
  destruct (orderly_chronicled _ _ _ _ _ _ _ Hw (init_chronicled env0 ends)) as (V & L & A & B & _ & _ & (_ & _ & Hlg & Ha)).
  destruct (an_applied _ _ _ _ _ _ Ha _ _ Hm) as (t & q & e & Hch & He & _). apply slice_get_bound in He.
  assert (q `prefix_of` log (raft nd)) as Hq%prefix_length; [|unfold len in *; lia].
  pose proof (lo_leaders _ _ _ _ Hlg _ _ Hi Hld) as HL. pose proof Hch as [Hown (Q' & HQ' & Hheld)].
  destruct (quorum_intersection n Q Q') as (v & HvQ & Hv); [apply len_nonneg|done|by intros ? [? _]%Hheld|done|done|].
  destruct (Hheld v Hv) as (Hvok & p & Hp & _). destruct (reached_member _ _ w v Hw Hvok) as [f Hf].
  assert (t ≤ term f) as Ht.
  { destruct Hf as (ndv & Hndv & <-). by apply (ch_acks _ _ _ _ _ _ (an_nodes _ _ _ _ _ _ Ha _ _ Hndv) t p). }
  specialize (Hts v f HvQ Hf). destruct (decide (t = term (raft nd))) as [->|Hne].
  - destruct Hown as (i' & lg' & e' & HL' & Hpre & _). congruence.
  - apply (completeness n V L A t q (term (raft nd)) i); [apply len_nonneg|apply Ha|done|done|lia].
Qed.

(** The applier of one peer runs up to index [idx]. *)
Lemma applies Q (k : nat) w j f idx e :
  reached w → j ∈ Q → has_raft w j f → slice_get f.(log) idx = Some e → idx ≤ f.(commitIndex) →
  idx - f.(lastApplied) = Z.of_nat (S k) →
  ∃ w' ms, quorum_steps Q w w' ∧ w'.(applied) = w.(applied) ++ ms ∧
    (j, mkApplyMsg idx e.(eCommand) false []) ∈ ms ∧ same_but {[j]} w w'.
Proof.
  revert w f. induction k as [|k IH]; intros w f Hw Hj Hf He Hc Hk.
  all: destruct (reached_raft _ _ w j f Hw Hf) as (Hok & _ & _); pose proof (slice_get_bound _ _ _ He) as Hb.
  all: destruct (applyOne_cases f (ok_applied _ _ Hok)) as [(Hle & _)|(_ & e1 & He1 & Ha)];
    [unfold applyLimit, lastLogIndexLocked in Hle; lia|].
  all: destruct Hf as (nd & Hnd & <-); set (f1 := set_lastApplied _ _) in Ha;
    set (m := mkApplyMsg (lastApplied (raft nd) + 1) (eCommand e1) false []) in Ha;
    set (w1 := mkWorld (<[j := update nd f1 []]> w.(nodes)) w.(calls) (w.(applied) ++ [(j, m)])).
  all: assert (quorum_steps Q w w1) as Hs1
    by (apply (quorum_step Q w (LApply j)); [by apply bool_decide_eq_true|done|done|]; simpl; rewrite Hnd; simpl; by rewrite Ha).
  all: assert (same_but {[j]} w w1) as Hsame by (intros q Hq; simpl; rewrite lookup_insert_ne by set_solver; done).
  - exists w1, [(j, m)]. split_and!; [done|done| |done]. apply list_elem_of_singleton. unfold m. f_equal.
    replace (lastApplied (raft nd) + 1) with idx in * by lia. congruence.
  - destruct (IH w1 f1) as (w2 & ms & Hs2 & Ha2 & Hin & Hsame2); [by eapply reached_steps|done| |done|done|simpl; lia|].
    + exists (update nd f1 []). simpl. by rewrite lookup_insert_eq.
    + exists w2, ((j, m) :: ms). split_and!; [by eapply quorum_trans| |by right|].
      * rewrite Ha2. simpl. by rewrite <- app_assoc.
      * intros q Hq. by rewrite Hsame2, Hsame.
Qed.

Lemma applies_all Q (ps : list Z) w idx c :
  NoDup ps → reached w →
  (∀ p, p ∈ ps → p ∈ Q ∧ ∃ f e, has_raft w p f ∧ slice_get f.(log) idx = Some e ∧ e.(eCommand) = c ∧
     f.(lastApplied) < idx ≤ f.(commitIndex)) →
  ∃ w' ms, quorum_steps Q w w' ∧ w'.(applied) = w.(applied) ++ ms ∧
    ∀ p, p ∈ ps → (p, mkApplyMsg idx c false []) ∈ ms.
Proof.
  intros Hnd. revert w. induction Hnd as [|p ps Hnot Hnd IH]; intros w Hw Hps.
  { exists w, []. rewrite app_nil_r. split_and!; [apply rtc_refl|done|]. intros p Hp. set_solver. }
  destruct (Hps p) as (Hp & f & e & Hf & He & Hc & Hb); [by left|].
  destruct (applies Q (Z.to_nat (idx - f.(lastApplied) - 1)) w p f idx e) as (w1 & ms1 & Hs1 & Ha1 & Hin1 & Hsame); [done..|lia|lia|].
  destruct (IH w1) as (w2 & ms2 & Hs2 & Ha2 & Hin2); [by eapply reached_steps| |].
  - intros q Hq. destruct (Hps q) as (HqQ & g & e' & Hg & ?); [by right|]. split; [done|]. exists g, e'. split; [|done].
    apply (same_but_raft {[p]} w); [done|set_solver|done].
  - exists w2, (ms1 ++ ms2). split_and!; [by eapply quorum_trans|by rewrite Ha2, Ha1, app_assoc|].
    intros q [->|Hq]%elem_of_cons; apply elem_of_app; [left; congruence|right; by apply Hin2].
Qed.
End service.

(** ** A cluster of one *)

Section alone.
Context {Cmd : Type} `{!Gob Cmd, !GobOk Cmd}.
Implicit Types (rf : Raft Cmd) (w : world Cmd).

(** Goroutines that make no call. *)
Definition callless (g : goroutine) : Prop :=
  match g with GReplicate [] _ | GStartHeartbeat => True | _ => False end.

Definition alone w : Prop :=
  w.(calls) = [] ∧ w.(applied) = [] ∧
  ∀ i nd, w.(nodes) !! i = Some nd → nd.(raft).(commitIndex) = 0 ∧ Forall callless nd.(threads).

Lemma alone_peers rf : node_ok 1 rf → otherPeers rf = [].
Proof.
  intros Hok. unfold otherPeers. rewrite (ok_peers _ _ Hok). pose proof (ok_me _ _ Hok) as Hme.
  change (range 1) with [0]. rewrite filter_cons_False, filter_nil by lia. done.
Qed.

Lemma alone_becomeLeader rf rf' gs :
  node_ok 1 rf → becomeLeaderLocked rf = Some (rf', gs) → rf'.(commitIndex) = rf.(commitIndex) ∧ Forall callless gs.
Proof.
  intros Hok Hb. unfold becomeLeaderLocked in Hb.
  apply bind_Some in Hb as (mi & _ & (ni & _ & [= <- <-])%bind_Some). split; [done|].
  assert (∀ rf1, peers rf1 = peers rf → me rf1 = me rf → otherPeers rf1 = []) as Ho.
  { intros rf1 E1 E2. unfold otherPeers. rewrite E1, E2. apply (alone_peers rf Hok). }
  rewrite Ho by done. by repeat constructor.
Qed.

Lemma alone_lifeAct env s rf rf' gs :
  node_ok 1 rf → lifeAct env s rf = Some (rf', gs) → rf'.(commitIndex) = rf.(commitIndex) ∧ Forall callless gs.
Proof.
  intros Hok. unfold lifeAct. destruct (lifeDecide _ _).
  - unfold StartElection. intros (lt & _ & H)%bind_Some. rewrite decide_True in H by (simpl; rewrite (ok_peers _ _ Hok); done).
    apply alone_becomeLeader in H as [H ?]; [split; [exact H|done]|].
    destruct Hok as [??????? Hl]. split; simpl; try done; [lia|].
    eapply (persisted_ext (persist _)); [done..|]. by apply persist_persisted.
  - intros [= <- <-]. split; [done|]. pose proof (alone_peers rf Hok) as Ho. unfold otherPeers in *. simpl. by rewrite Ho.
  - by intros [= <- <-].
Qed.

Lemma alone_update w i nd nd' :
  alone w → w.(nodes) !! i = Some nd → nd'.(raft).(commitIndex) = 0 → Forall callless nd'.(threads) →
  alone (mkWorld (<[i := nd']> w.(nodes)) [] []).
Proof.
  intros (_ & _ & Hn) Hi Hc Ht. split_and!; [done|done|]. simpl.
  intros j ndj [[<- <-]|[_ Hj]]%lookup_insert_Some; [done|by eapply Hn].
Qed.

Lemma step_alone w lb w' : world_ok 1 w → alone w → step w lb = Done w' → alone w'.
Proof.
  intros Hw Ha Hs. pose proof Ha as (Hcs & Hap & Hn).
  assert (∀ i nd, nodes w !! i = Some nd → node_ok 1 (raft nd)) as Hok by (intros i nd Hi; by apply (wo_nodes _ _ Hw i)).
  destruct lb as [i|i env|i k env|k env|k env|k env|i|i command|i env ends]; simpl in Hs; rewrite ?Hcs in Hs; try done.
  all: destruct (nodes w !! i) as [nd|] eqn:Hi; [|done]; simpl in Hs; destruct (Hn i nd Hi) as [Hc Ht].
  - injection Hs as <-. unfold set_node. rewrite Hcs, Hap. by eapply alone_update.
  - destruct (lifeSnap nd) as [s|]; [|done]. simpl in Hs. destruct (lifeAct _ _ _) as [[rf gs]|] eqn:E; [|done].
    apply alone_lifeAct in E as [E Hg]; [|by eapply Hok]. simpl in Hs. injection Hs as <-. unfold set_node. rewrite Hcs, Hap.
    eapply alone_update; [done|done|simpl; congruence|]. apply Forall_app. done.
  - destruct (threads nd !! k) as [g|] eqn:Hg; [|done]. eapply Forall_lookup_1 in Ht as Hcl; [|exact Hg].
    assert (Forall callless (delete k (threads nd))) as Hd by by apply Forall_delete.
    destruct g as [[|p ps] t|p args t m|p t|]; try done; simpl in Hs; injection Hs as <-; unfold set_calls, set_node; simpl.
    all: rewrite Hap; eapply alone_update; [done|done|done|]; simpl.
    + by rewrite app_nil_r.
    + apply Forall_app. split; [done|]. pose proof (alone_peers (raft nd) (Hok i nd Hi)) as Ho. unfold otherPeers in *. simpl. by rewrite Ho.
  - destruct (applyOne_cases (raft nd)) as [(_ & E)|(Hlt & _)].
    + by eapply ok_applied, Hok.
    + rewrite E in Hs. simpl in Hs. injection Hs as <-. rewrite Hap. eapply alone_update; [done|done|done|]. simpl. by rewrite app_nil_r.
    + pose proof (ok_applied _ _ (Hok i nd Hi)). unfold applyLimit in Hlt. lia.
  - destruct (Start command (raft nd)) as [[[rf r] gs]|] eqn:E; [|done]. simpl in Hs. injection Hs as <-. unfold set_node. rewrite Hcs, Hap.
    destruct (Start_spec 1 command (raft nd) (Hok i nd Hi)) as (rf1 & idx & t & b & gs1 & E1 & _ & _ & Hcase).
    rewrite E in E1. injection E1 as <- _ <-. eapply alone_update; [done|done|..]; simpl.
    + case_decide; [destruct Hcase as (_ & _ & _ & _ & _ & -> & _)|destruct Hcase as (_ & -> & _)]; done.
    + apply Forall_app. split; [done|].
      case_decide; [destruct Hcase as (_ & _ & _ & _ & _ & _ & _ & ->)|destruct Hcase as (_ & _ & ->)]; [|done].
      by rewrite (alone_peers (raft nd)) by by eapply Hok.
  - case_decide; [|done]. injection Hs as <-. unfold set_calls, set_node. simpl. rewrite Hap.
    eapply alone_update; [done|done| |constructor]. simpl. unfold Make, readPersist.
    repeat case_match; done.
Qed.

Lemma reachable_alone env e w : steps (init env [e]) w → world_ok 1 w ∧ alone w.
Proof.
  revert w. apply (rtc_ind_r (λ w, world_ok 1 w ∧ alone w)).
  - split; [apply (init_ok env [e])|]. split_and!; [done|done|]. intros i nd [_ ->]%init_lookup. split; [done|constructor].
  - intros w w' _ [lb Hs] [Hw Ha]. split; [|by eapply step_alone].
    pose proof (step_ok 1 w lb Hw) as Hok. by rewrite Hs in Hok.
Qed.
End alone.

(** ** Theorems *)

(** C5. A majority makes progress: from every world a timely and orderly
    execution of a cluster of at least two peers reaches, whatever has crashed,
    been lost or is delayed, and for every command, any majority of the peers
    can go on, by its own steps, without crashes or failed calls, to a world
    in which each of its members has newly applied that command, all at the
    same index. *)
Theorem majority_commits {Cmd : Type} `{!Gob Cmd, !GobOk Cmd} env (ends : list string) (w : world Cmd) (Q : gset Z) command :
  orderly_steps (init env ends) w → 2 ≤ len ends →
  (∀ p, p ∈ Q → 0 ≤ p < len ends) → Z.of_nat (size Q) > len ends / 2 →
  ∃ w' idx ms, quorum_steps Q w w' ∧ w'.(applied) = w.(applied) ++ ms ∧
    ∀ p, p ∈ Q → (p, mkApplyMsg idx (Some command) false []) ∈ ms.
Proof.
  intros Hw Hn HQ Hmaj. destruct (elects env ends Q HQ Hmaj Hn w Hw) as (w1 & i & l & Hs1 & Hld & Ha1).
  assert (reached env ends w1) as Hw1 by (by eapply reached_steps).
  destruct (starts env ends Q w1 i l command Hw1 Hld) as (w2 & l2 & Hs2 & Hld2 & Hlog2 & Ht2 & Ha2).
  assert (reached env ends w2) as Hw2 by (by eapply reached_steps).
  destruct (commits env ends Q HQ Hmaj Hn w2 i l2 Hw2 Hld2) as (w3 & Hs3 & Ha3 & Hall).
  { by rewrite Hlog2, lastTerm_snoc. }
  assert (reached env ends w3) as Hw3 by (by eapply reached_steps).
  destruct (applies_all env ends Q (elements Q) w3 (len l.(log)) (Some command)) as (w4 & ms & Hs4 & Ha4 & Hms).
  - apply NoDup_elements.
  - done.
  - intros p Hp%elem_of_elements. split; [done|]. destruct (Hall p Hp) as (f & Hf & Hpre & Hc).
    exists f, (mkEntry l.(term) (Some command)). rewrite Hlog2 in *. split_and!; [done| |done| |].
    + apply slice_get_lookup. split; [apply len_nonneg|]. eapply prefix_lookup_Some; [|done].
      unfold len. rewrite Nat2Z.id. by apply list_lookup_middle.
    + destruct (decide (0 < f.(lastApplied))) as [Hpos|]; [|pose proof (reached_raft _ _ w1 i l Hw1 (le_raft _ _ _ _ Hld)) as (Hok & _); pose proof (log_len _ (ok_log _ _ Hok)); lia].
      destruct (reached_applied env ends w3 p f Hw3 Hf Hpos) as (m & Hm & <-).
      rewrite Ha3, Ha2 in Hm. by apply (applied_short env ends Q w1 i l p).
    + autorewrite with slices in Hc. lia.
  - exists w4, (len l.(log)), ms. split_and!.
    + eapply quorum_trans; [|done]. eapply quorum_trans; [|done]. by eapply quorum_trans.
    + congruence.
    + intros p Hp. apply Hms. by apply elem_of_elements.
Qed.

(** C24. A cluster of one peer never commits: its peer elects itself and takes
    commands, but the commit index is moved only when the reply of another
    peer is processed, so no command is ever applied. *)
Theorem alone_never_commits {Cmd : Type} `{!Gob Cmd, !GobOk Cmd} env e (w : world Cmd) :
  steps (init env [e]) w →
  w.(applied) = [] ∧ ∀ i nd, w.(nodes) !! i = Some nd → nd.(raft).(commitIndex) = 0.
Proof.
  intros (_ & _ & Ha & Hn)%reachable_alone. split; [done|]. intros i nd Hi. by apply (Hn i).
Qed.
