(* ===== verification/RaftChecks.v ===== *)
(** * The tester's assertions

    [checkOneLeader], [checkTerms], [checkNoLeader], [nCommitted], [wait] and
    [one] (src/src/raft/config.go).  The tester polls the peers while the cluster
    runs: each [GetState] reads the world of that moment, so the input of a
    check is the list of the worlds it reads, one per peer and round, in the
    order of the execution. *)
From S2P Require Import Prelude RaftNode RaftLog RaftInv RaftEvolve RaftSystem RaftSafety RaftHistory RaftApply RaftElection.

(** What a check ends with: a value, [cfg.t.Fatalf] with its message, or an
    index out of range. *)
Inductive failure :=
| ManyLeaders (t : Z)
| NoLeader
| TermsDisagree
| UnexpectedLeader (i : Z)
| ApplyError (e : applyError)
| ValuesDiffer (index : Z)
| TooFew (nd : Z)
| NoAgreement.

Inductive verdict (A : Type) := Passed (a : A) | Failed (f : failure) | Crashed.
Arguments Passed {A}.
Arguments Failed {A}.
Arguments Crashed {A}.

Definition verdict_bind {A B} (m : verdict A) (k : A → verdict B) : verdict B :=
  match m with Passed a => k a | Failed f => Failed f | Crashed => Crashed end.

Definition present {A} (o : option A) : verdict A :=
  match o with Some a => Passed a | None => Crashed end.

Declare Scope verdict_scope.
Delimit Scope verdict_scope with verdict.
Notation "x <-- m ; k" := (verdict_bind m (λ x, k))
  (at level 20, m at level 100, k at level 200, right associativity, only parsing) : verdict_scope.

(** The loop [for x := range l { s = body(x, s) }]. *)
Fixpoint vfor {A S} (body : A → S → verdict S) (l : list A) (s : S) : verdict S :=
  match l with
  | [] => Passed s
  | x :: l => (s <-- body x s; vfor body l s)%verdict
  end.

(** The value satisfies [P], or the failure [F]; no index is out of range. *)
Definition checked {A} (P : A → Prop) (F : failure → Prop) (v : verdict A) : Prop :=
  match v with Passed a => P a | Failed f => F f | Crashed => False end.

Lemma checked_bind {A B} (P : A → Prop) (Q : B → Prop) F m k :
  checked P F m → (∀ a, P a → checked Q F (k a)) → checked Q F (verdict_bind m k).
Proof. destruct m; simpl; [by auto|done..]. Qed.

Lemma checked_impl {A} (P Q : A → Prop) (F G : failure → Prop) v :
  checked P F v → (∀ a, P a → Q a) → (∀ f, F f → G f) → checked Q G v.
Proof. destruct v; simpl; auto. Qed.

Lemma vfor_checked {S} (I : Z → S → Prop) F body n s :
  0 ≤ n → I 0 s → (∀ i s, 0 ≤ i < n → I i s → checked (I (i + 1)) F (body i s)) →
  checked (I n) F (vfor body (range n) s).
Proof.
  intros Hn H0 Hb.
  assert (∀ k a s, 0 ≤ a → a + Z.of_nat k = n → I a s → checked (I n) F (vfor body (seqZ a (Z.of_nat k)) s)) as H.
  { clear s H0. induction k as [|k IH]; intros a s Ha Hk Hi.
    - rewrite seqZ_nil by lia. simpl. by replace n with a by lia.
    - rewrite seqZ_cons by lia. cbn [vfor]. eapply checked_bind; [by apply Hb; [lia|]|]. intros s' Hs'.
      replace (Z.pred (Z.of_nat (Datatypes.S k))) with (Z.of_nat k) by lia.
      replace (Z.succ a) with (a + 1) by lia. apply IH; [lia..|done]. }
  unfold range. specialize (H (Z.to_nat n) 0 s). rewrite Z2Nat.id in H by lia. apply H; [lia..|done].
Qed.

Section checks.
Context {Cmd : Type} `{!Gob Cmd, !GobOk Cmd}.
Implicit Types (w : world Cmd) (connected : list bool).

(** [cfg.rafts[i].GetState()] in the [i]-th world of a round. *)
Definition readState (round : list (world Cmd)) (i : Z) : verdict (Z * bool) :=
  (w <-- present (slice_get round i);
   nd <-- present (w.(nodes) !! i);
   Passed (GetState nd.(raft)))%verdict.

(** The loop that all checks share: [body] with the state of each connected
    peer. *)
Definition forConnected {S} (connected : list bool) (round : list (world Cmd))
    (body : Z → Z * bool → S → verdict S) (n : Z) (s : S) : verdict S :=
  vfor (λ i s, (c <-- present (slice_get connected i);
                if (c : bool) then st <-- readState round i; body i st s else Passed s)%verdict) (range n) s.

(** One iteration of [checkOneLeader]: the leader of the last term with one. *)
Definition collectLeaders connected round n : verdict (gmap Z (list Z)) :=
  forConnected connected round
    (λ i st m, Passed (if (st.2 : bool) then <[st.1 := default [] (m !! st.1) ++ [i]]> m else m)) n ∅.

Definition lastTerm (leaders : gmap Z (list Z)) : verdict Z :=
  vfor (λ e last, if decide (len e.2 > 1) then Failed (ManyLeaders e.1)
                  else Passed (if decide (e.1 > last) then e.1 else last))
       (map_to_list leaders) (-1).

Definition checkRound connected round n : verdict (option Z) :=
  (leaders <-- collectLeaders connected round n;
   last <-- lastTerm leaders;
   if decide (leaders = ∅) then Passed None
   else i <-- present (slice_get (default [] (leaders !! last)) 0); Passed (Some i))%verdict.

(** [checkOneLeader]; it looks at up to ten [rounds]. *)
Fixpoint checkOneLeader connected (rounds : list (list (world Cmd))) (n : Z) : verdict Z :=
  match rounds with
  | [] => Failed NoLeader
  | round :: rounds =>
    (r <-- checkRound connected round n;
     match r with Some i => Passed i | None => checkOneLeader connected rounds n end)%verdict
  end.

Definition checkTerms connected round n : verdict Z :=
  forConnected connected round
    (λ i st term, if decide (term = -1) then Passed st.1
                  else if decide (term ≠ st.1) then Failed TermsDisagree else Passed term) n (-1).

Definition checkNoLeader connected round n : verdict unit :=
  forConnected connected round
    (λ i st s, if (st.2 : bool) then Failed (UnexpectedLeader i) else Passed s) n tt.

(** ** What the checks say *)

(** What the check has seen of peer [i] in a round. *)
Definition saw connected (round : list (world Cmd)) (i : Z) (st : Z * bool) : Prop :=
  slice_get connected i = Some true ∧ readState round i = Passed st.

(** All peers can be asked, and are in a term. *)
Definition readable (n : Z) (round : list (world Cmd)) : Prop :=
  ∀ i, 0 ≤ i < n → ∃ st, readState round i = Passed st ∧ 0 ≤ st.1.

Lemma forConnected_checked {S} connected round n (I : Z → S → Prop) F body s :
  len connected = n → readable n round → I 0 s →
  (∀ i st s, 0 ≤ i < n → saw connected round i st → 0 ≤ st.1 → I i s → checked (I (i + 1)) F (body i st s)) →
  (∀ i s, 0 ≤ i < n → slice_get connected i = Some false → I i s → I (i + 1) s) →
  checked (I n) F (forConnected connected round body n s).
Proof.
  intros Hl Hr H0 Hsaw Hskip. apply vfor_checked; [rewrite <- Hl; apply len_nonneg|done|].
  intros i s' Hi HI. destruct (slice_get_inr connected i) as [c Hc]; [lia|]. rewrite Hc. cbn [present verdict_bind].
  destruct c; [|by apply Hskip]. destruct (Hr i Hi) as (st & Hst & Hpos). rewrite Hst. cbn [verdict_bind].
  apply Hsaw; [done|by split|done|done].
Qed.

(** The map [leaders]. *)
Record leaders_of connected round (n : Z) (m : gmap Z (list Z)) : Prop := {
  lo_elem : ∀ t j, j ∈ default [] (m !! t) ↔ 0 ≤ j < n ∧ saw connected round j (t, true);
  lo_list : ∀ t l, m !! t = Some l → l ≠ [] ∧ NoDup l;
  lo_term : ∀ t, is_Some (m !! t) → 0 ≤ t
}.

Lemma collectLeaders_spec connected round n :
  len connected = n → readable n round →
  checked (leaders_of connected round n) (λ _, False) (collectLeaders connected round n).
Proof.
  intros Hl Hr. apply forConnected_checked; [done..| | |].
  - split; [|by intros ??; rewrite lookup_empty|intros ? [? H]; by rewrite lookup_empty in H].
    intros t j. rewrite lookup_empty. simpl. split; [by intros ?%elem_of_nil|lia].
  - intros i [t b] m Hi Hs Ht [He Hm Hterm]. simpl.
    assert (∀ t' j, j = i → saw connected round j (t', true) → b = true ∧ t' = t) as Hdet.
    { intros t' j -> [_ E]. destruct Hs as [_ Hs]. rewrite Hs in E. by simplify_eq. }
    assert (∀ t' j, 0 ≤ j < i + 1 ∧ saw connected round j (t', true) ↔
                    (0 ≤ j < i ∧ saw connected round j (t', true)) ∨ (j = i ∧ b = true ∧ t' = t)) as Hiff.
    { intros t' j. split.
      - intros [Hj Hsj]. destruct (decide (j = i)); [right; by eauto|left; split; [lia|done]].
      - intros [[? ?]|(-> & -> & ->)]; [split; [lia|done]|split; [lia|done]]. }
    destruct b.
    + split.
      * intros t' j. rewrite Hiff, <- He. destruct (decide (t' = t)) as [->|Hne].
        -- rewrite lookup_insert_eq. simpl. rewrite elem_of_app, list_elem_of_singleton. naive_solver.
        -- rewrite lookup_insert_ne by done. naive_solver.
      * intros t' l [[<- <-]|[_ ?]]%lookup_insert_Some; [|by eapply Hm].
        split; [by intros [_ ?]%app_nil|]. apply NoDup_app. split_and!; [|..|by apply NoDup_singleton].
        -- destruct (m !! t) eqn:E; [by eapply Hm|constructor].
        -- intros j Hj Hji%list_elem_of_singleton. subst. apply He in Hj as [? _]. lia.
      * intros t' [l [[<- _]|[_ ?]]%lookup_insert_Some]; [done|]. by apply Hterm.
    + split; [|done|done]. intros t' j. rewrite Hiff, <- He. naive_solver.
  - intros i m Hi Hc [He Hm Hterm]. split; [|done|done]. intros t j. rewrite He. split; [intros [? ?]; split; [lia|done]|].
    intros [Hj [Hcj ?]]. split; [|by split]. assert (j ≠ i) by (intros ->; congruence). lia.
Qed.

(** A term with two leaders. *)
Definition split_vote connected round (n : Z) (t : Z) : Prop :=
  ∃ i j, i ≠ j ∧ (0 ≤ i < n ∧ saw connected round i (t, true)) ∧ (0 ≤ j < n ∧ saw connected round j (t, true)).

Lemma vfor_list {A S} (I : S → Prop) F (body : A → S → verdict S) l s :
  I s → (∀ x s, x ∈ l → I s → checked I F (body x s)) → checked I F (vfor body l s).
Proof.
  revert s. induction l as [|x l IH]; intros s Hs Hb; [done|]. cbn [vfor].
  eapply checked_bind; [apply Hb; [constructor|done]|]. intros s' Hs'. apply IH; [done|].
  intros y s1 Hy. apply Hb. by constructor.
Qed.

(** The largest term of the map. *)
Lemma lastTerm_spec connected round n m :
  leaders_of connected round n m →
  checked (λ last, (m = ∅ → last = -1) ∧ (m ≠ ∅ → is_Some (m !! last)) ∧ ∀ t, is_Some (m !! t) → t ≤ last)
    (λ f, ∃ t, f = ManyLeaders t ∧ split_vote connected round n t) (lastTerm m).
Proof.
  intros [He Hm Hterm]. unfold lastTerm.
  assert (∀ t l, (t, l) ∈ map_to_list m → m !! t = Some l) as Hin by (intros t l; apply elem_of_map_to_list).
  assert (∀ t, is_Some (m !! t) → ∃ l, (t, l) ∈ map_to_list m) as Hall.
  { intros t [l Hl]. exists l. by apply elem_of_map_to_list. }
  assert (∀ l last,
    (∀ t x, (t, x) ∈ l → m !! t = Some x) → (last = -1 ∨ is_Some (m !! last)) →
    checked (λ last', (last' = last ∨ is_Some (m !! last')) ∧ last ≤ last' ∧ ∀ t x, (t, x) ∈ l → t ≤ last')
      (λ f, ∃ t, f = ManyLeaders t ∧ split_vote connected round n t)
      (vfor (λ e last, if decide (len e.2 > 1) then Failed (ManyLeaders e.1)
                       else Passed (if decide (e.1 > last) then e.1 else last)) l last)) as Hloop.
  { intros l. induction l as [|[t x] l IH]; intros last Hl Hlast.
    { simpl. split_and!; [by left|lia|by intros ?? ?%elem_of_nil]. }
    cbn [vfor fst snd]. assert (m !! t = Some x) as Ht by (apply Hl; constructor). case_decide as Hlen.
    - simpl. exists t. split; [done|]. destruct (Hm t x Ht) as [_ Hnd].
      destruct x as [|i [|j x]]; [done|by unfold len in Hlen; simpl in Hlen; lia|].
      apply NoDup_cons in Hnd as [Hij _]. exists i, j.
      split; [by intros ->; apply Hij; constructor|].
      split; apply He; rewrite Ht; simpl; [by constructor|by constructor; constructor].
    - cbn [verdict_bind]. set (last1 := if decide _ then _ else _).
      assert ((last1 = last ∨ is_Some (m !! last1)) ∧ last ≤ last1 ∧ t ≤ last1) as (H1 & H2 & H3).
      { unfold last1. case_decide; [split_and!; [right; by eexists|lia|lia]|split_and!; [by left|lia|lia]]. }
      eapply checked_impl; [apply (IH last1); [by intros; apply Hl; constructor|]|..|done].
      + destruct H1 as [->|?]; [done|by right].
      + intros last' (H4 & H5 & H6). split_and!; [|lia|].
        * destruct H4 as [->|?]; [done|by right].
        * intros t' x' [E|?]%elem_of_cons; [simplify_eq; lia|by eapply H6]. }
  eapply checked_impl; [apply (Hloop _ (-1)); [exact Hin|by left]| |done].
  intros last (H1 & H2 & H3). split_and!.
  - intros ->. destruct H1 as [?|[? H]]; [done|]. by rewrite lookup_empty in H.
  - intros Hne. apply map_choose in Hne as (t & x & Hx). assert (is_Some (m !! t)) as Ht by (by eexists).
    destruct (Hall t Ht) as [x' Hx']. apply H3 in Hx'. specialize (Hterm t Ht). destruct H1 as [->|?]; [lia|done].
  - intros t Ht. destruct (Hall t Ht) as [x Hx]. by eapply H3.
Qed.

(** Peer [i] was seen to lead the last term anybody was seen to lead. *)
Definition last_leader connected round (n i : Z) : Prop :=
  ∃ t, 0 ≤ i < n ∧ saw connected round i (t, true) ∧
       ∀ j t', 0 ≤ j < n → saw connected round j (t', true) → t' ≤ t.
Definition no_leader connected round (n : Z) : Prop :=
  ∀ j t, 0 ≤ j < n → ¬ saw connected round j (t, true).

Lemma checkRound_spec connected round n :
  len connected = n → readable n round →
  checked (λ r, match r with Some i => last_leader connected round n i | None => no_leader connected round n end)
    (λ f, ∃ t, f = ManyLeaders t ∧ split_vote connected round n t) (checkRound connected round n).
Proof.
  intros Hl Hr. unfold checkRound. eapply checked_bind.
  { eapply checked_impl; [by apply collectLeaders_spec|by intros m Hm; exact Hm|done]. }
  intros m Hm. eapply checked_bind; [by apply lastTerm_spec|]. intros last (Hnone & Hsome & Hmax).
  destruct Hm as [He Hlist _]. case_decide as Hem.
  - simpl. intros j t Hj Hs. assert (j ∈ default [] (m !! t)) as H by (by apply He).
    subst. rewrite lookup_empty in H. by apply elem_of_nil in H.
  - destruct (Hsome Hem) as [l Hlast]. destruct (Hlist last l Hlast) as [Hne _].
    destruct l as [|i l]; [done|]. rewrite Hlast. simpl. exists last.
    assert (i ∈ default [] (m !! last)) as [Hi Hs]%He by (rewrite Hlast; constructor). split_and!; [lia..|done|].
    intros j t Hj Hsj. apply Hmax. assert (j ∈ default [] (m !! t)) as H by (by apply He).
    destruct (m !! t); [by eexists|]. by apply elem_of_nil in H.
Qed.

Lemma checkOneLeader_spec connected rounds n :
  len connected = n → Forall (readable n) rounds →
  checked (λ i, ∃ round, round ∈ rounds ∧ last_leader connected round n i)
    (λ f, (f = NoLeader ∧ Forall (λ round, no_leader connected round n) rounds) ∨
          ∃ round t, round ∈ rounds ∧ f = ManyLeaders t ∧ split_vote connected round n t)
    (checkOneLeader connected rounds n).
Proof.
  intros Hl Hr. induction Hr as [|round rounds Hr _ IH]; [by left|]. cbn [checkOneLeader].
  pose proof (checkRound_spec connected round n Hl Hr) as Hround.
  destruct (checkRound connected round n) as [[i|]|f|]; simpl in *.
  - exists round. split; [constructor|done].
  - eapply checked_impl; [exact IH|..].
    + intros i (r & ? & ?). exists r. split; [by constructor|done].
    + intros f [[-> ?]|(r & t & ? & ? & ?)]; [left; split; [done|by constructor]|].
      right. exists r, t. split; [by constructor|done].
  - destruct Hround as (t & -> & ?). right. exists round, t. split; [constructor|done].
  - done.
Qed.

Lemma checkTerms_spec connected round n :
  len connected = n → readable n round →
  checked (λ term, (∀ i st, 0 ≤ i < n → saw connected round i st → st.1 = term) ∧
                   (term = -1 ∨ ∃ i b, 0 ≤ i < n ∧ saw connected round i (term, b)))
    (λ f, f = TermsDisagree ∧ ∃ i j t t' b b', t ≠ t' ∧ saw connected round i (t, b) ∧ saw connected round j (t', b'))
    (checkTerms connected round n).
Proof.
  intros Hl Hr. unfold checkTerms.
  apply (forConnected_checked connected round n (λ k term,
    (∀ i st, 0 ≤ i < k → saw connected round i st → st.1 = term) ∧
    (term = -1 ∨ ∃ i b, 0 ≤ i < k ∧ saw connected round i (term, b)))); [done|done| | |].
  - split; [intros; lia|by left].
  - intros i [t b] term Hi Hs Ht [Hall Hsome]. simpl in *.
    assert (∀ st, saw connected round i st → st = (t, b)) as Hdet.
    { intros st [_ E]. destruct Hs as [_ Hs]. rewrite Hs in E. by simplify_eq. }
    assert (∀ k, 0 ≤ k < i + 1 → k = i ∨ 0 ≤ k < i) as Hk by lia.
    case_decide as E1; [|case_decide as E2]; simpl.
    + subst term. split; [|right; exists i, b; split; [lia|done]]. intros k st [->|?]%Hk Hsk; [by apply Hdet in Hsk as ->|].
      exfalso. destruct (Hr k) as (st' & Hst' & Hpos); [lia|]. pose proof (proj2 Hsk) as E. rewrite Hst' in E. simplify_eq.
      specialize (Hall k st ltac:(lia) Hsk). lia.
    + split; [done|]. destruct Hsome as [?|(k & b' & _ & ?)]; [done|]. exists k, i, term, t, b', b. split_and!; [congruence|done..].
    + assert (t = term) as -> by (by destruct (decide (term = t))). split.
      * intros k st [->|?]%Hk Hsk; [by apply Hdet in Hsk as ->|by eapply Hall].
      * right. exists i, b. split; [lia|done].
  - intros i term Hi Hc [Hall Hsome]. split.
    + intros k st Hk Hsk. apply (Hall k); [|done]. assert (k ≠ i) by (intros ->; destruct Hsk; congruence). lia.
    + destruct Hsome as [?|(k & b & ? & ?)]; [by left|]. right. exists k, b. split; [lia|done].
Qed.

Lemma checkNoLeader_spec connected round n :
  len connected = n → readable n round →
  checked (λ _, no_leader connected round n)
    (λ f, ∃ i t, f = UnexpectedLeader i ∧ saw connected round i (t, true)) (checkNoLeader connected round n).
Proof.
  intros Hl Hr. apply (forConnected_checked connected round n (λ k _, no_leader connected round k)); [done|done| | |].
  - intros j t ?. lia.
  - intros i [t b] s Hi Hs _ Hno. simpl. destruct b; simpl; [by eauto|]. intros j t' Hj Hsj.
    destruct (decide (j = i)) as [->|]; [|by apply (Hno j t'); [lia|]].
    destruct Hs as [_ E], Hsj as [_ E']. rewrite E in E'. by simplify_eq.
  - intros i s Hi Hc Hno j t Hj Hsj. destruct (decide (j = i)) as [->|]; [destruct Hsj; congruence|].
    by apply (Hno j t); [lia|].
Qed.

(** ** The moments of an execution a test reads *)

Fixpoint moments w (ws : list (world Cmd)) : Prop :=
  match ws with
  | [] => True
  | w' :: ws => timely_steps w w' ∧ moments w' ws
  end.

Lemma moments_reach w ws a x : moments w ws → ws !! a = Some x → timely_steps w x.
Proof.
  revert w a. induction ws as [|w' ws IH]; intros w a; [done|]. intros [Hs Hm].
  destruct a as [|a]; simpl; [by intros [= <-]|]. intros Hx. etrans; [exact Hs|by eapply IH].
Qed.

Lemma moments_order w ws a b x y :
  moments w ws → (a ≤ b)%nat → ws !! a = Some x → ws !! b = Some y → timely_steps x y.
Proof.
  revert w a b. induction ws as [|w' ws IH]; intros w a b; [done|]. intros [_ Hm] Hab Ha Hb.
  destruct a as [|a], b as [|b]; simplify_eq/=; [constructor|by eapply moments_reach|lia|by eapply (IH _ a b); [|lia|..]].
Qed.

(** A round is a stretch of the moments. *)
Lemma round_moments w rounds round :
  moments w (concat rounds) → round ∈ rounds →
  (∀ a x, round !! a = Some x → timely_steps w x) ∧
  (∀ a b x y, (a ≤ b)%nat → round !! a = Some x → round !! b = Some y → timely_steps x y).
Proof.
  intros Hm (pre & post & ->)%list_elem_of_split. rewrite concat_app in Hm. simpl in Hm.
  assert (∀ a x, round !! a = Some x → (concat pre ++ round ++ concat post) !! (length (concat pre) + a)%nat = Some x) as Hat.
  { intros a x Hx. rewrite lookup_app_r by lia. rewrite Nat.add_comm, Nat.add_sub. by apply lookup_app_l_Some. }
  split.
  - intros a x Hx%Hat. by eapply moments_reach.
  - intros a b x y Hab Hx%Hat Hy%Hat. by eapply (moments_order _ _ _ _ _ _ Hm); [|exact Hx|exact Hy]; lia.
Qed.

Lemma saw_leader connected round i t :
  saw connected round i (t, true) → ∃ w, slice_get round i = Some w ∧ isLeader w i t.
Proof.
  intros [_ Hs]. unfold readState in Hs. destruct (slice_get round i) as [w|]; [|done]. simpl in Hs.
  destruct (nodes w !! i) as [nd|] eqn:Hi; [|done]. simpl in Hs. unfold GetState in Hs. injection Hs as Ht Hl.
  exists w. split; [done|]. exists nd. split_and!; [done|by eapply bool_decide_eq_true_1|done].
Qed.

Lemma round_readable env (ends : list string) rounds round :
  moments (init env ends) (concat rounds) → round ∈ rounds → len round = len ends → readable (len ends) round.
Proof.
  intros Hm Hin Hlen i Hi. destruct (round_moments _ _ _ Hm Hin) as [Hr _].
  destruct (slice_get_inr round i) as [w Hw]; [lia|]. apply slice_get_lookup in Hw as Hw'. destruct Hw' as [_ Hw'].
  assert (world_ok (len ends) w) as Hok by (eapply reachable_ok, timely_steps_steps; by eapply Hr).
  destruct (proj2 (wo_dom _ _ Hok i)) as [nd Hnd]; [done|].
  unfold readState. rewrite Hw. simpl. rewrite Hnd. simpl. eexists. split; [done|]. simpl.
  destruct (wo_nodes _ _ Hok _ _ Hnd) as (Hn & _). by apply (ok_term _ _ Hn).
Qed.

(** ** Theorems *)

(** C36. The test suite's leader check on this implementation: whatever the
    cluster does while [checkOneLeader] polls it, as long as replies are
    timely the check never reports a term with two leaders; it returns a
    connected peer that was leading, in the highest term any connected peer
    of that round was leading in, or fails because in no round anybody was. *)
Theorem one_leader_check env (ends : list string) connected rounds :
  len connected = len ends → Forall (λ round, len round = len ends) rounds →
  moments (init env ends) (concat rounds) →
  match checkOneLeader connected rounds (len ends) with
  | Passed i => ∃ round, round ∈ rounds ∧ last_leader connected round (len ends) i
  | Failed f => f = NoLeader ∧ Forall (λ round, no_leader connected round (len ends)) rounds
  | Crashed => False
  end.
Proof.
  intros Hc Hlen Hm. rewrite Forall_forall in Hlen.
  assert (Forall (readable (len ends)) rounds) as Hr.
  { apply Forall_forall. intros round Hin. by eapply round_readable; [..|apply Hlen]. }
  pose proof (checkOneLeader_spec connected rounds (len ends) Hc Hr) as H.
  destruct (checkOneLeader connected rounds (len ends)) as [i|f|]; [done| |done].
  destruct H as [?|(round & t & Hin & _ & Hsplit)]; [done|]. exfalso.
  destruct (round_moments _ _ _ Hm Hin) as [Hreach Horder].
  assert (∀ i j, i < j → saw connected round i (t, true) → saw connected round j (t, true) → i = j) as Huniq.
  { intros i j Hij (wi & Hwi & Hi)%saw_leader (wj & Hwj & Hj)%saw_leader.
    apply slice_get_lookup in Hwi as [? Hwi], Hwj as [? Hwj].
    apply (leaders_agree env ends wi wj i j t); [by eapply Hreach| |done|done].
    apply (Horder (Z.to_nat i) (Z.to_nat j)); [lia|done|done]. }
  destruct Hsplit as (i & j & Hne & [_ Hi] & [_ Hj]).
  destruct (Z.lt_total i j) as [Hlt|[?|Hlt]]; [by apply Hne, Huniq|done|]. by apply Hne; symmetry; apply Huniq.
Qed.

End checks.

(** [nCommitted]: how many servers have applied [index], and the command. *)
Definition nCommitted (applyErr : list (option applyError)) (logs : list (gmap Z Z)) (n index : Z)
    : verdict (Z * Z) :=
  vfor (λ i s,
    let '(count, cmd) := s in
    (err <-- present (slice_get applyErr i);
     match err with
     | Some e => Failed (ApplyError e)
     | None =>
       l <-- present (slice_get logs i);
       match l !! index with
       | Some cmd1 =>
         if decide (count > 0 ∧ cmd ≠ cmd1) then Failed (ValuesDiffer index) else Passed (count + 1, cmd1)
       | None => Passed (count, cmd)
       end
     end)%verdict) (range n) (0, -1).

(** One iteration of [wait]: what [nCommitted] reads, and the peers' terms. *)
Record poll := mkPoll {
  pErrs : list (option applyError); pLogs : list (gmap Z Z); pTerms : list Z
}.

(** The loop of [wait], over its (up to thirty) polls: [Some] when somebody has
    moved on to a later term. *)
Fixpoint waitLoop (polls : list poll) (n index need startTerm : Z) : verdict (option Z) :=
  match polls with
  | [] => Passed None
  | p :: polls =>
    (r <-- nCommitted p.(pErrs) p.(pLogs) n index;
     if decide (r.1 >= need)%Z then Passed None
     else if decide (startTerm > -1 ∧ Exists (λ t, t > startTerm) p.(pTerms)) then Passed (Some (-1))
     else waitLoop polls n index need startTerm)%verdict
  end.

Definition wait (polls : list poll) (last : poll) (n index need startTerm : Z) : verdict Z :=
  (r <-- waitLoop polls n index need startTerm;
   match r with
   | Some v => Passed v
   | None =>
     r <-- nCommitted last.(pErrs) last.(pLogs) n index;
     if decide (r.1 < need) then Failed (TooFew r.1) else Passed r.2
   end)%verdict.

(** ** Agreement of the tester's logs *)

(** No index has two values. *)
Definition agree (logs : list (gmap Z Z)) : Prop :=
  ∀ l l' k v v', l ∈ logs → l' ∈ logs → l !! k = Some v → l' !! k = Some v' → v = v'.

Lemma emptyLogs_agree n : agree (emptyLogs n).
Proof. intros l l' k v v' Hl. apply elem_of_replicate in Hl as [-> _]. by rewrite lookup_empty. Qed.

Lemma readApplied_agree logs i m logs' :
  agree logs → readApplied logs i m = Some (logs', None) → agree logs'.
Proof.
  intros Hag Hr. unfold readApplied in Hr. destruct (amUseSnapshot m); [by simplify_eq|].
  destruct (amCommand m) as [v|]; [|done]. destruct (slice_get logs i) as [l|] eqn:Hl; [|done]. simpl in Hr.
  destruct (slice_set logs i _) as [logs1|] eqn:Hset; [|done]. simpl in Hr.
  apply slice_set_Some in Hset as [_ ->]. apply slice_get_lookup in Hl as [_ Hl%list_elem_of_lookup_2].
  destruct (_ && _); [done|]. destruct (existsb _ logs) eqn:Hex; [done|]. simplify_eq.
  assert (∀ l' v', l' ∈ logs → l' !! amIndex m = Some v' → v' = v) as Hsame.
  { intros l' v' Hl' Hv'. destruct (decide (v' = v)) as [|Hne]; [done|]. exfalso.
    rewrite <- not_true_iff_false, existsb_exists in Hex. apply Hex. exists l'. split; [by apply list_elem_of_In|].
    rewrite Hv'. by apply bool_decide_eq_true. }
  assert (∀ l' k v', l' ∈ <[Z.to_nat i := <[amIndex m := v]> l]> logs → l' !! k = Some v' →
            (k = amIndex m ∧ v' = v) ∨ ∃ l0, l0 ∈ logs ∧ l0 !! k = Some v') as Hcase.
  { intros l' k v' [->|?]%elem_of_insert_inv; [|by eauto]. intros [[<- <-]|[? ?]]%lookup_insert_Some; by eauto. }
  intros l1 l2 k v1 v2 H1 H2 E1 E2.
  destruct (Hcase _ _ _ H1 E1) as [[-> ->]|(l1' & ? & ?)], (Hcase _ _ _ H2 E2) as [[Ek ->]|(l2' & ? & ?)].
  - done.
  - symmetry. by eapply Hsame.
  - subst. by eapply Hsame.
  - by eapply (Hag l1' l2').
Qed.

Lemma readApplied_len logs i m logs' e : readApplied logs i m = Some (logs', e) → len logs' = len logs.
Proof.
  unfold readApplied. destruct (amUseSnapshot m); [by intros [= <- _]|]. destruct (amCommand m); [|by intros [= <- _]].
  intros (l & _ & (logs1 & [_ ->]%slice_set_Some & [= <- _])%bind_Some)%bind_Some. by autorewrite with slices.
Qed.

Lemma readAll_agree logs ms logs' :
  agree logs → readAll logs ms = Some (logs', None) → agree logs' ∧ len logs' = len logs.
Proof.
  revert logs. induction ms as [|[i m] ms IH]; intros logs Hag; cbn [readAll]; [by intros [= <-]|].
  intros ([logs1 [e|]] & Hr & H)%bind_Some; [done|]. rewrite <- (readApplied_len _ _ _ _ _ Hr).
  apply IH; [by eapply readApplied_agree|done].
Qed.

(** The servers that have applied [index]. *)
Definition holders (index : Z) (logs : list (gmap Z Z)) : Z :=
  len (omap (λ l : gmap Z Z, l !! index) logs).

Lemma holders_snoc index logs l : holders index (logs ++ [l]) = holders index logs + len (option_list (l !! index)).
Proof. unfold holders. rewrite omap_app, len_app. simpl. by destruct (l !! index). Qed.

Lemma holders_pos index logs : 0 < holders index logs → ∃ l v, l ∈ logs ∧ l !! index = Some v.
Proof.
  unfold holders. intros H. destruct (omap (λ l : gmap Z Z, l !! index) logs) as [|v vs] eqn:E; [by unfold len in H|].
  assert (v ∈ omap (λ l : gmap Z Z, l !! index) logs) as (l & ? & ?)%list_elem_of_omap by (rewrite E; constructor). by eauto.
Qed.

(** The count and the command after looking at [logs]. *)
Definition tally (index : Z) (logs : list (gmap Z Z)) (s : Z * Z) : Prop :=
  s.1 = holders index logs ∧ (s.1 = 0 → s.2 = -1) ∧ ∀ l v, l ∈ logs → l !! index = Some v → v = s.2.

Lemma tally_hit index logs l v count cmd :
  agree (logs ++ [l]) → tally index logs (count, cmd) → l !! index = Some v →
  ¬ (count > 0 ∧ cmd ≠ v) ∧ tally index (logs ++ [l]) (count + 1, v).
Proof.
  intros Hag (Hc & Hz & Hall) Hv. simpl in *.
  assert (∀ l' v', l' ∈ logs ++ [l] → l' !! index = Some v' → v' = v) as Hsame.
  { intros l' v' Hl' Hv'. eapply Hag; [exact Hl'|apply elem_of_app; right; by apply list_elem_of_singleton|done|done]. }
  assert (0 ≤ holders index logs) as Hpos by apply len_nonneg. split.
  - intros [Hgt Hne]. apply Hne. destruct (holders_pos index logs) as (l' & v' & Hl' & Hv'); [lia|].
    rewrite <- (Hall _ _ Hl' Hv'). apply (Hsame l'); [by apply elem_of_app; left|done].
  - split_and!; simpl; [|lia|done]. rewrite holders_snoc, Hv. unfold len. simpl. lia.
Qed.

Lemma tally_miss index logs l s : tally index logs s → l !! index = None → tally index (logs ++ [l]) s.
Proof.
  intros (Hc & Hz & Hall) Hv. split_and!; [|done|].
  - by rewrite holders_snoc, Hv, Hc, Z.add_0_r.
  - intros l' v' [Hl'|Hl'%list_elem_of_singleton]%elem_of_app Hv'; [by eapply Hall|]. subst. congruence.
Qed.

Lemma nCommitted_spec logs n index :
  agree logs → len logs = n →
  checked (tally index logs) (λ _, False) (nCommitted (replicate (Z.to_nat n) None) logs n index).
Proof.
  intros Hag Hlen. pose proof (len_nonneg logs) as Hpos. rewrite Hlen in Hpos.
  assert (take (Z.to_nat n) logs = logs) as Hfull by (apply take_ge; unfold len in Hlen; lia).
  rewrite <- Hfull at 1. apply (vfor_checked (λ i, tally index (take (Z.to_nat i) logs))); [done| |].
  { split_and!; [done|done|]. by intros l x Hl%elem_of_nil. }
  intros i [count cmd] Hi Ht. rewrite (proj2 (slice_get_replicate _ _ _ _)) by (split; [done|lia]).
  destruct (slice_get_inr logs i) as [l Hl]; [lia|]. rewrite Hl. cbn [present verdict_bind].
  apply slice_get_lookup in Hl as [_ Hl].
  assert (take (Z.to_nat (i + 1)) logs = take (Z.to_nat i) logs ++ [l]) as Htake.
  { replace (Z.to_nat (i + 1)) with (S (Z.to_nat i)) by lia. by apply take_S_r. }
  assert (agree (take (Z.to_nat i) logs ++ [l])) as Hag'.
  { rewrite <- Htake. intros l1 l2 k v1 v2 H1 H2.
    apply (Hag l1 l2 k v1 v2); eapply elem_of_submseteq; [exact H1| |exact H2|]; apply sublist_submseteq, sublist_take. }
  rewrite Htake. destruct (l !! index) as [v|] eqn:Hv; [|by apply tally_miss].
  destruct (tally_hit index _ l v count cmd Hag' Ht Hv) as [Hno Hok]. by rewrite decide_False.
Qed.

(** What the tester's readers have recorded when they have reported nothing. *)
Definition recorded (n : Z) (p : poll) : Prop :=
  ∃ ms, readAll (emptyLogs n) ms = Some (p.(pLogs), None) ∧ p.(pErrs) = replicate (Z.to_nat n) None.

Lemma poll_spec n index p :
  0 ≤ n → recorded n p → checked (tally index p.(pLogs)) (λ _, False) (nCommitted p.(pErrs) p.(pLogs) n index).
Proof.
  intros Hn (ms & Hr & ->). destruct (readAll_agree _ _ _ (emptyLogs_agree n) Hr) as [Hag Hlen].
  apply nCommitted_spec; [done|]. rewrite Hlen. unfold emptyLogs. rewrite len_replicate. lia.
Qed.

(** [wait] on logs that the readers of the apply channels have accepted:
    it never fails for different values; it returns -1 when somebody has moved
    on to a later term, and otherwise a command that all servers that have
    applied the index have there, at least [need] of them; or it fails because
    there are fewer. *)
Theorem wait_agreement n index need startTerm polls last :
  0 ≤ n → Forall (recorded n) polls → recorded n last →
  match wait polls last n index need startTerm with
  | Passed v =>
      (v = -1 ∧ startTerm > -1 ∧ Exists (λ p, Exists (λ t, t > startTerm) p.(pTerms)) polls) ∨
      (need ≤ holders index last.(pLogs) ∧
       (holders index last.(pLogs) = 0 → v = -1) ∧
       ∀ l v', l ∈ last.(pLogs) → l !! index = Some v' → v' = v)
  | Failed f => f = TooFew (holders index last.(pLogs)) ∧ holders index last.(pLogs) < need
  | Crashed => False
  end.
Proof.
  intros Hn Hpolls Hlast. unfold wait.
  assert (checked (λ r, ∀ v, r = Some v → v = -1 ∧ startTerm > -1 ∧
    Exists (λ p, Exists (λ t, t > startTerm) p.(pTerms)) polls) (λ _, False) (waitLoop polls n index need startTerm)) as Hloop.
  { induction Hpolls as [|p polls Hp _ IH]; [done|]. cbn [waitLoop].
    eapply checked_bind; [by apply poll_spec|]. intros r _. case_decide; [done|]. case_decide as E.
    - simpl. intros v [= <-]. destruct E. split_and!; [done..|]. by left.
    - eapply checked_impl; [exact IH| |done]. intros r' Hr v Hv. destruct (Hr v Hv) as (? & ? & ?). by eauto using Exists_cons_tl. }
  destruct (waitLoop _ _ _ _ _) as [[v|]|f|]; simpl in *; [left; by apply Hloop| |done|done].
  pose proof (poll_spec n index last Hn Hlast) as H.
  destruct (nCommitted _ _ _ _) as [[count cmd]|f|]; simpl in *; [|done..]. destruct H as (Hc & Hz & Hall). simpl in *. subst count.
  case_decide; simpl; [done|]. right. split_and!; [lia|done|done].
Qed.

(** ** A whole agreement *)

Section one.
Context `{!Gob Z, !GobOk Z}.
Implicit Types (w : world Z).

(** The loop of [one] over the servers, with the world each of them is asked
    in: the index of the first [Start] that succeeds, or -1, and [starts]. *)
Fixpoint tryServers (connected : list bool) (n cmd starts : Z) (ws : list (world Z)) : verdict (Z * Z) :=
  match ws with
  | [] => Passed (-1, starts)
  | w :: ws =>
    let starts := (starts + 1) mod n in
    (c <-- present (slice_get connected starts);
     if (c : bool) then
       nd <-- present (w.(nodes) !! starts);
       r <-- present (Start cmd nd.(raft));
       let '(index1, _, ok) := r.1.2 in
       if (ok : bool) then Passed (index1, starts) else tryServers connected n cmd starts ws
     else tryServers connected n cmd starts ws)%verdict
  end.

(** The wait of [one] for agreement, as many polls as there is time for. *)
Fixpoint awaitCommit (polls : list poll) (n index expectedServers cmd : Z) : verdict bool :=
  match polls with
  | [] => Passed false
  | p :: polls =>
    (r <-- nCommitted p.(pErrs) p.(pLogs) n index;
     if decide (r.1 > 0 ∧ r.1 >= expectedServers ∧ r.2 = cmd)%Z then Passed true
     else awaitCommit polls n index expectedServers cmd)%verdict
  end.

(** [one], as many times around as there is time for. *)
Fixpoint one (connected : list bool) (rounds : list (list (world Z) * list poll))
    (n cmd expectedServers starts : Z) : verdict Z :=
  match rounds with
  | [] => Failed NoAgreement
  | (ws, polls) :: rounds =>
    (r <-- tryServers connected n cmd starts ws;
     if decide (r.1 ≠ -1) then
       done <-- awaitCommit polls n r.1 expectedServers cmd;
       if (done : bool) then Passed r.1 else one connected rounds n cmd expectedServers r.2
     else one connected rounds n cmd expectedServers r.2)%verdict
  end.

(** [Start] at a connected leader in one of [ws] put [cmd] at [index]. *)
Definition submitted (connected : list bool) (ws : list (world Z)) (cmd index : Z) : Prop :=
  ∃ w i nd rf t gs, w ∈ ws ∧ slice_get connected i = Some true ∧ w.(nodes) !! i = Some nd ∧
    nd.(raft).(rstate) = leader ∧ Start cmd nd.(raft) = Some (rf, (index, t, true), gs).

(** At least [need] servers have applied [index], all of them [cmd] there. *)
Definition committed (p : poll) (index need cmd : Z) : Prop :=
  0 < holders index p.(pLogs) ∧ need ≤ holders index p.(pLogs) ∧
  ∀ l v, l ∈ p.(pLogs) → l !! index = Some v → v = cmd.

Lemma tryServers_spec connected n cmd starts ws :
  0 < n → len connected = n → Forall (world_ok n) ws →
  checked (λ r, r.1 = -1 ∨ submitted connected ws cmd r.1) (λ _, False) (tryServers connected n cmd starts ws).
Proof.
  intros Hn Hc Hws. revert starts. induction Hws as [|w ws Hw _ IH]; intros starts; [by left|]. cbn [tryServers].
  set (i := (starts + 1) mod n). assert (0 ≤ i < n) as Hi by (by apply Z.mod_pos_bound).
  assert (checked (λ r, r.1 = -1 ∨ submitted connected (w :: ws) cmd r.1) (λ _, False) (tryServers connected n cmd i ws)) as Hrest.
  { eapply checked_impl; [apply IH| |done]. intros r [?|(w' & i' & nd' & rf' & t' & gs' & ? & H)]; [by left|].
    right. exists w', i', nd', rf', t', gs'. split; [by constructor|done]. }
  destruct (slice_get_inr connected i) as [[] Hci]; [lia|..]; rewrite Hci; cbn [present verdict_bind]; [|done].
  destruct (proj2 (wo_dom _ _ Hw i)) as [nd Hnd]; [done|]. rewrite Hnd. cbn [present verdict_bind].
  destruct (wo_nodes _ _ Hw i nd Hnd) as (Hok & _). destruct (Start_ok n cmd (raft nd) Hok) as (rf & [[index t] ok] & gs & Hs & _).
  rewrite Hs. cbn. destruct ok; [|done]. cbn. right. exists w, i, nd, rf, t, gs.
  split_and!; [constructor|done|done| |done]. unfold Start in Hs. case_decide as Hl; [by simplify_eq|].
  by destruct (decide (rstate (raft nd) = leader)).
Qed.

Lemma awaitCommit_spec polls n index need cmd :
  0 ≤ n → Forall (recorded n) polls →
  checked (λ b, b = true → ∃ p, p ∈ polls ∧ committed p index need cmd) (λ _, False) (awaitCommit polls n index need cmd).
Proof.
  intros Hn Hp. induction Hp as [|p polls Hp _ IH]; [done|]. cbn [awaitCommit].
  eapply checked_bind; [by apply poll_spec|]. intros [count c] (Hc & Hz & Hall). simpl in *. subst count.
  case_decide as E.
  - destruct E as (? & ? & ->). intros _. exists p. split; [constructor|]. split_and!; [lia..|done].
  - eapply checked_impl; [exact IH| |done]. intros b Hb E'. destruct (Hb E') as (p' & ? & ?). exists p'. split; [by constructor|done].
Qed.

Lemma one_spec (connected : list bool) rounds n cmd need starts :
  0 < n → len connected = n →
  Forall (λ r, Forall (world_ok n) r.1 ∧ Forall (recorded n) r.2) rounds →
  checked (λ index, ∃ ws polls p, (ws, polls) ∈ rounds ∧ p ∈ polls ∧
      submitted connected ws cmd index ∧ committed p index need cmd) (λ f, f = NoAgreement)
    (one connected rounds n cmd need starts).
Proof.
  intros Hn Hc Hr. revert starts.
  induction Hr as [|[ws polls] rounds [Hws Hp] _ IH]; intros starts; [done|]. cbn [one].
  assert (∀ starts, checked (λ index, ∃ ws' polls' p, (ws', polls') ∈ (ws, polls) :: rounds ∧ p ∈ polls' ∧
      submitted connected ws' cmd index ∧ committed p index need cmd) (λ f, f = NoAgreement)
    (one connected rounds n cmd need starts)) as Hrest.
  { intros starts'. eapply checked_impl; [apply IH| |done]. intros index (ws' & polls' & p & ? & ?).
    exists ws', polls', p. split; [by constructor|done]. }
  eapply checked_bind.
  { eapply checked_impl; [by apply tryServers_spec|by intros r H; exact H|done]. }
  intros [index starts'] Hsub. simpl in *. case_decide as E; [|done]. destruct Hsub as [?|Hsub]; [done|].
  eapply checked_bind; [eapply checked_impl; [by apply awaitCommit_spec; [lia|]|by intros b H; exact H|done]|].
  intros [] Hb; [|done]. destruct (Hb eq_refl) as (p & ? & ?). exists ws, polls, p. split_and!; [constructor|done..].
Qed.

(** C37. What the tests rely on in [one]: when it returns an index, a connected
    leader took the command at that index through [Start], and later at least
    [expectedServers] servers have applied it, every server that has applied
    the index holding this command; the only way to fail is to run out of
    time. *)
Theorem one_agreement env (ends : list string) (connected : list bool) rounds cmd expectedServers starts :
  ends ≠ [] → len connected = len ends →
  Forall (λ r, Forall (steps (init env ends)) r.1 ∧ Forall (recorded (len ends)) r.2) rounds →
  match one connected rounds (len ends) cmd expectedServers starts with
  | Passed index => ∃ ws polls p, (ws, polls) ∈ rounds ∧ p ∈ polls ∧
      submitted connected ws cmd index ∧ committed p index expectedServers cmd
  | Failed f => f = NoAgreement
  | Crashed => False
  end.
Proof.
  intros Hne Hc Hr. assert (0 < len ends) as Hn by (destruct ends; [done|unfold len; simpl; lia]).
  apply one_spec; [done|done|]. eapply Forall_impl; [exact Hr|]. intros [ws polls] [Hws ?]. split; [|done].
  eapply Forall_impl; [exact Hws|]. intros w. apply reachable_ok.
Qed.
End one.
