(* ===== verification/GoStrings.v ===== *)
(** * Strings and numbers, as the Go standard library has them

    [strconv.Itoa] and [strconv.Atoi], [sort.Strings], [strings.Join], the UTF-8
    decoding of [range], and lemmas on strings the components share.  A Go string is a sequence of bytes, a [string]
    here. *)
From Stdlib Require Export Ascii.
From stdpp Require Export pretty.
From S2P Require Import Prelude.
Open Scope Z_scope.

(** ** Lemmas on strings *)

Lemma string_app_assoc (s t u : string) : (s +:+ t) +:+ u = s +:+ (t +:+ u).
Proof.
  induction s as [|c s IH]; [done|].
  change (String c ((s +:+ t) +:+ u) = String c (s +:+ (t +:+ u))). by rewrite IH.
Qed.

Lemma string_app_nil_r (s : string) : s +:+ "" = s.
Proof. induction s as [|c s IH]; [done|]. change (String c (s +:+ "") = String c s). by rewrite IH. Qed.

(** The characters of a string. *)
Fixpoint has_char (c : Ascii.ascii) (s : string) : bool :=
  match s with
  | EmptyString => false
  | String d s => bool_decide (d = c) || has_char c s
  end.

Lemma has_char_app c s t : has_char c (s +:+ t) = has_char c s || has_char c t.
Proof. induction s as [|d s IH]; simpl; [done|]. by rewrite IH, orb_assoc. Qed.

(** ** Numerals *)

Definition Itoa (n : Z) : string := pretty n.

Definition dash : Ascii.ascii := "-"%char.

(** A decimal numeral has only digits. *)
Lemma pretty_N_go_char c x s :
  (∀ d, pretty_N_char d ≠ c) → has_char c s = false → has_char c (pretty_N_go x s) = false.
Proof.
  intros Hc. revert s. induction (N.lt_wf_0 x) as [x _ IH]; intros s Hs.
  destruct (decide (x = 0)%N) as [->|Hx]; [by rewrite pretty_N_go_0|].
  rewrite pretty_N_go_step by lia. apply IH; [by apply N.div_lt; lia|].
  simpl. rewrite Hs, orb_false_r. by apply bool_decide_eq_false.
Qed.

Lemma Itoa_char c n :
  (∀ d, pretty_N_char d ≠ c) → 0 ≤ n → has_char c (Itoa n) = false.
Proof.
  intros Hc Hn. unfold Itoa, pretty, pretty_Z. destruct n as [|p|p]; [| |lia].
  - simpl. rewrite orb_false_r. apply bool_decide_eq_false, (Hc 0%N).
  - unfold pretty, pretty_positive, pretty, pretty_N. case_decide; [done|]. by apply pretty_N_go_char.
Qed.

Lemma Itoa_no_dash n : 0 ≤ n → has_char dash (Itoa n) = false.
Proof. apply Itoa_char. intros d. unfold pretty_N_char. by repeat case_match. Qed.

Lemma String_length_app s t : String.length (s +:+ t) = (String.length s + String.length t)%nat.
Proof. induction s as [|c s IH]; simpl; [done|]. by rewrite IH. Qed.

Lemma string_app_inj (s t u : string) : s +:+ t = s +:+ u → t = u.
Proof. induction s as [|c s IH]; simpl; [done|]. intros [= H]. auto. Qed.

Lemma Itoa_inj n m : Itoa n = Itoa m → n = m.
Proof. apply (inj (pretty : Z → string)). Qed.

(** [strconv.Atoi] with its error dropped: 0 on a syntax error, the nearest
    [int] on a range error. *)
Definition maxInt : Z := 2 ^ 63 - 1.
Definition minInt : Z := - 2 ^ 63.

Fixpoint digits (acc : Z) (s : string) : option Z :=
  match s with
  | EmptyString => Some acc
  | String c s =>
    let d := Z.of_N (Ascii.N_of_ascii c) - 48 in
    if decide (0 ≤ d ≤ 9) then digits (10 * acc + d) s else None
  end.

Definition unsigned (s : string) : option Z :=
  match s with EmptyString => None | _ => digits 0 s end.

Definition Atoi (s : string) : Z :=
  let signed := match s with
    | String "-"%char s => Z.opp <$> unsigned s
    | String "+"%char s => unsigned s
    | _ => unsigned s
    end in
  match signed with
  | None => 0
  | Some z => Z.max minInt (Z.min maxInt z)
  end.

(** ** Sorting *)

(** [sort.Strings]: the order of bytes is total, so a sorted permutation is
    unique and any sorting algorithm computes this one. *)
Definition sortStrings : list string → list string := merge_sort String.le.

(** ** Joining *)

Definition concatStrings (l : list string) : string := foldr String.app "" l.

Lemma concatStrings_app l k : concatStrings (l ++ k) = concatStrings l +:+ concatStrings k.
Proof. unfold concatStrings. induction l as [|s l IH]; simpl; [done|]. by rewrite IH, string_app_assoc. Qed.

Fixpoint Join (l : list string) (sep : string) : string :=
  match l with
  | [] => ""
  | [s] => s
  | s :: l => s +:+ sep +:+ Join l sep
  end.

(** ** Runes: the UTF-8 decoding of [range] over a string *)

Definition byte (c : ascii) : Z := Z.of_N (N_of_ascii c).
Definition RuneError : Z := 65533.

(** A continuation byte, between the bounds its first byte allows. *)
Definition inRange (lo hi : Z) (c : ascii) : bool := bool_decide (lo ≤ byte c ≤ hi).
Definition isCont : ascii → bool := inRange 128 191.

(** The bounds on the byte after the first one of a three- or four-byte
    rune. *)
Definition second3 (a : Z) : Z * Z :=
  if decide (a = 224) then (160, 191) else if decide (a = 237) then (128, 159) else (128, 191).
Definition second4 (a : Z) : Z * Z :=
  if decide (a = 240) then (144, 191) else if decide (a = 244) then (128, 143) else (128, 191).

(** The runes of a string, each with its bytes; a byte that starts no valid
    encoding is [RuneError] by itself. *)
Fixpoint runes (s : string) : list (Z * string) :=
  match s with
  | EmptyString => []
  | String a s1 =>
    let x := byte a in
    let bad := (RuneError, String a "") :: runes s1 in
    if decide (x < 128) then (x, String a "") :: runes s1
    else if decide (194 ≤ x ≤ 223) then
      match s1 with
      | String b s2 =>
        if isCont b
        then ((x - 192) * 64 + (byte b - 128), String a (String b "")) :: runes s2 else bad
      | _ => bad
      end
    else if decide (224 ≤ x ≤ 239) then
      match s1 with
      | String b (String c s3) =>
        if inRange (second3 x).1 (second3 x).2 b && isCont c
        then ((x - 224) * 4096 + (byte b - 128) * 64 + (byte c - 128),
              String a (String b (String c ""))) :: runes s3 else bad
      | _ => bad
      end
    else if decide (240 ≤ x ≤ 244) then
      match s1 with
      | String b (String c (String e s4)) =>
        if inRange (second4 x).1 (second4 x).2 b && isCont c && isCont e
        then ((x - 240) * 262144 + (byte b - 128) * 4096 + (byte c - 128) * 64 + (byte e - 128),
              String a (String b (String c (String e "")))) :: runes s4 else bad
      | _ => bad
      end
    else bad
  end.

(** Decoding loses nothing: the pieces are non-empty and make up the string. *)
Lemma runes_spec s : Forall (λ x, x.2 ≠ "") (runes s) ∧ concatStrings (snd <$> runes s) = s.
Proof.
  remember (String.length s) as n eqn:Hn. assert (String.length s ≤ n)%nat as Hle by lia. clear Hn.
  revert s Hle. induction n as [|n IH]; intros s Hle.
  { by destruct s; [|simpl in Hle; lia]. }
  assert (∀ r bs rest, bs ≠ "" → s = bs +:+ rest → runes s = (r, bs) :: runes rest →
    Forall (λ x, x.2 ≠ "") (runes s) ∧ concatStrings (snd <$> runes s) = s) as Hcons.
  { intros r bs rest Hne -> ->. destruct (IH rest) as [H1 H2].
    - rewrite String_length_app in Hle. destruct bs; [done|simpl in Hle; lia].
    - split; [by constructor|]. rewrite fmap_cons. cbn [snd]. unfold concatStrings in *. simpl. by rewrite H2. }
  destruct s as [|a s1]; [done|].
  assert (runes (String a s1) = (RuneError, String a "") :: runes s1 →
    Forall (λ x, x.2 ≠ "") (runes (String a s1)) ∧ concatStrings (snd <$> runes (String a s1)) = String a s1) as Hbad.
  { by apply (Hcons RuneError (String a "") s1). }
  cbn [runes] in *. case_decide as H1.
  { by eapply (Hcons _ (String a "") s1). }
  case_decide as H2.
  { destruct s1 as [|b s2]; [by apply Hbad|]. destruct (isCont b); [|by apply Hbad].
    by eapply (Hcons _ (String a (String b "")) s2). }
  case_decide as H3.
  { destruct s1 as [|b [|c s3]]; [by apply Hbad..|]. destruct (_ && _); [|by apply Hbad].
    by eapply (Hcons _ (String a (String b (String c ""))) s3). }
  case_decide as H4; [|by apply Hbad].
  destruct s1 as [|b [|c [|e s4]]]; [by apply Hbad..|]. destruct (_ && _); [|by apply Hbad].
  by eapply (Hcons _ (String a (String b (String c (String e "")))) s4).
Qed.

(** ** Valid UTF-8 *)

(** What encoding/json makes of a string on its way to the other side: a byte
    that starts no valid encoding becomes U+FFFD, the rest stays. *)
Definition replacement : string :=
  String "239"%char (String "191"%char (String "189"%char "")).

Definition badByte (x : Z * string) : bool :=
  bool_decide (x.1 = RuneError) && bool_decide (String.length x.2 = 1%nat).

Definition validPiece (x : Z * string) : string := if badByte x then replacement else x.2.

Definition toValid (s : string) : string := concatStrings (validPiece <$> runes s).

(** A string that is sent as it is. *)
Definition validUTF8 (s : string) : Prop := toValid s = s.

(** A piece that decodes as one rune whatever follows it. *)
Definition stable (x : Z * string) : Prop := ∀ rest, runes (x.2 +:+ rest) = x :: runes rest.

Lemma replacement_stable : stable (RuneError, replacement).
Proof. done. Qed.

Lemma runes_stable s : Forall (λ x, badByte x = true ∨ stable x) (runes s).
Proof.
  remember (String.length s) as n eqn:Hn. assert (String.length s ≤ n)%nat as Hle by lia. clear Hn.
  revert s Hle. induction n as [|n IH]; intros s Hle.
  { by destruct s; [constructor|simpl in Hle; lia]. }
  destruct s as [|a s1]; [constructor|]. simpl in Hle.
  assert (Forall (λ x, badByte x = true ∨ stable x) ((RuneError, String a "") :: runes s1)) as Hbad.
  { constructor; [by left|]. apply IH. lia. }
  cbn [runes] in *. case_decide as H1.
  { constructor; [|apply IH; lia]. right. intros rest. simpl. by rewrite decide_True. }
  case_decide as H2.
  { destruct s1 as [|b s2]; [done|]. destruct (isCont b) eqn:Eb; [|done]. simpl in Hle.
    constructor; [|apply IH; lia]. right. intros rest. simpl.
    by rewrite decide_False, decide_True, Eb by done. }
  case_decide as H3.
  { destruct s1 as [|b [|c s3]]; [done..|]. destruct (_ && _) eqn:Eb; [|done]. simpl in Hle.
    constructor; [|apply IH; lia]. right. intros rest. simpl.
    by rewrite !decide_False, decide_True, Eb by done. }
  case_decide as H4; [|done].
  destruct s1 as [|b [|c [|e s4]]]; [done..|]. destruct (_ && _) eqn:Eb; [|done]. simpl in Hle.
  constructor; [|apply IH; lia]. right. intros rest. simpl.
  by rewrite !decide_False, decide_True, Eb by done.
Qed.

(** A string made of stable pieces decodes into them. *)
Lemma runes_concat l : Forall stable l → runes (concatStrings (snd <$> l)) = l.
Proof.
  induction 1 as [|x l Hx _ IH]; [done|]. rewrite fmap_cons. unfold concatStrings in *. simpl.
  by rewrite Hx, IH.
Qed.

Definition validRune (x : Z * string) : Z * string :=
  if badByte x then (RuneError, replacement) else x.

Lemma validRune_good x : badByte (validRune x) = false.
Proof. unfold validRune. by destruct (badByte x) eqn:E. Qed.

Lemma toValid_runes s : runes (toValid s) = validRune <$> runes s.
Proof.
  rewrite <- (runes_concat (validRune <$> runes s)).
  - f_equal. change (toValid s) with (concatStrings (validPiece <$> runes s)).
    apply (f_equal concatStrings). rewrite <- list_fmap_compose. apply list_fmap_ext.
    intros i x _. unfold validPiece, validRune. simpl. by destruct (badByte x).
  - apply Forall_fmap. eapply Forall_impl; [apply runes_stable|]. intros x Hx. simpl. unfold validRune.
    destruct Hx as [->|Hx]; [apply replacement_stable|].
    destruct (badByte x); [apply replacement_stable|done].
Qed.

(** Coercion is done once: what arrives is valid. *)
Lemma toValid_valid s : validUTF8 (toValid s).
Proof.
  unfold validUTF8. unfold toValid at 1. rewrite toValid_runes, <- list_fmap_compose.
  change (toValid s) with (concatStrings (validPiece <$> runes s)).
  apply (f_equal concatStrings), list_fmap_ext. intros i x _. unfold validPiece. simpl.
  rewrite validRune_good. unfold validRune. by destruct (badByte x).
Qed.
