(* ===== verification/GossipStore.v ===== *)
(** * The rumor store of a gossip node (src/project/gossip/pkg/gossip/store.go, msg.go)

    [Store] is the state behind [Store.mu]; every method takes the lock for its
    whole body and is a function on it.  The JSONL log is the list of its
    records; [clock k] is the reading of [time.Now] for the record at position
    [k], an arbitrary function.  The order in which Go iterates over a map is
    an input too ([Digest]). *)
From S2P Require Import Prelude.

Inductive MsgType := MsgPush | MsgDigest | MsgMissing | MsgFetchRep.

#[export] Instance MsgType_eq_dec : EqDecision MsgType.
Proof. solve_decision. Defined.

Record Rumor := mkRumor {
  rID : string; rTTL : Z; rBody : string; rOrigin : string; rInjectTS : Z
}.

#[export] Instance Rumor_eq_dec : EqDecision Rumor.
Proof. solve_decision. Defined.

(** The zero value of [Rumor]. *)
Definition zeroRumor : Rumor := mkRumor "" 0 "" "" 0.

Record Msg := mkMsg {
  mType : MsgType; mFrom : string; mRumors : list Rumor; mIDs : list string
}.

Record LogRec := mkRec {
  lTS : Z; lNode : string; lEv : string; lID : string; lSz : Z;
  lOrigin : string; lInjectTS : Z
}.

(** An [*os.File] opened for writing. *)
Record File := mkFile { fOpen : bool; fRecs : list LogRec }.

(** [logf = None] is the nil file of a failed [os.Create]. *)
Record Store := mkStore {
  seen : gmap string Rumor; newIDs : list string; logf : option File; nodeID : string
}.

Definition NewStore (created : bool) (node : string) : Store :=
  mkStore ∅ [] (if created then Some (mkFile true []) else None) node.

Definition storeClose (s : Store) : Store :=
  mkStore s.(seen) s.(newIDs)
    (match s.(logf) with
     | Some f => Some (mkFile false f.(fRecs))
     | None => None
     end) s.(nodeID).

(** A write to a closed file fails, and the error is dropped. *)
Definition writeLog (clock : nat → Z) (ev : string) (r : Rumor) (s : Store) : Store :=
  match s.(logf) with
  | None => s
  | Some f =>
    let rec := mkRec (clock (length f.(fRecs))) s.(nodeID) ev r.(rID)
                 (Z.of_nat (String.length r.(rBody))) r.(rOrigin) r.(rInjectTS) in
    if f.(fOpen)
    then mkStore s.(seen) s.(newIDs) (Some (mkFile true (f.(fRecs) ++ [rec]))) s.(nodeID)
    else s
  end.

Definition Add (clock : nat → Z) (r : Rumor) (s : Store) : Store * bool :=
  match s.(seen) !! r.(rID) with
  | Some _ => (s, false)
  | None =>
    let s := mkStore (<[r.(rID) := r]> s.(seen)) s.(newIDs) s.(logf) s.(nodeID) in
    let s := mkStore s.(seen) (s.(newIDs) ++ [r.(rID)]) s.(logf) s.(nodeID) in
    (writeLog clock "deliver" r s, true)
  end.

(** A missing key reads as the zero value. *)
Definition ReadyToPush (s : Store) : Store * list Rumor :=
  if decide (len s.(newIDs) = 0) then (s, [])
  else
    let out := (λ id, default zeroRumor (s.(seen) !! id)) <$> s.(newIDs) in
    (mkStore s.(seen) [] s.(logf) s.(nodeID), out).

(** [Digest] with the iteration order [order]: [None] when [order] is not an
    order of the keys. *)
Definition Digest (order : list string) (s : Store) : option (list string) :=
  if decide (NoDup order ∧ list_to_set order = dom s.(seen)) then Some order else None.

Definition DigestCount (s : Store) : Z := Z.of_nat (size s.(seen)).

Definition LookupMany (ids : list string) (s : Store) : list Rumor :=
  omap (λ id, s.(seen) !! id) ids.

(** ** The store invariant *)

Record store_ok (s : Store) : Prop := {
  so_key : ∀ id r, s.(seen) !! id = Some r → r.(rID) = id;
  so_new : ∀ id, id ∈ s.(newIDs) → is_Some (s.(seen) !! id);
  so_nodup : NoDup s.(newIDs)
}.

Lemma NewStore_ok created node : store_ok (NewStore created node).
Proof. split; simpl; [done|by intros ? ?%elem_of_nil|constructor]. Qed.

Lemma writeLog_seen clock ev r s : (writeLog clock ev r s).(seen) = s.(seen).
Proof. unfold writeLog. by repeat case_match. Qed.

Lemma writeLog_newIDs clock ev r s : (writeLog clock ev r s).(newIDs) = s.(newIDs).
Proof. unfold writeLog. by repeat case_match. Qed.

Lemma writeLog_nodeID clock ev r s : (writeLog clock ev r s).(nodeID) = s.(nodeID).
Proof. unfold writeLog. by repeat case_match. Qed.

Create Rewrite HintDb store.
#[export] Hint Rewrite writeLog_seen writeLog_newIDs writeLog_nodeID : store.

Lemma store_ok_ext s s' :
  s'.(seen) = s.(seen) → s'.(newIDs) = s.(newIDs) → store_ok s → store_ok s'.
Proof. intros E1 E2 [H1 H2 H3]. split; rewrite ?E1, ?E2; done. Qed.

Lemma writeLog_ok clock ev r s : store_ok s → store_ok (writeLog clock ev r s).
Proof. apply store_ok_ext; by autorewrite with store. Qed.

(** What [Add] does to the fields, on both branches. *)
Lemma Add_seen clock r s :
  (Add clock r s).1.(seen) =
    match s.(seen) !! r.(rID) with Some _ => s.(seen) | None => <[r.(rID) := r]> s.(seen) end.
Proof. unfold Add. case_match; simpl; by autorewrite with store. Qed.

Lemma Add_newIDs clock r s :
  (Add clock r s).1.(newIDs) =
    match s.(seen) !! r.(rID) with Some _ => s.(newIDs) | None => s.(newIDs) ++ [r.(rID)] end.
Proof. unfold Add. case_match; simpl; by autorewrite with store. Qed.

Lemma Add_ok clock r s : store_ok s → store_ok (Add clock r s).1.
Proof.
  intros [Hk Hn Hd]. split; rewrite ?Add_seen, ?Add_newIDs; destruct (seen s !! rID r) eqn:E; try done.
  - intros id r'. rewrite lookup_insert_Some. naive_solver.
  - intros id [?|Hid]%elem_of_app.
    + destruct (decide (id = rID r)) as [->|]; [by rewrite lookup_insert_eq|].
      rewrite lookup_insert_ne by done. by apply Hn.
    + apply list_elem_of_singleton in Hid as ->. by rewrite lookup_insert_eq.
  - apply NoDup_app. split_and!; [done| |apply NoDup_singleton].
    intros id Hid Heq%list_elem_of_singleton. subst. destruct (Hn _ Hid). congruence.
Qed.

Lemma ReadyToPush_ok s : store_ok s → store_ok (ReadyToPush s).1.
Proof.
  intros [Hk Hn Hd]. unfold ReadyToPush. case_decide; [by split|].
  split; simpl; [done|by intros ? ?%elem_of_nil|constructor].
Qed.

Lemma ReadyToPush_seen s : (ReadyToPush s).1.(seen) = s.(seen).
Proof. unfold ReadyToPush. by case_decide. Qed.

Lemma ReadyToPush_newIDs s : (ReadyToPush s).1.(newIDs) = [].
Proof.
  unfold ReadyToPush. case_decide as H; [|done]. simpl. unfold len in H. by destruct (newIDs s).
Qed.

Lemma ReadyToPush_out s :
  (ReadyToPush s).2 = (λ id, default zeroRumor (s.(seen) !! id)) <$> s.(newIDs).
Proof.
  unfold ReadyToPush. case_decide as H; [|done]. simpl. unfold len in H. by destruct (newIDs s).
Qed.

(** ** The store as a queue

    A client of the store adds rumors and takes batches to push.  [runOps]
    runs such a sequence of calls and collects what the batches return;
    [firsts] is what they should return: of the rumors added, the first with
    each identifier, in the order they came. *)
Inductive storeOp := OAdd (r : Rumor) | OPush.

Fixpoint runOps (clock : nat → Z) (ops : list storeOp) (s : Store) : Store * list Rumor :=
  match ops with
  | [] => (s, [])
  | OAdd r :: ops => runOps clock ops (Add clock r s).1
  | OPush :: ops =>
    let '(s, out) := ReadyToPush s in
    let '(s, out') := runOps clock ops s in (s, out ++ out')
  end.

Fixpoint firsts (known : gset string) (ops : list storeOp) : list Rumor :=
  match ops with
  | [] => []
  | OAdd r :: ops =>
    if decide (r.(rID) ∈ known) then firsts known ops
    else r :: firsts ({[r.(rID)]} ∪ known) ops
  | OPush :: ops => firsts known ops
  end.

(** The rumors waiting for the next batch. *)
Definition pending (s : Store) : list Rumor := (ReadyToPush s).2.

Lemma pending_Add clock r s :
  store_ok s →
  pending (Add clock r s).1 =
    pending s ++ (match s.(seen) !! r.(rID) with Some _ => [] | None => [r] end).
Proof.
  intros Hok. unfold pending. rewrite !ReadyToPush_out, Add_seen, Add_newIDs.
  destruct (seen s !! rID r) eqn:E; [by rewrite app_nil_r|].
  rewrite fmap_app. f_equal; [|simpl; by rewrite lookup_insert_eq].
  apply list_fmap_ext. intros k id Hid. rewrite lookup_insert_ne; [done|].
  intros <-. destruct (so_new _ Hok (rID r)); [by eapply list_elem_of_lookup_2|congruence].
Qed.

Lemma runOps_spec clock ops s :
  store_ok s →
  (runOps clock ops s).2 ++ pending (runOps clock ops s).1 =
    pending s ++ firsts (dom s.(seen)) ops.
Proof.
  revert s. induction ops as [|[r|] ops IH]; intros s Hok; cbn [runOps firsts].
  - by rewrite app_nil_r.
  - rewrite IH by (by apply Add_ok). rewrite pending_Add, <- app_assoc, Add_seen by done. f_equal.
    destruct (seen s !! rID r) eqn:E.
    + rewrite decide_True by (by apply elem_of_dom_2 in E). done.
    + rewrite decide_False by (by apply not_elem_of_dom). by rewrite dom_insert_L.
  - pose proof (ReadyToPush_ok s Hok) as Hok'. specialize (IH _ Hok').
    pose proof (ReadyToPush_seen s) as Hs. unfold pending at 2.
    assert (pending (ReadyToPush s).1 = []) as Hp.
    { unfold pending. by rewrite (ReadyToPush_out (ReadyToPush s).1), ReadyToPush_newIDs. }
    destruct (ReadyToPush s) as [s' out]. simpl in *. rewrite Hp, Hs in IH.
    destruct (runOps clock ops s') as [s'' out']. simpl in *. by rewrite <- app_assoc, IH.
Qed.

Lemma firsts_fresh known ops r : r ∈ firsts known ops → r.(rID) ∉ known.
Proof.
  revert known. induction ops as [|[r'|] ops IH]; intros known; simpl; [by intros ?%elem_of_nil| |apply IH].
  case_decide as Hk; [apply IH|]. rewrite elem_of_cons. intros [->|Hr%IH]; set_solver.
Qed.

Lemma firsts_NoDup known ops : NoDup (rID <$> firsts known ops).
Proof.
  revert known. induction ops as [|[r|] ops IH]; intros known; simpl; [constructor| |apply IH].
  case_decide; [apply IH|]. simpl. constructor; [|apply IH].
  intros (r' & Heq & Hr%firsts_fresh)%list_elem_of_fmap. set_solver.
Qed.

(** ** Theorems *)

(** C29. The store pushes every rumor exactly once: for every sequence of [Add]
    and [ReadyToPush] calls on a new store, the batches returned so far
    followed by what is pending are the first rumor added under each
    identifier, in the order they were added; no identifier occurs twice. *)
Theorem pushed_exactly_once clock created node ops :
  let '(s, out) := runOps clock ops (NewStore created node) in
  out ++ pending s = firsts ∅ ops ∧ NoDup (rID <$> (out ++ pending s)).
Proof.
  pose proof (runOps_spec clock ops (NewStore created node) (NewStore_ok _ _)) as H.
  destruct (runOps clock ops (NewStore created node)) as [s out].
  change (pending (NewStore created node)) with (@nil Rumor) in H. simpl in H.
  rewrite dom_empty_L in H. split; [done|]. rewrite H. apply firsts_NoDup.
Qed.
