(* ===== verification/GossipNode.v ===== *)
(** * A gossip node (src/project/gossip/pkg/gossip/node.go, http.go, config.go)

    A node is its configuration, its peers and its store.  A handler returns
    the new node and the messages it sends, in order.  What a handler draws
    from outside is an [Oracle]: the clock, the permutation [rand.Perm]
    returns and the iteration order of the store's map; a draw that does not
    fit (not a permutation) makes the step [Disabled], so a theorem about every
    oracle covers every run.  Messages on the standard error log are left out;
    the JSONL log is kept. *)
From S2P Require Import Prelude GoStrings GossipStore.

Record Config := mkConfig {
  cID : string; cBind : string; cSeeds : list string; cPeriod : Z; cFanout : Z;
  cTTL : Z; cMetricsAddr : string; cLogPath : string; cAEInterval : Z
}.

(** [injected] is the counter of http.go, one per process. *)
Record Node := mkGNode {
  cfg : Config; store : Store; gpeers : list string; injected : Z
}.

Record Oracle := mkOracle {
  oNow : Z; oClock : nat → Z; oPerm : list Z; oOrder : list string
}.

Definition set_store (s : Store) (n : Node) : Node :=
  mkGNode n.(cfg) s n.(gpeers) n.(injected).

Definition NewNode (c : Config) (created : bool) : Node :=
  mkGNode c (NewStore created c.(cID)) ([] ++ c.(cSeeds)) 0.

(** The rumor [Inject] makes. *)
Definition newRumor (o : Oracle) (id body : string) (ttl : Z) (n : Node) : Rumor :=
  let ttl := if decide (ttl ≤ 0) then n.(cfg).(cTTL) else ttl in
  mkRumor id ttl body n.(cfg).(cID) o.(oNow).

Definition Inject (o : Oracle) (id body : string) (ttl : Z) (n : Node) : Node :=
  let r := newRumor o id body ttl n in
  let s := writeLog o.(oClock) "inject" r n.(store) in
  set_store (Add o.(oClock) r s).1 n.

(** The peers [pickPeers] returns; [make([]string, 0, k)] panics on a negative
    [k]. *)
Definition pickPeers (o : Oracle) (k : Z) (n : Node) : outcome (list string) :=
  let ps := n.(gpeers) in
  if decide (len ps = 0) then Done []
  else if decide (k >= len ps) then Done ps
  else if decide (NoDup o.(oPerm) ∧ (list_to_set o.(oPerm) : gset Z) = list_to_set (range (len ps)))
  then
    if decide (k < 0) then Panicked
    else program (mapM (λ i, p ← slice_get o.(oPerm) i; slice_get ps p) (range k))
  else Disabled.

(** The loop over the chosen peers: one "send" record and one message each. *)
Definition sendAll (o : Oracle) (msg : Msg) (dummy : Rumor) (ps : list string) (s : Store)
    : Store * list (string * Msg) :=
  foldl (λ acc p, (writeLog o.(oClock) "send" dummy acc.1, acc.2 ++ [(p, msg)])) (s, []) ps.

Definition tickOnce (o : Oracle) (n : Node) : outcome (Node * list (string * Msg)) :=
  let '(s, rs) := ReadyToPush n.(store) in
  let n := set_store s n in
  match rs with
  | [] => Done (n, [])
  | r :: _ =>
    (peers <~ pickPeers o n.(cfg).(cFanout) n;
     let msg := mkMsg MsgPush n.(cfg).(cID) rs [] in
     let dummy := mkRumor r.(rID) 0 "" "" 0 in
     let '(s, out) := sendAll o msg dummy peers n.(store) in
     Done (set_store s n, out))%outcome
  end.

Definition sendDigest (o : Oracle) (n : Node) : outcome (Node * list (string * Msg)) :=
  (peers <~ pickPeers o 1 n;
   match peers with
   | [] => Done (n, [])
   | p :: _ =>
     d <~ enabled (Digest o.(oOrder) n.(store));
     if decide (len d = 0) then Done (n, [])
     else Done (n, [(p, mkMsg MsgDigest n.(cfg).(cID) [] d)])
   end)%outcome.

Definition diff (a b : list string) : list string :=
  let bset : gset string := foldl (λ acc x, {[x]} ∪ acc) ∅ b in
  foldl (λ out x, if decide (x ∈ bset) then out else out ++ [x]) [] a.

Definition handleDigest (o : Oracle) (m : Msg) (remote : string) (n : Node)
    : outcome (Node * list (string * Msg)) :=
  (ours <~ enabled (Digest o.(oOrder) n.(store));
   let missing := diff ours m.(mIDs) in
   if decide (len missing > 0)
   then Done (n, [(remote, mkMsg MsgMissing n.(cfg).(cID) [] missing)])
   else Done (n, []))%outcome.

Definition handleMissing (m : Msg) (remote : string) (n : Node) : Node * list (string * Msg) :=
  let rs := LookupMany m.(mIDs) n.(store) in
  if decide (len rs = 0) then (n, [])
  else (n, [(remote, mkMsg MsgFetchRep n.(cfg).(cID) rs [])]).

Definition handleFetchRep (o : Oracle) (m : Msg) (n : Node) : Node :=
  set_store
    (foldl (λ s r, if decide (r.(rTTL) ≤ 0) then s else (Add o.(oClock) r s).1)
       n.(store) m.(mRumors)) n.

(** The MsgPush case of [Handle]. *)
Definition handlePush (o : Oracle) (m : Msg) (n : Node) : Node :=
  set_store
    (foldl (λ s r, if decide (r.(rTTL) ≤ 0) then s
                   else (Add o.(oClock)
                           (mkRumor r.(rID) (r.(rTTL) - 1) r.(rBody) r.(rOrigin) r.(rInjectTS)) s).1)
       n.(store) m.(mRumors)) n.

Definition Handle (o : Oracle) (m : Msg) (remote : string) (n : Node)
    : outcome (Node * list (string * Msg)) :=
  let dummy := match m.(mRumors) with r :: _ => r | [] => zeroRumor end in
  let n := set_store (writeLog o.(oClock) "recv" dummy n.(store)) n in
  match m.(mType) with
  | MsgPush => Done (handlePush o m n, [])
  | MsgDigest => handleDigest o m remote n
  | MsgMissing => Done (handleMissing m remote n)
  | MsgFetchRep => Done (handleFetchRep o m n, [])
  end.

(** ** The HTTP interface *)

(** The handler of /inject, given the query's three parameters: the
    identifier, the body and the TTL it injects, and the counter. *)
Definition injectArgs (id body ttl : string) (n : Node) : string * string * Z * Node :=
  let '(id, n) :=
    if decide (id = "")
    then let k := (n.(injected) + 1) mod 2 ^ 64 in
         (n.(cfg).(cID) +:+ "-" +:+ Itoa k,
          mkGNode n.(cfg) n.(store) n.(gpeers) k)
    else (id, n) in
  let ttl := Atoi ttl in
  let ttl := if decide (ttl ≤ 0) then n.(cfg).(cTTL) else ttl in
  (id, body, ttl, n).

Definition httpInject (o : Oracle) (id body ttl : string) (n : Node) : Node :=
  let '(id, body, ttl, n) := injectArgs id body ttl n in Inject o id body ttl n.

(** The rumor it injects. *)
Definition httpRumor (o : Oracle) (id body ttl : string) (n : Node) : Rumor :=
  let '(id, body, ttl, n) := injectArgs id body ttl n in newRumor o id body ttl n.

(** /metrics *)
Definition httpMetrics (n : Node) : string * Z := (n.(cfg).(cID), DigestCount n.(store)).

(** ** What the handlers do to the store *)

Lemma diff_filter a b : diff a b = filter (λ x, x ∉ b) a.
Proof.
  unfold diff.
  assert (∀ b (s : gset string) x, x ∈ foldl (λ acc x, {[x]} ∪ acc) s b ↔ x ∈ b ∨ x ∈ s) as Hset.
  { clear. induction b as [|y b IH]; intros s x; simpl; [set_solver|]. rewrite IH. set_solver. }
  set (bset := foldl _ _ b).
  assert (∀ x, x ∈ bset ↔ x ∈ b) as Hb by (intros x; unfold bset; rewrite Hset; set_solver).
  assert (∀ out, foldl (λ out x, if decide (x ∈ bset) then out else out ++ [x]) out a =
                 out ++ filter (λ x, x ∉ b) a) as H; [|apply H].
  induction a as [|x a IH]; intros out; simpl; [by rewrite app_nil_r|].
  rewrite IH, filter_cons. destruct (decide (x ∈ b)).
  - rewrite decide_True by (by apply Hb). by rewrite decide_False by tauto.
  - rewrite decide_False by (by rewrite Hb). by rewrite decide_True, <- app_assoc by done.
Qed.

Lemma sendAll_spec o msg dummy ps s :
  (sendAll o msg dummy ps s).1.(seen) = s.(seen) ∧
  (sendAll o msg dummy ps s).1.(newIDs) = s.(newIDs) ∧
  (sendAll o msg dummy ps s).2 = (λ p, (p, msg)) <$> ps.
Proof.
  unfold sendAll. induction ps as [|p ps IH] using rev_ind; [done|].
  rewrite foldl_app, fmap_app. simpl. destruct IH as (? & ? & ->). autorewrite with store. done.
Qed.

(** A permutation, read through [slice_get], enumerates the peers. *)
Lemma fmap_range_total (ps : list string) : (λ p, ps !!! Z.to_nat p) <$> range (len ps) = ps.
Proof.
  apply list_eq. intros i. rewrite list_lookup_fmap. unfold range.
  destruct (decide (i < length ps)%nat) as [Hi|Hi].
  - rewrite lookup_seqZ_lt by (unfold len; lia). simpl.
    rewrite ?Z.add_0_l, Nat2Z.id. symmetry. by apply list_lookup_lookup_total_lt.
  - rewrite lookup_seqZ_ge by (unfold len; lia). symmetry. simpl. apply lookup_ge_None. lia.
Qed.

Lemma mapM_positions (perm : list Z) (ps : list string) k :
  perm ≡ₚ range (len ps) → 0 ≤ k ≤ len ps →
  mapM (λ i, p ← slice_get perm i; slice_get ps p) (range k) =
    Some ((λ p, ps !!! Z.to_nat p) <$> take (Z.to_nat k) perm).
Proof.
  intros Hp Hk. assert (length perm = length ps) as Hl.
  { rewrite (Permutation_length Hp). unfold range. rewrite length_seqZ. unfold len. lia. }
  apply mapM_Some, Forall2_same_length_lookup. split.
  { unfold range, len in *. rewrite length_fmap, length_seqZ, length_take. lia. }
  intros i z x Hz Hx. apply lookup_seqZ in Hz as [-> Hi].
  apply list_lookup_fmap_Some in Hx as (p & -> & Hx). rewrite lookup_take_lt in Hx by lia.
  assert (slice_get perm (0 + Z.of_nat i) = Some p) as ->.
  { apply slice_get_lookup. split; [lia|]. by replace (Z.to_nat _) with i by lia. }
  cbn [mbind option_bind]. apply slice_get_lookup.
  assert (0 ≤ p < len ps) as Hb.
  { apply elem_of_range. rewrite <- Hp. by eapply list_elem_of_lookup_2. }
  split; [lia|]. apply list_lookup_lookup_total_lt. unfold len in *. lia.
Qed.

Lemma pickPeers_choice o k n :
  0 ≤ k → pickPeers o k n ≠ Panicked ∧
  ∀ out, pickPeers o k n = Done out →
    out ⊆+ n.(gpeers) ∧ len out = Z.min k (len n.(gpeers)).
Proof.
  intros Hk. unfold pickPeers. case_decide as H0.
  { split; [done|]. intros out [= <-]. pose proof (len_nonneg n.(gpeers)).
    split; [apply submseteq_nil_l|]. rewrite len_nil. lia. }
  case_decide as H1.
  { split; [done|]. intros out [= <-]. split; [done|lia]. }
  case_decide as Hp; [|done]. rewrite decide_False by lia. destruct Hp as [Hnd Hset].
  assert (o.(oPerm) ≡ₚ range (len n.(gpeers))) as Hperm.
  { apply NoDup_Permutation; [done|apply NoDup_range|]. intros x.
    rewrite <- (elem_of_list_to_set (C := gset Z)), Hset. apply elem_of_list_to_set. }
  rewrite mapM_positions by (done || lia). split; [done|]. intros out [= <-]. split.
  - etrans; [apply fmap_submseteq, sublist_submseteq, sublist_take|].
    apply Permutation_submseteq. rewrite Hperm. by rewrite fmap_range_total.
  - pose proof (Permutation_length Hperm) as Hl. unfold range, len in *.
    rewrite length_seqZ in Hl. rewrite length_fmap, length_take. lia.
Qed.

Lemma pickPeers_elem o k n ps p : pickPeers o k n = Done ps → p ∈ ps → p ∈ n.(gpeers).
Proof.
  intros H Hp. destruct (decide (0 ≤ k)) as [Hk|Hk].
  - apply (pickPeers_choice o k n Hk) in H as [H _]. by eapply elem_of_submseteq.
  - revert H. unfold pickPeers. case_decide; [by intros [= <-]; apply elem_of_nil in Hp|].
    pose proof (len_nonneg n.(gpeers)). rewrite decide_False by lia.
    case_decide; [|done]. by rewrite decide_True by lia.
Qed.

(** ** Theorems *)

(** [pickPeers] with a non-negative fanout returns as many distinct
    entries of the peer list as it has and the fanout allows, and never
    panics; with a negative fanout it panics as soon as there is a peer. *)
Theorem pickPeers_spec o k n :
  (0 ≤ k → pickPeers o k n ≠ Panicked ∧
     ∀ out, pickPeers o k n = Done out →
       out ⊆+ n.(gpeers) ∧ len out = Z.min k (len n.(gpeers))) ∧
  (k < 0 → n.(gpeers) ≠ [] → pickPeers o k n = Panicked ∨ pickPeers o k n = Disabled).
Proof.
  split; [apply pickPeers_choice|]. intros Hk Hne. unfold pickPeers, len.
  destruct (gpeers n) as [|p ps]; [done|]. rewrite decide_False by (simpl; lia).
  rewrite decide_False by (simpl; lia). case_decide; [|by right]. rewrite decide_True by done. by left.
Qed.

(** ** How a handler changes its node

    [sgrows P s s'] : the store keeps all it has seen, and what is new
    satisfies [P]. *)
Record sgrows (P : Rumor → Prop) (s s' : Store) : Prop := {
  sg_ok : store_ok s → store_ok s';
  sg_mono : s.(seen) ⊆ s'.(seen);
  sg_new : ∀ id r, s'.(seen) !! id = Some r → s.(seen) !! id = Some r ∨ P r
}.

Lemma sgrows_refl P s : sgrows P s s.
Proof. split; auto. Qed.

Lemma sgrows_trans P s1 s2 s3 : sgrows P s1 s2 → sgrows P s2 s3 → sgrows P s1 s3.
Proof.
  intros [O1 M1 N1] [O2 M2 N2]. split; [auto|by etrans|].
  intros id r [H|?]%N2; [|by right]. by apply N1.
Qed.

Lemma sgrows_writeLog P clock ev r s : sgrows P s (writeLog clock ev r s).
Proof. split; [apply writeLog_ok|by autorewrite with store..|]. intros ??. autorewrite with store. auto. Qed.

Lemma sgrows_Add (P : Rumor → Prop) clock r s : P r → sgrows P s (Add clock r s).1.
Proof.
  intros HP. split; [apply Add_ok|rewrite Add_seen; destruct (seen s !! rID r) eqn:E..].
  - done.
  - by apply insert_subseteq.
  - auto.
  - intros id r'. rewrite lookup_insert_Some. intros [[_ <-]|[_ ?]]; auto.
Qed.

(** The two loops that add the rumors of a message. *)
Lemma sgrows_foldl (P : Rumor → Prop) (f : Store → Rumor → Store) rs s :
  (∀ s r, r ∈ rs → sgrows P s (f s r)) → sgrows P s (foldl f s rs).
Proof.
  revert s. induction rs as [|r rs IH]; intros s Hf; simpl; [apply sgrows_refl|].
  eapply sgrows_trans; [apply (Hf s r); set_solver|]. apply IH. intros s' r' ?. apply Hf. set_solver.
Qed.

Lemma sgrows_ReadyToPush P s : sgrows P s (ReadyToPush s).1.
Proof. split; [apply ReadyToPush_ok|by rewrite ReadyToPush_seen..|]. intros ??. rewrite ReadyToPush_seen. auto. Qed.

Record grows (P : Rumor → Prop) (n n' : Node) : Prop := {
  gr_cfg : n'.(cfg) = n.(cfg);
  gr_peers : n'.(gpeers) = n.(gpeers);
  gr_store : sgrows P n.(store) n'.(store)
}.

(** A node whose store has just been logged to, or that bumped its counter. *)
Lemma grows_set_store P s n : sgrows P n.(store) s → grows P n (set_store s n).
Proof. by split. Qed.

Lemma grows_httpInject o id body ttl n :
  grows (λ r, r = httpRumor o id body ttl n) n (httpInject o id body ttl n).
Proof.
  unfold httpInject, httpRumor.
  assert (cfg (injectArgs id body ttl n).2 = cfg n ∧ gpeers (injectArgs id body ttl n).2 = gpeers n ∧
    store (injectArgs id body ttl n).2 = store n) as (Hc & Hp & Hs).
  { unfold injectArgs. by case_decide. }
  destruct (injectArgs id body ttl n) as [[[id' body'] ttl'] n']. simpl in *.
  split; simpl; [done..|]. rewrite Hs.
  eapply sgrows_trans; [apply sgrows_writeLog|]. by apply sgrows_Add.
Qed.

(** The messages of a tick carry rumors the node has seen, to its peers. *)
Lemma tickOnce_spec o n n' out P :
  tickOnce o n = Done (n', out) →
  grows P n n' ∧
  (store_ok n.(store) → ∀ p m, (p, m) ∈ out → m.(mType) = MsgPush ∧ p ∈ n.(gpeers) ∧
     ∀ r, r ∈ m.(mRumors) → n.(store).(seen) !! r.(rID) = Some r).
Proof.
  unfold tickOnce. pose proof (sgrows_ReadyToPush P (store n)) as Hg.
  pose proof (ReadyToPush_out (store n)) as Hout.
  destruct (ReadyToPush (store n)) as [s rs]. simpl in Hg, Hout. destruct rs as [|r0 rs].
  { intros [= <- <-]. split; [by apply grows_set_store|]. set_solver. }
  simpl. destruct (pickPeers _ _ _) as [ps| |] eqn:Hpk; simpl; [|done..].
  match goal with |- context [sendAll o ?m ?d ps s] =>
    pose proof (sendAll_spec o m d ps s) as (Hs & Hn & Hsend); destruct (sendAll o m d ps s) as [s' out'] end.
  simpl in *. intros [= <- <-]. split.
  - split; [done..|]. eapply sgrows_trans; [done|]. split.
    + by apply store_ok_ext.
    + simpl. by rewrite Hs.
    + intros ??. simpl. rewrite Hs. auto.
  - intros Hok p m Hpm. rewrite Hsend in Hpm. apply list_elem_of_fmap in Hpm as (p' & [= -> ->] & Hp').
    split_and!; [done| |].
    + by apply (pickPeers_elem _ _ _ _ _ Hpk).
    + intros r. simpl. rewrite Hout. intros (id & -> & Hid)%list_elem_of_fmap.
      destruct (so_new _ Hok id Hid) as [r Hr]. rewrite Hr. simpl. by rewrite (so_key _ Hok id r Hr).
Qed.

Lemma sendDigest_spec o n n' out :
  sendDigest o n = Done (n', out) →
  n' = n ∧ ∀ p m, (p, m) ∈ out → m.(mType) = MsgDigest.
Proof.
  unfold sendDigest. destruct (pickPeers o 1 n) as [[|p ps]| |]; simpl; try done.
  - intros [= <- <-]. set_solver.
  - destruct (Digest _ _); simpl; [|done]. case_decide; intros [= <- <-]; set_solver.
Qed.

(** What [Handle] does with each kind of message; [R] is the rumor the log
    record of the message is made of. *)
Lemma handleDigest_spec o m remote n n' out :
  handleDigest o m remote n = Done (n', out) →
  n' = n ∧ ∀ p m', (p, m') ∈ out → p = remote ∧ m'.(mType) = MsgMissing ∧
    ∀ id, id ∈ m'.(mIDs) → is_Some (n.(store).(seen) !! id).
Proof.
  unfold handleDigest. destruct (Digest _ _) as [ours|] eqn:E; simpl; [|done].
  unfold Digest in E. case_decide as Hd; [|done]. injection E as <-. destruct Hd as [_ Hd].
  case_decide; intros [= <- <-]; (split; [done|]); [|set_solver].
  intros p m' [= -> ->]%list_elem_of_singleton. split_and!; [done..|]. simpl.
  intros id. rewrite diff_filter, list_elem_of_filter. intros [_ Hid].
  apply elem_of_dom. rewrite <- Hd. by apply elem_of_list_to_set.
Qed.

Lemma handleMissing_spec m remote n n' out :
  handleMissing m remote n = (n', out) →
  n' = n ∧ ∀ p m', (p, m') ∈ out → p = remote ∧ m'.(mType) = MsgFetchRep ∧
    ∀ r, r ∈ m'.(mRumors) → ∃ id, id ∈ m.(mIDs) ∧ n.(store).(seen) !! id = Some r.
Proof.
  unfold handleMissing. case_decide; intros [= <- <-]; (split; [done|]); [set_solver|].
  intros p m' [= -> ->]%list_elem_of_singleton. split_and!; [done..|]. simpl.
  intros r (id & ? & ?)%list_elem_of_omap. eauto.
Qed.

(** A rumor one hop further. *)
Definition hop (r : Rumor) : Rumor :=
  mkRumor r.(rID) (r.(rTTL) - 1) r.(rBody) r.(rOrigin) r.(rInjectTS).

Lemma grows_handlePush o m n :
  grows (λ r, ∃ r0, r0 ∈ m.(mRumors) ∧ 0 < r0.(rTTL) ∧ r = hop r0) n (handlePush o m n).
Proof.
  apply grows_set_store, sgrows_foldl. intros s r Hr. case_decide; [apply sgrows_refl|].
  apply sgrows_Add. exists r. split_and!; [done|lia|done].
Qed.

Lemma grows_handleFetchRep o m n :
  grows (λ r, r ∈ m.(mRumors)) n (handleFetchRep o m n).
Proof.
  apply grows_set_store, sgrows_foldl. intros s r Hr. case_decide; [apply sgrows_refl|].
  by apply sgrows_Add.
Qed.

(** A reply whose rumors are all known changes nothing. *)
Lemma handleFetchRep_known o m n :
  (∀ r, r ∈ m.(mRumors) → is_Some (n.(store).(seen) !! r.(rID))) → handleFetchRep o m n = n.
Proof.
  intros Hk. unfold handleFetchRep.
  assert (foldl (λ s r, if decide (rTTL r ≤ 0) then s else (Add (oClock o) r s).1) (store n) (mRumors m)
          = store n) as ->; [|by destruct n].
  induction (mRumors m) as [|r rs IH]; [done|]. simpl.
  assert ((Add (oClock o) r (store n)).1 = store n) as ->.
  { unfold Add. destruct (Hk r) as [? ->]; [set_solver|done]. }
  destruct (decide _); apply IH; set_solver.
Qed.
