(* ===== verification/GossipNet.v ===== *)
(** * A network of gossip nodes

    Nodes by address, and the packets sent so far.  A packet may be delivered
    any number of times, in any order, or never, which is what UDP allows
    (src/project/gossip/pkg/gossip/transport.go); a packet to an address
    without a node goes nowhere.  A handler learns its sender's address, and
    answers go there.  A packet carries what [json.Unmarshal] makes of the bytes
    [json.Marshal] made of the message ([wire]): numbers and the base64 body
    come back as they were, and so does a string of valid UTF-8; in any other
    string the bytes that are not UTF-8 come back as U+FFFD.  [origins] records
    every injection: which node, and the rumor it made. *)
From S2P Require Import Prelude GoStrings GossipStore GossipNode.

(** ** The transport *)

(** A rumor, and a message, encoded by [Send] and decoded by [Listen]. *)
Definition wireRumor (r : Rumor) : Rumor :=
  mkRumor (toValid r.(rID)) r.(rTTL) r.(rBody) (toValid r.(rOrigin)) r.(rInjectTS).

Definition wire (m : Msg) : Msg :=
  mkMsg m.(mType) (toValid m.(mFrom)) (wireRumor <$> m.(mRumors)) (toValid <$> m.(mIDs)).

Record packet := mkPacket { pkSrc : string; pkDst : string; pkMsg : Msg }.

Record gworld := mkGWorld {
  gnodes : gmap string Node;
  packets : list packet;
  origins : list (string * Rumor)
}.

Inductive glabel :=
| GInject (a : string) (o : Oracle) (id body ttl : string)
| GTick (a : string) (o : Oracle)
| GAntiEntropy (a : string) (o : Oracle)
| GDeliver (k : nat) (o : Oracle).

(** [Send] at the node with address [a]. *)
Definition send (a : string) (x : string * Msg) : packet := mkPacket a x.1 (wire x.2).

(** The node at [a] after a handler that sent [out]. *)
Definition put (a : string) (n : Node) (out : list (string * Msg)) (w : gworld) : gworld :=
  mkGWorld (<[a := n]> w.(gnodes))
    (w.(packets) ++ (send a <$> out)) w.(origins).

Definition gstep (w : gworld) (l : glabel) : outcome gworld :=
  (match l with
   | GInject a o id body ttl =>
     n <~ enabled (w.(gnodes) !! a);
     let w := put a (httpInject o id body ttl n) [] w in
     Done (mkGWorld w.(gnodes) w.(packets)
             (w.(origins) ++ [(a, httpRumor o id body ttl n)]))
   | GTick a o =>
     n <~ enabled (w.(gnodes) !! a);
     '(n, out) <~ tickOnce o n;
     Done (put a n out w)
   | GAntiEntropy a o =>
     n <~ enabled (w.(gnodes) !! a);
     '(n, out) <~ sendDigest o n;
     Done (put a n out w)
   | GDeliver k o =>
     p <~ enabled (w.(packets) !! k);
     n <~ enabled (w.(gnodes) !! p.(pkDst));
     '(n, out) <~ Handle o p.(pkMsg) p.(pkSrc) n;
     Done (put p.(pkDst) n out w)
   end)%outcome.

(** A network of new nodes; [created] tells whose log file could be created. *)
Definition ginit (nodes : gmap string (Config * bool)) : gworld :=
  mkGWorld ((λ '(c, created), NewNode c created) <$> nodes) [] [].

Definition gsteps : gworld → gworld → Prop := rtc (λ w w', ∃ l, gstep w l = Done w').

Section network.
Context (topo : gmap string (Config * bool)).
Implicit Types (w : gworld).

(** [a] has [b] among its seeds. *)
Definition edge (a b : string) : Prop :=
  ∃ c created, topo !! a = Some (c, created) ∧ b ∈ c.(cSeeds).

(** [s'] is [s], as it was or as the transport leaves it. *)
Definition coerced (s s' : string) : Prop := s' = s ∨ s' = toValid s.

(** [r] is the rumor [r0], with [k] taken off its TTL. *)
Definition descends (k : nat) (r0 r : Rumor) : Prop :=
  coerced r0.(rID) r.(rID) ∧ r.(rBody) = r0.(rBody) ∧ coerced r0.(rOrigin) r.(rOrigin) ∧
  r.(rInjectTS) = r0.(rInjectTS) ∧ r.(rTTL) = r0.(rTTL) - Z.of_nat k ∧
  (k = 0%nat ∨ 0 ≤ r.(rTTL)).

(** Only identifiers of valid UTF-8 have been injected. *)
Definition valid_ids (inj : list (string * Rumor)) : Prop :=
  Forall (λ x, validUTF8 x.2.(rID)) inj.

#[global] Instance valid_ids_dec inj : Decision (valid_ids inj).
Proof. unfold valid_ids, validUTF8. apply _. Defined.

(** [r] comes from an injection somewhere, under the name of the node there. *)
Definition injectedFrom (inj : list (string * Rumor)) (b : string) (k : nat) (r : Rumor) : Prop :=
  ∃ r0, (b, r0) ∈ inj ∧ descends k r0 r ∧
        ∃ c created, topo !! b = Some (c, created) ∧ r0.(rOrigin) = c.(cID).

(** [r] can be at [a]: it was injected, and if identifiers are valid it came
    here along seed edges. *)
Definition provenance (inj : list (string * Rumor)) (a : string) (r : Rumor) : Prop :=
  ∃ b k, injectedFrom inj b k r ∧ (valid_ids inj → nsteps edge k b a).

Lemma coerced_toValid s s' : coerced s s' → coerced s (toValid s').
Proof. intros [->| ->]; right; [done|apply toValid_valid]. Qed.

Lemma injectedFrom_wire inj b k r : injectedFrom inj b k r → injectedFrom inj b k (wireRumor r).
Proof.
  intros (r0 & ? & (? & ? & ? & ? & ? & ?) & Hc). exists r0. split_and!; [done| |done].
  unfold descends. simpl. split_and!; try done; by apply coerced_toValid.
Qed.

Lemma injectedFrom_mono inj inj' b k r : injectedFrom inj b k r → injectedFrom (inj ++ inj') b k r.
Proof. intros (r0 & ? & ?). exists r0. split; [set_solver|done]. Qed.

(** With valid identifiers the identifier is the injected one. *)
Lemma coerced_id inj b r0 id :
  valid_ids inj → (b, r0) ∈ inj → coerced r0.(rID) id → validUTF8 r0.(rID) ∧ id = r0.(rID).
Proof.
  unfold valid_ids. rewrite Forall_forall. intros Hv Hin Hid. specialize (Hv _ Hin). split; [done|].
  unfold validUTF8 in Hv. simpl in Hv. destruct Hid; congruence.
Qed.

Lemma provenance_valid inj a r : valid_ids inj → provenance inj a r → validUTF8 r.(rID).
Proof.
  intros Hv (b & k & (r0 & Hin & (Hid & _) & _) & _). by destruct (coerced_id _ _ _ _ Hv Hin Hid) as [? ->].
Qed.

Lemma provenance_wire inj a r : provenance inj a r → provenance inj a (wireRumor r).
Proof. intros (b & k & ? & ?). exists b, k. split; [by apply injectedFrom_wire|done]. Qed.

Lemma provenance_mono inj inj' a r :
  provenance inj a r → provenance (inj ++ inj') a r.
Proof.
  intros (b & k & ? & Hp). exists b, k. split; [by apply injectedFrom_mono|].
  intros [? _]%Forall_app. by apply Hp.
Qed.

(** If some identifier is not valid, a rumor may be anywhere. *)
Lemma provenance_elsewhere inj a a' r :
  ~ valid_ids inj → provenance inj a r → provenance inj a' r.
Proof. intros Hv (b & k & ? & _). by exists b, k. Qed.

Lemma provenance_hop inj a b r :
  provenance inj a r → edge a b → 0 < r.(rTTL) → provenance inj b (hop r).
Proof.
  intros (x & k & (r0 & Hin & (? & ? & ? & ? & Ht & _) & Hc) & Hp) He Hpos.
  exists x, (S k). split; [|intros Hv; eapply nsteps_r; [by apply Hp|done]].
  exists r0. split_and!; [done| |done].
  unfold descends, hop. simpl. split_and!; try done; [lia|]. right. lia.
Qed.

(** [a] has seen identifier [id]. *)
Definition knows w (a id : string) : Prop :=
  ∀ n, w.(gnodes) !! a = Some n → is_Some (n.(store).(seen) !! id).

Definition packet_ok w (p : packet) : Prop :=
  match p.(pkMsg).(mType) with
  | MsgPush => edge p.(pkSrc) p.(pkDst) ∧
               ∀ r, r ∈ p.(pkMsg).(mRumors) → provenance w.(origins) p.(pkSrc) r
  | MsgDigest => True
  | MsgMissing => valid_ids w.(origins) → ∀ id, id ∈ p.(pkMsg).(mIDs) → knows w p.(pkSrc) id
  | MsgFetchRep => ∀ r, r ∈ p.(pkMsg).(mRumors) → provenance w.(origins) p.(pkSrc) r ∧
                        (valid_ids w.(origins) → knows w p.(pkDst) r.(rID))
  end.

Record node_good w (a : string) (n : Node) : Prop := {
  ng_topo : ∃ created, topo !! a = Some (n.(cfg), created);
  ng_peers : n.(gpeers) = n.(cfg).(cSeeds);
  ng_store : store_ok n.(store);
  ng_seen : ∀ id r, n.(store).(seen) !! id = Some r → provenance w.(origins) a r
}.

Record gworld_ok w : Prop := {
  gw_nodes : ∀ a n, w.(gnodes) !! a = Some n → node_good w a n;
  gw_packets : ∀ p, p ∈ w.(packets) → packet_ok w p
}.

(** The one way a world changes: a node grows by rumors that may be there, and
    sends packets that are in order. *)
Lemma gworld_ok_put w a n n' out inj P :
  gworld_ok w → w.(gnodes) !! a = Some n → grows P n n' →
  (∀ r, P r → provenance (w.(origins) ++ inj) a r) →
  (∀ w', w'.(gnodes) = <[a := n']> w.(gnodes) → w'.(origins) = w.(origins) ++ inj →
     ∀ p m, (p, m) ∈ out → packet_ok w' (send a (p, m))) →
  gworld_ok (mkGWorld (<[a := n']> w.(gnodes))
    (w.(packets) ++ (send a <$> out)) (w.(origins) ++ inj)).
Proof.
  intros [Hn Hp] Ha [Hcfg Hpeers [Hok Hmono Hnew]] HP Hout. set (w' := mkGWorld _ _ _).
  assert (∀ b id, knows w b id → knows w' b id) as Hknows.
  { intros b id Hk n1. unfold w'. simpl. rewrite lookup_insert_Some. intros [[<- <-]|[_ Hb]].
    - destruct (Hk n Ha) as [r Hr]. exists r. by eapply lookup_weaken.
    - by apply Hk. }
  split.
  - intros b n1. unfold w'. simpl. rewrite lookup_insert_Some. intros [[<- <-]|[_ Hb]].
    + destruct (Hn a n Ha) as [Ht Hps Hst Hse]. split.
      * by rewrite Hcfg.
      * by rewrite Hpeers, Hcfg.
      * by apply Hok.
      * intros id r [Hr|Hr]%Hnew; [|by apply HP]. by eapply provenance_mono, Hse.
    + destruct (Hn b n1 Hb) as [? ? ? Hse]. split; try done.
      intros id r Hr. by eapply provenance_mono, Hse.
  - intros p [Hin|Hin]%elem_of_app.
    + specialize (Hp p Hin). unfold packet_ok in *. simpl. case_match; [|done|..].
      * destruct Hp as [? Hr]. split; [done|]. intros r ?. by apply provenance_mono, Hr.
      * intros [Hv _]%Forall_app id Hid. by apply Hknows, Hp.
      * intros r Hr. destruct (Hp r Hr) as [? Hk]. split; [by apply provenance_mono|].
        intros [Hv _]%Forall_app. by apply Hknows, Hk.
    + apply list_elem_of_fmap in Hin as ([q m] & -> & Hqm). by apply Hout.
Qed.

Lemma put_ok w a n n' out P :
  gworld_ok w → w.(gnodes) !! a = Some n → grows P n n' →
  (∀ r, P r → provenance w.(origins) a r) →
  (∀ w', w'.(gnodes) = <[a := n']> w.(gnodes) → w'.(origins) = w.(origins) →
     ∀ p m, (p, m) ∈ out → packet_ok w' (send a (p, m))) →
  gworld_ok (put a n' out w).
Proof.
  intros Hw Ha Hg HP Hout.
  pose proof (gworld_ok_put w a n n' out [] P Hw Ha Hg) as H. rewrite app_nil_r in H.
  by apply H.
Qed.

Lemma knows_insert w w' a n id :
  w'.(gnodes) = <[a := n]> w.(gnodes) → is_Some (n.(store).(seen) !! id) → knows w' a id.
Proof. intros E Hid n'. rewrite E, lookup_insert_eq. by intros [= <-]. Qed.

(** A handler that leaves its node as it was, but for the log. *)
Definition logged (r : Rumor) (o : Oracle) (n : Node) : Node :=
  set_store (writeLog o.(oClock) "recv" r n.(store)) n.

Lemma grows_logged P r o n n' : grows P (logged r o n) n' → grows P n n'.
Proof.
  intros [? ? Hs]. split; [done..|]. eapply sgrows_trans; [|exact Hs]. apply sgrows_writeLog.
Qed.

Lemma grows_refl P n : grows P n n.
Proof. split; [done..|apply sgrows_refl]. Qed.

Lemma logged_seen r o n : (logged r o n).(store).(seen) = n.(store).(seen).
Proof. simpl. by autorewrite with store. Qed.

(** With valid identifiers, what a node has seen is what the transport sends. *)
Lemma seen_valid w a n id r :
  gworld_ok w → valid_ids w.(origins) → w.(gnodes) !! a = Some n →
  n.(store).(seen) !! id = Some r → toValid id = id.
Proof.
  intros Hw Hv Ha Hr. destruct (gw_nodes _ Hw _ _ Ha) as [_ _ Hok Hs].
  rewrite <- (so_key _ Hok _ _ Hr). eapply provenance_valid; [done|by eapply Hs].
Qed.

Lemma gdeliver_push w p o n dummy :
  gworld_ok w → w.(gnodes) !! p.(pkDst) = Some n → packet_ok w p → p.(pkMsg).(mType) = MsgPush →
  gworld_ok (put p.(pkDst) (handlePush o p.(pkMsg) (logged dummy o n)) [] w).
Proof.
  intros Hw Hn Hp Ht. unfold packet_ok in Hp. rewrite Ht in Hp. destruct Hp as [He Hprov].
  eapply put_ok; [done..|eapply grows_logged, grows_handlePush| |set_solver].
  intros r (r0 & Hr0 & Hpos & ->). eapply provenance_hop; [by apply Hprov|done|done].
Qed.

Lemma gdeliver_digest w p o n n' out dummy :
  gworld_ok w → w.(gnodes) !! p.(pkDst) = Some n →
  handleDigest o p.(pkMsg) p.(pkSrc) (logged dummy o n) = Done (n', out) →
  gworld_ok (put p.(pkDst) n' out w).
Proof.
  intros Hw Hn [-> Hout]%handleDigest_spec.
  eapply (put_ok _ _ _ _ _ (λ _, False)); [done..|eapply grows_logged, grows_refl|done|].
  intros w' Hw' Ho q m Hq. destruct (Hout q m Hq) as (-> & Ht & Hids). unfold packet_ok. simpl.
  rewrite Ht, Ho. intros Hv id (id0 & -> & Hid0)%list_elem_of_fmap. eapply knows_insert; [done|].
  specialize (Hids _ Hid0) as [r Hr]. pose proof Hr as Hr'. rewrite logged_seen in Hr'.
  rewrite (seen_valid _ _ _ _ _ Hw Hv Hn Hr'). by eexists.
Qed.

Lemma gdeliver_missing w p o n n' out dummy :
  gworld_ok w → w.(gnodes) !! p.(pkDst) = Some n → packet_ok w p → p.(pkMsg).(mType) = MsgMissing →
  handleMissing p.(pkMsg) p.(pkSrc) (logged dummy o n) = (n', out) →
  gworld_ok (put p.(pkDst) n' out w).
Proof.
  intros Hw Hn Hp Ht [-> Hout]%handleMissing_spec. unfold packet_ok in Hp. rewrite Ht in Hp.
  eapply (put_ok _ _ _ _ _ (λ _, False)); [done..|eapply grows_logged, grows_refl|done|].
  intros w' Hw' Ho q m Hq. destruct (Hout q m Hq) as (-> & Hty & Hrs). unfold packet_ok. simpl.
  rewrite Hty, Ho. intros r (r0 & -> & Hr0)%list_elem_of_fmap.
  destruct (Hrs r0 Hr0) as (id & Hid & Hse). rewrite logged_seen in Hse. split.
  { eapply provenance_wire, ng_seen; [by apply gw_nodes|done]. }
  intros Hv n1. simpl. rewrite (so_key _ (ng_store _ _ _ (gw_nodes _ Hw _ _ Hn)) _ _ Hse).
  rewrite (seen_valid _ _ _ _ _ Hw Hv Hn Hse), Hw', lookup_insert_Some.
  intros [[Heq <-]|[_ Hn1]]; [|by apply (Hp Hv id Hid)]. rewrite logged_seen. by eexists.
Qed.

Lemma gdeliver_fetchRep w p o n dummy :
  gworld_ok w → w.(gnodes) !! p.(pkDst) = Some n → packet_ok w p → p.(pkMsg).(mType) = MsgFetchRep →
  gworld_ok (put p.(pkDst) (handleFetchRep o p.(pkMsg) (logged dummy o n)) [] w).
Proof.
  intros Hw Hn Hp Ht. unfold packet_ok in Hp. rewrite Ht in Hp.
  destruct (decide (valid_ids w.(origins))) as [Hv|Hv].
  - rewrite handleFetchRep_known by (intros r Hr; rewrite logged_seen; by apply Hp).
    eapply (put_ok _ _ _ _ _ (λ _, False)); [done..|eapply grows_logged, grows_refl|done|set_solver].
  - eapply put_ok; [done..|eapply grows_logged, grows_handleFetchRep| |set_solver].
    intros r Hr. eapply provenance_elsewhere; [done|by apply Hp].
Qed.

Lemma gdeliver_ok w p o n n' out :
  gworld_ok w → p ∈ w.(packets) → w.(gnodes) !! p.(pkDst) = Some n →
  Handle o p.(pkMsg) p.(pkSrc) n = Done (n', out) → gworld_ok (put p.(pkDst) n' out w).
Proof.
  intros Hw Hin Hn. pose proof (gw_packets _ Hw p Hin) as Hp.
  unfold Handle. set (dummy := match _ with [] => _ | _ => _ end).
  change (set_store (writeLog (oClock o) "recv" dummy (store n)) n) with (logged dummy o n).
  destruct (mType (pkMsg p)) eqn:Ht.
  - intros [= <- <-]. by apply gdeliver_push.
  - by apply gdeliver_digest.
  - intros [= Hm]. by eapply gdeliver_missing.
  - intros [= <- <-]. by apply gdeliver_fetchRep.
Qed.

Lemma httpRumor_origin o id body ttl n : (httpRumor o id body ttl n).(rOrigin) = n.(cfg).(cID).
Proof. unfold httpRumor, injectArgs. by case_decide. Qed.

Lemma gstep_ok w l w' : gworld_ok w → gstep w l = Done w' → gworld_ok w'.
Proof.
  intros Hw Hs. destruct l as [a o id body ttl|a o|a o|k o]; simpl in Hs.
  4: { destruct (packets w !! k) as [p|] eqn:Hk; simpl in Hs; [|done].
       destruct (gnodes w !! pkDst p) as [n|] eqn:Hn; simpl in Hs; [|done].
       destruct (Handle _ _ _ _) as [[n' out]| |] eqn:Hh; simpl in Hs; [|done..].
       injection Hs as <-. eapply gdeliver_ok; [done| |done|done]. by eapply list_elem_of_lookup_2. }
  all: destruct (gnodes w !! a) as [n|] eqn:Hn; simpl in Hs; [|done].
  all: destruct (gw_nodes _ Hw _ _ Hn) as [[created Ht] Hps Hst _].
  - injection Hs as <-. eapply (gworld_ok_put w a n _ []); [done..|apply grows_httpInject| |set_solver].
    intros r ->. exists a, 0%nat. split; [|constructor].
    exists (httpRumor o id body ttl n). split_and!; [set_solver|..].
    + unfold descends. split_and!; try done; [by left..|lia|by left].
    + exists (cfg n), created. split; [done|]. apply httpRumor_origin.
  - destruct (tickOnce o n) as [[n' out]| |] eqn:Htick; simpl in Hs; [|done..]. injection Hs as <-.
    apply (tickOnce_spec _ _ _ _ (λ _, False)) in Htick as [Hg Hout].
    eapply put_ok; [done..|]. intros w' _ Ho p m Hpm.
    destruct (Hout Hst p m Hpm) as (Hty & Hp & Hr). unfold packet_ok. simpl. rewrite Hty, Ho. split.
    + exists (cfg n), created. split; [done|]. by rewrite <- Hps.
    + intros r (r0 & -> & Hr')%list_elem_of_fmap.
      eapply provenance_wire, (ng_seen _ _ _ (gw_nodes _ Hw _ _ Hn)). by apply Hr.
  - destruct (sendDigest o n) as [[n' out]| |] eqn:Hd; simpl in Hs; [|done..]. injection Hs as <-.
    apply sendDigest_spec in Hd as [-> Hout].
    eapply (put_ok _ _ _ _ _ (λ _, False)); [done..|apply grows_refl|done|].
    intros w' _ _ p m Hpm. unfold packet_ok. simpl. by rewrite (Hout p m Hpm).
Qed.

Lemma ginit_ok : gworld_ok (ginit topo).
Proof.
  split; [|by intros p ?%elem_of_nil]. intros a n. simpl. rewrite lookup_fmap_Some.
  intros ([c created] & <- & Ha). split; simpl; [by exists created|done|apply NewStore_ok|].
  intros id r. by rewrite lookup_empty.
Qed.

Lemma greachable_ok w : gsteps (ginit topo) w → gworld_ok w.
Proof.
  intros H. revert w H. apply (rtc_ind_r gworld_ok); [apply ginit_ok|].
  intros w1 w2 _ [l Hl] Hw. by eapply gstep_ok.
Qed.

(** Whatever it handles, a node keeps what it has seen. *)
Lemma Handle_grows o m remote n n' out :
  Handle o m remote n = Done (n', out) → ∃ P, grows P n n'.
Proof.
  unfold Handle. set (dummy := match _ with [] => _ | _ => _ end).
  change (set_store (writeLog (oClock o) "recv" dummy (store n)) n) with (logged dummy o n).
  destruct (mType m).
  - intros [= <- <-]. eexists. eapply grows_logged, grows_handlePush.
  - intros [-> _]%handleDigest_spec. exists (λ _, False). eapply grows_logged, grows_refl.
  - intros [= H]. apply handleMissing_spec in H as [-> _].
    exists (λ _, False). eapply grows_logged, grows_refl.
  - intros [= <- <-]. eexists. eapply grows_logged, grows_handleFetchRep.
Qed.

Lemma gstep_grows w l w' a n :
  gstep w l = Done w' → w.(gnodes) !! a = Some n →
  ∃ n' P, w'.(gnodes) !! a = Some n' ∧ grows P n n'.
Proof.
  intros Hs Ha.
  assert (∀ b m m' ps os, gnodes w !! b = Some m → (∃ P, grows P m m') →
    mkGWorld (<[b := m']> (gnodes w)) ps os = w' →
    ∃ n' P, gnodes w' !! a = Some n' ∧ grows P n n') as Hput.
  { intros b m m' ps os Hb [P Hg] <-. simpl. destruct (decide (a = b)) as [->|Hne].
    - rewrite lookup_insert_eq. simplify_eq. eauto.
    - rewrite lookup_insert_ne by done. exists n, (λ _, False). split; [done|apply grows_refl]. }
  destruct l as [b o id body ttl|b o|b o|k o]; simpl in Hs.
  4: { destruct (packets w !! k) as [p|]; simpl in Hs; [|done].
       destruct (gnodes w !! pkDst p) as [m|] eqn:Hm; simpl in Hs; [|done].
       destruct (Handle _ _ _ _) as [[m' out]| |] eqn:Hh; simpl in Hs; [|done..].
       eapply Hput; [exact Hm| |injection Hs as Hs; exact Hs]. by eapply Handle_grows. }
  all: destruct (gnodes w !! b) as [m|] eqn:Hm; simpl in Hs; [|done].
  - eapply Hput; [exact Hm| |injection Hs as Hs; exact Hs]. eexists. apply grows_httpInject.
  - destruct (tickOnce o m) as [[m' out]| |] eqn:Ht; simpl in Hs; [|done..].
    eapply Hput; [exact Hm| |injection Hs as Hs; exact Hs].
    exists (λ _, False). by apply (tickOnce_spec _ _ _ _ (λ _, False)) in Ht as [? _].
  - destruct (sendDigest o m) as [[m' out]| |] eqn:Hd; simpl in Hs; [|done..].
    eapply Hput; [exact Hm| |injection Hs as Hs; exact Hs].
    apply sendDigest_spec in Hd as [-> _]. exists (λ _, False). apply grows_refl.
Qed.

Lemma tickOnce_panics o n : 0 ≤ n.(cfg).(cFanout) → tickOnce o n ≠ Panicked.
Proof.
  intros Hf. unfold tickOnce. destruct (ReadyToPush (store n)) as [s [|r rs]]; [done|]. simpl.
  destruct (pickPeers_choice o (cFanout (cfg n)) (set_store s n) Hf) as [Hp _].
  destruct (pickPeers _ _ _) eqn:E; simpl; [|done|].
  - by destruct (sendAll _ _ _ _ _).
  - done.
Qed.

Lemma sendDigest_panics o n : sendDigest o n ≠ Panicked.
Proof.
  unfold sendDigest. destruct (pickPeers_choice o 1 n ltac:(lia)) as [Hp _].
  destruct (pickPeers o 1 n) as [[|p ps]| |] eqn:E; simpl; [done| |done|done].
  destruct (Digest _ _); simpl; [|done]. by case_decide.
Qed.

Lemma Handle_panics o m remote n : Handle o m remote n ≠ Panicked.
Proof.
  unfold Handle. destruct (mType m); try done. unfold handleDigest.
  destruct (Digest _ _); simpl; [|done]. by case_decide.
Qed.

(** ** Theorems *)

(** C27. Rumors are authentic and do not travel further than their TTL: in
    every execution, a rumor stored at a node was injected at some node, under
    that node's identity, with the same body and time; its TTL is the injected
    one less some [k] at most the injected TTL (0 if that is negative), and its
    identifier and origin are the injected ones, as they were or with the bytes
    that are not valid UTF-8 replaced by U+FFFD.  If every identifier injected
    so far is valid UTF-8, the identifier is the injected one and the rumor
    came along a path of [k] seed edges. *)
Theorem rumor_provenance w a n id r :
  gsteps (ginit topo) w → w.(gnodes) !! a = Some n → n.(store).(seen) !! id = Some r →
  ∃ b r0 k c created, (b, r0) ∈ w.(origins) ∧ topo !! b = Some (c, created) ∧
    r0.(rOrigin) = c.(cID) ∧ r.(rID) = id ∧
    (id = r0.(rID) ∨ id = toValid r0.(rID)) ∧ r.(rBody) = r0.(rBody) ∧
    (r.(rOrigin) = c.(cID) ∨ r.(rOrigin) = toValid c.(cID)) ∧ r.(rInjectTS) = r0.(rInjectTS) ∧
    r.(rTTL) = r0.(rTTL) - Z.of_nat k ∧ Z.of_nat k ≤ Z.max 0 r0.(rTTL) ∧
    (valid_ids w.(origins) → id = r0.(rID) ∧ nsteps edge k b a).
Proof.
  intros Hw%greachable_ok Ha Hr. destruct (gw_nodes _ Hw _ _ Ha) as [_ _ Hok Hs].
  pose proof (so_key _ Hok _ _ Hr) as Hid. destruct (Hs _ _ Hr) as (b & k & Hfrom & Hp).
  pose proof Hfrom as (r0 & Hin & (E1 & E2 & E3 & E4 & E5 & Hk) & c & cr & Hb & Ho).
  unfold coerced in *. rewrite Ho in E3. rewrite Hid in E1.
  exists b, r0, k, c, cr. split_and!; try done; [lia|]. intros Hv. split; [|by apply Hp].
  by eapply coerced_id.
Qed.

(** C28. Anti-entropy transfers nothing as long as every identifier injected so
    far is valid UTF-8: in every such execution, delivering a message that is
    not a push leaves what every node has seen, and what it has still to push,
    as it was. *)
Theorem anti_entropy_inert w k o w' p a n n' :
  gsteps (ginit topo) w → valid_ids w.(origins) →
  w.(packets) !! k = Some p → p.(pkMsg).(mType) ≠ MsgPush →
  gstep w (GDeliver k o) = Done w' →
  w.(gnodes) !! a = Some n → w'.(gnodes) !! a = Some n' →
  n'.(store).(seen) = n.(store).(seen) ∧ n'.(store).(newIDs) = n.(store).(newIDs).
Proof.
  intros Hw%greachable_ok Hv Hk Ht Hs Ha Ha'.
  pose proof (gw_packets _ Hw p ltac:(by eapply list_elem_of_lookup_2)) as Hp. unfold packet_ok in Hp.
  simpl in Hs. rewrite Hk in Hs. simpl in Hs.
  destruct (gnodes w !! pkDst p) as [m|] eqn:Hm; simpl in Hs; [|done].
  destruct (Handle _ _ _ _) as [[m' out]| |] eqn:Hh; simpl in Hs; [|done..]. injection Hs as <-.
  simpl in Ha'. rewrite lookup_insert_Some in Ha'. destruct Ha' as [[<- <-]|[_ Ha']]; [|by simplify_eq].
  rewrite Hm in Ha. injection Ha as <-. unfold Handle in Hh.
  set (dummy := match _ with [] => _ | _ => _ end) in Hh.
  change (set_store (writeLog (oClock o) "recv" dummy (store m)) m) with (logged dummy o m) in Hh.
  assert (m' = logged dummy o m) as ->; [|simpl; by autorewrite with store].
  destruct (mType (pkMsg p)); [done|..].
  - by apply handleDigest_spec in Hh as [-> _].
  - injection Hh as Hh. by apply handleMissing_spec in Hh as [-> _].
  - rewrite handleFetchRep_known in Hh by (intros r Hr; rewrite logged_seen; by apply Hp). congruence.
Qed.

(** Rumors are kept, unchanged: once a node has stored a rumor under an
    identifier, it has that very rumor under it in every later state. *)
Lemma rumors_are_kept w w' a n id r :
  gsteps w w' → w.(gnodes) !! a = Some n → n.(store).(seen) !! id = Some r →
  ∃ n', w'.(gnodes) !! a = Some n' ∧ n'.(store).(seen) !! id = Some r.
Proof.
  intros Hs. revert n. induction Hs as [w|w1 w2 w3 [l Hl] _ IH]; intros n Ha Hr; [by eauto|].
  destruct (gstep_grows _ _ _ _ _ Hl Ha) as (n' & P & Ha' & [_ _ [_ Hm _]]).
  apply (IH n' Ha'). by eapply lookup_weaken.
Qed.

(** With non-negative fanouts no node ever panics. *)
Lemma gossip_never_panics w l :
  (∀ a c created, topo !! a = Some (c, created) → 0 ≤ c.(cFanout)) →
  gsteps (ginit topo) w → gstep w l ≠ Panicked.
Proof.
  intros Hf Hw%greachable_ok. destruct l as [a o id body ttl|a o|a o|k o]; simpl.
  - by destruct (gnodes w !! a).
  - destruct (gnodes w !! a) as [n|] eqn:Hn; simpl; [|done].
    destruct (gw_nodes _ Hw _ _ Hn) as [[created Ht] _ _ _].
    pose proof (tickOnce_panics o n (Hf _ _ _ Ht)). by destruct (tickOnce o n) as [[]| |].
  - destruct (gnodes w !! a) as [n|]; simpl; [|done].
    pose proof (sendDigest_panics o n). by destruct (sendDigest o n) as [[]| |].
  - destruct (packets w !! k) as [p|]; simpl; [|done].
    destruct (gnodes w !! pkDst p) as [n|]; simpl; [|done].
    pose proof (Handle_panics o (pkMsg p) (pkSrc p) n). by destruct (Handle _ _ _ _) as [[]| |].
Qed.
End network.
