(* ===== verification/GossipDaemon.v ===== *)
(** * The gossip daemon (src/project/gossip/cmd/gossipd/main.go, node.go, transport.go)

    The process around one node: [main], the two loops [Start] launches, the
    goroutine that reads from the socket, the HTTP server, and [Close].  A
    [Daemon] has the node, where [main] is, the loops that run, the wait group,
    the socket and how far [Close] has come; [daemonStep] is one step of one of
    the goroutines.  The process ends when [main] returns or calls [log.Fatal]. *)
From S2P Require Import Prelude GoStrings GossipStore GossipNode GossipNet.

(** ** splitCSV *)

Section csv.

(** [strings.Split] with a one-byte separator. *)
Fixpoint Split (s : string) (sep : ascii) : list string :=
  match s with
  | EmptyString => [""]
  | String a s =>
    if decide (a = sep) then "" :: Split s sep
    else match Split s sep with
         | p :: ps => String a p :: ps
         | [] => [String a ""]
         end
  end.

(** [unicode.IsSpace] *)
Definition IsSpace (r : Z) : bool :=
  bool_decide (r ∈ [9; 10; 11; 12; 13; 32; 133; 160; 5760; 8232; 8233; 8239; 8287; 12288]) ||
  bool_decide (8192 ≤ r ≤ 8202).

Fixpoint dropSpaces (rs : list (Z * string)) : list (Z * string) :=
  match rs with
  | (r, bs) :: rest => if IsSpace r then dropSpaces rest else rs
  | [] => []
  end.

(** [strings.TrimSpace]: leading and trailing white space goes. *)
Definition TrimSpace (s : string) : string :=
  concatStrings (snd <$> reverse (dropSpaces (reverse (dropSpaces (runes s))))).

Definition splitCSV (s : string) : list string :=
  if decide (s = "") then []
  else foldl (λ out p, let p := TrimSpace p in if decide (p = "") then out else out ++ [p]) [] (Split s ","%char).

(** A piece without separator is split off unchanged. *)
Lemma Split_nil s sep : has_char sep s = false → Split s sep = [s].
Proof.
  induction s as [|a s IH]; simpl; [done|]. intros [Ha Hs]%orb_false_iff.
  apply bool_decide_eq_false in Ha. rewrite decide_False by done. by rewrite IH.
Qed.

Lemma Split_app s t sep : has_char sep s = false → Split (s +:+ String sep t) sep = s :: Split t sep.
Proof.
  induction s as [|a s IH]; simpl; [by rewrite decide_True|]. intros [Ha Hs]%orb_false_iff.
  apply bool_decide_eq_false in Ha. rewrite decide_False by done. by rewrite IH.
Qed.

Lemma Split_Join l : l ≠ [] → Forall (λ s, has_char ","%char s = false) l → Split (Join l ",") ","%char = l.
Proof.
  induction l as [|s [|s' l] IH]; intros Hne Hl; [done| |]; apply Forall_cons in Hl as [Hs Hl].
  - simpl. by apply Split_nil.
  - change (Join (s :: s' :: l) ",") with (s +:+ String ","%char (Join (s' :: l) ",")).
    by rewrite Split_app, IH.
Qed.

Lemma splitCSV_pieces ps out :
  foldl (λ out p, let p := TrimSpace p in if decide (p = "") then out else out ++ [p]) out ps =
  out ++ filter (λ p, p ≠ "") (TrimSpace <$> ps).
Proof.
  revert out. induction ps as [|p ps IH]; intros out; simpl; [by rewrite app_nil_r|].
  rewrite IH, filter_cons. case_decide as Hp.
  - by rewrite decide_False by (intros H; by apply H).
  - rewrite decide_True by done. by rewrite <- (assoc (++)).
Qed.

(** The seeds of a command line are what was joined, when the addresses have
    no comma and no white space around them; empty pieces vanish. *)
Lemma splitCSV_Join (l : list string) :
  Forall (λ s, s ≠ "" ∧ has_char ","%char s = false ∧ TrimSpace s = s) l → splitCSV (Join l ",") = l.
Proof.
  intros Hl. unfold splitCSV. destruct (decide (l = [])) as [->|Hne]; [done|].
  assert (Join l "," ≠ "") as Hj.
  { destruct l as [|s [|s' l]]; [done| |]; apply Forall_cons in Hl as [(Hs & _) _]; [done|]. by destruct s. }
  rewrite decide_False by done. rewrite splitCSV_pieces, Split_Join; [|done|by eapply Forall_impl; [done|naive_solver]].
  clear Hj Hne. induction Hl as [|s l (Hs & _ & Ht) _ IH]; [done|]. simpl. rewrite Ht, filter_cons, decide_True by done.
  by f_equal.
Qed.

End csv.

(** ** The process *)

Inductive loop := gossipLoop | antiEntropyLoop.

(** A loop that has been started, and one that has its ticker. *)
Inductive progress := Begun | Ticking.

(** How far [Close] has come. *)
Inductive closing := NotClosing | StopClosed | StoreClosed | TxClosed.

#[export] Instance closing_eq_dec : EqDecision closing.
Proof. solve_decision. Defined.

(** Where [main] is: before [Listen], before [Start], in [ServeHTTP]; or the
    process has ended. *)
Inductive mainAt := AtListen | AtStart | AtServe | Exited.

Record Daemon := mkDaemon {
  dNode : Node; dMain : mainAt; dLoops : list (loop * progress); dWg : Z;
  dConn : option bool;                (* nil, or whether it is open *)
  dClosing : closing;
  dSent : list (string * Msg)         (* the messages written so far *)
}.

Definition daemonInit (c : Config) (created : bool) : Daemon :=
  mkDaemon (NewNode c created) AtListen [] 0 None NotClosing [].

Inductive dlabel :=
| DListen (ok : bool)
| DStart
| DServe (err : bool)
| DHttp (o : Oracle) (id body ttl : string)
| DRecv (m : Msg) (remote : string) (o : Oracle)
| DLoopBegin (k : nat)
| DLoopTick (k : nat) (o : Oracle)
| DLoopStop (k : nat)
| DClose
| DCloseStore
| DCloseTx.

(** [Send] on every message: a nil or closed socket only gives an error. *)
Definition sendOut (n : Node) (out : list (string * Msg)) (d : Daemon) : Daemon :=
  mkDaemon n d.(dMain) d.(dLoops) d.(dWg) d.(dConn) d.(dClosing)
    (match d.(dConn) with Some true => d.(dSent) ++ out | _ => d.(dSent) end).

Definition set_main (x : mainAt) (d : Daemon) : Daemon :=
  mkDaemon d.(dNode) x d.(dLoops) d.(dWg) d.(dConn) d.(dClosing) d.(dSent).

(** Loop [k] goes on: [time.NewTicker] panics if its period is not positive. *)
Definition loopBegin (k : nat) (d : Daemon) : outcome Daemon :=
  match d.(dLoops) !! k with
  | Some (lp, Begun) =>
    let period := match lp with gossipLoop => d.(dNode).(cfg).(cPeriod) | antiEntropyLoop => 1000000000 end in
    if decide (period ≤ 0) then Panicked
    else Done (mkDaemon d.(dNode) d.(dMain) (<[k := (lp, Ticking)]> d.(dLoops)) d.(dWg) d.(dConn) d.(dClosing) d.(dSent))
  | _ => Disabled
  end.

Definition loopTick (k : nat) (o : Oracle) (d : Daemon) : outcome Daemon :=
  (match d.(dLoops) !! k with
   | Some (gossipLoop, Ticking) => '(n, out) <~ tickOnce o d.(dNode); Done (sendOut n out d)
   | Some (antiEntropyLoop, Ticking) => '(n, out) <~ sendDigest o d.(dNode); Done (sendOut n out d)
   | _ => Disabled
   end)%outcome.

(** [<-n.stop] is ready once the channel is closed; [wg.Done] panics when the
    counter would become negative. *)
Definition loopStop (k : nat) (d : Daemon) : outcome Daemon :=
  match d.(dLoops) !! k with
  | Some (_, Ticking) =>
    if decide (d.(dClosing) = NotClosing) then Disabled
    else if decide (d.(dWg) - 1 < 0) then Panicked
    else Done (mkDaemon d.(dNode) d.(dMain) (delete k d.(dLoops)) (d.(dWg) - 1) d.(dConn) d.(dClosing) d.(dSent))
  | _ => Disabled
  end.

(** [UDPTransport.Close] *)
Definition txClose (conn : option bool) : option bool :=
  match conn with Some _ => Some false | None => None end.

(** The three parts of [Node.Close]: close the channel, and after [wg.Wait] the
    store and the socket.  Closing the channel again panics. *)
Definition closeStop (d : Daemon) : outcome Daemon :=
  if decide (d.(dClosing) = NotClosing)
  then Done (mkDaemon d.(dNode) d.(dMain) d.(dLoops) d.(dWg) d.(dConn) StopClosed d.(dSent))
  else Panicked.

Definition closeStore (d : Daemon) : outcome Daemon :=
  if decide (d.(dClosing) = StopClosed ∧ d.(dWg) = 0)
  then Done (mkDaemon (set_store (storeClose d.(dNode).(store)) d.(dNode)) d.(dMain) d.(dLoops) d.(dWg)
               d.(dConn) StoreClosed d.(dSent))
  else Disabled.

Definition closeTx (d : Daemon) : outcome Daemon :=
  if decide (d.(dClosing) = StoreClosed)
  then Done (mkDaemon d.(dNode) d.(dMain) d.(dLoops) d.(dWg) (txClose d.(dConn)) TxClosed d.(dSent))
  else Disabled.

Definition daemonStep (d : Daemon) (l : dlabel) : outcome Daemon :=
  (match d.(dMain), l with
   | AtListen, DListen ok =>
     if ok : bool
     then Done (mkDaemon d.(dNode) AtStart d.(dLoops) d.(dWg) (Some true) d.(dClosing) d.(dSent))
     else Done (set_main Exited d)
   | AtStart, DStart =>
     Done (mkDaemon d.(dNode) AtServe (d.(dLoops) ++ [(gossipLoop, Begun); (antiEntropyLoop, Begun)])
             (d.(dWg) + 2) d.(dConn) d.(dClosing) d.(dSent))
   | AtServe, DServe err =>
     if decide (d.(dNode).(cfg).(cMetricsAddr) = "") then Done (set_main Exited d)
     else if err : bool then Done (set_main Exited d) else Disabled
   | AtServe, DHttp o id body ttl =>
     if decide (d.(dNode).(cfg).(cMetricsAddr) = "") then Disabled
     else Done (sendOut (httpInject o id body ttl d.(dNode)) [] d)
   | (AtStart | AtServe), DRecv m remote o =>
     if decide (d.(dConn) = Some true) then
       '(n, out) <~ Handle o m remote d.(dNode); Done (sendOut n out d)
     else Disabled
   | AtServe, DLoopBegin k => loopBegin k d
   | AtServe, DLoopTick k o => loopTick k o d
   | AtServe, DLoopStop k => loopStop k d
   | AtServe, DClose => closeStop d
   | AtServe, DCloseStore => closeStore d
   | AtServe, DCloseTx => closeTx d
   | _, _ => Disabled
   end)%outcome.

Definition daemonSteps : Daemon → Daemon → Prop := rtc (λ d d', ∃ l, daemonStep d l = Done d').

(** ** The log file once it is closed *)

(** No record can be written any more. *)
Definition shut (s : Store) : Prop := ∀ f, s.(logf) = Some f → f.(fOpen) = false.

Lemma storeClose_shut s : shut (storeClose s).
Proof. intros f. unfold storeClose. simpl. by destruct (logf s); intros [= <-]. Qed.

Lemma writeLog_shut clock ev r s : shut s → writeLog clock ev r s = s.
Proof. intros Hs. unfold writeLog. destruct (logf s) as [f|] eqn:E; [|done]. by rewrite (Hs f E). Qed.

Lemma Add_logf clock r s : shut s → (Add clock r s).1.(logf) = s.(logf).
Proof. intros Hs. unfold Add. destruct (seen s !! rID r); [done|]. simpl. by rewrite writeLog_shut. Qed.

Lemma httpInject_logf o id body ttl n :
  shut n.(store) → (httpInject o id body ttl n).(store).(logf) = n.(store).(logf).
Proof.
  intros Hs. unfold httpInject. assert (store (injectArgs id body ttl n).2 = store n) as Hn
    by (unfold injectArgs; by case_decide).
  destruct (injectArgs id body ttl n) as [[[id' body'] ttl'] n']. simpl in *. subst.
  unfold Inject. simpl. rewrite Hn, writeLog_shut by done. by apply Add_logf.
Qed.

Lemma adds_logf clock (f : Rumor → Rumor) rs s :
  shut s →
  (foldl (λ s r, if decide (r.(rTTL) ≤ 0) then s else (Add clock (f r) s).1) s rs).(logf) = s.(logf).
Proof.
  revert s. induction rs as [|r rs IH]; intros s Hs; simpl; [done|]. case_decide; [by apply IH|].
  rewrite IH; [by apply Add_logf|]. intros g. rewrite Add_logf by done. apply Hs.
Qed.

Lemma Handle_logf o m remote n n' out :
  shut n.(store) → Handle o m remote n = Done (n', out) → n'.(store).(logf) = n.(store).(logf).
Proof.
  intros Hs. unfold Handle. rewrite writeLog_shut by done. replace (set_store (store n) n) with n by (by destruct n).
  destruct (mType m).
  - intros [= <- <-]. unfold handlePush. simpl.
    by apply (adds_logf _ (λ r, mkRumor (rID r) (rTTL r - 1) (rBody r) (rOrigin r) (rInjectTS r))).
  - by intros [-> _]%handleDigest_spec.
  - intros [= H]. by apply handleMissing_spec in H as [-> _].
  - intros [= <- <-]. unfold handleFetchRep. simpl. by apply (adds_logf _ id).
Qed.

(** ** The invariant *)

Definition closed (x : closing) : bool :=
  match x with StoreClosed | TxClosed => true | _ => false end.

Record daemon_ok (c : Config) (d : Daemon) : Prop := {
  do_cfg : d.(dNode).(cfg) = c;
  do_wg : d.(dWg) = len d.(dLoops);
  do_early : d.(dMain) = AtListen ∨ d.(dMain) = AtStart → d.(dClosing) = NotClosing ∧ d.(dLoops) = [];
  do_closed : closed d.(dClosing) = true → d.(dLoops) = [] ∧ shut d.(dNode).(store);
  do_tx : d.(dClosing) = TxClosed → d.(dConn) ≠ Some true
}.

Lemma daemonInit_ok c created : daemon_ok c (daemonInit c created).
Proof. by split. Qed.

(** A handler of the node keeps it, if it does not touch a closed log. *)
Lemma sendOut_ok c d n out :
  daemon_ok c d → n.(cfg) = d.(dNode).(cfg) →
  (closed d.(dClosing) = true → n.(store).(logf) = d.(dNode).(store).(logf)) → daemon_ok c (sendOut n out d).
Proof.
  intros [Hc Hw He Hcl Ht] Hn Hno. split; simpl; [congruence|done|done| |done].
  intros Hclo. destruct (Hcl Hclo) as [? Hsh]. split; [done|]. intros f. rewrite Hno by done. by apply Hsh.
Qed.

Lemma tickOnce_cfg o n n' out : tickOnce o n = Done (n', out) → n'.(cfg) = n.(cfg).
Proof. intros H. by apply (tickOnce_spec _ _ _ _ (λ _, False)) in H as [[? _ _] _]. Qed.

Lemma sendDigest_cfg o n n' out : sendDigest o n = Done (n', out) → n'.(cfg) = n.(cfg).
Proof. by intros [-> _]%sendDigest_spec. Qed.

Lemma Handle_cfg o m remote n n' out : Handle o m remote n = Done (n', out) → n'.(cfg) = n.(cfg).
Proof. intros [P [? _ _]]%Handle_grows. done. Qed.

(** While a loop runs the store is open. *)
Lemma loop_open c d k x : daemon_ok c d → d.(dLoops) !! k = Some x → closed d.(dClosing) = false.
Proof.
  intros Hd Hk. destruct (closed (dClosing d)) eqn:E; [|done]. destruct (do_closed _ _ Hd E) as [H _].
  by rewrite H in Hk.
Qed.

Lemma len_delete {A} (l : list A) k x : l !! k = Some x → len (delete k l) = len l - 1.
Proof. intros Hk. unfold len. pose proof (lookup_lt_Some _ _ _ Hk). rewrite (length_delete l k); [lia|eauto]. Qed.

Lemma loops_ok c d k d' :
  daemon_ok c d → d.(dMain) = AtServe →
  loopBegin k d = Done d' ∨ (∃ o, loopTick k o d = Done d') ∨ loopStop k d = Done d' → daemon_ok c d'.
Proof.
  intros Hd Hm. unfold loopBegin, loopTick, loopStop.
  destruct (dLoops d !! k) as [[lp p]|] eqn:Hk; [|naive_solver].
  pose proof (loop_open _ _ _ _ Hd Hk) as Ho. intros [Hs|[[o Hs]|Hs]].
  - destruct p; [|done]. case_decide; [done|]. injection Hs as <-. destruct Hd as [Hc Hw He Hcl Ht].
    split; simpl; [done|by autorewrite with slices|by rewrite Hm; intros []|congruence|done].
  - destruct lp, p; try done.
    + destruct (tickOnce o (dNode d)) as [[n out]| |] eqn:E; simplify_eq/=.
      apply sendOut_ok; [done|by eapply tickOnce_cfg|congruence].
    + destruct (sendDigest o (dNode d)) as [[n out]| |] eqn:E; simplify_eq/=.
      apply sendOut_ok; [done|by eapply sendDigest_cfg|congruence].
  - destruct p; [done|]. case_decide; [done|]. case_decide; [done|]. injection Hs as <-.
    destruct Hd as [Hc Hw He Hcl Ht].
    split; simpl; [done|rewrite (len_delete _ _ _ Hk); lia|by rewrite Hm; intros []|congruence|done].
Qed.

Lemma daemonStep_ok c d l d' : daemon_ok c d → daemonStep d l = Done d' → daemon_ok c d'.
Proof.
  intros Hd Hs. pose proof Hd as [Hc Hw He Hcl Ht]. unfold daemonStep in Hs.
  destruct (dMain d) eqn:Hm, l as [ok| |err|o id body ttl|m remote o|k|k o|k| | |]; try done.
  - destruct ok; injection Hs as <-; [|by split; simpl; naive_solver]. destruct He as [Hn Hl]; [by left|].
    split; simpl; [done|done|done|by rewrite Hn|by rewrite Hn].
  - injection Hs as <-. destruct He as [Hn Hl]; [by right|].
    split; simpl; [done|autorewrite with slices; lia|naive_solver|by rewrite Hn|by rewrite Hn].
  - case_decide; [|done]. destruct (Handle _ _ _ _) as [[n out]| |] eqn:E; simplify_eq/=.
    apply sendOut_ok; [done|by eapply Handle_cfg|]. intros Hclo. destruct (Hcl Hclo). by eapply Handle_logf.
  - assert (d' = set_main Exited d) as -> by (by repeat case_match; simplify_eq).
    split; simpl; naive_solver.
  - case_decide; [done|]. injection Hs as <-.
    apply sendOut_ok; [done|apply grows_httpInject|]. intros Hclo. destruct (Hcl Hclo). by apply httpInject_logf.
  - case_decide as Hconn; [|done]. destruct (Handle _ _ _ _) as [[n out]| |] eqn:E; simplify_eq/=.
    apply sendOut_ok; [done|by eapply Handle_cfg|]. intros Hclo. destruct (Hcl Hclo). by eapply Handle_logf.
  - eapply loops_ok; [done|done|by left].
  - eapply loops_ok; [done|done|right; left; by eexists].
  - eapply loops_ok; [done|done|by right; right].
  - unfold closeStop in Hs. case_decide; [|done]. injection Hs as <-.
    split; simpl; [done|done|by rewrite Hm; intros []|done|done].
  - unfold closeStore in Hs. case_decide as Hcs; [|done]. injection Hs as <-. destruct Hcs as [_ Hw0].
    split; simpl; [done|done|by rewrite Hm; intros []| |done].
    intros _. split; [|apply storeClose_shut]. rewrite Hw in Hw0. by destruct (dLoops d); [|unfold len in Hw0; simpl in Hw0; lia].
  - unfold closeTx in Hs. case_decide as Hcs; [|done]. injection Hs as <-. rewrite Hcs in Hcl.
    split; simpl; [done|done|by rewrite Hm; intros []|by intros _; apply Hcl|by destruct (dConn d)].
Qed.

Lemma daemonSteps_ok c d d' : daemonSteps d d' → daemon_ok c d → daemon_ok c d'.
Proof. induction 1 as [|d1 d2 d3 [l Hl] _ IH]; [done|]. intros Hd. apply IH. by eapply daemonStep_ok. Qed.

Lemma reachable_daemon c created d : daemonSteps (daemonInit c created) d → daemon_ok c d.
Proof. intros H. eapply daemonSteps_ok; [done|apply daemonInit_ok]. Qed.

(** ** Close *)

(** The loops stop one after the other. *)
Lemma loops_stop c d :
  0 < c.(cPeriod) → daemon_ok c d → d.(dMain) = AtServe → d.(dClosing) = StopClosed →
  ∃ d', daemonSteps d d' ∧ d'.(dMain) = AtServe ∧ d'.(dClosing) = StopClosed ∧ d'.(dLoops) = [].
Proof.
  intros Hp. remember (length (dLoops d)) as m eqn:Hm. revert d Hm. induction m as [|m IH]; intros d Hm Hd Hma Hcl.
  { exists d. split_and!; [apply rtc_refl|done|done|]. by destruct (dLoops d). }
  assert (∃ d1 lp rest, daemonSteps d d1 ∧ daemon_ok c d1 ∧ d1.(dMain) = AtServe ∧ d1.(dClosing) = StopClosed ∧
    d1.(dLoops) = (lp, Ticking) :: rest ∧ length rest = m) as (d1 & lp & rest & Hs1 & Hd1 & Hma1 & Hcl1 & Hl1 & Hr).
  { destruct (dLoops d) as [|[lp []] rest] eqn:Hl; simplify_eq/=; [|by exists d, lp, rest; split_and!; [apply rtc_refl|..]].
    assert (∃ d1, loopBegin 0 d = Done d1 ∧ d1.(dMain) = AtServe ∧ d1.(dClosing) = StopClosed ∧
      d1.(dLoops) = (lp, Ticking) :: rest) as (d1 & Hb & ? & ? & ?).
    { unfold loopBegin. rewrite Hl. simpl. rewrite decide_False; [by eexists|].
      destruct lp; [rewrite (do_cfg _ _ Hd)|]; lia. }
    assert (daemonStep d (DLoopBegin 0) = Done d1) as Hst by (unfold daemonStep; by rewrite Hma).
    exists d1, lp, rest. split_and!; [by eapply rtc_once; exists (DLoopBegin 0)|by eapply daemonStep_ok|done..]. }
  assert (∃ d2, loopStop 0 d1 = Done d2 ∧ d2.(dMain) = AtServe ∧ d2.(dClosing) = StopClosed ∧ d2.(dLoops) = rest)
    as (d2 & Hst & Hma2 & Hcl2 & Hl2).
  { unfold loopStop. rewrite Hl1. simpl. rewrite decide_False by congruence. rewrite decide_False; [by eexists|].
    rewrite (do_wg _ _ Hd1), Hl1. unfold len. simpl. lia. }
  assert (daemonStep d1 (DLoopStop 0) = Done d2) as Hst2 by (unfold daemonStep; by rewrite Hma1).
  destruct (IH d2) as (d3 & Hs3 & ?); [congruence|by eapply daemonStep_ok|done|done|].
  exists d3. split; [|done]. etrans; [exact Hs1|]. eapply rtc_l; [by exists (DLoopStop 0)|done].
Qed.

(** Once the socket is closed only the HTTP server is left, and what it injects
    goes nowhere. *)
Lemma closed_quiet c d l d' :
  daemon_ok c d → d.(dClosing) = TxClosed → daemonStep d l = Done d' →
  d'.(dClosing) = TxClosed ∧ d'.(dSent) = d.(dSent) ∧ d'.(dNode).(store).(logf) = d.(dNode).(store).(logf).
Proof.
  intros [Hc Hw He Hcl Ht] Htx Hs. destruct Hcl as [Hl Hsh]; [by rewrite Htx|]. specialize (Ht Htx).
  unfold daemonStep, loopBegin, loopTick, loopStop, closeStop, closeStore, closeTx in Hs. rewrite Htx, Hl in Hs.
  destruct (dMain d) eqn:Hm, l as [ok| |err|o id body ttl|m remote o|k|k o|k| | |]; try done.
  - destruct He; [by left|congruence].
  - destruct He; [by right|congruence].
  - by case_decide.
  - assert (d' = set_main Exited d) as -> by (by repeat case_match; simplify_eq). done.
  - case_decide; [done|]. injection Hs as <-. simpl. split_and!; [done| |by apply httpInject_logf].
    destruct (dConn d) as [[]|]; [|done..]. by rewrite app_nil_r.
  - by case_decide.
Qed.

(** With a positive period and a fanout that is not negative, only a second
    [Close] panics. *)
Lemma daemon_panics c d l :
  0 < c.(cPeriod) → 0 ≤ c.(cFanout) → daemon_ok c d → daemonStep d l = Panicked →
  l = DClose ∧ d.(dClosing) ≠ NotClosing.
Proof.
  intros Hp Hf [Hc Hw He Hcl Ht] Hs.
  unfold daemonStep, loopBegin, loopTick, loopStop, closeStop, closeStore, closeTx in Hs. rewrite Hc in Hs.
  pose proof (len_nonneg (dLoops d)).
  destruct (dMain d), l as [[]| |[]|o id body ttl|m remote o|k|k o|k| | |]; try done; try by case_decide.
  1, 2: case_decide; [|done]; pose proof (Handle_panics o m remote (dNode d)); by destruct (Handle _ _ _ _) as [[]| |].
  - destruct (dLoops d !! k) as [[[] []]|]; try done; case_decide; (done || lia).
  - destruct (dLoops d !! k) as [[[] []]|]; try done.
    + pose proof (tickOnce_panics o (dNode d)) as Hno. rewrite Hc in Hno. specialize (Hno Hf).
      by destruct (tickOnce _ _) as [[]| |].
    + pose proof (sendDigest_panics o (dNode d)). by destruct (sendDigest _ _) as [[]| |].
  - destruct (dLoops d !! k) as [[lp []]|] eqn:Hk; try done. case_decide; [done|]. case_decide; [|done].
    apply lookup_lt_Some in Hk. unfold len in *. lia.
Qed.

(** Without a metrics address [ServeHTTP] returns at once, and with it [main]:
    nothing keeps the process running. *)
Lemma no_metrics_exits d :
  d.(dMain) = AtServe → d.(dNode).(cfg).(cMetricsAddr) = "" →
  daemonStep d (DServe false) = Done (set_main Exited d) ∧ ∀ l, daemonStep (set_main Exited d) l = Disabled.
Proof.
  intros Hm Ha. split; [|by intros []]. unfold daemonStep. by rewrite Hm, decide_True.
Qed.

(** ** Theorem *)

(** C30. [Close] returns and stops the node: in every execution of a daemon
    with a positive period, once [Close] has been called and while the process
    runs, it can always return, the loops ending one by one; and after it has
    returned no loop runs, nothing is sent and nothing is logged any more. *)
Theorem daemon_closes c created d :
  0 < c.(cPeriod) → daemonSteps (daemonInit c created) d →
  (d.(dMain) = AtServe → d.(dClosing) ≠ NotClosing → ∃ d', daemonSteps d d' ∧ d'.(dClosing) = TxClosed) ∧
  (d.(dClosing) = TxClosed → d.(dLoops) = [] ∧
     ∀ d', daemonSteps d d' → d'.(dSent) = d.(dSent) ∧ d'.(dNode).(store).(logf) = d.(dNode).(store).(logf)).
Proof.
  intros Hp Hd%reachable_daemon. split.
  - assert (∀ d, daemon_ok c d → dMain d = AtServe → dClosing d = StoreClosed → ∃ d', daemonSteps d d' ∧ dClosing d' = TxClosed) as Htx.
    { intros d0 _ Hm Hcl. eexists. split; [apply rtc_once; exists DCloseTx|].
      - unfold daemonStep, closeTx. rewrite Hm, decide_True by done. done.
      - done. }
    intros Hm Hcl. destruct (dClosing d) eqn:E; [done| |by apply Htx|by exists d; split; [apply rtc_refl|]].
    destruct (loops_stop c d) as (d1 & Hs1 & Hm1 & Hcl1 & Hl1); [done..|].
    pose proof (daemonSteps_ok c _ _ Hs1 Hd) as Hd1.
    assert (∃ d2, daemonStep d1 DCloseStore = Done d2 ∧ dMain d2 = AtServe ∧ dClosing d2 = StoreClosed) as (d2 & Hs2 & Hm2 & Hcl2).
    { unfold daemonStep, closeStore. rewrite Hm1, decide_True; [by eexists|]. split; [done|]. by rewrite (do_wg _ _ Hd1), Hl1. }
    destruct (Htx d2) as (d3 & Hs3 & ?); [by eapply daemonStep_ok|done|done|].
    exists d3. split; [|done]. etrans; [exact Hs1|]. eapply rtc_l; [by exists DCloseStore|done].
  - intros Htx. split; [apply (do_closed _ _ Hd); by rewrite Htx|]. intros d' Hs. revert Hd Htx.
    induction Hs as [|d1 d2 d3 [l Hl] _ IH]; [done|]. intros Hd Htx.
    destruct (closed_quiet _ _ _ _ Hd Htx Hl) as (Htx2 & <- & <-). apply IH; [by eapply daemonStep_ok|done].
Qed.
