(* ===== verification/GossipFlood.v ===== *)
(** * Reaching the whole network

    A schedule of steps of the network, in rounds: in a round every node ticks
    once, in some order, and every packet sent by these ticks is then delivered
    once, in some order.  The program has no rounds: its nodes tick by their own
    timers, and a datagram may be lost; the rounds are one run of [gstep] among
    many, chosen to state how far a rumor gets.
    With a fanout that covers all seeds, a rumor spreads by one hop per round
    until its TTL is used up, so after [k] rounds it is known exactly at the
    nodes within [k] hops of where it was injected. *)
From S2P Require Import Prelude GoStrings GossipStore GossipNode GossipNet.

(** Run a list of labels. *)
Fixpoint grun (w : gworld) (ls : list glabel) : outcome gworld :=
  match ls with
  | [] => Done w
  | l :: ls => (w <~ gstep w l; grun w ls)%outcome
  end.

(** How a round is scheduled. *)
Record schedule := mkSchedule {
  scOracle : Oracle; scOrder : list string; scShuffle : list nat → list nat
}.

Definition gossipRound (sc : schedule) (w : gworld) : outcome gworld :=
  (w1 <~ grun w ((λ a, GTick a sc.(scOracle)) <$> sc.(scOrder));
   let new := seq (length w.(packets)) (length w1.(packets) - length w.(packets)) in
   grun w1 ((λ k, GDeliver k sc.(scOracle)) <$> sc.(scShuffle) new))%outcome.

Fixpoint gossipRounds (scs : list schedule) (w : gworld) : outcome gworld :=
  match scs with
  | [] => Done w
  | sc :: scs => (w <~ gossipRound sc w; gossipRounds scs w)%outcome
  end.

Section flood.
Context (topo : gmap string (Config * bool)) (id : string).
Implicit Types (w : gworld).

(** Every node ticks once and every packet of the round is delivered once. *)
Definition fair (sc : schedule) : Prop :=
  sc.(scOrder) ≡ₚ elements (dom topo) ∧ ∀ l, sc.(scShuffle) l ≡ₚ l.

(** ** One node *)

(** What [s'] has learned about [id], from rumors in [C], since [s]. *)
Record learns (C : Rumor → Prop) (s s' : Store) : Prop := {
  ln_ok : store_ok s → store_ok s';
  ln_old : ∀ r, s.(seen) !! id = Some r →
    s'.(seen) !! id = Some r ∧ (id ∈ s'.(newIDs) ↔ id ∈ s.(newIDs));
  ln_known : ∀ r0, C r0 → r0.(rID) = id → 0 < r0.(rTTL) → is_Some (s'.(seen) !! id);
  ln_new : ∀ r, s.(seen) !! id = None → s'.(seen) !! id = Some r →
    id ∈ s'.(newIDs) ∧ ∃ r0, C r0 ∧ r0.(rID) = id ∧ 0 < r0.(rTTL) ∧ r = hop r0
}.

Lemma learns_same s s' :
  s'.(seen) = s.(seen) → s'.(newIDs) = s.(newIDs) → learns (λ _, False) s s'.
Proof.
  intros Hs Hn. split; [by apply store_ok_ext| |done|]; rewrite Hs, ?Hn; [done|congruence].
Qed.

Lemma learns_refl s : learns (λ _, False) s s.
Proof. by apply learns_same. Qed.

Lemma learns_trans C1 C2 s1 s2 s3 :
  learns C1 s1 s2 → learns C2 s2 s3 → learns (λ r, C1 r ∨ C2 r) s1 s3.
Proof.
  intros [O1 A1 K1 N1] [O2 A2 K2 N2]. split; [auto|..].
  - intros r Hr. destruct (A1 r Hr) as [H2 <-]. by apply A2.
  - intros r0 [H|H] Hid Ht; [|by eapply K2].
    destruct (K1 r0 H Hid Ht) as [r Hr]. destruct (A2 r Hr). by eexists.
  - intros r H1 H3. destruct (decide (is_Some (seen s2 !! id))) as [[r2 H2]|H2%eq_None_not_Some].
    + destruct (A2 r2 H2) as [H3' Hin]. destruct (N1 r2 H1 H2) as [Hn Hex].
      rewrite Hin. split; [done|]. naive_solver congruence.
    + destruct (N2 r H2 H3) as [? Hex]. split; [done|naive_solver].
Qed.

Lemma learns_ext (C C' : Rumor → Prop) s s' :
  learns C s s' → (∀ r, C r ↔ C' r) → learns C' s s'.
Proof.
  intros [O A K N] HC. split; [auto..| |].
  - intros r0 H. apply K. by apply HC.
  - intros r H1 H2. destruct (N r H1 H2) as (? & r0 & ? & ?). split; [done|]. exists r0. by rewrite <- HC.
Qed.

Lemma learns_writeLog clock ev r s : learns (λ _, False) s (writeLog clock ev r s).
Proof. apply learns_same; by autorewrite with store. Qed.

(** One turn of the push loop of [Handle]. *)
Definition pushOne (clock : nat → Z) (s : Store) (r : Rumor) : Store :=
  if decide (r.(rTTL) ≤ 0) then s else (Add clock (hop r) s).1.

Lemma learns_pushOne clock s r : learns (λ r', r' = r) s (pushOne clock s r).
Proof.
  unfold pushOne. case_decide as Ht.
  { split; try done; [|naive_solver congruence]. intros ? -> ??. lia. }
  destruct (decide (rID r = id)) as [Hid|Hid].
  - split; [apply Add_ok|rewrite Add_seen, ?Add_newIDs; change (rID (hop r)) with (rID r); rewrite ?Hid..].
    + intros r' Hr'. by rewrite Hr'.
    + intros r0 -> _ _. destruct (seen s !! id) as [r1|] eqn:E; [by rewrite E|]. by rewrite lookup_insert_eq.
    + intros r' Hn. rewrite Hn, lookup_insert_eq. intros [= <-]. split; [set_solver|].
      exists r. split_and!; [done..|lia|done].
  - split; [apply Add_ok|rewrite Add_seen, ?Add_newIDs; change (rID (hop r)) with (rID r)..].
    + intros r' Hr'. destruct (seen s !! rID r); [done|]. rewrite lookup_insert_ne by done. set_solver.
    + intros r0 -> ? _. done.
    + intros r' Hn. destruct (seen s !! rID r); [congruence|]. rewrite lookup_insert_ne by done. congruence.
Qed.

Lemma learns_push clock rs s :
  learns (λ r, r ∈ rs) s (foldl (pushOne clock) s rs).
Proof.
  revert s. induction rs as [|r rs IH]; intros s; simpl.
  - eapply learns_ext; [apply learns_refl|]. intros r. by rewrite elem_of_nil.
  - eapply learns_ext; [eapply learns_trans; [apply learns_pushOne|apply IH]|].
    intros r'. by rewrite elem_of_cons.
Qed.

(** ** A node as the topology has it *)
Record fits (a : string) (n : Node) : Prop := {
  ft_topo : ∃ created, topo !! a = Some (n.(cfg), created);
  ft_peers : n.(gpeers) = n.(cfg).(cSeeds);
  ft_store : store_ok n.(store);
  ft_ids : ∀ i, is_Some (n.(store).(seen) !! i) → validUTF8 i
}.

(** The messages of a tick when the fanout covers all peers. *)
Lemma tickOnce_full o n :
  len n.(gpeers) ≤ n.(cfg).(cFanout) →
  ∃ n' out, tickOnce o n = Done (n', out) ∧ n'.(cfg) = n.(cfg) ∧ n'.(gpeers) = n.(gpeers) ∧
    n'.(store).(seen) = n.(store).(seen) ∧ n'.(store).(newIDs) = [] ∧
    out = match pending n.(store) with
          | [] => []
          | rs => (λ p, (p, mkMsg MsgPush n.(cfg).(cID) rs [])) <$> n.(gpeers)
          end.
Proof.
  intros Hf. unfold tickOnce, pending. pose proof (ReadyToPush_seen (store n)) as Hs.
  pose proof (ReadyToPush_newIDs (store n)) as Hn.
  destruct (ReadyToPush (store n)) as [s [|r rs]]; simpl in *.
  { do 2 eexists. by split_and!. }
  assert (pickPeers o (cFanout (cfg n)) (set_store s n) = Done (gpeers n)) as ->.
  { unfold pickPeers. simpl. case_decide as H0; [|by rewrite decide_True by lia].
    unfold len in H0. by destruct (gpeers n). }
  simpl. match goal with |- context [sendAll o ?m ?d ?ps s] =>
    pose proof (sendAll_spec o m d ps s) as (H1 & H2 & H3); destruct (sendAll o m d ps s) as [s' out] end.
  simpl in *. do 2 eexists. split; [done|]. simpl. split_and!; congruence.
Qed.

Context (Hfan : ∀ a c created, topo !! a = Some (c, created) → len c.(cSeeds) ≤ c.(cFanout)).
Context (Hclosed : ∀ a b, edge topo a b → is_Some (topo !! b)).

Definition good w : Prop :=
  (∀ a, is_Some (w.(gnodes) !! a) ↔ is_Some (topo !! a)) ∧
  ∀ a n, w.(gnodes) !! a = Some n → fits a n.

Lemma good_insert w a n w' :
  good w → is_Some (w.(gnodes) !! a) → fits a n → w'.(gnodes) = <[a := n]> w.(gnodes) → good w'.
Proof.
  intros [Hd Hn] Ha Hf E. split; intros b; rewrite E.
  - rewrite <- Hd, lookup_insert_is_Some. split; [intros [->|[_ ?]]; done|].
    intros ?. destruct (decide (a = b)); auto.
  - intros m. rewrite lookup_insert_Some. intros [[<- <-]|[_ ?]]; auto.
Qed.

(** *** The ticks of a round *)

(** A packet of a tick at [w]: it carries rumors its sender had to push. *)
Definition sentAt w (p : packet) : Prop :=
  p.(pkMsg).(mType) = MsgPush ∧ edge topo p.(pkSrc) p.(pkDst) ∧
  ∀ r, r ∈ p.(pkMsg).(mRumors) → ∃ n r0, w.(gnodes) !! p.(pkSrc) = Some n ∧ r = wireRumor r0 ∧
    r0.(rID) ∈ n.(store).(newIDs) ∧ n.(store).(seen) !! r0.(rID) = Some r0.

Record ticked w (order : list string) w' (new : list packet) : Prop := {
  tk_good : good w';
  tk_packets : w'.(packets) = w.(packets) ++ new;
  tk_nodes : ∀ a n, w.(gnodes) !! a = Some n → ∃ n', w'.(gnodes) !! a = Some n' ∧
    n'.(store).(seen) = n.(store).(seen) ∧
    n'.(store).(newIDs) = (if decide (a ∈ order) then [] else n.(store).(newIDs));
  tk_sound : Forall (sentAt w) new;
  tk_complete : ∀ a n b r, a ∈ order → w.(gnodes) !! a = Some n → edge topo a b →
    id ∈ n.(store).(newIDs) → n.(store).(seen) !! id = Some r →
    ∃ p, p ∈ new ∧ p.(pkDst) = b ∧ wireRumor r ∈ p.(pkMsg).(mRumors)
}.

(** A rumor keeps its identifier in transit, where identifiers are valid. *)
Lemma wire_id w a n i r :
  good w → w.(gnodes) !! a = Some n → n.(store).(seen) !! i = Some r → (wireRumor r).(rID) = i.
Proof.
  intros [_ Hn] Ha Hr. destruct (Hn a n Ha) as [_ _ Hok Hids]. simpl.
  rewrite (so_key _ Hok i r Hr). apply Hids. by eexists.
Qed.

Lemma pending_elem s r :
  store_ok s → r ∈ pending s ↔ r.(rID) ∈ s.(newIDs) ∧ s.(seen) !! r.(rID) = Some r.
Proof.
  intros Hok. unfold pending. rewrite ReadyToPush_out, list_elem_of_fmap. split.
  - intros (i & -> & Hi). destruct (so_new _ Hok i Hi) as [r' Hr]. rewrite Hr. simpl.
    by rewrite (so_key _ Hok i r' Hr).
  - intros [Hin Hr]. exists (rID r). by rewrite Hr.
Qed.

Lemma tick_ticked o a w :
  good w → is_Some (topo !! a) → ∃ w' new, gstep w (GTick a o) = Done w' ∧ ticked w [a] w' new.
Proof.
  intros Hw Ht. pose proof Hw as [Hd Hn]. destruct (proj2 (Hd a) Ht) as [n Ha].
  destruct (Hn a n Ha) as [[created Hta] Hps Hok Hids]. cbn [gstep]. rewrite Ha. simpl.
  destruct (tickOnce_full o n) as (n' & out & -> & Hc & Hp & Hs & Hnew & Hout).
  { rewrite Hps. by eapply Hfan. }
  do 2 eexists. split; [done|]. split.
  - apply (good_insert w a n'); [done|by eexists| |done]. split.
    + rewrite Hc. by exists created.
    + by rewrite Hp, Hc.
    + destruct Hok. split; rewrite ?Hs, ?Hnew; [done|by intros ? ?%elem_of_nil|constructor].
    + by rewrite Hs.
  - done.
  - intros b m Hb. simpl. destruct (decide (b = a)) as [->|Hne].
    + rewrite lookup_insert_eq. simplify_eq. exists n'. rewrite decide_True by set_solver. done.
    + rewrite lookup_insert_ne by done. exists m. by rewrite decide_False by set_solver.
  - apply Forall_fmap, Forall_forall. intros [p m] Hin. simpl. rewrite Hout in Hin.
    destruct (pending (store n)) as [|r0 rs] eqn:Hpe; [by apply elem_of_nil in Hin|].
    apply list_elem_of_fmap in Hin as (q & [= -> ->] & Hq). split_and!; [done| |].
    + exists (cfg n), created. by rewrite <- Hps.
    + cbn [send pkMsg pkSrc wire mRumors fst snd]. intros r (r1 & -> & Hr)%list_elem_of_fmap.
      rewrite <- Hpe, pending_elem in Hr by done. eauto.
  - intros a' n1 b r Ha' Hn1 (c & cr & Hc' & Hb) Hid Hr. apply list_elem_of_singleton in Ha' as ->.
    rewrite Ha in Hn1. injection Hn1 as <-. rewrite Hta in Hc'. injection Hc' as <- <-. pose proof (so_key _ Hok _ _ Hr) as Hrid.
    assert (r ∈ pending (store n)) as Hpr by (rewrite pending_elem by done; by rewrite Hrid).
    destruct (pending (store n)) as [|r0 rs] eqn:Hpe; [by apply elem_of_nil in Hpr|].
    exists (send a (b, mkMsg MsgPush (cID (cfg n)) (r0 :: rs) [])). split_and!; [|done|].
    + rewrite Hout, <- list_fmap_compose. apply list_elem_of_fmap. exists b. split; [done|]. by rewrite Hps.
    + cbn [send pkMsg wire mRumors fst snd]. by apply list_elem_of_fmap_2.
Qed.

Lemma sentAt_before w1 w2 a new p :
  good w1 → ticked w1 [a] w2 new → sentAt w2 p → sentAt w1 p.
Proof.
  intros [Hd _] [[Hd2 _] _ N _ _] (Hty & He & Hr). split_and!; [done..|]. intros r Hin.
  destruct (Hr r Hin) as (n2 & r0 & Hn2 & -> & Hnew & Hseen).
  destruct (proj2 (Hd (pkSrc p))) as [n1 Hn1]; [apply Hd2; by eexists|].
  destruct (N _ _ Hn1) as (n2' & Hn2' & Hs & Hw). simplify_eq. exists n1, r0. rewrite <- Hs.
  rewrite Hw in Hnew. case_decide; [by apply elem_of_nil in Hnew|]. done.
Qed.

Lemma ticked_trans w1 w2 w3 a order new1 new2 :
  good w1 → a ∉ order → ticked w1 [a] w2 new1 → ticked w2 order w3 new2 →
  ticked w1 (a :: order) w3 (new1 ++ new2).
Proof.
  intros Hw1 Hnot T1 [G2 P2 N2 S2 C2]. pose proof T1 as [G1 P1 N1 S1 C1].
  split; [done|by rewrite P2, P1, app_assoc|..].
  - intros b n Hb. destruct (N1 b n Hb) as (n1 & Hb1 & Hs1 & Hn1).
    destruct (N2 b n1 Hb1) as (n2 & Hb2 & Hs2 & Hn2). exists n2. split_and!; [done|congruence|].
    rewrite Hn2, Hn1. repeat case_decide; set_solver.
  - apply Forall_app. split; [done|]. eapply Forall_impl; [done|]. intros p. by eapply sentAt_before.
  - intros b n q r Hb Hn He Hid Hr. rewrite elem_of_cons in Hb. destruct (decide (b = a)) as [->|Hne].
    + destruct (C1 a n q r) as (p & ? & ?); [set_solver|done..|]. exists p. set_solver.
    + destruct (N1 b n Hn) as (n1 & Hb1 & Hs1 & Hn1). rewrite decide_False in Hn1 by set_solver.
      destruct (C2 b n1 q r) as (p & ? & ?); [naive_solver|done|done|by rewrite Hn1|by rewrite Hs1|].
      exists p. set_solver.
Qed.

Lemma ticks_ticked o order w :
  good w → NoDup order → Forall (λ a, is_Some (topo !! a)) order →
  ∃ w' new, grun w ((λ a, GTick a o) <$> order) = Done w' ∧ ticked w order w' new.
Proof.
  intros Hw Hnd Hall. revert w Hw. induction Hnd as [|a order Hnot _ IH]; intros w Hw.
  - exists w, []. split; [done|]. split; [done|by rewrite app_nil_r| |constructor|].
    + intros a n Hn. exists n. by rewrite decide_False by set_solver.
    + intros ????. set_solver.
  - inversion_clear Hall as [|? ? Ha Ho].
    destruct (tick_ticked o a w Hw Ha) as (w1 & new1 & Hs & T1).
    rewrite fmap_cons. cbn [grun]. rewrite Hs. cbn [outcome_bind].
    destruct (IH Ho w1 (tk_good _ _ _ _ T1)) as (w2 & new2 & -> & T2).
    exists w2, (new1 ++ new2). split; [done|]. by eapply ticked_trans.
Qed.

(** *** The deliveries of a round *)

(** The rumors the packets at positions [ks] bring to [a]. *)
Definition brings (ps : list packet) (ks : list nat) (a : string) (r : Rumor) : Prop :=
  ∃ k p, k ∈ ks ∧ ps !! k = Some p ∧ p.(pkDst) = a ∧ r ∈ p.(pkMsg).(mRumors).

Definition delivered w (ks : list nat) w' : Prop :=
  good w' ∧ w'.(packets) = w.(packets) ∧
  ∀ a n, w.(gnodes) !! a = Some n → ∃ n', w'.(gnodes) !! a = Some n' ∧
    learns (brings w.(packets) ks a) n.(store) n'.(store).

(** A packet of a round, at its destination. *)
Definition arrives (p : packet) : Prop :=
  p.(pkMsg).(mType) = MsgPush ∧ is_Some (topo !! p.(pkDst)) ∧
  ∀ r, r ∈ p.(pkMsg).(mRumors) → validUTF8 r.(rID).

Lemma sentAt_arrives w p : sentAt w p → arrives p.
Proof.
  intros (? & He & Hr). split_and!; [done|by eapply Hclosed|].
  intros r (n & r0 & _ & -> & _)%Hr. apply toValid_valid.
Qed.

Lemma deliver_delivered o k p w :
  good w → w.(packets) !! k = Some p → arrives p →
  ∃ w', gstep w (GDeliver k o) = Done w' ∧ delivered w [k] w'.
Proof.
  intros Hw Hk (Hty & Ht & Hval). pose proof Hw as [Hd Hn]. destruct (proj2 (Hd (pkDst p)) Ht) as [n Ha].
  cbn [gstep]. rewrite Hk. simpl. rewrite Ha. simpl. unfold Handle. rewrite Hty. simpl.
  eexists. split; [done|].
  match goal with |- context [put _ (handlePush o ?m ?n0) _ _] => set (n' := handlePush o m n0) end.
  assert (learns (λ r, r ∈ mRumors (pkMsg p)) (store n) (store n')) as Hl.
  { eapply learns_ext; [eapply learns_trans; [apply learns_writeLog|apply learns_push]|].
    simpl. tauto. }
  split_and!.
  - apply (good_insert w (pkDst p) n'); [done|by eexists| |done]. destruct (Hn _ _ Ha) as [? ? Hok Hids].
    split; [done|done|by apply (ln_ok _ _ _ Hl)|]. intros i [r Hr].
    destruct (sg_new _ _ _ (gr_store _ _ _ (grows_handlePush _ _ _)) _ _ Hr) as [Hold|(r0 & Hr0 & _ & ->)].
    + simpl in Hold. rewrite writeLog_seen in Hold. apply Hids. by eexists.
    + rewrite <- (so_key _ (ln_ok _ _ _ Hl Hok) _ _ Hr). exact (Hval r0 Hr0).
  - simpl. by rewrite app_nil_r.
  - intros a m Hm. simpl. destruct (decide (a = pkDst p)) as [->|Hne].
    + rewrite lookup_insert_eq. simplify_eq. exists n'. split; [done|]. eapply learns_ext; [done|].
      intros r. split; [exists k, p; split_and!; set_solver|].
      intros (k' & p' & ->%list_elem_of_singleton & ? & _ & ?). by simplify_eq.
    + rewrite lookup_insert_ne by done. exists m. split; [done|].
      eapply learns_ext; [apply learns_refl|]. intros r. split; [done|].
      intros (k' & p' & ->%list_elem_of_singleton & ? & ? & _). by simplify_eq.
Qed.

Lemma delivers_delivered o ks w :
  good w →
  (∀ k, k ∈ ks → ∃ p, w.(packets) !! k = Some p ∧ arrives p) →
  ∃ w', grun w ((λ k, GDeliver k o) <$> ks) = Done w' ∧ delivered w ks w'.
Proof.
  revert w. induction ks as [|k ks IH]; intros w Hw Hks.
  - exists w. split; [done|]. split_and!; [done..|]. intros a n Ha. exists n. split; [done|].
    eapply learns_ext; [apply learns_refl|]. intros r. split; [done|]. intros (? & ? & ?%elem_of_nil & _). done.
  - destruct (Hks k) as (p & Hp & Harr); [set_solver|].
    destruct (deliver_delivered o k p w) as (w1 & Hs & G1 & P1 & N1); [done..|].
    rewrite fmap_cons. cbn [grun]. rewrite Hs. cbn [outcome_bind].
    destruct (IH w1 G1) as (w2 & -> & G2 & P2 & N2).
    { rewrite P1. intros k' Hk'. apply Hks. set_solver. }
    exists w2. split; [done|]. split_and!; [done|congruence|]. intros a n Ha.
    destruct (N1 a n Ha) as (n1 & Ha1 & L1). destruct (N2 a n1 Ha1) as (n2 & Ha2 & L2).
    exists n2. split; [done|]. eapply learns_ext; [by eapply learns_trans|].
    intros r. rewrite P1. unfold brings. set_solver.
Qed.

(** ** Rounds *)

(** After a round, for each node: what it knew it still knows and has nothing
    of it left to push, and it has learned what its neighbours had to push. *)
Lemma round_spec sc w :
  good w → fair sc →
  ∃ w', gossipRound sc w = Done w' ∧ good w' ∧
    ∀ a n, w.(gnodes) !! a = Some n → ∃ n', w'.(gnodes) !! a = Some n' ∧
      (∀ r, n.(store).(seen) !! id = Some r →
         n'.(store).(seen) !! id = Some r ∧ id ∉ n'.(store).(newIDs)) ∧
      (∀ b m r, edge topo b a → w.(gnodes) !! b = Some m → id ∈ m.(store).(newIDs) →
         m.(store).(seen) !! id = Some r → 0 < r.(rTTL) → is_Some (n'.(store).(seen) !! id)) ∧
      (∀ r, n.(store).(seen) !! id = None → n'.(store).(seen) !! id = Some r →
         id ∈ n'.(store).(newIDs) ∧ ∃ b m r0, edge topo b a ∧ w.(gnodes) !! b = Some m ∧
           id ∈ m.(store).(newIDs) ∧ m.(store).(seen) !! id = Some r0 ∧ r = hop (wireRumor r0)).
Proof.
  intros Hw [Hord Hshuf]. unfold gossipRound.
  assert (∀ a, a ∈ scOrder sc ↔ is_Some (topo !! a)) as Hin.
  { intros a. rewrite Hord, elem_of_elements. apply elem_of_dom. }
  destruct (ticks_ticked (scOracle sc) (scOrder sc) w) as (w1 & new & -> & [G1 P1 N1 S1 C1]);
    [done|by rewrite Hord; apply NoDup_elements|apply Forall_forall; naive_solver|].
  cbn [outcome_bind]. rewrite P1, length_app, Nat.add_comm, Nat.add_sub. set (ks := scShuffle sc _).
  assert (∀ k p, packets w1 !! k = Some p ∧ k ∈ ks ↔ (length (packets w) ≤ k)%nat ∧ new !! (k - length (packets w))%nat = Some p) as Hks.
  { intros k p. unfold ks. rewrite Hshuf, elem_of_seq, P1. split.
    - intros [Hl Hk]. rewrite lookup_app_r in Hl by lia. split; [lia|done].
    - intros [Hk Hl]. rewrite lookup_app_r by lia. apply lookup_lt_Some in Hl as ?. split; [done|lia]. }
  assert (∀ k p, packets w1 !! k = Some p → k ∈ ks → sentAt w p) as Hsent.
  { intros k p Hl Hk. destruct (proj1 (Hks k p)) as [_ Hnew]; [done|]. by eapply Forall_lookup_1 in S1. }
  destruct (delivers_delivered (scOracle sc) ks w1 G1) as (w2 & -> & G2 & _ & N2).
  { intros k Hk. destruct (packets w1 !! k) as [p|] eqn:Hl.
    - exists p. split; [done|]. by eapply sentAt_arrives, Hsent.
    - exfalso. unfold ks in Hk. rewrite Hshuf, elem_of_seq in Hk.
      apply lookup_ge_None in Hl. rewrite P1, length_app in Hl. lia. }
  exists w2. split_and!; [done..|]. intros a n Ha.
  destruct (N1 a n Ha) as (n1 & Ha1 & Hs1 & Hn1). destruct (N2 a n1 Ha1) as (n2 & Ha2 & [_ Hold Hknown Hnew]).
  rewrite decide_True in Hn1 by (apply Hin, (proj1 Hw); by eexists). rewrite Hs1 in *.
  exists n2. split_and!; [done|..].
  - intros r Hr. destruct (Hold r Hr) as [? ->]. split; [done|]. rewrite Hn1. apply not_elem_of_nil.
  - intros b m r He Hb Hid Hr Hpos.
    pose proof (wire_id w b m id r Hw Hb Hr) as Hrid.
    destruct (C1 b m a r) as (p & Hp & Hdst & Hrp); [apply Hin, (proj1 Hw); by eexists|done..|].
    apply list_elem_of_lookup in Hp as [i Hi].
    apply (Hknown (wireRumor r)); [|done..]. exists (length (packets w) + i)%nat, p.
    destruct (proj2 (Hks (length (packets w) + i)%nat p)); [|done].
    split; [lia|]. by replace (_ + i - _)%nat with i by lia.
  - intros r Hno Hr. destruct (Hnew r Hno Hr) as (? & r0 & (k & p & Hk & Hl & Hdst & Hr0) & Hid & _ & ->).
    split; [done|]. destruct (Hsent k p Hl Hk) as (_ & He & Hrs).
    destruct (Hrs r0 Hr0) as (m & r1 & Hm & -> & Hmn & Hms).
    rewrite (wire_id w _ m (rID r1) r1 Hw Hm Hms) in Hid. subst a. rewrite Hid in *. eauto 10.
Qed.

(** The state after [k] rounds: the rumor, injected at [b] with TTL [T], is
    known exactly within [k] hops; nodes with nothing left to push are nearer
    than [k] hops. *)
Record wave (b : string) (T : Z) (k : nat) w : Prop := {
  wv_good : good w;
  wv_known : ∀ a n, w.(gnodes) !! a = Some n →
    is_Some (n.(store).(seen) !! id) ↔ ∃ j, (j ≤ k)%nat ∧ nsteps (edge topo) j b a;
  wv_new : ∀ a n, w.(gnodes) !! a = Some n → id ∈ n.(store).(newIDs) →
    ∃ r, n.(store).(seen) !! id = Some r ∧ r.(rTTL) = T - Z.of_nat k;
  wv_done : ∀ a n, w.(gnodes) !! a = Some n → is_Some (n.(store).(seen) !! id) →
    id ∉ n.(store).(newIDs) → ∃ j, (j < k)%nat ∧ nsteps (edge topo) j b a
}.

Lemma good_node w a : good w → is_Some (topo !! a) → ∃ n, w.(gnodes) !! a = Some n.
Proof. intros [Hd _] Ha. by apply Hd. Qed.

(** Every node on a path from a node of the topology is one. *)
Lemma path_closed j b a : is_Some (topo !! b) → nsteps (edge topo) j b a → is_Some (topo !! a).
Proof. intros Hb. induction 1 as [|j x y z He _ IH]; [done|]. apply IH. by eapply Hclosed. Qed.

Lemma wave_round b T k sc w :
  is_Some (topo !! b) → Z.of_nat k < T → fair sc → wave b T k w →
  ∃ w', gossipRound sc w = Done w' ∧ wave b T (S k) w'.
Proof.
  intros Hb Hk Hsc [Hw Hkn Hnew Hdone].
  destruct (round_spec sc w Hw Hsc) as (w' & Hr & Hw' & Hn). exists w'. split; [done|].
  assert (∀ a n', gnodes w' !! a = Some n' → ∃ n, gnodes w !! a = Some n) as Hback.
  { intros a n' Ha. apply good_node; [done|]. apply Hw'. by eexists. }
  split; [done|..].
  - intros a n' Ha'. destruct (Hback a n' Ha') as [n Ha].
    destruct (Hn a n Ha) as (n1 & ? & Hold & Hedge & Hfresh). simplify_eq. split.
    + intros [r Hr']. destruct (seen (store n) !! id) as [r0|] eqn:E.
      * destruct (proj1 (Hkn a n Ha)) as (j & ? & ?); [by rewrite E|]. exists j. split; [lia|done].
      * destruct (Hfresh r eq_refl Hr') as (_ & c & m & r0 & He & Hc & Hcn & Hcs & _).
        destruct (proj1 (Hkn c m Hc)) as (j & ? & ?); [by eexists|].
        exists (S j). split; [lia|]. by eapply nsteps_r.
    + intros (j & Hj & Hp). destruct (decide (j ≤ k)%nat) as [Hjk|Hjk].
      { destruct (proj2 (Hkn a n Ha)) as [r Hr0]; [by exists j|]. destruct (Hold r Hr0). by eexists. }
      assert (j = S k) as -> by lia. apply nsteps_inv_r in Hp as (c & Hp & He).
      destruct (good_node w c Hw) as [m Hc]; [by eapply path_closed|].
      destruct (proj2 (Hkn c m Hc)) as [r Hcr]; [by exists k|].
      destruct (decide (id ∈ newIDs (store m))) as [Hin|Hnin].
      * destruct (Hnew c m Hc Hin) as (r' & Hcr' & Ht). simplify_eq. eapply Hedge; [done..|lia].
      * destruct (Hdone c m Hc ltac:(by eexists) Hnin) as (i & Hi & Hp').
        destruct (proj2 (Hkn a n Ha)) as [r0 Hr0].
        { exists (S i). split; [lia|]. by eapply nsteps_r. }
        destruct (Hold r0 Hr0). by eexists.
  - intros a n' Ha' Hin. destruct (Hback a n' Ha') as [n Ha].
    destruct (Hn a n Ha) as (n1 & ? & Hold & _ & Hfresh). simplify_eq.
    destruct (so_new _ (ft_store _ _ (proj2 Hw' _ _ Ha')) _ Hin) as [r Hr'].
    destruct (seen (store n) !! id) as [r0|] eqn:E; [by destruct (Hold r0 eq_refl)|].
    exists r. split; [done|]. destruct (Hfresh r eq_refl Hr') as (_ & c & m & r0 & _ & Hc & Hcn & Hcs & ->).
    destruct (Hnew c m Hc Hcn) as (r1 & ? & Ht). simplify_eq. simpl. lia.
  - intros a n' Ha' [r Hr'] Hnin. destruct (Hback a n' Ha') as [n Ha].
    destruct (Hn a n Ha) as (n1 & ? & Hold & _ & Hfresh). simplify_eq.
    destruct (seen (store n) !! id) as [r0|] eqn:E; [|by destruct (Hfresh r eq_refl Hr')].
    destruct (proj1 (Hkn a n Ha)) as (j & ? & ?); [by rewrite E|]. exists j. split; [lia|done].
Qed.

Lemma wave_rounds b T k scs w :
  is_Some (topo !! b) → Z.of_nat (k + length scs) ≤ T → Forall fair scs → wave b T k w →
  ∃ w', gossipRounds scs w = Done w' ∧ wave b T (k + length scs) w'.
Proof.
  intros Hb. revert k w. induction scs as [|sc scs IH]; intros k w HT Hf Hw; simpl in *.
  { exists w. by rewrite Nat.add_0_r. }
  inversion_clear Hf as [|? ? Hsc Hscs].
  destruct (wave_round b T k sc w) as (w1 & -> & Hw1); [done|lia|done..|]. simpl.
  destruct (IH (S k) w1) as (w2 & -> & Hw2); [lia|done..|]. exists w2. split; [done|].
  by replace (k + S (length scs))%nat with (S k + length scs)%nat by lia.
Qed.
End flood.

(** ** Theorem *)

(** C26. Gossip reaches every node within the TTL, if no datagram is lost and
    nodes take turns: take any topology whose seeds are nodes and whose fanouts
    cover the seeds, and any state in which the nodes are as configured, every
    identifier known is valid UTF-8, and one node [b] alone knows [id], has it
    still to push and holds it with TTL [T].  Then any [k ≤ T] fair rounds of
    network steps (every node ticks once, then every packet these ticks sent is
    delivered once, in any orders) run to the end, and afterwards the rumor is
    known exactly at the nodes within [k] hops of [b]. *)
Theorem flood_reaches topo id b T w scs :
  (∀ a c created, topo !! a = Some (c, created) → len c.(cSeeds) ≤ c.(cFanout)) →
  (∀ a a', edge topo a a' → is_Some (topo !! a')) →
  good topo w →
  (∃ n r, w.(gnodes) !! b = Some n ∧ id ∈ n.(store).(newIDs) ∧
          n.(store).(seen) !! id = Some r ∧ r.(rTTL) = T) →
  (∀ a n, w.(gnodes) !! a = Some n → a ≠ b → n.(store).(seen) !! id = None) →
  Forall (fair topo) scs → Z.of_nat (length scs) ≤ T →
  ∃ w', gossipRounds scs w = Done w' ∧
    ∀ a n, w'.(gnodes) !! a = Some n →
      is_Some (n.(store).(seen) !! id) ↔
      ∃ j, (j ≤ length scs)%nat ∧ nsteps (edge topo) j b a.
Proof.
  intros Hfan Hclosed Hw (n & r & Hb & Hid & Hr & HT) Honly Hf Hk.
  destruct (wave_rounds topo id Hfan Hclosed b T 0 scs w) as (w' & Hw' & [_ Hkn _ _]).
  - apply (proj1 Hw). by eexists.
  - simpl. done.
  - done.
  - split; [done|..].
    + intros a m Ha. destruct (decide (a = b)) as [->|Hne].
      * simplify_eq. rewrite Hr. split; [|done]. intros _. exists 0%nat. split; [done|constructor].
      * rewrite (Honly a m Ha Hne). split; [by intros []|].
        intros (j & Hj & Hp). assert (j = 0%nat) as -> by lia. by inversion Hp.
    + intros a m Ha Hin. destruct (decide (a = b)) as [->|Hne].
      * simplify_eq. exists r. split; [done|lia].
      * destruct (so_new _ (ft_store _ _ _ (proj2 Hw a m Ha)) _ Hin). by rewrite (Honly a m Ha Hne) in *.
    + intros a m Ha Hs Hnin. destruct (decide (a = b)) as [->|Hne]; [by simplify_eq|].
      rewrite (Honly a m Ha Hne) in Hs. by destruct Hs.
  - exists w'. split; [done|]. exact Hkn.
Qed.
