(* ===== verification/GossipTraces.v ===== *)
(** * Executions of the gossip network

    Concrete executions, run by evaluation: a rumor that floods a small
    network, one that stops short because a longer path was faster, a round of
    anti-entropy, and an identifier that is not UTF-8. *)
From S2P Require Import Prelude GoStrings GossipStore GossipNode GossipNet GossipDaemon GossipFlood.

Definition oracle0 : Oracle := mkOracle 1 (λ k, Z.of_nat k) [] [].

(** A node that pushes to all its seeds. *)
Definition node_config (id : string) (seeds : list string) : Config :=
  mkConfig id id seeds 200 3 8 "" "" 0.

(** A has C and B as seeds, B has C, and C has D. *)
Definition diamond : gmap string (Config * bool) :=
  list_to_map [("A", (node_config "A" ["C"; "B"], true)); ("B", (node_config "B" ["C"], true));
               ("C", (node_config "C" ["D"], true)); ("D", (node_config "D" [], false))].

Definition gfinal (w : gworld) (ls : list glabel) : gworld :=
  match grun w ls with Done w' => w' | _ => w end.

Definition inject_x (ttl : string) : glabel := GInject "A" oracle0 "x" "hello" ttl.
Definition w_injected : gworld := gfinal (ginit diamond) [inject_x "2"].

Definition knows_x (w : gworld) (a : string) : bool :=
  match w.(gnodes) !! a with
  | Some n => bool_decide (is_Some (n.(store).(seen) !! "x"))
  | None => false
  end.

(** The copy over B reaches C before the one A sent directly. *)
Definition late_trace : list glabel :=
  [inject_x "2"; GTick "A" oracle0; GDeliver 1 oracle0; GTick "B" oracle0;
   GDeliver 2 oracle0; GDeliver 0 oracle0; GTick "C" oracle0; GDeliver 3 oracle0].

Definition all_delivered (w : gworld) (ls : list glabel) : bool :=
  forallb (λ k, existsb (λ l, match l with GDeliver j _ => Nat.eqb j k | _ => false end) ls)
    (seq 0 (length w.(packets))).

Definition nothing_pending (w : gworld) : bool :=
  forallb (λ '(_, n), bool_decide (n.(store).(newIDs) = [])) (map_to_list w.(gnodes)).

(** Two nodes, one of which has a rumor the other lacks and a seed. *)
Definition pair : gmap string (Config * bool) :=
  list_to_map [("A", (node_config "A" [], true)); ("B", (node_config "B" ["A"], true))].

(** B injects y, A has x; B sends its digest to A, which answers with what B
    lacks; B has nothing of it. *)
Definition order_x : Oracle := mkOracle 1 (λ k, Z.of_nat k) [] ["x"].
Definition order_y : Oracle := mkOracle 1 (λ k, Z.of_nat k) [] ["y"].
Definition digest_trace : list glabel :=
  [inject_x "2"; GInject "B" oracle0 "y" "" ""; GAntiEntropy "B" order_y;
   GDeliver 0 order_x; GDeliver 1 oracle0].

Lemma gfinal_steps w ls :
  is_Done (grun w ls) = true → gsteps w (gfinal w ls).
Proof.
  unfold gfinal. revert w. induction ls as [|l ls IH]; intros w; cbn [grun]; [done|].
  destruct (gstep w l) as [w1| |] eqn:E; cbn [outcome_bind]; [|done..]. intros H.
  eapply rtc_l; [by exists l|]. specialize (IH w1 H). by destruct (grun w1 ls).
Qed.

Lemma knows_x_false w a n :
  knows_x w a = false → w.(gnodes) !! a = Some n → n.(store).(seen) !! "x" = None.
Proof.
  unfold knows_x. intros H Ha. rewrite Ha in H. apply bool_decide_eq_false in H.
  by apply eq_None_not_Some.
Qed.

(** ** What the executions show *)

(** Out of rounds, a rumor may stop short of its TTL: with fanouts that
    cover all seeds and every packet delivered exactly once, a node two hops
    away never learns a rumor injected with TTL 2, because the copy that
    reached its neighbour first had come a longer way and the better copy was
    dropped as a duplicate. *)
Theorem late_copy_lost :
  ∃ w, grun (ginit diamond) late_trace = Done w ∧
    all_delivered w late_trace = true ∧ nothing_pending w = true ∧
    nsteps (edge diamond) 2 "A" "D" ∧
    (∃ r0, w.(origins) = [("A", r0)] ∧ r0.(rID) = "x" ∧ r0.(rTTL) = 2) ∧
    knows_x w "D" = false.
Proof.
  exists (gfinal (ginit diamond) late_trace). split_and!.
  - by vm_compute.
  - by vm_compute.
  - by vm_compute.
  - eapply (nsteps_l _ _ _ "C"); [|eapply (nsteps_l _ _ _ "D"); [|constructor]].
    + exists (node_config "A" ["C"; "B"]), true. split; [by vm_compute|]. set_solver.
    + exists (node_config "C" ["D"]), true. split; [by vm_compute|]. set_solver.
  - eexists. split; [by vm_compute|done].
  - by vm_compute.
Qed.

(** The identifier of the request /inject?id=%ff: one byte that is not UTF-8.
    A pushes the rumor to B, which knows it as U+FFFD; B's digest makes A ask
    for its own rumor, and B's answer teaches A a second one. *)
Definition id_ff : string := String "255"%char "".
Definition order_ids (l : list string) : Oracle := mkOracle 1 (λ k, Z.of_nat k) [] l.
Definition each_other : gmap string (Config * bool) :=
  list_to_map [("A", (node_config "A" ["B"], true)); ("B", (node_config "B" ["A"], true))].
Definition renamed_trace : list glabel :=
  [GInject "A" oracle0 id_ff "hello" "5"; GTick "A" oracle0; GDeliver 0 oracle0;
   GAntiEntropy "B" (order_ids [replacement]); GDeliver 1 (order_ids [id_ff]);
   GDeliver 2 oracle0; GDeliver 3 oracle0].

Definition ids_at (w : gworld) (a : string) : option (list (string * Z)) :=
  n ← w.(gnodes) !! a; Some (prod_map id rTTL <$> map_to_list n.(store).(seen)).

Example invalid_id_renamed :
  let w := gfinal (ginit each_other) in
  ids_at (w (take 3 renamed_trace)) "B" = Some [(replacement, 4)] ∧
  ids_at (w (take 6 renamed_trace)) "A" = Some [(id_ff, 5)] ∧
  ids_at (w renamed_trace) "A" = Some [(id_ff, 5); (replacement, 4)].
Proof. by vm_compute. Qed.

(** ** Witnesses *)

Definition gnode_at (w : gworld) (a : string) : Node :=
  default (NewNode (node_config "" []) false) (w.(gnodes) !! a).
Definition has_gnode (w : gworld) (a : string) : bool :=
  match w.(gnodes) !! a with Some _ => true | None => false end.

Lemma gnode_at_lookup w a : has_gnode w a = true → w.(gnodes) !! a = Some (gnode_at w a).
Proof. unfold has_gnode, gnode_at. by destruct (gnodes w !! a). Qed.

Definition w_late : gworld := gfinal (ginit diamond) late_trace.

(** The copy of x that C holds. *)
Definition x_at_C : Rumor := mkRumor "x" 0 "hello" "A" 1.

Lemma rumor_provenance_witness :
  ∃ b r0 k c created, (b, r0) ∈ w_late.(origins) ∧ diamond !! b = Some (c, created) ∧
    r0.(rOrigin) = c.(cID) ∧ x_at_C.(rID) = "x" ∧
    ("x" = r0.(rID) ∨ "x" = toValid r0.(rID)) ∧ x_at_C.(rBody) = r0.(rBody) ∧
    (x_at_C.(rOrigin) = c.(cID) ∨ x_at_C.(rOrigin) = toValid c.(cID)) ∧
    x_at_C.(rInjectTS) = r0.(rInjectTS) ∧
    x_at_C.(rTTL) = r0.(rTTL) - Z.of_nat k ∧ Z.of_nat k ≤ Z.max 0 r0.(rTTL) ∧
    (valid_ids w_late.(origins) → "x" = r0.(rID) ∧ nsteps (edge diamond) k b "C").
Proof.
  apply (rumor_provenance diamond w_late "C" (gnode_at w_late "C") "x" x_at_C).
  - apply gfinal_steps. by vm_compute.
  - apply gnode_at_lookup. by vm_compute.
  - by vm_compute.
Defined.

(** The digest of B, before and after A has received it. *)
Definition w_digest : gworld := gfinal (ginit pair) (take 3 digest_trace).
Definition w_answered : gworld := gfinal (ginit pair) (take 4 digest_trace).

Lemma anti_entropy_inert_witness :
  (gnode_at w_answered "A").(store).(seen) = (gnode_at w_digest "A").(store).(seen) ∧
  (gnode_at w_answered "A").(store).(newIDs) = (gnode_at w_digest "A").(store).(newIDs).
Proof.
  apply (anti_entropy_inert pair w_digest 0 order_x w_answered
           (mkPacket "B" "A" (mkMsg MsgDigest "B" [] ["y"])) "A").
  - apply gfinal_steps. by vm_compute.
  - apply (bool_decide_eq_true_1 (valid_ids w_digest.(origins))). by vm_compute.
  - by vm_compute.
  - done.
  - by vm_compute.
  - apply gnode_at_lookup. by vm_compute.
  - apply gnode_at_lookup. by vm_compute.
Defined.

Lemma rumors_are_kept_witness :
  ∃ n, (gfinal w_injected (tail late_trace)).(gnodes) !! "A" = Some n ∧
       n.(store).(seen) !! "x" = Some (mkRumor "x" 2 "hello" "A" 1).
Proof.
  apply (rumors_are_kept w_injected (gfinal w_injected (tail late_trace)) "A" (gnode_at w_injected "A")).
  - apply gfinal_steps. by vm_compute.
  - apply gnode_at_lookup. by vm_compute.
  - by vm_compute.
Defined.

(** A property of every entry of a map, by evaluation. *)
Lemma map_forallb {A} (f : string → A → bool) (m : gmap string A) a x :
  forallb (λ '(a, x), f a x) (map_to_list m) = true → m !! a = Some x → f a x = true.
Proof.
  rewrite forallb_forall. intros Hf Ha%elem_of_map_to_list%list_elem_of_In. by apply (Hf (a, x)).
Qed.

Lemma gossip_never_panics_witness : gstep w_injected (GTick "A" oracle0) ≠ Panicked.
Proof.
  apply (gossip_never_panics diamond).
  - intros a c created Ha.
    apply (map_forallb (λ _ x, bool_decide (0 ≤ cFanout x.1))) in Ha; [|by vm_compute].
    by apply bool_decide_eq_true in Ha.
  - apply gfinal_steps. by vm_compute.
Defined.

Definition round0 : schedule := mkSchedule oracle0 (elements (dom diamond)) (λ l, l).

Lemma good_injected : good diamond w_injected.
Proof.
  assert (gworld_ok diamond w_injected) as [Hn _].
  { apply greachable_ok, gfinal_steps. by vm_compute. }
  split.
  - intros a. rewrite <- !elem_of_dom.
    assert (dom (gnodes w_injected) = dom diamond) as -> by (by vm_compute). done.
  - intros a n Ha. destruct (Hn a n Ha) as [? ? ? Hs]. split; [done..|]. intros i [r Hr].
    apply (seen_valid diamond w_injected a n i r); [| |done..].
    + apply greachable_ok, gfinal_steps. by vm_compute.
    + apply (bool_decide_eq_true_1 (valid_ids w_injected.(origins))). by vm_compute.
Qed.

Lemma flood_reaches_witness :
  ∃ w, gossipRounds [round0; round0] w_injected = Done w ∧
    ∀ a n, w.(gnodes) !! a = Some n →
      is_Some (n.(store).(seen) !! "x") ↔ ∃ j, (j ≤ 2)%nat ∧ nsteps (edge diamond) j "A" a.
Proof.
  apply (flood_reaches diamond "x" "A" 2 w_injected [round0; round0]).
  - intros a c created Ha.
    apply (map_forallb (λ _ x, bool_decide (len x.1.(cSeeds) ≤ cFanout x.1))) in Ha; [|by vm_compute].
    by apply bool_decide_eq_true in Ha.
  - intros a a' (c & created & Ha & Hin).
    apply (map_forallb (λ _ x, forallb (λ b, bool_decide (is_Some (diamond !! b))) x.1.(cSeeds))) in Ha;
      [|by vm_compute]. rewrite forallb_forall in Ha. simpl in Ha.
    apply list_elem_of_In in Hin. by apply Ha, bool_decide_eq_true in Hin.
  - apply good_injected.
  - exists (gnode_at w_injected "A"), (mkRumor "x" 2 "hello" "A" 1). split_and!.
    + apply gnode_at_lookup. by vm_compute.
    + eapply (list_elem_of_lookup_2 _ 0). by vm_compute.
    + by vm_compute.
    + done.
  - intros a n Ha Hne. apply (knows_x_false w_injected a n); [|done].
    apply (map_forallb (λ a _, bool_decide (a = "A") || negb (knows_x w_injected a))) in Ha;
      [|by vm_compute].
    apply orb_true_iff in Ha as [Ha%bool_decide_eq_true|Ha%negb_true_iff]; done.
  - constructor; [by split|]. constructor; [by split|constructor].
  - done.
Defined.

(** ** A daemon *)

Definition daemon_config : Config := mkConfig "A" ":9001" (splitCSV " b:9002, c:9003 ,,") 200000000 3 8 ":9081" "a.jsonl" 0.

Example seeds_parsed : splitCSV " b:9002, c:9003 ,," = ["b:9002"; "c:9003"].
Proof. by vm_compute. Qed.

Fixpoint daemonRun (d : Daemon) (ls : list dlabel) : outcome Daemon :=
  match ls with
  | [] => Done d
  | l :: ls => (d' <~ daemonStep d l; daemonRun d' ls)%outcome
  end.

Lemma daemonRun_steps d ls d' : daemonRun d ls = Done d' → daemonSteps d d'.
Proof.
  revert d. induction ls as [|l ls IH]; intros d; simpl; [intros [= ->]; apply rtc_refl|].
  destruct (daemonStep d l) as [d1| |] eqn:E; simpl; [|done..]. intros H. eapply rtc_l; [by exists l|by apply IH].
Qed.

(** The daemon starts, injects and pushes a rumor, and [Close] is called. *)
Definition daemon_trace : list dlabel :=
  [DListen true; DStart; DLoopBegin 0; DLoopBegin 1; DHttp oracle0 "x" "hello" ""; DLoopTick 0 oracle0; DClose].
Definition daemon_end (ls : list dlabel) : Daemon :=
  match daemonRun (daemonInit daemon_config true) ls with Done d => d | _ => daemonInit daemon_config true end.
Definition daemon_stopping : Daemon := daemon_end daemon_trace.
Definition daemon_stopped : Daemon := daemon_end (daemon_trace ++ [DLoopStop 0; DLoopStop 0; DCloseStore; DCloseTx]).

Lemma daemon_closes_witness :
  len daemon_stopping.(dSent) = 2 ∧ (∃ d', daemonSteps daemon_stopping d' ∧ d'.(dClosing) = TxClosed) ∧
  daemon_stopped.(dLoops) = [].
Proof.
  split; [by vm_compute|]. split.
  - apply (daemon_closes daemon_config true daemon_stopping).
    + by vm_compute.
    + apply (daemonRun_steps _ daemon_trace). by vm_compute.
    + by vm_compute.
    + by vm_compute.
  - apply (daemon_closes daemon_config true daemon_stopped).
    + by vm_compute.
    + apply (daemonRun_steps _ (daemon_trace ++ [DLoopStop 0; DLoopStop 0; DCloseStore; DCloseTx])). by vm_compute.
    + by vm_compute.
Defined.
