(* ===== verification/MRFiles.v ===== *)
(** * MapReduce: files, names and records (src/src/mapreduce/common.go)

    The shared file system as a map from names to contents, the names of the
    intermediate files, the hash that assigns keys to reduce tasks, and what
    encoding/json contributes: a stream of [KeyValue] records. *)
From S2P Require Import Prelude GoStrings.

Record KeyValue := mkKV { kvKey : string; kvValue : string }.

#[export] Instance KeyValue_eq_dec : EqDecision KeyValue.
Proof. solve_decision. Defined.

Inductive jobPhase := mapPhase | reducePhase.

(** ** Names *)

Definition reduceName (jobName : string) (mapTask reduceTask : Z) : string :=
  "mrtmp." +:+ jobName +:+ "-" +:+ Itoa mapTask +:+ "-" +:+ Itoa reduceTask.

Definition mergeName (jobName : string) (reduceTask : Z) : string :=
  "mrtmp." +:+ jobName +:+ "-res-" +:+ Itoa reduceTask.

(** The name of the final output. *)
Definition outputName (jobName : string) : string := "mrtmp." +:+ jobName.

(** ** Hash/fnv: 32-bit FNV-1a *)

Definition fnvOffset : Z := 2166136261.
Definition fnvPrime : Z := 16777619.

Fixpoint fnv32a (h : Z) (s : string) : Z :=
  match s with
  | EmptyString => h
  | String c s =>
    fnv32a (Z.land (Z.lxor h (Z.of_N (Ascii.N_of_ascii c)) * fnvPrime) (2 ^ 32 - 1)) s
  end.

Definition ihash (s : string) : Z := fnv32a fnvOffset s.

(** The reduce task of a key, [int(ihash(key)) % nReduce]; a zero divisor
    panics. *)
Definition partition (key : string) (nReduce : Z) : result Z :=
  if decide (nReduce = 0) then Panic else Ok (Z.rem (ihash key) nReduce).

(** ** Files *)

Abbreviation fs := (gmap string string).

(** encoding/json: [encode] is what one [Encode] writes; [decode] is one
    [Decode] on the unread part of a file, [None] at the end of it or at
    anything that is not a record.  A record of valid UTF-8 ([valid]) is read
    back as it was written; other bytes are replaced by the encoder. *)
Class Json := {
  encode : KeyValue → string;
  decode : string → option (KeyValue * string);
  valid : KeyValue → Prop
}.

Class JsonOk {J : Json} := {
  decode_encode kv rest : valid kv → decode (encode kv +:+ rest) = Some (kv, rest);
  decode_eof : decode "" = None;
  decode_shrinks s kv rest : decode s = Some (kv, rest) → (String.length rest < String.length s)%nat
}.

Section records.
Context {J : Json}.

(** The loop that decodes the records of a file until [Decode] fails. *)
Fixpoint decodeLoop (fuel : nat) (s : string) : option (list KeyValue) :=
  match fuel with
  | O => None
  | S fuel =>
    match decode s with
    | None => Some []
    | Some (kv, rest) => kvs ← decodeLoop fuel rest; Some (kv :: kvs)
    end
  end.

Definition encodeAll (kvs : list KeyValue) : string :=
  foldr (λ kv s, encode kv +:+ s) "" kvs.

Lemma encodeAll_app l k : encodeAll (l ++ k) = encodeAll l +:+ encodeAll k.
Proof. induction l as [|kv l IH]; simpl; [done|]. by rewrite IH, string_app_assoc. Qed.

(** Each [Decode] reads at least one byte, so this fuel is enough
    ([decodeLoop_total]). *)
Definition records (s : string) : list KeyValue :=
  default [] (decodeLoop (S (String.length s)) s).

Context {JO : JsonOk}.

Lemma decodeLoop_total fuel s :
  (String.length s < fuel)%nat → ∃ kvs, decodeLoop fuel s = Some kvs.
Proof.
  revert s. induction fuel as [|fuel IH]; intros s Hf; [lia|]. simpl.
  destruct (decode s) as [[kv rest]|] eqn:E; [|eauto].
  apply decode_shrinks in E. destruct (IH rest) as [kvs ->]; [lia|]. simpl. eauto.
Qed.

Lemma decodeLoop_encodeAll fuel kvs :
  Forall valid kvs → (String.length (encodeAll kvs) < fuel)%nat →
  decodeLoop fuel (encodeAll kvs) = Some kvs.
Proof.
  intros Hv. revert fuel. induction Hv as [|kv kvs Hkv _ IH]; intros [|fuel] Hf; try lia; simpl.
  - by rewrite decode_eof.
  - pose proof (decode_encode kv (encodeAll kvs) Hkv) as E. simpl in Hf. rewrite E.
    apply decode_shrinks in E. rewrite IH by (simpl in *; lia). done.
Qed.

Lemma records_encodeAll kvs : Forall valid kvs → records (encodeAll kvs) = kvs.
Proof. intros H. unfold records. rewrite decodeLoop_encodeAll by (done || lia). done. Qed.
End records.

(** ** Names are distinct *)

(** Two strings with a dash after a dash-free prefix. *)
Lemma split_at_dash s t s' t' :
  has_char dash s = false → has_char dash s' = false →
  s +:+ String dash t = s' +:+ String dash t' → s = s' ∧ t = t'.
Proof.
  revert s'. induction s as [|c s IH]; intros [|c' s']; simpl; intros Hs Hs' E.
  - by simplify_eq.
  - injection E as <- _. by rewrite bool_decide_true in Hs'.
  - injection E as -> _. by rewrite bool_decide_true in Hs.
  - injection E as <- E. apply orb_false_iff in Hs as [_ Hs], Hs' as [_ Hs'].
    destruct (IH s' Hs Hs' E). by subst.
Qed.

Lemma reduceName_inj job m r m' r' :
  0 ≤ m → 0 ≤ m' → reduceName job m r = reduceName job m' r' → m = m' ∧ r = r'.
Proof.
  unfold reduceName. intros Hm Hm' H. do 2 apply string_app_inj in H. injection H as H.
  apply split_at_dash in H as [H1%Itoa_inj H2%Itoa_inj]; auto using Itoa_no_dash.
Qed.

Lemma mergeName_inj job r r' : mergeName job r = mergeName job r' → r = r'.
Proof. unfold mergeName. intros H. do 3 apply string_app_inj in H. by apply Itoa_inj. Qed.

Lemma reduceName_mergeName job m r r' : 0 ≤ m → reduceName job m r ≠ mergeName job r'.
Proof.
  unfold reduceName, mergeName. intros Hm H. do 2 apply string_app_inj in H. injection H as H.
  change ("res-" +:+ Itoa r') with ("res" +:+ String dash (Itoa r')) in H.
  apply split_at_dash in H as [H _]; [|by apply Itoa_no_dash|done].
  pose proof (Itoa_char "r"%char m) as Hr. rewrite H in Hr. discriminate Hr; [|done].
  intros d. unfold pretty_N_char. by repeat case_match.
Qed.

(** The output file is none of the others: its name is shorter. *)
Lemma outputName_reduceName job m r : outputName job ≠ reduceName job m r.
Proof.
  unfold outputName, reduceName. intros H. apply string_app_inj in H.
  apply (f_equal String.length) in H. rewrite String_length_app in H. simpl in H. lia.
Qed.

Lemma outputName_mergeName job r : outputName job ≠ mergeName job r.
Proof.
  unfold outputName, mergeName. intros H. apply string_app_inj in H.
  apply (f_equal String.length) in H. rewrite String_length_app in H. simpl in H. lia.
Qed.

(** ** The hash *)

Lemma fnv32a_bound h s : 0 ≤ h < 2 ^ 32 → 0 ≤ fnv32a h s < 2 ^ 32.
Proof.
  revert h. induction s as [|c s IH]; intros h Hh; simpl; [done|]. apply IH.
  change (2 ^ 32 - 1) with (Z.ones 32). rewrite Z.land_ones by lia. apply Z.mod_pos_bound. lia.
Qed.

Lemma ihash_bound s : 0 ≤ ihash s < 2 ^ 32.
Proof. apply fnv32a_bound. unfold fnvOffset. lia. Qed.

(** ** Theorems *)

(** The intermediate files never collide: for non-negative task numbers
    different tasks have different file names, no map output is a reduce
    output, and neither is the final output. *)
Theorem names_distinct job m r m' r' :
  0 ≤ m → 0 ≤ m' →
  (reduceName job m r = reduceName job m' r' → m = m' ∧ r = r') ∧
  (mergeName job r = mergeName job r' → r = r') ∧
  reduceName job m r ≠ mergeName job r' ∧
  outputName job ≠ reduceName job m r ∧ outputName job ≠ mergeName job r.
Proof.
  intros Hm Hm'. split_and!; [by apply reduceName_inj|apply mergeName_inj|by apply reduceName_mergeName
                             |apply outputName_reduceName|apply outputName_mergeName].
Qed.

Lemma names_distinct_witness : reduceName "wcseq" 1 23 ≠ reduceName "wcseq" 12 3.
Proof.
  intros H. destruct (names_distinct "wcseq" 1 23 12 3) as [Hi _]; [lia|lia|].
  destruct (Hi H). lia.
Defined.

(** Every key is assigned to exactly one existing reduce task: the hash is
    a 32-bit value and its remainder is a task number. *)
Theorem partition_spec key nReduce :
  0 < nReduce → ∃ r, partition key nReduce = Ok r ∧ 0 ≤ r < nReduce ∧
                     0 ≤ ihash key < 2 ^ 32 ∧ r = ihash key mod nReduce.
Proof.
  intros Hn. unfold partition. rewrite decide_False by lia. pose proof (ihash_bound key).
  eexists. split; [done|]. rewrite Z.rem_mod_nonneg by lia.
  split; [apply Z.mod_pos_bound; lia|done].
Qed.

(** The FNV-1a hash of "a", from the published test vectors. *)
Lemma partition_spec_witness : ihash "a" = 0xe40c292c ∧ ∃ r, partition "a" 3 = Ok r ∧ 0 ≤ r < 3.
Proof.
  split; [by vm_compute|]. destruct (partition_spec "a" 3) as (r & ? & ? & _); [lia|]. eauto.
Defined.
