(* ===== verification/MRTasks.v ===== *)
(** * MapReduce: map and reduce tasks, merge, cleanup

    src/src/mapreduce/common_map.go, common_reduce.go, master_splitmerge.go.
    A task is a function on the file system.  [creatable] says which names
    [os.Create] can create; a task that cannot create a file prints a message
    and goes on, and its writes are lost.  A file that cannot be opened is read
    as empty, except by [merge], which stops the program.  The messages printed
    on the way are left out. *)
From S2P Require Import Prelude GoStrings MRFiles.

Section tasks.
Context {J : Json} (creatable : string → bool).
Implicit Types (d : fs) (job : string).

Definition Create (name : string) d : fs :=
  if creatable name then <[name := ""]> d else d.

(** A write to the file [Create] returned. *)
Definition Append (name data : string) d : fs :=
  if creatable name then alter (λ c, c +:+ data) name d else d.

(** ** doMap *)

(** One turn of the loop over the pairs; [opened] says which of the [encs] are
    not nil. *)
Definition mapStep job (m nReduce : Z) (kv : KeyValue) (st : fs * list bool)
    : result (fs * list bool) :=
  (r <- partition kv.(kvKey) nReduce;
   let '(d, opened) := st in
   let rname := reduceName job m r in
   match slice_get opened r with
   | None => Panic
   | Some isOpen =>
     let '(d, opened) :=
       if isOpen : bool then (d, opened)
       else (Create rname d, <[Z.to_nat r := true]> opened) in
     Ok (Append rname (encode kv) d, opened)
   end)%result.

Definition doMap job (m : Z) (inFile : string) (nReduce : Z)
    (mapF : string → string → list KeyValue) d : result fs :=
  let content := default "" (d !! inFile) in
  let kvs := mapF inFile content in
  if decide (nReduce < 0) then Panic
  else
    (st <- forEach (mapStep job m nReduce) kvs (d, replicate (Z.to_nat nReduce) false);
     Ok st.1)%result.

(** ** doReduce *)

Definition addToBucket (buckets : gmap string (list string)) (kv : KeyValue)
    : gmap string (list string) :=
  <[kv.(kvKey) := default [] (buckets !! kv.(kvKey)) ++ [kv.(kvValue)]]> buckets.

(** The records of an intermediate file; a file that cannot be opened has
    none. *)
Definition fileRecords (name : string) d : list KeyValue :=
  match d !! name with Some c => records c | None => [] end.

Definition doReduce job (r nMap : Z) (reduceF : string → list string → string) d : fs :=
  let buckets :=
    foldl (λ b m, foldl addToBucket b (fileRecords (reduceName job m r) d)) ∅ (range nMap) in
  let keys := sortStrings (elements (dom buckets)) in
  let outname := mergeName job r in
  let d := Create outname d in
  foldl (λ d k, Append outname (encode (mkKV k (reduceF k (default [] (buckets !! k))))) d) d keys.

(** ** merge and CleanupFiles *)

Definition line (k v : string) : string := k +:+ ": " +:+ v +:+ String "010"%char "".

Definition merge job (nReduce : Z) d : result fs :=
  (kvs <- forEach (λ i kvs,
       match d !! mergeName job i with
       | None => Fatal
       | Some c => Ok (foldl (λ kvs kv, <[kv.(kvKey) := kv.(kvValue)]> kvs) kvs (records c))
       end) (range nReduce) (∅ : gmap string string);
   let keys := sortStrings (elements (dom kvs)) in
   if creatable (outputName job) then
     let d := Create (outputName job) d in
     Ok (foldl (λ d k, Append (outputName job) (line k (default "" (kvs !! k))) d) d keys)
   else Fatal)%result.

Definition removeFile (name : string) d : result fs :=
  match d !! name with Some _ => Ok (delete name d) | None => Fatal end.

Definition CleanupFiles job (files : list string) (nReduce : Z) d : result fs :=
  (d <- forEach (λ i, forEach (λ j, removeFile (reduceName job i j)) (range nReduce))
          (range (len files)) d;
   d <- forEach (λ i, removeFile (mergeName job i)) (range nReduce) d;
   removeFile (outputName job) d)%result.

(** ** Sequential *)

(** [run] with the schedule of [Sequential]: the map tasks, the reduce tasks
    and the merge, one after the other. *)
Definition sequentialPhase job (files : list string) (nReduce : Z)
    (mapF : string → string → list KeyValue) (reduceF : string → list string → string)
    (phase : jobPhase) d : result fs :=
  match phase with
  | mapPhase =>
    forEach (λ '(i, f), doMap job i f nReduce mapF) (zip (range (len files)) files) d
  | reducePhase =>
    forEach (λ i d, Ok (doReduce job i (len files) reduceF d)) (range nReduce) d
  end.

Definition run job (files : list string) (nReduce : Z) (schedule : jobPhase → fs → result fs) d
    : result fs :=
  (d <- schedule mapPhase d;
   d <- schedule reducePhase d;
   merge job nReduce d)%result.

Definition Sequential job files nReduce mapF reduceF d : result fs :=
  run job files nReduce (sequentialPhase job files nReduce mapF reduceF) d.
End tasks.
