(* ===== verification/MRSpec.v ===== *)
(** * MapReduce: what a job computes

    The file-level effect of each task, and the whole job: [Sequential] leaves
    in its output file, for every key any map call produced, the reduction of
    all values produced for it, in the order of the input files and, within
    one, in the order the map function produced them; the lines are sorted by
    key. *)
From S2P Require Import Prelude GoStrings MRFiles MRTasks.

(** ** The specification *)

Definition values (k : string) (kvs : list KeyValue) : list string :=
  kvValue <$> filter (λ kv, kv.(kvKey) = k) kvs.

Definition keys (kvs : list KeyValue) : list string :=
  sortStrings (elements (list_to_set (kvKey <$> kvs) : gset string)).

(** The lines of the output, for the pairs of all map calls. *)
Definition report (reduceF : string → list string → string) (kvs : list KeyValue) : string :=
  concatStrings ((λ k, line k (reduceF k (values k kvs))) <$> keys kvs).

(** The pairs of reduce task [r]. *)
Definition bucket (n r : Z) (kvs : list KeyValue) : list KeyValue :=
  filter (λ kv, ihash kv.(kvKey) mod n = r) kvs.

Lemma bucket_app n r l k : bucket n r (l ++ k) = bucket n r l ++ bucket n r k.
Proof. apply filter_app. Qed.

Lemma values_bucket n k r kvs : ihash k mod n = r → values k (bucket n r kvs) = values k kvs.
Proof.
  intros Hr. unfold values, bucket. rewrite list_filter_filter. f_equal.
  apply list_filter_iff. intros kv. naive_solver.
Qed.

Lemma bucket_keys n k r kvs : k ∈ kvKey <$> bucket n r kvs ↔ k ∈ kvKey <$> kvs ∧ ihash k mod n = r.
Proof. unfold bucket. rewrite !list_elem_of_fmap. setoid_rewrite list_elem_of_filter. naive_solver. Qed.

Lemma elem_of_keys k kvs : k ∈ keys kvs ↔ k ∈ kvKey <$> kvs.
Proof.
  unfold keys, sortStrings. rewrite merge_sort_Permutation, elem_of_elements. apply elem_of_list_to_set.
Qed.

Definition insertKV (m : gmap string string) (kv : KeyValue) : gmap string string :=
  <[kv.(kvKey) := kv.(kvValue)]> m.

(** Inserting records that agree with a function of their keys. *)
Lemma insertKV_lookup (g : string → string) l k :
  Forall (λ kv, kv.(kvValue) = g kv.(kvKey)) l →
  foldl insertKV ∅ l !! k = if decide (k ∈ kvKey <$> l) then Some (g k) else None.
Proof.
  induction l as [|kv l IH] using rev_ind; intros Hl; [done|].
  apply Forall_app in Hl as [Hl Hkv]. rewrite Forall_singleton in Hkv.
  rewrite foldl_app, fmap_app. cbn [foldl]. unfold insertKV at 1.
  destruct (decide (kvKey kv = k)) as [<-|Hne].
  - rewrite lookup_insert_eq, decide_True by set_solver. by rewrite Hkv.
  - rewrite lookup_insert_ne, IH by done. repeat case_decide; set_solver.
Qed.

Section spec.
Context {J : Json} (creatable : string → bool) (job : string) (n : Z).
Context (Hn : 0 < n).
Context (Hcr : ∀ m r, creatable (reduceName job m r) = true).
Context (Hcm : ∀ r, creatable (mergeName job r) = true).
Context (Hco : creatable (outputName job) = true).
Implicit Types (d : fs) (kvs : list KeyValue).

(** ** doMap *)

(** The file system after a map task of [d0] has written the pairs [kvs]. *)
Record mapped (m : Z) d0 kvs d : Prop := {
  mp_out : ∀ r, 0 ≤ r < n → d !! reduceName job m r =
    if decide (bucket n r kvs = []) then d0 !! reduceName job m r
    else Some (encodeAll (bucket n r kvs));
  mp_other : ∀ name, (∀ r, 0 ≤ r < n → name ≠ reduceName job m r) → d !! name = d0 !! name
}.

Definition openedBy kvs (opened : list bool) : Prop :=
  len opened = n ∧
  ∀ r, 0 ≤ r < n → slice_get opened r = Some (negb (bool_decide (bucket n r kvs = []))).

Lemma bucket_snoc r kvs kv :
  bucket n r (kvs ++ [kv]) =
    if decide (ihash kv.(kvKey) mod n = r) then bucket n r kvs ++ [kv] else bucket n r kvs.
Proof.
  unfold bucket. rewrite filter_app, filter_cons, filter_nil. case_decide; [done|by rewrite app_nil_r].
Qed.

(** One turn of the loop, at the file of the pair. *)
Lemma mapWrite m d0 kvs kv d r isOpen :
  ihash kv.(kvKey) mod n = r → isOpen = negb (bool_decide (bucket n r kvs = [])) →
  mapped m d0 kvs d → 0 ≤ m → 0 ≤ r < n →
  mapped m d0 (kvs ++ [kv])
    (Append creatable (reduceName job m r) (encode kv)
       (if isOpen : bool then d else Create creatable (reduceName job m r) d)).
Proof using Hcr.
  intros Hr -> [Hout Hother] Hm Hrn. set (rname := reduceName job m r).
  assert (∀ d, Append creatable rname (encode kv) d = alter (λ c, c +:+ encode kv) rname d) as ->
    by (intros; unfold Append, rname; by rewrite Hcr).
  assert (∀ d, Create creatable rname d = <[rname := ""]> d) as -> by (intros; unfold Create, rname; by rewrite Hcr).
  split.
  - intros r' Hr'. rewrite bucket_snoc, Hr. destruct (decide (r = r')) as [<-|Hne].
    + rewrite decide_False by (by destruct (bucket n r kvs)). fold rname. specialize (Hout r Hrn). fold rname in Hout.
      rewrite lookup_alter_eq, encodeAll_app. case_bool_decide as Hb; simpl.
      * by rewrite lookup_insert_eq, Hb, string_app_nil_r.
      * rewrite Hout, decide_False by done. simpl. by rewrite string_app_nil_r.
    + rewrite <- (Hout r') by done. assert (rname ≠ reduceName job m r') as Hne'
        by (intros [_ ?]%reduceName_inj; lia).
      rewrite lookup_alter_ne by done. case_match; [done|]. by rewrite lookup_insert_ne.
  - intros name Hname. rewrite <- (Hother name) by done. assert (rname ≠ name) as Hne
      by (intros <-; by apply (Hname r)).
    rewrite lookup_alter_ne by done. case_match; [done|]. by rewrite lookup_insert_ne.
Qed.

Lemma mapLoop m d0 todo kvs d opened :
  0 ≤ m → mapped m d0 kvs d → openedBy kvs opened →
  ∃ d' opened', forEach (mapStep creatable job m n) todo (d, opened) = Ok (d', opened') ∧
    mapped m d0 (kvs ++ todo) d'.
Proof using Hcr Hn.
  intros Hm. revert kvs d opened. induction todo as [|kv todo IH]; intros kvs d opened Hd [Hl Ho].
  { rewrite app_nil_r. by do 2 eexists. }
  cbn [forEach]. unfold mapStep at 1, partition. rewrite decide_False by lia. cbn [result_bind].
  pose proof (ihash_bound (kvKey kv)). rewrite Z.rem_mod_nonneg by lia.
  set (r := ihash (kvKey kv) mod n). assert (0 ≤ r < n) as Hr by (apply Z.mod_pos_bound; lia).
  rewrite (Ho r Hr). set (isOpen := negb _).
  rewrite (surjective_pairing (if isOpen then _ else _)). cbn [result_bind].
  replace (kvs ++ kv :: todo) with ((kvs ++ [kv]) ++ todo) by (by rewrite <- app_assoc).
  apply IH.
  - pose proof (mapWrite m d0 kvs kv d r isOpen eq_refl eq_refl Hd Hm Hr) as Hw. by destruct isOpen.
  - assert (len (if isOpen then (d, opened) else (Create creatable (reduceName job m r) d,
        <[Z.to_nat r := true]> opened)).2 = n) as Hl' by (destruct isOpen; simpl; by autorewrite with slices).
    split; [done|]. intros r' Hr'. rewrite bucket_snoc. fold r. unfold isOpen in *.
    case_decide as Heq.
    + subst r'. rewrite (bool_decide_false (_ ++ _ = [])) by (by destruct (bucket n r kvs)). simpl.
      case_bool_decide as Hb; simpl.
      * apply slice_get_insert_eq. lia.
      * rewrite Ho by done. by rewrite bool_decide_false.
    + rewrite <- Ho by done. case_bool_decide; simpl; [|done]. apply slice_get_insert_ne; lia.
Qed.

Lemma doMap_mapped m inFile mapF d :
  0 ≤ m → ∃ d', doMap creatable job m inFile n mapF d = Ok d' ∧
    mapped m d (mapF inFile (default "" (d !! inFile))) d'.
Proof using Hcr Hn.
  intros Hm. unfold doMap. rewrite decide_False by lia.
  destruct (mapLoop m d (mapF inFile (default "" (d !! inFile))) [] d
              (replicate (Z.to_nat n) false)) as (d' & opened & -> & Hd').
  - done.
  - by split.
  - split; [rewrite len_replicate; lia|]. intros r Hr.
    assert (slice_get (replicate (Z.to_nat n) false) r = Some false) as ->; [|done].
    apply slice_get_replicate. lia.
  - by exists d'.
Qed.

(** ** doReduce *)

Definition bucketsOf kvs : gmap string (list string) := foldl addToBucket ∅ kvs.

Lemma values_snoc k kvs kv :
  values k (kvs ++ [kv]) =
    if decide (kv.(kvKey) = k) then values k kvs ++ [kv.(kvValue)] else values k kvs.
Proof.
  unfold values. rewrite filter_app, filter_cons, filter_nil. case_decide.
  - by rewrite fmap_app.
  - by rewrite app_nil_r.
Qed.

Lemma bucketsOf_lookup kvs k :
  bucketsOf kvs !! k = if decide (values k kvs = []) then None else Some (values k kvs).
Proof.
  unfold bucketsOf. induction kvs as [|kv kvs IH] using rev_ind; [done|].
  rewrite foldl_app, values_snoc. cbn [foldl]. unfold addToBucket at 1. destruct (decide (kvKey kv = k)) as [<-|Hne].
  - rewrite lookup_insert_eq, IH.
    rewrite (decide_False (P := _ ++ _ = [])) by (by destruct (values _ _)).
    case_decide as E; [by rewrite E|done].
  - by rewrite lookup_insert_ne, IH.
Qed.

Lemma values_nil k kvs : values k kvs = [] ↔ k ∉ kvKey <$> kvs.
Proof.
  unfold values. rewrite list_elem_of_fmap. split.
  - intros H (kv & -> & Hkv). apply fmap_nil_inv in H.
    assert (kv ∈ filter (λ kv', kvKey kv' = kvKey kv) kvs) as Hin by (by apply list_elem_of_filter).
    rewrite H in Hin. by apply elem_of_nil in Hin.
  - intros H. assert (filter (λ kv, kvKey kv = k) kvs = []) as ->; [|done].
    apply elem_of_nil_inv. intros kv [<- Hkv]%list_elem_of_filter. apply H. eauto.
Qed.

Lemma bucketsOf_dom kvs : dom (bucketsOf kvs) = list_to_set (kvKey <$> kvs).
Proof.
  apply set_eq. intros k. rewrite elem_of_dom, elem_of_list_to_set, bucketsOf_lookup.
  destruct (decide (values k kvs = [])) as [H|H].
  - rewrite values_nil in H. split; [by intros []|done].
  - rewrite values_nil in H. split; [intros _|by eexists]. by apply dec_stable.
Qed.

Lemma bucketsOf_default kvs k : default [] (bucketsOf kvs !! k) = values k kvs.
Proof. rewrite bucketsOf_lookup. case_decide as H; [by rewrite H|done]. Qed.

Lemma foldl_bind {A B C} (f : A → B → A) (g : C → list B) (l : list C) a :
  foldl (λ a x, foldl f a (g x)) a l = foldl f a (l ≫= g).
Proof. revert a. induction l as [|x l IH]; intros a; [done|]. rewrite bind_cons, foldl_app. simpl. apply IH. Qed.

Lemma encodeAll_concat kvs : encodeAll kvs = concatStrings (encode <$> kvs).
Proof. unfold encodeAll, concatStrings. by rewrite foldr_fmap. Qed.

(** Writing a file from its creation on. *)
Lemma write_all {A} name (f : A → string) (l : list A) d :
  creatable name = true →
  foldl (λ d x, Append creatable name (f x) d) (Create creatable name d) l =
    <[name := concatStrings (f <$> l)]> d.
Proof.
  intros Hc. unfold Create. rewrite Hc. induction l as [|x l IH] using rev_ind; [done|].
  rewrite foldl_app. simpl. rewrite IH. unfold Append. rewrite Hc.
  apply map_eq. intros nm. destruct (decide (nm = name)) as [->|Hne].
  - rewrite lookup_alter_eq, !lookup_insert_eq. simpl. f_equal. rewrite fmap_app. simpl.
    clear. induction (f <$> l) as [|y k IH]; simpl; [by rewrite string_app_nil_r|].
    by rewrite string_app_assoc, IH.
  - by rewrite lookup_alter_ne, !lookup_insert_ne by done.
Qed.

(** The pairs reduce task [r] reads. *)
Definition reduceInput (r nMap : Z) d : list KeyValue :=
  range nMap ≫= λ m, fileRecords (reduceName job m r) d.

(** What a reduce task makes of pairs. *)
Definition reduced (reduceF : string → list string → string) kvs : list KeyValue :=
  (λ k, mkKV k (reduceF k (values k kvs))) <$> keys kvs.

Lemma doReduce_spec r nMap reduceF d :
  doReduce creatable job r nMap reduceF d =
    <[mergeName job r := encodeAll (reduced reduceF (reduceInput r nMap d))]> d.
Proof using Hcm.
  unfold doReduce. rewrite foldl_bind. fold (reduceInput r nMap d).
  change (foldl addToBucket ∅ (reduceInput r nMap d)) with (bucketsOf (reduceInput r nMap d)).
  rewrite bucketsOf_dom.
  change (sortStrings (elements (list_to_set (kvKey <$> reduceInput r nMap d)))) with (keys (reduceInput r nMap d)).
  rewrite (write_all (mergeName job r)
             (λ k, encode (mkKV k (reduceF k (default [] (bucketsOf (reduceInput r nMap d) !! k))))))
    by apply Hcm.
  f_equal. unfold reduced. rewrite encodeAll_concat, <- list_fmap_compose. f_equal.
  apply list_fmap_ext. intros i k _. unfold compose. by rewrite bucketsOf_default.
Qed.

(** ** The map phase *)

Context (mapF : string → string → list KeyValue).

(** The pairs map task on [f] produces. *)
Definition mapPairs d (f : string) : list KeyValue := mapF f (default "" (d !! f)).

(** An input file is not an intermediate file of the job. *)
Definition input_ok (f : string) : Prop := ∀ m r, 0 ≤ m → f ≠ reduceName job m r.

(** The file system after the first map tasks. *)
Record mapsDone d0 (files : list string) d : Prop := {
  md_out : ∀ i f r, files !! i = Some f → 0 ≤ r < n →
    d !! reduceName job (Z.of_nat i) r =
      if decide (bucket n r (mapPairs d0 f) = []) then d0 !! reduceName job (Z.of_nat i) r
      else Some (encodeAll (bucket n r (mapPairs d0 f)));
  md_other : ∀ name, (∀ i r, (i < length files)%nat → 0 ≤ r < n →
                        name ≠ reduceName job (Z.of_nat i) r) → d !! name = d0 !! name
}.

Lemma mapsDone_step d0 files f d :
  Forall input_ok (files ++ [f]) → mapsDone d0 files d →
  ∃ d', doMap creatable job (len files) f n mapF d = Ok d' ∧ mapsDone d0 (files ++ [f]) d'.
Proof using Hcr Hn.
  intros [_ Hf]%Forall_app [Hout Hother]. rewrite Forall_singleton in Hf.
  destruct (doMap_mapped (len files) f mapF d) as (d' & Hd & [Ho Hr]); [unfold len; lia|].
  exists d'. split; [done|].
  assert (default "" (d !! f) = default "" (d0 !! f)) as E.
  { rewrite Hother; [done|]. intros i r _ _. apply Hf. lia. }
  rewrite E in Ho. fold (mapPairs d0 f) in Ho.
  assert (∀ i r, (i < length files)%nat → 0 ≤ r < n →
            d' !! reduceName job (Z.of_nat i) r = d !! reduceName job (Z.of_nat i) r) as Hold.
  { intros i r Hi _. apply Hr. intros r' _ [??]%reduceName_inj; unfold len in *; lia. }
  split.
  - intros i g r Hg Hrn. rewrite lookup_app_Some in Hg. destruct Hg as [Hg|[Hi Hg]].
    + rewrite Hold by (done || by eapply lookup_lt_Some). by apply Hout.
    + apply list_lookup_singleton_Some in Hg as [Hi0 <-].
      replace (Z.of_nat i) with (len files) by (unfold len; lia). rewrite (Ho r Hrn).
      case_decide; [|done]. apply Hother. intros i' r' Hi' _ [??]%reduceName_inj; unfold len in *; lia.
  - intros name Hname. rewrite length_app in Hname. simpl in Hname.
    rewrite Hr by (intros r ?; apply (Hname (length files) r); [lia|done]).
    apply Hother. intros i r ??. apply Hname; [lia|done].
Qed.

Lemma seqZ_1 x : seqZ x 1 = [x].
Proof. rewrite seqZ_cons by lia. simpl. by rewrite seqZ_nil by lia. Qed.

Lemma zip_snoc {A} (files : list A) (f : A) :
  zip (range (len (files ++ [f]))) (files ++ [f]) = zip (range (len files)) files ++ [(len files, f)].
Proof.
  unfold range. rewrite len_app. change (len [f]) with 1.
  rewrite seqZ_app by (unfold len; lia). rewrite zip_with_app by (rewrite length_seqZ; unfold len; lia).
  by rewrite Z.add_0_l.
Qed.

Lemma mapPhase_done d0 files :
  Forall input_ok files →
  ∃ d, forEach (λ '(i, f), doMap creatable job i f n mapF) (zip (range (len files)) files) d0 = Ok d ∧
       mapsDone d0 files d.
Proof using Hcr Hn.
  induction files as [|f files IH] using rev_ind; intros Hin.
  { exists d0. split; [done|]. split; [by intros|done]. }
  destruct IH as (d & Hd & Hdone); [by apply Forall_app in Hin as [??]|].
  destruct (mapsDone_step d0 files f d Hin Hdone) as (d' & Hd' & Hdone').
  exists d'. split; [|done]. rewrite zip_snoc, forEach_app, Hd. simpl. by rewrite Hd'.
Qed.

(** ** The reduce phase *)

Context {JO : JsonOk}.
Context (reduceF : string → list string → string).

Definition allPairs d (files : list string) : list KeyValue := files ≫= mapPairs d.

(** No map output of an earlier job is lying around. *)
Definition fresh d (files : list string) : Prop :=
  ∀ i r, (i < length files)%nat → 0 ≤ r < n → d !! reduceName job (Z.of_nat i) r = None.

Lemma reduceInput_app r nMap nMap' d :
  0 ≤ nMap → 0 ≤ nMap' →
  reduceInput r (nMap + nMap') d =
    reduceInput r nMap d ++ (seqZ nMap nMap' ≫= λ m, fileRecords (reduceName job m r) d).
Proof. intros ??. unfold reduceInput, range. by rewrite seqZ_app, bind_app by lia. Qed.

Lemma reduceInput_ext r nMap d d' :
  (∀ m, 0 ≤ m → d' !! reduceName job m r = d !! reduceName job m r) →
  reduceInput r nMap d' = reduceInput r nMap d.
Proof.
  intros H. unfold reduceInput.
  assert (∀ m, m ∈ range nMap → 0 ≤ m) as Hm by (intros m ?%elem_of_range; lia).
  induction (range nMap) as [|m ms IH]; [done|]. rewrite !bind_cons, IH by (intros; apply Hm; by right). f_equal.
  unfold fileRecords. by rewrite H by (apply Hm; by left).
Qed.

(** A reduce task reads its share of all pairs, in order. *)
Lemma reduceInput_bucket d0 files d r :
  Forall (λ f, Forall valid (mapPairs d0 f)) files → fresh d0 files → 0 ≤ r < n →
  mapsDone d0 files d → reduceInput r (len files) d = bucket n r (allPairs d0 files).
Proof using JO.
  intros Hv Hfr Hr [Hout _].
  assert (∀ fs, fs `prefix_of` files → reduceInput r (len fs) d = bucket n r (allPairs d0 fs)) as H; [|by apply H].
  induction fs as [|f fs IH] using rev_ind; intros Hpre; [done|].
  assert (fs `prefix_of` files) as Hpre' by (etrans; [|done]; by apply prefix_app_r).
  rewrite len_app. change (len [f]) with 1. rewrite reduceInput_app by (unfold len; lia).
  unfold allPairs. rewrite bind_app, bucket_app. rewrite IH by done. f_equal.
  rewrite seqZ_1, !bind_singleton. unfold fileRecords.
  assert (files !! length fs = Some f) as Hf.
  { eapply prefix_lookup_Some; [|exact Hpre]. by rewrite list_lookup_middle. }
  unfold len. rewrite (Hout _ f r Hf Hr). case_decide as Hb.
  - rewrite Hfr by (done || by eapply lookup_lt_Some). done.
  - rewrite records_encodeAll; [done|]. apply Forall_forall. intros kv [_ Hkv]%list_elem_of_filter.
    eapply Forall_lookup_1 in Hv; [|exact Hf]. by eapply Forall_forall in Hv.
Qed.

(** The file system after the first [k] reduce tasks of [d]. *)
Record reducesDone (all : list KeyValue) d (k : Z) d' : Prop := {
  rd_out : ∀ r, 0 ≤ r < k → d' !! mergeName job r = Some (encodeAll (reduced reduceF (bucket n r all)));
  rd_other : ∀ name, (∀ r, 0 ≤ r → name ≠ mergeName job r) → d' !! name = d !! name
}.

Lemma reducePhase_done all d nMap k :
  (∀ r, 0 ≤ r < n → reduceInput r nMap d = bucket n r all) → 0 ≤ k ≤ n →
  ∃ d', forEach (λ i d, Ok (doReduce creatable job i nMap reduceF d)) (range k) d = Ok d' ∧
        reducesDone all d k d'.
Proof using Hcm.
  intros Hin Hk. rewrite <- (Z2Nat.id k) in Hk |- * by lia.
  induction (Z.to_nat k) as [|j IH].
  { exists d. split; [done|]. split; [lia|done]. }
  destruct IH as (d' & Hd' & [Ho Hr]); [lia|].
  unfold range in Hd' |- *. rewrite Nat2Z.inj_succ, <- Z.add_1_r, seqZ_app, forEach_app, Hd', seqZ_1 by lia.
  rewrite Z.add_0_l. cbn [forEach result_bind].
  eexists. split; [done|]. rewrite doReduce_spec.
  assert (reduceInput (Z.of_nat j) nMap d' = bucket n (Z.of_nat j) all) as ->.
  { rewrite <- (Hin (Z.of_nat j)) by lia. apply reduceInput_ext. intros m Hm. apply Hr.
    intros r _. by apply reduceName_mergeName. }
  split.
  - intros r Hrk. destruct (decide (r = Z.of_nat j)) as [->|Hne]; [by rewrite lookup_insert_eq|].
    rewrite lookup_insert_ne by (intros ?%mergeName_inj; lia). apply Ho. lia.
  - intros name Hname. rewrite lookup_insert_ne; [by apply Hr|]. apply not_eq_sym, Hname. lia.
Qed.

(** ** merge *)

(** All result records of the job. *)
Definition results (all : list KeyValue) : list KeyValue :=
  range n ≫= λ r, reduced reduceF (bucket n r all).

Lemma results_spec all kv :
  kv ∈ results all → kv.(kvKey) ∈ kvKey <$> all ∧ kv.(kvValue) = reduceF kv.(kvKey) (values kv.(kvKey) all).
Proof.
  unfold results, reduced. intros (r & Hr & _)%list_elem_of_bind.
  apply list_elem_of_fmap in Hr as (k & -> & Hk). rewrite elem_of_keys, bucket_keys in Hk.
  simpl. destruct Hk as [Hk Hh]. by rewrite values_bucket.
Qed.

Lemma results_keys all k : k ∈ kvKey <$> results all ↔ k ∈ kvKey <$> all.
Proof using Hn.
  split.
  - intros (kv & -> & Hkv)%list_elem_of_fmap. by apply results_spec in Hkv as [? _].
  - intros Hk. apply list_elem_of_fmap. exists (mkKV k (reduceF k (values k (bucket n (ihash k mod n) all)))).
    split; [done|]. unfold results. apply list_elem_of_bind. exists (ihash k mod n). split.
    + unfold reduced. apply list_elem_of_fmap. exists k. split; [done|].
      by rewrite elem_of_keys, bucket_keys.
    + apply elem_of_range, Z.mod_pos_bound. lia.
Qed.

Lemma mergeLoop all d (m : gmap string string) k :
  Forall valid (results all) → 0 ≤ k ≤ n →
  (∀ r, 0 ≤ r < n → d !! mergeName job r = Some (encodeAll (reduced reduceF (bucket n r all)))) →
  forEach (λ i acc,
      match d !! mergeName job i with
      | None => Fatal
      | Some c => Ok (foldl (λ acc kv, <[kv.(kvKey) := kv.(kvValue)]> acc) acc (records c))
      end) (range k) m =
  Ok (foldl insertKV m (range k ≫= λ r, reduced reduceF (bucket n r all))).
Proof using JO.
  intros Hv Hk Hd. rewrite <- (Z2Nat.id k) in Hk |- * by lia.
  induction (Z.to_nat k) as [|j IH]; [done|].
  unfold range in IH |- *. rewrite Nat2Z.inj_succ, <- Z.add_1_r, seqZ_app, forEach_app, IH by lia.
  rewrite seqZ_1, Z.add_0_l, bind_app, foldl_app, bind_singleton. cbn [forEach result_bind].
  rewrite Hd by lia. rewrite records_encodeAll; [done|].
  apply Forall_forall. intros kv Hkv. eapply Forall_forall in Hv; [exact Hv|].
  unfold results. apply list_elem_of_bind. exists (Z.of_nat j). split; [done|]. apply elem_of_range. lia.
Qed.

Lemma merge_report all d :
  Forall valid (results all) →
  (∀ r, 0 ≤ r < n → d !! mergeName job r = Some (encodeAll (reduced reduceF (bucket n r all)))) →
  merge creatable job n d = Ok (<[outputName job := report reduceF all]> d).
Proof using Hco Hn JO.
  intros Hv Hd. unfold merge. rewrite (mergeLoop all) by (done || lia). cbn [result_bind].
  rewrite Hco. fold (results all). set (kvs := foldl insertKV ∅ (results all)).
  assert (∀ k, kvs !! k = if decide (k ∈ kvKey <$> all) then Some (reduceF k (values k all)) else None) as Hkvs.
  { intros k. unfold kvs. rewrite (insertKV_lookup (λ k, reduceF k (values k all))).
    - destruct (decide (k ∈ kvKey <$> all)) as [Hk|Hk].
      + by rewrite decide_True by (by apply results_keys).
      + by rewrite decide_False by (by rewrite results_keys).
    - apply Forall_forall. intros kv Hkv. by apply results_spec in Hkv as [_ ?]. }
  assert (dom kvs = list_to_set (kvKey <$> all)) as ->.
  { apply set_eq. intros k. rewrite elem_of_dom, elem_of_list_to_set, Hkvs.
    case_decide; [by split|]. split; [by intros []|done]. }
  rewrite (write_all (outputName job) (λ k, line k (default "" (kvs !! k)))) by done.
  do 2 f_equal. unfold report. f_equal. fold (keys all). apply list_fmap_ext.
  intros i k Hk. apply list_elem_of_lookup_2, elem_of_keys in Hk. by rewrite Hkvs, decide_True.
Qed.
End spec.

(** ** The whole job *)

(** A job that can run: enough reduce tasks, files that can be created, inputs
    that are not intermediate files, no leftovers, and records that survive
    encoding. *)
Record job_ok {J : Json} (creatable : string → bool) (job : string) (n : Z)
    (mapF : string → string → list KeyValue) (reduceF : string → list string → string)
    (files : list string) (d : fs) : Prop := {
  jo_n : 0 < n;
  jo_reduce : ∀ m r, creatable (reduceName job m r) = true;
  jo_merge : ∀ r, creatable (mergeName job r) = true;
  jo_output : creatable (outputName job) = true;
  jo_inputs : Forall (input_ok job) files;
  jo_fresh : fresh job n d files;
  jo_pairs : Forall (λ f, Forall valid (mapPairs mapF d f)) files;
  jo_results : Forall valid
    ((λ k, mkKV k (reduceF k (values k (allPairs mapF d files)))) <$> keys (allPairs mapF d files))
}.

(** The names of a job's intermediate files. *)
Definition jobName_of (job name : string) : Prop :=
  (∃ m r, 0 ≤ m ∧ name = reduceName job m r) ∨ (∃ r, name = mergeName job r).

(** The file system [Sequential] leaves. *)
Record jobDone {J : Json} (job : string) (n : Z) (mapF : string → string → list KeyValue)
    (reduceF : string → list string → string) (files : list string) (d d' : fs) : Prop := {
  jd_output : d' !! outputName job = Some (report reduceF (allPairs mapF d files));
  jd_reduce : ∀ i f r, files !! i = Some f → 0 ≤ r < n →
    is_Some (d' !! reduceName job (Z.of_nat i) r) ↔ bucket n r (mapPairs mapF d f) ≠ [];
  jd_merge : ∀ r, 0 ≤ r < n → is_Some (d' !! mergeName job r);
  jd_other : ∀ name, name ≠ outputName job → ¬ jobName_of job name → d' !! name = d !! name
}.

Lemma results_valid {J : Json} n reduceF (all : list KeyValue) :
  Forall valid ((λ k, mkKV k (reduceF k (values k all))) <$> keys all) →
  Forall valid (results n reduceF all).
Proof.
  rewrite !Forall_forall. intros H kv Hkv. destruct (results_spec n reduceF all kv Hkv) as [Hk Hval].
  apply H, list_elem_of_fmap. exists (kvKey kv). split; [|by apply elem_of_keys].
  destruct kv; simpl in *. by rewrite Hval.
Qed.

Lemma sequential_done {J : Json} {JO : JsonOk} creatable job n mapF reduceF files d :
  job_ok creatable job n mapF reduceF files d →
  ∃ d', Sequential creatable job files n mapF reduceF d = Ok d' ∧
        jobDone job n mapF reduceF files d d'.
Proof.
  intros [Hn Hcr Hcm Hco Hin Hfr Hpv Hrv]. unfold Sequential, run, sequentialPhase.
  set (all := allPairs mapF d files) in *.
  destruct (mapPhase_done creatable job n Hn Hcr mapF d files Hin) as (d1 & -> & Hd1). cbn [result_bind].
  assert (∀ r, 0 ≤ r < n → reduceInput job r (len files) d1 = bucket n r all) as Hri.
  { intros r Hr. by apply reduceInput_bucket. }
  destruct (reducePhase_done creatable job n Hcm reduceF all d1 (len files) n Hri)
    as (d2 & -> & [Hout Hoth]); [lia|]. cbn [result_bind].
  rewrite (merge_report creatable job n Hn Hco reduceF all d2) by (done || by apply results_valid).
  eexists. split; [done|]. split.
  - by rewrite lookup_insert_eq.
  - intros i f r Hf Hr. rewrite lookup_insert_ne by apply outputName_reduceName.
    rewrite Hoth by (intros; apply reduceName_mergeName; lia).
    rewrite (md_out _ _ _ _ _ _ Hd1 i f r Hf Hr).
    case_decide; [|by split]. rewrite Hfr by (done || by eapply lookup_lt_Some). split; [by intros []|done].
  - intros r Hr. rewrite lookup_insert_ne by apply outputName_mergeName. rewrite Hout by done. by eexists.
  - intros name Hne Hnot. rewrite lookup_insert_ne by done. rewrite Hoth, (md_other _ _ _ _ _ _ Hd1); [done|..].
    + intros i r _ _ ->. apply Hnot. left. exists (Z.of_nat i), r. split; [lia|done].
    + intros r _ ->. apply Hnot. right. eauto.
Qed.

(** ** CleanupFiles *)

(** The files [CleanupFiles] removes, in its order. *)
Definition cleanupNames (job : string) (files : list string) (n : Z) : list string :=
  (range (len files) ≫= λ i, reduceName job i <$> range n) ++
  (mergeName job <$> range n) ++ [outputName job].

Lemma forEach_fmap {A B S} (f : A → B) (body : B → S → result S) l s :
  forEach (λ x, body (f x)) l s = forEach body (f <$> l) s.
Proof. revert s. induction l as [|x l IH]; intros s; [done|]. simpl. by destruct (body (f x) s); simpl. Qed.

Lemma forEach_bind {A B S} (f : A → list B) (body : B → S → result S) l s :
  forEach (λ x, forEach body (f x)) l s = forEach body (l ≫= f) s.
Proof.
  revert s. induction l as [|x l IH]; intros s; [done|]. rewrite bind_cons, forEach_app. simpl.
  by destruct (forEach body (f x) s); simpl.
Qed.

Lemma CleanupFiles_flat job files n d :
  CleanupFiles job files n d = forEach removeFile (cleanupNames job files n) d.
Proof.
  unfold CleanupFiles, cleanupNames. rewrite !forEach_app, <- forEach_bind.
  assert (∀ l d, forEach (λ i, forEach (λ j, removeFile (reduceName job i j)) (range n)) l d =
                 forEach (λ i, forEach removeFile (reduceName job i <$> range n)) l d) as ->.
  { induction l as [|i l IH]; intros d'; [done|]. simpl. rewrite forEach_fmap. by destruct (forEach _ _ d'); simpl. }
  destruct (forEach _ (range (len files)) d) as [d1| |]; simpl; [|done..].
  rewrite forEach_app, forEach_fmap. destruct (forEach removeFile (mergeName job <$> range n) d1); simpl; [|done..].
  by destruct (removeFile _ _).
Qed.

Lemma cleanupNames_NoDup job files n : NoDup (cleanupNames job files n).
Proof.
  assert (∀ k, NoDup (mergeName job <$> range k)) as Hm.
  { intros k. apply NoDup_fmap_2_strong, NoDup_range. intros ?? _ _. apply mergeName_inj. }
  assert (∀ l, NoDup l → (∀ i, i ∈ l → 0 ≤ i) → NoDup (l ≫= λ i, reduceName job i <$> range n)) as Hr.
  { induction 1 as [|i l Hi _ IH]; intros Hpos; [constructor|]. rewrite bind_cons. apply NoDup_app. split_and!.
    - apply NoDup_fmap_2_strong, NoDup_range. intros x y _ _ [_ ?]%reduceName_inj; [done|set_solver..].
    - intros name (r & -> & _)%list_elem_of_fmap (i' & (r' & Heq & _)%list_elem_of_fmap & Hi')%list_elem_of_bind.
      apply reduceName_inj in Heq as [-> _]; [done|set_solver..].
    - apply IH. set_solver. }
  unfold cleanupNames. rewrite !NoDup_app. split_and!.
  - apply Hr; [apply NoDup_range|]. intros i ?%elem_of_range. lia.
  - intros name (i & (r & -> & _)%list_elem_of_fmap & Hi%elem_of_range)%list_elem_of_bind.
    rewrite elem_of_app, list_elem_of_singleton, list_elem_of_fmap. intros [(r' & Heq & _)|Heq].
    + by apply reduceName_mergeName in Heq; [|lia].
    + symmetry in Heq. by apply outputName_reduceName in Heq.
  - apply Hm.
  - intros name (r & -> & _)%list_elem_of_fmap Heq%list_elem_of_singleton.
    symmetry in Heq. by apply outputName_mergeName in Heq.
  - apply NoDup_singleton.
Qed.

Lemma removeAll_spec names d :
  NoDup names →
  forEach removeFile names d =
    if decide (Forall (λ name, is_Some (d !! name)) names)
    then Ok (foldr delete d (reverse names)) else Fatal.
Proof.
  intros Hnd. revert d. induction Hnd as [|name names Hn _ IH]; intros d; [done|]. cbn [forEach].
  unfold removeFile at 1. destruct (d !! name) as [c|] eqn:E; cbn [result_bind].
  - rewrite IH, reverse_cons, foldr_app. simpl.
    assert (Forall (λ nm, is_Some (delete name d !! nm)) names ↔
            Forall (λ nm, is_Some (d !! nm)) (name :: names)) as Hiff.
    { rewrite Forall_cons, !Forall_forall. split.
      - intros H. split; [by rewrite E|]. intros x Hx. specialize (H x Hx).
        by rewrite lookup_delete_ne in H by (intros ->; done).
      - intros [_ H] x Hx. rewrite lookup_delete_ne by (intros ->; done). by apply H. }
    repeat case_decide; tauto.
  - rewrite decide_False; [done|]. rewrite Forall_cons, E. intros [[] _]. done.
Qed.

Lemma foldr_delete_lookup (d : fs) names name :
  foldr delete d names !! name = if decide (name ∈ names) then None else d !! name.
Proof.
  induction names as [|x names IH]; simpl; [done|]. destruct (decide (x = name)) as [->|Hne].
  - rewrite lookup_delete_eq, decide_True by set_solver. done.
  - rewrite lookup_delete_ne, IH by done. repeat case_decide; set_solver.
Qed.

Lemma cleanupNames_job job files n name :
  name ∈ cleanupNames job files n → name = outputName job ∨ jobName_of job name.
Proof.
  unfold cleanupNames, jobName_of.
  rewrite !elem_of_app, list_elem_of_singleton, list_elem_of_bind, list_elem_of_fmap.
  intros [(i & (r & -> & _)%list_elem_of_fmap & Hi%elem_of_range)|[(r & -> & _)|?]]; [|by eauto|by left].
  right. left. exists i, r. split; [lia|done].
Qed.

(** After a job all its files are there exactly if every task had pairs for
    every other. *)
Lemma cleanupNames_exist {J : Json} job n mapF reduceF files d d' :
  jobDone job n mapF reduceF files d d' →
  Forall (λ name, is_Some (d' !! name)) (cleanupNames job files n) ↔
  Forall (λ f, Forall (λ r, bucket n r (mapPairs mapF d f) ≠ []) (range n)) files.
Proof.
  intros [Ho Hr Hm _]. unfold cleanupNames. rewrite !Forall_app, Forall_singleton, Ho.
  assert (Forall (λ name, is_Some (d' !! name)) (mergeName job <$> range n)) as Hmerge.
  { apply Forall_fmap, Forall_forall. intros r ?%elem_of_range. by apply Hm. }
  split.
  - intros [Hall _]. apply Forall_lookup_2. intros i f Hf. apply Forall_forall. intros r Hrn.
    apply elem_of_range in Hrn as Hrn'. apply (Hr i f r Hf Hrn'). eapply Forall_forall in Hall; [exact Hall|].
    apply list_elem_of_bind. exists (Z.of_nat i). split; [apply list_elem_of_fmap; eauto|].
    apply elem_of_range. apply lookup_lt_Some in Hf. unfold len. lia.
  - intros Hall. split_and!; [|done|by eexists]. apply Forall_forall.
    intros name (i & (r & -> & Hrn)%list_elem_of_fmap & Hi%elem_of_range)%list_elem_of_bind.
    destruct (lookup_lt_is_Some_2 files (Z.to_nat i)) as [f Hf]; [unfold len in Hi; lia|].
    apply elem_of_range in Hrn as Hrn'. rewrite <- (Z2Nat.id i) by lia. apply (Hr _ f r Hf Hrn').
    eapply Forall_lookup_1 in Hall; [|exact Hf]. by eapply Forall_forall in Hall.
Qed.

(** ** Theorems *)

(** C10. [Sequential] computes the map-reduce of its inputs.  A job as [job_ok]
    has it (a positive number of reduce tasks, every file of the job can be
    created, no intermediate file is left over from an earlier job, no input is
    an intermediate file of the job, keys and values are valid UTF-8) ends
    without a panic or a fatal error, its output file holds exactly one
    line per key of any map call, in order, with the reduction of all values
    for that key in the order of the inputs (whatever the number of reduce
    tasks), and no file outside the job is touched. *)
Theorem sequential_correct {J : Json} {JO : JsonOk} creatable job n mapF reduceF files d :
  job_ok creatable job n mapF reduceF files d →
  ∃ d', Sequential creatable job files n mapF reduceF d = Ok d' ∧
    d' !! outputName job = Some (report reduceF (allPairs mapF d files)) ∧
    ∀ name, name ≠ outputName job → ¬ jobName_of job name → d' !! name = d !! name.
Proof.
  intros H. destruct (sequential_done creatable job n mapF reduceF files d H) as (d' & ? & [? _ _ ?]). eauto.
Qed.

(** C31. After a job as [job_ok] has it (a positive number of reduce tasks, every
    file of the job can be created, no intermediate file is left over from an
    earlier job, no input is an intermediate file of the job, keys and values
    are valid UTF-8), [CleanupFiles] succeeds exactly when every map task had at
    least one pair for every reduce task; otherwise the intermediate file was
    never created and the program stops.  When it succeeds, the files of the
    job are gone and the others are as before the job. *)
Theorem cleanup_after_job {J : Json} {JO : JsonOk} creatable job n mapF reduceF files d :
  job_ok creatable job n mapF reduceF files d →
  ∃ d', Sequential creatable job files n mapF reduceF d = Ok d' ∧
    if decide (Forall (λ f, Forall (λ r, bucket n r (mapPairs mapF d f) ≠ []) (range n)) files)
    then ∃ d'', CleanupFiles job files n d' = Ok d'' ∧
           (∀ name, name ∈ cleanupNames job files n → d'' !! name = None) ∧
           (∀ name, name ≠ outputName job → ¬ jobName_of job name → d'' !! name = d !! name)
    else CleanupFiles job files n d' = Fatal.
Proof.
  intros H. destruct (sequential_done creatable job n mapF reduceF files d H) as (d' & Hs & Hd).
  exists d'. split; [done|]. rewrite CleanupFiles_flat, removeAll_spec by apply cleanupNames_NoDup.
  pose proof (cleanupNames_exist job n mapF reduceF files d d' Hd) as Hiff.
  destruct (decide (Forall (λ f, _) files)) as [Hall|Hall].
  - rewrite decide_True by (by apply Hiff). eexists. split; [done|].
    split; intros name; rewrite foldr_delete_lookup.
    + intros Hin. by rewrite decide_True by (by apply elem_of_reverse).
    + intros Hne Hnot. rewrite decide_False by (intros [?|?]%elem_of_reverse%cleanupNames_job; done).
      by apply (jd_other _ _ _ _ _ _ _ Hd).
  - rewrite decide_False; [done|]. by rewrite Hiff.
Qed.
