(* ===== verification/MRApps.v ===== *)
(** * The MapReduce applications: word count and inverted index

    src/src/main/wc.go and src/src/main/ii.go.  Words are cut out of the text
    by [strings.FieldsFunc], which walks over the runes of its argument as Go's
    [range] does; which runes are letters ([unicode.IsLetter]) is a parameter,
    and no property depends on it. *)
From S2P Require Import Prelude GoStrings MRFiles MRTasks MRSpec.

(** ** strings.FieldsFunc *)

(** [cur] is the field being read, if any. *)
Fixpoint fieldsLoop (f : Z → bool) (rs : list (Z * string)) (cur : option string) : list string :=
  match rs with
  | [] => option_list cur
  | (r, bs) :: rs =>
    if f r then option_list cur ++ fieldsLoop f rs None
    else fieldsLoop f rs (Some (default "" cur +:+ bs))
  end.

Definition FieldsFunc (s : string) (f : Z → bool) : list string := fieldsLoop f (runes s) None.

Section apps.
Context (isLetter : Z → bool).

Definition words (text : string) : list string := FieldsFunc text (λ r, negb (isLetter r)).

(** ** Word count *)

Definition wcMap (document value : string) : list KeyValue :=
  foldl (λ pairs word, pairs ++ [mkKV word "1"]) [] (words value).

(** 64-bit wrap-around of [int]. *)
Definition wrap64 (z : Z) : Z := (z + 2 ^ 63) mod 2 ^ 64 - 2 ^ 63.

Definition wcReduce (key : string) (values : list string) : string :=
  Itoa (foldl (λ count val, wrap64 (count + Atoi val)) 0 values).

(** ** Inverted index *)

(** One turn of the loop over the words. *)
Definition iiStep (document : string) (st : list KeyValue * gset string) (word : string)
    : list KeyValue * gset string :=
  let '(pairs, alreadyread) := st in
  if decide (word ∈ alreadyread) then (pairs, alreadyread)
  else (pairs ++ [mkKV word document], {[word]} ∪ alreadyread).

Definition iiMap (document value : string) : list KeyValue :=
  (foldl (iiStep document) ([], ∅) (words value)).1.

Definition iiReduce (key : string) (values : list string) : string :=
  let docs := foldl (λ docs val, docs ++ [val]) [] values in
  let docs := sortStrings docs in
  Itoa (len docs) +:+ " " +:+ Join docs ",".

(** ** Lemmas *)

Lemma foldl_snoc {A B} (f : A → B) (l : list A) acc :
  foldl (λ out x, out ++ [f x]) acc l = acc ++ (f <$> l).
Proof.
  revert acc. induction l as [|x l IH]; intros acc; simpl; [by rewrite app_nil_r|].
  by rewrite IH, <- app_assoc.
Qed.

Lemma wcMap_words document value : wcMap document value = (λ w, mkKV w "1") <$> words value.
Proof. unfold wcMap. by rewrite foldl_snoc. Qed.

(** How often [w] occurs among words. *)
Definition occurrences (w : string) (ws : list string) : Z := len (filter (λ x, x = w) ws).

Lemma values_ones w ws :
  values w ((λ w, mkKV w "1") <$> ws) = replicate (length (filter (λ x, x = w) ws)) "1".
Proof.
  unfold values. induction ws as [|x ws IH]; [done|]. rewrite fmap_cons, !filter_cons.
  cbn [kvKey]. case_decide; [|exact IH]. by rewrite fmap_cons, IH.
Qed.

Lemma wcReduce_ones w k :
  Z.of_nat k < 2 ^ 63 → wcReduce w (replicate k "1") = Itoa (Z.of_nat k).
Proof.
  unfold wcReduce. intros Hk. f_equal.
  assert (∀ j, (j ≤ k)%nat → foldl (λ count val, wrap64 (count + Atoi val)) 0 (replicate j "1") = Z.of_nat j)
    as H; [|by apply H].
  induction j as [|j IH]; intros Hj; [done|].
  rewrite replicate_S_end, foldl_app, IH by lia. cbn [foldl].
  change (Atoi "1") with 1. unfold wrap64. rewrite Z.mod_small; lia.
Qed.

(** The words of all input files. *)
Definition allWords (d : fs) (files : list string) : list string :=
  files ≫= λ f, words (default "" (d !! f)).

Lemma wc_allPairs d files :
  allPairs wcMap d files = (λ w, mkKV w "1") <$> allWords d files.
Proof.
  unfold allPairs, allWords, mapPairs. induction files as [|f files IH]; [done|].
  by rewrite !bind_cons, IH, wcMap_words, fmap_app.
Qed.

(** The distinct words, sorted. *)
Definition vocabulary (ws : list string) : list string :=
  sortStrings (elements (list_to_set ws : gset string)).

Lemma keys_words v ws : keys ((λ w, mkKV w v) <$> ws) = vocabulary ws.
Proof. unfold keys, vocabulary. rewrite <- list_fmap_compose. do 3 f_equal. by rewrite list_fmap_id. Qed.

Lemma occurrences_bound w ws : occurrences w ws ≤ len ws.
Proof. unfold occurrences, len. pose proof (length_filter (λ x, x = w) ws). lia. Qed.

(** ** Fields *)

(** [segmented f rs ws]: [ws] are the maximal runs of runes that are not in [f]. *)
Inductive segmented (f : Z → bool) : list (Z * string) → list string → Prop :=
| seg_end gap : Forall (λ x, f x.1 = true) gap → segmented f gap []
| seg_word gap grp rest ws :
    Forall (λ x, f x.1 = true) gap →
    grp ≠ [] → Forall (λ x, f x.1 = false) grp →
    (∀ x, head rest = Some x → f x.1 = true) → segmented f rest ws →
    segmented f (gap ++ grp ++ rest) (concatStrings (snd <$> grp) :: ws).

Lemma segmented_gap f x rs ws : f x.1 = true → segmented f rs ws → segmented f (x :: rs) ws.
Proof.
  intros Hx. destruct 1 as [gap Hg|gap grp rest ws Hg Hne Hl Hr Hs].
  - apply seg_end. by constructor.
  - apply (seg_word f (x :: gap)); [by constructor|done..].
Qed.

(** The loop state: no word is open, or [grp] is the open one. *)
Lemma fieldsLoop_segmented f rs cur :
  match cur with
  | None => segmented f rs (fieldsLoop f rs None)
  | Some c => ∀ grp, grp ≠ [] → Forall (λ x, f x.1 = false) grp → c = concatStrings (snd <$> grp) →
      segmented f (grp ++ rs) (fieldsLoop f rs (Some c))
  end.
Proof.
  revert cur. induction rs as [|[r bs] rs IH]; intros cur.
  - destruct cur as [c|]; [|by apply seg_end]. intros grp Hne Hl ->.
    by apply (seg_word f [] grp []); [..|apply seg_end].
  - cbn [fieldsLoop]. destruct (f r) eqn:E; destruct cur as [c|].
    + intros grp Hne Hl ->. apply (seg_word f [] grp); [done..| |].
      * by intros x [= <-].
      * apply segmented_gap; [done|]. apply (IH None).
    + apply segmented_gap; [done|]. apply (IH None).
    + intros grp Hne Hl ->. cbn [default]. rewrite (cons_middle (r, bs)), app_assoc.
      apply (IH (Some _)); [by destruct grp|by apply Forall_app; repeat constructor|].
      rewrite fmap_app, concatStrings_app. unfold concatStrings. simpl. by rewrite string_app_nil_r.
    + apply (IH (Some _) [(r, bs)]); [done|by repeat constructor|]. unfold concatStrings. simpl.
      by rewrite string_app_nil_r.
Qed.

(** ** Inverted index *)

Lemma iiMap_spec document value :
  ∃ ws, iiMap document value = (λ w, mkKV w document) <$> ws ∧ NoDup ws ∧
        ∀ w, w ∈ ws ↔ w ∈ words value.
Proof.
  unfold iiMap.
  assert (∀ todo done, NoDup done →
    ∃ ws, (foldl (iiStep document) ((λ w, mkKV w document) <$> done, list_to_set done) todo).1 =
            (λ w, mkKV w document) <$> ws ∧ NoDup ws ∧ ∀ w, w ∈ ws ↔ w ∈ done ∨ w ∈ todo) as H.
  { induction todo as [|x todo IH]; intros done Hnd; simpl; [exists done; set_solver|].
    case_decide as Hx.
    - destruct (IH done Hnd) as (ws & ? & ? & Hw). exists ws. split_and!; [done..|].
      intros w. rewrite Hw. set_solver.
    - destruct (IH (done ++ [x])) as (ws & Hws & ? & Hw).
      { apply NoDup_app. split_and!; [done|set_solver|apply NoDup_singleton]. }
      exists ws. split_and!; [|done|intros w; rewrite Hw; set_solver].
      rewrite <- Hws, fmap_app.
      by assert ((list_to_set (done ++ [x]) : gset string) = {[x]} ∪ list_to_set done) as -> by set_solver. }
  destruct (H (words value) [] (NoDup_nil_2)) as (ws & Hws & ? & Hw). exists ws. split_and!; [exact Hws|done|].
  intros w. rewrite Hw. set_solver.
Qed.

Lemma iiMap_values document value w :
  values w (iiMap document value) = if decide (w ∈ words value) then [document] else [].
Proof.
  destruct (iiMap_spec document value) as (ws & -> & Hnd & Hw).
  assert (values w ((λ w, mkKV w document) <$> ws) = if decide (w ∈ ws) then [document] else []) as ->.
  { clear Hw. induction Hnd as [|x ws Hx _ IH]; [done|]. unfold values in *. rewrite fmap_cons, filter_cons.
    cbn [kvKey]. destruct (decide (x = w)) as [->|Hne].
    - rewrite fmap_cons, IH. rewrite decide_False by done. by rewrite decide_True by set_solver.
    - rewrite IH. repeat case_decide; set_solver. }
  specialize (Hw w). repeat case_decide; tauto.
Qed.

(** The input files that contain [w]. *)
Definition containing (d : fs) (w : string) (files : list string) : list string :=
  filter (λ f, w ∈ words (default "" (d !! f))) files.

Lemma values_app w l k : values w (l ++ k) = values w l ++ values w k.
Proof. unfold values. by rewrite filter_app, fmap_app. Qed.

Lemma ii_values d files w : values w (allPairs iiMap d files) = containing d w files.
Proof.
  unfold allPairs, containing, mapPairs. induction files as [|f files IH]; [done|].
  rewrite bind_cons, values_app, IH, iiMap_values, filter_cons. by case_decide.
Qed.

Lemma ii_keys d files : keys (allPairs iiMap d files) = vocabulary (allWords d files).
Proof.
  unfold keys, vocabulary. do 2 f_equal. apply set_eq. intros w. rewrite !elem_of_list_to_set.
  assert (∀ l, w ∈ kvKey <$> l ↔ values w l ≠ []) as ->.
  { intros l. rewrite values_nil. split; [tauto|apply dec_stable]. }
  rewrite ii_values.
  unfold containing, allWords. rewrite list_elem_of_bind. split.
  - intros H. destruct (filter _ files) as [|f l] eqn:E; [done|].
    assert (f ∈ f :: l) as Hf by set_solver. rewrite <- E in Hf. apply list_elem_of_filter in Hf. naive_solver.
  - intros (f & Hw & Hf) E.
    assert (f ∈ filter (λ f, w ∈ words (default "" (d !! f))) files) as Hin by (by apply list_elem_of_filter).
    rewrite E in Hin. by apply elem_of_nil in Hin.
Qed.

(** ** Theorems *)

(** What word count reports of its inputs. *)
Lemma wc_counts d files :
  len (allWords d files) < 2 ^ 63 →
  report wcReduce (allPairs wcMap d files) =
    concatStrings ((λ w, line w (Itoa (occurrences w (allWords d files)))) <$> vocabulary (allWords d files)).
Proof.
  intros Hlen. unfold report. rewrite wc_allPairs, keys_words. f_equal. apply list_fmap_ext.
  intros i w _. rewrite values_ones, wcReduce_ones; [done|].
  pose proof (occurrences_bound w (allWords d files)). unfold occurrences, len in *. lia.
Qed.

(** Inverted index: a sequential index job ends, and its output file has,
    for every distinct word of the input files in sorted order, one line with
    how many of the files contain it and the sorted list of their names. *)
Lemma ii_report {J : Json} {JO : JsonOk} creatable job n files d :
  job_ok creatable job n iiMap iiReduce files d →
  ∃ d', Sequential creatable job files n iiMap iiReduce d = Ok d' ∧
    d' !! outputName job = Some
      (concatStrings ((λ w, let docs := sortStrings (containing d w files) in
                            line w (Itoa (len docs) +:+ " " +:+ Join docs ",")) <$>
                      vocabulary (allWords d files))).
Proof.
  intros Hjob. destruct (sequential_done creatable job n iiMap iiReduce files d Hjob) as (d' & Hd & [Ho _ _ _]).
  exists d'. split; [done|]. rewrite Ho. f_equal.
  unfold report. rewrite ii_keys. f_equal. apply list_fmap_ext. intros i w _.
  rewrite ii_values. unfold iiReduce. rewrite (foldl_snoc id). by rewrite list_fmap_id.
Qed.

(** Words are cut correctly: the pieces [range] decodes are non-empty and
    make up the text, and the words of a text are its maximal runs of letters,
    in order. *)
Lemma words_spec text :
  concatStrings (snd <$> runes text) = text ∧
  Forall (λ x, x.2 ≠ "") (runes text) ∧
  segmented (λ r, negb (isLetter r)) (runes text) (words text).
Proof.
  destruct (runes_spec text) as [Hne Hcat]. split_and!; [done..|]. apply (fieldsLoop_segmented _ _ None).
Qed.
End apps.
