(* ===== verification/MRSchedule.v ===== *)
(** * MapReduce: the distributed scheduler

    [schedule] (src/src/mapreduce/schedule.go), [Register] (master.go),
    [DoTask] (worker.go) and [call] (common_rpc.go), as a transition system.
    Each task of a phase has a goroutine that waits for a worker on the
    register channel, calls it, and on failure starts over with another
    worker; a worker goes back to the channel only after it succeeded.  In this
    file one execution of a task is one step, and a call fails before it or
    after it, so that the task may be executed again; MRDistributed.v has calls
    that fail while the task is being executed. *)
From S2P Require Import Prelude GoStrings MRFiles MRTasks MRSpec.

Record DoTaskArgs := mkTaskArgs {
  tJobName : string; tFile : string; tPhase : jobPhase; tTaskNumber : Z; tNumOtherPhase : Z
}.

(** A task goroutine: waiting for a worker, calling one (the flag says whether
    the worker has executed the task), or done. *)
Inductive taskState := TWaiting | TCalling (worker : string) (executed : bool) | TDone.

#[export] Instance taskState_eq_dec : EqDecision taskState.
Proof. solve_decision. Defined.

Record sched := mkSched {
  sfs : fs;
  idle : list string;          (* workers sent, or being sent, on the register channel *)
  tasks : list taskState       (* of the current phase, by task number *)
}.

Inductive slabel :=
| SRegister (w : string)
| SAssign (t k : nat)
| SExec (t : nat)
| SOk (t : nat)
| SFail (t : nat).

Section schedule.
Context {J : Json} (creatable : string → bool) (job : string) (files : list string) (nReduce : Z).
Context (mapF : string → string → list KeyValue) (reduceF : string → list string → string).

Definition DoTask (arg : DoTaskArgs) (d : fs) : result fs :=
  match arg.(tPhase) with
  | mapPhase =>
    doMap creatable arg.(tJobName) arg.(tTaskNumber) arg.(tFile) arg.(tNumOtherPhase) mapF d
  | reducePhase =>
    Ok (doReduce creatable arg.(tJobName) arg.(tTaskNumber) arg.(tNumOtherPhase) reduceF d)
  end.

Definition ntasks (phase : jobPhase) : Z :=
  match phase with mapPhase => len files | reducePhase => nReduce end.
Definition nios (phase : jobPhase) : Z :=
  match phase with mapPhase => nReduce | reducePhase => len files end.

(** The arguments of task [t]; [mr.files[task]] is in range for a map task. *)
Definition taskArgs (phase : jobPhase) (t : nat) : option DoTaskArgs :=
  file ← (match phase with
          | mapPhase => slice_get files (Z.of_nat t)
          | reducePhase => Some ""
          end);
  Some (mkTaskArgs job file phase (Z.of_nat t) (nios phase)).

Lemma taskArgs_total phase t : Z.of_nat t < ntasks phase → ∃ arg, taskArgs phase t = Some arg.
Proof.
  unfold taskArgs. destruct phase; simpl; [|by eauto]. intros Ht.
  destruct (slice_get_inr files (Z.of_nat t)) as [f ->]; [lia|]. simpl. eauto.
Qed.

(** The workers' file system after an execution. *)
Definition execute (arg : DoTaskArgs) (d : fs) : outcome fs :=
  outcome_of (DoTask arg d).

Definition set_task (t : nat) (s : taskState) (w : sched) : sched :=
  mkSched w.(sfs) w.(idle) (<[t := s]> w.(tasks)).

Definition schedStep (phase : jobPhase) (w : sched) (l : slabel) : outcome sched :=
  (match l with
   | SRegister wk => Done (mkSched w.(sfs) (w.(idle) ++ [wk]) w.(tasks))
   | SAssign t k =>
     s <~ enabled (w.(tasks) !! t);
     wk <~ enabled (w.(idle) !! k);
     match s with
     | TWaiting =>
       let w := mkSched w.(sfs) (delete k w.(idle)) w.(tasks) in
       Done (set_task t (TCalling wk false) w)
     | _ => Disabled
     end
   | SExec t =>
     s <~ enabled (w.(tasks) !! t);
     match s with
     | TCalling wk false =>
       arg <~ program (taskArgs phase t);
       d <~ execute arg w.(sfs);
       Done (set_task t (TCalling wk true) (mkSched d w.(idle) w.(tasks)))
     | _ => Disabled
     end
   | SOk t =>
     s <~ enabled (w.(tasks) !! t);
     match s with
     | TCalling wk true =>
       Done (set_task t TDone (mkSched w.(sfs) (w.(idle) ++ [wk]) w.(tasks)))
     | _ => Disabled
     end
   | SFail t =>
     s <~ enabled (w.(tasks) !! t);
     match s with
     | TCalling _ _ => Done (set_task t TWaiting w)
     | _ => Disabled
     end
   end)%outcome.

(** The state a phase starts in, and in which it returns: one message per task
    on [doneChan]. *)
Definition startPhase (phase : jobPhase) (w : sched) : sched :=
  mkSched w.(sfs) w.(idle) (replicate (Z.to_nat (ntasks phase)) TWaiting).

Definition allDone (w : sched) : Prop := Forall (λ s, s = TDone) w.(tasks).

Definition schedSteps (phase : jobPhase) : sched → sched → Prop :=
  rtc (λ w w', ∃ l, schedStep phase w l = Done w').

(** [schedule(phase)], from [w] to [w']. *)
Definition schedule (phase : jobPhase) (w w' : sched) : Prop :=
  schedSteps phase (startPhase phase w) w' ∧ allDone w'.

(** ** One phase

    [P X d]: the file system [d] when the tasks in [X] have been executed at
    least once. *)
Section phase.
Context (phase : jobPhase) (P : gset nat → fs → Prop).
Context (Pexec : ∀ X d t arg, Z.of_nat t < ntasks phase → taskArgs phase t = Some arg → P X d →
                   ∃ d', DoTask arg d = Ok d' ∧ P ({[t]} ∪ X) d').

Definition hasRun (s : taskState) : bool :=
  match s with TDone => true | TCalling _ executed => executed | TWaiting => false end.

Record phase_ok (w : sched) : Prop := {
  po_len : Z.of_nat (length w.(tasks)) = Z.max 0 (ntasks phase);
  po_fs : ∃ X, P X w.(sfs) ∧ ∀ t s, w.(tasks) !! t = Some s → hasRun s = true → t ∈ X
}.

Lemma po_task w t s : phase_ok w → w.(tasks) !! t = Some s → Z.of_nat t < ntasks phase.
Proof. intros [Hl _] Ht%lookup_lt_Some. lia. Qed.

(** A step that leaves the files alone, and turns task [t] into [s']. *)
Lemma phase_ok_task w w' t s s' :
  phase_ok w → w.(tasks) !! t = Some s → w'.(tasks) = <[t := s']> w.(tasks) →
  w'.(sfs) = w.(sfs) → (hasRun s' = true → hasRun s = true) → phase_ok w'.
Proof.
  intros [Hl (X & HP & HX)] Ht Et Ef Hr. split; [by rewrite Et, length_insert|].
  exists X. rewrite Ef, Et. split; [done|]. intros t' s1 H1 Hrun.
  destruct (decide (t' = t)) as [->|Hne].
  - rewrite list_lookup_insert_eq in H1 by (by eapply lookup_lt_Some). simplify_eq. eauto.
  - rewrite list_lookup_insert_ne in H1 by done. eauto.
Qed.

Lemma schedStep_ok w l :
  phase_ok w → match schedStep phase w l with Done w' => phase_ok w' | Disabled => True | Panicked => False end.
Proof.
  intros Hw. pose proof Hw as [Hl (X & HP & HX)].
  destruct l as [wk|t k|t|t|t]; simpl.
  - split; [done|]. by exists X.
  - destruct (tasks w !! t) as [s|] eqn:Ht; simpl; [|done].
    destruct (idle w !! k) as [wk|]; simpl; [|done]. destruct s; simpl; [|done..].
    by eapply phase_ok_task.
  - destruct (tasks w !! t) as [s|] eqn:Ht; simpl; [|done]. destruct s as [|wk []|]; simpl; [done..| |done].
    pose proof (po_task w t _ Hw Ht) as Hn. destruct (taskArgs_total phase t Hn) as [arg Ha]. rewrite Ha. simpl.
    unfold execute. destruct (Pexec X (sfs w) t arg Hn Ha HP) as (d' & -> & HP'). simpl.
    split; [by simpl; rewrite length_insert|]. exists ({[t]} ∪ X). split; [done|].
    simpl. intros t' s1 H1 Hrun. destruct (decide (t' = t)) as [->|Hne]; [set_solver|].
    rewrite list_lookup_insert_ne in H1 by done. specialize (HX _ _ H1 Hrun). set_solver.
  - destruct (tasks w !! t) as [s|] eqn:Ht; simpl; [|done]. destruct s as [|wk []|]; simpl; [done| |done..].
    by eapply phase_ok_task.
  - destruct (tasks w !! t) as [s|] eqn:Ht; simpl; [|done]. destruct s as [|wk b|]; simpl; [done| |done].
    by eapply phase_ok_task.
Qed.

Lemma schedSteps_ok w w' : phase_ok w → schedSteps phase w w' → phase_ok w'.
Proof.
  intros Hw Hs. induction Hs as [|w1 w2 w3 [l Hl] _ IH]; [done|]. apply IH.
  pose proof (schedStep_ok w1 l Hw) as H. by rewrite Hl in H.
Qed.

(** When the phase returns every task has been executed. *)
Lemma phase_returns w :
  phase_ok w → allDone w → ∃ X, P X w.(sfs) ∧ ∀ t, Z.of_nat t < ntasks phase → t ∈ X.
Proof.
  intros [Hl (X & HP & HX)] Hd. exists X. split; [done|]. intros t Ht.
  destruct (lookup_lt_is_Some_2 (tasks w) t) as [s Hs]; [lia|].
  eapply Forall_lookup_1 in Hd; [|exact Hs]. subst. by eapply HX.
Qed.

Lemma startPhase_ok w : P ∅ w.(sfs) → phase_ok (startPhase phase w).
Proof.
  intros HP. split; simpl; [rewrite length_replicate; lia|]. exists ∅. split; [done|].
  intros t s [-> _]%lookup_replicate. done.
Qed.

(** *** Progress *)

(** How many tasks are left. *)
Definition remaining (w : sched) : nat := length (filter (λ s, s ≠ TDone) w.(tasks)).

(** Somebody is there to do the work: a worker on the channel, or one with a
    task. *)
Definition manned (w : sched) : Prop :=
  w.(idle) ≠ [] ∨ ∃ t wk b, w.(tasks) !! t = Some (TCalling wk b).

Lemma remaining_insert w t s s' :
  w.(tasks) !! t = Some s → s ≠ TDone →
  length (filter (λ s, s ≠ TDone) (<[t := s']> w.(tasks))) =
    if decide (s' = TDone) then pred (remaining w) else remaining w.
Proof.
  intros Ht Hs.
  assert (∀ x, length (filter (λ s, s ≠ TDone) (take t (tasks w) ++ x :: drop (S t) (tasks w))) =
    (length (filter (λ s, s ≠ TDone) (take t (tasks w))) + length (filter (λ s, s ≠ TDone) (drop (S t) (tasks w))) +
     if decide (x = TDone) then 0 else 1)%nat) as Hlen.
  { intros x. rewrite filter_app, filter_cons, length_app.
    destruct (decide (x = TDone)) as [->|Hx].
    - rewrite decide_False by tauto. lia.
    - rewrite decide_True by done. simpl. lia. }
  unfold remaining. pose proof (Hlen s) as Hl. rewrite take_drop_middle in Hl by done.
  rewrite insert_take_drop by (by eapply lookup_lt_Some). rewrite Hlen, Hl.
  rewrite (decide_False (P := s = TDone)) by done. destruct (decide (s' = TDone)); lia.
Qed.

Lemma remaining_pos w t s : w.(tasks) !! t = Some s → s ≠ TDone → remaining w ≠ 0%nat.
Proof.
  intros Ht Hs. unfold remaining. intros E%length_zero_iff_nil.
  assert (s ∈ filter (λ s, s ≠ TDone) (tasks w)) as Hin.
  { apply list_elem_of_filter. split; [done|]. by eapply list_elem_of_lookup_2. }
  rewrite E in Hin. by apply elem_of_nil in Hin.
Qed.

(** Once a call is out it can run to its end, after which its worker is idle. *)
Lemma finish_call w t wk b :
  phase_ok w → w.(tasks) !! t = Some (TCalling wk b) →
  ∃ w', schedSteps phase w w' ∧ w'.(idle) ≠ [] ∧ S (remaining w') = remaining w.
Proof.
  intros Hw Ht.
  assert (∀ w, phase_ok w → tasks w !! t = Some (TCalling wk true) →
    ∃ w', schedSteps phase w w' ∧ idle w' ≠ [] ∧ S (remaining w') = remaining w) as Hok.
  { clear w Hw Ht. intros w Hw Ht.
    exists (set_task t TDone (mkSched (sfs w) (idle w ++ [wk]) (tasks w))). split_and!.
    - apply rtc_once. exists (SOk t). simpl. by rewrite Ht.
    - simpl. by destruct (idle w).
    - unfold remaining at 1. simpl. rewrite (remaining_insert w t _ TDone Ht) by done. rewrite decide_True by done.
      pose proof (remaining_pos w t _ Ht). assert (remaining w ≠ 0%nat) by auto. lia. }
  destruct b; [by apply Hok|].
  assert (∃ w1, schedStep phase w (SExec t) = Done w1 ∧ tasks w1 = <[t := TCalling wk true]> (tasks w)) as (w1 & Hs & Et).
  { pose proof (po_task w t _ Hw Ht) as Hn. destruct (taskArgs_total phase t Hn) as [arg Ha].
    destruct (po_fs _ Hw) as (X & HP & _). destruct (Pexec X (sfs w) t arg Hn Ha HP) as (d' & Hd & _).
    simpl. rewrite Ht. simpl. rewrite Ha. simpl. unfold execute. rewrite Hd. simpl. by eexists. }
  destruct (Hok w1) as (w' & ? & ? & Hleft).
  - pose proof (schedStep_ok w (SExec t) Hw) as H. by rewrite Hs in H.
  - rewrite Et. apply list_lookup_insert_eq. by eapply lookup_lt_Some.
  - exists w'. split_and!; [|done|].
    + eapply rtc_l; [by exists (SExec t)|done].
    + rewrite Hleft. unfold remaining at 1. rewrite Et. by rewrite (remaining_insert w t _ (TCalling wk true) Ht).
Qed.

(** From a manned state with tasks left, one more task can be finished. *)
Lemma finish_one w :
  phase_ok w → manned w → remaining w ≠ 0%nat →
  ∃ w', schedSteps phase w w' ∧ w'.(idle) ≠ [] ∧ S (remaining w') = remaining w.
Proof.
  intros Hw Hm Hl.
  destruct (decide (filter (λ s, s ≠ TDone) (tasks w) = [])) as [E|E].
  { exfalso. apply Hl. unfold remaining. by rewrite E. }
  destruct Hm as [Hi|(t & wk & b & Ht)]; [|by eapply finish_call].
  destruct (filter (λ s, s ≠ TDone) (tasks w)) as [|s l] eqn:Ef; [done|].
  assert (s ∈ s :: l) as Hs by set_solver. rewrite <- Ef in Hs.
  apply list_elem_of_filter in Hs as [Hs (t & Ht)%list_elem_of_lookup_1].
  destruct s as [|wk b|]; [|by eapply finish_call|done].
  destruct (idle w) as [|wk ws] eqn:Ei; [done|].
  assert (∃ w1, schedStep phase w (SAssign t 0) = Done w1 ∧ tasks w1 = <[t := TCalling wk false]> (tasks w)) as (w1 & Hs1 & Et).
  { simpl. rewrite Ht, Ei. simpl. by eexists. }
  destruct (finish_call w1 t wk false) as (w' & Hs' & Hi' & Hleft).
  - pose proof (schedStep_ok w (SAssign t 0) Hw) as H. by rewrite Hs1 in H.
  - rewrite Et. apply list_lookup_insert_eq. by eapply lookup_lt_Some.
  - exists w'. split_and!; [by eapply rtc_l; [exists (SAssign t 0)|]|done|].
    rewrite Hleft. unfold remaining at 1. rewrite Et. by rewrite (remaining_insert w t _ (TCalling wk false) Ht).
Qed.

Lemma can_finish w :
  phase_ok w → manned w →
  ∃ w', schedSteps phase w w' ∧ allDone w' ∧ (w'.(idle) ≠ [] ∨ w' = w).
Proof.
  remember (remaining w) as n eqn:Hn. revert w Hn. induction n as [|n IH]; intros w Hn Hw Hm.
  { exists w. split_and!; [done| |by right]. apply Forall_lookup_2. intros t s Hs.
    destruct (decide (s = TDone)); [done|]. by destruct (remaining_pos w t s). }
  destruct (finish_one w Hw Hm) as (w1 & Hs1 & Hi1 & Hl1); [lia|].
  destruct (IH w1) as (w2 & Hs2 & Hd2 & Hi2); [lia|by eapply schedSteps_ok|by left|].
  exists w2. split_and!; [by etrans|done|]. left. by destruct Hi2 as [?| ->].
Qed.
End phase.

(** ** The two phases of a job *)

Context {JO : JsonOk}.
Context (d0 : fs) (Hjob : job_ok creatable job nReduce mapF reduceF files d0).

(** The intermediate file of map task [i] for reduce task [r] at the end. *)
Definition mapOutput (i : nat) (f : string) (r : Z) : option string :=
  if decide (bucket nReduce r (mapPairs mapF d0 f) = []) then d0 !! reduceName job (Z.of_nat i) r
  else Some (encodeAll (bucket nReduce r (mapPairs mapF d0 f))).

Record mapProgress (X : gset nat) (d : fs) : Prop := {
  mg_done : ∀ i f r, i ∈ X → files !! i = Some f → 0 ≤ r < nReduce →
    d !! reduceName job (Z.of_nat i) r = mapOutput i f r;
  mg_some : ∀ i f r, files !! i = Some f → 0 ≤ r < nReduce →
    d !! reduceName job (Z.of_nat i) r = mapOutput i f r ∨
    d !! reduceName job (Z.of_nat i) r = d0 !! reduceName job (Z.of_nat i) r;
  mg_other : ∀ name, (∀ i r, (i < length files)%nat → 0 ≤ r < nReduce →
                        name ≠ reduceName job (Z.of_nat i) r) → d !! name = d0 !! name
}.

Lemma taskArgs_map t arg :
  taskArgs mapPhase t = Some arg →
  ∃ f, files !! t = Some f ∧ arg = mkTaskArgs job f mapPhase (Z.of_nat t) nReduce.
Proof.
  unfold taskArgs. intros (f & [_ Hf]%slice_get_lookup & [= <-])%bind_Some.
  rewrite Nat2Z.id in Hf. eauto.
Qed.

(** An execution of a map task, whatever has been executed before. *)
Lemma map_exec X d t arg :
  taskArgs mapPhase t = Some arg → mapProgress X d →
  ∃ d', DoTask arg d = Ok d' ∧ mapProgress ({[t]} ∪ X) d'.
Proof using All.
  intros (f & Hf & ->)%taskArgs_map [Hd Hs Ho]. destruct Hjob as [Hn Hcr _ _ Hin _ _ _].
  unfold DoTask. simpl.
  destruct (doMap_mapped creatable job nReduce Hn Hcr (Z.of_nat t) f mapF d) as (d' & -> & [Mo Mr]); [lia|].
  exists d'. split; [done|].
  assert (d !! f = d0 !! f) as Ef.
  { apply Ho. intros i r _ _. eapply Forall_lookup_1 in Hin; [|exact Hf]. apply Hin. lia. }
  rewrite Ef in Mo. fold (mapPairs mapF d0 f) in Mo.
  assert (∀ r, 0 ≤ r < nReduce → d' !! reduceName job (Z.of_nat t) r = mapOutput t f r) as Hnew.
  { intros r Hr. rewrite (Mo r Hr). unfold mapOutput. case_decide as Hb; [|done].
    destruct (Hs t f r Hf Hr) as [E|E]; rewrite E; [|done]. unfold mapOutput. by rewrite decide_True. }
  assert (∀ i r, i ≠ t → d' !! reduceName job (Z.of_nat i) r = d !! reduceName job (Z.of_nat i) r) as Hold.
  { intros i r Hne. apply Mr. intros r' _ [??]%reduceName_inj; lia. }
  split.
  - intros i g r Hi Hg Hr. destruct (decide (i = t)) as [->|Hne]; [simplify_eq; auto|].
    rewrite Hold by done. apply Hd; [set_solver|done..].
  - intros i g r Hg Hr. destruct (decide (i = t)) as [->|Hne]; [simplify_eq; auto|].
    rewrite Hold by done. by apply Hs.
  - intros name Hname. rewrite Mr; [by apply Ho|]. intros r Hr.
    apply Hname; [by eapply lookup_lt_Some|done].
Qed.

Lemma mapProgress_start : mapProgress ∅ d0.
Proof. split; [set_solver|auto|auto]. Qed.

Lemma mapProgress_end X d :
  mapProgress X d → (∀ t, Z.of_nat t < len files → t ∈ X) → mapsDone job nReduce mapF d0 files d.
Proof.
  intros [Hd _ Ho] HX. split; [|done]. intros i f r Hf Hr. apply Hd; [|done..].
  apply HX. apply lookup_lt_Some in Hf. unfold len. lia.
Qed.

(** *** The reduce phase *)

Record reduceProgress (d1 : fs) (X : gset nat) (d : fs) : Prop := {
  rg_done : ∀ r : nat, r ∈ X → Z.of_nat r < nReduce →
    d !! mergeName job (Z.of_nat r) =
      Some (encodeAll (reduced reduceF (bucket nReduce (Z.of_nat r) (allPairs mapF d0 files))));
  rg_other : ∀ name, (∀ r, 0 ≤ r → name ≠ mergeName job r) → d !! name = d1 !! name
}.

Lemma taskArgs_reduce t arg :
  taskArgs reducePhase t = Some arg → arg = mkTaskArgs job "" reducePhase (Z.of_nat t) (len files).
Proof. unfold taskArgs. simpl. by intros [= <-]. Qed.

Lemma reduce_exec d1 X d t arg :
  mapsDone job nReduce mapF d0 files d1 → Z.of_nat t < nReduce →
  taskArgs reducePhase t = Some arg → reduceProgress d1 X d →
  ∃ d', DoTask arg d = Ok d' ∧ reduceProgress d1 ({[t]} ∪ X) d'.
Proof using All.
  intros Hm Ht ->%taskArgs_reduce [Hd Ho]. destruct Hjob as [Hn Hcr Hcm _ _ Hfr Hpv _].
  unfold DoTask. simpl. eexists. split; [done|]. rewrite (doReduce_spec creatable job Hcm).
  rewrite (reduceInput_ext job _ _ d1 d) by (intros; apply Ho; intros; by apply reduceName_mergeName).
  rewrite (reduceInput_bucket job nReduce mapF d0 files d1) by (done || lia). split.
  - intros r Hr Hrn. destruct (decide (r = t)) as [->|Hne]; [by rewrite lookup_insert_eq|].
    rewrite lookup_insert_ne by (intros ?%mergeName_inj; lia). apply Hd; [set_solver|done].
  - intros name Hname. rewrite lookup_insert_ne; [by apply Ho|]. apply not_eq_sym, Hname. lia.
Qed.

(** [schedule] in the map phase. *)
Lemma map_phase X d t arg :
  Z.of_nat t < ntasks mapPhase → taskArgs mapPhase t = Some arg → mapProgress X d →
  ∃ d', DoTask arg d = Ok d' ∧ mapProgress ({[t]} ∪ X) d'.
Proof using All. intros _. apply map_exec. Qed.

Lemma schedule_map w w' :
  w.(sfs) = d0 → schedule mapPhase w w' → mapsDone job nReduce mapF d0 files w'.(sfs).
Proof using All.
  intros Hd [Hs Hdone].
  assert (phase_ok mapPhase mapProgress w') as Hok.
  { eapply schedSteps_ok; [apply map_phase| |exact Hs]. apply startPhase_ok. rewrite Hd. apply mapProgress_start. }
  destruct (phase_returns _ _ _ Hok Hdone) as (X & HP & HX). by eapply mapProgress_end.
Qed.

(** [schedule] in the reduce phase. *)
Lemma schedule_reduce w w' :
  mapsDone job nReduce mapF d0 files w.(sfs) → schedule reducePhase w w' →
  ∀ r, 0 ≤ r < nReduce → w'.(sfs) !! mergeName job r =
    Some (encodeAll (reduced reduceF (bucket nReduce r (allPairs mapF d0 files)))).
Proof using All.
  intros Hm [Hs Hdone].
  assert (phase_ok reducePhase (reduceProgress w.(sfs)) w') as Hok.
  { eapply schedSteps_ok; [intros X d t arg Ht; by apply reduce_exec| |exact Hs]. apply startPhase_ok. by split; [set_solver|]. }
  destruct (phase_returns _ _ _ Hok Hdone) as (X & [HP _] & HX). intros r Hr.
  rewrite <- (Z2Nat.id r) by lia. apply HP; [apply HX; simpl; lia|lia].
Qed.

Lemma manned_idle w : manned w → allDone w → w.(idle) ≠ [].
Proof.
  intros [?|(t & wk & b & Ht)] Hd; [done|]. eapply Forall_lookup_1 in Hd; [|exact Ht]. done.
Qed.

(** A phase that is manned can be completed, and leaves a worker idle. *)
Lemma map_completes w w1 :
  w.(sfs) = d0 → schedSteps mapPhase (startPhase mapPhase w) w1 → manned w1 →
  ∃ w', schedSteps mapPhase w1 w' ∧ schedule mapPhase w w' ∧ w'.(idle) ≠ [].
Proof using All.
  intros Hd Hs Hm. destruct (can_finish mapPhase mapProgress map_phase w1) as (w' & Hs' & Hd' & Hi).
  - eapply schedSteps_ok; [apply map_phase| |exact Hs]. apply startPhase_ok. rewrite Hd. apply mapProgress_start.
  - done.
  - exists w'. split_and!; [done|by split; [etrans|]|]. destruct Hi as [?| ->]; [done|]. by apply manned_idle.
Qed.

Lemma reduce_completes w :
  mapsDone job nReduce mapF d0 files w.(sfs) → w.(idle) ≠ [] → ∃ w', schedule reducePhase w w'.
Proof using All.
  intros Hm Hi.
  destruct (can_finish reducePhase (reduceProgress w.(sfs)) (λ X d t arg Ht, reduce_exec _ X d t arg Hm Ht)
              (startPhase reducePhase w)) as (w' & Hs & Hd & _).
  - apply startPhase_ok. by split; [set_solver|].
  - by left.
  - by exists w'.
Qed.
End schedule.

(** ** Theorems *)

