(* ===== verification/MRShared.v ===== *)
(** * Files with several writers

    [os.Create] truncates the file and every descriptor has its own offset, so
    two executions of one task write the same bytes at the same places of one
    file, in any interleaving.  [guarded] is why the file still ends up right:
    the writer that opened it last has written everything up to its offset, and
    the others write only what it would write there.  The byte arrays are lists
    here; [WriteAt] is the operation on the file system. *)
From S2P Require Import Prelude GoStrings MRFiles.

Definition bytes (s : string) : list ascii := String.list_ascii_of_string s.
Definition unbytes (l : list ascii) : string := String.string_of_list_ascii l.

Definition nul : ascii := "000"%char.

(** Writing [data] at offset [o]; a gap before it is filled with zeros. *)
Definition overwrite (o : nat) (data c : list ascii) : list ascii :=
  take o (c ++ replicate (o - length c) nul) ++ data ++ drop (o + length data) c.

(** [Write] on a descriptor of [name] at offset [o]. *)
Definition WriteAt (creatable : string → bool) (name : string) (o : nat) (data : string) (d : fs) : fs :=
  if creatable name then alter (λ c, unbytes (overwrite o (bytes data) (bytes c))) name d else d.

Lemma bytes_unbytes l : bytes (unbytes l) = l.
Proof. apply String.list_ascii_of_string_of_list_ascii. Qed.

Lemma unbytes_bytes s : unbytes (bytes s) = s.
Proof. apply String.string_of_list_ascii_of_string. Qed.

Lemma bytes_app s t : bytes (s +:+ t) = bytes s ++ bytes t.
Proof. induction s as [|c s IH]; simpl; [done|]. by rewrite IH. Qed.

Lemma bytes_inj s t : bytes s = bytes t → s = t.
Proof. intros H. by rewrite <- (unbytes_bytes s), H, unbytes_bytes. Qed.

Lemma bytes_length s : length (bytes s) = String.length s.
Proof. induction s as [|c s IH]; simpl; [done|]. by rewrite IH. Qed.

(** ** One write *)

Lemma overwrite_length o data c : length (overwrite o data c) = Nat.max (o + length data) (length c).
Proof. unfold overwrite. rewrite !length_app, length_take, length_app, length_replicate, length_drop. lia. Qed.

Lemma overwrite_lookup o data c x :
  (x < length c ∨ x < o + length data)%nat →
  overwrite o data c !! x =
    if decide (x < o)%nat then (if decide (x < length c)%nat then c !! x else Some nul)
    else if decide (x < o + length data)%nat then data !! (x - o)%nat else c !! x.
Proof.
  intros Hx. unfold overwrite.
  assert (length (take o (c ++ replicate (o - length c) nul)) = o) as Hl
    by (rewrite length_take, length_app, length_replicate; lia).
  case_decide as Ho; [|case_decide as Hd].
  - rewrite lookup_app_l by lia. rewrite lookup_take_lt by lia. case_decide as Hc.
    + by rewrite lookup_app_l by lia.
    + rewrite lookup_app_r by lia. apply lookup_replicate. split; [done|lia].
  - rewrite lookup_app_r, Hl by lia. by rewrite lookup_app_l by lia.
  - rewrite lookup_app_r, Hl by lia. rewrite lookup_app_r by lia. rewrite lookup_drop. f_equal. lia.
Qed.

(** The first [o] bytes are those of [full]. *)
Definition agrees (o : nat) (c full : list ascii) : Prop :=
  (o ≤ length full)%nat ∧ ∀ x, (x < o)%nat → c !! x = full !! x.

Lemma agrees_length o c full : agrees o c full → (o ≤ length c)%nat.
Proof.
  intros [Hle H]. destruct o as [|o]; [lia|].
  destruct (lookup_lt_is_Some_2 full o) as [y Hy]; [lia|]. specialize (H o ltac:(lia)). rewrite Hy in H.
  apply lookup_lt_Some in H. lia.
Qed.

Lemma agrees_all c full : agrees (length full) c full → (length c ≤ length full)%nat → c = full.
Proof.
  intros H Hle. pose proof (agrees_length _ _ _ H). destruct H as [_ H]. apply list_eq. intros x.
  destruct (decide (x < length full)%nat); [by apply H|].
  rewrite !(proj2 (lookup_ge_None _ _)) by lia. done.
Qed.

(** A writer at offset [o] of [full] writes its next piece. *)
Lemma overwrite_agrees pre data post o c :
  agrees o c (pre ++ data ++ post) → agrees o (overwrite (length pre) data c) (pre ++ data ++ post).
Proof.
  intros H. pose proof (agrees_length _ _ _ H) as Hl. destruct H as [Hle H]. split; [done|]. intros x Hx.
  rewrite overwrite_lookup by lia. specialize (H x Hx). case_decide; [by rewrite decide_True by lia|].
  case_decide; [|done]. rewrite lookup_app_r by lia. by rewrite lookup_app_l by lia.
Qed.

Lemma overwrite_advances pre data post c :
  agrees (length pre) c (pre ++ data ++ post) →
  agrees (length pre + length data) (overwrite (length pre) data c) (pre ++ data ++ post).
Proof.
  intros H. pose proof (agrees_length _ _ _ H) as Hl. destruct H as [_ H]. split; [rewrite !length_app; lia|].
  intros x Hx. rewrite overwrite_lookup by lia. case_decide; [rewrite decide_True by lia; by apply H|].
  rewrite decide_True by lia. rewrite lookup_app_r by lia. by rewrite lookup_app_l by lia.
Qed.

(** ** Several writers of one file

    [offs] are their offsets, [None] for one that has not opened the file; [c]
    is the file now, [c0] before any of them. *)
Definition guarded (full : list ascii) (offs : list (option nat)) (c c0 : option string) : Prop :=
  (Forall (λ o, o = None) offs ∧ c = c0) ∨
  ∃ s j o, c = Some s ∧ offs !! j = Some (Some o) ∧ agrees o (bytes s) full ∧ (length (bytes s) ≤ length full)%nat.

Lemma guarded_start full offs c c0 : guarded full offs c c0 → guarded full (offs ++ [None]) c c0.
Proof.
  intros [[Hn Hc]|(s & j & o & Hc & Hj & Ha)]; [left; split; [|done]; apply Forall_app; by split; [|constructor]|].
  right. exists s, j, o. split_and!; [done|by apply lookup_app_l_Some|apply Ha..].
Qed.

Lemma guarded_create full offs k x c0 :
  offs !! k = Some x → guarded full (<[k := Some 0%nat]> offs) (Some "") c0.
Proof.
  intros Hk. right. exists "", k, 0%nat. split_and!; [done| |split; [lia|intros; lia]|simpl; lia].
  apply list_lookup_insert_eq. by eapply lookup_lt_Some.
Qed.

Lemma guarded_write pre data post offs k c c0 (full := pre ++ bytes data ++ post) :
  offs !! k = Some (Some (length pre)) → guarded full offs c c0 →
  guarded full (<[k := Some (length pre + String.length data)%nat]> offs)
    ((λ s, unbytes (overwrite (length pre) (bytes data) (bytes s))) <$> c) c0.
Proof.
  intros Hk [[Hn _]|(s & j & o & -> & Hj & Ha & Hl)]; [by apply (Forall_lookup_1 _ _ _ _ Hn) in Hk|].
  right. exists (unbytes (overwrite (length pre) (bytes data) (bytes s))). rewrite bytes_unbytes, overwrite_length.
  assert (Nat.max (length pre + length (bytes data)) (length (bytes s)) ≤ length full)%nat
    by (unfold full in *; rewrite !length_app in *; lia).
  destruct (decide (j = k)) as [->|Hne].
  - rewrite Hk in Hj. injection Hj as <-. exists k, (length pre + String.length data)%nat.
    split_and!; [done| |rewrite <- bytes_length; by apply overwrite_advances|done].
    apply list_lookup_insert_eq. by eapply lookup_lt_Some.
  - exists j, o. split_and!; [done|by rewrite list_lookup_insert_ne|by apply overwrite_agrees|done].
Qed.

(** When every writer that opened the file has written everything. *)
Lemma guarded_end full offs c c0 :
  guarded full offs c c0 → Forall (λ o, o = None ∨ o = Some (length full)) offs →
  c = if decide (Forall (λ o, o = None) offs) then c0 else Some (unbytes full).
Proof.
  intros [[Hn ->]|(s & j & o & -> & Hj & Ha & Hl)] Hall; [by rewrite decide_True|].
  rewrite decide_False by (intros Hn; by apply (Forall_lookup_1 _ _ _ _ Hn) in Hj).
  apply (Forall_lookup_1 _ _ _ _ Hall) in Hj as [?|[= ->]]; [done|].
  f_equal. apply bytes_inj. rewrite bytes_unbytes. by apply agrees_all.
Qed.
