(* ===== verification/MROperations.v ===== *)
(** * MapReduce: a task, operation by operation

    [doMap] (src/src/mapreduce/common_map.go) and [doReduce] (common_reduce.go)
    one file operation at a time: [ReadFile], each [os.Create], each [Encode]
    (one [Write] at the descriptor's offset), each [Read] of a decoder; and
    [DoTask] (worker.go), which calls one of them.  A goroutine that serves a
    [DoTask] request is in one of the places of [epc].  MRTasks.v has the same
    functions in one piece, for the sequential job. *)
From S2P Require Import Prelude GoStrings MRFiles MRTasks MRSchedule MRShared.

#[export] Instance jobPhase_eq_dec : EqDecision jobPhase.
Proof. solve_decision. Defined.

(** Where an execution is.  Of a map task: before [ReadFile], or in the loop over
    the pairs, with the offset of every encoder that is open.  Of a reduce task:
    before the [os.Open] of the file of map task [m], in the loop that decodes
    it, with the bytes read so far, before [os.Create] of its output, with the
    records to write, or writing them. *)
Inductive epc :=
| AtRead
| AtPair (encs : list (option nat)) (kvs : list KeyValue)
| AtOpen (m : Z) (buckets : gmap string (list string))
| AtDecode (m : Z) (buf : string) (buckets : gmap string (list string))
| AtCreate (kvs : list KeyValue)
| AtWrite (off : nat) (kvs : list KeyValue)
| AtEnd.

#[export] Instance epc_eq_dec : EqDecision epc.
Proof. solve_decision. Defined.

Section operations.
Context {J : Json} (creatable : string → bool).
Context (mapF : string → string → list KeyValue) (reduceF : string → list string → string).

(** An operation of [doMap]. *)
Definition mapExec (jobName : string) (mapTask : Z) (inFile : string) (nReduce : Z) (pc : epc) (d : fs)
    : outcome (epc * fs) :=
  (match pc with
   | AtRead =>
     if decide (nReduce < 0) then Panicked
     else Done (AtPair (replicate (Z.to_nat nReduce) None) (mapF inFile (default "" (d !! inFile))), d)
   | AtPair encs [] => Done (AtEnd, d)
   | AtPair encs (kv :: kvs) =>
     r <~ outcome_of (partition kv.(kvKey) nReduce);
     let rname := reduceName jobName mapTask r in
     match slice_get encs r with
     | None => Panicked
     | Some None =>
       Done (AtPair (<[Z.to_nat r := Some 0%nat]> encs) (kv :: kvs), Create creatable rname d)
     | Some (Some o) =>
       Done (AtPair (<[Z.to_nat r := Some (o + String.length (encode kv))%nat]> encs) kvs,
             WriteAt creatable rname o (encode kv) d)
     end
   | _ => Disabled
   end)%outcome.

(** An operation of [doReduce]; a read gives [k + 1] bytes at most. *)
Definition reduceExec (jobName : string) (reduceTask nMap : Z) (k : nat) (pc : epc) (d : fs)
    : outcome (epc * fs) :=
  match pc with
  | AtOpen m buckets =>
    if decide (m < nMap) then
      match d !! reduceName jobName m reduceTask with
      | Some _ => Done (AtDecode m "" buckets, d)
      | None => Done (AtOpen (m + 1) buckets, d)
      end
    else
      let keys := sortStrings (elements (dom buckets)) in
      Done (AtCreate ((λ key, mkKV key (reduceF key (default [] (buckets !! key)))) <$> keys), d)
  | AtDecode m buf buckets =>
    let c := bytes (default "" (d !! reduceName jobName m reduceTask)) in
    if decide (length (bytes buf) < length c)%nat then
      Done (AtDecode m (buf +:+ unbytes (take (S k) (drop (length (bytes buf)) c))) buckets, d)
    else Done (AtOpen (m + 1) (foldl addToBucket buckets (records buf)), d)
  | AtCreate kvs => Done (AtWrite 0 kvs, Create creatable (mergeName jobName reduceTask) d)
  | AtWrite o [] => Done (AtEnd, d)
  | AtWrite o (kv :: kvs) =>
    Done (AtWrite (o + String.length (encode kv)) kvs, WriteAt creatable (mergeName jobName reduceTask) o (encode kv) d)
  | _ => Disabled
  end.

(** [DoTask] before its first operation, and an operation of it. *)
Definition taskBegin (phase : jobPhase) : epc :=
  match phase with mapPhase => AtRead | reducePhase => AtOpen 0 ∅ end.

Definition taskExec (arg : DoTaskArgs) (k : nat) (pc : epc) (d : fs) : outcome (epc * fs) :=
  match arg.(tPhase) with
  | mapPhase => mapExec arg.(tJobName) arg.(tTaskNumber) arg.(tFile) arg.(tNumOtherPhase) pc d
  | reducePhase => reduceExec arg.(tJobName) arg.(tTaskNumber) arg.(tNumOtherPhase) k pc d
  end.

Lemma taskExec_ended arg k d : taskExec arg k AtEnd d = Disabled.
Proof. unfold taskExec. by destruct (tPhase arg). Qed.
End operations.
