(* ===== verification/MRConcurrent.v ===== *)
(** * MapReduce: tasks executed concurrently

    The abstract job that MRDistributed.v implements: any number of executions
    of any task of a phase run interleaved on the shared file system, an
    operation (MROperations.v) at a time, and a phase may return once every
    task has an execution that has ended and been answered.  Which worker
    executes what, and why a task is executed again, is left open.

    Within a phase overlapping executions are harmless: when they have all
    ended, the files are what one undisturbed execution writes.  Across phases
    they are not (MRConcurrentTraces.v). *)
From S2P Require Import Prelude GoStrings MRFiles MRTasks MRSpec MRSchedule MRShared MROperations.

Record exec := mkExec { ephase : jobPhase; etask : nat; at_pc : epc }.

(** Where the master is: in a phase, with the tasks whose call has been
    answered, before [merge], or after it. *)
Inductive crun := InPhase (phase : jobPhase) (finished : gset nat) | BeforeMerge | AfterMerge.

Record cjob := mkCJob { cdisk : fs; execs : list exec; cat : crun }.

Inductive clabel :=
| CStart (t : nat)        (* a worker starts to execute task [t] of the phase *)
| CExec (j k : nat)       (* execution [j] performs an operation; a read gives [k + 1] bytes at most *)
| CReply (j : nat)        (* execution [j] has ended, and its call returns *)
| CPhase                  (* [schedule] returns *)
| CMerge.

Section concurrent.
Context {J : Json} (creatable : string → bool) (job : string) (files : list string) (nReduce : Z).
Context (mapF : string → string → list KeyValue) (reduceF : string → list string → string).

Abbreviation ntasks := (ntasks files nReduce).

(** An operation of an execution. *)
Definition execStep (e : exec) (k : nat) (d : fs) : outcome (exec * fs) :=
  (arg <~ enabled (taskArgs job files nReduce e.(ephase) e.(etask));
   '(pc, d) <~ taskExec creatable mapF reduceF arg k e.(at_pc) d;
   Done (mkExec e.(ephase) e.(etask) pc, d))%outcome.

(** [DoTask] of a task, before its first operation. *)
Definition begin (phase : jobPhase) (t : nat) : exec := mkExec phase t (taskBegin phase).

Definition cstep (w : cjob) (l : clabel) : outcome cjob :=
  (match l, w.(cat) with
   | CStart t, InPhase phase X =>
     if decide (Z.of_nat t < ntasks phase)
     then Done (mkCJob w.(cdisk) (w.(execs) ++ [begin phase t]) w.(cat)) else Disabled
   | CExec j k, _ =>
     e <~ enabled (w.(execs) !! j);
     '(e, d) <~ execStep e k w.(cdisk);
     Done (mkCJob d (<[j := e]> w.(execs)) w.(cat))
   | CReply j, InPhase phase X =>
     e <~ enabled (w.(execs) !! j);
     match e.(at_pc) with
     | AtEnd =>
       if decide (e.(ephase) = phase)
       then Done (mkCJob w.(cdisk) w.(execs) (InPhase phase ({[e.(etask)]} ∪ X))) else Disabled
     | _ => Disabled
     end
   | CPhase, InPhase phase X =>
     if decide (Forall (λ t, t ∈ X) (seq 0 (Z.to_nat (ntasks phase))))
     then Done (mkCJob w.(cdisk) w.(execs)
                  (match phase with mapPhase => InPhase reducePhase ∅ | reducePhase => BeforeMerge end))
     else Disabled
   | CMerge, BeforeMerge =>
     d <~ outcome_of (merge creatable job nReduce w.(cdisk));
     Done (mkCJob d w.(execs) AfterMerge)
   | _, _ => Disabled
   end)%outcome.

Definition cstart (d : fs) : cjob := mkCJob d [] (InPhase mapPhase ∅).

(** No execution is under way. *)
Definition quiet (es : list exec) : Prop := Forall (λ e, e.(at_pc) = AtEnd) es.

(** The phases return, and the files are merged, when no execution is under way. *)
Definition calm (w : cjob) (l : clabel) : Prop :=
  match l with CPhase | CMerge => quiet w.(execs) | _ => True end.

Definition calm_steps : cjob → cjob → Prop := rtc (λ w w', ∃ l, calm w l ∧ cstep w l = Done w').

(** ** What the tasks of a phase write *)

(** The file that task [t] writes for [r]; a reduce task writes one file. *)
Definition outName (p : jobPhase) (t : nat) (r : Z) : string :=
  match p with
  | mapPhase => reduceName job (Z.of_nat t) r
  | reducePhase => mergeName job (Z.of_nat t)
  end.
Definition slot (p : jobPhase) (r : Z) : Prop :=
  match p with mapPhase => 0 ≤ r < nReduce | reducePhase => r = 0 end.

(** The records for it, when the phase started with the disk [dp]. *)
Definition target (p : jobPhase) (dp : fs) (t : nat) (r : Z) : list KeyValue :=
  match p with
  | mapPhase => bucket nReduce r (mapPairs mapF dp (default "" (files !! t)))
  | reducePhase => reduced reduceF (reduceInput job (Z.of_nat t) (len files) dp)
  end.
Definition full (p : jobPhase) (dp : fs) (t : nat) (r : Z) : list ascii := bytes (encodeAll (target p dp t r)).

(** The offset of an execution of task [t] at [pc] in that file. *)
Definition off (p : jobPhase) (dp : fs) (t : nat) (r : Z) (pc : epc) : option nat :=
  match p, pc with
  | mapPhase, AtPair encs _ => mjoin (encs !! Z.to_nat r)
  | mapPhase, AtEnd => if decide (target p dp t r = []) then None else Some (length (full p dp t r))
  | reducePhase, AtWrite o _ => Some o
  | reducePhase, AtEnd => Some (length (full p dp t r))
  | _, _ => None
  end.

Definition eoff (p : jobPhase) (dp : fs) (t : nat) (r : Z) (e : exec) : option nat :=
  if decide (e.(ephase) = p ∧ e.(etask) = t) then off p dp t r e.(at_pc) else None.

(** Where an execution can be, and with what. *)
Definition pc_ok (p : jobPhase) (dp : fs) (t : nat) (pc : epc) : Prop :=
  match p, pc with
  | mapPhase, AtRead | _, AtEnd => True
  | mapPhase, AtPair encs kvs =>
    ∃ done, mapPairs mapF dp (default "" (files !! t)) = done ++ kvs ∧ len encs = nReduce ∧
      ∀ r, 0 ≤ r < nReduce →
        match slice_get encs r with
        | None => False
        | Some None => bucket nReduce r done = []
        | Some (Some o) => o = length (bytes (encodeAll (bucket nReduce r done))) ∧
            (bucket nReduce r done = [] → ∃ kv rest, kvs = kv :: rest ∧ ihash kv.(kvKey) mod nReduce = r)
        end
  | reducePhase, AtOpen m b => 0 ≤ m ≤ len files ∧ b = bucketsOf (reduceInput job (Z.of_nat t) m dp)
  | reducePhase, AtDecode m buf b =>
    0 ≤ m < len files ∧ b = bucketsOf (reduceInput job (Z.of_nat t) m dp) ∧
    ∃ c, dp !! reduceName job m (Z.of_nat t) = Some c ∧ bytes buf `prefix_of` bytes c
  | reducePhase, AtCreate kvs => kvs = target p dp t 0
  | reducePhase, AtWrite o kvs => ∃ done, target p dp t 0 = done ++ kvs ∧ o = length (bytes (encodeAll done))
  | _, _ => False
  end.

(** What an operation of task [t] does to the files and to its offsets. *)
Inductive effect (p : jobPhase) (dp : fs) (t : nat) (pc pc' : epc) (d : fs) : fs → Prop :=
| EffNone :
    (∀ r, slot p r → off p dp t r pc' = off p dp t r pc) → effect p dp t pc pc' d d
| EffCreate r :
    slot p r → off p dp t r pc' = Some 0%nat →
    (∀ r', slot p r' → r' ≠ r → off p dp t r' pc' = off p dp t r' pc) →
    effect p dp t pc pc' d (<[outName p t r := ""]> d)
| EffWrite r pre data post :
    slot p r → full p dp t r = pre ++ bytes data ++ post →
    off p dp t r pc = Some (length pre) → off p dp t r pc' = Some (length pre + String.length data)%nat →
    (∀ r', slot p r' → r' ≠ r → off p dp t r' pc' = off p dp t r' pc) →
    effect p dp t pc pc' d
      (alter (λ c, unbytes (overwrite (length pre) (bytes data) (bytes c))) (outName p t r) d).

(** ** One operation *)

Context (Hn : 0 < nReduce).
Context (Hcr : ∀ m r, creatable (reduceName job m r) = true).
Context (Hcm : ∀ r, creatable (mergeName job r) = true).

Lemma mjoin_slice {A} (l : list (option A)) r : 0 ≤ r → mjoin (l !! Z.to_nat r) = mjoin (slice_get l r).
Proof. intros Hr. unfold slice_get. by rewrite decide_True. Qed.

Lemma partition_ok key : partition key nReduce = Ok (ihash key mod nReduce) ∧ 0 ≤ ihash key mod nReduce < nReduce.
Proof using Hn.
  unfold partition. rewrite decide_False by lia. pose proof (ihash_bound key). rewrite Z.rem_mod_nonneg by lia.
  split; [done|]. apply Z.mod_pos_bound. lia.
Qed.

(** An encoder is opened. *)
Lemma pair_create dp t d encs kv kvs (r := ihash kv.(kvKey) mod nReduce) :
  pc_ok mapPhase dp t (AtPair encs (kv :: kvs)) → slice_get encs r = Some None →
  let pc' := AtPair (<[Z.to_nat r := Some 0%nat]> encs) (kv :: kvs) in
  pc_ok mapPhase dp t pc' ∧
  effect mapPhase dp t (AtPair encs (kv :: kvs)) pc' d (Create creatable (reduceName job (Z.of_nat t) r) d).
Proof using Hn Hcr.
  intros (dn & Hp & Hl & Hr) Hnone pc'. destruct (partition_ok (kvKey kv)) as [_ Hrn]. fold r in Hrn.
  assert (∀ r', 0 ≤ r' < nReduce → r' ≠ r → slice_get (<[Z.to_nat r := Some 0%nat]> encs) r' = slice_get encs r') as Hne
    by (intros r' Hr' Hne; apply slice_get_insert_ne; [lia|congruence]).
  split.
  - exists dn. split_and!; [done|by autorewrite with slices|]. intros r' Hr'. destruct (decide (r' = r)) as [->|Hne'].
    + rewrite slice_get_insert_eq by lia. specialize (Hr r Hr'). rewrite Hnone in Hr. rewrite Hr. split; [done|]. by exists kv, kvs.
    + rewrite Hne by done. by apply Hr.
  - unfold Create. rewrite Hcr. apply (EffCreate mapPhase dp t _ pc' d r); [done|..]; simpl.
    + rewrite mjoin_slice by lia. by rewrite slice_get_insert_eq by lia.
    + intros r' Hr' Hne'. rewrite !mjoin_slice by lia. by rewrite Hne.
Qed.

(** A pair is written. *)
Lemma pair_write dp t d encs kv kvs o (r := ihash kv.(kvKey) mod nReduce) :
  pc_ok mapPhase dp t (AtPair encs (kv :: kvs)) → slice_get encs r = Some (Some o) →
  let pc' := AtPair (<[Z.to_nat r := Some (o + String.length (encode kv))%nat]> encs) kvs in
  pc_ok mapPhase dp t pc' ∧
  effect mapPhase dp t (AtPair encs (kv :: kvs)) pc' d (WriteAt creatable (reduceName job (Z.of_nat t) r) o (encode kv) d).
Proof using Hn Hcr.
  intros (dn & Hp & Hl & Hr) Hopen pc'. destruct (partition_ok (kvKey kv)) as [_ Hrn]. fold r in Hrn.
  set (x := Some (o + String.length (encode kv))%nat) in pc'.
  assert (∀ r', 0 ≤ r' < nReduce → r' ≠ r → slice_get (<[Z.to_nat r := x]> encs) r' = slice_get encs r') as Hne
    by (intros r' Hr' Hne; apply slice_get_insert_ne; [lia|congruence]).
  pose proof (Hr r Hrn) as Ho. rewrite Hopen in Ho. destruct Ho as [Ho _].
  assert (bucket nReduce r [kv] = [kv]) as Hkv by (unfold bucket; by rewrite filter_cons_True, filter_nil).
  split.
  - exists (dn ++ [kv]). split_and!; [by rewrite <- app_assoc|by autorewrite with slices|]. intros r' Hr'.
    rewrite bucket_app. destruct (decide (r' = r)) as [->|Hne'].
    + rewrite slice_get_insert_eq by lia. rewrite Hkv, encodeAll_app, bytes_app, length_app. split; [|by destruct (bucket _ r dn)].
      simpl. by rewrite string_app_nil_r, (bytes_length (encode kv)), <- Ho.
    + rewrite Hne by done. specialize (Hr r' Hr'). assert (bucket nReduce r' [kv] = []) as ->
        by (unfold bucket; rewrite filter_cons_False, filter_nil; [done|by fold r; congruence]).
      rewrite app_nil_r. destruct (slice_get encs r') as [[o'|]|]; [|done..]. destruct Hr as [-> Hr]. split; [done|].
      intros Hb. destruct (Hr Hb) as (kv' & rest & [= <- _] & Hh). by destruct Hne'.
  - unfold WriteAt. rewrite Hcr, Ho.
    apply (EffWrite mapPhase dp t _ pc' d r _ _ (bytes (encodeAll (bucket nReduce r kvs)))); [done|..].
    + unfold full, target. rewrite Hp. rewrite bucket_app, encodeAll_app, bytes_app.
      change (kv :: kvs) with ([kv] ++ kvs). rewrite bucket_app, Hkv. simpl. by rewrite bytes_app.
    + simpl. rewrite mjoin_slice, Hopen by lia. by rewrite Ho.
    + simpl. rewrite mjoin_slice by lia. rewrite slice_get_insert_eq by lia. unfold x. by rewrite Ho.
    + intros r' Hr' Hne'. simpl. rewrite !mjoin_slice by (simpl in Hr'; lia). by rewrite Hne.
Qed.

Lemma mapExec_effect dp t d pc f :
  files !! t = Some f → d !! f = dp !! f → pc_ok mapPhase dp t pc → pc ≠ AtEnd →
  ∃ pc' d', mapExec creatable mapF job (Z.of_nat t) f nReduce pc d = Done (pc', d') ∧ pc_ok mapPhase dp t pc' ∧ effect mapPhase dp t pc pc' d d'.
Proof using Hn Hcr.
  intros Hf Hd Hok Hne. destruct pc as [|encs [|kv kvs]| | | | |]; try done.
  - cbn [mapExec]. rewrite decide_False by lia.
    do 2 eexists. split; [done|]. split.
    + exists []. rewrite Hf. unfold mapPairs. rewrite Hd. split_and!; [done|rewrite len_replicate; lia|].
      intros r Hr. assert (slice_get (replicate (Z.to_nat nReduce) (@None nat)) r = Some None) as ->; [|done].
      apply slice_get_replicate. split; [done|lia].
    + apply EffNone. intros r Hr. simpl in *. destruct (replicate _ _ !! _) as [x|] eqn:E; [|done].
      by apply lookup_replicate in E as [-> _].
  - do 2 eexists. split; [done|]. split; [done|]. apply EffNone. intros r Hr. simpl in Hr.
    destruct Hok as (dn & Hp & _ & Henc). specialize (Henc r Hr). rewrite app_nil_r in Hp. simpl. rewrite mjoin_slice by lia.
    unfold full, target. rewrite Hp. destruct (slice_get encs r) as [[o|]|]; [|by rewrite decide_True|done].
    destruct Henc as [-> Hb]. rewrite decide_False; [done|]. intros (kv & rest & ? & _)%Hb. done.
  - destruct (partition_ok (kvKey kv)) as [Hpart Hrn]. cbn [mapExec]. rewrite Hpart. simpl.
    pose proof Hok as (dn & _ & _ & Henc). specialize (Henc _ Hrn).
    destruct (slice_get encs _) as [[o|]|] eqn:E; [| |done].
    + do 2 eexists. split; [done|]. by apply pair_write.
    + do 2 eexists. split; [done|]. by apply pair_create.
Qed.

Lemma reduceInput_next r m d :
  0 ≤ m → reduceInput job r (m + 1) d = reduceInput job r m d ++ fileRecords (reduceName job m r) d.
Proof. intros Hm. rewrite reduceInput_app by lia. by rewrite seqZ_1, bind_singleton. Qed.

(** The records to write, from the buckets of the whole input. *)
Lemma target_buckets dp t :
  (λ key, mkKV key (reduceF key (default [] (bucketsOf (reduceInput job (Z.of_nat t) (len files) dp) !! key)))) <$>
    sortStrings (elements (dom (bucketsOf (reduceInput job (Z.of_nat t) (len files) dp)))) =
  target reducePhase dp t 0.
Proof.
  rewrite bucketsOf_dom. unfold target, reduced, keys. apply list_fmap_ext. intros i k _. by rewrite bucketsOf_default.
Qed.

Lemma decode_more (buf : string) (c : list ascii) k :
  bytes buf `prefix_of` c → bytes (buf +:+ unbytes (take (S k) (drop (length (bytes buf)) c))) `prefix_of` c.
Proof.
  intros [rest ->]. rewrite bytes_app, bytes_unbytes, drop_app_length. apply prefix_app, prefix_take.
Qed.

Lemma decode_eof_all (buf c : string) :
  bytes buf `prefix_of` bytes c → ¬ (length (bytes buf) < length (bytes c))%nat → buf = c.
Proof. intros Hp Hl. apply bytes_inj, prefix_length_eq; [done|lia]. Qed.

Lemma reduceExec_effect dp t k d pc :
  (∀ m, 0 ≤ m → d !! reduceName job m (Z.of_nat t) = dp !! reduceName job m (Z.of_nat t)) →
  pc_ok reducePhase dp t pc → pc ≠ AtEnd →
  ∃ pc' d', reduceExec creatable reduceF job (Z.of_nat t) (len files) k pc d = Done (pc', d') ∧ pc_ok reducePhase dp t pc' ∧ effect reducePhase dp t pc pc' d d'.
Proof using Hcm.
  intros Hd Hok Hne. destruct pc as [|encs kvs|m b|m buf b|kvs|o [|kv kvs]|]; try done.
  - destruct Hok as [Hm ->]. cbn [reduceExec]. case_decide as Hlt.
    + rewrite Hd by lia. destruct (dp !! reduceName job m (Z.of_nat t)) as [c|] eqn:E;
        (do 2 eexists; split; [done|]; split; [|by apply EffNone]).
      * split_and!; [lia|lia|done|]. exists c. split; [done|]. apply prefix_nil.
      * split; [lia|]. rewrite reduceInput_next by lia. unfold fileRecords. by rewrite E, app_nil_r.
    + do 2 eexists. split; [done|]. split; [|by apply EffNone]. replace m with (len files) by lia. apply target_buckets.
  - destruct Hok as (Hm & -> & c & Hc & Hpre). cbn [reduceExec]. rewrite Hd, Hc by lia. cbn [default].
    case_decide as Hlt; (do 2 eexists; split; [done|]; split; [|by apply EffNone]).
    + split_and!; [lia|lia|done|]. exists c. split; [done|]. by apply decode_more.
    + split; [lia|]. rewrite reduceInput_next by lia. unfold fileRecords. rewrite Hc.
      rewrite (decode_eof_all buf c) by done. unfold bucketsOf. by rewrite foldl_app.
  - do 2 eexists. split; [done|]. split; [by exists []|]. unfold Create. rewrite Hcm.
    apply (EffCreate reducePhase dp t _ _ d 0); [done|done|]. simpl. congruence.
  - do 2 eexists. split; [done|]. split; [done|]. apply EffNone. intros r Hr. simpl in Hr. subst.
    destruct Hok as (dn & Ht & ->). simpl. unfold full. by rewrite Ht, app_nil_r.
  - destruct Hok as (dn & Ht & ->). do 2 eexists. split; [done|]. split.
    + exists (dn ++ [kv]). split; [by rewrite <- app_assoc|]. rewrite encodeAll_app, bytes_app, length_app. simpl.
      by rewrite string_app_nil_r, (bytes_length (encode kv)).
    + unfold WriteAt. rewrite Hcm. apply (EffWrite reducePhase dp t _ _ d 0 _ _ (bytes (encodeAll kvs))); [done| |done|done|].
      * unfold full. rewrite Ht, encodeAll_app, bytes_app. simpl. by rewrite bytes_app.
      * simpl. congruence.
Qed.

(** ** One phase *)

Context (Hin : Forall (input_ok job) files).

Definition size_of (p : jobPhase) : nat := Z.to_nat (ntasks p).

(** An execution of the phase is somewhere in its task; those of an earlier phase
    have ended. *)
Definition exec_ok (p : jobPhase) (dp : fs) (e : exec) : Prop :=
  if decide (e.(ephase) = p) then (e.(etask) < size_of p)%nat ∧ pc_ok p dp e.(etask) e.(at_pc)
  else p = reducePhase ∧ e.(at_pc) = AtEnd.

Record phase_inv (p : jobPhase) (dp : fs) (X : gset nat) (d : fs) (es : list exec) : Prop := {
  pi_execs : Forall (exec_ok p dp) es;
  pi_files t r : (t < size_of p)%nat → slot p r →
    guarded (full p dp t r) (eoff p dp t r <$> es) (d !! outName p t r) (dp !! outName p t r);
  pi_other name : (∀ t r, (t < size_of p)%nat → slot p r → name ≠ outName p t r) → d !! name = dp !! name;
  pi_done t : t ∈ X → ∃ e, e ∈ es ∧ e.(ephase) = p ∧ e.(etask) = t ∧ e.(at_pc) = AtEnd
}.

Lemma outName_inj p t r t' r' : slot p r → slot p r' → outName p t r = outName p t' r' → t = t' ∧ r = r'.
Proof.
  destruct p; simpl; intros Hr Hr' E.
  - apply reduceName_inj in E; [|lia..]. lia.
  - apply mergeName_inj in E. lia.
Qed.

(** What the offsets become when an execution of task [t] goes on. *)
Lemma eoff_other p dp t' r e pc' :
  (e.(ephase) = p → e.(etask) = t' → off p dp t' r pc' = off p dp t' r e.(at_pc)) →
  eoff p dp t' r (mkExec e.(ephase) e.(etask) pc') = eoff p dp t' r e.
Proof. intros H. unfold eoff. simpl. case_decide as Hp; [|done]. destruct Hp. by apply H. Qed.

(** The files after an operation. *)
Lemma effect_files p dp X d es j e pc' d' :
  phase_inv p dp X d es → es !! j = Some e → e.(ephase) = p → (e.(etask) < size_of p)%nat →
  effect p dp e.(etask) e.(at_pc) pc' d d' →
  ∀ t r, (t < size_of p)%nat → slot p r →
    guarded (full p dp t r) (eoff p dp t r <$> <[j := mkExec e.(ephase) e.(etask) pc']> es)
      (d' !! outName p t r) (dp !! outName p t r).
Proof.
  intros Hinv Hj Hp Ht Heff t r Htn Hr. pose proof (pi_files _ _ _ _ _ Hinv t r Htn Hr) as Hg.
  rewrite list_fmap_insert. set (offs := eoff p dp t r <$> es) in *.
  assert (offs !! j = Some (eoff p dp t r e)) as Ho by (unfold offs; by rewrite list_lookup_fmap, Hj).
  assert (∀ r0, slot p r0 → (t = e.(etask) → r ≠ r0) → outName p e.(etask) r0 ≠ outName p t r) as Hne
    by (intros r0 Hr0 H E; apply outName_inj in E as [??]; [|done..]; naive_solver).
  assert (eoff p dp t r (mkExec (ephase e) (etask e) pc') = eoff p dp t r e →
    guarded (full p dp t r) (<[j := eoff p dp t r (mkExec (ephase e) (etask e) pc')]> offs) (d !! outName p t r) (dp !! outName p t r)) as Hsame
    by (intros ->; by rewrite list_insert_id).
  destruct Heff as [Hoff|r0 Hr0 Hoff Hoffs|r0 pre data post Hr0 Hfull Hoff Hoff' Hoffs].
  - apply Hsame, eoff_other. intros _ <-. by apply Hoff.
  - destruct (decide (t = etask e ∧ r = r0)) as [[-> ->]|Hno].
    + rewrite lookup_insert_eq. unfold eoff at 1. simpl. rewrite decide_True, Hoff by done. by eapply guarded_create.
    + rewrite lookup_insert_ne by (apply Hne; [done|naive_solver]).
      apply Hsame, eoff_other. intros _ <-. apply Hoffs; [done|naive_solver].
  - destruct (decide (t = etask e ∧ r = r0)) as [[-> ->]|Hno].
    + rewrite lookup_alter_eq. unfold eoff at 1. simpl. rewrite decide_True, Hoff' by done. rewrite Hfull in *.
      apply guarded_write; [|done]. rewrite Ho. unfold eoff. by rewrite decide_True, Hoff.
    + rewrite lookup_alter_ne by (apply Hne; [done|naive_solver]).
      apply Hsame, eoff_other. intros _ <-. apply Hoffs; [done|naive_solver].
Qed.

Lemma effect_other p dp t pc pc' d d' name :
  (t < size_of p)%nat → effect p dp t pc pc' d d' →
  (∀ t r, (t < size_of p)%nat → slot p r → name ≠ outName p t r) → d' !! name = d !! name.
Proof.
  intros Ht [_|r Hr _ _|r pre data post Hr _ _ _ _] Hn'; [done|..].
  - by rewrite lookup_insert_ne by (apply not_eq_sym; by apply Hn').
  - by rewrite lookup_alter_ne by (apply not_eq_sym; by apply Hn').
Qed.

Lemma ended_stays (es : list exec) j e e' e0 :
  es !! j = Some e → e.(at_pc) ≠ AtEnd → e0 ∈ es → e0.(at_pc) = AtEnd → e0 ∈ <[j := e']> es.
Proof.
  intros Hj Hne (i & Hi)%list_elem_of_lookup_1 Hend. apply (list_elem_of_lookup_2 _ i).
  rewrite list_lookup_insert_ne; [done|]. intros ->. congruence.
Qed.

(** The executions of a phase read files that nobody writes in it. *)
Lemma phase_reads p dp X d es :
  phase_inv p dp X d es →
  match p with
  | mapPhase => ∀ f, f ∈ files → d !! f = dp !! f
  | reducePhase => ∀ m r, 0 ≤ m → d !! reduceName job m r = dp !! reduceName job m r
  end.
Proof using Hin.
  intros Hinv. destruct p.
  - intros f Hf. apply (pi_other _ _ _ _ _ Hinv). intros t r _ _. eapply Forall_forall in Hin; [|exact Hf]. apply Hin. lia.
  - intros m r Hm. apply (pi_other _ _ _ _ _ Hinv). intros t r' _ _. by apply reduceName_mergeName.
Qed.

Lemma size_file t : (t < size_of mapPhase)%nat → ∃ f, files !! t = Some f.
Proof. unfold size_of. simpl. unfold len. intros Ht. apply lookup_lt_is_Some_2. lia. Qed.

(** An operation keeps the invariant of the phase, and never panics. *)
Lemma exec_step p dp X d es j e k :
  phase_inv p dp X d es → es !! j = Some e → e.(at_pc) ≠ AtEnd →
  ∃ e' d', execStep e k d = Done (e', d') ∧ phase_inv p dp X d' (<[j := e']> es).
Proof using Hn Hcr Hcm Hin.
  intros Hinv Hj Hne. pose proof (phase_reads _ _ _ _ _ Hinv) as Hreads.
  pose proof (Forall_lookup_1 _ _ _ _ (pi_execs _ _ _ _ _ Hinv) Hj) as He. unfold exec_ok in He.
  case_decide as Hp; [|by destruct He]. destruct He as [Ht Hok].
  assert (∃ arg pc' d', taskArgs job files nReduce p (etask e) = Some arg ∧
    taskExec creatable mapF reduceF arg k (at_pc e) d = Done (pc', d') ∧
    pc_ok p dp (etask e) pc' ∧ effect p dp (etask e) (at_pc e) pc' d d') as (arg & pc' & d' & Ha & Hs & Hok' & Heff).
  { destruct p.
    - destruct (size_file _ Ht) as [f Hf].
      destruct (mapExec_effect dp (etask e) d (at_pc e) f Hf) as (pc' & d' & ?);
        [apply Hreads; by eapply list_elem_of_lookup_2|done..|].
      exists (mkTaskArgs job f mapPhase (Z.of_nat (etask e)) nReduce), pc', d'.
      split; [|done]. unfold taskArgs, slice_get. by rewrite decide_True, Nat2Z.id, Hf by lia.
    - destruct (reduceExec_effect dp (etask e) k d (at_pc e)) as (pc' & d' & ?); [|done..|].
      2: by exists (mkTaskArgs job "" reducePhase (Z.of_nat (etask e)) (len files)), pc', d'.
      intros m Hm. by apply Hreads. }
  exists (mkExec (ephase e) (etask e) pc'), d'. unfold execStep. rewrite Hp, Ha. cbn [enabled outcome_bind]. rewrite Hs.
  split; [done|]. rewrite <- Hp at 2. split.
  - apply Forall_insert; [apply Hinv|]. unfold exec_ok. simpl. by rewrite decide_True.
  - by eapply effect_files.
  - intros name Hname. rewrite (effect_other p dp (etask e) (at_pc e) pc' d d' name) by done. by apply (pi_other _ _ _ _ _ Hinv).
  - intros t Htx. destruct (pi_done _ _ _ _ _ Hinv t Htx) as (e0 & He0 & ? & ? & ?). exists e0.
    split_and!; [by eapply ended_stays|done..].
Qed.

Lemma phase_start p dp X d es t :
  phase_inv p dp X d es → Z.of_nat t < ntasks p → phase_inv p dp X d (es ++ [begin p t]).
Proof.
  intros Hinv Ht. assert (∀ t' r, eoff p dp t' r (begin p t) = None) as Hoff
    by (intros t' r; unfold eoff; by case_decide; [destruct p|]).
  split.
  - apply Forall_app. split; [apply Hinv|]. apply Forall_singleton. unfold exec_ok. simpl. rewrite decide_True by done.
    split; [unfold size_of; lia|]. destruct p; [done|]. split; [split; [done|apply len_nonneg]|done].
  - intros t' r Ht' Hr. rewrite fmap_app. simpl. rewrite Hoff. by apply guarded_start, Hinv.
  - apply Hinv.
  - intros t' Ht'. destruct (pi_done _ _ _ _ _ Hinv t' Ht') as (e & He & ?). exists e. split; [|done]. apply elem_of_app. by left.
Qed.

(** The files when a phase returns and no execution is under way. *)
Lemma phase_end p dp X d es t r :
  phase_inv p dp X d es → quiet es → Forall (λ t, t ∈ X) (seq 0 (size_of p)) → (t < size_of p)%nat → slot p r →
  d !! outName p t r =
    if decide (p = mapPhase ∧ target p dp t r = []) then dp !! outName p t r else Some (encodeAll (target p dp t r)).
Proof.
  intros Hinv Hq HX Ht Hr. pose proof (pi_files _ _ _ _ _ Hinv t r Ht Hr) as Hg.
  assert (off p dp t r AtEnd = if decide (p = mapPhase ∧ target p dp t r = []) then None else Some (length (full p dp t r))) as Hoff.
  { destruct p; unfold off; repeat case_decide; naive_solver. }
  apply guarded_end in Hg as ->.
  2: { apply Forall_fmap, Forall_forall. intros e He. pose proof (proj1 (Forall_forall _ _) Hq e He) as Hq'. simpl in Hq'.
       unfold compose, eoff. destruct (decide (ephase e = p ∧ etask e = t)); [|by left].
       rewrite Hq', Hoff. case_decide; [by left|by right]. }
  destruct (decide (Forall _ _)) as [Hd|Hd], (decide (p = mapPhase ∧ target p dp t r = [])) as [Hd'|Hd']; try done.
  - exfalso. rewrite Forall_fmap in Hd. assert (t ∈ X) as HtX.
    { eapply Forall_forall in HX; [exact HX|]. apply elem_of_seq. lia. }
    destruct (pi_done _ _ _ _ _ Hinv t HtX) as (e & He & Hp & Hte & Hend). eapply Forall_forall in Hd; [|exact He].
    unfold compose, eoff in Hd. by rewrite decide_True, Hend, Hoff in Hd by done.
  - exfalso. apply Hd. apply Forall_fmap, Forall_forall. intros e He. pose proof (proj1 (Forall_forall _ _) Hq e He) as Hq'. simpl in Hq'.
    unfold compose, eoff. destruct (decide (ephase e = p ∧ etask e = t)); [|done]. by rewrite Hq', Hoff.
  - unfold full. by rewrite unbytes_bytes.
Qed.

(** ** The whole job *)

Context {JO : JsonOk}.
Context (d0 : fs) (Hjob : job_ok creatable job nReduce mapF reduceF files d0).

Definition cinv (w : cjob) : Prop :=
  match w.(cat) with
  | InPhase mapPhase X => phase_inv mapPhase d0 X w.(cdisk) w.(execs)
  | InPhase reducePhase X =>
    ∃ d1, mapsDone job nReduce mapF d0 files d1 ∧ phase_inv reducePhase d1 X w.(cdisk) w.(execs)
  | BeforeMerge => quiet w.(execs) ∧ ∀ r, 0 ≤ r < nReduce →
      w.(cdisk) !! mergeName job r = Some (encodeAll (reduced reduceF (bucket nReduce r (allPairs mapF d0 files))))
  | AfterMerge => quiet w.(execs) ∧ w.(cdisk) !! outputName job = Some (report reduceF (allPairs mapF d0 files))
  end.

(** In a phase, whichever it is. *)
Lemma cinv_phase w p X :
  w.(cat) = InPhase p X →
  cinv w ↔ ∃ dp, (if decide (p = mapPhase) then dp = d0 else mapsDone job nReduce mapF d0 files dp) ∧
                 phase_inv p dp X w.(cdisk) w.(execs).
Proof. unfold cinv. intros ->. destruct p; simpl; naive_solver. Qed.

Lemma execStep_ended e k d : e.(at_pc) = AtEnd → execStep e k d = Disabled.
Proof.
  intros H. unfold execStep. destruct (taskArgs _ _ _ _ _) as [arg|]; [|done]. simpl. by rewrite H, taskExec_ended.
Qed.

Lemma quiet_lookup es j e : quiet es → es !! j = Some e → e.(at_pc) = AtEnd.
Proof. intros Hq Hj. exact (Forall_lookup_1 _ _ _ _ Hq Hj). Qed.

(** The map phase returns. *)
Lemma maps_done X w :
  phase_inv mapPhase d0 X w.(cdisk) w.(execs) → quiet w.(execs) → Forall (λ t, t ∈ X) (seq 0 (size_of mapPhase)) →
  mapsDone job nReduce mapF d0 files w.(cdisk) ∧ phase_inv reducePhase w.(cdisk) ∅ w.(cdisk) w.(execs).
Proof using All.
  intros Hinv Hq HX. assert (size_of mapPhase = length files) as Hsz by (unfold size_of; simpl; unfold len; lia). split.
  - split.
    + intros i f r Hf Hr. pose proof (phase_end mapPhase d0 X _ _ i r Hinv Hq HX) as He. simpl in He.
      rewrite He; [|rewrite Hsz; by eapply lookup_lt_Some|done]. rewrite Hf. simpl. repeat case_decide; naive_solver.
    + intros name Hname. apply (pi_other _ _ _ _ _ Hinv). rewrite Hsz. intros t r. apply Hname.
  - assert (∀ e, e ∈ execs w → ephase e = mapPhase) as Hmap.
    { intros e He. pose proof (proj1 (Forall_forall _ _) (pi_execs _ _ _ _ _ Hinv) e He) as Hok. unfold exec_ok in Hok.
      case_decide; [done|]. by destruct Hok. }
    split.
    + apply Forall_forall. intros e He. unfold exec_ok. rewrite (Hmap e He), decide_False by done.
      split; [done|]. by apply (proj1 (Forall_forall _ _) Hq).
    + intros t r _ _. left. split; [|done]. apply Forall_fmap, Forall_forall. intros e He. unfold compose, eoff.
      rewrite (Hmap e He). by rewrite decide_False by (by intros [? _]).
    + done.
    + set_solver.
Qed.

(** The reduce phase returns. *)
Lemma reduces_done d1 X w r :
  mapsDone job nReduce mapF d0 files d1 → phase_inv reducePhase d1 X w.(cdisk) w.(execs) → quiet w.(execs) →
  Forall (λ t, t ∈ X) (seq 0 (size_of reducePhase)) → 0 ≤ r < nReduce →
  w.(cdisk) !! mergeName job r = Some (encodeAll (reduced reduceF (bucket nReduce r (allPairs mapF d0 files)))).
Proof using All.
  intros Hm Hinv Hq HX Hr. destruct Hjob as [_ _ _ _ _ Hfr Hpv _].
  pose proof (phase_end reducePhase d1 X _ _ (Z.to_nat r) 0 Hinv Hq HX) as He.
  rewrite decide_False in He by (by intros [? _]). unfold outName, target in He. rewrite Z2Nat.id in He by lia.
  rewrite He; [|unfold size_of; simpl; lia|done]. by rewrite (reduceInput_bucket job nReduce mapF d0 files d1).
Qed.

Lemma cstep_inv w l :
  cinv w → calm w l → match cstep w l with Done w' => cinv w' | Disabled => True | Panicked => False end.
Proof using All.
  intros Hw Hcalm. destruct (cat w) as [p X| |] eqn:Hc.
  - apply (cinv_phase w p X Hc) in Hw as (dp & Hdp & Hinv).
    assert (∀ X' d' es', phase_inv p dp X' d' es' → cinv (mkCJob d' es' (InPhase p X'))) as Hput
      by (intros X' d' es' H; apply (cinv_phase (mkCJob d' es' (InPhase p X')) p X' eq_refl); by exists dp).
    destruct l as [t|j k|j| |]; cbn [cstep]; rewrite ?Hc.
    + destruct (decide (Z.of_nat t < _)); [|done]. by apply Hput, phase_start.
    + destruct (execs w !! j) as [e|] eqn:Hj; [|done]. simpl.
      destruct (decide (at_pc e = AtEnd)) as [Hend|Hend]; [by rewrite execStep_ended|].
      destruct (exec_step p dp X (cdisk w) (execs w) j e k Hinv Hj Hend) as (e' & d' & -> & Hinv'). simpl. by apply Hput.
    + destruct (execs w !! j) as [e|] eqn:Hj; [|done]. simpl. destruct (at_pc e) eqn:Hend; try done. destruct (decide (ephase e = p)) as [Hp|]; [|done].
      apply Hput. destruct Hinv as [He Hf Ho Hd]. split; [done..|]. intros t [->%elem_of_singleton|Ht]%elem_of_union; [|by apply Hd].
      exists e. split_and!; [by eapply list_elem_of_lookup_2|done..].
    + destruct (decide (Forall _ _)) as [HX|]; [|done]. simpl in Hcalm. destruct p; simpl in Hdp.
      * subst dp. destruct (maps_done X w Hinv Hcalm HX). unfold cinv. simpl. by exists (cdisk w).
      * unfold cinv. simpl. split; [done|]. intros r Hr. by apply (reduces_done dp X w r).
    + done.
  - unfold cinv in Hw. rewrite Hc in Hw. destruct Hw as [Hq Hout]. destruct l as [t|j k|j| |]; cbn [cstep]; rewrite ?Hc; try done.
    + destruct (execs w !! j) as [e|] eqn:Hj; [|done]. cbn [enabled outcome_bind]. by rewrite execStep_ended by (by eapply quiet_lookup).
    + pose proof Hjob as [_ _ _ Hco _ _ _ Hrv].
      rewrite (merge_report creatable job nReduce Hn Hco reduceF (allPairs mapF d0 files)); [|by apply results_valid|done].
      simpl. unfold cinv. simpl. split; [done|]. by rewrite lookup_insert_eq.
  - unfold cinv in Hw. rewrite Hc in Hw. destruct Hw as [Hq Hout]. destruct l as [t|j k|j| |]; cbn [cstep]; rewrite ?Hc; try done.
    destruct (execs w !! j) as [e|] eqn:Hj; [|done]. cbn [enabled outcome_bind]. by rewrite execStep_ended by (by eapply quiet_lookup).
Qed.

Lemma cstart_inv : cinv (cstart d0).
Proof. split; [constructor|by left|done|set_solver]. Qed.
End concurrent.

Section report.
Context {J : Json} {JO : JsonOk} (creatable : string → bool) (job : string) (files : list string) (n : Z).
Context (mapF : string → string → list KeyValue) (reduceF : string → list string → string) (d : fs).
Context (Hjob : job_ok creatable job n mapF reduceF files d).

Lemma calm_inv w w' :
  cinv job files n mapF reduceF d w → calm_steps creatable job files n mapF reduceF w w' →
  cinv job files n mapF reduceF d w'.
Proof using All.
  pose proof Hjob as [Hn Hcr Hcm _ Hin _ _ _].
  intros Hw Hs. induction Hs as [|w1 w2 w3 (l & Hc & Hl) _ IH]; [done|]. apply IH.
  pose proof (cstep_inv creatable job files n mapF reduceF Hn Hcr Hcm Hin d Hjob w1 l Hw Hc) as H. by rewrite Hl in H.
Qed.

Lemma concurrent_report w :
  calm_steps creatable job files n mapF reduceF (cstart d) w →
  (∀ l, calm w l → cstep creatable job files n mapF reduceF w l ≠ Panicked) ∧
  (w.(cat) = AfterMerge → w.(cdisk) !! outputName job = Some (report reduceF (allPairs mapF d files))).
Proof using All.
  pose proof Hjob as [Hn Hcr Hcm _ Hin _ _ _].
  intros Hs. assert (cinv job files n mapF reduceF d w) as Hw by (eapply calm_inv; [by eapply cstart_inv|done]). split.
  - intros l Hc Hl. pose proof (cstep_inv creatable job files n mapF reduceF Hn Hcr Hcm Hin d Hjob w l Hw Hc) as H. by rewrite Hl in H.
  - intros Hc. unfold cinv in Hw. rewrite Hc in Hw. apply Hw.
Qed.
End report.

(** ** Theorems *)

(** C13. Tasks may overlap within a phase.  For a job as [job_ok] has it (a
    positive number of reduce tasks, every file of the job can be created, no
    intermediate file is left over from an earlier job, no input is an
    intermediate file of the job, keys and values are valid UTF-8): however the file
    operations of any number of executions of the tasks are interleaved, if no
    execution is under way when a phase returns and when the files are merged,
    no operation panics and the merged output is the report of the map-reduce
    specification. *)
Theorem overlapping_tasks {J : Json} {JO : JsonOk} creatable job files n mapF reduceF d w :
  job_ok creatable job n mapF reduceF files d →
  calm_steps creatable job files n mapF reduceF (cstart d) w →
  (∀ l, calm w l → cstep creatable job files n mapF reduceF w l ≠ Panicked) ∧
  (w.(cat) = AfterMerge → w.(cdisk) !! outputName job = Some (report reduceF (allPairs mapF d files))).
Proof. intros Hjob. by apply concurrent_report. Qed.
