(* ===== verification/MRUndisturbed.v ===== *)
(** * An undisturbed execution of a MapReduce task

    The operations of MROperations.v, performed one after the other by a single
    execution, have the effect of [doMap] and [doReduce] of MRTasks.v: the two
    models of common_map.go and common_reduce.go agree.  A write at the offset
    of the only descriptor appends to the file. *)
From S2P Require Import Prelude GoStrings MRFiles MRTasks MRSpec MRSchedule MRShared MROperations.

Section undisturbed.
Context {J : Json} (creatable : string → bool) (job : string) (files : list string) (nReduce : Z).
Context (mapF : string → string → list KeyValue) (reduceF : string → list string → string).
Implicit Types (d : fs) (pc : epc).

(** The operations of one execution, with nothing in between. *)
Definition undisturbed (arg : DoTaskArgs) : epc * fs → epc * fs → Prop :=
  rtc (λ s s', ∃ k, taskExec creatable mapF reduceF arg k s.1 s.2 = Done s').

Definition mapArg (t : nat) (f : string) : DoTaskArgs := mkTaskArgs job f mapPhase (Z.of_nat t) nReduce.
Definition reduceArg (t : nat) : DoTaskArgs := mkTaskArgs job "" reducePhase (Z.of_nat t) (len files).

Lemma overwrite_end (c data : list ascii) : overwrite (length c) data c = c ++ data.
Proof.
  unfold overwrite. rewrite Nat.sub_diag. simpl. rewrite app_nil_r, firstn_all.
  rewrite drop_ge by lia. by rewrite app_nil_r.
Qed.

(** Writing at the end is appending. *)
Lemma WriteAt_end name (o : nat) data d :
  (creatable name = true → ∃ c, d !! name = Some c ∧ o = String.length c) →
  WriteAt creatable name o data d = Append creatable name data d.
Proof.
  intros H. unfold WriteAt, Append. destruct (creatable name); [|done]. destruct (H eq_refl) as (c & Hc & ->).
  unfold alter, map_alter. apply partial_alter_ext. intros x Hx. rewrite Hc in Hx. subst x. simpl. f_equal.
  apply bytes_inj. by rewrite bytes_unbytes, bytes_app, <- bytes_length, overwrite_end.
Qed.

Lemma Append_lookup name data d c :
  creatable name = true → d !! name = Some c → Append creatable name data d !! name = Some (c +:+ data).
Proof. intros Hc Hd. unfold Append. by rewrite Hc, lookup_alter_eq, Hd. Qed.

Lemma Append_other name name' data d : name ≠ name' → Append creatable name data d !! name' = d !! name'.
Proof. intros H. unfold Append. destruct (creatable name); [by rewrite lookup_alter_ne|done]. Qed.

Lemma Create_lookup name d : creatable name = true → Create creatable name d !! name = Some "".
Proof. intros Hc. unfold Create. by rewrite Hc, lookup_insert_eq. Qed.

Lemma Create_other name name' d : name ≠ name' → Create creatable name d !! name' = d !! name'.
Proof. intros H. unfold Create. destruct (creatable name); [by rewrite lookup_insert_ne|done]. Qed.

(** ** doMap *)

(** The offsets of the encoders are the lengths of their files. *)
Definition same_encs (t : nat) (encs : list (option nat)) (opened : list bool) d : Prop :=
  len encs = len opened ∧
  ∀ r x b, 0 ≤ r → slice_get encs r = Some x → slice_get opened r = Some b →
    b = bool_decide (is_Some x) ∧
    ∀ o, x = Some o → creatable (reduceName job (Z.of_nat t) r) = true →
      ∃ c, d !! reduceName job (Z.of_nat t) r = Some c ∧ o = String.length c.

(** One encoder's offset and file change. *)
Lemma same_encs_insert t encs opened d r o d' :
  same_encs t encs opened d → 0 ≤ r < len encs →
  (creatable (reduceName job (Z.of_nat t) r) = true →
     ∃ c, d' !! reduceName job (Z.of_nat t) r = Some c ∧ o = String.length c) →
  (∀ r', r' ≠ r → d' !! reduceName job (Z.of_nat t) r' = d !! reduceName job (Z.of_nat t) r') →
  same_encs t (<[Z.to_nat r := Some o]> encs) (<[Z.to_nat r := true]> opened) d'.
Proof.
  intros [Hl H] Hr Hfile Hother. split; [by autorewrite with slices|]. intros r' x b Hr' Hx Hb.
  destruct (decide (r' = r)) as [->|Hne].
  - rewrite slice_get_insert_eq in Hx by lia. rewrite slice_get_insert_eq in Hb by lia. injection Hx as <-. injection Hb as <-. split; [done|].
    intros o' [= <-]. exact Hfile.
  - rewrite slice_get_insert_ne in Hx by lia. rewrite slice_get_insert_ne in Hb by lia. rewrite Hother by done. by apply H.
Qed.

Lemma op_step arg pc k d pc' d' s :
  taskExec creatable mapF reduceF arg k pc d = Done (pc', d') → undisturbed arg (pc', d') s → undisturbed arg (pc, d) s.
Proof. intros H Hs. eapply rtc_l; [|exact Hs]. by exists k. Qed.

(** A pair whose encoder is open. *)
Lemma write_pair t f encs opened d kv kvs r o s :
  partition kv.(kvKey) nReduce = Ok r → 0 ≤ r → slice_get encs r = Some (Some o) →
  same_encs t encs opened d → slice_get opened r = Some true →
  let d' := Append creatable (reduceName job (Z.of_nat t) r) (encode kv) d in
  (∀ encs', same_encs t encs' (<[Z.to_nat r := true]> opened) d' → undisturbed (mapArg t f) ((AtPair encs' kvs), d') s) →
  undisturbed (mapArg t f) ((AtPair encs (kv :: kvs)), d) s.
Proof.
  intros Hp Hr Ho Hsame Hop d' Hs. pose proof (slice_get_bound _ _ _ Ho) as Hb.
  destruct Hsame as [Hl H]. destruct (H r _ _ Hr Ho Hop) as [_ Hfile]. specialize (Hfile o eq_refl).
  apply (op_step _ _ 0 d ((AtPair (<[Z.to_nat r := Some (o + String.length (encode kv))%nat]> encs) kvs)) d').
  - unfold taskExec. simpl. rewrite Hp. simpl. rewrite Ho. simpl. by rewrite WriteAt_end.
  - apply Hs. apply (same_encs_insert t encs opened d); [done|done| |].
    + intros Hc. destruct (Hfile Hc) as (c & Hd & ->). exists (c +:+ encode kv). split; [by apply Append_lookup|].
      by rewrite String_length_app.
    + intros r' Hne. apply Append_other. intros [_ ?]%reduceName_inj; (done || lia).
Qed.

(** The loop over the pairs. *)
Lemma map_loop t f kvs encs opened d d' opened' :
  same_encs t encs opened d →
  forEach (mapStep creatable job (Z.of_nat t) nReduce) kvs (d, opened) = Ok (d', opened') →
  undisturbed (mapArg t f) ((AtPair encs kvs), d) (AtEnd, d').
Proof.
  revert encs opened d. induction kvs as [|kv kvs IH]; intros encs opened d Hsame.
  { intros [= <- _]. eapply (op_step _ _ 0); [done|apply rtc_refl]. }
  cbn [forEach]. unfold mapStep at 1. destruct (partition (kvKey kv) nReduce) as [r| |] eqn:Hp; simpl; [|done..].
  destruct (slice_get opened r) as [b|] eqn:Hop; [|done]. pose proof (slice_get_bound _ _ _ Hop) as Hb.
  pose proof Hsame as [Hl H]. destruct (slice_get_inr encs r) as [x Hx]; [lia|].
  destruct (H r x b ltac:(lia) Hx Hop) as [-> _]. destruct x as [o|]; simpl.
  - intros Hloop. apply (write_pair t f encs opened d kv kvs r o); [done|lia|done|done|done|]. intros encs' Hsame'.
    eapply IH; [exact Hsame'|]. by rewrite list_insert_id by (by apply slice_get_lookup in Hop as [_ ?]).
  - intros Hloop. set (d1 := Create creatable (reduceName job (Z.of_nat t) r) d) in *.
    assert (same_encs t (<[Z.to_nat r := Some 0%nat]> encs) (<[Z.to_nat r := true]> opened) d1) as Hsame1.
    { apply (same_encs_insert t encs opened d); [done|lia| |].
      - intros Hc. exists "". split; [by apply Create_lookup|done].
      - intros r' Hne. apply Create_other. intros [_ ?]%reduceName_inj; (done || lia). }
    apply (op_step _ _ 0 d ((AtPair (<[Z.to_nat r := Some 0%nat]> encs) (kv :: kvs))) d1).
    { unfold taskExec. simpl. rewrite Hp. simpl. by rewrite Hx. }
    apply (write_pair t f _ (<[Z.to_nat r := true]> opened) d1 kv kvs r 0%nat); [done|lia| |done| |].
    + by rewrite slice_get_insert_eq by lia.
    + by rewrite slice_get_insert_eq by lia.
    + intros encs' Hsame'. eapply IH; [exact Hsame'|]. by rewrite list_insert_insert_eq.
Qed.

Lemma undisturbed_map t f d d' :
  doMap creatable job (Z.of_nat t) f nReduce mapF d = Ok d' →
  undisturbed (mapArg t f) (AtRead, d) (AtEnd, d').
Proof.
  unfold doMap. case_decide as Hneg; [done|].
  destruct (forEach _ _ _) as [[d1 opened]| |] eqn:Hloop; simpl; [|done..]. intros [= <-].
  apply (op_step _ _ 0 d ((AtPair (replicate (Z.to_nat nReduce) None) (mapF f (default "" (d !! f))))) d).
  { unfold taskExec. simpl. by rewrite decide_False. }
  eapply map_loop; [|exact Hloop]. split; [by autorewrite with slices|].
  intros r x b Hr [-> _]%slice_get_replicate [-> _]%slice_get_replicate. by split.
Qed.

(** ** doReduce *)

(** The decoding of one intermediate file. *)
Lemma decode_file t m b d s :
  0 ≤ m < len files →
  undisturbed (reduceArg t) ((AtOpen (m + 1) (foldl addToBucket b (fileRecords (reduceName job m (Z.of_nat t)) d))), d) s →
  undisturbed (reduceArg t) ((AtOpen m b), d) s.
Proof.
  intros Hm Hs. unfold fileRecords in Hs. destruct (d !! reduceName job m (Z.of_nat t)) as [c|] eqn:Hc.
  2: { eapply (op_step _ _ 0); [|exact Hs]. unfold taskExec. simpl. rewrite decide_True by lia. by rewrite Hc. }
  apply (op_step _ _ 0 d ((AtDecode m "" b)) d).
  { unfold taskExec. simpl. rewrite decide_True by lia. by rewrite Hc. }
  assert (undisturbed (reduceArg t) ((AtDecode m c b), d) s) as Hend.
  { eapply (op_step _ _ 0); [|exact Hs]. unfold taskExec. simpl. rewrite Hc. simpl. by rewrite decide_False by lia. }
  destruct (decide (c = "")) as [->|Hne]; [exact Hend|].
  apply (op_step _ _ (length (bytes c)) d ((AtDecode m c b)) d); [|exact Hend].
  unfold taskExec. simpl. rewrite Hc. simpl. rewrite decide_True by (destruct c; simpl; [done|lia]). simpl.
  rewrite drop_0, take_ge by lia. by rewrite unbytes_bytes.
Qed.

Lemma decode_files t (ms : nat) m b d s :
  0 ≤ m → m + Z.of_nat ms = len files →
  undisturbed (reduceArg t) ((AtOpen (len files)
    (foldl (λ b m, foldl addToBucket b (fileRecords (reduceName job m (Z.of_nat t)) d)) b (seqZ m (Z.of_nat ms)))), d) s →
  undisturbed (reduceArg t) ((AtOpen m b), d) s.
Proof.
  revert m b. induction ms as [|ms IH]; intros m b Hm Hsum Hs.
  { rewrite seqZ_nil in Hs by lia. by replace m with (len files) by lia. }
  apply decode_file; [lia|]. apply IH; [lia|lia|]. rewrite seqZ_cons in Hs by lia. simpl in Hs.
  by replace (Z.pred (Z.of_nat (S ms))) with (Z.of_nat ms) in Hs by lia.
Qed.

(** The loop over the keys. *)
Lemma write_records t kvs o d :
  (creatable (mergeName job (Z.of_nat t)) = true → ∃ c, d !! mergeName job (Z.of_nat t) = Some c ∧ o = String.length c) →
  undisturbed (reduceArg t) ((AtWrite o kvs), d)
    (AtEnd, foldl (λ d kv, Append creatable (mergeName job (Z.of_nat t)) (encode kv) d) d kvs).
Proof.
  revert o d. induction kvs as [|kv kvs IH]; intros o d Hfile; [eapply (op_step _ _ 0); [done|apply rtc_refl]|].
  eapply (op_step _ _ 0); [unfold taskExec; simpl; by rewrite WriteAt_end|]. simpl. apply IH. intros Hc.
  destruct (Hfile Hc) as (c & Hd & ->). exists (c +:+ encode kv). split; [by apply Append_lookup|]. by rewrite String_length_app.
Qed.

Lemma foldl_fmap_key {A B C} (f : A → B → A) (g : C → B) l a : foldl (λ a x, f a (g x)) a l = foldl f a (g <$> l).
Proof. revert a. induction l as [|x l IH]; intros a; simpl; [done|apply IH]. Qed.

Lemma undisturbed_reduce t d :
  undisturbed (reduceArg t) (AtOpen 0 ∅, d)
    (AtEnd, doReduce creatable job (Z.of_nat t) (len files) reduceF d).
Proof.
  apply (decode_files t (length files) 0 ∅ d); [lia|done|]. unfold doReduce, range. fold (len files).
  set (b := foldl _ ∅ _).
  set (kvs := (λ key, mkKV key (reduceF key (default [] (b !! key)))) <$> sortStrings (elements (dom b))).
  apply (op_step _ _ 0 d ((AtCreate kvs)) d).
  { unfold taskExec. simpl. by rewrite decide_False by lia. }
  eapply (op_step _ _ 0); [done|].
  rewrite (foldl_fmap_key (λ d kv, Append creatable (mergeName job (Z.of_nat t)) (encode kv) d)
    (λ key, mkKV key (reduceF key (default [] (b !! key))))). fold kvs.
  apply write_records. intros Hc. exists "". split; [by apply Create_lookup|done].
Qed.
End undisturbed.

(** An undisturbed execution of a task performs the task: executing the
    operations of a map or reduce task one after the other, reads of a suitable
    size included, takes the disk to what [DoTask] makes of it, if [DoTask]
    returns. *)
Lemma undisturbed_task {J : Json} creatable job files n mapF reduceF phase t arg d d' :
  taskArgs job files n phase t = Some arg → DoTask creatable mapF reduceF arg d = Ok d' →
  undisturbed creatable mapF reduceF arg (taskBegin phase, d) (AtEnd, d').
Proof.
  intros Ha Hd. destruct phase.
  - apply taskArgs_map in Ha as (f & Hf & ->). unfold DoTask in Hd. simpl in Hd. by apply undisturbed_map.
  - apply taskArgs_reduce in Ha as ->. unfold DoTask in Hd. simpl in Hd. injection Hd as <-. apply undisturbed_reduce.
Qed.
