(* ===== verification/MRWorker.v ===== *)
(** * MapReduce: the worker process

    [Worker], [Shutdown], [RunWorker] (src/src/mapreduce/worker.go) as a
    transition system over the shared disk.  The loop of [RunWorker] has a
    program counter; a connection to the worker's socket carries the single
    request that [call] (common_rpc.go) sends on it, and is served by a
    goroutine of its own, which executes a task one file operation at a time
    (MROperations.v), whatever has become of the caller.  The counters are what
    the mutex protects, so a handler runs between any two steps of the loop. *)
From S2P Require Import Prelude GoStrings MRFiles MRTasks MRSchedule MROperations.

Record Worker := mkWorker { wname : string; nRPC : Z; nTasks : Z }.

(** [Shutdown]: the new worker and [res.Ntasks]. *)
Definition Shutdown (wk : Worker) : Worker * Z :=
  let ntasks := wk.(nTasks) in
  let wk := mkWorker wk.(wname) 1 wk.(nTasks) in
  let wk := mkWorker wk.(wname) wk.(nRPC) (wk.(nTasks) - 1) in
  (wk, ntasks).

Inductive wrequest := RDoTask (arg : DoTaskArgs) | RShutdown.

(** A connection: in the listener's queue, refused, being served, lost before
    its request was handled, with [DoTask] being executed, or answered (with
    [Ntasks] for [Shutdown]). *)
Inductive wconn :=
| CDialed | CRefused | CServing | CLost | CWorking (pc : epc) | CAnswered (ntasks : option Z).

(** Where [RunWorker] is: in [wk.register], before the test of [nRPC], in
    [Accept], before [nRPC--] with a new connection, before [nTasks++], before
    [wk.l.Close()], or at the end. *)
Inductive wpc := PRegister | PCheck | PAccept | PServe (k : nat) | PCount | PClose | PExited.

Record wproc := mkProc { wk : Worker; pc : wpc; conns : list (wrequest * wconn) }.

Inductive wlabel :=
| WDial (r : wrequest)       (* a client dials and sends its request *)
| WRegister (ok : bool)      (* the registration call returns *)
| WCheck
| WAccept (k : nat)
| WAcceptErr
| WServe
| WCount
| WClose
| WHandle (k : nat)          (* a handler is called; [Shutdown] runs to its end *)
| WOp (k n : nat)            (* an operation of the task that is executed for [k] *)
| WReply (k : nat)           (* [DoTask] returns *)
| WLose (k : nat).

Definition set_pc (p : wpc) (w : wproc) : wproc := mkProc w.(wk) p w.(conns).
Definition set_wk (x : Worker) (w : wproc) : wproc := mkProc x w.(pc) w.(conns).
Definition set_conn (k : nat) (c : wrequest * wconn) (w : wproc) : wproc :=
  mkProc w.(wk) w.(pc) (<[k := c]> w.(conns)).

Definition listening (p : wpc) : bool := match p with PExited => false | _ => true end.

(** Closing the listener refuses what is in its queue. *)
Definition refuse (c : wrequest * wconn) : wrequest * wconn :=
  match c.2 with CDialed => (c.1, CRefused) | _ => c end.

(** [RunWorker] up to the registration; it ends the process if it cannot listen. *)
Definition RunWorker (listen : bool) (me : string) (n : Z) : result wproc :=
  let wk := mkWorker me n 0 in
  if negb listen then Fatal else Ok (mkProc wk PRegister []).

Section worker.
Context {J : Json} (creatable : string → bool).
Context (mapF : string → string → list KeyValue) (reduceF : string → list string → string).

(** The request [r] is handled by the worker: the new worker, and what becomes
    of the connection. *)
Definition handle (r : wrequest) (wk : Worker) : Worker * wconn :=
  match r with
  | RDoTask arg => (wk, CWorking (taskBegin arg.(tPhase)))
  | RShutdown => let (wk, ntasks) := Shutdown wk in (wk, CAnswered (Some ntasks))
  end.

Definition wstep (dw : fs * wproc) (l : wlabel) : outcome (fs * wproc) :=
  let (d, w) := dw in
  (match l, w.(pc) with
   | WDial r, p =>
     let c := if listening p then CDialed else CRefused in
     Done (d, mkProc w.(wk) p (w.(conns) ++ [(r, c)]))
   | WRegister _, PRegister => Done (d, set_pc PCheck w)
   | WCheck, PCheck => Done (d, set_pc (if decide (w.(wk).(nRPC) = 0) then PClose else PAccept) w)
   | WAccept k, PAccept =>
     c <~ enabled (w.(conns) !! k);
     match c.2 with CDialed => Done (d, set_pc (PServe k) w) | _ => Disabled end
   | WAcceptErr, PAccept => Done (d, set_pc PClose w)
   | WServe, PServe k =>
     c <~ enabled (w.(conns) !! k);
     let x := w.(wk) in
     let w := set_wk (mkWorker x.(wname) (x.(nRPC) - 1) x.(nTasks)) w in
     Done (d, set_pc PCount (set_conn k (c.1, CServing) w))
   | WCount, PCount =>
     let x := w.(wk) in
     Done (d, set_pc PCheck (set_wk (mkWorker x.(wname) x.(nRPC) (x.(nTasks) + 1)) w))
   | WClose, PClose => Done (d, mkProc w.(wk) PExited (refuse <$> w.(conns)))
   | WHandle k, _ =>
     c <~ enabled (w.(conns) !! k);
     match c.2 with
     | CServing => let (x, c') := handle c.1 w.(wk) in Done (d, set_conn k (c.1, c') (set_wk x w))
     | _ => Disabled
     end
   | WOp k n, _ =>
     c <~ enabled (w.(conns) !! k);
     match c with
     | (RDoTask arg, CWorking pc) =>
       '(pc, d) <~ taskExec creatable mapF reduceF arg n pc d;
       Done (d, set_conn k (RDoTask arg, CWorking pc) w)
     | _ => Disabled
     end
   | WReply k, _ =>
     c <~ enabled (w.(conns) !! k);
     match c with
     | (RDoTask arg, CWorking AtEnd) => Done (d, set_conn k (RDoTask arg, CAnswered None) w)
     | _ => Disabled
     end
   | WLose k, _ =>
     c <~ enabled (w.(conns) !! k);
     match c.2 with CServing => Done (d, set_conn k (c.1, CLost) w) | _ => Disabled end
   | _, _ => Disabled
   end)%outcome.

(** Executions whose labels satisfy [P] in the state they are taken in. *)
Definition wsteps (P : wproc → wlabel → Prop) : fs * wproc → fs * wproc → Prop :=
  rtc (λ dw dw', ∃ l, P dw.2 l ∧ wstep dw l = Done dw').
Definition any (w : wproc) (l : wlabel) : Prop := True.

(** ** What the counters count *)

Definition served_conn (c : wrequest * wconn) : option unit :=
  match c.2 with CServing | CLost | CWorking _ | CAnswered _ => Some tt | _ => None end.
Definition shutdown_conn (c : wrequest * wconn) : option unit :=
  match c with (RShutdown, CAnswered _) => Some tt | _ => None end.

(** The connections [RunWorker] has started to serve, and the [Shutdown]s that
    have been handled. *)
Definition served (w : wproc) : Z := len (omap served_conn w.(conns)).
Definition shutdowns (w : wproc) : Z := len (omap shutdown_conn w.(conns)).

(** A connection that [nTasks] does not include yet. *)
Definition uncounted (p : wpc) : Z := match p with PCount => 1 | _ => 0 end.

(** Between the test of [nRPC] and its decrement. *)
Definition accepting (p : wpc) : Prop :=
  match p with PAccept | PServe _ => True | _ => False end.
Definition left_loop (p : wpc) : Prop :=
  match p with PClose | PExited => True | _ => False end.

Definition one_if (o : option unit) : Z := match o with Some _ => 1 | None => 0 end.

Lemma len_omap_insert {A} (f : A → option unit) l k x y :
  l !! k = Some x → len (omap f (<[k := y]> l)) + one_if (f x) = len (omap f l) + one_if (f y).
Proof.
  intros Hk. unfold len.
  rewrite (Permutation_length (omap_insert f l k x y Hk)), (Permutation_length (omap_delete f l k x Hk)).
  rewrite !length_app. destruct (f x), (f y); simpl; lia.
Qed.

Lemma omap_snoc {A} (f : A → option unit) l x : len (omap f (l ++ [x])) = len (omap f l) + one_if (f x).
Proof. rewrite omap_app, len_app. simpl. by destruct (f x). Qed.

(** How the counts change when the connections do. *)
Lemma counts_same w w' : w'.(conns) = w.(conns) → served w' = served w ∧ shutdowns w' = shutdowns w.
Proof. unfold served, shutdowns. by intros ->. Qed.

Lemma counts_insert w w' k c c' :
  w.(conns) !! k = Some c → w'.(conns) = <[k := c']> w.(conns) →
  served w' = served w - one_if (served_conn c) + one_if (served_conn c') ∧
  shutdowns w' = shutdowns w - one_if (shutdown_conn c) + one_if (shutdown_conn c').
Proof.
  intros Hk Hw. unfold served, shutdowns. rewrite Hw.
  pose proof (len_omap_insert served_conn _ k _ c' Hk).
  pose proof (len_omap_insert shutdown_conn _ k _ c' Hk). lia.
Qed.

Lemma counts_dial w w' r c :
  w'.(conns) = w.(conns) ++ [(r, c)] → c = CDialed ∨ c = CRefused →
  served w' = served w ∧ shutdowns w' = shutdowns w.
Proof.
  intros Hw Hc. unfold served, shutdowns. rewrite Hw, !omap_snoc.
  by destruct Hc as [-> | ->], r; cbn; rewrite !Z.add_0_r.
Qed.

Lemma counts_refuse w w' :
  w'.(conns) = refuse <$> w.(conns) → served w' = served w ∧ shutdowns w' = shutdowns w.
Proof.
  intros Hw. unfold served, shutdowns. rewrite Hw.
  rewrite (omap_fmap_same served_conn) by (by intros [? []]).
  by rewrite (omap_fmap_same shutdown_conn) by (by intros [[] []]).
Qed.

(** The invariant of a worker process. *)
Record winv (w : wproc) : Prop := {
  wi_tasks : w.(wk).(nTasks) + shutdowns w + uncounted w.(pc) = served w;
  wi_quota : accepting w.(pc) → w.(wk).(nRPC) ≠ 0;
  wi_conn : ∀ k, w.(pc) = PServe k → ∃ r, w.(conns) !! k = Some (r, CDialed)
}.

(** A label other than a handled [Shutdown] or a failing [Accept]. *)
Definition ordinary (w : wproc) (l : wlabel) : Prop :=
  match l with
  | WAcceptErr => False
  | WHandle k => (fst <$> w.(conns) !! k) ≠ Some RShutdown
  | _ => True
  end.

(** What an ordinary step from [w] to [w'] does to the quota. *)
Definition pays (w w' : wproc) : Prop :=
  (w'.(wk).(nRPC) = w.(wk).(nRPC) ∧ served w' = served w ∧
   (left_loop w'.(pc) → left_loop w.(pc) ∨ w.(wk).(nRPC) = 0)) ∨
  (w.(wk).(nRPC) ≠ 0 ∧ w'.(wk).(nRPC) = w.(wk).(nRPC) - 1 ∧ served w' = served w + 1 ∧ ¬ left_loop w'.(pc)).

(** A step of the loop that leaves the connections alone. *)
Lemma loop_inv w w' :
  winv w → w'.(conns) = w.(conns) →
  w'.(wk).(nTasks) + uncounted w'.(pc) = w.(wk).(nTasks) + uncounted w.(pc) →
  (accepting w'.(pc) → w'.(wk).(nRPC) ≠ 0) →
  (∀ k, w'.(pc) = PServe k → ∃ r, w.(conns) !! k = Some (r, CDialed)) → winv w'.
Proof.
  intros [Ht _ _] Hc Hn Hq Hk. destruct (counts_same w w' Hc) as [Hs Hd].
  split; [lia|done|by rewrite Hc].
Qed.

(** A step that changes connection [k], which the loop is done with. *)
Lemma conn_inv w w' k c c' :
  winv w → w.(conns) !! k = Some c → one_if (served_conn c) = 1 → one_if (shutdown_conn c) = 0 → w'.(conns) = <[k := c']> w.(conns) →
  w'.(pc) = w.(pc) → one_if (served_conn c') = 1 →
  w'.(wk).(nTasks) + one_if (shutdown_conn c') = w.(wk).(nTasks) →
  (accepting w.(pc) → w'.(wk).(nRPC) ≠ 0) →
  winv w' ∧ served w' = served w.
Proof.
  intros [Ht _ Hc] Hk E1 E2 Hw Hp H1 Hn Hq. destruct (counts_insert w w' k c c' Hk Hw) as [Hs Hd].
  split; [|lia]. split; rewrite ?Hp; [lia|done|]. intros j Hj. destruct (Hc j Hj) as [r Hr].
  exists r. rewrite Hw, list_lookup_insert_ne; [done|]. intros ->. by simplify_eq/=.
Qed.

(** One that is neither a handled [Shutdown] nor one of the loop. *)
Lemma conn_pays w k r c c' :
  winv w → w.(conns) !! k = Some (r, c) → served_conn (r, c) = Some tt → served_conn (r, c') = Some tt →
  shutdown_conn (r, c) = None → shutdown_conn (r, c') = None →
  let w' := set_conn k (r, c') w in winv w' ∧ pays w w'.
Proof.
  intros Hw Hk E1 E2 E3 E4 w'.
  destruct (conn_inv w w' k (r, c) (r, c')) as [Hw' E]; rewrite ?E1, ?E2, ?E3, ?E4; try done.
  - simpl. lia.
  - apply (wi_quota _ Hw).
  - split; [done|]. left. by split_and!; [..|left].
Qed.

Lemma wstep_inv d d' w w' l :
  winv w → wstep (d, w) l = Done (d', w') → winv w' ∧ (ordinary w l → pays w w').
Proof.
  intros Hw Hs. pose proof Hw as [Ht Hq Hc]. unfold pays. destruct l; simpl in Hs.
  - (* WDial *) injection Hs as <- <-. set (w' := mkProc _ _ _).
    destruct (counts_dial w w' r (if listening (pc w) then CDialed else CRefused)) as [E1 E2];
      [reflexivity|destruct (listening (pc w)); by auto|].
    split; [|by intros _; left; split_and!; [..|left]]. split; simpl; [by rewrite E1, E2|done|].
    intros k Hk. destruct (Hc k Hk) as [r' Hr]. exists r'. by apply lookup_app_l_Some.
  - (* WRegister *) destruct (pc w) eqn:Hp; simplify_eq. split; [by apply (loop_inv w); rewrite ?Hp|by left].
  - (* WCheck *) destruct (pc w) eqn:Hp; simplify_eq. split.
    + by apply (loop_inv w); simpl; rewrite ?Hp; try case_decide.
    + intros _. left. split_and!; [done..|]. simpl. case_decide; [by right|done].
  - (* WAccept *) destruct (pc w) eqn:Hp; simplify_eq.
    destruct (conns w !! k) as [[r []]|] eqn:Hk; simplify_eq/=. split; [|by left].
    apply (loop_inv w); simpl; rewrite ?Hp; [done..|by intros _; apply Hq|]. intros ? [= <-]. eauto.
  - (* WAcceptErr *) destruct (pc w) eqn:Hp; simplify_eq. split; [by apply (loop_inv w); rewrite ?Hp|done].
  - (* WServe *) destruct (pc w) eqn:Hp; simplify_eq. destruct (Hc k eq_refl) as [r Hr].
    rewrite Hr in Hs. cbn [enabled outcome_bind fst] in Hs. injection Hs as <- <-. set (w' := set_pc _ _).
    destruct (counts_insert w w' k _ (r, CServing) Hr) as [E1 E2]; [done|].
    assert (served w' = served w + 1 ∧ shutdowns w' = shutdowns w) as [E1' E2'] by (destruct r; simpl in E1, E2; lia).
    split; [split; simpl in *; [lia|done..]|]. intros _. right. split_and!; [by apply Hq|done..|by intros []].
  - (* WCount *) destruct (pc w) eqn:Hp; simplify_eq. split; [|by left].
    apply (loop_inv w); simpl; rewrite ?Hp; [done..|simpl; lia|done|done].
  - (* WClose *) destruct (pc w) eqn:Hp; simplify_eq. set (w' := mkProc _ _ _).
    destruct (counts_refuse w w') as [E1 E2]; [done|].
    split; [by split; simpl in *; [rewrite E1, E2|..]|]. intros _. left. split_and!; [done..|by left].
  - (* WHandle *) destruct (conns w !! k) as [[r []]|] eqn:Hk; simplify_eq/=. destruct r as [arg|]; simpl in Hs; simplify_eq.
    + edestruct (conn_pays w k (RDoTask arg) CServing (CWorking (taskBegin (tPhase arg)))) as [Hw' E]; [done..|].
      split; [exact Hw'|by intros _].
    + split; [|by rewrite Hk].
      edestruct (conn_inv w (set_conn k (RShutdown, CAnswered (Some (nTasks (wk w)))) (set_wk (Shutdown (wk w)).1 w)))
        as [Hw' E]; [done|exact Hk|done|done|reflexivity|done|reflexivity|cbn; lia|done|done].
  - (* WOp *) destruct (conns w !! k) as [[[arg|] [| | | |p|]]|] eqn:Hk; simplify_eq/=.
    destruct (taskExec _ _ _ _ _ _ _) as [[pc' d1]| |]; simplify_eq/=.
    edestruct (conn_pays w k (RDoTask arg) (CWorking p) (CWorking pc')) as [Hw' E]; [done..|]. split; [exact Hw'|by intros _].
  - (* WReply *) destruct (conns w !! k) as [[[arg|] [| | | |[]|]]|] eqn:Hk; simplify_eq/=.
    edestruct (conn_pays w k (RDoTask arg) (CWorking AtEnd) (CAnswered None)) as [Hw' E]; [done..|].
    split; [exact Hw'|by intros _].
  - (* WLose *) destruct (conns w !! k) as [[r []]|] eqn:Hk; simplify_eq/=.
    edestruct (conn_pays w k r CServing CLost) as [Hw' E]; [done|done|done|done|by destruct r|by destruct r|].
    split; [exact Hw'|by intros _].
Qed.

Lemma wsteps_inv P dw dw' : winv dw.2 → wsteps P dw dw' → winv dw'.2.
Proof.
  intros Hw Hs. induction Hs as [|[d1 w1] [d2 w2] dw3 (l & _ & Hl) _ IH]; [done|].
  apply IH. by eapply wstep_inv in Hl as [? _].
Qed.

Lemma RunWorker_inv listen me n w : RunWorker listen me n = Ok w → winv w.
Proof. unfold RunWorker. destruct listen; intros; simplify_eq/=. by split. Qed.

(** Ordinary executions from [w] stay within its quota. *)
Lemma wsteps_pays dw dw' :
  winv dw.2 → wsteps ordinary dw dw' →
  0 ≤ dw.2.(wk).(nRPC) → (left_loop dw.2.(pc) → dw.2.(wk).(nRPC) = 0) →
  dw'.2.(wk).(nRPC) + served dw'.2 = dw.2.(wk).(nRPC) + served dw.2 ∧
  0 ≤ dw'.2.(wk).(nRPC) ∧ (left_loop dw'.2.(pc) → dw'.2.(wk).(nRPC) = 0).
Proof.
  intros Hw Hs. induction Hs as [|[d1 w1] [d2 w2] dw3 (l & Ho & Hl) _ IH]; [done|]. simpl in *.
  intros Hq Hleft. destruct (wstep_inv d1 d2 w1 w2 l Hw Hl) as [Hw2 Hp]. specialize (Hp Ho). unfold pays in Hp.
  assert (0 ≤ nRPC (wk w2) ∧ (left_loop (pc w2) → nRPC (wk w2) = 0)) as [? ?] by naive_solver lia.
  destruct IH as (-> & ? & ?); [done..|]. split_and!; [lia|done|done].
Qed.

(** ** The tasks a worker executes *)

(** A task that has been started, and where it is. *)
Definition at_task (c : wrequest * wconn) : option (DoTaskArgs * epc) :=
  match c with
  | (RDoTask arg, CWorking pc) => Some (arg, pc)
  | (RDoTask arg, CAnswered _) => Some (arg, AtEnd)
  | _ => None
  end.

(** A task that may still be started, and one that has not been answered. *)
Definition pending (c : wrequest * wconn) : option DoTaskArgs :=
  match c with (RDoTask arg, (CDialed | CServing)) => Some arg | _ => None end.
Definition unanswered (c : wrequest * wconn) : option DoTaskArgs :=
  match c with (RDoTask arg, (CDialed | CServing | CWorking _)) => Some arg | _ => None end.

(** No task is started or goes on. *)
Definition untouched (c c' : option (wrequest * wconn)) : Prop :=
  c' ≫= at_task = c ≫= at_task ∧ ∀ arg, c' ≫= pending = Some arg → c ≫= pending = Some arg.

(** What a step does to a connection: its task is started, or performs an
    operation, or nothing happens to it. *)
Inductive moves (d : fs) (c c' : option (wrequest * wconn)) : fs → Prop :=
| MovesBegin arg :
    c ≫= pending = Some arg → c' ≫= pending = None → c' ≫= at_task = Some (arg, taskBegin arg.(tPhase)) →
    c ≫= at_task = None → moves d c c' d
| MovesOp arg n pc pc' d' :
    c ≫= at_task = Some (arg, pc) → taskExec creatable mapF reduceF arg n pc d = Done (pc', d') →
    c' ≫= at_task = Some (arg, pc') → c' ≫= pending = None → moves d c c' d'
| MovesNot : untouched c c' → moves d c c' d.

Lemma moves_pending d d' c c' arg : moves d c c' d' → c' ≫= pending = Some arg → c ≫= pending = Some arg.
Proof. intros [? _ E _ _|????? _ _ _ E|[_ E]]; [by rewrite E..|apply E]. Qed.

(** A step that is not a dial moves at most one task; it keeps the requests, and
    answers what it changes of an unanswered task. *)
Lemma wstep_conns d d' w w' l :
  winv w → wstep (d, w) l = Done (d', w') → (∀ r, l ≠ WDial r) →
  (∀ k, fst <$> w'.(conns) !! k = fst <$> w.(conns) !! k) ∧
  (∀ k arg, w'.(conns) !! k ≫= unanswered = Some arg → w.(conns) !! k ≫= unanswered = Some arg) ∧
  ∃ k, moves d (w.(conns) !! k) (w'.(conns) !! k) d' ∧
    ∀ k', k' ≠ k → untouched (w.(conns) !! k') (w'.(conns) !! k').
Proof.
  intros Hw Hs Hl.
  assert (∀ k r c c', conns w !! k = Some (r, c) → conns w' = <[k := (r, c')]> (conns w) →
    (∀ arg, unanswered (r, c') = Some arg → unanswered (r, c) = Some arg) → moves d (Some (r, c)) (Some (r, c')) d' →
    (∀ k, fst <$> conns w' !! k = fst <$> conns w !! k) ∧
    (∀ k arg, conns w' !! k ≫= unanswered = Some arg → conns w !! k ≫= unanswered = Some arg) ∧
    ∃ k, moves d (conns w !! k) (conns w' !! k) d' ∧ ∀ k', k' ≠ k → untouched (conns w !! k') (conns w' !! k')) as Hone.
  { intros k r c c' Hk Hc Hun Hm.
    assert (conns w' !! k = Some (r, c')) as Hk' by (rewrite Hc; apply list_lookup_insert_eq; by eapply lookup_lt_Some).
    assert (∀ j, j ≠ k → conns w' !! j = conns w !! j) as Hj by (intros j Hne; rewrite Hc; by apply list_lookup_insert_ne).
    split_and!.
    - intros j. destruct (decide (j = k)) as [->|Hne]; [by rewrite Hk, Hk'|by rewrite Hj].
    - intros j arg. destruct (decide (j = k)) as [->|Hne]; [rewrite Hk, Hk'; apply Hun|by rewrite Hj].
    - exists k. rewrite Hk, Hk'. split; [done|]. intros j Hne. by rewrite Hj. }
  assert (conns w' = conns w → d' = d →
    (∀ k, fst <$> conns w' !! k = fst <$> conns w !! k) ∧
    (∀ k arg, conns w' !! k ≫= unanswered = Some arg → conns w !! k ≫= unanswered = Some arg) ∧
    ∃ k, moves d (conns w !! k) (conns w' !! k) d' ∧ ∀ k', k' ≠ k → untouched (conns w !! k') (conns w' !! k')) as Hsame.
  { intros -> ->. split_and!; [done..|]. exists 0%nat. split; [by apply MovesNot|done]. }
  destruct l; simpl in Hs; [by destruct (Hl r)|..].
  1-4, 6: destruct (pc w); simplify_eq/=; try (destruct (conns w !! k) as [[? []]|]; simplify_eq/=); by apply Hsame.
  - destruct (pc w) as [| | |j| | |] eqn:Hp; simplify_eq. destruct (wi_conn _ Hw j Hp) as [r Hk].
    rewrite Hk in Hs. simplify_eq/=. eapply Hone; [exact Hk|done|by destruct r|]. apply MovesNot. split; by destruct r.
  - destruct (pc w); simplify_eq/=. split_and!; [..|exists 0%nat; split; [|intros k _]]; try intros k.
    all: simpl; rewrite list_lookup_fmap; try by destruct (conns w !! k) as [[[] []]|].
    all: try apply MovesNot; split; [|intros arg]; (destruct (conns w !! _) as [[[] []]|]; done).
  - destruct (conns w !! k) as [[r []]|] eqn:Hk; simplify_eq/=. destruct r as [arg|]; simpl in Hs; simplify_eq.
    + eapply Hone; [exact Hk|done|done|]. by eapply MovesBegin.
    + eapply Hone; [exact Hk|done|done|]. by apply MovesNot.
  - destruct (conns w !! k) as [[[arg|] []]|] eqn:Hk; simplify_eq/=.
    destruct (taskExec _ _ _ _ _ _ _) as [[pc' d1]| |] eqn:He; simplify_eq/=.
    eapply Hone; [exact Hk|done|done|]. by eapply MovesOp.
  - destruct (conns w !! k) as [[[arg|] [| | | |[]|]]|] eqn:Hk; simplify_eq/=.
    eapply Hone; [exact Hk|done|done|]. by apply MovesNot.
  - destruct (conns w !! k) as [[r []]|] eqn:Hk; simplify_eq/=.
    eapply Hone; [exact Hk|done|by destruct r|]. apply MovesNot. split; by destruct r.
Qed.

(** Only a task can end the process. *)
Lemma wstep_panics d w l :
  wstep (d, w) l = Panicked →
  ∃ k n arg pc, w.(conns) !! k = Some (RDoTask arg, CWorking pc) ∧ taskExec creatable mapF reduceF arg n pc d = Panicked.
Proof.
  intros Hs. destruct l; simpl in Hs; try done.
  1-7: destruct (pc w); try done; destruct (conns w !! k) as [[? []]|]; done.
  - destruct (conns w !! k) as [[[] []]|]; done.
  - destruct (conns w !! k) as [[[arg|] [| | | |p|]]|] eqn:Hk; try done. simpl in Hs. exists k, n, arg, p.
    split; [done|]. by destruct (taskExec _ _ _ _ _ _ _) as [[]| |].
  - destruct (conns w !! k) as [[[] [| | | |[]|]]|]; done.
  - destruct (conns w !! k) as [[r []]|]; done.
Qed.

(** The steps [RunWorker] takes on its own. *)
Definition own (w : wproc) (l : wlabel) : Prop :=
  match l with WRegister _ | WCheck | WCount | WClose => True | _ => False end.

Lemma own_step d w l dw' : own w l → wstep (d, w) l = Done dw' → wsteps own (d, w) dw'.
Proof. intros. apply rtc_once. by exists l. Qed.

(** With the quota used up the loop runs to its end. *)
Lemma exits d w :
  w.(wk).(nRPC) = 0 → ¬ accepting w.(pc) → ∃ dw', wsteps own (d, w) dw' ∧ dw'.2.(pc) = PExited.
Proof.
  intros Hq Hna.
  assert (∀ w, pc w = PClose → ∃ dw', wsteps own (d, w) dw' ∧ dw'.2.(pc) = PExited) as Hclose.
  { intros w1 Hp. eexists. split; [eapply (own_step _ _ WClose); [done|by cbn; rewrite Hp]|done]. }
  assert (∀ w, nRPC (wk w) = 0 → pc w = PCheck → ∃ dw', wsteps own (d, w) dw' ∧ dw'.2.(pc) = PExited) as Hcheck.
  { intros w1 Hq1 Hp. destruct (Hclose (set_pc PClose w1) eq_refl) as (dw' & Hs & He). exists dw'. split; [|done].
    etrans; [|exact Hs]. eapply (own_step _ _ WCheck); [done|]. cbn. by rewrite Hp, decide_True by done. }
  destruct (pc w) eqn:Hp; try done.
  - destruct (Hcheck (set_pc PCheck w)) as (dw' & Hs & He); [done..|]. exists dw'. split; [|done].
    etrans; [|exact Hs]. eapply (own_step _ _ (WRegister true)); [done|]. cbn. by rewrite Hp.
  - by apply Hcheck.
  - edestruct (Hcheck) as (dw' & Hs & He); [..|exists dw'; split; [|exact He]; etrans; [|exact Hs]].
    3: { eapply (own_step _ _ WCount); [done|]. cbn. by rewrite Hp. }
    { done. }
    { done. }
  - by apply Hclose.
  - exists (d, w). split; [done|exact Hp].
Qed.

End worker.

(** ** Theorems *)

(** C38. A worker's quota: as long as [Accept] does not fail and no [Shutdown]
    is handled, a worker in its loop serves at most [nRPC] more connections,
    leaves the loop only after exactly that many, and does leave it then.  A
    worker started with [nRPC = k] thus serves [k] connections, and one told
    to shut down, which sets [nRPC] to 1, waits for one more. *)
Theorem worker_quota {J : Json} creatable mapF reduceF listen me n w0 d0 dw dw' :
  RunWorker listen me n = Ok w0 →
  wsteps creatable mapF reduceF any (d0, w0) dw →
  ¬ left_loop dw.2.(pc) → 0 ≤ dw.2.(wk).(nRPC) →
  wsteps creatable mapF reduceF ordinary dw dw' →
  let quota := served dw.2 + dw.2.(wk).(nRPC) in
  served dw'.2 ≤ quota ∧
  (dw'.2.(pc) = PExited → served dw'.2 = quota) ∧
  (served dw'.2 = quota →
     ∃ dw'', wsteps creatable mapF reduceF own dw' dw'' ∧ dw''.2.(pc) = PExited).
Proof.
  intros Hw0%RunWorker_inv Hs0 Hin Hq Hs.
  assert (winv dw.2) as Hw by (by eapply (wsteps_inv _ _ _ any (d0, w0))).
  assert (winv dw'.2) as Hw' by (by eapply wsteps_inv).
  destruct (wsteps_pays _ _ _ dw dw' Hw Hs Hq) as (Hsum & Hq' & Hl'); [done|]. cbn zeta.
  split_and!; [lia| |].
  - intros Hp. rewrite Hp in Hl'. specialize (Hl' I). lia.
  - intros Hserved. destruct dw' as [d' w']. apply exits; simpl in *; [lia|].
    intros Ha%(wi_quota _ Hw'). simpl in *. lia.
Qed.

(** What [Shutdown] reports: [Ntasks] is the number of connections the
    worker has served, this one included, less the earlier shutdowns and less
    the connection the loop has not counted yet, if it is just between
    serving it and counting it.  The first report is thus one more than the
    number of the other connections served, unless the handler overtakes the
    loop.  The worker is left with a quota of one connection. *)
Lemma shutdown_report {J : Json} creatable mapF reduceF listen me n w0 d0 d w k :
  RunWorker listen me n = Ok w0 →
  wsteps creatable mapF reduceF any (d0, w0) (d, w) →
  w.(conns) !! k = Some (RShutdown, CServing) →
  ∃ w', wstep creatable mapF reduceF (d, w) (WHandle k) = Done (d, w') ∧
    w'.(conns) !! k = Some (RShutdown, CAnswered (Some (served w - shutdowns w - uncounted w.(pc)))) ∧
    w'.(wk).(nRPC) = 1.
Proof.
  intros Hw0%RunWorker_inv Hs Hk.
  assert (winv w) as [Ht _ _] by (by eapply (wsteps_inv _ _ _ any (d0, w0) (d, w))).
  simpl. rewrite Hk. simpl. eexists. split_and!; [reflexivity| |done].
  simpl. rewrite list_lookup_insert_eq by (by eapply lookup_lt_Some). do 4 f_equal. lia.
Qed.
