(* ===== verification/MRMaster.v ===== *)
(** * MapReduce: the master and its RPC server

    [newMaster], [Register] (src/src/mapreduce/master.go), [Shutdown],
    [startRPCServer] (master_rpc.go) as a transition system: the goroutine
    that accepts connections has a program counter, a connection carries one
    request, [Register] or [Shutdown], and is served by its own goroutine.
    [Register] takes the master's mutex, which [killWorkers] holds for as long
    as it runs. *)
From S2P Require Import Prelude.

(** [registerChannel] is the list of names somebody sends, or waits to send,
    on the channel; [shutdown] says whether the channel is closed, and [l]
    whether the listener is open. *)
Record Master := mkMaster {
  address : string; registerChannel : list string; workers : list string;
  shutdown : bool; l : bool; stats : list Z
}.

Definition newMaster (master : string) : Master := mkMaster master [] [] false false [].

Definition set_registerChannel (ws : list string) (mr : Master) : Master :=
  mkMaster mr.(address) ws mr.(workers) mr.(shutdown) mr.(l) mr.(stats).
Definition set_stats (ns : list Z) (mr : Master) : Master :=
  mkMaster mr.(address) mr.(registerChannel) mr.(workers) mr.(shutdown) mr.(l) ns.

Definition Register (worker : string) (mr : Master) : Master :=
  let mr := mkMaster mr.(address) mr.(registerChannel) (mr.(workers) ++ [worker])
              mr.(shutdown) mr.(l) mr.(stats) in
  set_registerChannel (mr.(registerChannel) ++ [worker]) mr.

(** Closing a closed channel panics. *)
Definition Shutdown (mr : Master) : option Master :=
  if mr.(shutdown) then None
  else
    let mr := mkMaster mr.(address) mr.(registerChannel) mr.(workers) true mr.(l) mr.(stats) in
    Some (mkMaster mr.(address) mr.(registerChannel) mr.(workers) mr.(shutdown) false mr.(stats)).

Inductive mrequest := MRegister (worker : string) | MShutdown.

(** A connection: in the listener's queue, refused, accepted, being served, lost
    before its request was handled, or answered. *)
Inductive mconn := MDialed | MRefused | MAccepted | MServing | MLost | MAnswered.

(** The goroutine of [startRPCServer]: before the [select], in [Accept], with
    a new connection, or out of the loop. *)
Inductive mpc := SSelect | SAccept | SServe (k : nat) | SStopped.

Record mserver := mkServer { mr : Master; spc : mpc; mconns : list (mrequest * mconn) }.

Inductive mlabel :=
| MDial (r : mrequest)
| MSelect
| MAccept (k : nat)
| MAcceptErr
| MServe
| MHandle (k : nat)
| MLose (k : nat).

Definition set_spc (p : mpc) (s : mserver) : mserver := mkServer s.(mr) p s.(mconns).
Definition set_mconn (k : nat) (c : mrequest * mconn) (s : mserver) : mserver :=
  mkServer s.(mr) s.(spc) (<[k := c]> s.(mconns)).

(** Closing the listener refuses what is in its queue. *)
Definition refuse (c : mrequest * mconn) : mrequest * mconn :=
  match c.2 with MDialed => (c.1, MRefused) | _ => c end.

(** [startRPCServer]; the process ends if it cannot listen. *)
Definition startRPCServer (listen : bool) (mr : Master) : result mserver :=
  if negb listen then Fatal
  else Ok (mkServer (mkMaster mr.(address) mr.(registerChannel) mr.(workers) mr.(shutdown) true mr.(stats))
             SSelect []).

(** A request handled; [locked] is the mutex. *)
Definition handle (locked : bool) (k : nat) (r : mrequest) (s : mserver) : outcome mserver :=
  (match r with
   | MRegister w =>
     if locked then Disabled
     else Done (mkServer (Register w s.(mr)) s.(spc) (<[k := (r, MAnswered)]> s.(mconns)))
   | MShutdown =>
     mr <~ program (Shutdown s.(mr));
     Done (mkServer mr s.(spc) (refuse <$> <[k := (r, MAnswered)]> s.(mconns)))
   end)%outcome.

Definition mstep (locked : bool) (s : mserver) (l : mlabel) : outcome mserver :=
  (match l, s.(spc) with
   | MDial r, p =>
     let c := if s.(mr).(MRMaster.l) then MDialed else MRefused in
     Done (mkServer s.(mr) p (s.(mconns) ++ [(r, c)]))
   | MSelect, SSelect => Done (set_spc (if s.(mr).(shutdown) then SStopped else SAccept) s)
   | MAccept k, SAccept =>
     c <~ enabled (s.(mconns) !! k);
     match c.2 with
     | MDialed => Done (set_spc (SServe k) (set_mconn k (c.1, MAccepted) s))
     | _ => Disabled
     end
   | MAcceptErr, SAccept => Done (set_spc SStopped s)
   | MServe, SServe k =>
     c <~ enabled (s.(mconns) !! k);
     Done (set_spc SSelect (set_mconn k (c.1, MServing) s))
   | MHandle k, _ =>
     c <~ enabled (s.(mconns) !! k);
     match c.2 with MServing => handle locked k c.1 s | _ => Disabled end
   | MLose k, _ =>
     c <~ enabled (s.(mconns) !! k);
     match c.2 with MServing => Done (set_mconn k (c.1, MLost) s) | _ => Disabled end
   | _, _ => Disabled
   end)%outcome.

Definition msteps (P : mlabel → Prop) : mserver → mserver → Prop :=
  rtc (λ s s', ∃ locked l, P l ∧ mstep locked s l = Done s').

(** ** The server's invariant *)

(** The worker whose registration a connection brought. *)
Definition registered (c : mrequest * mconn) : option string :=
  match c with (MRegister w, MAnswered) => Some w | _ => None end.
Definition shut (c : mrequest * mconn) : option unit :=
  match c with (MShutdown, MAnswered) => Some tt | _ => None end.

Record minv (s : mserver) : Prop := {
  mi_workers : s.(mr).(workers) ≡ₚ omap registered s.(mconns);
  mi_shut : length (omap shut s.(mconns)) = if s.(mr).(shutdown) then 1%nat else 0%nat;
  mi_listener : s.(mr).(l) = negb s.(mr).(shutdown);
  mi_queue : s.(mr).(shutdown) = true → Forall (λ c, c.2 ≠ MDialed) s.(mconns);
  mi_accepted : ∀ k, s.(spc) = SServe k → ∃ r, s.(mconns) !! k = Some (r, MAccepted)
}.

Lemma refuse_queue cs : Forall (λ c, c.2 ≠ MDialed) (refuse <$> cs).
Proof. apply Forall_fmap, Forall_true. by intros [? []]. Qed.

(** Connection [k] changes, without being answered. *)
Lemma omap_same {A} (f : mrequest * mconn → option A) cs k c c' :
  cs !! k = Some c → f c = None → f c' = None → omap f (<[k := c']> cs) ≡ₚ omap f cs.
Proof. intros Hk E E'. by rewrite (omap_insert f cs k c c' Hk), (omap_delete f cs k c Hk), E, E'. Qed.

Lemma conn_minv s k c c' p :
  minv s → s.(mconns) !! k = Some c → c.2 ≠ MAnswered → c'.2 ≠ MAnswered → c'.2 ≠ MDialed →
  (∀ j, p = SServe j → ∃ r, <[k := c']> s.(mconns) !! j = Some (r, MAccepted)) →
  minv (set_spc p (set_mconn k c' s)).
Proof.
  intros [Hw Hsh Hl Hq Ha] Hk Hc Hc' Hd Hp. split; simpl; [| |done| |done].
  - rewrite Hw. symmetry. eapply omap_same; [done|by destruct c as [[] []]|by destruct c' as [[] []]].
  - rewrite <- Hsh. apply Permutation_length.
    eapply omap_same; [done|by destruct c as [[] []]|by destruct c' as [[] []]].
  - intros Hs. apply Forall_insert; [by apply Hq|done].
Qed.

(** A connection that is not the one the loop has just accepted may change. *)
Lemma accepted_insert s k c c' :
  minv s → s.(mconns) !! k = Some c → c.2 = MServing →
  ∀ j, s.(spc) = SServe j → ∃ r, <[k := c']> s.(mconns) !! j = Some (r, MAccepted).
Proof.
  intros Hs Hk Hc j Hj. destruct (mi_accepted _ Hs j Hj) as [r' Hr]. exists r'.
  rewrite list_lookup_insert_ne; [done|]. intros ->. by simplify_eq/=.
Qed.

Lemma handle_inv locked k r s s' :
  minv s → s.(mconns) !! k = Some (r, MServing) → handle locked k r s = Done s' → minv s'.
Proof.
  intros Hs Hk Hst. pose proof Hs as [Hw Hsh Hl Hq _].
  pose proof (accepted_insert s k _ (r, MAnswered) Hs Hk eq_refl) as Ha'.
  destruct r as [w|]; simpl in Hst.
  - destruct locked; simplify_eq/=. split; simpl; [..|done| |done].
    + rewrite (omap_insert _ _ k _ _ Hk), Hw, (omap_delete registered _ k _ Hk). symmetry. apply Permutation_cons_append.
    + rewrite <- Hsh. apply Permutation_length. by eapply omap_same.
    + intros E. apply Forall_insert; [by apply Hq|done].
  - unfold Shutdown in Hst. destruct (shutdown (mr s)) eqn:Eshut; simplify_eq/=. split; simpl; [..|done| |].
    + rewrite omap_fmap_same by (by intros [[] []]). rewrite Hw. symmetry. by eapply omap_same.
    + rewrite omap_fmap_same by (by intros [[] []]). rewrite (Permutation_length (omap_insert shut _ k _ _ Hk)). simpl.
      apply (f_equal S), Nat.le_0_r. rewrite <- Hsh. rewrite (Permutation_length (omap_delete shut _ k _ Hk)). simpl. lia.
    + intros _. apply refuse_queue.
    + intros j Hj. destruct (Ha' j Hj) as [r' Hr]. exists r'. by rewrite list_lookup_fmap, Hr.
Qed.

Lemma mstep_inv locked s s' l : minv s → mstep locked s l = Done s' → minv s'.
Proof.
  intros Hs Hst. pose proof Hs as [Hw Hsh Hl Hq Ha]. destruct l; simpl in Hst.
  - simplify_eq. set (c := if MRMaster.l (mr s) then _ else _).
    assert (c = MDialed ∧ shutdown (mr s) = false ∨ c = MRefused) as Hc.
    { unfold c. rewrite Hl. destruct (shutdown (mr s)); by auto. }
    split; simpl; [..|done| |].
    + rewrite omap_app, Hw. simpl. by destruct r, Hc as [[-> _]| ->]; rewrite app_nil_r.
    + rewrite omap_app, <- Hsh. simpl. by destruct r, Hc as [[-> _]| ->]; rewrite app_nil_r.
    + intros E. apply Forall_app. split; [by apply Hq|]. apply Forall_singleton. destruct Hc as [[_ ?]| ->]; [congruence|done].
    + intros k Hk. destruct (Ha k Hk) as [r' Hr]. exists r'. by apply lookup_app_l_Some.
  - destruct (spc s); simplify_eq. split; simpl; [done..|]. by destruct (shutdown (mr s)).
  - destruct (spc s) eqn:Hp; simplify_eq. destruct (mconns s !! k) as [[r []]|] eqn:Hk; simplify_eq/=.
    eapply conn_minv; [done..|]. intros j [= <-]. exists r. apply list_lookup_insert_eq. by eapply lookup_lt_Some.
  - destruct (spc s); simplify_eq. by split.
  - destruct (spc s) eqn:Hp; simplify_eq. destruct (Ha k eq_refl) as [r Hr]. rewrite Hr in Hst. simplify_eq/=.
    by eapply conn_minv.
  - destruct (mconns s !! k) as [[r []]|] eqn:Hk; simplify_eq/=. by eapply handle_inv.
  - destruct (mconns s !! k) as [[r []]|] eqn:Hk; simplify_eq/=.
    change (minv (set_spc (spc s) (set_mconn k (r, MLost) s))). eapply conn_minv; [done..|].
    by eapply accepted_insert.
Qed.

Lemma msteps_inv P s s' : minv s → msteps P s s' → minv s'.
Proof.
  intros Hs Hst. induction Hst as [|s1 s2 s3 (locked & l & _ & Hl) _ IH]; [done|].
  apply IH. by eapply mstep_inv.
Qed.

Lemma start_inv listen master s : startRPCServer listen (newMaster master) = Ok s → minv s.
Proof. unfold startRPCServer. destruct listen; intros; simplify_eq/=. by split. Qed.

(** The steps of the accepting goroutine; its [Accept] fails on a closed
    listener. *)
Definition stopping (l : mlabel) : Prop :=
  match l with MSelect | MServe | MAcceptErr => True | _ => False end.

Lemma stop_step s l s' : stopping l → mstep false s l = Done s' → msteps stopping s s'.
Proof. intros. apply rtc_once. by exists false, l. Qed.

Lemma select_stops s :
  s.(mr).(shutdown) = true → s.(spc) = SSelect → ∃ s', msteps stopping s s' ∧ s'.(spc) = SStopped.
Proof.
  intros Hsh Hp. eexists. split; [eapply (stop_step _ MSelect); [done|]|].
  - cbn. by rewrite Hp.
  - cbn. by rewrite Hsh.
Qed.

(** Requests stay with their connections. *)
Lemma mstep_requests locked s s' l :
  mstep locked s l = Done s' → (∀ r, l ≠ MDial r) → fst <$> s'.(mconns) = fst <$> s.(mconns).
Proof.
  assert (∀ cs k r c c', cs !! k = Some (r, c) → fst <$> <[k := (r, c')]> cs = fst <$> (cs : list (mrequest * mconn))) as Hins.
  { intros cs k r c c' Hk. rewrite list_fmap_insert. apply list_insert_id. by rewrite list_lookup_fmap, Hk. }
  assert (∀ cs : list (mrequest * mconn), fst <$> (refuse <$> cs) = fst <$> cs) as Href.
  { intros cs. induction cs as [|[? []] cs IH]; [done|..]; cbn; by rewrite IH. }
  intros Hs Hl. destruct l; simpl in Hs; [by destruct (Hl r)|..].
  1, 3: destruct (spc s); by simplify_eq/=.
  1, 2: destruct (spc s); simplify_eq/=; destruct (mconns s !! k) as [[r []]|] eqn:Hk; simplify_eq/=; by eapply Hins.
  - destruct (mconns s !! k) as [[r []]|] eqn:Hk; simplify_eq/=. destruct r; simpl in Hs.
    + destruct locked; simplify_eq/=. by eapply Hins.
    + unfold Shutdown in Hs. destruct (shutdown (mr s)); simplify_eq/=. rewrite Href. by eapply Hins.
  - destruct (mconns s !! k) as [[r []]|] eqn:Hk; simplify_eq/=. by eapply Hins.
Qed.

(** Only a second [Shutdown] can end the process. *)
Lemma mstep_panics locked s l :
  mstep locked s l = Panicked →
  s.(mr).(shutdown) = true ∧ ∃ k, s.(mconns) !! k = Some (MShutdown, MServing).
Proof.
  intros Hs. destruct l; simpl in Hs; try done.
  1-4: destruct (spc s); try done; destruct (mconns s !! k) as [[? []]|]; done.
  - destruct (mconns s !! k) as [[r []]|] eqn:Hk; try done. destruct r; simpl in Hs; [by destruct locked|].
    unfold Shutdown in Hs. destruct (shutdown (mr s)); [|done]. by eauto.
  - destruct (mconns s !! k) as [[r []]|]; done.
Qed.

(** The channel and the statistics are not the server's. *)
Lemma minv_mr m s :
  minv s → m.(workers) = s.(mr).(workers) → m.(shutdown) = s.(mr).(shutdown) → m.(l) = s.(mr).(l) →
  minv (mkServer m s.(spc) s.(mconns)).
Proof. intros [] E1 E2 E3. split; simpl; by rewrite ?E1, ?E2, ?E3. Qed.

(** ** Theorem *)

(** The registration server: the registered workers are those whose
    registration was answered, as often as it was; once a [Shutdown] has been
    handled no connection is accepted any more, and the accepting goroutine
    runs to its end. *)
Lemma registration_server listen master s0 s :
  startRPCServer listen (newMaster master) = Ok s0 → msteps (λ _, True) s0 s →
  s.(mr).(workers) ≡ₚ omap registered s.(mconns) ∧
  (s.(mr).(shutdown) = true →
     (∀ locked k, mstep locked s (MAccept k) = Disabled) ∧
     ∃ s', msteps stopping s s' ∧ s'.(spc) = SStopped).
Proof.
  intros Hs0%start_inv Hs. assert (minv s) as Hi by (by eapply msteps_inv).
  pose proof Hi as [Hw _ _ Hq Ha]. split; [done|]. intros Hsh. specialize (Hq Hsh). split.
  - intros locked k. simpl. destruct (spc s); try done.
    destruct (mconns s !! k) as [c|] eqn:Hk; [|done]. eapply Forall_lookup_1 in Hq; [|exact Hk].
    simpl. by destruct (c.2).
  - destruct (spc s) eqn:Hp.
    + by apply select_stops.
    + exists (set_spc SStopped s). split; [|done]. eapply (stop_step _ MAcceptErr); [done|]. cbn. by rewrite Hp.
    + destruct (Ha k eq_refl) as [r Hr].
      edestruct (select_stops (set_spc SSelect (set_mconn k (r, MServing) s))) as (s' & Hs' & ?); [done..|].
      exists s'. split; [|done]. etrans; [|exact Hs']. eapply (stop_step _ MServe); [done|]. cbn. by rewrite Hp, Hr.
    + by exists s.
Qed.
