(* ===== verification/MRDistributed.v ===== *)
(** * MapReduce: the distributed job

    [Distributed], [run], [killWorkers] and [Wait] (src/src/mapreduce/master.go),
    [stopRPCServer] (master_rpc.go) and [call] (common_rpc.go): the master and
    its RPC server (MRMaster.v), any number of worker processes (MRWorker.v)
    and the disk they share, as one transition system.  [call] dials the
    worker's socket, which adds a connection to that worker; it returns true
    when the connection has been answered, and may return false at any time,
    whether or not the request is handled later.  A worker executes a task one
    file operation at a time, and goes on with it when the call has failed.

    The job implements the abstract job of MRConcurrent.v as long as [schedule]
    returns only when no worker has a task left ([dcalm]).  A call that fails
    only when the worker cannot execute the request any more ([fails_late])
    guarantees it.  Otherwise the output can be wrong (MRConcurrentTraces.v). *)
From S2P Require Import Prelude GoStrings MRFiles MRTasks MRSpec MRSchedule MROperations MRConcurrent MRWorker MRMaster.

(** A goroutine of [schedule]: waiting for a worker, in a call on connection
    [k] of a worker, or done. *)
Inductive dtask := DWaiting | DCalling (worker : string) (k : nat) | DDone.

#[export] Instance dtask_eq_dec : EqDecision dtask.
Proof. solve_decision. Defined.

(** Where [run] is: in [schedule], in [killWorkers] with the workers left, the
    call in progress and the reports so far, in [stopRPCServer] with its call,
    before [merge], at the send on [doneChannel], or at the end. *)
Inductive runpc :=
| Scheduling (phase : jobPhase) (ts : list dtask)
| Killing (todo : list string) (calling : option nat) (ntasks : list Z)
| Stopping (calling : option nat)
| Merging
| Merged
| Finished.

Record djob := mkJob {
  disk : fs; procs : gmap string wproc; server : mserver; at_run : runpc
}.

Inductive dlabel :=
| DRunWorker (me : string) (n : Z)      (* a worker process starts *)
| DWorker (me : string) (l : wlabel)    (* and takes a step *)
| DRegister (me : string)               (* and dials the master, to register *)
| DServer (l : mlabel)                  (* a step of the master's RPC server *)
| DTask (t k : nat)                     (* task [t] takes a worker and calls it *)
| DTaskOk (t : nat)
| DTaskFail (t : nat)
| DPhase                                (* [schedule] returns *)
| DKill
| DKillOk
| DKillFail
| DStop
| DStopOk
| DStopFail
| DMerge
| DWait.

Definition set_run (r : runpc) (w : djob) : djob := mkJob w.(disk) w.(procs) w.(server) r.
Definition set_proc (me : string) (p : wproc) (w : djob) : djob :=
  mkJob w.(disk) (<[me := p]> w.(procs)) w.(server) w.(at_run).
Definition set_server (s : mserver) (w : djob) : djob := mkJob w.(disk) w.(procs) s w.(at_run).
Definition set_mr (m : Master) (s : mserver) : mserver := mkServer m s.(spc) s.(mconns).

(** The worker's [register]: the request it sends the master. *)
Definition register (wk : Worker) : mlabel := MDial (MRegister wk.(wname)).

(** [killWorkers] holds the master's mutex. *)
Definition locked (r : runpc) : bool := match r with Killing _ _ _ => true | _ => false end.

(** The last connection somebody made. *)
Definition answered {A} (c : option (A * wconn)) : option (option Z) :=
  match c with Some (_, CAnswered reply) => Some reply | _ => None end.

Section distributed.
Context {J : Json} (creatable : string → bool) (job : string) (files : list string) (nReduce : Z).
Context (mapF : string → string → list KeyValue) (reduceF : string → list string → string).

(** [rpc.Dial] of a worker and the request sent on the connection: the new
    world and the connection, or [None] if nobody listens there. *)
Definition dial (worker : string) (r : wrequest) (w : djob) : option (djob * nat) :=
  p ← w.(procs) !! worker;
  if listening p.(pc)
  then Some (set_proc worker (mkProc p.(wk) p.(pc) (p.(conns) ++ [(r, CDialed)])) w, length p.(conns))
  else None.

(** What has become of connection [k] of a worker. *)
Definition connection (worker : string) (k : nat) (w : djob) : option (wrequest * wconn) :=
  p ← w.(procs) !! worker; p.(conns) !! k.

Definition startTasks (phase : jobPhase) : runpc :=
  Scheduling phase (replicate (Z.to_nat (ntasks files nReduce phase)) DWaiting).

(** A goroutine of [schedule]. *)
Definition taskStep (phase : jobPhase) (ts : list dtask) (w : djob) (l : dlabel) : outcome djob :=
  (match l with
   | DTask t k =>
     s <~ enabled (ts !! t);
     worker <~ enabled (w.(server).(mr).(registerChannel) !! k);
     arg <~ program (taskArgs job files nReduce phase t);
     match s with
     | DWaiting =>
       let m := w.(server).(mr) in
       let w := set_server (set_mr (set_registerChannel (delete k m.(registerChannel)) m) w.(server)) w in
       match dial worker (RDoTask arg) w with
       | Some (w, c) => Done (set_run (Scheduling phase (<[t := DCalling worker c]> ts)) w)
       | None => Done w
       end
     | _ => Disabled
     end
   | DTaskOk t =>
     s <~ enabled (ts !! t);
     match s with
     | DCalling worker k =>
       _ <~ enabled (answered (connection worker k w));
       let m := w.(server).(mr) in
       let w := set_server (set_mr (set_registerChannel (m.(registerChannel) ++ [worker]) m) w.(server)) w in
       Done (set_run (Scheduling phase (<[t := DDone]> ts)) w)
     | _ => Disabled
     end
   | DTaskFail t =>
     s <~ enabled (ts !! t);
     match s with
     | DCalling _ _ => Done (set_run (Scheduling phase (<[t := DWaiting]> ts)) w)
     | _ => Disabled
     end
   | DPhase =>
     if decide (Forall (λ s, s = DDone) ts)
     then Done (set_run (match phase with
                         | mapPhase => startTasks reducePhase
                         | reducePhase => Killing w.(server).(mr).(workers) None []
                         end) w)
     else Disabled
   | _ => Disabled
   end)%outcome.

(** The loop of [killWorkers]. *)
Definition killStep (todo : list string) (calling : option nat) (ntasks : list Z) (w : djob)
    (l : dlabel) : outcome djob :=
  match l, todo, calling with
  | DKill, worker :: todo', None =>
    match dial worker RShutdown w with
    | Some (w, c) => Done (set_run (Killing todo (Some c) ntasks) w)
    | None => Done (set_run (Killing todo' None ntasks) w)
    end
  | DKill, [], None =>
    Done (set_run (Stopping None) (set_server (set_mr (set_stats ntasks w.(server).(mr)) w.(server)) w))
  | DKillOk, worker :: todo', Some k =>
    match answered (connection worker k w) with
    | Some (Some n) => Done (set_run (Killing todo' None (ntasks ++ [n])) w)
    | _ => Disabled
    end
  | DKillFail, _ :: todo', Some _ => Done (set_run (Killing todo' None ntasks) w)
  | _, _, _ => Disabled
  end.

(** [stopRPCServer]. *)
Definition stopStep (calling : option nat) (w : djob) (l : dlabel) : outcome djob :=
  (match l, calling with
   | DStop, None =>
     if w.(server).(mr).(MRMaster.l) then
       s <~ mstep false w.(server) (MDial MShutdown);
       Done (set_run (Stopping (Some (length w.(server).(mconns)))) (set_server s w))
     else Done (set_run Merging w)
   | DStopOk, Some k =>
     match w.(server).(mconns) !! k with
     | Some (_, MAnswered) => Done (set_run Merging w)
     | _ => Disabled
     end
   | DStopFail, Some _ => Done (set_run Merging w)
   | _, _ => Disabled
   end)%outcome.

(** A step of [run]. *)
Definition runStep (w : djob) (l : dlabel) : outcome djob :=
  (match w.(at_run) with
   | Scheduling phase ts => taskStep phase ts w l
   | Killing todo calling ntasks => killStep todo calling ntasks w l
   | Stopping calling => stopStep calling w l
   | Merging =>
     match l with
     | DMerge =>
       d <~ outcome_of (merge creatable job nReduce w.(disk));
       Done (mkJob d w.(procs) w.(server) Merged)
     | _ => Disabled
     end
   | Merged => match l with DWait => Done (set_run Finished w) | _ => Disabled end
   | Finished => Disabled
   end)%outcome.

Definition dstep (w : djob) (l : dlabel) : outcome djob :=
  (match l with
   | DRunWorker me n =>
     match w.(procs) !! me with
     | Some _ => Disabled
     | None => p <~ outcome_of (RunWorker true me n); Done (set_proc me p w)
     end
   | DWorker me (WDial _) => Disabled
   | DWorker me l =>
     p <~ enabled (w.(procs) !! me);
     '(d, p) <~ wstep creatable mapF reduceF (w.(disk), p) l;
     Done (mkJob d (<[me := p]> w.(procs)) w.(server) w.(at_run))
   | DRegister me =>
     p <~ enabled (w.(procs) !! me);
     match p.(pc) with
     | PRegister =>
       s <~ mstep (locked w.(at_run)) w.(server) (register p.(wk));
       Done (set_server s w)
     | _ => Disabled
     end
   | DServer (MDial _) => Disabled
   | DServer l =>
     s <~ mstep (locked w.(at_run)) w.(server) l;
     Done (set_server s w)
   | _ => runStep w l
   end)%outcome.

(** [Distributed], up to the start of [run]. *)
Definition Distributed (listen : bool) (master : string) (d : fs) : result djob :=
  (s <- startRPCServer listen (newMaster master);
   Ok (mkJob d ∅ s (startTasks mapPhase)))%result.

Definition dsteps : djob → djob → Prop := rtc (λ w w', ∃ l, dstep w l = Done w').

(** ** Which executions are calm *)

(** No worker has a task left: none is waiting to be started, and none that was
    started is still being executed. *)
Definition workless (w : djob) : Prop :=
  ∀ me k c, connection me k w = Some c → pending c = None ∧ ∀ arg pc, at_task c = Some (arg, pc) → pc = AtEnd.

(** [schedule] returns when no worker has a task left. *)
Definition dcalm (w : djob) (l : dlabel) : Prop := match l with DPhase => workless w | _ => True end.

(** A call of a task fails only if the request was refused or lost, or after it
    was answered: not while the worker may still execute it. *)
Definition fails_late (w : djob) (l : dlabel) : Prop :=
  match l with
  | DTaskFail t => ∀ phase ts me k, w.(at_run) = Scheduling phase ts → ts !! t = Some (DCalling me k) →
      connection me k w ≫= unanswered = None
  | _ => True
  end.

Definition calm_dsteps : djob → djob → Prop := rtc (λ w w', ∃ l, dcalm w l ∧ dstep w l = Done w').
Definition late_dsteps : djob → djob → Prop := rtc (λ w w', ∃ l, fails_late w l ∧ dstep w l = Done w').

(** ** The invariant of a job *)

Implicit Types (w : djob) (X : gset nat).

(** The calls in progress are on connections that carry the task. *)
Definition calls_ok r (conn : string → nat → option (wrequest * wconn)) : Prop :=
  match r with
  | Scheduling phase ts =>
    Z.of_nat (length ts) = Z.max 0 (ntasks files nReduce phase) ∧
    ∀ t me k, ts !! t = Some (DCalling me k) →
      ∃ arg c, taskArgs job files nReduce phase t = Some arg ∧ conn me k = Some (RDoTask arg, c)
  | _ => True
  end.

(** [stopRPCServer] asks for the only shutdown there is. *)
Definition asks_stop (c : mrequest * mconn) : option unit :=
  match c.1 with MShutdown => Some tt | _ => None end.
Definition stop_asked r : nat :=
  match r with Scheduling _ _ | Killing _ _ _ | Stopping None => 0%nat | _ => 1%nat end.

(** A task of the phase that [run] is in. *)
Definition current r (arg : DoTaskArgs) : Prop :=
  match r with
  | Scheduling phase _ => ∃ t, Z.of_nat t < ntasks files nReduce phase ∧ taskArgs job files nReduce phase t = Some arg
  | _ => False
  end.

Record dinv w : Prop := {
  dv_procs : map_Forall (λ _, winv) w.(procs);
  dv_pending : ∀ me k arg, connection me k w ≫= pending = Some arg → current w.(at_run) arg;
  dv_calls : calls_ok w.(at_run) (λ me k, connection me k w);
  dv_server : minv w.(server);
  dv_stop : (length (omap asks_stop w.(server).(mconns)) ≤ stop_asked w.(at_run))%nat
}.

(** *** The abstract job of MRConcurrent.v *)

Definition abstracts r (c : crun) : Prop :=
  match r, c with
  | Scheduling phase ts, InPhase phase' X => phase' = phase ∧ ∀ t, ts !! t = Some DDone → t ∈ X
  | (Killing _ _ _ | Stopping _ | Merging), BeforeMerge => True
  | (Merged | Finished), AfterMerge => True
  | _, _ => False
  end.

(** [own] names, for every execution of the abstract job, the connection it
    serves. *)
Record sim w (c : cjob) (own : list (string * nat)) : Prop := {
  sm_disk : c.(cdisk) = w.(disk);
  sm_run : abstracts w.(at_run) c.(cat);
  sm_len : length own = length c.(execs);
  sm_nodup : NoDup own;
  sm_exec : ∀ j me k e, own !! j = Some (me, k) → c.(execs) !! j = Some e →
    ∃ arg, taskArgs job files nReduce e.(ephase) e.(etask) = Some arg ∧
           connection me k w ≫= at_task = Some (arg, e.(at_pc));
  sm_owner : ∀ me k x, connection me k w ≫= at_task = Some x → (me, k) ∈ own;
  sm_quiet : match c.(cat) with InPhase _ _ => True | _ => quiet c.(execs) end
}.

Abbreviation csteps := (calm_steps creatable job files nReduce mapF reduceF).
Abbreviation cstep := (cstep creatable job files nReduce mapF reduceF).

(** [w'] is a step of the concrete job that the abstract one in [c] can follow. *)
Definition follows c w' : Prop := dinv w' ∧ ∃ c' own', csteps c c' ∧ sim w' c' own'.

Lemma follows_same c own w' : dinv w' → sim w' c own → follows c w'.
Proof. intros. split; [done|]. exists c, own. split; [apply rtc_refl|done]. Qed.

Lemma follows_step c c' l own w' :
  dinv w' → calm c l → cstep c l = Done c' → sim w' c' own → follows c w'.
Proof. intros. split; [done|]. exists c', own. split; [|done]. apply rtc_once. by exists l. Qed.

(** The execution that a connection has. *)
Lemma sim_find w c own me k arg pc :
  sim w c own → connection me k w ≫= at_task = Some (arg, pc) →
  ∃ j e, own !! j = Some (me, k) ∧ c.(execs) !! j = Some e ∧
    taskArgs job files nReduce e.(ephase) e.(etask) = Some arg ∧ e.(at_pc) = pc.
Proof.
  intros Hs Ht. destruct (list_elem_of_lookup_1 _ _ (sm_owner _ _ _ Hs _ _ _ Ht)) as [j Hj].
  destruct (lookup_lt_is_Some_2 (execs c) j) as [e He]; [rewrite <- (sm_len _ _ _ Hs); by eapply lookup_lt_Some|].
  destruct (sm_exec _ _ _ Hs j me k e Hj He) as (arg' & Ha & Ht'). simplify_eq. by exists j, e.
Qed.

Lemma own_unique w c own j j' x : sim w c own → own !! j = Some x → own !! j' = Some x → j = j'.
Proof. intros Hs. by apply NoDup_lookup, (sm_nodup _ _ _ Hs). Qed.

(** Nothing happens to the tasks that have been started. *)
Lemma sim_same w w' c own :
  sim w c own → w'.(disk) = w.(disk) → abstracts w'.(at_run) c.(cat) →
  (∀ me k, connection me k w' ≫= at_task = connection me k w ≫= at_task) → sim w' c own.
Proof.
  intros [Hd _ Hl Hn He Ho Hq] Hd' Hr Hsame. split; try done.
  - by rewrite Hd'.
  - intros j me k e ??. rewrite Hsame. by apply (He j).
  - intros me k x. rewrite Hsame. apply Ho.
Qed.

Lemma taskArgs_phase phase t arg : taskArgs job files nReduce phase t = Some arg → arg.(tPhase) = phase ∧ arg.(tTaskNumber) = Z.of_nat t.
Proof. unfold taskArgs. by intros (? & _ & [= <-])%bind_Some. Qed.

(** A task is started. *)
Lemma sim_begin w w' c own me k arg :
  sim w c own → current w.(at_run) arg → connection me k w ≫= at_task = None →
  connection me k w' ≫= at_task = Some (arg, taskBegin arg.(tPhase)) →
  (∀ me' k', (me', k') ≠ (me, k) → connection me' k' w' ≫= at_task = connection me' k' w ≫= at_task) →
  w'.(disk) = w.(disk) → w'.(at_run) = w.(at_run) →
  ∃ l c', calm c l ∧ cstep c l = Done c' ∧ sim w' c' (own ++ [(me, k)]).
Proof.
  intros Hs Hcur Hnone Hnew Hold Hd Hr. pose proof Hs as [Hd0 Hr0 Hl Hn He Ho Hq].
  destruct (at_run w) as [phase ts| | | | |] eqn:Hrun; try done. destruct Hcur as (t & Ht & Ha).
  destruct (taskArgs_phase _ _ _ Ha) as [Hp _]. destruct (cat c) as [phase' X| |] eqn:Hcat; try done. destruct Hr0 as [-> HX].
  assert ((me, k) ∉ own) as Hnew'.
  { intros [j Hj]%list_elem_of_lookup_1. destruct (lookup_lt_is_Some_2 (execs c) j) as [e Hej]; [rewrite <- Hl; by eapply lookup_lt_Some|].
    destruct (He j me k e Hj Hej) as (? & _ & E). by rewrite Hnone in E. }
  exists (CStart t), (mkCJob (cdisk c) (execs c ++ [begin phase t]) (cat c)).
  split_and!; [done|by cbn; rewrite Hcat, decide_True by done|]. split; simpl.
  - by rewrite Hd.
  - by rewrite Hr, Hcat.
  - rewrite !length_app. simpl. lia.
  - apply NoDup_app. split_and!; [done| |apply NoDup_singleton]. intros x Hx ->%list_elem_of_singleton. done.
  - intros j me' k' e Hj Hej. destruct (decide (j = length own)) as [->|Hne].
    + rewrite lookup_app_r, Nat.sub_diag in Hj by lia. rewrite Hl, lookup_app_r, Nat.sub_diag in Hej by lia. simplify_eq/=.
      exists arg. split; [done|]. by rewrite Hnew.
    + assert (j < length own)%nat by (apply lookup_lt_Some in Hj; rewrite length_app in Hj; simpl in Hj; lia).
      rewrite lookup_app_l in Hj by lia. rewrite lookup_app_l in Hej by lia. rewrite Hold; [by apply (He j)|].
      intros E. apply Hnew'. rewrite <- E. by eapply list_elem_of_lookup_2.
  - intros me' k' x Hx. apply elem_of_app. destruct (decide ((me', k') = (me, k))) as [->|Hne]; [right; set_solver|left].
    rewrite Hold in Hx by done. by eapply Ho.
  - by rewrite Hcat.
Qed.

(** A task performs an operation. *)
Lemma sim_op w w' c own me k arg n pc pc' :
  sim w c own → connection me k w ≫= at_task = Some (arg, pc) →
  taskExec creatable mapF reduceF arg n pc w.(disk) = Done (pc', w'.(disk)) →
  connection me k w' ≫= at_task = Some (arg, pc') →
  (∀ me' k', (me', k') ≠ (me, k) → connection me' k' w' ≫= at_task = connection me' k' w ≫= at_task) →
  w'.(at_run) = w.(at_run) →
  ∃ l c', calm c l ∧ cstep c l = Done c' ∧ sim w' c' own.
Proof.
  intros Hs Ht Hop Hnew Hold Hr. destruct (sim_find _ _ _ _ _ _ _ Hs Ht) as (j & e & Hj & Hej & Ha & Hpc).
  pose proof Hs as [Hd0 Hr0 Hl Hn He Ho Hq].
  exists (CExec j n), (mkCJob (disk w') (<[j := mkExec (ephase e) (etask e) pc']> (execs c)) (cat c)).
  split_and!; [done| |].
  { cbn. rewrite Hej. cbn. unfold execStep. rewrite Ha. cbn. by rewrite Hpc, Hd0, Hop. }
  split; simpl; [done|by rewrite Hr|by rewrite length_insert|done|..].
  - intros i me' k' e' Hi Hei. destruct (decide (i = j)) as [->|Hne].
    + rewrite list_lookup_insert_eq in Hei by (by eapply lookup_lt_Some). simplify_eq/=. by exists arg.
    + rewrite list_lookup_insert_ne in Hei by done. rewrite Hold; [by apply (He i)|].
      intros E. rewrite E in Hi. by destruct Hne; eapply own_unique.
  - intros me' k' x Hx. destruct (decide ((me', k') = (me, k))) as [->|Hne]; [by eapply list_elem_of_lookup_2|].
    rewrite Hold in Hx by done. by eapply Ho.
  - assert (quiet (execs c) → False) as Hbusy.
    { intros Hall. assert (pc = AtEnd) as -> by (rewrite <- Hpc; exact (Forall_lookup_1 _ _ _ _ Hall Hej)).
      by rewrite taskExec_ended in Hop. }
    by destruct (cat c); [|destruct (Hbusy Hq)..].
Qed.

(** *** Steps of the workers *)

Lemma connection_insert me p w me' k :
  connection me' k (set_proc me p w) = if decide (me' = me) then p.(conns) !! k else connection me' k w.
Proof.
  unfold connection. simpl. case_decide as E; [by subst; rewrite lookup_insert_eq|].
  by rewrite lookup_insert_ne by done.
Qed.

Lemma calls_ok_ext r (conn conn' : string → nat → option (wrequest * wconn)) :
  (∀ me k q c, conn me k = Some (q, c) → ∃ c', conn' me k = Some (q, c')) → calls_ok r conn → calls_ok r conn'.
Proof.
  intros H. destruct r; try done. intros [Hl Hc]. split; [done|]. intros t me k Ht.
  destruct (Hc t me k Ht) as (arg & c & Ha & Hk). destruct (H _ _ _ _ Hk) as [c' Hk']. by exists arg, c'.
Qed.

Lemma worker_inv w c own me p p' d' l :
  dinv w → sim w c own → w.(procs) !! me = Some p → wstep creatable mapF reduceF (w.(disk), p) l = Done (d', p') →
  (∀ r, l ≠ WDial r) → follows c (mkJob d' (<[me := p']> w.(procs)) w.(server) w.(at_run)).
Proof.
  intros [Hwp Hpd Hc Hsv Hst] Hsim Hp Hs Hl. pose proof (Hwp me p Hp) as Hpi. simpl in Hpi.
  destruct (wstep_conns _ _ _ _ _ _ _ _ Hpi Hs Hl) as (Hreq & _ & k & Hk & Hother).
  set (w' := mkJob _ _ _ _).
  assert (∀ me' k, connection me' k w' = if decide (me' = me) then conns p' !! k else connection me' k w) as Hconn.
  { intros me' k'. rewrite <- (connection_insert me p' w). done. }
  assert (∀ k, connection me k w = conns p !! k) as Hme by (intros k'; unfold connection; by rewrite Hp).
  assert (∀ me' k', (me', k') ≠ (me, k) → untouched (connection me' k' w) (connection me' k' w')) as Hrest.
  { intros me' k' Hne. rewrite Hconn. case_decide as E; [|done]. subst. rewrite Hme. apply Hother. congruence. }
  assert (∀ k', connection me k' w' = conns p' !! k') as Hme' by (intros k'; by rewrite Hconn, decide_True).
  rewrite <- Hme, <- Hme' in Hk.
  assert (dinv w') as Hw'.
  { split; [|intros me' k' arg| |done|done].
    - apply map_Forall_insert_2; [|done]. by eapply wstep_inv in Hs as [? _].
    - change (at_run w') with (at_run w). intros Harg. destruct (decide ((me', k') = (me, k))) as [[= -> ->]|Hne].
      + apply (Hpd me k). by eapply moves_pending.
      + apply (Hpd me' k'). by apply Hrest.
    - eapply calls_ok_ext; [|exact Hc]. simpl. intros me' k' q s Hq. rewrite Hconn. case_decide as E; [|by exists s].
      subst. rewrite Hme in Hq. specialize (Hreq k'). rewrite Hq in Hreq. destruct (conns p' !! k') as [[q' s']|]; [|done].
      simpl in Hreq. simplify_eq. by exists s'. }
  assert (∀ me' k', (me', k') ≠ (me, k) → connection me' k' w' ≫= at_task = connection me' k' w ≫= at_task) as Hold
    by (intros; by apply Hrest).
  change d' with (disk w') in Hk. remember (disk w') as dd eqn:Hdd in Hk.
  destruct Hk as [arg Hpe _ Hat Hnone|arg n q q' d1 Hat Hop Hat' _|[Hsame _]]; [..|subst d1|].
  - destruct (sim_begin w w' c own me k arg) as (l' & c' & ? & ? & ?); [done|by eapply Hpd|done..|]. by eapply follows_step.
  - destruct (sim_op w w' c own me k arg n q q') as (l' & c' & ? & ? & ?); [done..|]. by eapply follows_step.
  - eapply follows_same; [done|]. apply (sim_same w); [done|done|apply Hsim|]. intros me' k'.
    destruct (decide ((me', k') = (me, k))) as [[= -> ->]|Hne]; [done|by apply Hold].
Qed.

Lemma new_worker_inv w c own me n :
  dinv w → sim w c own → w.(procs) !! me = None → follows c (set_proc me (mkProc (mkWorker me n 0) PRegister []) w).
Proof.
  intros [Hwp Hpd Hc Hsv Hst] Hsim Hme. set (w' := set_proc _ _ _).
  assert (∀ me' k, connection me' k w' = connection me' k w) as Hconn.
  { intros me' k. unfold w'. rewrite connection_insert. case_decide; [|done]. subst. unfold connection. by rewrite Hme. }
  eapply follows_same; [|apply (sim_same w); [done|done|apply Hsim|intros; by rewrite Hconn]].
  split; [|intros me' k arg; rewrite Hconn; apply Hpd| |done|done].
  - apply map_Forall_insert_2; [|done]. by eapply (RunWorker_inv true).
  - eapply calls_ok_ext; [|exact Hc]. simpl. intros me' k q s. rewrite Hconn. by eauto.
Qed.

(** *** Steps of the server *)

Lemma server_inv w s :
  dinv w → minv s → (length (omap asks_stop s.(mconns)) ≤ stop_asked w.(at_run))%nat → dinv (set_server s w).
Proof. by intros []. Qed.

Lemma server_sim w s c own : sim w c own → sim (set_server s w) c own.
Proof. intros H. by apply (sim_same w); [|done|apply H|]. Qed.

Lemma asks_stop_requests (cs cs' : list (mrequest * mconn)) : fst <$> cs' = fst <$> cs → omap asks_stop cs' = omap asks_stop cs.
Proof.
  revert cs'. induction cs as [|[r c] cs IH]; intros [|[r' c'] cs'] E; simplify_eq/=; [done|].
  rewrite (IH cs') by done. unfold asks_stop. simpl. by destruct r.
Qed.

(** The [Shutdown] that is being handled is the first one. *)
Lemma shutdown_once w k :
  dinv w → w.(server).(mconns) !! k = Some (MShutdown, MServing) → w.(server).(mr).(shutdown) = false.
Proof.
  intros [_ _ _ [_ Hsh _ _ _] Hst] Hk. destruct (shutdown (mr (server w))); [|done].
  assert (∀ cs : list (mrequest * mconn), length (omap shut cs) ≤ length (omap asks_stop cs))%nat as Hle.
  { induction cs as [|c cs IH]; [done|]. simpl. destruct c as [[] []]; cbn; by auto with arith. }
  rewrite (Permutation_length (omap_delete shut _ k _ Hk)) in Hsh.
  rewrite (Permutation_length (omap_delete asks_stop _ k _ Hk)) in Hst. simpl in Hsh, Hst.
  specialize (Hle (delete k (mconns (server w)))).
  assert (stop_asked (at_run w) ≤ 1)%nat by (destruct (at_run w) as [| |[]| | |]; simpl; lia). lia.
Qed.

Lemma server_step_inv w b s l :
  dinv w → mstep b w.(server) l = Done s → l ≠ MDial MShutdown → dinv (set_server s w).
Proof.
  intros Hw Hs Hl. apply server_inv; [done|by eapply mstep_inv; [apply dv_server|]|].
  etrans; [|apply (dv_stop _ Hw)]. destruct l as [r| | | | | |]; try by erewrite asks_stop_requests by (by eapply mstep_requests).
  simpl in Hs. simplify_eq/=. rewrite omap_app. destruct r; simpl; [|done]. by rewrite app_nil_r.
Qed.

(** *** Steps of [run] *)

(** [run] moves on, with the same connections and files. *)
Lemma run_inv w r :
  dinv w → (∀ arg, current w.(at_run) arg → current r arg) → calls_ok r (λ me k, connection me k w) →
  (stop_asked w.(at_run) ≤ stop_asked r)%nat → dinv (set_run r w).
Proof. intros [Hwp Hpd Hc Hsv Hst] Hcur Hc' Hle. split; simpl; [done|by eauto|done|done|by etrans]. Qed.

Lemma run_sim w r c own : sim w c own → abstracts r c.(cat) → sim (set_run r w) c own.
Proof. intros. by apply (sim_same w). Qed.

Lemma channel_inv w ws :
  dinv w → dinv (set_server (set_mr (set_registerChannel ws w.(server).(mr)) w.(server)) w).
Proof. intros Hw. apply server_inv; [done|by apply minv_mr; [apply Hw|..]|apply Hw]. Qed.

Lemma tasks_inv w phase ts ts' :
  dinv w → w.(at_run) = Scheduling phase ts → length ts' = length ts →
  (∀ t me k, ts' !! t = Some (DCalling me k) → ts !! t = Some (DCalling me k)) →
  dinv (set_run (Scheduling phase ts') w).
Proof.
  intros Hw Hr Hlen Hcall. pose proof (dv_calls _ Hw) as Hc. rewrite Hr in Hc. destruct Hc as [Hl Hc].
  apply run_inv; rewrite ?Hr; [done|done| |done]. split; [by rewrite Hlen|]. intros t me k Ht. by apply Hc, Hcall.
Qed.

(** A new connection does not disturb the others. *)
Lemma dial_spec worker q w w1 n :
  dial worker q w = Some (w1, n) →
  connection worker n w1 = Some (q, CDialed) ∧ connection worker n w = None ∧
  (∀ me k, (me, k) ≠ (worker, n) → connection me k w1 = connection me k w) ∧
  (map_Forall (λ _, winv) w.(procs) → map_Forall (λ _, winv) w1.(procs)) ∧
  w1.(disk) = w.(disk) ∧ w1.(server) = w.(server) ∧ w1.(at_run) = w.(at_run).
Proof.
  unfold dial. intros (p & Hp & Hd)%bind_Some. destruct (listening (pc p)) eqn:Hli; simplify_eq.
  assert (∀ k, connection worker k w = conns p !! k) as Hw by (intros k; unfold connection; by rewrite Hp).
  split_and!; [..|done|done|done].
  - rewrite connection_insert, decide_True by done. simpl. by apply list_lookup_middle.
  - rewrite Hw. by apply lookup_ge_None.
  - intros me k Hne. rewrite connection_insert. case_decide; [|done]. subst. rewrite Hw. simpl.
    destruct (decide (k < length (conns p))%nat); [by apply lookup_app_l|].
    assert (k ≠ length (conns p)) by (by intros ->). rewrite lookup_app_r by lia.
    rewrite !(proj2 (lookup_ge_None _ _)); [done|lia|simpl; lia].
  - intros Hall. apply map_Forall_insert_2; [|done]. pose proof (Hall worker p Hp) as Hpi.
    apply (wstep_inv creatable mapF reduceF (disk w) (disk w) p _ (WDial q) Hpi). simpl. by rewrite Hli.
Qed.

Lemma dial_sim worker q w w1 n c own : dial worker q w = Some (w1, n) → sim w c own → sim w1 c own.
Proof.
  intros (Hnew & Hno & Hsame & _ & Hd & _ & Hr)%dial_spec Hs. apply (sim_same w); [done|done|rewrite Hr; apply Hs|].
  intros me k. destruct (decide ((me, k) = (worker, n))) as [[= -> ->]|Hne]; [|by rewrite Hsame].
  rewrite Hnew, Hno. by destruct q.
Qed.

Lemma dial_inv worker q w w1 n :
  dial worker q w = Some (w1, n) → dinv w → (∀ arg, q = RDoTask arg → current w.(at_run) arg) → dinv w1.
Proof.
  intros (Hnew & Hno & Hsame & Hwi & _ & Es & Er)%dial_spec [Hwp Hpd Hc Hsv Hst] Hq.
  split; rewrite ?Es, ?Er; [by apply Hwi| | |done|done].
  - intros me k arg Harg. destruct (decide ((me, k) = (worker, n))) as [[= -> ->]|Hne].
    + rewrite Hnew in Harg. destruct q as [arg'|]; simplify_eq/=. by apply Hq.
    + rewrite Hsame in Harg by done. by eapply Hpd.
  - eapply calls_ok_ext; [|exact Hc]. simpl. intros me k q' s Hk. exists s. rewrite Hsame; [done|]. intros [= -> ->]. congruence.
Qed.

(** The goroutine of task [t] calls a worker. *)
Lemma call_inv w1 phase ts t worker n arg :
  dinv w1 → w1.(at_run) = Scheduling phase ts → ts !! t = Some DWaiting →
  taskArgs job files nReduce phase t = Some arg → connection worker n w1 = Some (RDoTask arg, CDialed) →
  dinv (set_run (Scheduling phase (<[t := DCalling worker n]> ts)) w1).
Proof.
  intros Hw Hr Ht Harg Hconn. pose proof (dv_calls _ Hw) as Hc. rewrite Hr in Hc. destruct Hc as [Hl Hc].
  apply run_inv; rewrite ?Hr; [done|done| |done].
  split; [by rewrite length_insert|]. intros t' me k [(<- & E & _)|[_ E]]%list_lookup_insert_Some.
  - simplify_eq. by eauto.
  - by apply Hc.
Qed.

Lemma replicate_waiting n (ts := replicate n DWaiting) t s : ts !! t = Some s → s = DWaiting.
Proof. by intros [-> _]%lookup_replicate. Qed.

(** The tasks that are done stay done. *)
Lemma abstracts_task phase ts t s c :
  abstracts (Scheduling phase ts) c → s ≠ DDone → abstracts (Scheduling phase (<[t := s]> ts)) c.
Proof.
  intros H Hs. destruct c as [phase' X| |]; try done. destruct H as [-> HX]. split; [done|].
  intros t' [(_ & E & _)|[_ ?]]%list_lookup_insert_Some; [done|by apply HX].
Qed.

(** A call returns true: its execution has ended. *)
Lemma reply_sim w c own phase ts t worker k :
  dinv w → sim w c own → w.(at_run) = Scheduling phase ts → ts !! t = Some (DCalling worker k) →
  is_Some (answered (connection worker k w)) →
  ∃ l c', calm c l ∧ cstep c l = Done c' ∧ sim (set_run (Scheduling phase (<[t := DDone]> ts)) w) c' own.
Proof.
  intros Hw Hs Hr Ht Hans. pose proof (dv_calls _ Hw) as Hc. rewrite Hr in Hc. destruct Hc as [_ Hc].
  destruct (Hc t worker k Ht) as (arg & s & Ha & Hk). rewrite Hk in Hans.
  destruct s as [| | | | |reply]; try by destruct Hans.
  destruct (sim_find w c own worker k arg AtEnd Hs) as (j & e & Hj & Hej & Hae & Hend); [by rewrite Hk|].
  destruct (taskArgs_phase _ _ _ Ha) as [Hp Hn]. destruct (taskArgs_phase _ _ _ Hae) as [Hpe Hne].
  assert (etask e = t) as Het by lia. rewrite Hp in Hpe.
  pose proof (sm_run _ _ _ Hs) as Hrun. rewrite Hr in Hrun.
  destruct (cat c) as [phase' X| |] eqn:Hcat; try done. destruct Hrun as [-> HX].
  exists (CReply j), (mkCJob (cdisk c) (execs c) (InPhase phase ({[t]} ∪ X))). split_and!; [done| |].
  { cbn. rewrite Hcat, Hej. cbn. rewrite Hend. rewrite decide_True by done. by rewrite Het. }
  destruct Hs as [Hd _ Hl Hnd He Ho Hq]. split; try done. split; [done|].
  intros t' [(<- & _ & _)|[_ ?]]%list_lookup_insert_Some; [set_solver|]. apply elem_of_union_r. by apply HX.
Qed.

(** [schedule] returns. *)
Lemma workless_quiet w c own : workless w → sim w c own → quiet c.(execs).
Proof.
  intros Hi Hs. apply Forall_lookup_2. intros j e Hej.
  destruct (lookup_lt_is_Some_2 own j) as [[me k] Hj]; [rewrite (sm_len _ _ _ Hs); by eapply lookup_lt_Some|].
  destruct (sm_exec _ _ _ Hs j me k e Hj Hej) as (arg & _ & (x & Hx & Hat)%bind_Some). by eapply (Hi me k x).
Qed.

Lemma phase_follows w c own phase ts :
  dinv w → sim w c own → workless w → w.(at_run) = Scheduling phase ts → Forall (λ s, s = DDone) ts →
  follows c (set_run (match phase with
                      | mapPhase => startTasks reducePhase
                      | reducePhase => Killing w.(server).(mr).(workers) None []
                      end) w).
Proof.
  intros Hw Hs Hi Hr Hall. pose proof (workless_quiet _ _ _ Hi Hs) as Hq.
  pose proof (dv_calls _ Hw) as Hc. rewrite Hr in Hc. destruct Hc as [Hl _].
  pose proof (sm_run _ _ _ Hs) as Hrun. rewrite Hr in Hrun. destruct (cat c) as [phase' X| |] eqn:Hcat; try done.
  destruct Hrun as [-> HX]. set (r := match phase with mapPhase => _ | reducePhase => _ end).
  set (c' := mkCJob (cdisk c) (execs c) (match phase with mapPhase => InPhase reducePhase ∅ | reducePhase => BeforeMerge end)).
  apply (follows_step c c' CPhase own).
  - destruct Hw as [Hwp _ _ Hsv Hst]. split; simpl; [done| | |done|].
    + intros me k arg (x & Hx & Hp)%bind_Some. by rewrite (proj1 (Hi me k x Hx)) in Hp.
    + unfold r. destruct phase; [|done]. split; [rewrite length_replicate; lia|]. by intros t me k ?%replicate_waiting.
    + etrans; [exact Hst|]. rewrite Hr. unfold r. by destruct phase.
  - exact Hq.
  - cbn. rewrite Hcat. rewrite decide_True; [done|]. apply Forall_forall. intros t Ht%elem_of_seq. apply HX.
    destruct (lookup_lt_is_Some_2 ts t) as [s Hts]; [lia|]. rewrite Hts. f_equal. exact (Forall_lookup_1 _ _ _ _ Hall Hts).
  - destruct Hs as [Hd _ Hlen Hn He Ho _]. split; try done; simpl; [|by destruct phase].
    unfold r. destruct phase; [|done]. split; [done|]. by intros t ?%replicate_waiting.
Qed.

(** A step that is calm keeps the invariant and is followed by the abstract job;
    one that panics would make the abstract job panic. *)
Definition followed (c : cjob) (o : outcome djob) : Prop :=
  match o with Done w' => follows c w' | Disabled => True | Panicked => ∃ l, calm c l ∧ cstep c l = Panicked end.

Lemma taskStep_follows w c own phase ts l :
  dinv w → sim w c own → dcalm w l → w.(at_run) = Scheduling phase ts → followed c (taskStep phase ts w l).
Proof.
  intros Hw Hs Hcalm Hr. pose proof (sm_run _ _ _ Hs) as Hrun. rewrite Hr in Hrun.
  pose proof (dv_calls _ Hw) as Hc. rewrite Hr in Hc. destruct Hc as [Hl _].
  destruct l; simpl; try done.
  - destruct (ts !! t) as [s|] eqn:Ht; [|done]. destruct (_ !! k) as [worker|]; [|done].
    assert (Z.of_nat t < ntasks files nReduce phase) as Htn by (apply lookup_lt_Some in Ht; lia).
    destruct (taskArgs_total job files nReduce phase t Htn) as [arg Harg]. simpl. rewrite Harg. simpl. destruct s; try done.
    set (w0 := set_server _ w). assert (dinv w0) as Hw0 by apply channel_inv, Hw.
    assert (sim w0 c own) as Hs0 by (by apply server_sim).
    destruct (dial worker (RDoTask arg) w0) as [[w1 n]|] eqn:Hd; simpl; [|by eapply follows_same].
    destruct (dial_spec _ _ _ _ _ Hd) as (Hnew & _ & _ & _ & _ & _ & Er).
    eapply follows_same; [eapply call_inv; [|by rewrite Er; exact Hr|done..]|eapply run_sim; [by eapply dial_sim|]].
    + eapply dial_inv; [done..|]. intros ? [= <-]. change (at_run w0) with (at_run w). rewrite Hr. by exists t.
    + by apply abstracts_task.
  - destruct (ts !! t) as [[|worker k|]|] eqn:Ht; try done. simpl.
    destruct (answered _) eqn:Hans; [|done]. simpl. set (w0 := set_server _ w).
    destruct (reply_sim w0 c own phase ts t worker k) as (l & c' & ? & ? & ?); [|by apply server_sim|done|done| |].
    + apply channel_inv, Hw.
    + change (connection worker k w0) with (connection worker k w). by rewrite Hans.
    + eapply follows_step; [|done..]. eapply (tasks_inv w0); [by apply channel_inv|done|by rewrite length_insert|].
      by intros t' me k' [(<- & ? & _)|[_ ?]]%list_lookup_insert_Some.
  - destruct (ts !! t) as [[|worker k|]|] eqn:Ht; try done. simpl. eapply follows_same; [|by apply run_sim, abstracts_task].
    eapply tasks_inv; [exact Hw|exact Hr|by rewrite length_insert|].
    by intros t' me k' [(<- & ? & _)|[_ ?]]%list_lookup_insert_Some.
  - case_decide; [|done]. by eapply phase_follows.
Qed.

Lemma killStep_follows w c own todo calling ns l :
  dinv w → sim w c own → w.(at_run) = Killing todo calling ns → followed c (killStep todo calling ns w l).
Proof.
  intros Hw Hs Hr. pose proof (sm_run _ _ _ Hs) as Hrun. rewrite Hr in Hrun.
  assert (∀ w1 r, dinv w1 → sim w1 c own → at_run w1 = Killing todo calling ns →
    (∃ todo' calling' ns', r = Killing todo' calling' ns') ∨ r = Stopping None → follows c (set_run r w1)) as Hgo.
  { intros w1 r Hw1 Hs1 Hr1 H.
    by destruct H as [(? & ? & ? & ->)| ->]; (eapply follows_same; [apply run_inv; rewrite ?Hr1|apply run_sim]). }
  unfold killStep. destruct l; try done.
  - destruct todo as [|worker todo'], calling as [k|]; try done; simpl.
    + apply Hgo; [|by apply server_sim|done|by right].
      apply server_inv; [done|by apply minv_mr; [apply Hw|..]|apply Hw].
    + destruct (dial worker RShutdown w) as [[w1 n]|] eqn:Hd; simpl.
      * apply Hgo; [by eapply dial_inv|by eapply dial_sim| |by left; eauto].
        by destruct (dial_spec _ _ _ _ _ Hd) as (_ & _ & _ & _ & _ & _ & ->).
      * apply Hgo; [done..|by left; eauto].
  - destruct todo as [|worker todo'], calling as [k|]; try done.
    destruct (answered _) as [[n|]|]; try done. apply Hgo; [done..|by left; eauto].
  - destruct todo as [|worker todo'], calling as [k|]; try done. apply Hgo; [done..|by left; eauto].
Qed.

Lemma stopStep_follows w c own calling l :
  dinv w → sim w c own → w.(at_run) = Stopping calling → followed c (stopStep calling w l).
Proof.
  intros Hw Hs Hr. pose proof (sm_run _ _ _ Hs) as Hrun. rewrite Hr in Hrun.
  assert (∀ r, r = Merging ∨ (∃ k, r = Stopping (Some k)) → dinv (set_run r w) ∧ sim (set_run r w) c own) as Hgo.
  { intros r H. destruct H as [->|[k ->]]; (split; [|by apply run_sim]);
      (apply run_inv; rewrite ?Hr; [done|done|done|destruct calling; simpl; lia]). }
  destruct l; try done.
  - destruct calling as [k|]; [done|]. simpl. destruct (MRMaster.l _) eqn:El; simpl; [|by eapply follows_same; apply Hgo; left].
    set (s := mkServer _ _ _).
    destruct (Hgo (Stopping (Some (length (mconns (server w)))))) as [Hw1 Hs1]; [by right; eauto|].
    eapply (follows_same c own (set_server s (set_run (Stopping (Some (length (mconns (server w))))) w))); [|by apply server_sim].
    apply server_inv; [done| |].
    + eapply (mstep_inv false (server w) _ (MDial MShutdown)); [apply Hw|]. simpl. by rewrite El.
    + simpl. rewrite omap_app, length_app. simpl. pose proof (dv_stop _ Hw) as Hst. rewrite Hr in Hst. simpl in Hst. lia.
  - destruct calling as [k|]; [|done]. simpl. destruct (_ !! k) as [[? []]|]; try done. by eapply follows_same; apply Hgo; left.
  - destruct calling as [k|]; [|done]. by eapply follows_same; apply Hgo; left.
Qed.

Lemma merge_follows w c own :
  dinv w → sim w c own → w.(at_run) = Merging → followed c (runStep w DMerge).
Proof.
  intros Hw Hs Hr. pose proof Hs as [Hd Hrun Hl Hn He Ho Hq]. rewrite Hr in Hrun. destruct (cat c) eqn:Hcat; try done.
  assert (cstep c CMerge = (d <~ outcome_of (merge creatable job nReduce (disk w)); Done (mkCJob d (execs c) AfterMerge))%outcome)
    as Hm by (cbn; by rewrite Hcat, Hd).
  unfold runStep. rewrite Hr. destruct (outcome_of _) as [d'| |] eqn:E; simpl in *; [|done|by exists CMerge].
  eapply (follows_step c _ CMerge own); [|done|exact Hm|by split].
  destruct Hw as [Hwp Hpd _ Hsv Hst]. split; simpl; [done|intros me k arg Ha|done|done|by rewrite Hr in Hst].
  apply Hpd in Ha. by rewrite Hr in Ha.
Qed.

Lemma runStep_follows w c own l : dinv w → sim w c own → dcalm w l → followed c (runStep w l).
Proof.
  intros Hw Hs Hcalm. destruct (at_run w) as [phase ts|todo calling ns|calling| | |] eqn:Hr.
  4: destruct l; try (unfold runStep; by rewrite Hr); by eapply merge_follows.
  all: unfold runStep; rewrite Hr.
  - by eapply taskStep_follows.
  - by eapply killStep_follows.
  - by eapply stopStep_follows.
  - destruct l; try done. pose proof (sm_run _ _ _ Hs) as Hrun. rewrite Hr in Hrun.
    eapply follows_same; [|by apply run_sim]. by apply run_inv; rewrite ?Hr.
  - done.
Qed.

Lemma serverStep_follows w c own b l :
  dinv w → sim w c own → l ≠ MDial MShutdown → followed c (s <~ mstep b w.(server) l; Done (set_server s w))%outcome.
Proof.
  intros Hw Hs Hl. destruct (mstep b (server w) l) as [s| |] eqn:Hm; simpl; [|done|].
  - eapply follows_same; [by eapply server_step_inv|by apply server_sim].
  - destruct (mstep_panics _ _ _ Hm) as [Hsh [k Hk]]. by rewrite (shutdown_once w k Hw Hk) in Hsh.
Qed.

Lemma workerStep_follows w c own me p l :
  dinv w → sim w c own → w.(procs) !! me = Some p → (∀ r, l ≠ WDial r) →
  followed c ('(d, p) <~ wstep creatable mapF reduceF (w.(disk), p) l;
              Done (mkJob d (<[me := p]> w.(procs)) w.(server) w.(at_run)))%outcome.
Proof.
  intros Hw Hs Hp Hl. destruct (wstep creatable mapF reduceF (disk w, p) l) as [[d' p']| |] eqn:Hst; cbn [outcome_bind].
  - by eapply worker_inv.
  - done.
  - apply wstep_panics in Hst as (k & n & arg & pc & Hk & Hpan).
    destruct (sim_find w c own me k arg pc Hs) as (j & e & Hj & Hej & Ha & Hpc); [unfold connection; rewrite Hp; simpl; by rewrite Hk|].
    exists (CExec j n). split; [done|]. cbn. rewrite Hej. cbn. unfold execStep. rewrite Ha. cbn.
    by rewrite Hpc, (sm_disk _ _ _ Hs), Hpan.
Qed.

Lemma dstep_follows w c own l : dinv w → sim w c own → dcalm w l → followed c (dstep w l).
Proof.
  intros Hw Hs Hcalm. destruct l as [me n|me l|me|l| | | | | | | | | | | |]; try by eapply runStep_follows.
  - simpl. destruct (procs w !! me) eqn:Hp; [done|]. simpl. by eapply new_worker_inv.
  - destruct (procs w !! me) as [p|] eqn:Hp; [|by simpl; rewrite Hp; destruct l].
    pose proof (workerStep_follows w c own me p l Hw Hs Hp) as H.
    destruct l; simpl; rewrite ?Hp; cbn [enabled outcome_bind]; try done; by apply H.
  - simpl. destruct (procs w !! me) as [p|]; [|done]. simpl. destruct (pc p); try done.
    by apply (serverStep_follows w c own (locked (at_run w)) (register (wk p))).
  - pose proof (serverStep_follows w c own (locked (at_run w)) l Hw Hs) as H. destruct l; try done; by apply H.
Qed.

Lemma calm_dsteps_follows w w' c own :
  dinv w → sim w c own → calm_dsteps w w' → follows c w'.
Proof.
  intros Hw Hs Hst. revert c own Hw Hs. induction Hst as [w|w1 w2 w3 (l & Hc & Hl) _ IH]; intros c own Hw Hs.
  { by eapply follows_same. }
  pose proof (dstep_follows w1 c own l Hw Hs Hc) as H. rewrite Hl in H. destruct H as (Hw2 & c' & own' & Hcs & Hs2).
  destruct (IH c' own' Hw2 Hs2) as (Hw3 & c'' & own'' & ? & ?). split; [done|]. exists c'', own''. split; [by etrans|done].
Qed.

Lemma Distributed_follows listen master d w :
  Distributed listen master d = Ok w → dinv w ∧ sim w (cstart d) [].
Proof.
  unfold Distributed. destruct (startRPCServer listen (newMaster master)) as [s| |] eqn:Hs; simpl; [|done..].
  assert (∀ me k, connection me k (mkJob d ∅ s (startTasks mapPhase)) = None) as Hconn
    by (intros; unfold connection; simpl; by rewrite lookup_empty).
  intros [= <-]. split; split; try done; simpl; try (intros me k *; by rewrite Hconn).
  - split; [rewrite length_replicate; simpl; lia|]. by intros t me k ?%replicate_waiting.
  - by eapply start_inv.
  - unfold startRPCServer in Hs. destruct listen; by simplify_eq/=.
  - split; [done|]. by intros t ?%replicate_waiting.
  - constructor.
Qed.

(** *** Calls that fail late *)

(** A task that has not been answered belongs to a call in progress. *)
Definition calling w : Prop :=
  ∀ me k arg, connection me k w ≫= unanswered = Some arg →
    ∃ phase ts t, w.(at_run) = Scheduling phase ts ∧ ts !! t = Some (DCalling me k).

Lemma calling_workless w phase ts :
  calling w → w.(at_run) = Scheduling phase ts → Forall (λ s, s = DDone) ts → workless w.
Proof.
  intros Hc Hr Hall me k x Hx.
  assert (unanswered x = None) as Hun.
  { destruct (unanswered x) as [arg|] eqn:E; [|done]. destruct (Hc me k arg) as (ph & ts' & t & Hr' & Ht); [by rewrite Hx|].
    rewrite Hr in Hr'. simplify_eq. by apply (Forall_lookup_1 _ _ _ _ Hall) in Ht. }
  destruct x as [[] []]; try done; split; try done; intros ?? [=]; by subst.
Qed.

(** Nothing new is unanswered, and the calls on what is go on. *)
Lemma calling_mono w w' :
  calling w → (∀ me k arg, connection me k w' ≫= unanswered = Some arg → connection me k w ≫= unanswered = Some arg) →
  (∀ phase ts t me k, w.(at_run) = Scheduling phase ts → ts !! t = Some (DCalling me k) →
     connection me k w ≫= unanswered ≠ None →
     ∃ phase' ts' t', w'.(at_run) = Scheduling phase' ts' ∧ ts' !! t' = Some (DCalling me k)) →
  calling w'.
Proof.
  intros Hc Hun Hgo me k arg Ha%Hun. destruct (Hc me k arg Ha) as (phase & ts & t & Hr & Ht).
  eapply Hgo; [done|done|]. by rewrite Ha.
Qed.

(** A call of a task ends. *)
Lemma calling_return w phase ts t s worker k w0 :
  calling w → w.(at_run) = Scheduling phase ts → ts !! t = Some (DCalling worker k) →
  connection worker k w ≫= unanswered = None → w0.(procs) = w.(procs) →
  calling (set_run (Scheduling phase (<[t := s]> ts)) w0).
Proof.
  intros Hc Hr Ht Hno Hp. eapply calling_mono; [exact Hc|intros me j arg; unfold connection; simpl; by rewrite Hp|].
  intros phase' ts' t' me j Hr' Ht' Hun. rewrite Hr in Hr'. simplify_eq. exists phase', (<[t := s]> ts'), t'.
  split; [done|]. rewrite list_lookup_insert_ne; [done|]. intros ->. by simplify_eq.
Qed.

Lemma calling_task w w' phase ts l :
  calling w → w.(at_run) = Scheduling phase ts → fails_late w l → taskStep phase ts w l = Done w' → calling w'.
Proof.
  intros Hc Hr Hfl Hs. destruct l; simpl in Hs; try done.
  - destruct (ts !! t) as [s|] eqn:Ht; [|done]. destruct (_ !! k) as [worker|]; [|done].
    destruct (taskArgs _ _ _ _ _) as [arg|]; [|done]. simpl in Hs. destruct s; try done.
    set (w0 := set_server _ w) in Hs. destruct (dial worker (RDoTask arg) w0) as [[w1 n]|] eqn:Hd; simplify_eq; [|done].
    destruct (dial_spec _ _ _ _ _ Hd) as (Hnew & _ & Hsame & _ & _ & _ & Er). intros me j a Ha.
    destruct (decide ((me, j) = (worker, n))) as [[= -> ->]|Hne].
    { exists phase, (<[t := DCalling worker n]> ts), t. split; [done|]. apply list_lookup_insert_eq. by eapply lookup_lt_Some. }
    change (connection me j w1 ≫= unanswered = Some a) in Ha. rewrite Hsame in Ha by done.
    destruct (Hc me j a Ha) as (ph & ts' & t' & Hr' & Ht'). rewrite Hr in Hr'. simplify_eq.
    exists ph, (<[t := DCalling worker n]> ts'), t'. split; [done|]. rewrite list_lookup_insert_ne; [done|]. intros ->. by simplify_eq.
  - destruct (ts !! t) as [[|worker k|]|] eqn:Ht; try done. simpl in Hs.
    destruct (connection worker k w) as [[q []]|] eqn:Hk; simplify_eq/=.
    eapply (calling_return w); [done..|by rewrite Hk; destruct q|done].
  - destruct (ts !! t) as [[|worker k|]|] eqn:Ht; try done. simplify_eq/=.
    eapply (calling_return w); [done..|by eapply Hfl|done].
  - case_decide as Hall; [|done]. simplify_eq. intros me k arg Ha.
    destruct (Hc me k arg Ha) as (ph & ts' & t & Hr' & Ht). rewrite Hr in Hr'. simplify_eq.
    by apply (Forall_lookup_1 _ _ _ _ Hall) in Ht.
Qed.

Lemma calling_same w w' :
  calling w → w'.(at_run) = w.(at_run) →
  (∀ me k arg, connection me k w' ≫= unanswered = Some arg → connection me k w ≫= unanswered = Some arg) → calling w'.
Proof.
  intros Hc Hr Hun. eapply calling_mono; [exact Hc|done|]. intros phase ts t me k Hr' Ht _. exists phase, ts, t. by rewrite Hr.
Qed.

(** After the phases nothing is unanswered. *)
Lemma calling_over w w' :
  calling w → (∀ phase ts, w.(at_run) ≠ Scheduling phase ts) →
  (∀ me k arg, connection me k w' ≫= unanswered = Some arg → connection me k w ≫= unanswered = Some arg) → calling w'.
Proof.
  intros Hc Hno Hun me k arg Ha%Hun. destruct (Hc me k arg Ha) as (ph & ts & _ & Hr & _). by destruct (Hno ph ts).
Qed.

Lemma calling_run w w' l : calling w → fails_late w l → runStep w l = Done w' → calling w'.
Proof.
  intros Hc Hfl Hs. unfold runStep in Hs. destruct (at_run w) as [phase ts|todo ca ns|ca| | |] eqn:Hr.
  1: by eapply calling_task.
  all: apply (calling_over w); [done|by rewrite Hr|].
  - unfold killStep in Hs. destruct l; try done; destruct todo as [|worker todo], ca as [kk|]; try done.
    + by simplify_eq.
    + destruct (dial worker RShutdown w) as [[w1 n]|] eqn:Hd; simplify_eq; [|done]. intros me j arg.
      apply dial_spec in Hd as (Hnew & _ & Hsame & _). change (connection me j (set_run _ w1)) with (connection me j w1).
      destruct (decide ((me, j) = (worker, n))) as [[= -> ->]|Hne]; [by rewrite Hnew|by rewrite Hsame].
    + destruct (answered _) as [[]|]; by simplify_eq.
    + by simplify_eq.
  - unfold stopStep in Hs. destruct l, ca as [kk|]; try done; simpl in Hs.
    + destruct (MRMaster.l _); by simplify_eq.
    + destruct (_ !! kk) as [[? []]|]; by simplify_eq.
    + by simplify_eq.
  - destruct l; try done. destruct (outcome_of _) as [d'| |]; by simplify_eq/=.
  - destruct l; by simplify_eq.
  - done.
Qed.

Lemma calling_step w w' l :
  dinv w → calling w → fails_late w l → dstep w l = Done w' → calling w'.
Proof.
  intros Hw Hc Hfl Hs. destruct l as [me n|me l|me|l| | | | | | | | | | | |]; try by eapply calling_run.
  - simpl in Hs. destruct (procs w !! me) eqn:Hp; simplify_eq/=. apply (calling_same w); [done..|]. intros me' k arg.
    rewrite connection_insert. by case_decide.
  - destruct (procs w !! me) as [p|] eqn:Hp; [|by simpl in Hs; rewrite Hp in Hs; destruct l].
    assert (∀ r, l ≠ WDial r) as Hnd by (intros r ->; done).
    assert (('(d, p) <~ wstep creatable mapF reduceF (disk w, p) l;
             Done (mkJob d (<[me := p]> (procs w)) (server w) (at_run w)))%outcome = Done w') as Hs'
      by (destruct l; simpl in Hs; rewrite ?Hp in Hs; done).
    destruct (wstep creatable mapF reduceF (disk w, p) l) as [[d' p']| |] eqn:Hst; simplify_eq/=.
    destruct (wstep_conns _ _ _ _ _ _ _ _ (dv_procs _ Hw me p Hp) Hst Hnd) as (_ & Hun & _).
    apply (calling_same w); [done..|]. intros me' k arg.
    change (connection me' k (set_proc me p' w) ≫= unanswered = Some arg → connection me' k w ≫= unanswered = Some arg).
    rewrite connection_insert. clear Hst Hs. case_decide as E; [|done]. subst. unfold connection. rewrite Hp. apply Hun.
  - simpl in Hs. destruct (procs w !! me) as [p|]; [|done]. simpl in Hs. destruct (pc p); try done. simpl in Hs.
    simplify_eq/=. by apply (calling_same w).
  - assert ((s <~ mstep (locked (at_run w)) (server w) l; Done (set_server s w))%outcome = Done w') as Hs'
      by (by destruct l). destruct (mstep _ _ _) as [s| |]; simplify_eq/=. by apply (calling_same w).
Qed.

Lemma calling_calm w w' l : calling w → dstep w l = Done w' → dcalm w l.
Proof.
  intros Hc Hs. destruct l; try done. simpl in *. unfold runStep in Hs.
  destruct (at_run w) as [phase ts|[|] []|[]| | |] eqn:Hr; try done. simpl in Hs. case_decide; [|done]. by eapply calling_workless.
Qed.

(** Calls that fail late keep the job calm. *)
Lemma late_calm w w' c own :
  dinv w → sim w c own → calling w → late_dsteps w w' → calm_dsteps w w'.
Proof.
  intros Hw Hs Hc Hst. revert c own Hw Hs Hc. induction Hst as [w|w1 w2 w3 (l & Hfl & Hl) _ IH]; intros c own Hw Hs Hc.
  { apply rtc_refl. }
  pose proof (calling_calm w1 w2 l Hc Hl) as Hcalm. pose proof (dstep_follows w1 c own l Hw Hs Hcalm) as H.
  rewrite Hl in H. destruct H as (Hw2 & c' & own' & _ & Hs2). eapply rtc_l; [by exists l|].
  apply (IH c' own'); [done|done|]. exact (calling_step _ _ _ Hw Hc Hfl Hl).
Qed.

Lemma phase_safe w : dstep w DPhase ≠ Panicked.
Proof. simpl. unfold runStep. destruct (at_run w) as [phase ts|[|] []|[]| | |]; try done. simpl. by case_decide. Qed.

Lemma Distributed_calling listen master d w : Distributed listen master d = Ok w → calling w.
Proof.
  unfold Distributed. destruct (startRPCServer listen (newMaster master)) as [s| |]; simpl; [|done..].
  intros [= <-] me k arg. unfold connection. simpl. by rewrite lookup_empty.
Qed.
End distributed.

(** A calm job is the abstract one, so that its disk is right once [run] has merged. *)
Lemma distributed_report {J : Json} {JO : JsonOk} creatable job files n mapF reduceF listen master d w0 w :
  job_ok creatable job n mapF reduceF files d →
  Distributed files n listen master d = Ok w0 →
  calm_dsteps creatable job files n mapF reduceF w0 w →
  (∀ l, dstep creatable job files n mapF reduceF w l ≠ Panicked) ∧
  (w.(at_run) = Merged ∨ w.(at_run) = Finished →
     w.(disk) !! outputName job = Some (report reduceF (allPairs mapF d files))).
Proof.
  intros Hjob H0 Hs. destruct (Distributed_follows job files n listen master d w0 H0) as [Hw0 Hs0].
  destruct (calm_dsteps_follows creatable job files n mapF reduceF w0 w (cstart d) [] Hw0 Hs0 Hs)
    as (Hw & c & own & Hcs & Hsim).
  destruct (concurrent_report creatable job files n mapF reduceF d Hjob c Hcs) as [Hsafe Hout]. split.
  - intros l Hl. assert (dcalm w l) as Hc by (destruct l; try done; by apply phase_safe in Hl).
    pose proof (dstep_follows creatable job files n mapF reduceF w c own l Hw Hsim Hc) as H.
    rewrite Hl in H. destruct H as (l' & Hc' & Hp). by destruct (Hsafe l' Hc').
  - intros Hr. rewrite <- (sm_disk _ _ _ _ _ _ Hsim). apply Hout. pose proof (sm_run _ _ _ _ _ _ Hsim) as Ha.
    by destruct Hr as [Hr|Hr]; rewrite Hr in Ha; destruct (cat c).
Qed.

(** ** Theorems *)

(** C11. A distributed job, with the master's and the workers' RPC servers,
    every worker executing its tasks one file operation at a time.  For a job
    as [job_ok] has it (a positive number of reduce tasks, every file of the
    job can be created, no intermediate file is left over from an earlier job,
    no input is an intermediate file of the job, keys and values are valid
    UTF-8): whatever processes start, register, run out of quota or lose
    connections, whichever calls fail, whenever, and however often tasks are
    executed and their operations interleaved, if no worker has a task left to
    start or to end when a phase returns, then nothing panics, and once [run]
    has merged (as [Wait] waits for) the output file is the report of the
    map-reduce specification. *)
Theorem distributed_job {J : Json} {JO : JsonOk} creatable job files n mapF reduceF listen master d w0 w :
  job_ok creatable job n mapF reduceF files d →
  Distributed files n listen master d = Ok w0 →
  calm_dsteps creatable job files n mapF reduceF w0 w →
  (∀ l, dstep creatable job files n mapF reduceF w l ≠ Panicked) ∧
  (w.(at_run) = Merged ∨ w.(at_run) = Finished →
     w.(disk) !! outputName job = Some (report reduceF (allPairs mapF d files))).
Proof. apply distributed_report. Qed.

(** C12. A distributed job computes what a sequential one does.  For a job as
    [job_ok] has it (a positive number of reduce tasks, every file of the job
    can be created, no intermediate file is left over from an earlier job, no
    input is an intermediate file of the job, keys and values are valid UTF-8),
    if a call of a task fails only when the request
    was refused or lost, or after it was executed, and not while the worker may
    still execute it: whatever workers there are, whatever fails and is tried
    again, and however the operations of the tasks are interleaved, nothing
    panics, and once [run] has merged, the output file has the contents it has
    after [Sequential] on the same inputs. *)
Theorem distributed_equals_sequential {J : Json} {JO : JsonOk} creatable job files n mapF reduceF listen master d w0 w :
  job_ok creatable job n mapF reduceF files d →
  Distributed files n listen master d = Ok w0 →
  late_dsteps creatable job files n mapF reduceF w0 w →
  (∀ l, dstep creatable job files n mapF reduceF w l ≠ Panicked) ∧
  (w.(at_run) = Merged ∨ w.(at_run) = Finished →
     ∃ d', Sequential creatable job files n mapF reduceF d = Ok d' ∧
       w.(disk) !! outputName job = d' !! outputName job).
Proof.
  intros Hjob H0 Hs. destruct (Distributed_follows job files n listen master d w0 H0) as [Hw0 Hs0].
  apply (late_calm creatable job files n mapF reduceF w0 w (cstart d) [] Hw0 Hs0) in Hs; [|by eapply Distributed_calling].
  destruct (distributed_report creatable job files n mapF reduceF listen master d w0 w Hjob H0 Hs) as [Hsafe Hout]. split.
  - done.
  - intros Hr. destruct (sequential_done creatable job n mapF reduceF files d Hjob) as (d' & Hd & [Ho _ _ _]).
    exists d'. split; [done|]. rewrite Ho. by apply Hout.
Qed.
