(* ===== verification/MRMain.v ===== *)
(** * The MapReduce command line

    [main] of src/src/main/wc.go and src/src/main/ii.go: which of the three
    programs a command line starts.  The two files have the same [main] but for
    the name of the job and the application's functions.  A sequential run is
    followed by [Wait], so its disk is the one the job leaves; of a master or a
    worker the state in which it starts is given, and MRDistributed.v and
    MRWorker.v take it from there. *)
From S2P Require Import Prelude GoStrings MRFiles MRTasks MRSpec MRSchedule MRApps MRWorker MRMaster MRDistributed.

(** What the process does: it prints its usage, it has run a sequential job, or
    it is a master or the worker of a master. *)
Inductive started :=
| Usage (program : string)
| RanSequential (d : fs)
| StartedMaster (job : string) (files : list string) (w : djob)
| StartedWorker (master : string) (p : wproc).

Section main.
Context {J : Json} (creatable : string → bool).

(** [listen] says whether the process can listen on its socket. *)
Definition main (jobName : string) (mapF : string → string → list KeyValue)
    (reduceF : string → list string → string) (Args : list string) (listen : bool) (d : fs) : result started :=
  match Args with
  | prog :: arg1 :: arg2 :: arg3 :: rest =>
    if decide (arg1 = "master") then
      if decide (arg2 = "sequential") then
        (d <- Sequential creatable jobName (arg3 :: rest) 3 mapF reduceF d; Ok (RanSequential d))%result
      else
        (w <- Distributed (arg3 :: rest) 3 listen arg2 d; Ok (StartedMaster jobName (arg3 :: rest) w))%result
    else
      (p <- RunWorker listen arg3 100; Ok (StartedWorker arg2 p))%result
  | prog :: _ => Ok (Usage prog)
  | [] => Panic
  end.

Context (isLetter : Z → bool).

Definition wcMain : list string → bool → fs → result started := main "wcseq" (wcMap isLetter) wcReduce.
Definition iiMain : list string → bool → fs → result started := main "iiseq" (iiMap isLetter) iiReduce.

(** The job that [wc.go master sequential] runs. *)
Lemma wc_sequential_report {JO : JsonOk} job n files d :
  job_ok creatable job n (wcMap isLetter) wcReduce files d → len (allWords isLetter d files) < 2 ^ 63 →
  ∃ d', Sequential creatable job files n (wcMap isLetter) wcReduce d = Ok d' ∧
    d' !! outputName job = Some
      (concatStrings ((λ w, line w (Itoa (occurrences w (allWords isLetter d files)))) <$>
                      vocabulary (allWords isLetter d files))).
Proof.
  intros Hjob Hlen.
  destruct (sequential_done creatable job n (wcMap isLetter) wcReduce files d Hjob) as (d' & Hd & [Ho _ _ _]).
  exists d'. split; [done|]. rewrite Ho. f_equal. by apply wc_counts.
Qed.

(** ** Theorems *)

(** C32. Word count from its command line.  With at least one input file, and
    for a job as [job_ok] has it (every file of the job can be created, no
    intermediate file is left over from an earlier job, no input is an
    intermediate file of the job, the words are valid UTF-8), and fewer than
    2^63 words in all: [wc.go master sequential x1 .. xN] ends, and the file
    mrtmp.wcseq then has, for every distinct word of the input files in sorted
    order, one line with the number of its occurrences in all of them. *)
Theorem wc_main_report {JO : JsonOk} prog file files listen d :
  job_ok creatable "wcseq" 3 (wcMap isLetter) wcReduce (file :: files) d →
  len (allWords isLetter d (file :: files)) < 2 ^ 63 →
  ∃ d', wcMain (prog :: "master" :: "sequential" :: file :: files) listen d = Ok (RanSequential d') ∧
    d' !! outputName "wcseq" = Some
      (concatStrings ((λ w, line w (Itoa (occurrences w (allWords isLetter d (file :: files))))) <$>
                      vocabulary (allWords isLetter d (file :: files)))).
Proof.
  intros Hjob Hlen. destruct (wc_sequential_report _ _ _ _ Hjob Hlen) as (d' & Hd & Ho).
  exists d'. split; [|done]. unfold wcMain, main. cbn [decide]. rewrite !decide_True by done. by rewrite Hd.
Qed.

(** The other command lines: fewer than three arguments print the usage, and a
    first argument other than [master] makes a worker with a quota of 100
    connections, so a master's workers are never asked to be masters. *)
Lemma main_cases job mapF reduceF prog rest listen d :
  ((length rest < 3)%nat → main job mapF reduceF (prog :: rest) listen d = Ok (Usage prog)) ∧
  (∀ role master me more, rest = role :: master :: me :: more → role ≠ "master" →
     main job mapF reduceF (prog :: rest) true d = Ok (StartedWorker master (mkProc (mkWorker me 100 0) PRegister []))).
Proof.
  split.
  - intros Hlt. destruct rest as [|a [|b [|c rest]]]; simpl in *; (done || lia).
  - intros role master me more -> Hr. simpl. by rewrite decide_False.
Qed.
End main.
