(* ===== verification/MRExamples.v ===== *)
(** * MapReduce jobs, run

    A record codec that satisfies what MRFiles.v asks of encoding/json, and
    small jobs run by evaluation. *)
From S2P Require Import Prelude GoStrings MRFiles MRTasks MRSpec MRApps MRSchedule.

(** ** A codec: key and value, each ended by a separator *)

Definition sepKey : ascii := "001"%char.
Definition sepValue : ascii := "002"%char.

Fixpoint cut (c : ascii) (s : string) : option (string * string) :=
  match s with
  | EmptyString => None
  | String d s =>
    if decide (d = c) then Some ("", s)
    else '(l, r) ← cut c s; Some (String d l, r)
  end.

Definition wireKV (kv : KeyValue) : string :=
  kv.(kvKey) +:+ String sepKey (kv.(kvValue) +:+ String sepValue "").

Definition unwireKV (s : string) : option (KeyValue * string) :=
  '(k, s) ← cut sepKey s; '(v, s) ← cut sepValue s; Some (mkKV k v, s).

Definition plainKV (kv : KeyValue) : bool :=
  negb (has_char sepKey kv.(kvKey)) && negb (has_char sepValue kv.(kvValue)).

#[export] Instance json_wire : Json :=
  {| encode := wireKV; decode := unwireKV; valid := λ kv, plainKV kv = true |}.

Lemma cut_app c s t : has_char c s = false → cut c (s +:+ String c t) = Some (s, t).
Proof.
  induction s as [|d s IH]; intros H.
  - change ("" +:+ String c t) with (String c t). simpl. by rewrite decide_True.
  - apply orb_false_iff in H as [Hd Hs]. apply bool_decide_eq_false in Hd.
    change (String d s +:+ String c t) with (String d (s +:+ String c t)). simpl.
    by rewrite decide_False, IH by done.
Qed.

Lemma cut_length c s l r : cut c s = Some (l, r) → (String.length r < String.length s)%nat.
Proof.
  revert l. induction s as [|d s IH]; intros l; simpl; [done|]. case_decide.
  - intros [= _ <-]. lia.
  - intros ([l' r'] & H' & [= _ ->])%bind_Some. apply IH in H'. lia.
Qed.

#[export] Instance json_wire_ok : JsonOk.
Proof.
  split; simpl.
  - intros [k v] rest [Hk%negb_true_iff Hv%negb_true_iff]%andb_true_iff. unfold wireKV, unwireKV. simpl in *.
    change (String sepKey (v +:+ String sepValue "")) with (String sepKey "" +:+ (v +:+ String sepValue "")).
    rewrite !string_app_assoc. change (String sepKey "" +:+ ?x) with (String sepKey x).
    rewrite cut_app by done. cbn [mbind option_bind].
    change (String sepValue "" +:+ rest) with (String sepValue rest). by rewrite cut_app by done.
  - done.
  - intros s kv rest ([k s1] & H1 & ([v s2] & H2 & [= _ ->])%bind_Some)%bind_Some.
    apply cut_length in H1, H2. lia.
Qed.

(** ** A job: word count over two files *)

Definition asciiLetter (r : Z) : bool :=
  bool_decide (65 ≤ r ≤ 90) || bool_decide (97 ≤ r ≤ 122).

Definition disk : fs := list_to_map [("x", "the cat, the dog"); ("y", "a dog")].
Definition inputs : list string := ["x"; "y"].
Definition wcm : string → string → list KeyValue := wcMap asciiLetter.
Definition anyName : string → bool := λ _, true.

Definition wc_output : string :=
  concatStrings ((λ '(k, v), line k v) <$> [("a", "1"); ("cat", "1"); ("dog", "2"); ("the", "2")]).

(** The output file a job leaves, if it ends. *)
Definition outputOf (r : result fs) (job : string) : option string :=
  match r with Ok d => d !! outputName job | _ => None end.

Lemma outputOf_Ok r job s : outputOf r job = Some s → ∃ d, r = Ok d ∧ d !! outputName job = Some s.
Proof. unfold outputOf. destruct r as [d| |]; [|done..]. eauto. Qed.

(** The output of the job, for one and for three reduce tasks. *)
Example wc_runs :
  outputOf (Sequential anyName "wcseq" inputs 3 wcm wcReduce disk) "wcseq" = Some wc_output ∧
  outputOf (Sequential anyName "wcseq" inputs 1 wcm wcReduce disk) "wcseq" = Some wc_output.
Proof. split; by vm_compute. Qed.

Lemma forallb_Forall {A} (f : A → bool) (P : A → Prop) l :
  (∀ x, f x = true → P x) → forallb f l = true → Forall P l.
Proof.
  intros H. induction l as [|x l IH]; simpl; [constructor|].
  intros [??]%andb_true_iff. constructor; auto.
Qed.

Lemma inputs_ok job : Forall (input_ok job) inputs.
Proof.
  repeat constructor; intros m r Hm H; apply (f_equal (String.length)) in H; unfold reduceName in H;
    rewrite !String_length_app in H; simpl in H; lia.
Qed.

Lemma pairs_ok mapF :
  forallb (λ f, forallb plainKV (mapPairs mapF disk f)) inputs = true →
  Forall (λ f, Forall valid (mapPairs mapF disk f)) inputs.
Proof. apply forallb_Forall. intros f. by apply forallb_Forall. Qed.

Lemma wc_job n : 0 < n → job_ok anyName "wcseq" n wcm wcReduce inputs disk.
Proof.
  intros Hn. split; try done.
  - apply inputs_ok.
  - by apply pairs_ok; vm_compute.
  - apply (forallb_Forall plainKV); [done|]. by vm_compute.
Qed.

Lemma ii_job n : 0 < n → job_ok anyName "iiseq" n (iiMap asciiLetter) iiReduce inputs disk.
Proof.
  intros Hn. split; try done.
  - apply inputs_ok.
  - by apply pairs_ok; vm_compute.
  - apply (forallb_Forall plainKV); [done|]. by vm_compute.
Qed.

Lemma sequential_correct_witness :
  ∃ d, Sequential anyName "wcseq" inputs 3 wcm wcReduce disk = Ok d ∧
       d !! outputName "wcseq" = Some (report wcReduce (allPairs wcm disk inputs)) ∧
       d !! "x" = Some "the cat, the dog".
Proof.
  destruct (sequential_correct anyName "wcseq" 3 wcm wcReduce inputs disk) as (d & ? & ? & Ho).
  - apply wc_job. lia.
  - exists d. split_and!; [done..|]. rewrite Ho; [by vm_compute|done|].
    intros [(m & r & _ & Hx)|(r & Hx)]; discriminate Hx.
Defined.

Lemma cleanup_after_job_witness :
  ∃ d, Sequential anyName "wcseq" inputs 3 wcm wcReduce disk = Ok d ∧
       CleanupFiles "wcseq" inputs 3 d = Fatal.
Proof.
  destruct (cleanup_after_job anyName "wcseq" 3 wcm wcReduce inputs disk) as (d & Hd & Hc).
  - apply wc_job. lia.
  - exists d. split; [done|]. rewrite decide_False in Hc; [done|].
    intros H. apply Forall_inv_tail, Forall_inv in H.
    assert (existsb (λ r, bool_decide (bucket 3 r (mapPairs wcm disk "y") = [])) (range 3) = true) as E
      by (by vm_compute).
    apply existsb_exists in E as (r & Hr & E%bool_decide_eq_true). eapply Forall_forall in H; [by apply H|].
    by apply list_elem_of_In.
Defined.

Lemma ii_report_witness :
  ∃ d, Sequential anyName "iiseq" inputs 3 (iiMap asciiLetter) iiReduce disk = Ok d ∧
    d !! outputName "iiseq" = Some
      (concatStrings ((λ w, let docs := sortStrings (containing asciiLetter disk w inputs) in
                            line w (Itoa (len docs) +:+ " " +:+ Join docs ",")) <$>
                      vocabulary (allWords asciiLetter disk inputs))).
Proof.
  apply (ii_report asciiLetter anyName "iiseq" 3 inputs disk). apply ii_job. lia.
Defined.

(** ** A distributed run in which a worker fails

    Worker w1 takes the first map task and its call fails before the task is
    executed; w2 can do everything. *)
Definition sched0 : sched := mkSched disk ["w1"; "w2"] [].

Fixpoint srun (phase : jobPhase) (w : sched) (ls : list slabel) : outcome sched :=
  match ls with
  | [] => Done w
  | l :: ls => (w <~ schedStep anyName "wcseq" inputs 3 wcm wcReduce phase w l; srun phase w ls)%outcome
  end.

Definition sfinal (phase : jobPhase) (w : sched) (ls : list slabel) : sched :=
  match srun phase (startPhase inputs 3 phase w) ls with Done w' => w' | _ => w end.

Lemma srun_steps phase w ls w' :
  srun phase w ls = Done w' → schedSteps anyName "wcseq" inputs 3 wcm wcReduce phase w w'.
Proof.
  revert w. induction ls as [|l ls IH]; intros w; cbn [srun]; [by intros [= <-]|].
  destruct (schedStep _ _ _ _ _ _ phase w l) as [w1| |] eqn:E; cbn [outcome_bind]; [|done..].
  intros H%IH. eapply rtc_l; [by exists l|done].
Qed.

(** The moment after the failure of w1. *)
Definition w_failed : sched := sfinal mapPhase sched0 [SAssign 0 0; SFail 0].


(** ** Leftovers *)

(** The disk after a job on x alone, with x changed since. *)
Definition changed : fs :=
  match Sequential anyName "wcseq" ["x"] 3 wcm wcReduce disk with
  | Ok d => <["x" := "cat"]> d
  | _ => disk
  end.

(** A job run again under the same name in the same directory may reduce
    records of the earlier job: where the map task has no pair for a reduce
    task any more it does not create that file, and the file of the earlier job
    is read instead.  The second run, on a file that holds only "cat", still
    reports a word of the first. *)
Theorem leftovers_are_reduced :
  allWords asciiLetter changed ["x"] = ["cat"] ∧
  ∃ d, Sequential anyName "wcseq" ["x"] 3 wcm wcReduce changed = Ok d ∧
    d !! outputName "wcseq" ≠ Some (report wcReduce (allPairs wcm changed ["x"])).
Proof.
  split; [by vm_compute|].
  destruct (outputOf_Ok (Sequential anyName "wcseq" ["x"] 3 wcm wcReduce changed) "wcseq"
    (concatStrings ((λ '(k, v), line k v) <$> [("cat", "1"); ("dog", "1"); ("the", "2")]))) as (d & Hd & Ho).
  - by vm_compute.
  - exists d. split; [done|]. rewrite Ho. intros H. vm_compute in H. discriminate H.
Qed.
