(* ===== verification/MRTraces.v ===== *)
(** * MapReduce processes, run

    Executions of a worker, of the registration server and of a whole
    distributed word count (the job of MRExamples.v), by evaluation. *)
From S2P Require Import Prelude GoStrings MRFiles MRTasks MRSpec MRApps MRSchedule MROperations MRWorker MRMaster MRDistributed MRMain MRExamples.

Definition wordTask : DoTaskArgs := mkTaskArgs "wcseq" "x" mapPhase 0 3.

(** ** One worker *)

Definition wc_wstep : fs * wproc → wlabel → outcome (fs * wproc) := wstep anyName wcm wcReduce.

Fixpoint wrun (dw : fs * wproc) (ls : list wlabel) : outcome (fs * wproc) :=
  match ls with
  | [] => Done dw
  | l :: ls => (dw <~ wc_wstep dw l; wrun dw ls)%outcome
  end.

Definition worker0 : wproc := mkProc (mkWorker "w1" (-1) 0) PRegister [].
Definition wfinal (dw : fs * wproc) (ls : list wlabel) : fs * wproc :=
  match wrun dw ls with Done dw' => dw' | _ => dw end.

(** All labels of a run that passes [ok] are allowed by [P]. *)
Fixpoint wallowed (ok : wproc → wlabel → bool) (dw : fs * wproc) (ls : list wlabel) : bool :=
  match ls with
  | [] => true
  | l :: ls => ok dw.2 l && match wc_wstep dw l with Done dw => wallowed ok dw ls | _ => false end
  end.

Lemma wfinal_steps (P : wproc → wlabel → Prop) ok dw ls :
  (∀ w l, ok w l = true → P w l) → wallowed ok dw ls = true →
  wsteps anyName wcm wcReduce P dw (wfinal dw ls).
Proof.
  intros Hok Hls.
  assert (∃ dw', wrun dw ls = Done dw' ∧ wsteps anyName wcm wcReduce P dw dw') as (dw' & E & ?);
    [|by unfold wfinal; rewrite E].
  revert dw Hls. induction ls as [|l ls IH]; intros dw; [by exists dw|]. cbn [wallowed wrun].
  intros [Hl Hs]%andb_true_iff. unfold wc_wstep in *.
  destruct (wstep anyName wcm wcReduce dw l) as [dw1| |] eqn:E; cbn [outcome_bind]; [|done..].
  destruct (IH dw1 Hs) as (dw' & -> & ?). exists dw'. split; [done|]. eapply rtc_l; [|done].
  exists l. split; [by apply Hok|done].
Qed.

Definition anyb (w : wproc) (l : wlabel) : bool := true.
Definition ordinaryb (w : wproc) (l : wlabel) : bool :=
  match l with
  | WAcceptErr => false
  | WHandle k => match w.(conns) !! k with Some (RShutdown, _) => false | _ => true end
  | _ => true
  end.

Lemma ordinaryb_ok w l : ordinaryb w l = true → ordinary w l.
Proof. destruct l; try done. cbn. by destruct (conns w !! k) as [[[] ?]|]. Qed.

(** A task is executed, in eight operations, and a [Shutdown] is being served. *)
Definition one_task : list wlabel :=
  [WRegister true; WDial (RDoTask wordTask); WCheck; WAccept 0; WServe; WCount; WHandle 0] ++
  replicate 8 (WOp 0 99) ++ [WReply 0].
Definition asked_to_stop : list wlabel := one_task ++ [WCheck; WDial RShutdown; WAccept 1; WServe; WCount].

Definition dw_asked : fs * wproc := wfinal (disk, worker0) asked_to_stop.
Definition dw_stopped : fs * wproc := wfinal (disk, worker0) (asked_to_stop ++ [WHandle 1]).
(** The worker leaves its loop only when somebody connects once more. *)
Definition one_more : list wlabel := [WCheck; WDial (RDoTask wordTask); WAccept 2; WServe; WCount; WCheck; WClose].

Lemma worker_quota_witness :
  served (wfinal dw_stopped one_more).2 = served dw_stopped.2 + 1.
Proof.
  destruct (worker_quota anyName wcm wcReduce true "w1" (-1) worker0 disk dw_stopped (wfinal dw_stopped one_more))
    as (_ & Hex & _).
  - reflexivity.
  - apply (wfinal_steps _ anyb); [done|]. by vm_compute.
  - vm_compute. intros [].
  - vm_compute. discriminate.
  - apply (wfinal_steps _ ordinaryb); [apply ordinaryb_ok|]. by vm_compute.
  - apply Hex. by vm_compute.
Defined.

(** One task executed, and [Shutdown] reports two. *)
Lemma shutdown_report_witness :
  ∃ w', wc_wstep dw_asked (WHandle 1) = Done (dw_asked.1, w') ∧
    w'.(conns) !! 1%nat = Some (RShutdown, CAnswered (Some 2)) ∧ w'.(wk).(nRPC) = 1.
Proof.
  apply (shutdown_report anyName wcm wcReduce true "w1" (-1) worker0 disk dw_asked.1 dw_asked.2 1).
  - reflexivity.
  - change (dw_asked.1, dw_asked.2) with dw_asked. apply (wfinal_steps _ anyb); [done|]. by vm_compute.
  - by vm_compute.
Defined.

(** ** The registration server *)

Fixpoint mrun (s : mserver) (ls : list mlabel) : outcome mserver :=
  match ls with
  | [] => Done s
  | l :: ls => (s <~ mstep false s l; mrun s ls)%outcome
  end.

Definition server0 : mserver := mkServer (mkMaster "master" [] [] false true []) SSelect [].
Definition mfinal (ls : list mlabel) : mserver := match mrun server0 ls with Done s => s | _ => server0 end.

Lemma mfinal_steps ls : is_Done (mrun server0 ls) = true → msteps (λ _, True) server0 (mfinal ls).
Proof.
  unfold mfinal. generalize server0 as s. induction ls as [|l ls IH]; intros s; cbn [mrun]; [by constructor|].
  destruct (mstep false s l) as [s1| |] eqn:E; cbn [outcome_bind]; [|done..]. intros Hd.
  eapply rtc_l; [by exists false, l|]. specialize (IH s1 Hd). by destruct (mrun s1 ls).
Qed.

Definition serve (k : nat) : list mlabel := [MSelect; MAccept k; MServe; MHandle k].
Definition registrations : list mlabel :=
  [MDial (MRegister "w1"); MDial (MRegister "w2")] ++ serve 1 ++ serve 0 ++ [MDial MShutdown; MSelect; MAccept 2; MServe; MSelect; MHandle 2].

Lemma registration_server_witness :
  (mfinal registrations).(mr).(workers) ≡ₚ ["w1"; "w2"] ∧
  ∃ s', msteps stopping (mfinal registrations) s' ∧ s'.(spc) = SStopped.
Proof.
  destruct (registration_server true "master" server0 (mfinal registrations)) as [Hw Hs].
  - reflexivity.
  - apply mfinal_steps. by vm_compute.
  - split; [exact Hw|]. apply Hs. by vm_compute.
Defined.

(** ** A distributed word count *)

(** With [n] reduce tasks. *)
Definition wc_dstep (n : Z) : djob → dlabel → outcome djob := dstep anyName "wcseq" inputs n wcm wcReduce.

Fixpoint drun (n : Z) (w : djob) (ls : list dlabel) : outcome djob :=
  match ls with
  | [] => Done w
  | l :: ls => (w <~ wc_dstep n w l; drun n w ls)%outcome
  end.

Definition job0 (n : Z) : djob := mkJob disk ∅ server0 (startTasks inputs n mapPhase).
Definition dfinal (n : Z) (ls : list dlabel) : djob :=
  match drun n (job0 n) ls with Done w => w | _ => job0 n end.

(** All labels of a run that passes [ok] are allowed by [P]. *)
Fixpoint dallowed (n : Z) (ok : djob → dlabel → bool) (w : djob) (ls : list dlabel) : bool :=
  match ls with
  | [] => true
  | l :: ls => ok w l && match wc_dstep n w l with Done w => dallowed n ok w ls | _ => false end
  end.

Lemma dfinal_steps (P : djob → dlabel → Prop) ok n ls :
  (∀ w l, ok w l = true → P w l) → dallowed n ok (job0 n) ls = true →
  rtc (λ w w', ∃ l, P w l ∧ wc_dstep n w l = Done w') (job0 n) (dfinal n ls).
Proof.
  intros Hok. unfold dfinal. generalize (job0 n) as w. induction ls as [|l ls IH]; intros w; [by constructor|].
  cbn [dallowed drun]. intros [Hl Hs]%andb_true_iff. destruct (wc_dstep n w l) as [w1| |] eqn:E; cbn [outcome_bind]; [|done..].
  specialize (IH w1 Hs). assert (∃ w2, drun n w1 ls = Done w2) as [w2 H2].
  { clear -Hs. revert w1 Hs. induction ls as [|l ls IH]; intros w1; cbn [dallowed drun]; [by eexists|].
    intros [_ Hs]%andb_true_iff. destruct (wc_dstep n w1 l) as [w3| |]; [by apply IH|done..]. }
  rewrite H2 in *. eapply rtc_l; [|exact IH]. exists l. by split; [apply Hok|].
Qed.

Definition worklessb (w : djob) : bool :=
  forallb (λ '(_, p), forallb (λ c, bool_decide (pending c = None) &&
    match at_task c with Some (_, pc) => bool_decide (pc = AtEnd) | None => true end) p.(conns)) (map_to_list w.(procs)).
Definition dcalmb (w : djob) (l : dlabel) : bool := match l with DPhase => worklessb w | _ => true end.

Lemma worklessb_ok w : worklessb w = true → workless w.
Proof.
  unfold worklessb, workless, connection. intros Hw me k c (p & Hp & Hk)%bind_Some. rewrite forallb_forall in Hw.
  specialize (Hw (me, p)). simpl in Hw. rewrite forallb_forall in Hw.
  assert (bool_decide (pending c = None) && match at_task c with Some (_, pc) => bool_decide (pc = AtEnd) | None => true end = true)
    as [Hpe Hat]%andb_true_iff.
  { apply Hw; apply list_elem_of_In; [by apply elem_of_map_to_list|by eapply list_elem_of_lookup_2]. }
  split; [by apply bool_decide_eq_true in Hpe|]. intros arg q E. rewrite E in Hat. by apply bool_decide_eq_true in Hat.
Qed.

Lemma dcalmb_ok w l : dcalmb w l = true → dcalm w l.
Proof. destruct l; try done. apply worklessb_ok. Qed.

Definition fails_lateb (w : djob) (l : dlabel) : bool :=
  match l, w.(at_run) with
  | DTaskFail t, Scheduling _ ts =>
    match ts !! t with
    | Some (DCalling me k) => match connection me k w ≫= unanswered with None => true | Some _ => false end
    | _ => true
    end
  | _, _ => true
  end.

Lemma fails_lateb_ok w l : fails_lateb w l = true → fails_late w l.
Proof.
  destruct l; try done. simpl. intros H phase ts me k Hr Ht. rewrite Hr, Ht in H. by destruct (connection me k w ≫= unanswered).
Qed.

(** Worker [me] takes its connection [k], and executes the task of [m]
    operations it asks for. *)
Definition takes (me : string) (k : nat) : list dlabel :=
  DWorker me <$> [WCheck; WAccept k; WServe; WCount; WHandle k].
Definition ops (me : string) (k m : nat) : list dlabel := replicate m (DWorker me (WOp k 99)).
Definition serves (me : string) (k m : nat) : list dlabel := takes me k ++ ops me k m ++ [DWorker me (WReply k)].

(** w1 starts with a quota of [q] connections, w2 without. *)
Definition starting (q : Z) : list dlabel :=
  [DRunWorker "w1" q; DRunWorker "w2" (-1); DRegister "w1"; DRegister "w2"] ++
  (DServer <$> serve 0 ++ serve 1) ++ [DWorker "w1" (WRegister true); DWorker "w2" (WRegister false)].

(** w1's second call is refused and the task is done by w2. *)
Definition mapping : list dlabel :=
  [DTask 0 0] ++ serves "w1" 0 8 ++ [DTaskOk 0; DWorker "w1" WCheck; DWorker "w1" WClose; DTask 1 1] ++
  [DTask 1 0] ++ serves "w2" 0 5 ++ [DTaskOk 1; DPhase].
(** The call to w1 fails while it is at the task; w2 executes the task too, and
    w1 ends before the phase returns. *)
Definition overlapping : list dlabel :=
  [DTask 0 0] ++ takes "w1" 0 ++ ops "w1" 0 3 ++ [DTaskFail 0; DTask 0 0] ++ takes "w2" 0 ++ ops "w2" 0 5 ++ ops "w1" 0 5 ++
  ops "w2" 0 3 ++ [DWorker "w2" (WReply 0); DTaskOk 0; DTask 1 0] ++ serves "w2" 1 5 ++ [DTaskOk 1; DWorker "w1" (WReply 0); DPhase].

(** The reduce tasks, by w2, whose connections start at [k]. *)
Definition reducing (k : nat) : list dlabel :=
  ([(0, 5); (1, 12); (2, 8)]%nat ≫= λ '(t, m), [DTask t 0] ++ serves "w2" (k + t) m ++ [DTaskOk t]) ++ [DPhase].
Definition ending (k : nat) : list dlabel :=
  [DKill; DKill] ++ takes "w2" k ++ [DKillOk; DKill; DStop] ++ (DServer <$> serve 2) ++ [DStopOk; DMerge; DWait].

Definition refused_run : list dlabel := starting 1 ++ mapping ++ reducing 1 ++ ending 4.
Definition overlapping_run : list dlabel :=
  starting (-1) ++ overlapping ++ reducing 2 ++ [DKill; DKillFail] ++ [DKill] ++ takes "w2" 5 ++
  [DKillOk; DKill; DStop] ++ (DServer <$> serve 2) ++ [DStopOk; DMerge; DWait].

Lemma distributed_job_witness :
  (dfinal 3 overlapping_run).(MRDistributed.disk) !! outputName "wcseq" = Some (report wcReduce (allPairs wcm disk inputs)).
Proof.
  destruct (distributed_job anyName "wcseq" inputs 3 wcm wcReduce true "master" disk (job0 3) (dfinal 3 overlapping_run)) as [_ Ho].
  - apply wc_job. lia.
  - reflexivity.
  - apply (dfinal_steps _ dcalmb); [apply dcalmb_ok|]. by vm_compute.
  - apply Ho. right. by vm_compute.
Defined.

(** w2 executed four tasks and reports five; w1 was not reached. *)
Example stats_of_the_job : (dfinal 3 refused_run).(server).(mr).(stats) = [5].
Proof. by vm_compute. Qed.

Lemma distributed_equals_sequential_witness :
  ∃ d', Sequential anyName "wcseq" inputs 3 wcm wcReduce disk = Ok d' ∧
    (dfinal 3 refused_run).(MRDistributed.disk) !! outputName "wcseq" = d' !! outputName "wcseq".
Proof.
  apply (distributed_equals_sequential anyName "wcseq" inputs 3 wcm wcReduce true "master" disk (job0 3) (dfinal 3 refused_run)).
  - apply wc_job. lia.
  - reflexivity.
  - apply (dfinal_steps _ fails_lateb); [apply fails_lateb_ok|]. by vm_compute.
  - right. by vm_compute.
Defined.

(** [wc.go master sequential] on the example's inputs. *)
Lemma wc_main_report_witness :
  ∃ d, wcMain anyName asciiLetter ("wc" :: "master" :: "sequential" :: inputs) true disk = Ok (RanSequential d) ∧
    d !! outputName "wcseq" = Some
      (concatStrings ((λ w, line w (Itoa (occurrences w (allWords asciiLetter disk inputs)))) <$>
                      vocabulary (allWords asciiLetter disk inputs))).
Proof.
  apply (wc_main_report anyName asciiLetter "wc"); [|by vm_compute]. apply wc_job. lia.
Defined.
