(* ===== verification/MRConcurrentTraces.v ===== *)
(** * Overlapping executions of MapReduce tasks, run

    The word count of MRExamples.v with one reduce task, operation by operation:
    an execution in which two workers are at the same map task at once and the
    result is right, and an execution of the distributed job in which a worker
    whose call has failed is still at its task when the phase returns, and the
    result is wrong. *)
From S2P Require Import Prelude GoStrings MRFiles MRTasks MRSpec MRApps MRSchedule MRShared MROperations MRConcurrent MRWorker MRMaster MRDistributed MRExamples MRTraces.

Definition wc_cstep : cjob → clabel → outcome cjob := cstep anyName "wcseq" inputs 1 wcm wcReduce.

Fixpoint crun_all (w : cjob) (ls : list clabel) : outcome cjob :=
  match ls with
  | [] => Done w
  | l :: ls => (w' <~ wc_cstep w l; crun_all w' ls)%outcome
  end.

Definition cfinal (ls : list clabel) : cjob :=
  match crun_all (cstart disk) ls with Done w => w | _ => cstart disk end.

(** [m] operations of execution [j], reading [k + 1] bytes at a time. *)
Definition cops (j k m : nat) : list clabel := replicate m (CExec j k).

(** Executions 0 and 1 are of the map task of x (seven operations), 2 of the one
    of y (five); 3 is of the reduce task. *)
Definition both_map : list clabel :=
  [CStart 0; CStart 0; CStart 1] ++ cops 0 0 4 ++ cops 1 0 3 ++ cops 2 0 5 ++ cops 0 0 1 ++ cops 1 0 4 ++ cops 0 0 2 ++
  [CReply 1; CReply 2; CPhase].
Definition reduce_all : list clabel := CStart 0 :: cops 3 4 18 ++ [CReply 3; CPhase; CMerge].

Definition calmb (w : cjob) (l : clabel) : bool :=
  match l with CPhase | CMerge => bool_decide (Forall (λ e, e.(at_pc) = AtEnd) w.(execs)) | _ => true end.

Fixpoint calm_run (w : cjob) (ls : list clabel) : bool :=
  match ls with
  | [] => true
  | l :: ls => calmb w l && match wc_cstep w l with Done w' => calm_run w' ls | _ => false end
  end.

Lemma calm_run_steps ls w :
  calm_run w ls = true → ∃ w', crun_all w ls = Done w' ∧ calm_steps anyName "wcseq" inputs 1 wcm wcReduce w w'.
Proof.
  revert w. induction ls as [|l ls IH]; intros w; cbn [calm_run crun_all]; [by eexists; split; [|apply rtc_refl]|].
  intros [Hc H]%andb_true_iff. destruct (wc_cstep w l) as [w1| |] eqn:E; [|done..].
  destruct (IH w1 H) as (w' & ? & ?). exists w'. split; [done|]. eapply rtc_l; [|done]. exists l. split; [|done].
  destruct l; try done; simpl in Hc; by apply bool_decide_eq_true in Hc.
Qed.

Lemma overlapping_tasks_witness :
  (cfinal (both_map ++ reduce_all)).(cat) = AfterMerge ∧
  (cfinal (both_map ++ reduce_all)).(cdisk) !! outputName "wcseq" = Some (report wcReduce (allPairs wcm disk inputs)).
Proof.
  assert ((cfinal (both_map ++ reduce_all)).(cat) = AfterMerge) as Hc by (by vm_compute). split; [exact Hc|].
  apply (overlapping_tasks anyName "wcseq" inputs 1 wcm wcReduce disk).
  - apply wc_job. lia.
  - destruct (calm_run_steps (both_map ++ reduce_all) (cstart disk)) as (w & Hr & Hs); [by vm_compute|].
    unfold cfinal. by rewrite Hr.
  - exact Hc.
Defined.

(** The calls of tasks that fail in an execution. *)
Definition failed_calls (ls : list dlabel) : list nat :=
  omap (λ l, match l with DTaskFail t => Some t | _ => None end) ls.

(** w1 has read its input when its call fails; w2 executes the task, then the
    other one.  The phase returns, w1 creates the intermediate file anew, and w2
    reduces. *)
Definition late_run : list dlabel :=
  starting (-1) ++ [DTask 0 0] ++ takes "w1" 0 ++ ops "w1" 0 1 ++ [DTaskFail 0; DTask 0 0] ++ serves "w2" 0 7 ++
  [DTaskOk 0; DTask 1 0] ++ serves "w2" 1 5 ++ [DTaskOk 1; DPhase] ++
  ops "w1" 0 1 ++ [DTask 0 0] ++ serves "w2" 2 10 ++ [DTaskOk 0; DPhase] ++
  [DKill; DKillFail; DKill] ++ takes "w2" 3 ++ [DKillOk; DKill; DStop] ++ (DServer <$> serve 2) ++ [DStopOk; DMerge; DWait].

(** ** Theorems *)

