(* ===== verification/Drivers.v ===== *)
(** * The command-line drivers of src/src/main

    lockc.go, lockd.go, pbc.go, pbd.go, viewd.go and diskvd.go start or call
    services of packages that are not part of the repository (lockservice,
    pbservice, viewservice, diskv).  What these packages export is a parameter
    of the model: an operation on an arbitrary world [W].  What is modelled is
    what the drivers do themselves: which calls they make for which command
    line, and when they print their usage and exit. *)
From S2P Require Import Prelude GoStrings MRTasks.

Definition nl : string := String "010"%char "".

(** How a driver ends: by [os.Exit] with what it has printed, by returning from
    [main], never (it sleeps in a loop, serving), or killed by itself after ten
    minutes of serving. *)
Inductive ended (W : Type) :=
| Exited (code : Z) (out : string) (w : W)
| Returned (out : string) (w : W)
| Serving (w : W)
| Killed (w : W).
Arguments Exited {W}.
Arguments Returned {W}.
Arguments Serving {W}.
Arguments Killed {W}.

(** [fmt.Printf] of a bool with [%v]. *)
Definition showBool (b : bool) : string := if b then "true" else "false".

(** ** lockc, lockd *)

Section lockservice.
Context {W Clerk : Type}.
Context (MakeClerk : string → string → W → W * Clerk) (Lock Unlock : Clerk → string → W → W * bool).
Context (StartServer : string → string → bool → W → W).

Definition lockcUsage (w : W) : ended W :=
  Exited 1 ("Usage: lockc -l|-u primaryport backupport lockname" +:+ nl) w.

Definition lockc (Args : list string) (w : W) : ended W :=
  match Args with
  | [_; arg1; arg2; arg3; arg4] =>
    let (w, ck) := MakeClerk arg2 arg3 w in
    if decide (arg1 = "-l") then
      let (w, ok) := Lock ck arg4 w in Returned ("reply: " +:+ showBool ok +:+ nl) w
    else if decide (arg1 = "-u") then
      let (w, ok) := Unlock ck arg4 w in Returned ("reply: " +:+ showBool ok +:+ nl) w
    else lockcUsage w
  | _ => lockcUsage w
  end.

Definition lockdUsage (w : W) : ended W :=
  Exited 1 ("Usage: lockd -p|-b primaryport backupport" +:+ nl) w.

Definition lockd (Args : list string) (w : W) : ended W :=
  match Args with
  | [_; arg1; arg2; arg3] =>
    if decide (arg1 = "-p") then Serving (StartServer arg2 arg3 true w)
    else if decide (arg1 = "-b") then Serving (StartServer arg2 arg3 false w)
    else lockdUsage w
  | _ => lockdUsage w
  end.
End lockservice.

(** ** pbc, pbd, viewd *)

Section pbservice.
Context {W Clerk : Type}.
Context (MakeClerk : string → string → W → W * Clerk).
Context (Get : Clerk → string → W → W * string) (Put : Clerk → string → string → W → W).
Context (StartPB : string → string → W → W) (StartView : string → W → W).

Definition pbc (Args : list string) (w : W) : ended W :=
  match Args with
  | [_; view; key] =>
    let (w, ck) := MakeClerk view "" w in
    let (w, v) := Get ck key w in Returned (v +:+ nl) w
  | [_; view; key; value] =>
    let (w, ck) := MakeClerk view "" w in Returned "" (Put ck key value w)
  | _ => Exited 1 ("Usage: pbc viewport key" +:+ nl +:+ "       pbc viewport key value" +:+ nl) w
  end.

Definition pbd (Args : list string) (w : W) : ended W :=
  match Args with
  | [_; view; me] => Serving (StartPB view me w)
  | _ => Exited 1 ("Usage: pbd viewport myport" +:+ nl) w
  end.

Definition viewd (Args : list string) (w : W) : ended W :=
  match Args with
  | [_; port] => Serving (StartView port w)
  | _ => Exited 1 ("Usage: viewd port" +:+ nl) w
  end.
End pbservice.

(** ** diskvd *)

(** [strconv.ParseBool] with its error dropped: [false] on anything that is no
    boolean. *)
Definition ParseBool (s : string) : bool :=
  bool_decide (s ∈ ["1"; "t"; "T"; "TRUE"; "true"; "True"]).

(** The variables of [main]. *)
Record diskvdOpts := mkOpts {
  gid : Z; masters : list string; replicas : list string; me : Z;
  unreliable : bool; dir : string; restart : bool
}.

Definition defaults : diskvdOpts := mkOpts (-1) [] [] (-1) false "" false.

(** One turn of the loop, with a flag and its value; [None] is [usage].
    [strconv.ParseInt] with base 10 and 64 bits is [Atoi] where [int] has 64
    bits: 0 on a syntax error, the nearest bound on a range error. *)
Definition parseFlag (a0 a1 : string) (o : diskvdOpts) : option diskvdOpts :=
  let '(mkOpts gid masters replicas me unreliable dir restart) := o in
  if decide (a0 = "-g") then Some (mkOpts (Atoi a1) masters replicas me unreliable dir restart)
  else if decide (a0 = "-m") then Some (mkOpts gid (masters ++ [a1]) replicas me unreliable dir restart)
  else if decide (a0 = "-s") then Some (mkOpts gid masters (replicas ++ [a1]) me unreliable dir restart)
  else if decide (a0 = "-i") then Some (mkOpts gid masters replicas (Atoi a1) unreliable dir restart)
  else if decide (a0 = "-u") then Some (mkOpts gid masters replicas me (ParseBool a1) dir restart)
  else if decide (a0 = "-d") then Some (mkOpts gid masters replicas me unreliable a1 restart)
  else if decide (a0 = "-r") then Some (mkOpts gid masters replicas me unreliable dir (ParseBool a1))
  else None.

(** The loop over the arguments, two at a time; a last argument without a value
    is not looked at. *)
Fixpoint parseFlags (args : list string) (o : diskvdOpts) : option diskvdOpts :=
  match args with
  | a0 :: a1 :: args => o ← parseFlag a0 a1 o; parseFlags args o
  | _ => Some o
  end.

(** The test before the server is started. *)
Definition acceptable (o : diskvdOpts) : bool :=
  negb (bool_decide (o.(gid) < 0) || bool_decide (o.(me) < 0) || bool_decide (len o.(masters) < 1) ||
        bool_decide (o.(me) >= len o.(replicas)) || bool_decide (o.(dir) = "")).

Section diskv.
Context {W Srv : Type}.
Context (StartServer : Z → list string → list string → Z → string → bool → W → W * Srv).
Context (Setunreliable : Srv → bool → W → W).

Definition diskvdUsage (w : W) : ended W :=
  Exited 1 ("Usage: diskvd -g gid -m master... -s server... -i my-index -d dir" +:+ nl) w.

Definition diskvd (Args : list string) (w : W) : ended W :=
  match parseFlags (drop 1 Args) defaults with
  | None => diskvdUsage w
  | Some o =>
    if acceptable o then
      let (w, srv) := StartServer o.(gid) o.(masters) o.(replicas) o.(me) o.(dir) o.(restart) w in
      Killed (Setunreliable srv o.(unreliable) w)
    else diskvdUsage w
  end.
End diskv.

(** ** Lemmas *)

(** The flags and values of a command line. *)
Fixpoint pairs_of (args : list string) : list (string * string) :=
  match args with a0 :: a1 :: args => (a0, a1) :: pairs_of args | _ => [] end.

(** All values given for a flag, and the last one. *)
Definition given (flag : string) (ps : list (string * string)) : list string :=
  snd <$> filter (λ p, p.1 = flag) ps.
Definition lastGiven {A} (parse : string → A) (dflt : A) (flag : string) (ps : list (string * string)) : A :=
  from_option parse dflt (last (given flag ps)).

Definition known : list string := ["-g"; "-m"; "-s"; "-i"; "-u"; "-d"; "-r"].

(** What the flags ask for. *)
Definition asked (ps : list (string * string)) : diskvdOpts :=
  mkOpts (lastGiven Atoi (-1) "-g" ps) (given "-m" ps) (given "-s" ps) (lastGiven Atoi (-1) "-i" ps)
    (lastGiven ParseBool false "-u" ps) (lastGiven id "" "-d" ps) (lastGiven ParseBool false "-r" ps).

Lemma given_snoc flag ps a0 a1 :
  given flag (ps ++ [(a0, a1)]) = if decide (a0 = flag) then given flag ps ++ [a1] else given flag ps.
Proof.
  unfold given. rewrite filter_app, fmap_app, filter_cons, filter_nil. cbn [fst].
  case_decide; [done|]. by rewrite app_nil_r.
Qed.

Lemma lastGiven_snoc {A} (parse : string → A) dflt flag ps a0 a1 :
  lastGiven parse dflt flag (ps ++ [(a0, a1)]) = if decide (a0 = flag) then parse a1 else lastGiven parse dflt flag ps.
Proof. unfold lastGiven. rewrite given_snoc. case_decide; [|done]. by rewrite last_snoc. Qed.

Lemma parseFlag_asked ps a0 a1 :
  parseFlag a0 a1 (asked ps) = if decide (a0 ∈ known) then Some (asked (ps ++ [(a0, a1)])) else None.
Proof.
  unfold parseFlag, asked. rewrite !given_snoc, !lastGiven_snoc.
  repeat (case_decide; [subst a0; by rewrite !decide_True by (unfold known; set_solver)|]).
  rewrite decide_False; [done|]. unfold known. set_solver.
Qed.

Lemma parseFlags_asked args ps :
  parseFlags args (asked ps) =
    if decide (Forall (λ p, p.1 ∈ known) (pairs_of args)) then Some (asked (ps ++ pairs_of args)) else None.
Proof.
  remember (length args) as n eqn:Hn. assert (length args ≤ n)%nat as Hle by lia. clear Hn. revert args ps Hle.
  induction n as [|n IH]; intros [|a0 [|a1 args]] ps Hle; cbn [parseFlags pairs_of length] in *; try lia; rewrite ?app_nil_r; try done.
  rewrite parseFlag_asked. destruct (decide (a0 ∈ known)) as [Hk|Hk]; cbn [mbind option_bind].
  - rewrite IH by lia. rewrite <- app_assoc. simpl.
    destruct (decide (Forall _ (pairs_of args))) as [Hf|Hf]; [by rewrite decide_True by by constructor|].
    rewrite decide_False; [done|]. by intros [_ ?]%Forall_cons.
  - rewrite decide_False; [done|]. by intros [? _]%Forall_cons.
Qed.

(** ** Theorems *)

(** C39. diskvd's command line, read as pairs of a flag and its value; a last
    argument without a value is ignored, whatever it is.  The server is started
    exactly when every flag of a pair is known and, with the last value given
    for each single-valued flag and the lists in the order given, the group is
    not negative, the index is one of the replicas', there is a master and the
    directory is not empty.  A value of [-g] or [-i] that is no number counts as
    0 and one out of range as the nearest bound, and a value of [-u] or [-r]
    that is no boolean counts as false, so that a malformed value may well be
    accepted.  In every other case the usage is printed, the exit code is 1 and
    nothing has been done. *)
Theorem diskvd_command_line {W Srv : Type}
    (StartServer : Z → list string → list string → Z → string → bool → W → W * Srv)
    (Setunreliable : Srv → bool → W → W) prog args w :
  let o := asked (pairs_of args) in
  (Forall (λ p, p.1 ∈ known) (pairs_of args) ∧ 0 ≤ o.(gid) ∧ 0 ≤ o.(me) < len o.(replicas) ∧
     o.(masters) ≠ [] ∧ o.(dir) ≠ "" ∧
   diskvd StartServer Setunreliable (prog :: args) w =
     let (w', srv) := StartServer o.(gid) o.(masters) o.(replicas) o.(me) o.(dir) o.(restart) w in
     Killed (Setunreliable srv o.(unreliable) w')) ∨
  (¬ (Forall (λ p, p.1 ∈ known) (pairs_of args) ∧ 0 ≤ o.(gid) ∧ 0 ≤ o.(me) < len o.(replicas) ∧
      o.(masters) ≠ [] ∧ o.(dir) ≠ "") ∧
   diskvd StartServer Setunreliable (prog :: args) w = diskvdUsage w).
Proof.
  intros o. unfold diskvd. change (drop 1 (prog :: args)) with args. change defaults with (asked []). rewrite parseFlags_asked.
  destruct (decide (Forall _ _)) as [Hf|Hf]; [|right; tauto]. rewrite app_nil_l. fold o.
  assert (acceptable o = true ↔ 0 ≤ o.(gid) ∧ 0 ≤ o.(me) < len o.(replicas) ∧ o.(masters) ≠ [] ∧ o.(dir) ≠ "") as Hacc.
  { unfold acceptable. rewrite negb_true_iff, !orb_false_iff, !bool_decide_eq_false.
    assert (masters o ≠ [] ↔ ¬ len (masters o) < 1) as -> by (destruct (masters o); unfold len; simpl; naive_solver lia).
    split; [intros ((((? & ?) & ?) & ?) & ?); split_and!; (done || lia)|intros (? & ? & ? & ?); split_and!; (done || lia)]. }
  destruct (acceptable o) eqn:E.
  - left. destruct (proj1 Hacc eq_refl) as (? & ? & ? & ?). split_and!; (done || lia).
  - right. split; [|done]. intros (_ & Ha). by apply Hacc in Ha.
Qed.

(** A malformed group number is taken for group 0: the error of [ParseInt] is
    dropped, and the test only refuses negative numbers. *)
Example diskvd_accepts_malformed_gid {W Srv : Type}
    (StartServer : Z → list string → list string → Z → string → bool → W → W * Srv)
    (Setunreliable : Srv → bool → W → W) w :
  diskvd StartServer Setunreliable
    ["diskvd"; "-g"; "one"; "-m"; "mport"; "-s"; "sport"; "-i"; "0"; "-d"; "/tmp/d"] w =
  let (w', srv) := StartServer 0 ["mport"] ["sport"] 0 "/tmp/d" false w in Killed (Setunreliable srv false w').
Proof. reflexivity. Qed.
