(* ===== verification/LabRpc.v ===== *)
(** * The simulated network (src/src/labrpc/labrpc.go)

    Servers, services and client ends, and [ProcessReq], the goroutine that
    carries one request.  A [labnet] is the network's tables, the server
    objects (a pointer to a server is its position in [heap]), the requests
    with the point their goroutines have reached, and the state [St] behind the
    handlers.  [nstep] runs one critical section, with the random draws in the
    label.  The specification is the abstract network of [astep]; it is the one
    RaftSystem.v runs the Raft peers on. *)
From S2P Require Import Prelude GoStrings.

Section labrpc.
Context {St : Type}.

(** A method called through reflection: the encoded argument is decoded, the
    method runs on its receiver, the reply is encoded. *)
Definition handler : Type := list Z → St → St * list Z.

(** What reflection tells [MakeService] of a method. *)
Record methodInfo := mkMethod {
  mName : string; mPkgPath : string;
  mNumIn : Z; mIn2Ptr : bool; mNumOut : Z;
  mFunc : handler
}.

Record Service := mkService { svcName : string; methods : gmap string handler }.

Record Server := mkServer { services : gmap string Service; count : Z }.

Record replyMsg := mkReply { rok : bool; rreply : list Z }.

Definition failed : replyMsg := mkReply false [].

(** ** Services *)

Definition suitable (m : methodInfo) : bool :=
  negb (bool_decide (m.(mPkgPath) ≠ "") || bool_decide (m.(mNumIn) ≠ 3) ||
        negb m.(mIn2Ptr) || bool_decide (m.(mNumOut) ≠ 0)).

Definition MakeService (name : string) (ms : list methodInfo) : Service :=
  mkService name
    (foldl (λ t m, if suitable m then <[m.(mName) := m.(mFunc)]> t else t) ∅ ms).

Definition MakeServer : Server := mkServer ∅ 0.

Definition AddService (svc : Service) (rs : Server) : Server :=
  mkServer (<[svc.(svcName) := svc]> rs.(services)) rs.(count).

Definition svrGetCount (rs : Server) : Z := rs.(count).

Definition dot : ascii := "."%char.

(** [svcMeth[:dot]] and [svcMeth[dot+1:]] for the last dot; none if there is no dot. *)
Fixpoint splitLast (s : string) : option (string * string) :=
  match s with
  | EmptyString => None
  | String a s =>
    match splitLast s with
    | Some (x, y) => Some (String a x, y)
    | None => if decide (a = dot) then Some ("", s) else None
    end
  end.

(** [Server.dispatch] up to the call of [service.dispatch]. *)
Definition serverDispatch (svcMeth : string) (rs : Server) : Server * result (Service * string) :=
  (mkServer rs.(services) (rs.(count) + 1),
   match splitLast svcMeth with
   | None => Panic
   | Some (serviceName, methodName) =>
     match rs.(services) !! serviceName with
     | Some service => Ok (service, methodName)
     | None => Fatal
     end
   end).

(** [Service.dispatch]. *)
Definition serviceDispatch (svc : Service) (methname : string) (args : list Z) (st : St)
    : result (St * replyMsg) :=
  match svc.(methods) !! methname with
  | Some f => let '(st, b) := f args st in Ok (st, mkReply true b)
  | None => Fatal
  end.

(** ** The network's tables *)

Record Network := mkNetwork {
  reliable : bool;
  longDelays : bool;
  longReordering : bool;
  ends : gset string;
  enabledEnds : gmap string bool;
  servers : gmap Z (option nat);          (* a pointer, or nil *)
  connections : gmap string (option Z)    (* a server's name, or nil *)
}.

Definition MakeNetwork : Network := mkNetwork true false false ∅ ∅ ∅ ∅.

Definition Reliable (yes : bool) (rn : Network) : Network :=
  mkNetwork yes rn.(longDelays) rn.(longReordering) rn.(ends) rn.(enabledEnds)
    rn.(servers) rn.(connections).

Definition LongReordering (yes : bool) (rn : Network) : Network :=
  mkNetwork rn.(reliable) rn.(longDelays) yes rn.(ends) rn.(enabledEnds)
    rn.(servers) rn.(connections).

Definition LongDelays (yes : bool) (rn : Network) : Network :=
  mkNetwork rn.(reliable) yes rn.(longReordering) rn.(ends) rn.(enabledEnds)
    rn.(servers) rn.(connections).

(** [rn.enabled[endname]], false for a name that is not there. *)
Definition isEnabled (rn : Network) (endname : string) : bool :=
  default false (rn.(enabledEnds) !! endname).

(** [rn.servers[servername]], nil for a name that is not there. *)
Definition serverAt (rn : Network) (servername : Z) : option nat :=
  mjoin (rn.(servers) !! servername).

Definition connectionOf (rn : Network) (endname : string) : option Z :=
  mjoin (rn.(connections) !! endname).

Definition ReadEndnameInfo (endname : string) (rn : Network)
    : bool * option Z * option nat * bool * bool :=
  let servername := connectionOf rn endname in
  (isEnabled rn endname, servername,
   match servername with Some n => serverAt rn n | None => None end,
   rn.(reliable), rn.(longReordering)).

Definition IsServerDead (endname : string) (servername : Z) (server : nat) (rn : Network) : bool :=
  negb (isEnabled rn endname) || bool_decide (serverAt rn servername ≠ Some server).

Definition MakeEnd (endname : string) (rn : Network) : result Network :=
  if decide (endname ∈ rn.(ends)) then Fatal
  else Ok (mkNetwork rn.(reliable) rn.(longDelays) rn.(longReordering)
             ({[endname]} ∪ rn.(ends)) (<[endname := false]> rn.(enabledEnds))
             rn.(servers) (<[endname := None]> rn.(connections))).

Definition AddServer (servername : Z) (rs : nat) (rn : Network) : Network :=
  mkNetwork rn.(reliable) rn.(longDelays) rn.(longReordering) rn.(ends) rn.(enabledEnds)
    (<[servername := Some rs]> rn.(servers)) rn.(connections).

Definition DeleteServer (servername : Z) (rn : Network) : Network :=
  mkNetwork rn.(reliable) rn.(longDelays) rn.(longReordering) rn.(ends) rn.(enabledEnds)
    (<[servername := None]> rn.(servers)) rn.(connections).

Definition Connect (endname : string) (servername : Z) (rn : Network) : Network :=
  mkNetwork rn.(reliable) rn.(longDelays) rn.(longReordering) rn.(ends) rn.(enabledEnds)
    rn.(servers) (<[endname := Some servername]> rn.(connections)).

Definition Enable (endname : string) (enabled : bool) (rn : Network) : Network :=
  mkNetwork rn.(reliable) rn.(longDelays) rn.(longReordering) rn.(ends)
    (<[endname := enabled]> rn.(enabledEnds)) rn.(servers) rn.(connections).

(** [svr.GetCount()] on a nil pointer panics. *)
Definition GetCount (servername : Z) (heap : list Server) (rn : Network) : result Z :=
  match serverAt rn servername with
  | Some s => match heap !! s with Some rs => Ok (svrGetCount rs) | None => Panic end
  | None => Panic
  end.

(** ** Requests and the goroutines that carry them *)

(** Where [ProcessReq] is: started; past [ReadEndnameInfo], with the request
    going nowhere or bound to a server, with the two flags it has read; in the
    loop that waits for the handler; out of it, with the handler's reply if it
    came; sleeping before the reply; returned. *)
Inductive stage :=
| QNew
| QOffline
| QBound (servername : Z) (server : nat) (rel longre : bool)
| QWaiting (servername : Z) (server : nat) (rel longre : bool)
| QLeft (servername : Z) (server : nat) (rel longre : bool) (got : option replyMsg)
| QDelayed (reply : replyMsg)
| QDone.

(** The goroutine [ProcessReq] starts to execute the request. *)
Inductive execution :=
| HNone
| HReady (server : nat)
| HFound (svc : Service) (methodName : string)
| HDone (reply : replyMsg).

(** [qAnswer] is what has been sent on [replyCh]: [Call] returns then. *)
Record request := mkReq {
  qEnd : string; qMeth : string; qArgs : list Z;
  qStage : stage; qExec : execution; qAnswer : option replyMsg
}.

Definition set_stage (s : stage) (q : request) : request :=
  mkReq q.(qEnd) q.(qMeth) q.(qArgs) s q.(qExec) q.(qAnswer).

Definition set_exec (e : execution) (q : request) : request :=
  mkReq q.(qEnd) q.(qMeth) q.(qArgs) q.(qStage) e q.(qAnswer).

(** [req.replyCh <- rep]; the goroutine returns. *)
Definition respond (rep : replyMsg) (q : request) : request :=
  mkReq q.(qEnd) q.(qMeth) q.(qArgs) QDone q.(qExec) (Some rep).

Record labnet := mkNet {
  net : Network;
  heap : list Server;
  reqs : list request;
  hst : St
}.

Definition set_net (rn : Network) (w : labnet) : labnet :=
  mkNet rn w.(heap) w.(reqs) w.(hst).

Definition set_req (k : nat) (q : request) (w : labnet) : labnet :=
  mkNet w.(net) w.(heap) (<[k := q]> w.(reqs)) w.(hst).

Inductive adminOp :=
| AReliable (yes : bool)
| ALongReordering (yes : bool)
| ALongDelays (yes : bool)
| AMakeEnd (endname : string)
| ADeleteServer (servername : Z)
| AConnect (endname : string) (servername : Z)
| AEnable (endname : string) (yes : bool).

Definition admin (op : adminOp) (rn : Network) : result Network :=
  match op with
  | AReliable yes => Ok (Reliable yes rn)
  | ALongReordering yes => Ok (LongReordering yes rn)
  | ALongDelays yes => Ok (LongDelays yes rn)
  | AMakeEnd e => MakeEnd e rn
  | ADeleteServer n => Ok (DeleteServer n rn)
  | AConnect e n => Ok (Connect e n rn)
  | AEnable e yes => Ok (Enable e yes rn)
  end.

Inductive nlabel :=
| NAdmin (op : adminOp)
| NMakeServer (svcs : list Service)
| NAddServer (servername : Z) (server : nat)
| NCall (endname svcMeth : string) (args : list Z)
| NRoute (k : nat)
| NSend (k : nat) (draw : Z)
| NDispatch (k : nat)
| NHandle (k : nat)
| NReceive (k : nat)
| NPoll (k : nat)
| NCheck (k : nat) (draw draw' : Z)
| NRespond (k : nat)
| NTimeout (k : nat).

(** [(rand.Int()%1000) < 100] and [rand.Intn(900) < 600]. *)
Definition tenth (draw : Z) : bool := bool_decide (draw mod 1000 < 100).
Definition twoThirds (draw : Z) : bool := bool_decide (draw mod 900 < 600).

(** The stage after [ReadEndnameInfo]. *)
Definition route (endname : string) (rn : Network) : stage :=
  match ReadEndnameInfo endname rn with
  | (true, Some servername, Some server, rel, longre) => QBound servername server rel longre
  | _ => QOffline
  end.

(** What [ProcessReq] does after its last [IsServerDead]. *)
Definition finish (dead rel longre : bool) (got : option replyMsg) (draw draw' : Z)
    (q : request) : request :=
  match got with
  | None => respond failed q
  | Some reply =>
    if dead then respond failed q
    else if negb rel && tenth draw then respond failed q
    else if longre && twoThirds draw' then set_stage (QDelayed reply) q
    else respond reply q
  end.

Definition nstep (w : labnet) (l : nlabel) : outcome labnet :=
  (match l with
   | NAdmin op =>
     rn <~ outcome_of (admin op w.(net));
     Done (set_net rn w)
   | NMakeServer svcs =>
     Done (mkNet w.(net) (w.(heap) ++ [foldl (λ rs svc, AddService svc rs) MakeServer svcs])
             w.(reqs) w.(hst))
   | NAddServer n s =>
     _ <~ enabled (w.(heap) !! s);
     Done (set_net (AddServer n s w.(net)) w)
   | NCall e m args =>
     if decide (e ∈ w.(net).(ends)) then
       Done (mkNet w.(net) w.(heap) (w.(reqs) ++ [mkReq e m args QNew HNone None])
               w.(hst))
     else Disabled
   | NRoute k =>
     q <~ enabled (w.(reqs) !! k);
     match q.(qStage) with
     | QNew => Done (set_req k (set_stage (route q.(qEnd) w.(net)) q) w)
     | _ => Disabled
     end
   | NSend k draw =>
     q <~ enabled (w.(reqs) !! k);
     match q.(qStage) with
     | QBound n s rel longre =>
       if negb rel && tenth draw then Done (set_req k (respond failed q) w)
       else Done (set_req k (set_stage (QWaiting n s rel longre) (set_exec (HReady s) q)) w)
     | _ => Disabled
     end
   | NDispatch k =>
     q <~ enabled (w.(reqs) !! k);
     match q.(qExec) with
     | HReady s =>
       rs <~ program (w.(heap) !! s);
       let '(rs, r) := serverDispatch q.(qMeth) rs in
       '(svc, m) <~ outcome_of r;
       Done (mkNet w.(net) (<[s := rs]> w.(heap)) (<[k := set_exec (HFound svc m) q]> w.(reqs))
               w.(hst))
     | _ => Disabled
     end
   | NHandle k =>
     q <~ enabled (w.(reqs) !! k);
     match q.(qExec) with
     | HFound svc m =>
       '(st, reply) <~ outcome_of (serviceDispatch svc m q.(qArgs) w.(hst));
       Done (mkNet w.(net) w.(heap) (<[k := set_exec (HDone reply) q]> w.(reqs))
               st)
     | _ => Disabled
     end
   | NReceive k =>
     q <~ enabled (w.(reqs) !! k);
     match q.(qStage), q.(qExec) with
     | QWaiting n s rel longre, HDone reply =>
       Done (set_req k (set_stage (QLeft n s rel longre (Some reply)) q) w)
     | _, _ => Disabled
     end
   | NPoll k =>
     q <~ enabled (w.(reqs) !! k);
     match q.(qStage) with
     | QWaiting n s rel longre =>
       if IsServerDead q.(qEnd) n s w.(net)
       then Done (set_req k (set_stage (QLeft n s rel longre None) q) w)
       else Done w
     | _ => Disabled
     end
   | NCheck k draw draw' =>
     q <~ enabled (w.(reqs) !! k);
     match q.(qStage) with
     | QLeft n s rel longre got =>
       Done (set_req k (finish (IsServerDead q.(qEnd) n s w.(net)) rel longre got draw draw' q) w)
     | _ => Disabled
     end
   | NRespond k =>
     q <~ enabled (w.(reqs) !! k);
     match q.(qStage) with
     | QDelayed reply => Done (set_req k (respond reply q) w)
     | _ => Disabled
     end
   | NTimeout k =>
     q <~ enabled (w.(reqs) !! k);
     match q.(qStage) with
     | QOffline => Done (set_req k (respond failed q) w)
     | _ => Disabled
     end
   end)%outcome.

Definition ninit (st : St) : labnet := mkNet MakeNetwork [] [] st.

Definition nsteps (P : nlabel → Prop) : labnet → labnet → Prop :=
  rtc (λ w w', ∃ l, P l ∧ nstep w l = Done w').

(** ** The abstract network

    A call is executed at most once, by a handler of the method it names; it
    returns at most once, either with the reply of that execution or with a
    failure, which says nothing about the execution. *)
Record acall := mkACall {
  aMeth : string; aArgs : list Z;
  aReply : option (list Z);           (* the handler has run *)
  aResult : option (option (list Z))  (* [Call] has returned *)
}.

Context (offers : string → handler → Prop).

Inductive astep : St * list acall → St * list acall → Prop :=
| a_call st cs m args :
    astep (st, cs) (st, cs ++ [mkACall m args None None])
| a_exec st cs k m args res h st' b :
    cs !! k = Some (mkACall m args None res) → offers m h → h args st = (st', b) →
    astep (st, cs) (st', <[k := mkACall m args (Some b) res]> cs)
| a_return st cs k m args b :
    cs !! k = Some (mkACall m args (Some b) None) →
    astep (st, cs) (st, <[k := mkACall m args (Some b) (Some (Some b))]> cs)
| a_fail st cs k m args r :
    cs !! k = Some (mkACall m args r None) →
    astep (st, cs) (st, <[k := mkACall m args r (Some None)]> cs).

(** ** What a request, a server and the network keep *)

Lemma has_dot x y : has_char dot (x +:+ String dot y) = true.
Proof. rewrite has_char_app. cbn [has_char]. by rewrite bool_decide_true, orb_true_r by done. Qed.

Lemma splitLast_spec s x y :
  splitLast s = Some (x, y) ↔ s = x +:+ String dot y ∧ has_char dot y = false.
Proof.
  assert (∀ s, splitLast s = None ↔ has_char dot s = false) as Hnone.
  { clear. induction s as [|a s IH]; [done|]. simpl. destruct (splitLast s) as [[x y]|].
    - rewrite orb_false_iff. split; [done|]. intros [_ H]. by apply IH in H.
    - rewrite orb_false_iff, bool_decide_eq_false. destruct (decide (a = dot)); [naive_solver|].
      split; [|done]. intros _. split; [done|]. by apply IH. }
  revert x y. induction s as [|a s IH]; intros x y.
  { split; [done|]. by intros [H _]; destruct x. }
  simpl. destruct (splitLast s) as [[x1 y1]|] eqn:E.
  - destruct (proj1 (IH x1 y1) eq_refl) as [-> Hy1]. split.
    + by intros [= <- <-].
    + intros [Hs Hy]. destruct x as [|b x].
      * injection Hs as _ <-. by rewrite has_dot in Hy.
      * injection Hs as -> Hs. 
        assert (Some (x1, y1) = Some (x, y)) as [= -> ->] by (by apply IH). done.
  - apply Hnone in E as Es. case_decide as Ha.
    + subst a. split; [by intros [= <- <-]|]. intros [Hs Hy]. destruct x as [|b x]; [by injection Hs as <-|].
      exfalso. injection Hs as _ ->. by rewrite has_dot in Es.
    + split; [done|]. intros [Hs Hy]. exfalso. destruct x as [|b x]; [by injection Hs|].
      injection Hs as _ ->. by rewrite has_dot in Es.
Qed.

(** The services of a server offer methods under their own names. *)
Definition service_ok (svc : Service) : Prop :=
  ∀ m h, svc.(methods) !! m = Some h → offers (svc.(svcName) +:+ String dot m) h.

Definition server_ok (rs : Server) : Prop :=
  map_Forall (λ n svc, svc.(svcName) = n ∧ service_ok svc) rs.(services).

(** The service some server has for a request. *)
Definition found (h : list Server) (meth : string) (svc : Service) (m : string) : Prop :=
  ∃ rs x, rs ∈ h ∧ splitLast meth = Some (x, m) ∧ rs.(services) !! x = Some svc.

Definition exec_ok (h : list Server) (q : request) : Prop :=
  match q.(qExec) with
  | HNone => True
  | HReady s => (s < length h)%nat
  | HFound svc m => found h q.(qMeth) svc m
  | HDone reply => reply.(rok) = true
  end.

Definition stage_ok (h : list Server) (q : request) : Prop :=
  match q.(qStage) with
  | QNew | QOffline => q.(qExec) = HNone ∧ q.(qAnswer) = None
  | QBound _ s _ _ => q.(qExec) = HNone ∧ q.(qAnswer) = None ∧ (s < length h)%nat
  | QWaiting _ _ _ _ => q.(qExec) ≠ HNone ∧ q.(qAnswer) = None
  | QLeft _ _ _ _ got => q.(qAnswer) = None ∧ ∀ reply, got = Some reply → q.(qExec) = HDone reply
  | QDelayed reply => q.(qAnswer) = None ∧ q.(qExec) = HDone reply
  | QDone => ∃ reply, q.(qAnswer) = Some reply ∧ (reply = failed ∨ q.(qExec) = HDone reply)
  end.

Definition req_ok (h : list Server) (q : request) : Prop := exec_ok h q ∧ stage_ok h q.

Record net_ok (w : labnet) : Prop := {
  no_reqs : Forall (req_ok w.(heap)) w.(reqs);
  no_heap : Forall server_ok w.(heap);
  no_ptr : ∀ n s, serverAt w.(net) n = Some s → (s < length w.(heap))%nat
}.

(** Server objects stay, with their services. *)
Definition heap_le (h h' : list Server) : Prop :=
  ∀ s rs, h !! s = Some rs → ∃ rs', h' !! s = Some rs' ∧ rs'.(services) = rs.(services).

Lemma heap_le_length h h' : heap_le h h' → (length h ≤ length h')%nat.
Proof.
  intros H. destruct (decide (length h = 0)%nat) as [->|Hn]; [lia|].
  destruct (lookup_lt_is_Some_2 h (length h - 1)) as [rs Hrs]; [lia|].
  destruct (H _ _ Hrs) as (rs' & Hrs' & _). apply lookup_lt_Some in Hrs'. lia.
Qed.

Lemma req_ok_mono h h' q : heap_le h h' → req_ok h q → req_ok h' q.
Proof.
  intros Hle [He Hs]. pose proof (heap_le_length _ _ Hle). split.
  - unfold exec_ok in *. destruct (qExec q) as [|s|svc m|reply]; [done|lia| |done].
    destruct He as (rs & x & [s Hrs]%list_elem_of_lookup & Hsp & Hx).
    destruct (Hle _ _ Hrs) as (rs' & Hrs' & Hsv). exists rs', x. rewrite Hsv.
    eauto using list_elem_of_lookup_2.
  - unfold stage_ok in *. destruct (qStage q); try done. destruct Hs as (? & ? & ?). split_and!; [done..|lia].
Qed.

Lemma net_ok_req w k q' :
  net_ok w → req_ok w.(heap) q' → net_ok (set_req k q' w).
Proof. intros [Hr Hh Hp] Hq. split; simpl; [by apply Forall_insert|done..]. Qed.

Lemma admin_serverAt op rn rn' n s :
  admin op rn = Ok rn' → serverAt rn' n = Some s → serverAt rn n = Some s.
Proof.
  unfold admin, serverAt. destruct op; try by intros [= <-].
  - unfold MakeEnd. case_decide; [done|]. by intros [= <-].
  - intros [= <-]. simpl. destruct (decide (servername = n)) as [->|Hne].
    + by rewrite lookup_insert_eq.
    + by rewrite lookup_insert_ne.
Qed.

(** ** What one step does to one request *)

Inductive req_step (rn : Network) (h : list Server) (q : request) : request → Prop :=
| rs_route : q.(qStage) = QNew → req_step rn h q (set_stage (route q.(qEnd) rn) q)
| rs_drop n s longre :
    q.(qStage) = QBound n s false longre → req_step rn h q (respond failed q)
| rs_send n s rel longre :
    q.(qStage) = QBound n s rel longre →
    req_step rn h q (set_stage (QWaiting n s rel longre) (set_exec (HReady s) q))
| rs_dispatch s rs svc m x :
    q.(qExec) = HReady s → h !! s = Some rs → splitLast q.(qMeth) = Some (x, m) →
    rs.(services) !! x = Some svc → req_step rn h q (set_exec (HFound svc m) q)
| rs_handle svc m reply :
    q.(qExec) = HFound svc m → reply.(rok) = true → req_step rn h q (set_exec (HDone reply) q)
| rs_receive n s rel longre reply :
    q.(qStage) = QWaiting n s rel longre → q.(qExec) = HDone reply →
    req_step rn h q (set_stage (QLeft n s rel longre (Some reply)) q)
| rs_poll n s rel longre :
    q.(qStage) = QWaiting n s rel longre → IsServerDead q.(qEnd) n s rn = true →
    req_step rn h q (set_stage (QLeft n s rel longre None) q)
| rs_check n s rel longre got draw draw' :
    q.(qStage) = QLeft n s rel longre got →
    req_step rn h q (finish (IsServerDead q.(qEnd) n s rn) rel longre got draw draw' q)
| rs_respond reply : q.(qStage) = QDelayed reply → req_step rn h q (respond reply q)
| rs_timeout : q.(qStage) = QOffline → req_step rn h q (respond failed q).

Lemma finish_cases dead rel longre got draw draw' q :
  (finish dead rel longre got draw draw' q = respond failed q ∧
     (got = None ∨ dead = true ∨ rel = false)) ∨
  ∃ reply, got = Some reply ∧ dead = false ∧
    (finish dead rel longre got draw draw' q = set_stage (QDelayed reply) q ∨
     finish dead rel longre got draw draw' q = respond reply q).
Proof.
  unfold finish. destruct got as [reply|]; [|by left; auto]. destruct dead; [by left; auto|].
  destruct rel, (tenth draw); simpl; try (left; by auto).
  all: right; exists reply; destruct (longre && twoThirds draw'); by auto.
Qed.

Lemma req_step_end rn h q q' : req_step rn h q q' → q'.(qEnd) = q.(qEnd) ∧ q'.(qMeth) = q.(qMeth).
Proof. destruct 1; try done. unfold finish. by repeat case_match. Qed.

Lemma route_spec e rn :
  route e rn = QOffline ∨
  ∃ n s, route e rn = QBound n s rn.(reliable) rn.(longReordering) ∧
         isEnabled rn e = true ∧ connectionOf rn e = Some n ∧ serverAt rn n = Some s.
Proof.
  unfold route, ReadEndnameInfo. destruct (isEnabled rn e); [|by left].
  destruct (connectionOf rn e) as [n|]; [|by left]. destruct (serverAt rn n) as [s|] eqn:Hs; [|by left].
  right. by exists n, s.
Qed.

Lemma req_step_ok rn h q q' :
  (∀ n s, serverAt rn n = Some s → (s < length h)%nat) →
  req_step rn h q q' → req_ok h q → req_ok h q'.
Proof.
  intros Hp Hst [He Hs]. unfold req_ok, exec_ok, stage_ok in *.
  destruct Hst as [E|n s longre E|n s rel longre E|s rs svc m x E Hrs Hsp Hx|svc m reply E Hr
    |n s rel longre reply E Ed|n s rel longre E Hd|n s rel longre got draw draw' E|reply E|E];
    rewrite E in *; simpl in *; rewrite ?E; destruct_and?.
  - destruct (route_spec (qEnd q) rn) as [->|(n & s & -> & _ & _ & Hs')]; eauto.
  - naive_solver.
  - done.
  - split; [exists rs, x; eauto using list_elem_of_lookup_2|].
    destruct (qStage q); naive_solver.
  - split; [done|]. destruct (qStage q); naive_solver.
  - rewrite Ed in *. naive_solver.
  - split; [done|]. split; [done|]. by intros.
  - destruct (finish_cases (IsServerDead (qEnd q) n s rn) rel longre got draw draw' q)
      as [[-> _]|(reply & -> & _ & [-> | ->])]; simpl; rewrite ?E.
    + split; [done|]. eauto.
    + eauto.
    + eauto 6.
  - naive_solver.
  - naive_solver.
Qed.

(** The reply of a handler that has run. *)
Definition ran (q : request) : option (list Z) :=
  match q.(qExec) with HDone reply => Some reply.(rreply) | _ => None end.

(** A step of a request that leaves the handlers' state alone, or runs its handler. *)
Definition effect (q q' : request) (st st' : St) : Prop :=
  (st' = st ∧ ran q' = ran q) ∨
  ∃ svc m f b, q.(qExec) = HFound svc m ∧ svc.(methods) !! m = Some f ∧
    f q.(qArgs) st = (st', b) ∧ q' = set_exec (HDone (mkReply true b)) q.

Lemma heap_le_refl h : heap_le h h.
Proof. intros s rs Hs. eauto. Qed.

Lemma heap_le_app h k : heap_le h (h ++ k).
Proof. intros s rs Hs. exists rs. split; [by apply lookup_app_l_Some|done]. Qed.

Lemma heap_le_count h s rs rs' :
  h !! s = Some rs → rs'.(services) = rs.(services) → heap_le h (<[s := rs']> h).
Proof.
  intros Hs He s' rs1 Hs'. destruct (decide (s = s')) as [<-|Hne].
  - simplify_eq. exists rs'. rewrite list_lookup_insert_eq; [done|]. by eapply lookup_lt_Some.
  - exists rs1. by rewrite list_lookup_insert_ne.
Qed.

(** What a step does to the requests: nothing, a new one, or a step of one. *)
Inductive moves (w w' : labnet) : Prop :=
| mv_none : w'.(reqs) = w.(reqs) → w'.(hst) = w.(hst) → moves w w'
| mv_call e m args :
    w'.(reqs) = w.(reqs) ++ [mkReq e m args QNew HNone None] → w'.(hst) = w.(hst) → moves w w'
| mv_req k q q' :
    w.(reqs) !! k = Some q → req_step w.(net) w.(heap) q q' →
    w'.(reqs) = <[k := q']> w.(reqs) → effect q q' w.(hst) w'.(hst) → moves w w'.

Lemma moves_req w k q q' :
  w.(reqs) !! k = Some q → req_step w.(net) w.(heap) q q' → ran q' = ran q →
  heap_le w.(heap) (set_req k q' w).(heap) ∧ moves w (set_req k q' w).
Proof. intros Hk Hq Hr. split; [apply heap_le_refl|]. by apply (mv_req _ _ k q q'); [..|left]. Qed.

Lemma nstep_moves w l w' :
  (∀ k q, w.(reqs) !! k = Some q → req_ok w.(heap) q) →
  nstep w l = Done w' → heap_le w.(heap) w'.(heap) ∧ moves w w'.
Proof.
  intros Hok Hw'.
  destruct l as [op|svcs|n s|e m args|k|k draw|k|k|k|k|k draw draw'|k|k]; simpl in Hw'.
  1: { destruct (admin op (net w)) as [rn| |]; simplify_eq/=. split; [apply heap_le_refl|by apply mv_none]. }
  1: { simplify_eq/=. split; [apply heap_le_app|by apply mv_none]. }
  1: { destruct (heap w !! s); simplify_eq/=. split; [apply heap_le_refl|by apply mv_none]. }
  1: { case_decide; simplify_eq/=. split; [apply heap_le_refl|]. by eapply mv_call. }
  all: destruct (reqs w !! k) as [q|] eqn:Hk; [|done]; cbn [enabled outcome_bind] in Hw'.
  all: destruct (Hok k q Hk) as [He Hs]; unfold stage_ok in Hs.
  - destruct (qStage q) eqn:E; simplify_eq/=. apply (moves_req _ _ q); [done|by constructor|done].
  - destruct (qStage q) eqn:E; simplify_eq/=. destruct Hs as (Hx & _ & _).
    assert (ran q = None) as Hr by (unfold ran; by rewrite Hx).
    destruct (negb rel && tenth draw) eqn:Hd; simplify_eq/=; apply (moves_req _ _ q); try done.
    + apply andb_true_iff in Hd as [->%negb_true_iff _]. by eapply rs_drop.
    + by eapply rs_send.
  - destruct (qExec q) as [|s| |] eqn:E; simplify_eq/=.
    destruct (heap w !! s) as [rs|] eqn:Hrs; [|done]. cbn [program outcome_bind] in Hw'.
    unfold serverDispatch in Hw'. destruct (splitLast (qMeth q)) as [[x m]|] eqn:Hsp; [|done].
    destruct (services rs !! x) as [svc|] eqn:Hx; [|done]. simplify_eq/=. split; [by eapply heap_le_count|].
    apply (mv_req _ _ k q (set_exec (HFound svc m) q)); [done|by eapply rs_dispatch|done|]. left. split; [done|]. unfold ran. by rewrite E.
  - destruct (qExec q) as [| |svc m|] eqn:E; simplify_eq/=. unfold serviceDispatch in Hw'.
    destruct (methods svc !! m) as [f|] eqn:Hf; [|done].
    destruct (f (qArgs q) (hst w)) as [st b] eqn:Hb. simplify_eq/=. split; [apply heap_le_refl|].
    apply (mv_req _ _ k q (set_exec (HDone (mkReply true b)) q)); [done|by eapply rs_handle|done|]. right. by exists svc, m, f, b.
  - destruct (qStage q) eqn:E; simplify_eq/=. destruct (qExec q) eqn:Ex; simplify_eq/=.
    apply (moves_req _ _ q); [done|by eapply rs_receive|done].
  - destruct (qStage q) as [| | |n s rel longre| | |] eqn:E; simplify_eq/=.
    destruct (IsServerDead _ _ _ _) eqn:Hd; simplify_eq/=.
    + apply (moves_req _ _ q); [done|by eapply rs_poll|done].
    + split; [apply heap_le_refl|by apply mv_none].
  - destruct (qStage q) as [| | | |n s rel longre got| |] eqn:E; simplify_eq/=.
    apply (moves_req _ _ q); [done|by apply rs_check|].
    unfold finish. by repeat case_match.
  - destruct (qStage q) eqn:E; simplify_eq/=. apply (moves_req _ _ q); [done|by apply rs_respond|done].
  - destruct (qStage q) eqn:E; simplify_eq/=. apply (moves_req _ _ q); [done|by apply rs_timeout|done].
Qed.

(** ** The invariant, and the refinement *)

(** Labels that add servers whose services offer what they may. *)
Definition label_ok (l : nlabel) : Prop :=
  match l with NMakeServer svcs => Forall service_ok svcs | _ => True end.

Lemma servers_ok svcs : Forall service_ok svcs → server_ok (foldl (λ rs svc, AddService svc rs) MakeServer svcs).
Proof.
  assert (server_ok MakeServer) as Hm by (by intros ? ? ?). revert Hm. generalize MakeServer.
  induction svcs as [|svc svcs IH]; intros rs Hrs Hs; [done|]. apply Forall_cons in Hs as [Hsvc Hs].
  apply IH; [|done]. by apply map_Forall_insert_2.
Qed.

Lemma nstep_heap w l w' :
  net_ok w → label_ok l → nstep w l = Done w' →
  Forall server_ok w'.(heap) ∧ ∀ n s, serverAt w'.(net) n = Some s → (s < length w'.(heap))%nat.
Proof.
  intros [_ Hh Hp] Hl Hw'.
  destruct l as [op|svcs|n s|e m args|k|k draw|k|k|k|k|k draw draw'|k|k]; simpl in Hw'.
  1: { destruct (admin op (net w)) as [rn| |] eqn:Ha; simplify_eq/=. split; [done|].
       intros n s Hn. by eapply Hp, admin_serverAt. }
  1: { simplify_eq/=. split.
       - apply Forall_app. split; [done|]. constructor; [by apply servers_ok|done].
       - intros n s Hn. rewrite length_app. apply Hp in Hn. lia. }
  1: { destruct (heap w !! s) as [rs|] eqn:Hrs; simplify_eq/=. split; [done|]. intros n' s'.
       unfold serverAt. simpl. destruct (decide (n = n')) as [<-|Hne].
       - rewrite lookup_insert_eq. intros [= <-]. by eapply lookup_lt_Some.
       - rewrite lookup_insert_ne by done. apply Hp. }
  1: { case_decide; simplify_eq/=. by split. }
  all: destruct (reqs w !! k) as [q|]; [|done]; cbn [enabled outcome_bind] in Hw'.
  3: { destruct (qExec q) as [|s| |]; simplify_eq/=. destruct (heap w !! s) as [rs|] eqn:Hrs; [|done].
       simpl in Hw'. repeat case_match; simplify_eq/=. rewrite length_insert. split; [|done].
       apply Forall_insert; [done|]. by eapply (Forall_lookup_1 server_ok) in Hrs. }
  3: { destruct (qExec q); simplify_eq/=. destruct (serviceDispatch _ _ _ _) as [[st r]| |]; simplify_eq/=. by split. }
  all: repeat case_match; simplify_eq/=; by split.
Qed.

Lemma nstep_ok w l w' : net_ok w → label_ok l → nstep w l = Done w' → net_ok w'.
Proof.
  intros Hok Hl Hw'. destruct (nstep_heap _ _ _ Hok Hl Hw') as [Hh Hp]. destruct Hok as [Hr Hh0 Hp0].
  destruct (nstep_moves w l w') as [Hle Hm]; [by apply Forall_lookup|done|]. split; [|done..].
  destruct Hm as [-> _|e m args -> _|k q q' Hk Hq -> _].
  - eapply Forall_impl; [done|]. intros q. by apply req_ok_mono.
  - apply Forall_app. split; [|by repeat constructor]. eapply Forall_impl; [done|]. intros q. by apply req_ok_mono.
  - apply Forall_insert.
    + eapply Forall_impl; [done|]. intros q0. by apply req_ok_mono.
    + eapply req_ok_mono; [done|]. eapply req_step_ok; [done..|]. by eapply (Forall_lookup_1 _ _ _ _ Hr).
Qed.

Definition absReq (q : request) : acall :=
  mkACall q.(qMeth) q.(qArgs) (ran q)
    ((λ reply, if reply.(rok) then Some reply.(rreply) else None) <$> q.(qAnswer)).

Definition abs (w : labnet) : St * list acall := (w.(hst), absReq <$> w.(reqs)).

(** A step of a request is a step of its call, or none. *)
Lemma req_step_refines rn h st cs k q q' :
  req_ok h q → req_step rn h q q' → ran q' = ran q → cs !! k = Some (absReq q) →
  rtc astep (st, cs) (st, <[k := absReq q']> cs).
Proof.
  intros [He Hs] Hst Hr Hk. unfold exec_ok, stage_ok in *.
  assert (qAnswer q' = qAnswer q → q'.(qMeth) = q.(qMeth) → q'.(qArgs) = q.(qArgs) →
    rtc astep (st, cs) (st, <[k := absReq q']> cs)) as Hsame.
  { intros Ha Hm Hg. unfold absReq. rewrite Hr, Ha, Hm, Hg. by rewrite list_insert_id. }
  assert (qAnswer q = None → rtc astep (st, cs) (st, <[k := absReq (respond failed q)]> cs)) as Hfail.
  { intros Ha. apply rtc_once. unfold absReq. simpl. apply a_fail. unfold absReq in Hk. by rewrite Ha in Hk. }
  assert (∀ reply, qAnswer q = None → qExec q = HDone reply →
    rtc astep (st, cs) (st, <[k := absReq (respond reply q)]> cs)) as Hret.
  { intros reply Ha Hx. rewrite Hx in He. apply rtc_once. unfold absReq, ran. simpl. rewrite Hx, He. apply a_return.
    unfold absReq, ran in Hk. by rewrite Ha, Hx in Hk. }
  destruct Hst as [E|n s longre E|n s rel longre E|s rs svc m x E Hrs Hsp Hx|svc m reply E Hok
    |n s rel longre reply E Ed|n s rel longre E Hd|n s rel longre got draw draw' E|reply E|E];
    try rewrite E in Hs; try (by apply Hsame); try (apply Hfail; naive_solver).
  - destruct (finish_cases (IsServerDead (qEnd q) n s rn) rel longre got draw draw' q)
      as [[-> _]|(reply & -> & _ & [-> | ->])]; [apply Hfail; naive_solver| |apply Hret; naive_solver].
    assert (absReq (set_stage (QDelayed reply) q) = absReq q) as -> by done. by rewrite list_insert_id.
  - apply Hret; naive_solver.
Qed.

Lemma nstep_refines w l w' :
  net_ok w → nstep w l = Done w' → rtc astep (abs w) (abs w').
Proof.
  intros [Hr Hh _] Hw'. destruct (nstep_moves w l w') as [_ Hm]; [by apply Forall_lookup|done|]. unfold abs.
  destruct Hm as [-> ->|e m args -> ->|k q q' Hk Hq -> He].
  - done.
  - rewrite fmap_app. apply rtc_once. apply a_call.
  - rewrite list_fmap_insert. eapply (Forall_lookup_1 _ _ _ _ Hr) in Hk as Hqok.
    assert ((absReq <$> reqs w) !! k = Some (absReq q)) as Hk' by (by rewrite list_lookup_fmap, Hk).
    destruct He as [[-> Hran]|(svc & m & f & b & Hx & Hf & Hb & ->)]; [by eapply req_step_refines|].
    apply rtc_once. unfold absReq, ran in *. simpl. rewrite Hx in Hk'. eapply a_exec; [done| |done].
    destruct Hqok as [He _]. unfold exec_ok in He. rewrite Hx in He.
    destruct He as (rs & x & Hrs & Hsp & Hsv). apply splitLast_spec in Hsp as [-> _].
    eapply Forall_forall in Hrs; [|exact Hh]. destruct (Hrs _ _ Hsv) as [<- Hok]. by apply Hok.
Qed.

Lemma ninit_ok st : net_ok (ninit st).
Proof. split; [constructor..|]. intros n s. unfold serverAt. simpl. by rewrite lookup_empty. Qed.

(** ** Executions: what stays true of a request *)

Lemma nstep_net w l w' :
  nstep w l = Done w' →
  match l with
  | NAdmin op => admin op w.(net) = Ok w'.(net)
  | NAddServer n s => w'.(net) = AddServer n s w.(net)
  | _ => w'.(net) = w.(net)
  end.
Proof.
  destruct l as [op|svcs|n s|e m args|k|k draw|k|k|k|k|k draw draw'|k|k]; simpl; intros Hw'.
  1: { by destruct (admin op (net w)) as [rn| |]; simplify_eq/=. }
  1: { by simplify_eq. }
  1: { by destruct (heap w !! s); simplify_eq/=. }
  1: { by case_decide; simplify_eq/=. }
  all: destruct (reqs w !! k) as [q|]; [|done]; cbn [enabled outcome_bind] in Hw'.
  3: { destruct (qExec q) as [|s| |]; simplify_eq/=. destruct (heap w !! s); [|done]. simpl in Hw'.
       by destruct (splitLast _) as [[x m]|]; [destruct (services s0 !! x)|]; simplify_eq/=. }
  3: { destruct (qExec q); simplify_eq/=. by destruct (serviceDispatch _ _ _ _) as [[st r]| |]; simplify_eq/=. }
  all: by repeat case_match; simplify_eq/=.
Qed.

Section stable.
Context (L : nlabel → Prop) (N : Network → Prop) (R : request → Prop).
Context (HL : ∀ l, L l → label_ok l).
Context (HN : ∀ w l w', N w.(net) → L l → nstep w l = Done w' → N w'.(net)).
Context (HR : ∀ rn h q q', N rn → req_ok h q → req_step rn h q q' → R q → R q').

Lemma stable_requests w w' :
  nsteps L w w' → net_ok w → N w.(net) →
  net_ok w' ∧ (∀ k q, w.(reqs) !! k = Some q → R q → ∃ q', w'.(reqs) !! k = Some q' ∧ R q') ∧
  ((∀ e m args, R (mkReq e m args QNew HNone None)) → Forall R w.(reqs) → Forall R w'.(reqs)).
Proof.
  induction 1 as [w|w w1 w' (l & Hl & Hw1) _ IH]; intros Hok HNw; [by eauto|].
  assert (∀ k q, reqs w !! k = Some q → req_ok (heap w) q) as Hqok
    by exact (proj1 (Forall_lookup _ _) (no_reqs _ Hok)).
  destruct (nstep_moves w l w1) as [_ Hm]; [done..|].
  destruct IH as (Hok' & IH1 & IH2); [by eapply nstep_ok; eauto|by eapply HN|]. split; [done|].
  destruct Hm as [E _|e m args E _|k q q' Hk Hq E _]; rewrite E in *.
  - done.
  - split.
    + intros k q Hk. apply IH1. by apply lookup_app_l_Some.
    + intros Hf Hr. apply IH2; [done|]. apply Forall_app. by split; [|constructor].
  - split.
    + intros k' q0 Hk' Hr. destruct (decide (k = k')) as [<-|Hne].
      * simplify_eq. apply (IH1 k q'); [|by eapply HR; eauto].
        apply list_lookup_insert_eq. by eapply lookup_lt_Some.
      * apply (IH1 k' q0); [|done]. by rewrite list_lookup_insert_ne.
    + intros Hf Hr. apply IH2; [done|]. apply Forall_insert; [done|].
      eapply HR; [done|by eapply Hqok|done|]. by eapply (Forall_lookup_1 _ _ _ _ Hr).
Qed.
End stable.

(** A request that [ProcessReq] has bound to a server and not yet answered. *)
Definition boundTo (n : Z) (s : nat) (q : request) : Prop :=
  match q.(qStage) with
  | QBound n' s' _ _ | QWaiting n' s' _ _ | QLeft n' s' _ _ _ => n' = n ∧ s' = s
  | _ => False
  end.

(** A request that will succeed or has. *)
Definition succeeding (n : Z) (s : nat) (q : request) : Prop :=
  match q.(qStage) with
  | QNew | QDelayed _ => True
  | QBound n' s' rel _ | QWaiting n' s' rel _ => n' = n ∧ s' = s ∧ rel = true
  | QLeft n' s' rel _ got => n' = n ∧ s' = s ∧ rel = true ∧ got ≠ None
  | QDone => ∃ reply, q.(qAnswer) = Some reply ∧ reply.(rok) = true
  | QOffline => False
  end.

Lemma serverAt_gone w l w' n s :
  serverAt w.(net) n ≠ Some s → l ≠ NAddServer n s → nstep w l = Done w' →
  serverAt w'.(net) n ≠ Some s.
Proof.
  intros Hn Hl Hw'. apply nstep_net in Hw'. destruct l as [op| |n' s'| | | | | | | | | |]; try by rewrite Hw'.
  - intros Hs. by eapply Hn, admin_serverAt.
  - rewrite Hw'. unfold serverAt. simpl. destruct (decide (n' = n)) as [->|Hne].
    + rewrite lookup_insert_eq. intros [= ->]. done.
    + by rewrite lookup_insert_ne.
Qed.

Lemma gone_step n s rn h q q' :
  serverAt rn n ≠ Some s → req_step rn h q q' →
  boundTo n s q ∨ q.(qAnswer) = Some failed ∧ q.(qStage) = QDone →
  boundTo n s q' ∨ q'.(qAnswer) = Some failed ∧ q'.(qStage) = QDone.
Proof.
  intros Hn Hst Hq. unfold boundTo in *.
  destruct Hst as [E|n' s' longre E|n' s' rel longre E|s' rs svc m x E Hrs Hsp Hx|svc m reply E Hok
    |n' s' rel longre reply E Ed|n' s' rel longre E Hd|n' s' rel longre got draw draw' E|reply E|E];
    try rewrite E in Hq; simpl; try (by left); try (by right); try (by destruct Hq as [?|[_ ?]]); try done.
  - left. naive_solver.
  - left. naive_solver.
  - left. naive_solver.
  - right. destruct Hq as [[-> ->]|[_ ?]]; [|done].
    destruct (finish_cases (IsServerDead (qEnd q) n s rn) rel longre got draw draw' q)
      as [[-> _]|(reply & _ & Hd & _)]; [done|].
    exfalso. unfold IsServerDead in Hd. apply orb_false_iff in Hd as [_ Hd].
    apply bool_decide_eq_false in Hd. by apply Hd.
Qed.

Lemma succeeding_step e n s rn h q q' :
  isEnabled rn e = true → connectionOf rn e = Some n → serverAt rn n = Some s → rn.(reliable) = true →
  req_ok h q → req_step rn h q q' → (q.(qEnd) = e → succeeding n s q) → q'.(qEnd) = e → succeeding n s q'.
Proof.
  intros He Hc Hs Hrel [Hxok Hsok] Hst Hq Hend. destruct (req_step_end _ _ _ _ Hst) as [Hend' _].
  rewrite Hend' in Hend. specialize (Hq Hend). unfold succeeding, exec_ok, stage_ok in *.
  destruct Hst as [E|n' s' longre E|n' s' rel longre E|s' rs svc m x E Hrs Hsp Hx|svc m reply E Hok
    |n' s' rel longre reply E Ed|n' s' rel longre E Hd|n' s' rel longre got draw draw' E|reply E|E];
    try rewrite E in Hq; try rewrite E in Hsok; simpl; try done.
  - rewrite Hend. unfold route, ReadEndnameInfo. by rewrite He, Hc, Hs, Hrel.
  - naive_solver.
  - naive_solver.
  - destruct Hq as (-> & -> & ->). exfalso. rewrite Hend in Hd. unfold IsServerDead in Hd.
    rewrite He, Hs in Hd. simpl in Hd. by apply bool_decide_eq_true in Hd.
  - destruct Hq as (-> & -> & -> & Hgot).
    destruct (finish_cases (IsServerDead (qEnd q) n s rn) true longre got draw draw' q)
      as [[_ [Hg|[Hd|Hr]]]|(reply & -> & _ & [-> | ->])]; simpl; try done.
    + exfalso. rewrite Hend in Hd. unfold IsServerDead in Hd. rewrite He, Hs in Hd. simpl in Hd.
      by apply bool_decide_eq_true in Hd.
    + destruct Hsok as [_ Hx]. rewrite (Hx reply) in Hxok by done. eauto.
  - destruct Hsok as [_ Hx]. rewrite Hx in Hxok. eauto.
Qed.

(** ** Every call can return *)

(** The steps of the goroutines that carry request [k]. *)
Definition carries (k : nat) (l : nlabel) : Prop :=
  match l with
  | NRoute k' | NSend k' _ | NDispatch k' | NHandle k' | NReceive k' | NPoll k'
  | NCheck k' _ _ | NRespond k' | NTimeout k' => k' = k
  | _ => False
  end.

(** The server has the method. *)
Definition resolves (meth : string) (rs : Server) : Prop :=
  ∃ x m svc, splitLast meth = Some (x, m) ∧ rs.(services) !! x = Some svc ∧ is_Some (svc.(methods) !! m).

Definition returns (k : nat) (w : labnet) : Prop :=
  ∃ w' q', nsteps (carries k) w w' ∧ w'.(reqs) !! k = Some q' ∧ is_Some q'.(qAnswer).

Lemma returns_step k w l w1 : carries k l → nstep w l = Done w1 → returns k w1 → returns k w.
Proof.
  intros Hl Hw1 (w' & q' & Hs & ? & ?). exists w', q'. split; [|done]. eapply rtc_l; [|exact Hs]. eauto.
Qed.

Lemma returns_done k w q : w.(reqs) !! k = Some q → is_Some q.(qAnswer) → returns k w.
Proof. intros. exists w, q. split; [apply rtc_refl|done]. Qed.

Lemma set_req_lookup k q q' w : w.(reqs) !! k = Some q → (set_req k q' w).(reqs) !! k = Some q'.
Proof. intros Hk. simpl. apply list_lookup_insert_eq. by eapply lookup_lt_Some. Qed.

Lemma returns_left k w q n s rel longre got :
  w.(reqs) !! k = Some q → q.(qStage) = QLeft n s rel longre got → returns k w.
Proof.
  intros Hk E. eapply (returns_step k w (NCheck k 999 899)); [done|simpl; rewrite Hk; simpl; by rewrite E|].
  eapply returns_done; [by eapply set_req_lookup|].
  unfold finish, tenth, twoThirds. rewrite !(bool_decide_false (_ < _)) by done. rewrite !andb_false_r.
  destruct got; [|by eexists]. destruct (IsServerDead _ _ _ _); by eexists.
Qed.

Lemma returns_ran k w q n s rel longre reply :
  w.(reqs) !! k = Some q → q.(qStage) = QWaiting n s rel longre → q.(qExec) = HDone reply → returns k w.
Proof.
  intros Hk E Hx.
  eapply (returns_step k w (NReceive k)); [done|simpl; rewrite Hk; simpl; rewrite E, Hx; reflexivity|].
  by eapply returns_left; [eapply set_req_lookup|].
Qed.

Lemma returns_found k w q n s rel longre svc m :
  w.(reqs) !! k = Some q → q.(qStage) = QWaiting n s rel longre → q.(qExec) = HFound svc m →
  is_Some (svc.(methods) !! m) → returns k w.
Proof.
  intros Hk E Hx Hm.
  assert (∃ st reply, serviceDispatch svc m (qArgs q) (hst w) = Ok (st, reply)) as (st & reply & Hd).
  { unfold serviceDispatch. destruct (methods svc !! m) as [f|]; [|by destruct Hm].
    destruct (f (qArgs q) (hst w)) as [st b]. eauto. }
  eapply (returns_step k w (NHandle k)); [done|simpl; rewrite Hk; simpl; rewrite Hx, Hd; reflexivity|].
  eapply (returns_ran k _ (set_exec (HDone reply) q)); [|exact E|reflexivity].
  apply (set_req_lookup k q _ w Hk).
Qed.

Lemma returns_ready k w q n s rel longre s' rs :
  w.(reqs) !! k = Some q → q.(qStage) = QWaiting n s rel longre → q.(qExec) = HReady s' →
  w.(heap) !! s' = Some rs → resolves q.(qMeth) rs → returns k w.
Proof.
  intros Hk E Hx Hrs (x & m & svc & Hsp & Hsv & Hm).
  eapply (returns_step k w (NDispatch k)).
  { done. }
  { simpl. rewrite Hk. simpl. rewrite Hx, Hrs. simpl. rewrite Hsp, Hsv. reflexivity. }
  eapply (returns_found k _ (set_exec (HFound svc m) q)); [|exact E|reflexivity|done].
  apply (set_req_lookup k q _ w Hk).
Qed.

Lemma call_can_return k w q :
  net_ok w → w.(reqs) !! k = Some q → Forall (resolves q.(qMeth)) w.(heap) → returns k w.
Proof.
  intros [Hr Hh Hp] Hk Hres.
  assert (∀ w q n s rel longre, reqs w !! k = Some q → qStage q = QBound n s rel longre →
    (s < length (heap w))%nat → Forall (resolves q.(qMeth)) w.(heap) → returns k w) as Hbound.
  { clear. intros w q n s rel longre Hk E [rs Hrs]%lookup_lt_is_Some_2 Hres.
    eapply (returns_step k w (NSend k 999)).
    { done. }
    { simpl. rewrite Hk. simpl. rewrite E. unfold tenth.
      rewrite (bool_decide_false (_ < _)) by done. rewrite andb_false_r. reflexivity. }
    eapply (returns_ready _ _ _ n s rel longre s rs); [by eapply set_req_lookup|done..|].
    by eapply (Forall_lookup_1 _ _ _ _ Hres). }
  destruct (Forall_lookup_1 _ _ _ _ Hr Hk) as [Hx Hs]. unfold exec_ok, stage_ok in *.
  destruct (qStage q) as [| |n s rel longre|n s rel longre|n s rel longre got|reply|] eqn:E.
  - eapply (returns_step k w (NRoute k)); [done|simpl; rewrite Hk; simpl; rewrite E; reflexivity|].
    destruct (route_spec (qEnd q) (net w)) as [->|(n & s & -> & _ & _ & Hs')].
    + eapply (returns_step k _ (NTimeout k)); [done|cbn [nstep]; rewrite (set_req_lookup k q) by done; reflexivity|].
      by eapply returns_done; [eapply set_req_lookup, set_req_lookup|].
    + eapply Hbound; [by eapply set_req_lookup|done|by eapply Hp|done].
  - eapply (returns_step k w (NTimeout k)); [done|simpl; rewrite Hk; simpl; rewrite E; reflexivity|].
    by eapply returns_done; [eapply set_req_lookup|].
  - destruct Hs as (_ & _ & ?). by eapply Hbound.
  - destruct (qExec q) as [|s'|svc m|reply] eqn:Eq; [naive_solver| | |by eapply returns_ran].
    + apply lookup_lt_is_Some_2 in Hx as [rs Hrs]. eapply returns_ready; [done..|].
      by eapply (Forall_lookup_1 _ _ _ _ Hres).
    + destruct Hx as (rs & x & Hrs & Hsp & Hsv). eapply returns_found; [done..|].
      eapply Forall_forall in Hrs; [|exact Hres]. destruct Hrs as (x' & m' & svc' & ? & ? & ?). by simplify_eq.
  - by eapply returns_left.
  - eapply (returns_step k w (NRespond k)); [done|simpl; rewrite Hk; simpl; rewrite E; reflexivity|].
    by eapply returns_done; [eapply set_req_lookup|].
  - destruct Hs as (reply & ? & _). by eapply returns_done.
Qed.

Lemma reachable_net_ok st w : nsteps label_ok (ninit st) w → net_ok w.
Proof.
  intros Hs. apply (stable_requests label_ok (λ _, True) (λ _, True) (λ _ H, H) (λ _ _ _ _ _ _, I)
    (λ _ _ _ _ _ _ _ _, I) _ _ Hs); [apply ninit_ok|done].
Qed.

(** Nobody changes the network. *)
Definition undisturbed (l : nlabel) : Prop :=
  label_ok l ∧ match l with NAdmin _ | NAddServer _ _ => False | _ => True end.

(** ** Theorems *)

(** C33. The network refines its specification: whatever the ends, servers,
    flags and random draws, every execution is an execution of the abstract
    network.  So a request is executed at most once, by a handler registered
    for its method, [Call] returns true only after that and with its reply,
    and returns once. *)
Theorem labrpc_refines st w :
  nsteps label_ok (ninit st) w → rtc astep (st, []) (abs w).
Proof.
  intros Hs. change (st, []) with (abs (ninit st)). generalize (ninit_ok st).
  induction Hs as [w|w w1 w' (l & Hl & Hw1) _ IH]; intros Hok; [done|].
  etrans; [by eapply nstep_refines|]. apply IH. by eapply nstep_ok.
Qed.

(** No reply from a server that is gone: when a request is on its way to a
    server that has been deleted or replaced under its name, and that server is
    not added again, the call can only fail, whether or not the handler runs. *)
Lemma no_reply_after_delete st w w' n s k q :
  nsteps label_ok (ninit st) w → w.(reqs) !! k = Some q → boundTo n s q →
  serverAt w.(net) n ≠ Some s →
  nsteps (λ l, label_ok l ∧ l ≠ NAddServer n s) w w' →
  ∃ q', w'.(reqs) !! k = Some q' ∧ ∀ reply, q'.(qAnswer) = Some reply → reply = failed.
Proof.
  intros Hw Hk Hq Hn Hs. apply reachable_net_ok in Hw as Hok.
  destruct (stable_requests _ (λ rn, serverAt rn n ≠ Some s)
    (λ q, boundTo n s q ∨ q.(qAnswer) = Some failed ∧ q.(qStage) = QDone)
    (λ l H, proj1 H) (λ w l w' H Hl, serverAt_gone w l w' n s H (proj2 Hl))
    (λ rn h q q' H _, gone_step n s rn h q q' H) _ _ Hs Hok Hn) as (Hok' & Hreq & _).
  destruct (Hreq k q Hk (or_introl Hq)) as (q' & Hk' & Hq'). exists q'. split; [done|]. intros reply Hr.
  destruct Hq' as [Hb|[Hf _]]; [|naive_solver].
  destruct (Forall_lookup_1 _ _ _ _ (no_reqs _ Hok') Hk') as [_ Hst]. unfold boundTo, stage_ok in *.
  destruct (qStage q'); naive_solver.
Qed.

(** A reliable network delivers: as long as nobody changes the network, no
    call on an enabled end that is connected to a running server fails. *)
Lemma reliable_calls_succeed st w w' e n s :
  nsteps label_ok (ninit st) w → w.(reqs) = [] →
  w.(net).(reliable) = true → isEnabled w.(net) e = true →
  connectionOf w.(net) e = Some n → serverAt w.(net) n = Some s →
  nsteps undisturbed w w' →
  ∀ k q reply, w'.(reqs) !! k = Some q → q.(qEnd) = e → q.(qAnswer) = Some reply → reply.(rok) = true.
Proof.
  intros Hw Hnil Hrel He Hc Hn Hs k q reply Hk Hq Hr. apply reachable_net_ok in Hw as Hok.
  destruct (stable_requests undisturbed (λ rn, rn = w.(net)) (λ q, q.(qEnd) = e → succeeding n s q)
    (λ l H, proj1 H)) with (w := w) (w' := w') as (Hok' & _ & Hall); [| |done..|].
  { intros w1 l w2 <- [_ Hl] Hst%nstep_net. by destruct l. }
  { intros rn h q0 q' -> Hqok Hst Hq0 Hend. by eapply succeeding_step. }
  rewrite Hnil in Hall. specialize (Hall ltac:(done) ltac:(constructor)).
  pose proof (Forall_lookup_1 _ _ _ _ Hall Hk Hq) as Hgood.
  destruct (Forall_lookup_1 _ _ _ _ (no_reqs _ Hok') Hk) as [_ Hst].
  unfold succeeding, stage_ok in *. destruct (qStage q); naive_solver.
Qed.

(** C34. Every call can return: whatever state the network is in, the goroutines
    that carry a request can finish it by themselves, with a reply or with a
    failure, provided that the servers have the method it names. *)
Theorem call_returns st w k q :
  nsteps label_ok (ninit st) w → w.(reqs) !! k = Some q → Forall (resolves q.(qMeth)) w.(heap) →
  ∃ w' q', nsteps (carries k) w w' ∧ w'.(reqs) !! k = Some q' ∧ is_Some q'.(qAnswer).
Proof. intros Hw%reachable_net_ok Hk Hr. by eapply call_can_return. Qed.
End labrpc.

Arguments methodInfo : clear implicits.
Arguments Service : clear implicits.
Arguments Server : clear implicits.
Arguments labnet : clear implicits.
Arguments nlabel : clear implicits.
