(* ===== verification/Tester.v ===== *)
(** * The tester's network set-up (src/src/raft/config.go)

    [connect], [disconnect], [crash1] and [start1] as far as they concern the
    network: which client ends exist, to which server each leads, and which of
    them are enabled.  The persisters are in RaftNode.v, the peers themselves in
    RaftSystem.v. *)
From S2P Require Import Prelude GoStrings LabRpc.

(** [endnames[i]] is nil until server [i] is started. *)
Record config := mkConfig {
  cnet : Network;
  cn : Z;
  connected : list bool;
  endnames : list (option (list string))
}.

Definition set_cnet (rn : Network) (cfg : config) : config :=
  mkConfig rn cfg.(cn) cfg.(connected) cfg.(endnames).

(** An index expression, which panics out of range. *)
Definition index {A} (l : list A) (i : Z) : result A :=
  match slice_get l i with Some x => Ok x | None => Panic end.

(** [cfg.endnames[i][j]]; nil has no elements. *)
Definition endname (cfg : config) (i j : Z) : result string :=
  (row <- index cfg.(endnames) i; index (default [] row) j)%result.

(** [cfg.connected[i] = yes] *)
Definition setConnected (i : Z) (yes : bool) (cfg : config) : result config :=
  match slice_set cfg.(connected) i yes with
  | Some l => Ok (mkConfig cfg.(cnet) cfg.(cn) l cfg.(endnames))
  | None => Panic
  end.

Definition enableEnd (i j : Z) (yes : bool) (cfg : config) : result config :=
  (e <- endname cfg i j; Ok (set_cnet (Enable e yes cfg.(cnet)) cfg))%result.

Definition connect (i : Z) (cfg : config) : result config :=
  (cfg <- setConnected i true cfg;
   cfg <- forEach (λ j cfg, c <- index cfg.(connected) j;
                            if c : bool then enableEnd i j true cfg else Ok cfg) (range cfg.(cn)) cfg;
   forEach (λ j cfg, c <- index cfg.(connected) j;
                     if c : bool then enableEnd j i true cfg else Ok cfg) (range cfg.(cn)) cfg)%result.

Definition disconnect (i : Z) (cfg : config) : result config :=
  (cfg <- setConnected i false cfg;
   cfg <- forEach (λ j cfg, row <- index cfg.(endnames) i;
                            if row is Some _ then enableEnd i j false cfg else Ok cfg) (range cfg.(cn)) cfg;
   forEach (λ j cfg, row <- index cfg.(endnames) j;
                     if row is Some _ then enableEnd j i false cfg else Ok cfg) (range cfg.(cn)) cfg)%result.

Definition rpcCount {St} (server : Z) (heap : list (Server St)) (cfg : config) : result Z :=
  GetCount server heap cfg.(cnet).

Definition setunreliable (unrel : bool) (cfg : config) : config :=
  set_cnet (Reliable (negb unrel) cfg.(cnet)) cfg.

Definition setlongreordering (longrel : bool) (cfg : config) : config :=
  set_cnet (LongReordering longrel cfg.(cnet)) cfg.

Definition crash1 (i : Z) (cfg : config) : result config :=
  (cfg <- disconnect i cfg;
   Ok (set_cnet (DeleteServer i cfg.(cnet)) cfg))%result.

(** [names] are the [randstring(20)]s, [srv] the new server object. *)
Definition start1 (i : Z) (names : list string) (srv : nat) (cfg : config) : result config :=
  (cfg <- crash1 i cfg;
   rows <- match slice_set cfg.(endnames) i (Some names) with Some r => Ok r | None => Panic end;
   let cfg := mkConfig cfg.(cnet) cfg.(cn) cfg.(connected) rows in
   cfg <- forEach (λ j cfg, e <- endname cfg i j;
                            rn <- MakeEnd e cfg.(cnet);
                            Ok (set_cnet (Connect e j rn) cfg)) (range cfg.(cn)) cfg;
   Ok (set_cnet (AddServer i srv cfg.(cnet)) cfg))%result.

(** The configuration [make_config] starts with, and the servers it starts. *)
Definition blank (n : Z) (unreliable : bool) : config :=
  mkConfig (LongDelays true (Reliable (negb unreliable) MakeNetwork)) n
    (replicate (Z.to_nat n) false) (replicate (Z.to_nat n) None).

Definition make_config (n : Z) (unreliable : bool) (names : Z → list string) (srv : Z → nat) : result config :=
  (cfg <- forEach (λ i cfg, start1 i (names i) (srv i) cfg) (range n) (blank n unreliable);
   forEach connect (range n) cfg)%result.

(** What a test does to the network. *)
Inductive cfgOp :=
| OConnect (i : Z)
| ODisconnect (i : Z)
| OCrash (i : Z)
| OStart (i : Z) (names : list string) (srv : nat).

Definition runOp (op : cfgOp) (cfg : config) : result config :=
  match op with
  | OConnect i => connect i cfg
  | ODisconnect i => disconnect i cfg
  | OCrash i => crash1 i cfg
  | OStart i names srv => start1 i names srv cfg
  end.

(** The servers that are on the net after an operation. *)
Definition online (op : cfgOp) (S : gset Z) : gset Z :=
  match op with
  | OConnect i => {[i]} ∪ S
  | ODisconnect i | OCrash i | OStart i _ _ => S ∖ {[i]}
  end.

(** ** Views of the tables *)

Definition row (cfg : config) (i : Z) : option (list string) := mjoin (slice_get cfg.(endnames) i).

Definition endAt (cfg : config) (i j : Z) : option string := l ← row cfg i; slice_get l j.

(** The tables are those of a cluster with the servers in [S] on the net. *)
Record cfg_ok (S : gset Z) (cfg : config) : Prop := {
  co_connected : len cfg.(connected) = cfg.(cn);
  co_endnames : len cfg.(endnames) = cfg.(cn);
  co_row : ∀ i l, row cfg i = Some l → len l = cfg.(cn);
  co_online : ∀ i c, slice_get cfg.(connected) i = Some c → c = bool_decide (i ∈ S);
  co_started : ∀ i, i ∈ S → is_Some (row cfg i);
  co_inj : ∀ i j i' j' e, endAt cfg i j = Some e → endAt cfg i' j' = Some e → i = i' ∧ j = j';
  co_ends : ∀ i j e, endAt cfg i j = Some e → e ∈ cfg.(cnet).(ends);
  co_route : ∀ i j e, endAt cfg i j = Some e → connectionOf cfg.(cnet) e = Some j;
  co_enabled : ∀ i j e, endAt cfg i j = Some e →
    isEnabled cfg.(cnet) e = bool_decide (i ∈ S) && bool_decide (j ∈ S)
}.

(** The computation returns, and its result satisfies [P]. *)
Definition safe {A} (P : A → Prop) (r : result A) : Prop :=
  match r with Ok a => P a | _ => False end.

Lemma safe_bind {A B} (P : A → Prop) (Q : B → Prop) m (k : A → result B) :
  safe P m → (∀ a, P a → safe Q (k a)) → safe Q (result_bind m k).
Proof. destruct m; simpl; auto. Qed.

Lemma safe_impl {A} (P Q : A → Prop) m : safe P m → (∀ a, P a → Q a) → safe Q m.
Proof. destruct m; simpl; auto. Qed.

(** ** Loops that enable or disable ends *)

Definition enableAll (cond : Z → bool) (name : Z → string) (yes : bool) (l : list Z) (rn : Network) : Network :=
  foldl (λ rn j, if cond j then Enable (name j) yes rn else rn) rn l.

Lemma enable_loop (cond : Z → bool) name yes body l cfg rn :
  (∀ j rn, j ∈ l → body j (set_cnet rn cfg) =
     Ok (set_cnet (if cond j then Enable (name j) yes rn else rn) cfg)) →
  forEach body l (set_cnet rn cfg) = Ok (set_cnet (enableAll cond name yes l rn) cfg).
Proof.
  revert rn. induction l as [|j l IH]; intros rn Hb; [done|]. cbn [forEach]. rewrite Hb by set_solver.
  cbn [result_bind]. rewrite IH; [done|]. intros j' rn' Hj'. apply Hb. set_solver.
Qed.

Lemma isEnabled_Enable e yes rn x :
  isEnabled (Enable e yes rn) x = if decide (e = x) then yes else isEnabled rn x.
Proof. unfold isEnabled. simpl. case_decide; subst; [by rewrite lookup_insert_eq|by rewrite lookup_insert_ne]. Qed.

Lemma enableAll_spec cond name yes l rn :
  let rn' := enableAll cond name yes l rn in
  rn'.(ends) = rn.(ends) ∧ (∀ x, connectionOf rn' x = connectionOf rn x) ∧
  (∀ j, j ∈ l → cond j = true → isEnabled rn' (name j) = yes) ∧
  (∀ x, (∀ j, j ∈ l → cond j = true → name j ≠ x) → isEnabled rn' x = isEnabled rn x).
Proof.
  unfold enableAll. revert rn. induction l as [|j l IH]; intros rn; [split_and!; [done..| |done]; set_solver|].
  cbn [foldl]. destruct (IH (if cond j then Enable (name j) yes rn else rn)) as (He & Hc & Hin & Hout).
  split_and!.
  - rewrite He. by destruct (cond j).
  - intros x. rewrite Hc. by destruct (cond j).
  - intros j' Hj' Hcj. destruct (decide (Exists (λ i, cond i = true ∧ name i = name j') l)) as [Hex|Hno].
    + apply Exists_exists in Hex as (i & Hi & Hci & <-). by apply Hin.
    + apply elem_of_cons in Hj' as [->|Hj'].
      * rewrite Hout, Hcj, isEnabled_Enable; [by rewrite decide_True|].
        intros i Hi Hci Hni. apply Hno, Exists_exists. eauto.
      * by apply Hin.
  - intros x Hx. rewrite Hout by (intros; apply Hx; set_solver). destruct (cond j) eqn:Hcj; [|done].
    rewrite isEnabled_Enable, decide_False; [done|]. apply Hx; [set_solver|done].
Qed.

(** ** Connecting and disconnecting *)

Lemma endAt_range S cfg i j e :
  cfg_ok S cfg → endAt cfg i j = Some e → i ∈ range cfg.(cn) ∧ j ∈ range cfg.(cn).
Proof.
  intros Hok He. unfold endAt in He. destruct (row cfg i) as [l|] eqn:Hl; [|done]. simpl in He.
  apply slice_get_bound in He. rewrite (co_row _ _ Hok _ _ Hl) in He. unfold row in Hl.
  destruct (slice_get (endnames cfg) i) as [r|] eqn:Hr; [|done]. apply slice_get_bound in Hr.
  rewrite (co_endnames _ _ Hok) in Hr. by rewrite !elem_of_range.
Qed.

Lemma endAt_total S cfg i j :
  cfg_ok S cfg → is_Some (row cfg i) → j ∈ range cfg.(cn) → is_Some (endAt cfg i j).
Proof.
  intros Hok [l Hl] Hj%elem_of_range. unfold endAt. rewrite Hl. simpl.
  rewrite <- (co_row _ _ Hok _ _ Hl) in Hj. apply slice_get_inr in Hj as [e He]. by eexists.
Qed.

(** The two loops of [connect] and [disconnect], which touch the ends of [i]
    selected by [c1] (outgoing) and [c2] (incoming). *)
Section toggle.
Context (S S' : gset Z) (i : Z) (yes : bool) (c1 c2 : Z → bool) (cfg : config).
Context (Hok : cfg_ok S cfg) (Hi : 0 ≤ i < cfg.(cn)).
Context (HS : ∀ j, j ≠ i → j ∈ S' ↔ j ∈ S) (Hyes : yes = bool_decide (i ∈ S')).
Context (Hstarted : i ∈ S' → is_Some (row cfg i)).
Context (H1 : ∀ j, j ∈ range cfg.(cn) → c1 j = true → is_Some (endAt cfg i j) ∧ (yes = true → j ∈ S')).
Context (H2 : ∀ j, j ∈ range cfg.(cn) → c2 j = true → is_Some (endAt cfg j i) ∧ (yes = true → j ∈ S')).
Context (H1' : ∀ j e, endAt cfg i j = Some e → c1 j = false → yes = true ∧ j ∉ S').
Context (H2' : ∀ j e, endAt cfg j i = Some e → c2 j = false → yes = true ∧ j ∉ S').

Definition out (j : Z) : string := default "" (endAt cfg i j).
Definition inc (j : Z) : string := default "" (endAt cfg j i).

Definition toggled : config :=
  mkConfig (enableAll c2 inc yes (range cfg.(cn)) (enableAll c1 out yes (range cfg.(cn)) cfg.(cnet)))
    cfg.(cn) (<[Z.to_nat i := yes]> cfg.(connected)) cfg.(endnames).

Lemma toggled_enabled a b e :
  endAt cfg a b = Some e →
  isEnabled toggled.(cnet) e = bool_decide (a ∈ S') && bool_decide (b ∈ S').
Proof.
  intros He. destruct (endAt_range _ _ _ _ _ Hok He) as [Ha Hb]. simpl.
  set (rn1 := enableAll c1 out yes (range (cn cfg)) (cnet cfg)).
  destruct (enableAll_spec c1 out yes (range (cn cfg)) (cnet cfg)) as (_ & _ & Hin1 & Hout1).
  destruct (enableAll_spec c2 inc yes (range (cn cfg)) rn1) as (_ & _ & Hin2 & Hout2).
  fold rn1 in Hin1, Hout1.
  destruct (decide (b = i ∧ c2 a = true)) as [[-> Hc]|Hn2].
  { destruct (H2 a Ha Hc) as [_ Hy]. specialize (Hin2 a Ha Hc). unfold inc at 2 in Hin2. rewrite He in Hin2.
    simpl in Hin2. rewrite Hin2. rewrite Hyes in *. destruct (bool_decide (i ∈ S')); [|by rewrite andb_false_r].
    rewrite bool_decide_true by auto. done. }
  rewrite Hout2.
  2: { intros j Hj Hc Hn. destruct (H2 j Hj Hc) as [[e' He'] _]. unfold inc in Hn. rewrite He' in Hn. simpl in Hn. subst e'.
       destruct (co_inj _ _ Hok _ _ _ _ _ He He') as [-> ->]. by apply Hn2. }
  destruct (decide (a = i ∧ c1 b = true)) as [[-> Hc]|Hn1].
  { destruct (H1 b Hb Hc) as [_ Hy]. specialize (Hin1 b Hb Hc). unfold out in Hin1. rewrite He in Hin1.
    simpl in Hin1. rewrite Hin1. rewrite Hyes in *. destruct (bool_decide (i ∈ S')); [|done].
    by rewrite bool_decide_true by auto. }
  rewrite Hout1.
  2: { intros j Hj Hc Hn. destruct (H1 j Hj Hc) as [[e' He'] _]. unfold out in Hn. rewrite He' in Hn. simpl in Hn. subst e'.
       destruct (co_inj _ _ Hok _ _ _ _ _ He He') as [-> ->]. by apply Hn1. }
  rewrite (co_enabled _ _ Hok a b e He).
  destruct (decide (a = i)) as [->|Hai].
  { destruct (H1' b e He) as [Hy Hnb]; [by destruct (c1 b); [exfalso; apply Hn1|]|].
    rewrite Hy in Hyes. symmetry in Hyes. apply bool_decide_eq_true in Hyes.
    rewrite (bool_decide_false (b ∈ S')) by done. rewrite (bool_decide_false (b ∈ S)); [by rewrite !andb_false_r|].
    rewrite <- HS; [done|]. by intros ->. }
  destruct (decide (b = i)) as [->|Hbi].
  { destruct (H2' a e He) as [Hy Hna]; [by destruct (c2 a); [exfalso; apply Hn2|]|].
    rewrite (bool_decide_false (a ∈ S')) by done. rewrite (bool_decide_false (a ∈ S)); [done|].
    by rewrite <- HS. }
  by rewrite (bool_decide_ext (a ∈ S') (a ∈ S)), (bool_decide_ext (b ∈ S') (b ∈ S)) by (by apply HS).
Qed.

Lemma toggle_ok : cfg_ok S' toggled.
Proof.
  destruct (enableAll_spec c1 out yes (range (cn cfg)) (cnet cfg)) as (He1 & Hc1 & _).
  destruct (enableAll_spec c2 inc yes (range (cn cfg)) (enableAll c1 out yes (range (cn cfg)) (cnet cfg)))
    as (He2 & Hc2 & _).
  destruct Hok as [Hlc Hle Hrow Hon Hst Hinj Hends Hroute Hen]. split; simpl.
  - by rewrite len_insert.
  - done.
  - done.
  - intros j c. destruct (decide (i = j)) as [<-|Hne].
    + rewrite slice_get_insert_eq by lia. by intros [= <-].
    + rewrite slice_get_insert_ne by lia. intros Hj. rewrite (Hon j c Hj).
      apply bool_decide_ext. symmetry. by apply HS.
  - intros j Hj. destruct (decide (j = i)) as [->|Hne]; [by apply Hstarted|]. by apply Hst, HS.
  - done.
  - intros a b e He. rewrite He2, He1. by eapply Hends.
  - intros a b e He. rewrite Hc2, Hc1. by eapply Hroute.
  - apply toggled_enabled.
Qed.
End toggle.

(** What every operation keeps; [new] are the names of the ends it makes. *)
Record keeps (new : list string) (cfg cfg' : config) : Prop := {
  ke_cn : cfg'.(cn) = cfg.(cn);
  ke_row : ∀ j, is_Some (row cfg j) → is_Some (row cfg' j);
  ke_ends : cfg'.(cnet).(ends) = list_to_set new ∪ cfg.(cnet).(ends)
}.

Lemma endname_Ok cfg cfg' i j e :
  endAt cfg i j = Some e → cfg'.(endnames) = cfg.(endnames) → endname cfg' i j = Ok e.
Proof.
  unfold endAt, endname, row, index. intros He ->. destruct (slice_get (endnames cfg) i) as [[l|]|]; [|done..].
  simpl in *. by rewrite He.
Qed.

Lemma enableEnd_Ok cfg cfg' i j yes :
  is_Some (endAt cfg i j) → cfg'.(endnames) = cfg.(endnames) →
  enableEnd i j yes cfg' = Ok (set_cnet (Enable (default "" (endAt cfg i j)) yes cfg'.(cnet)) cfg').
Proof. intros [e He] Hcfg. unfold enableEnd. by rewrite (endname_Ok cfg cfg' i j e), He. Qed.

Lemma setConnected_Ok S i yes cfg :
  cfg_ok S cfg → 0 ≤ i < cfg.(cn) →
  setConnected i yes cfg = Ok (mkConfig cfg.(cnet) cfg.(cn) (<[Z.to_nat i := yes]> cfg.(connected)) cfg.(endnames)).
Proof.
  intros Hok Hi. unfold setConnected, slice_set. by rewrite decide_True by (by rewrite (co_connected _ _ Hok)).
Qed.

Lemma index_Ok {A} (l : list A) i : 0 ≤ i < len l → ∃ x, slice_get l i = Some x ∧ index l i = Ok x.
Proof. intros [x Hx]%slice_get_inr. exists x. unfold index. by rewrite Hx. Qed.

Lemma connect_ok S i cfg :
  cfg_ok S cfg → 0 ≤ i < cfg.(cn) → is_Some (row cfg i) →
  safe (λ cfg', cfg_ok ({[i]} ∪ S) cfg' ∧ keeps [] cfg cfg') (connect i cfg).
Proof.
  intros Hok Hi Hrow. unfold connect. rewrite (setConnected_Ok S) by done. cbn [result_bind].
  set (cfg1 := mkConfig _ _ _ _). set (on := λ j, bool_decide (j ∈ {[i]} ∪ S)).
  assert (∀ rn j, j ∈ range (cn cfg) → index (connected (set_cnet rn cfg1)) j = Ok (on j)) as Hidx.
  { intros rn j Hj%elem_of_range. simpl.
    destruct (index_Ok (<[Z.to_nat i := true]> (connected cfg)) j) as (c & Hc & ->);
      [by rewrite len_insert, (co_connected _ _ Hok)|]. f_equal. unfold on.
    destruct (decide (i = j)) as [<-|Hne].
    - rewrite slice_get_insert_eq in Hc by (by rewrite (co_connected _ _ Hok)). rewrite bool_decide_true by set_solver. congruence.
    - rewrite slice_get_insert_ne in Hc by lia. rewrite (co_online _ _ Hok j c Hc). apply bool_decide_ext. set_solver. }
  assert (∀ j, j ∈ range (cn cfg) → on j = true → is_Some (endAt cfg i j) ∧ is_Some (endAt cfg j i)) as Hend.
  { intros j Hj Hon%bool_decide_eq_true. split; [by eapply endAt_total|]. eapply endAt_total; [done| |by apply elem_of_range].
    apply elem_of_union in Hon as [->%elem_of_singleton|Hj']; [done|]. by apply (co_started _ _ Hok). }
  change cfg1 with (set_cnet (cnet cfg) cfg1) at 2.
  rewrite (enable_loop on (out i cfg) true).
  2: { intros j rn Hj. rewrite Hidx by done. cbn [result_bind]. destruct (on j) eqn:Hon; [|done].
       by rewrite (enableEnd_Ok cfg) by (try done; by apply Hend). }
  cbn [result_bind]. rewrite (enable_loop on (inc i cfg) true).
  2: { intros j rn Hj. rewrite Hidx by done. cbn [result_bind]. destruct (on j) eqn:Hon; [|done].
       by rewrite (enableEnd_Ok cfg) by (try done; by apply Hend). }
  split; [|split; [done..|by simpl; rewrite !(proj1 (enableAll_spec _ _ _ _ _)), union_empty_l_L]].
  eapply (toggle_ok S _ i true on on cfg Hok Hi).
  - set_solver.
  - by rewrite bool_decide_true by set_solver.
  - done.
  - intros j Hj Hon. split; [by apply Hend|]. intros _. by apply bool_decide_eq_true in Hon.
  - intros j Hj Hon. split; [by apply Hend|]. intros _. by apply bool_decide_eq_true in Hon.
  - intros j e _ Hon. split; [done|]. by apply bool_decide_eq_false in Hon.
  - intros j e _ Hon. split; [done|]. by apply bool_decide_eq_false in Hon.
Qed.

Lemma disconnect_ok S i cfg :
  cfg_ok S cfg → 0 ≤ i < cfg.(cn) →
  safe (λ cfg', cfg_ok (S ∖ {[i]}) cfg' ∧ keeps [] cfg cfg') (disconnect i cfg).
Proof.
  intros Hok Hi. unfold disconnect. rewrite (setConnected_Ok S) by done. cbn [result_bind].
  set (cfg1 := mkConfig _ _ _ _). set (has := λ j, bool_decide (is_Some (row cfg j))).
  assert (∀ rn j, j ∈ range (cn cfg) →
    ∃ r, index (endnames (set_cnet rn cfg1)) j = Ok r ∧ r = row cfg j) as Hidx.
  { intros rn j Hj%elem_of_range. simpl. destruct (index_Ok (endnames cfg) j) as (r & Hr & ->);
      [by rewrite (co_endnames _ _ Hok)|]. exists r. split; [done|]. unfold row. by rewrite Hr. }
  assert (∀ a b, b ∈ range (cn cfg) → has a = true → is_Some (endAt cfg a b)) as Hend.
  { intros a b Hb Ha%bool_decide_eq_true. by eapply endAt_total. }
  assert (i ∈ range (cn cfg)) as Hir by (by apply elem_of_range).
  change cfg1 with (set_cnet (cnet cfg) cfg1) at 2.
  rewrite (enable_loop (λ _, has i) (out i cfg) false).
  2: { intros j rn Hj. destruct (Hidx rn i Hir) as (r & -> & ->). cbn [result_bind]. unfold has at 1.
       destruct (row cfg i) eqn:Hr; [|done]. rewrite (enableEnd_Ok cfg); [done| |done].
       eapply endAt_total; [done|by rewrite Hr|done]. }
  cbn [result_bind]. rewrite (enable_loop has (inc i cfg) false).
  2: { intros j rn Hj. destruct (Hidx rn j Hj) as (r & -> & ->). cbn [result_bind]. unfold has.
       destruct (row cfg j) eqn:Hr; [|done]. rewrite (enableEnd_Ok cfg); [done| |done].
       eapply endAt_total; [done|by rewrite Hr|done]. }
  assert (∀ a b e, endAt cfg a b = Some e → has a = true) as Hhas.
  { intros a b e He. apply bool_decide_true. unfold endAt in He. by destruct (row cfg a). }
  split; [|split; [done..|by simpl; rewrite !(proj1 (enableAll_spec _ _ _ _ _)), union_empty_l_L]].
  eapply (toggle_ok S _ i false (λ _, has i) has cfg Hok Hi).
  - set_solver.
  - by rewrite bool_decide_false by set_solver.
  - set_solver.
  - intros j Hj Hh. split; [by apply Hend|done].
  - intros j Hj Hh. split; [by apply Hend|done].
  - intros j e He Hh. by rewrite (Hhas _ _ _ He) in Hh.
  - intros j e He Hh. by rewrite (Hhas _ _ _ He) in Hh.
Qed.

(** ** Crashing and starting *)

Lemma crash1_ok S i cfg :
  cfg_ok S cfg → 0 ≤ i < cfg.(cn) →
  safe (λ cfg', cfg_ok (S ∖ {[i]}) cfg' ∧ keeps [] cfg cfg') (crash1 i cfg).
Proof.
  intros Hok Hi. eapply safe_bind; [by apply disconnect_ok|]. intros cfg' ([] & []). by split.
Qed.

(** The ends [start1] makes. *)
Lemma makeEnds name body l cfg rn :
  (∀ j rn, j ∈ l → body j (set_cnet rn cfg) =
     (rn <- MakeEnd (name j) rn; Ok (set_cnet (Connect (name j) j rn) cfg))%result) →
  NoDup (name <$> l) → Forall (λ x, x ∉ rn.(ends)) (name <$> l) →
  safe (λ cfg', ∃ rn', cfg' = set_cnet rn' cfg ∧ rn'.(ends) = list_to_set (name <$> l) ∪ rn.(ends) ∧
    (∀ x, x ∈ rn.(ends) → isEnabled rn' x = isEnabled rn x ∧ connectionOf rn' x = connectionOf rn x) ∧
    (∀ j, j ∈ l → isEnabled rn' (name j) = false ∧ connectionOf rn' (name j) = Some j))
    (forEach body l (set_cnet rn cfg)).
Proof.
  revert rn. induction l as [|j l IH]; intros rn Hb Hnd Hfresh.
  { exists rn. split_and!; [done|by cbn; rewrite union_empty_l_L|done|by intros j Hj%elem_of_nil]. }
  apply NoDup_cons in Hnd as [Hj Hnd]. apply Forall_cons in Hfresh as [Hfj Hfresh].
  cbn [forEach]. rewrite Hb by constructor. unfold MakeEnd. rewrite decide_False by done.
  cbn [result_bind]. set (rn1 := Connect _ _ _).
  assert (ends rn1 = {[name j]} ∪ ends rn) as He1 by done.
  assert (isEnabled rn1 (name j) = false ∧ connectionOf rn1 (name j) = Some j) as [Hen1 Hco1].
  { unfold isEnabled, connectionOf. simpl. by rewrite !lookup_insert_eq. }
  assert (∀ x, x ≠ name j → isEnabled rn1 x = isEnabled rn x ∧ connectionOf rn1 x = connectionOf rn x) as Hold1.
  { intros x Hx. unfold isEnabled, connectionOf. simpl. by rewrite !lookup_insert_ne. }
  assert (∀ x, x ∈ ends rn1 ↔ x = name j ∨ x ∈ ends rn) as Hin1.
  { intros x. by rewrite He1, elem_of_union, elem_of_singleton. }
  clearbody rn1. eapply safe_impl; [apply IH; [by intros; apply Hb; constructor|done|]|].
  { rewrite Forall_forall in Hfresh |- *. intros x Hx [->|Hx']%Hin1; [done|]. by eapply Hfresh. }
  intros cfg' (rn' & -> & He' & Hold & Hnew). exists rn'. split_and!.
  - done.
  - rewrite He', He1. clear. set_solver.
  - intros x Hx. destruct (Hold x) as [-> ->]; [by apply Hin1; right|]. apply Hold1. by intros ->.
  - intros j' [->|Hj']%elem_of_cons; [|by apply Hnew].
    destruct (Hold (name j)) as [-> ->]; [by apply Hin1; left|done].
Qed.

Lemma row_insert cfg rn i l j :
  0 ≤ i < len cfg.(endnames) →
  row (mkConfig rn cfg.(cn) cfg.(connected) (<[Z.to_nat i := Some l]> cfg.(endnames))) j =
  if decide (j = i) then Some l else row cfg j.
Proof.
  intros Hi. unfold row. simpl. case_decide as Hj.
  - subst. by rewrite slice_get_insert_eq.
  - by rewrite slice_get_insert_ne by lia.
Qed.

Lemma start1_ok S i names srv cfg :
  cfg_ok S cfg → 0 ≤ i < cfg.(cn) → len names = cfg.(cn) →
  NoDup names → (∀ x, x ∈ names → x ∉ cfg.(cnet).(ends)) →
  safe (λ cfg', cfg_ok (S ∖ {[i]}) cfg' ∧ keeps names cfg cfg' ∧ is_Some (row cfg' i)) (start1 i names srv cfg).
Proof.
  intros Hok0 Hi Hlen Hnd Hfresh. eapply safe_bind; [by apply (crash1_ok S)|].
  intros cfg1 (Hok & [Hcn Hrows Hends1]). cbn beta. rewrite <- Hcn in Hi, Hlen.
  rewrite list_to_set_nil, union_empty_l_L in Hends1. rewrite <- Hends1 in Hfresh.
  unfold slice_set. rewrite decide_True by (by rewrite (co_endnames _ _ Hok)). cbn [result_bind].
  set (cfg2 := mkConfig _ _ _ _). set (name := λ j, default "" (slice_get names j)).
  assert (∀ j, row cfg2 j = if decide (j = i) then Some names else row cfg1 j) as Hrow2.
  { intros j. apply row_insert. by rewrite (co_endnames _ _ Hok). }
  assert (∀ j, j ∈ range (cn cfg1) → endAt cfg2 i j = Some (name j)) as Hi2.
  { intros j Hj%elem_of_range. unfold endAt. rewrite Hrow2, decide_True by done. simpl. unfold name.
    destruct (slice_get_inr names j) as [e ->]; [by rewrite Hlen|done]. }
  assert (name <$> range (cn cfg1) = names) as Hnames by (rewrite <- Hlen; apply fmap_range_get).
  eapply (safe_bind (λ cfg', cfg_ok (S ∖ {[i]}) cfg' ∧ keeps names cfg2 cfg')).
  - eapply safe_impl; [apply (makeEnds name _ (range (cn cfg1)) cfg2 (cnet cfg1))|].
    { intros j rn Hj. by rewrite (endname_Ok cfg2 _ i j (name j)) by (by rewrite ?Hi2). }
    { by rewrite Hnames. }
    { rewrite Hnames. by apply Forall_forall. }
    rewrite Hnames. intros cfg' (rn' & -> & Hends' & Hold & Hnew). split; [|by split].
    assert (∀ j, j ∈ range (cn cfg1) → name j ∈ names) as Hin.
    { intros j Hj. rewrite <- Hnames. apply list_elem_of_fmap. eauto. }
    destruct Hok as [Hlc Hle Hrow Hon Hst Hinj Hends Hroute Hen].
    assert (∀ a b e, endAt (set_cnet rn' cfg2) a b = Some e →
      if decide (a = i) then b ∈ range (cn cfg1) ∧ e = name b else endAt cfg1 a b = Some e) as Hcase.
    { intros a b e. unfold endAt. change (row (set_cnet rn' cfg2) a) with (row cfg2 a). rewrite Hrow2.
      case_decide; [|done]. simpl. intros He. split; [|by unfold name; rewrite He].
      apply elem_of_range. apply slice_get_bound in He. lia. }
    split; simpl.
    + done.
    + by rewrite len_insert.
    + intros a l. change (row (set_cnet rn' cfg2) a) with (row cfg2 a). rewrite Hrow2.
      case_decide; [|by apply Hrow]. by intros [= <-].
    + done.
    + intros a Ha. change (row (set_cnet rn' cfg2) a) with (row cfg2 a). rewrite Hrow2.
      case_decide; [by eexists|]. by apply Hst.
    + intros a b a' b' e He%Hcase He'%Hcase. destruct (decide (a = i)) as [->|], (decide (a' = i)) as [->|].
      * destruct He as [Hb ->], He' as [Hb' Hn]. split; [done|].
        destruct (Hnew b Hb) as [_ Hc], (Hnew b' Hb') as [_ Hc']. rewrite Hn in Hc. congruence.
      * destruct He as [Hb ->]. exfalso. eapply Hfresh; [by apply Hin|]. by eapply Hends.
      * destruct He' as [Hb' ->]. exfalso. eapply Hfresh; [by apply Hin|]. by eapply Hends.
      * by eapply Hinj.
    + intros a b e He%Hcase. rewrite Hends'. case_decide.
      * destruct He as [Hb ->]. apply elem_of_union_l, elem_of_list_to_set. by apply Hin.
      * by eapply elem_of_union_r, Hends.
    + intros a b e He%Hcase. case_decide.
      * destruct He as [Hb ->]. by apply Hnew.
      * destruct (Hold e) as [_ ->]; [by eapply Hends|]. by eapply Hroute.
    + intros a b e He%Hcase. case_decide as Ha.
      * destruct He as [Hb ->]. subst a. rewrite (bool_decide_false (i ∈ _)) by set_solver. by apply Hnew.
      * destruct (Hold e) as [-> _]; [by eapply Hends|]. by eapply Hen.
  - intros cfg3 [Hok3 [Hcn3 Hr3 He3]]. split; [by destruct Hok3|]. split.
    + split; [simpl in *; congruence| |simpl in *; congruence]. intros j Hj%Hrows. apply Hr3. rewrite Hrow2. case_decide; [by eexists|done].
    + apply (Hr3 i). rewrite Hrow2, decide_True by done. by eexists.
Qed.

(** ** The whole set-up *)

Definition op_ok (n : Z) (op : cfgOp) : Prop :=
  match op with
  | OConnect i | ODisconnect i | OCrash i => 0 ≤ i < n
  | OStart i names _ => 0 ≤ i < n ∧ len names = n
  end.

(** The random names an operation draws. *)
Definition drawn (op : cfgOp) : list string :=
  match op with OStart _ names _ => names | _ => [] end.

(** All servers have been started, with ends that are not called [later]. *)
Definition ready (n : Z) (later : list string) (S : gset Z) (cfg : config) : Prop :=
  cfg_ok S cfg ∧ cfg.(cn) = n ∧ (∀ i, 0 ≤ i < n → is_Some (row cfg i)) ∧
  ∀ x, x ∈ later → x ∉ cfg.(cnet).(ends).

Lemma ready_keeps n later new S S' cfg cfg' :
  ready n (new ++ later) S cfg → NoDup (new ++ later) → cfg_ok S' cfg' → keeps new cfg cfg' →
  ready n later S' cfg'.
Proof.
  intros (_ & <- & Hrow & Hno) (_ & Hdis & _)%NoDup_app Hok' [Hcn Hk Hends]. split_and!; [done..|by auto|].
  intros x Hx. rewrite Hends. specialize (Hno x). specialize (Hdis x). set_solver.
Qed.

Lemma runOp_ready n later S op cfg :
  ready n (drawn op ++ later) S cfg → NoDup (drawn op ++ later) → op_ok n op →
  safe (ready n later (online op S)) (runOp op cfg).
Proof.
  intros Hr Hnd Hop. assert (Hr' := Hr). destruct Hr' as (Hok & <- & Hrow & Hno). destruct op; simpl in *.
  - eapply safe_impl; [by apply connect_ok; auto|]. intros cfg' []. by eapply (ready_keeps _ _ []).
  - eapply safe_impl; [by apply disconnect_ok|]. intros cfg' []. by eapply (ready_keeps _ _ []).
  - eapply safe_impl; [by apply crash1_ok|]. intros cfg' []. by eapply (ready_keeps _ _ []).
  - destruct Hop. eapply safe_impl.
    + apply start1_ok; [done..|by apply NoDup_app in Hnd as [? _]|]. intros x Hx. apply Hno. set_solver.
    + intros cfg' (? & ? & _). by eapply ready_keeps.
Qed.

Lemma runOps_ready n later S ops cfg :
  ready n ((ops ≫= drawn) ++ later) S cfg → NoDup ((ops ≫= drawn) ++ later) → Forall (op_ok n) ops →
  safe (ready n later (foldl (λ S op, online op S) S ops)) (forEach runOp ops cfg).
Proof.
  intros Hr Hnd Hops. revert S cfg Hr Hnd. induction Hops as [|op ops Hop _ IH]; intros S cfg Hr Hnd; [done|].
  cbn [forEach foldl]. rewrite bind_cons, <- app_assoc in Hr, Hnd.
  eapply safe_bind; [by apply runOp_ready|]. intros cfg' Hr'. apply IH; [done|].
  by apply NoDup_app in Hnd as (_ & _ & ?).
Qed.

Lemma blank_ok n unreliable : 0 ≤ n → cfg_ok ∅ (blank n unreliable).
Proof.
  intros Hn.
  assert (∀ i, row (blank n unreliable) i = None) as Hrow.
  { intros i. unfold row. simpl. destruct (slice_get _ i) as [r|] eqn:Hr; [|done].
    unfold slice_get in Hr. case_decide; [|done]. by apply lookup_replicate_1 in Hr as [-> _]. }
  assert (∀ i j, endAt (blank n unreliable) i j = None) as Hend by (intros; unfold endAt; by rewrite Hrow).
  split; try (by intros *; rewrite ?Hrow, ?Hend); simpl.
  - rewrite len_replicate. lia.
  - rewrite len_replicate. lia.
  - intros i c Hc. unfold slice_get in Hc. case_decide; [|done]. apply lookup_replicate_1 in Hc as [-> _].
    by rewrite bool_decide_false by set_solver.
Qed.

Lemma starts_ok n names srv later l cfg :
  (∀ i, i ∈ l → 0 ≤ i < n ∧ len (names i) = n) → NoDup ((l ≫= names) ++ later) →
  (∀ x, x ∈ (l ≫= names) ++ later → x ∉ cfg.(cnet).(ends)) → cfg_ok ∅ cfg → cfg.(cn) = n →
  safe (λ cfg', cfg_ok ∅ cfg' ∧ keeps (l ≫= names) cfg cfg' ∧ ∀ i, i ∈ l → is_Some (row cfg' i))
    (forEach (λ i cfg, start1 i (names i) (srv i) cfg) l cfg).
Proof.
  revert cfg. induction l as [|i l IH]; intros cfg Hl Hnd Hno Hok Hcn.
  { split_and!; [done|by split; [..|set_solver]|set_solver]. }
  cbn [forEach]. destruct (Hl i) as [Hi Hlen]; [set_solver|]. rewrite bind_cons, <- app_assoc in Hnd, Hno.
  apply NoDup_app in Hnd as (Hnd1 & Hdis & Hnd2).
  eapply safe_bind; [apply (start1_ok ∅); subst; [done..|]|].
  { intros x Hx. apply Hno. set_solver. }
  intros cfg1 (Hok1 & [Hcn1 Hk1 He1] & Hrow1).
  assert ((∅ ∖ {[i]} : gset Z) = ∅) as E by set_solver. rewrite E in Hok1.
  eapply safe_impl; [apply IH; [set_solver|done| |done|congruence]|].
  { intros x Hx. rewrite He1. specialize (Hno x). specialize (Hdis x). set_solver. }
  intros cfg' (Hok' & [Hcn' Hk' He'] & Hrow'). split_and!; [done| |].
  - split; [congruence|auto|]. rewrite He', He1, bind_cons. set_solver.
  - intros j [->|Hj]%elem_of_cons; auto.
Qed.

Lemma make_config_ready n unreliable names srv later :
  0 ≤ n → (∀ i, 0 ≤ i < n → len (names i) = n) → NoDup ((range n ≫= names) ++ later) →
  safe (ready n later (list_to_set (range n))) (make_config n unreliable names srv).
Proof.
  intros Hn Hnames Hnd. unfold make_config. eapply safe_bind.
  { apply (starts_ok n names srv later); [|done|set_solver|by apply blank_ok|done]. intros i Hi%elem_of_range. auto. }
  intros cfg (Hok & [Hcn _ Hends] & Hrow).
  apply NoDup_app in Hnd as (_ & Hdis & Hnd).
  assert (ready n later ∅ cfg) as Hr.
  { split_and!; [done..| |]; [intros i Hi; by apply Hrow, elem_of_range|]. intros x Hx. rewrite Hends. set_solver. }
  assert (∀ l, forEach connect l cfg = forEach runOp (OConnect <$> l) cfg) as ->.
  { intros l. generalize cfg. induction l as [|i l IH]; intros c; [done|]. cbn. destruct (connect i c); [apply IH|done..]. }
  assert (∀ l, (OConnect <$> l) ≫= drawn = []) as Hdrawn by (induction l; [done|by cbn]).
  eapply safe_impl.
  { apply (runOps_ready n later ∅); rewrite ?Hdrawn; [done..|].
    apply Forall_fmap, Forall_forall. intros i Hi%elem_of_range. done. }
  intros cfg'. assert (foldl (λ S op, online op S) ∅ (OConnect <$> range n) = list_to_set (range n)) as Heq; [|by rewrite Heq].
  assert (∀ l (S : gset Z), foldl (λ S op, online op S) S (OConnect <$> l) = list_to_set l ∪ S) as Hf.
  { intros l. induction l as [|i l IH]; intros S; [set_solver|]. cbn. rewrite IH. set_solver. }
  rewrite Hf. set_solver.
Qed.

(** C35. Partitions: [make_config] and any sequence of connecting,
    disconnecting, crashing and starting servers run to the end, provided that
    the random end names are distinct; then the client end from [i] to [j]
    exists, leads to server [j] and is enabled exactly when both have been
    connected since they were last disconnected, crashed or started. *)
Theorem partition_matrix n unreliable names srv ops :
  0 ≤ n → (∀ i, 0 ≤ i < n → len (names i) = n) → Forall (op_ok n) ops →
  NoDup ((range n ≫= names) ++ (ops ≫= drawn)) →
  let S := foldl (λ S op, online op S) (list_to_set (range n)) ops in
  ∃ cfg0 cfg, make_config n unreliable names srv = Ok cfg0 ∧ forEach runOp ops cfg0 = Ok cfg ∧
    ∀ i j, 0 ≤ i < n → 0 ≤ j < n →
      ∃ e, endAt cfg i j = Some e ∧ connectionOf cfg.(cnet) e = Some j ∧
           (isEnabled cfg.(cnet) e = true ↔ i ∈ S ∧ j ∈ S).
Proof.
  intros Hn Hnames Hops Hnd S. pose proof (make_config_ready n unreliable names srv _ Hn Hnames Hnd) as Hr.
  destruct (make_config n unreliable names srv) as [cfg0| |]; [|done..].
  apply NoDup_app in Hnd as (_ & _ & Hnd).
  pose proof (runOps_ready n [] (list_to_set (range n)) ops cfg0) as Hr'. rewrite app_nil_r in Hr'. specialize (Hr' Hr Hnd Hops).
  destruct (forEach runOp ops cfg0) as [cfg| |] eqn:Hcfg; [|done..]. exists cfg0, cfg. split_and!; [done..|].
  intros i j Hi Hj. destruct Hr' as (Hok & Hcn & Hrow & _).
  destruct (endAt_total _ cfg i j Hok (Hrow i Hi)) as [e He]; [by apply elem_of_range; rewrite Hcn|].
  exists e. split_and!; [done|by eapply co_route|]. rewrite (co_enabled _ _ Hok i j e He).
  by rewrite andb_true_iff, !bool_decide_eq_true.
Qed.
