(* ===== verification/TesterTables.v ===== *)
(** * What the tester's operations do to the network's tables

    Tester.v shows that [connect], [disconnect], [crash1] and [start1] succeed
    and keep the tables in order.  Here is what they leave alone: no operation
    redirects an end, takes one away, or enables one that is not in
    [cfg.endnames] any more. *)
From S2P Require Import Prelude GoStrings LabRpc Tester.

(** [connect] and [disconnect] only switch ends that are in [endnames], on or off. *)
Record toggles (yes : bool) (cfg cfg' : config) : Prop := {
  tg_cn : cfg'.(cn) = cfg.(cn);
  tg_endnames : cfg'.(endnames) = cfg.(endnames);
  tg_ends : cfg'.(cnet).(ends) = cfg.(cnet).(ends);
  tg_servers : cfg'.(cnet).(servers) = cfg.(cnet).(servers);
  tg_connections : cfg'.(cnet).(connections) = cfg.(cnet).(connections);
  tg_enabled : ∀ e, isEnabled cfg'.(cnet) e = true →
    isEnabled cfg.(cnet) e = true ∨ yes = true ∧ ∃ a b, endAt cfg a b = Some e
}.

Lemma toggles_row cfg cfg' a : cfg'.(endnames) = cfg.(endnames) → row cfg' a = row cfg a.
Proof. unfold row. by intros ->. Qed.

Lemma toggles_endAt cfg cfg' a b : cfg'.(endnames) = cfg.(endnames) → endAt cfg' a b = endAt cfg a b.
Proof. intros H. unfold endAt. by rewrite (toggles_row cfg cfg'). Qed.

#[export] Instance toggles_preorder yes : PreOrder (toggles yes).
Proof.
  split.
  - intros cfg. split; auto.
  - intros c1 c2 c3 [Hn1 He1 Hs1 Hv1 Hc1 Hb1] [Hn2 He2 Hs2 Hv2 Hc2 Hb2]. split; try congruence.
    intros e [?|(-> & a & b & Hab)]%Hb2; [by auto|]. right. split; [done|]. exists a, b. by rewrite <- (toggles_endAt c1 c2).
Qed.

Lemma endname_endAt cfg i j e : endname cfg i j = Ok e → endAt cfg i j = Some e.
Proof.
  unfold endname, endAt, row, index. intros (r & Hr & H)%result_bind_Ok.
  destruct (slice_get (endnames cfg) i) as [r'|]; [|done]. injection Hr as ->. destruct r as [l|]; simpl in *.
  - by destruct (slice_get l j); simplify_eq.
  - unfold slice_get in H. by case_decide.
Qed.

Lemma enableEnd_toggles i j yes cfg cfg' : enableEnd i j yes cfg = Ok cfg' → toggles yes cfg cfg'.
Proof.
  unfold enableEnd. intros (e & He%endname_endAt & [= <-])%result_bind_Ok. split; try done. simpl.
  intros x. rewrite isEnabled_Enable. case_decide; [subst x|by left]. intros ->. right. split; [done|]. by exists i, j.
Qed.

Lemma setConnected_toggles i b yes cfg cfg' : setConnected i b cfg = Ok cfg' → toggles yes cfg cfg'.
Proof. unfold setConnected. destruct (slice_set _ _ _); [|done]. intros [= <-]. split; auto. Qed.

(** A loop that switches an end in some of its turns. *)
Ltac toggle_loop H :=
  eapply forEach_rel, H; [apply _|]; intros ??? (b & _ & Hb)%result_bind_Ok;
  destruct b; [by eapply enableEnd_toggles|by simplify_eq].

Lemma connect_toggles i cfg cfg' : connect i cfg = Ok cfg' → toggles true cfg cfg'.
Proof.
  unfold connect. intros (c1 & H1 & (c2 & H2 & H3)%result_bind_Ok)%result_bind_Ok.
  trans c1; [by eapply setConnected_toggles|]. trans c2.
  - toggle_loop H2.
  - toggle_loop H3.
Qed.

Lemma disconnect_toggles i cfg cfg' : disconnect i cfg = Ok cfg' → toggles false cfg cfg'.
Proof.
  unfold disconnect. intros (c1 & H1 & (c2 & H2 & H3)%result_bind_Ok)%result_bind_Ok.
  trans c1; [by eapply setConnected_toggles|]. trans c2.
  - toggle_loop H2.
  - toggle_loop H3.
Qed.

(** ** Ends stay where they are *)

Record retains (cfg cfg' : config) : Prop := {
  rt_ends : cfg.(cnet).(ends) ⊆ cfg'.(cnet).(ends);
  rt_route : ∀ e, e ∈ cfg.(cnet).(ends) → connectionOf cfg'.(cnet) e = connectionOf cfg.(cnet) e;
  rt_enabled : ∀ e, e ∈ cfg.(cnet).(ends) → isEnabled cfg'.(cnet) e = true →
    isEnabled cfg.(cnet) e = true ∨ ∃ a b, endAt cfg' a b = Some e
}.

Lemma toggles_retains yes cfg cfg' : toggles yes cfg cfg' → retains cfg cfg'.
Proof.
  intros [_ Hn He _ Hc Hb]. split.
  - by rewrite He.
  - intros e _. unfold connectionOf. by rewrite Hc.
  - intros e _ [?|(_ & a & b & Hab)]%Hb; [by left|]. right. exists a, b. by rewrite (toggles_endAt cfg).
Qed.

Lemma crash1_retains i cfg cfg' :
  Tester.crash1 i cfg = Ok cfg' →
  cfg'.(cn) = cfg.(cn) ∧ cfg'.(endnames) = cfg.(endnames) ∧ cfg'.(cnet).(ends) = cfg.(cnet).(ends) ∧
  (∀ e, connectionOf cfg'.(cnet) e = connectionOf cfg.(cnet) e) ∧
  (∀ e, isEnabled cfg'.(cnet) e = true → isEnabled cfg.(cnet) e = true) ∧
  ∀ x, serverAt cfg'.(cnet) x = if decide (x = i) then None else serverAt cfg.(cnet) x.
Proof.
  unfold Tester.crash1. intros (c1 & H1%disconnect_toggles & [= <-])%result_bind_Ok.
  destruct H1 as [Hn He Hends Hs Hc Hb]. split_and!; [done..| | |].
  - intros e. unfold connectionOf. simpl. by rewrite Hc.
  - by intros e [?|[? _]]%Hb.
  - intros x. unfold serverAt. simpl. rewrite Hs. case_decide; [subst; by rewrite lookup_insert_eq|by rewrite lookup_insert_ne].
Qed.

(** The loop of [start1] that makes ends succeeds only with fresh, distinct names. *)
Lemma makeEnds_fresh name body l cfg rn cfg' :
  (∀ j rn, j ∈ l → body j (set_cnet rn cfg) =
     (rn <- MakeEnd (name j) rn; Ok (set_cnet (Connect (name j) j rn) cfg))%result) →
  forEach body l (set_cnet rn cfg) = Ok cfg' →
  NoDup (name <$> l) ∧ Forall (λ x, x ∉ rn.(ends)) (name <$> l).
Proof.
  revert rn. induction l as [|j l IH]; intros rn Hb; cbn [forEach fmap list_fmap]; [by repeat constructor|].
  rewrite Hb by constructor. unfold MakeEnd. destruct (decide (name j ∈ ends rn)) as [|Hj]; [done|].
  cbn [result_bind]. intros Hl. apply IH in Hl as [Hnd Hf]; [|by intros; apply Hb; constructor]. simpl in Hf.
  rewrite Forall_forall in Hf. split; constructor.
  - intros Hin. apply (Hf _ Hin). set_solver.
  - done.
  - done.
  - apply Forall_forall. intros x Hx Hr. apply (Hf x Hx). set_solver.
Qed.

Lemma start1_retains S i names srv cfg cfg' :
  cfg_ok S cfg → 0 ≤ i < cfg.(cn) → len names = cfg.(cn) → Tester.start1 i names srv cfg = Ok cfg' →
  cfg'.(cn) = cfg.(cn) ∧ (∀ x, x ∈ names → x ∉ cfg.(cnet).(ends)) ∧ cfg_ok (S ∖ {[i]}) cfg' ∧ retains cfg cfg' ∧
  (∀ a, row cfg' a = if decide (a = i) then Some names else row cfg a) ∧
  ∀ x, serverAt cfg'.(cnet) x = if decide (x = i) then Some srv else serverAt cfg.(cnet) x.
Proof.
  intros Hok Hi Hlen H. pose proof H as H0. unfold Tester.start1 in H.
  apply result_bind_Ok in H as (c1 & Hc1%crash1_retains & H). destruct Hc1 as (Hn1 & He1 & Hends1 & Hr1 & Hen1 & Hsv1).
  apply result_bind_Ok in H as (rows & Hrows & H). destruct (slice_set (endnames c1) i (Some names)) as [rows'|] eqn:Hset; [|done].
  injection Hrows as ->. apply slice_set_Some in Hset as [Hie ->].
  set (c2 := mkConfig (cnet c1) (cn c1) (connected c1) (<[Z.to_nat i := Some names]> (endnames c1))) in *.
  apply result_bind_Ok in H as (c3 & Hloop & [= <-]). set (name := λ j, default "" (slice_get names j)).
  assert (∀ a, row c2 a = if decide (a = i) then Some names else row cfg a) as Hrow2.
  { intros a. unfold c2. rewrite row_insert by done. by rewrite (toggles_row cfg c1). }
  match type of Hloop with forEach ?b _ _ = _ => set (body := b) in * end.
  assert (∀ j rn, j ∈ range (cn c2) → body j (set_cnet rn c2) =
     (rn' <- MakeEnd (name j) rn; Ok (set_cnet (Connect (name j) j rn') c2))%result) as Hbody.
  { intros j rn Hj%elem_of_range. unfold body. rewrite (endname_Ok c2 _ i j (name j)); [done| |done].
    unfold endAt. rewrite Hrow2, decide_True by done. simpl. unfold name.
    destruct (slice_get_inr names j) as [e ->]; [simpl in Hj; lia|done]. }
  change c2 with (set_cnet (cnet c1) c2) in Hloop at 2.
  pose proof (makeEnds_fresh name body (range (cn c2)) c2 (cnet c1) c3 Hbody Hloop) as [Hnd Hfresh].
  pose proof (makeEnds name body (range (cn c2)) c2 (cnet c1) Hbody Hnd Hfresh) as Hmade. rewrite Hloop in Hmade.
  destruct Hmade as (rn' & -> & Hends' & Hold & Hnew).
  assert (name <$> range (cn c2) = names) as Hnames.
  { replace (cn c2) with (len names) by (simpl; lia). apply fmap_range_get. }
  rewrite Hnames in *. rewrite Forall_forall, Hends1 in Hfresh.
  pose proof (start1_ok S i names srv cfg Hok Hi Hlen Hnd Hfresh) as Hst. rewrite H0 in Hst. destruct Hst as (Hok' & _ & _).
  split_and!; [done|done|done| |done|].
  - split; simpl.
    + rewrite Hends', Hends1. set_solver.
    + intros e He. rewrite <- Hends1 in He. destruct (Hold e He) as [_ Hc]. rewrite <- Hr1. exact Hc.
    + intros e He Hen. rewrite <- Hends1 in He. destruct (Hold e He) as [Heq _]. left. apply Hen1. by rewrite <- Heq.
  - assert (servers rn' = servers (cnet c1)) as Hsv.
    { assert (PreOrder (λ c c' : config, servers (cnet c') = servers (cnet c))) as Hpo
        by (split; [by intros ?|by intros ??? H1 H2; rewrite H2]).
      apply (forEach_rel (λ c c', servers (cnet c') = servers (cnet c))) in Hloop; [done|].
      intros j c c' (e & _ & (r & Hm & Hc)%result_bind_Ok)%result_bind_Ok. injection Hc as <-.
      unfold MakeEnd in Hm. case_decide; [done|]. by injection Hm as <-. }
    intros x. unfold serverAt in *. simpl. rewrite Hsv. case_decide as Hx; [by rewrite Hx, lookup_insert_eq|].
    rewrite lookup_insert_ne by done. specialize (Hsv1 x). by rewrite decide_False in Hsv1.
Qed.
