(* ===== verification/RaftNet.v ===== *)
(** * The Raft peers on labrpc, as the tester sets them up

    RaftSystem.v runs the peers on an abstract network.  Here they run on the
    one of src/src/labrpc/labrpc.go (LabRpc.v), set up by src/src/raft/config.go
    (Tester.v): a call encodes its arguments and is carried by [ProcessReq] to
    the server object the caller's end leads to, whose service has the methods
    of one instance of [Raft].  The tester cannot kill an instance.  When it
    crashes a peer it disables its ends, deletes its server and takes a copy of
    its persister; the old instance goes on, its goroutines run, requests that
    were already on their way are executed on it, and it calls others through
    its disabled ends.  RaftNetSim.v shows that this is nevertheless the crash
    of RaftSystem.v. *)
From S2P Require Import Prelude GoStrings RaftNode RaftSystem LabRpc Tester.

(** encoding/gob on the arguments and replies of the RPCs: [gdec] is what
    [Decode] leaves in a fresh variable, and whether it returned no error. *)
Class GobOf (A : Type) := { genc : A → list Z; gdec : list Z → A * bool }.
Class GobOfOk (A : Type) `{!GobOf A} := gdec_genc (a : A) : gdec (genc a) = (a, true).

Class Wire (Cmd : Type) := {
  #[global] wire_rva :: GobOf RequestVoteArgs; #[global] wire_rvr :: GobOf RequestVoteReply;
  #[global] wire_hba :: GobOf HeartbeatArgs; #[global] wire_hbr :: GobOf HeartbeatReply;
  #[global] wire_aea :: GobOf (AppendEntriesArgs Cmd); #[global] wire_aer :: GobOf AppendEntriesReply
}.
Class WireOk (Cmd : Type) `{!Wire Cmd} := {
  #[global] wire_rva_ok :: GobOfOk RequestVoteArgs; #[global] wire_rvr_ok :: GobOfOk RequestVoteReply;
  #[global] wire_hba_ok :: GobOfOk HeartbeatArgs; #[global] wire_hbr_ok :: GobOfOk HeartbeatReply;
  #[global] wire_aea_ok :: GobOfOk (AppendEntriesArgs Cmd); #[global] wire_aer_ok :: GobOfOk AppendEntriesReply
}.

Section raftnet.
Context {Cmd : Type} `{!Gob Cmd, !Wire Cmd}.

(** ** The instances, and their RPC methods *)

(** An instance of [Raft] that [start1] has made, and the peer it is or was. *)
Record inst := mkInst { owner : Z; proc : node Cmd }.

(** What is behind the handlers: all instances ever made, the clock they read,
    and whether one of them has panicked. *)
Record procs := mkProcs { insts : list inst; clock : Env; crashed : bool }.

Definition set_inst (s : nat) (it : inst) (st : procs) : procs :=
  mkProcs (<[s := it]> st.(insts)) st.(clock) st.(crashed).

(** An RPC method of instance [s], called through reflection. *)
Definition receive {A R : Type} `{!GobOf A, !GobOf R} (f : Env → A → Raft Cmd → option (Raft Cmd * R)) (s : nat)
    : handler (St := procs) := λ bs st,
  match st.(insts) !! s with
  | Some it =>
    match f st.(clock) (gdec bs).1 it.(proc).(raft) with
    | Some (rf, r) => (set_inst s (mkInst it.(owner) (update it.(proc) rf [])) st, genc r)
    | None => (mkProcs st.(insts) st.(clock) true, [])
    end
  | None => (st, [])
  end.

(** The exported methods of [*Raft] with what reflection tells of them; the
    function of one that is not suitable is not used. *)
Definition raftMethods (s : nat) : list (methodInfo procs) :=
  let other : handler (St := procs) := λ _ st, (st, []) in
  [mkMethod "AppendEntries" "" 3 true 0 (receive (λ env a rf, Some (AppendEntries env a rf)) s);
   mkMethod "GetState" "" 1 false 2 other;
   mkMethod "Heartbeat" "" 3 true 0 (receive (λ env a rf, Some (Heartbeat env a rf)) s);
   mkMethod "Kill" "" 1 false 0 other;
   mkMethod "RequestVote" "" 3 true 0 (receive RequestVote s);
   mkMethod "Start" "" 2 false 3 other;
   mkMethod "StartElection" "" 1 false 0 other;
   mkMethod "StartHeartbeat" "" 1 false 0 other].

Definition raftService (s : nat) : Service procs := MakeService "Raft" (raftMethods s).

(** ** Calls *)

Definition methodOf (b : rpc Cmd) : string :=
  match b with
  | CRequestVote _ _ _ _ => "Raft.RequestVote"
  | CHeartbeat _ _ _ => "Raft.Heartbeat"
  | CAppendEntries _ _ _ _ => "Raft.AppendEntries"
  end.

Definition argsOf (b : rpc Cmd) : list Z :=
  match b with
  | CRequestVote args _ _ _ => genc args
  | CHeartbeat args _ _ => genc args
  | CAppendEntries args _ _ _ => genc args
  end.

(** [rd.Decode(reply)] of [Call]; an error is fatal. *)
Definition decodeReply (b : rpc Cmd) (bs : list Z) : option (rpc Cmd) :=
  match b with
  | CRequestVote args t n _ => let (r, ok) := gdec bs in if ok : bool then Some (CRequestVote args t n (Some r)) else None
  | CHeartbeat args t _ => let (r, ok) := gdec bs in if ok : bool then Some (CHeartbeat args t (Some r)) else None
  | CAppendEntries args t rest _ =>
    let (r, ok) := gdec bs in if ok : bool then Some (CAppendEntries args t rest (Some r)) else None
  end.

(** A goroutine in [Call], with what it needs when it returns; [wBlocked] until then. *)
Record waiter := mkWaiter { wInst : nat; wDst : Z; wBody : rpc Cmd; wBlocked : bool }.

(** ** The cluster *)

(** A peer is down, with what the tester has saved of it, runs as an instance,
    or is being crashed: its ends are disabled and its server is deleted, but
    its persister is not copied yet. *)
Inductive status := Down (saved : option Persister) | Up (s : nat) | Leaving (s : nat).

(** Request [k] of the network is the one of waiter [k].  [sent] went to the
    apply channels of the running instances, [stray] to those of old ones. *)
Record cluster := mkCluster {
  lab : labnet procs; conf : config; running : gmap Z status;
  waiters : list waiter; sent : list (Z * ApplyMsg Cmd); stray : list (Z * ApplyMsg Cmd)
}.

Definition theInsts (c : cluster) : list inst := c.(lab).(hst).(insts).

(** The instance is its peer's current one. *)
Definition current (c : cluster) (s : nat) (i : Z) : bool :=
  match c.(running) !! i with Some (Up s') | Some (Leaving s') => bool_decide (s' = s) | _ => false end.

(** What an instance does by itself. *)
Inductive act :=
| ALifeRead | ALifeAct (env : Env) | ARun (k : nat) (env : Env) | AApply | AStart (command : Cmd).

Definition node_act (i : Z) (nd : node Cmd) (a : act)
    : outcome (node Cmd * list (call Cmd) * option (ApplyMsg Cmd)) :=
  (match a with
   | ALifeRead => Done (mkNode nd.(raft) nd.(threads) (Some (lifeRead nd.(raft))), [], None)
   | ALifeAct env =>
     s <~ enabled nd.(lifeSnap);
     '(rf, gs) <~ program (lifeAct env s nd.(raft));
     Done (mkNode rf (nd.(threads) ++ gs) None, [], None)
   | ARun k env =>
     g <~ enabled (nd.(threads) !! k);
     '(rf, gs, cs) <~ run_thread env i nd.(raft) g;
     Done (update (drop_thread k nd) rf gs, cs, None)
   | AApply =>
     '(rf, m) <~ program (applyOne nd.(raft));
     Done (update nd rf [], [], m)
   | AStart command =>
     '(rf, _, gs) <~ program (Start command nd.(raft));
     Done (update nd rf gs, [], None)
   end)%outcome.

Inductive xlabel :=
| XNet (l : nlabel procs) (env : Env)        (* a goroutine of the network *)
| XAct (s : nat) (a : act)
| XReturn (k : nat) (env : Env)              (* call [k] returns *)
| XUnreliable (unrel : bool)
| XLongReordering (longrel : bool)
| XConnect (i : Z)
| XDisconnect (i : Z)
| XCrash (i : Z)                             (* [crash1] up to [DeleteServer] *)
| XSave (i : Z)                              (* the rest of [crash1] *)
| XBoot (i : Z) (names : list string) (env : Env).   (* [start1] of a peer that is down *)

Definition set_lab (l : labnet procs) (c : cluster) : cluster :=
  mkCluster l c.(conf) c.(running) c.(waiters) c.(sent) c.(stray).
Definition set_running (m : gmap Z status) (c : cluster) : cluster :=
  mkCluster c.(lab) c.(conf) m c.(waiters) c.(sent) c.(stray).
Definition set_hst (st : procs) (l : labnet procs) : labnet procs := mkNet l.(net) l.(heap) l.(reqs) st.

(** An operation of the tester on the network's tables. *)
Definition tables (c : cluster) : config := set_cnet c.(lab).(net) c.(conf).
Definition retable (cfg : config) (c : cluster) : cluster :=
  mkCluster (set_net cfg.(cnet) c.(lab)) cfg c.(running) c.(waiters) c.(sent) c.(stray).
Definition reconfigure (f : config → result config) (c : cluster) : outcome cluster :=
  (cfg <~ outcome_of (f (tables c)); Done (retable cfg c))%outcome.

(** The steps of [ProcessReq] and of the goroutine that executes a request. *)
Definition carrier (l : nlabel procs) : bool :=
  match l with NAdmin _ | NMakeServer _ | NAddServer _ _ | NCall _ _ _ => false | _ => true end.

(** [rf.peers[p].Call(...)] *)
Definition issue (s : nat) (rf : Raft Cmd) (x : call Cmd) (c : cluster) : outcome cluster :=
  (e <~ program (slice_get rf.(peers) x.(dst));
   l <~ nstep c.(lab) (NCall e (methodOf x.(body)) (argsOf x.(body)));
   Done (mkCluster l c.(conf) c.(running) (c.(waiters) ++ [mkWaiter s x.(dst) x.(body) true]) c.(sent) c.(stray)))%outcome.

Fixpoint issueAll (s : nat) (rf : Raft Cmd) (xs : list (call Cmd)) (c : cluster) : outcome cluster :=
  match xs with
  | [] => Done c
  | x :: xs => (c <~ issue s rf x c; issueAll s rf xs c)%outcome
  end.

Definition put_inst (s : nat) (it : inst) (c : cluster) : cluster :=
  set_lab (set_hst (set_inst s it c.(lab).(hst)) c.(lab)) c.

Definition put_msg (s : nat) (i : Z) (m : option (ApplyMsg Cmd)) (c : cluster) : cluster :=
  match m with
  | None => c
  | Some m =>
    if current c s i
    then mkCluster c.(lab) c.(conf) c.(running) c.(waiters) (c.(sent) ++ [(i, m)]) c.(stray)
    else mkCluster c.(lab) c.(conf) c.(running) c.(waiters) c.(sent) (c.(stray) ++ [(i, m)])
  end.

Definition unblock (k : nat) (w : waiter) (c : cluster) : cluster :=
  mkCluster c.(lab) c.(conf) c.(running) (<[k := mkWaiter w.(wInst) w.(wDst) w.(wBody) false]> c.(waiters))
    c.(sent) c.(stray).

(** What [start1] gives to [Make]. *)
Definition restored (saved : option Persister) : Persister :=
  match saved with Some ps => RaftNode.start1 ps | None => MakePersister end.

(** [start1]: fresh ends, the saved state, a new instance behind a new server. *)
Definition boot (i : Z) (names : list string) (env : Env) (saved : option Persister) (c : cluster) : outcome cluster :=
  let s := length c.(lab).(heap) in
  let it := mkInst i (mkNode (Make env names i (restored saved)) [] None) in
  (cfg <~ outcome_of (Tester.start1 i names s (tables c));
   let st := c.(lab).(hst) in
   let l := mkNet cfg.(cnet) (c.(lab).(heap) ++ [AddService (raftService s) MakeServer]) c.(lab).(reqs)
              (mkProcs (st.(insts) ++ [it]) st.(clock) st.(crashed)) in
   Done (mkCluster l cfg (<[i := Up s]> c.(running)) c.(waiters) c.(sent) c.(stray)))%outcome.

Definition xstep (c : cluster) (l : xlabel) : outcome cluster :=
  (match l with
   | XNet l env =>
     if carrier l then
       let st := c.(lab).(hst) in
       lab <~ nstep (set_hst (mkProcs st.(insts) env st.(crashed)) c.(lab)) l;
       if lab.(hst).(crashed) then Panicked else Done (set_lab lab c)
     else Disabled
   | XAct s a =>
     it <~ enabled (theInsts c !! s);
     '(nd, xs, m) <~ node_act it.(owner) it.(proc) a;
     issueAll s nd.(raft) xs (put_msg s it.(owner) m (put_inst s (mkInst it.(owner) nd) c))
   | XReturn k env =>
     w <~ enabled (c.(waiters) !! k);
     q <~ enabled (c.(lab).(reqs) !! k);
     rep <~ enabled q.(qAnswer);
     it <~ enabled (theInsts c !! w.(wInst));
     if w.(wBlocked) then
       let rf := it.(proc).(raft) in
       '(rf, gs) <~ (if rep.(rok) then
                       b <~ program (decodeReply w.(wBody) rep.(rreply));
                       return_ok env w.(wDst) b rf
                     else Done (return_fail env w.(wDst) w.(wBody) rf));
       Done (unblock k w (put_inst w.(wInst) (mkInst it.(owner) (update it.(proc) rf gs)) c))
     else Disabled
   | XUnreliable b => reconfigure (λ cfg, Ok (setunreliable b cfg)) c
   | XLongReordering b => reconfigure (λ cfg, Ok (setlongreordering b cfg)) c
   | XConnect i =>
     match c.(running) !! i with
     | Some (Up _) => reconfigure (connect i) c
     | _ => Disabled
     end
   | XDisconnect i =>
     _ <~ enabled (c.(running) !! i);
     reconfigure (disconnect i) c
   | XCrash i =>
     match c.(running) !! i with
     | Some (Up s) => c <~ reconfigure (Tester.crash1 i) c; Done (set_running (<[i := Leaving s]> c.(running)) c)
     | _ => Disabled
     end
   | XSave i =>
     match c.(running) !! i with
     | Some (Leaving s) =>
       it <~ enabled (theInsts c !! s);
       Done (set_running (<[i := Down (Some (RaftNode.crash1 it.(proc).(raft).(persister)))]> c.(running)) c)
     | _ => Disabled
     end
   | XBoot i names env =>
     match c.(running) !! i with
     | Some (Down saved) => if decide (len names = c.(conf).(cn)) then boot i names env saved c else Disabled
     | _ => Disabled
     end
   end)%outcome.

(** [make_config] before it starts the peers. *)
Definition cinit (n : Z) (unreliable : bool) : cluster :=
  let cfg := blank n unreliable in
  mkCluster (mkNet cfg.(cnet) [] [] (mkProcs [] (mkEnv 0 0) false)) cfg
    (list_to_map ((λ i, (i, Down None)) <$> range n)) [] [] [].

Definition xsteps : cluster → cluster → Prop := rtc (λ c c', ∃ l, xstep c l = Done c').
End raftnet.

Arguments inst : clear implicits.
Arguments procs : clear implicits.
Arguments cluster : clear implicits.
Arguments waiter : clear implicits.
Arguments act : clear implicits.
Arguments xlabel : clear implicits.
