(* ===== verification/RaftNetSim.v ===== *)
(** * The cluster on labrpc refines the abstract cluster

    Every execution of RaftNet.v is an execution of RaftSystem.v: the running
    instances are the peers, and the requests that a running instance made and
    whose [Call] has not succeeded are the calls.  What an instance does after
    its persister has been copied has no counterpart: nothing it sends is
    executed, because its ends are disabled for good, and nothing it is sent is
    answered, because its server is deleted.  This file has the relation between
    the two and the steps of the network and of the instances; RaftNetRefines.v
    has those of the tester, and the theorem. *)
From S2P Require Import Prelude GoStrings RaftNode RaftInv RaftEvolve RaftSystem RaftSafety LabRpc Tester TesterTables RaftNet.

Section netsim.
Context {Cmd : Type} `{!Gob Cmd, !GobOk Cmd, !Wire Cmd, !WireOk Cmd}.
Implicit Types (c : cluster Cmd) (w : world Cmd) (wt : waiter Cmd) (q : request (St := procs Cmd)) (x : call Cmd).

(** ** The relation *)

(** Whose instance [s] is, and its ends. *)
Definition ident c (s : nat) : option (Z * list string) :=
  (λ it, (it.(owner), it.(proc).(raft).(peers))) <$> theInsts c !! s.

Definition noReply (b : rpc Cmd) : Prop :=
  match b with CRequestVote _ _ _ r => r = None | CHeartbeat _ _ r => r = None | CAppendEntries _ _ _ r => r = None end.

(** The request has gone nowhere. *)
Definition idle q : Prop := q.(qExec) = HNone ∧ (q.(qStage) = QNew ∨ q.(qStage) = QOffline ∨ q.(qStage) = QDone).

(** The request is bound to server [s] under the name [m]. *)
Definition target (m : Z) (s : nat) q : Prop :=
  match q.(qStage) with
  | QBound m' s' _ _ | QWaiting m' s' _ _ | QLeft m' s' _ _ _ => m' = m ∧ s' = s
  | _ => True
  end ∧
  match q.(qExec) with
  | HReady s' => s' = s
  | HFound svc meth => svc = raftService s ∧ splitLast q.(qMeth) = Some ("Raft", meth)
  | _ => True
  end.

(** [Call] will return true, or has. *)
Definition promised q : Prop :=
  (∃ rep, q.(qStage) = QDelayed rep) ∨ ∃ rep, q.(qAnswer) = Some rep ∧ rep.(rok) = true.

(** The call that stands for a request of a goroutine of peer [i]. *)
Definition call_of c (i : Z) wt x : Prop :=
  x.(src) = i ∧ x.(dst) = wt.(wDst) ∧ x.(waiting) = wt.(wBlocked) && current c wt.(wInst) i.

(** What its body says: the request has not been executed, or only by an old
    instance, and then it is not answered; or it has been, with this reply. *)
Definition executed c wt q (s : nat) (b : rpc Cmd) : Prop :=
  (b = wt.(wBody) ∧ ¬ promised q ∧ (ran q = None ∨ current c s wt.(wDst) = false)) ∨
  ∃ bs, ran q = Some bs ∧ decodeReply wt.(wBody) bs = Some b.

Inductive carried c (i : Z) wt q : option (call Cmd) → Prop :=
| ca_ghost : idle q → current c wt.(wInst) i = false → carried c i wt q None
| ca_done bs : wt.(wBlocked) = false → q.(qStage) = QDone → ran q = Some bs → carried c i wt q None
| ca_idle x : idle q → call_of c i wt x → x.(body) = wt.(wBody) → carried c i wt q (Some x)
| ca_bound s ps x :
    ident c s = Some (wt.(wDst), ps) → target wt.(wDst) s q →
    call_of c i wt x → executed c wt q s x.(body) → carried c i wt q (Some x).

Record request_ok c wt q (o : option (call Cmd)) : Prop := {
  ro_meth : q.(qMeth) = methodOf wt.(wBody);
  ro_args : q.(qArgs) = argsOf wt.(wBody);
  ro_body : noReply wt.(wBody);
  ro_inst : ∃ i ps, ident c wt.(wInst) = Some (i, ps) ∧ slice_get ps wt.(wDst) = Some q.(qEnd) ∧ carried c i wt q o
}.

(** The ends of an instance lead to the peers in order; those of an old one are
    disabled, and no running peer has them. *)
Definition inst_ok c (s : nat) (i : Z) (ps : list string) : Prop :=
  ∀ j e, slice_get ps j = Some e →
    e ∈ c.(lab).(net).(ends) ∧ connectionOf c.(lab).(net) e = Some j ∧
    (current c s i = false → isEnabled c.(lab).(net) e = false ∧
       ∀ a b s', endAt (tables c) a b = Some e → c.(running) !! a ≠ Some (Up s')).

(** Peer [i] of the abstract cluster. *)
Definition peer_ok c w (i : Z) (st : status) : Prop :=
  match st with
  | Up s | Leaving s => ∃ nd, theInsts c !! s = Some (mkInst i nd) ∧ w.(nodes) !! i = Some nd ∧
      row (tables c) i = Some nd.(raft).(peers)
  | Down saved => ∃ nd, w.(nodes) !! i = Some nd ∧ RaftNode.start1 nd.(raft).(persister) = restored saved
  end.

Record tables_ok (n : Z) (S : gset Z) c : Prop := {
  to_cfg : cfg_ok S (tables c);
  to_cn : c.(conf).(cn) = n;
  to_online i : i ∈ S → ∃ s, c.(running) !! i = Some (Up s);
  to_server i s : serverAt c.(lab).(net) i = Some s → c.(running) !! i = Some (Up s);
  to_range i : is_Some (c.(running) !! i) → 0 ≤ i < n
}.

Record servers_are c : Prop := {
  sr_length : length c.(lab).(heap) = length (theInsts c);
  sr_service s rs : c.(lab).(heap) !! s = Some rs → rs.(services) = {["Raft" := raftService s]};
  sr_net : net_ok (λ _ _, True) c.(lab);
  sr_crashed : c.(lab).(hst).(crashed) = false
}.

(** [pend] are calls the abstract step has made and the concrete one has yet to. *)
Record simul (n : Z) (S : gset Z) c w (os : list (option (call Cmd))) (pend : list (call Cmd)) : Prop := {
  si_tables : tables_ok n S c;
  si_servers : servers_are c;
  si_insts s i ps : ident c s = Some (i, ps) → inst_ok c s i ps;
  si_peers i st : c.(running) !! i = Some st → peer_ok c w i st;
  si_calls : w.(calls) = omap id os ++ pend;
  si_len : length c.(waiters) = length c.(lab).(reqs) ∧ length os = length c.(lab).(reqs);
  si_reqs k wt q o : c.(waiters) !! k = Some wt → c.(lab).(reqs) !! k = Some q → os !! k = Some o → request_ok c wt q o;
  si_applied : w.(applied) = c.(sent)
}.

(** ** Lists with holes *)

Lemma omap_id_lookup {A} (os : list (option A)) k a :
  os !! k = Some (Some a) →
  ∃ k', omap id os !! k' = Some a ∧
    (∀ a', omap id (<[k := Some a']> os) = <[k' := a']> (omap id os)) ∧
    omap id (<[k := None]> os) = delete k' (omap id os).
Proof.
  revert k. induction os as [|o os IH]; intros [|k] Hk; [done|done| |].
  - injection Hk as ->. exists 0%nat. by split_and!.
  - destruct (IH k Hk) as (k' & H1 & H2 & H3). destruct o as [b|].
    + exists (S k'). split_and!; [done|intros a'; exact (f_equal (cons b) (H2 a'))|exact (f_equal (cons b) H3)].
    + by exists k'.
Qed.

(** ** Steps that leave the tables alone *)

(** The network's tables, the peers' status and the instances' identities are
    the same. *)
Record alike c c' : Prop := {
  al_net : c'.(lab).(net) = c.(lab).(net);
  al_conf : c'.(conf) = c.(conf);
  al_running : c'.(running) = c.(running);
  al_ident s : ident c' s = ident c s
}.

Lemma alike_current c c' s i : alike c c' → current c' s i = current c s i.
Proof. intros [_ _ Hr _]. unfold current. by rewrite Hr. Qed.

Lemma alike_tables c c' : alike c c' → tables c' = tables c.
Proof. intros [Hn Hc _ _]. unfold tables. by rewrite Hn, Hc. Qed.

Lemma carried_mono c c' i wt q o :
  (∀ s i ps, ident c s = Some (i, ps) → ident c' s = Some (i, ps) ∧ current c' s i = current c s i) →
  (∃ ps, ident c wt.(wInst) = Some (i, ps)) → carried c i wt q o → carried c' i wt q o.
Proof.
  intros H (psi & Hi%H) Hc. destruct Hi as [_ Hcur].
  assert (∀ x, call_of c i wt x → call_of c' i wt x) as Hof by (unfold call_of; intros x (-> & -> & ->); by rewrite Hcur).
  destruct Hc as [? Hg|bs ???|x ???|s ps x Hs Ht Hx Hex].
  - apply ca_ghost; [done|by rewrite Hcur].
  - by eapply ca_done.
  - by apply ca_idle; auto.
  - destruct (H _ _ _ Hs) as [Hs' Hcs]. eapply ca_bound; [exact Hs'|done|by auto|]. unfold executed in *. by rewrite Hcs.
Qed.

Lemma request_ok_mono c c' wt q o :
  (∀ s i ps, ident c s = Some (i, ps) → ident c' s = Some (i, ps) ∧ current c' s i = current c s i) →
  request_ok c wt q o → request_ok c' wt q o.
Proof.
  intros H [Hm Ha Hb (i & ps & Hi & He & Hc)]. split; [done..|]. exists i, ps. split_and!; [by apply H|done|].
  eapply carried_mono; [done|by exists ps|done].
Qed.

Lemma alike_request c c' wt q o : alike c c' → request_ok c wt q o → request_ok c' wt q o.
Proof.
  intros H. apply request_ok_mono. intros s i ps Hs. split; [by rewrite (al_ident _ _ H)|by apply alike_current].
Qed.

Lemma alike_inst c c' s i ps : alike c c' → inst_ok c s i ps → inst_ok c' s i ps.
Proof.
  intros H Hi j e He. rewrite (alike_tables _ _ H), (alike_current _ _ _ _ H), (al_net _ _ H), (al_running _ _ H). by apply Hi.
Qed.

Lemma alike_tables_ok n S c c' : alike c c' → tables_ok n S c → tables_ok n S c'.
Proof.
  intros H [H1 H2 H3 H4 H5]. pose proof (alike_tables _ _ H) as Ht. destruct H as [Hn Hc Hr _].
  split; rewrite ?Ht, ?Hn, ?Hc, ?Hr; done.
Qed.

(** *** An instance moves *)

Lemma put_insts c s it s' :
  theInsts (put_inst s it c) !! s' = if decide (s = s' ∧ is_Some (theInsts c !! s)) then Some it else theInsts c !! s'.
Proof.
  unfold theInsts, put_inst. simpl. generalize (insts (hst (lab c))). intros l. case_decide as H.
  - destruct H as [<- Hs%lookup_lt_is_Some]. by apply list_lookup_insert_eq.
  - destruct (decide (s = s')) as [<-|]; [|by apply list_lookup_insert_ne].
    destruct (l !! s) eqn:Hs; [by destruct H|]. apply lookup_ge_None in Hs. by rewrite list_insert_ge, lookup_ge_None_2 by done.
Qed.

Lemma put_alike c s it nd' :
  theInsts c !! s = Some it → nd'.(raft).(peers) = it.(proc).(raft).(peers) →
  alike c (put_inst s (mkInst it.(owner) nd') c).
Proof.
  intros Hs Hp. split; [done..|]. intros s'. unfold ident. rewrite put_insts. case_decide as H; [|done].
  destruct H as [<- _]. rewrite Hs. simpl. by rewrite Hp.
Qed.

Lemma current_status c s i :
  current c s i = true → c.(running) !! i = Some (Up s) ∨ c.(running) !! i = Some (Leaving s).
Proof.
  unfold current. destruct (running c !! i) as [[| |]|]; try done; intros ->%bool_decide_eq_true; auto.
Qed.

Lemma status_current c s i :
  c.(running) !! i = Some (Up s) ∨ c.(running) !! i = Some (Leaving s) → current c s i = true.
Proof. unfold current. intros [-> | ->]; by apply bool_decide_true. Qed.

(** A current instance is its abstract peer. *)
Lemma current_peer n S c w os pend s it :
  simul n S c w os pend → theInsts c !! s = Some it → current c s it.(owner) = true →
  w.(nodes) !! it.(owner) = Some it.(proc).
Proof.
  intros H Hs [Hr|Hr]%current_status; apply (si_peers _ _ _ _ _ _ H) in Hr as (nd & Hi & Hn & _); rewrite Hs in Hi;
    destruct it as [i nd0]; by simplify_eq/=.
Qed.

Lemma simul_put n S c w os pend s it nd' :
  simul n S c w os pend → theInsts c !! s = Some it → nd'.(raft).(peers) = it.(proc).(raft).(peers) →
  simul n S (put_inst s (mkInst it.(owner) nd') c)
    (mkWorld (if current c s it.(owner) then <[it.(owner) := nd']> w.(nodes) else w.(nodes)) w.(calls) w.(applied)) os pend.
Proof.
  intros H Hs Hp. pose proof (put_alike c s it nd' Hs Hp) as Hal. destruct H as [Ht Hv Hi Hpe Hc Hl Hr Ha].
  split; try done.
  - by eapply alike_tables_ok.
  - destruct Hv as [H1 H2 [H3 H4 H5] H6]. split; [|done|by split|done]. unfold theInsts, put_inst. simpl. by rewrite length_insert.
  - intros s' i ps. rewrite (al_ident _ _ Hal). intros Hid. by eapply alike_inst, Hi.
  - intros i st Hst. rewrite (al_running _ _ Hal) in Hst. pose proof (Hpe i st Hst) as Hpi.
    assert (∀ s', st = Up s' ∨ st = Leaving s' → peer_ok (put_inst s (mkInst (owner it) nd') c)
      (mkWorld (if current c s (owner it) then <[owner it := nd']> (nodes w) else nodes w) (calls w) (applied w)) i st) as Hcur.
    { intros s' Hs'. assert (∃ nd, theInsts c !! s' = Some (mkInst i nd) ∧ nodes w !! i = Some nd ∧ row (tables c) i = Some (peers (raft nd)))
        as (nd & Hnd & Hw & Hrow) by (destruct Hs' as [-> | ->]; exact Hpi).
      assert (current c s' i = true) as Hci by (apply status_current; destruct Hs' as [<- | <-]; auto).
      assert (∃ nd1, theInsts (put_inst s (mkInst (owner it) nd') c) !! s' = Some (mkInst i nd1) ∧
        (if current c s (owner it) then <[owner it := nd']> (nodes w) else nodes w) !! i = Some nd1 ∧
        row (tables c) i = Some (peers (raft nd1))) as Hgoal; [|by destruct Hs' as [-> | ->]].
      rewrite put_insts. case_decide as Hss.
      - destruct Hss as [<- _]. rewrite Hs in Hnd. simplify_eq/=. exists nd'. rewrite Hci, lookup_insert_eq, Hp. done.
      - exists nd. split_and!; [done| |done]. destruct (current c s (owner it)) eqn:Hcs; [|done].
        rewrite lookup_insert_ne; [done|]. intros <-. apply Hss. split; [|by eexists].
        apply current_status in Hcs, Hci. destruct Hcs as [E|E], Hci as [E'|E']; congruence. }
    destruct st as [saved|s'|s']; [|by eapply Hcur; eauto..].
    destruct Hpi as (nd & Hw & Hsv). exists nd. split; [|done]. simpl.
    destruct (current c s (owner it)) eqn:Hcs; [|done]. rewrite lookup_insert_ne; [done|]. intros <-.
    apply current_status in Hcs. destruct Hcs; congruence.
  - intros k wt q o Hwt Hq Ho. eapply alike_request; [done|]. by eapply Hr.
Qed.

(** *** A request moves *)

Lemma simul_request n S c w os pend k wt q o c' wt' q' o' cs' :
  simul n S c w os pend → c.(waiters) !! k = Some wt → c.(lab).(reqs) !! k = Some q → os !! k = Some o →
  alike c c' → theInsts c' = theInsts c → servers_are c' → c'.(sent) = c.(sent) →
  c'.(waiters) = <[k := wt']> c.(waiters) → c'.(lab).(reqs) = <[k := q']> c.(lab).(reqs) →
  request_ok c wt' q' o' → cs' = omap id (<[k := o']> os) ++ pend →
  simul n S c' (mkWorld w.(nodes) cs' w.(applied)) (<[k := o']> os) pend.
Proof.
  intros [Ht Hv Hi Hpe Hc [Hl1 Hl2] Hr Ha] Hwt Hq Ho Hal Hin Hsv Hsent Hw' Hq' Hok ->. split; try done.
  - by eapply alike_tables_ok.
  - intros s i ps. rewrite (al_ident _ _ Hal). intros Hid. by eapply alike_inst, Hi.
  - intros i st. rewrite (al_running _ _ Hal). intros Hst%Hpe. unfold peer_ok in *. by rewrite Hin, (alike_tables _ _ Hal).
  - rewrite Hw', Hq', !length_insert. done.
  - intros k0 wt0 q0 o0. rewrite Hw', Hq', !list_lookup_insert_Some.
    intros [(<- & <- & _)|[Hne Hwt0]] [(Hk & <- & _)|[Hne' Hq0]] [(Hk' & <- & _)|[Hne'' Ho0]]; try done; eapply alike_request; eauto.
  - by rewrite Hsent.
Qed.

(** ** The network's goroutines *)

Lemma carrier_lengths (l : nlabel (procs Cmd)) v v' :
  carrier l = true → nstep v l = Done v' → length v'.(heap) = length v.(heap) ∧ length v'.(reqs) = length v.(reqs).
Proof.
  destruct l as [op|svcs|m s|e m args|k|k draw|k|k|k|k|k draw draw'|k|k]; [done..| | | | | | | | |]; intros _; cbn [nstep];
    (destruct (reqs v !! k) as [q|]; [|done]); cbn [enabled outcome_bind].
  3: { destruct (qExec q) as [|s| |]; try done. destruct (heap v !! s) as [rs|]; [|done]. cbn [program outcome_bind].
       destruct (serverDispatch (qMeth q) rs) as [rs' [[svc m]| |]]; try done. intros [= <-]. simpl. by rewrite !length_insert. }
  3: { destruct (qExec q) as [| |svc m|]; try done. destruct (serviceDispatch svc m (qArgs q) (hst v)) as [[st r]| |]; try done.
       intros [= <-]. simpl. by rewrite length_insert. }
  all: repeat case_match; intros Hv; simplify_eq; simpl; rewrite ?length_insert; done.
Qed.

Lemma carried_bound c i wt q o :
  carried c i wt q o → ¬ idle q → q.(qStage) ≠ QDone ∨ ran q = None →
  ∃ s ps x, o = Some x ∧ ident c s = Some (wt.(wDst), ps) ∧ target wt.(wDst) s q ∧ call_of c i wt x ∧
    executed c wt q s x.(body).
Proof.
  intros Hc Hi Hd. destruct Hc as [? _|bs ???|x ?? _|s ps x ????]; [done|naive_solver|done|]. by exists s, ps, x.
Qed.

(** The server an end leads to is the instance of the peer it is named after. *)
Lemma routed n S c w os pend i ps wi m s wd e :
  simul n S c w os pend → ident c wi = Some (i, ps) → slice_get ps wd = Some e →
  isEnabled c.(lab).(net) e = true → connectionOf c.(lab).(net) e = Some m → serverAt c.(lab).(net) m = Some s →
  m = wd ∧ current c wi i = true ∧ current c s wd = true ∧ ∃ ps', ident c s = Some (wd, ps').
Proof.
  intros H Hi He Hen Hco Hse. destruct (si_insts _ _ _ _ _ _ H wi i ps Hi wd e He) as (_ & Hc & Hold).
  rewrite Hco in Hc. injection Hc as ->.
  apply (to_server _ _ _ (si_tables _ _ _ _ _ _ H)) in Hse as Hup. split_and!; [done| |by apply status_current; left|].
  - destruct (current c wi i); [done|]. destruct (Hold eq_refl) as [Hdis _]. congruence.
  - apply (si_peers _ _ _ _ _ _ H) in Hup as (nd & Hs & _ & _). unfold ident. rewrite Hs. simpl. by eexists.
Qed.

(** A bound request that has not come closer to an answer. *)
Lemma keep_bound c i wt q q' s ps x :
  ident c s = Some (wt.(wDst), ps) → call_of c i wt x → executed c wt q s x.(body) →
  target wt.(wDst) s q' → ran q' = ran q → ¬ promised q' ∨ (∃ bs, ran q = Some bs ∧ current c s wt.(wDst) = true) →
  carried c i wt q' (Some x).
Proof.
  intros Hid Hx Hex Ht Hr Hp. eapply ca_bound; [done..|]. unfold executed in *. rewrite Hr.
  destruct Hex as [(Hb & Hnp & Hn)|?]; [|by right]. left. destruct Hp as [?|(bs & Hbs & Hc)]; [done|].
  exfalso. destruct Hn; congruence.
Qed.

Lemma unpromised q : q.(qAnswer) = None ∨ q.(qAnswer) = Some failed → (∀ rep, q.(qStage) ≠ QDelayed rep) → ¬ promised q.
Proof. intros Ha Hs [[rep Hr]|(rep & Hr & Ht)]; [by eapply Hs|]. destruct Ha; simplify_eq; congruence. Qed.

(** A step of a request's goroutines other than running the handler. *)
Lemma carried_step n S c w os pend i ps wt q q' o :
  simul n S c w os pend → req_ok c.(lab).(heap) q → req_step c.(lab).(net) c.(lab).(heap) q q' → ran q' = ran q →
  ident c wt.(wInst) = Some (i, ps) → slice_get ps wt.(wDst) = Some q.(qEnd) → q.(qMeth) = methodOf wt.(wBody) →
  carried c i wt q o → carried c i wt q' o.
Proof.
  intros H [Hxok Hsok] Hst Hran Hid Hend Hmeth Hc. unfold exec_ok, stage_ok in *.
  destruct Hst as [E|m s longre E|m s rel longre E|s rs svc m y E Hrs Hsp Hy|svc m reply E Hok
    |m s rel longre reply E Ed|m s rel longre E Hd|m s rel longre got draw draw' E|reply E|E]; try rewrite E in Hsok.
  - destruct Hsok as [Hx Ha]. assert (ran q = None) as Hn by (unfold ran; by rewrite Hx).
    destruct (route_spec (qEnd q) (net (lab c))) as [Hro|(m & s & Hro & Hen & Hco & Hse)]; rewrite Hro.
    + assert (idle (set_stage QOffline q)) as Hidle by (split; simpl; auto).
      destruct Hc as [? Hg|bs ???|x ???|s ps' x ? Ht ? Hex]; [by apply ca_ghost|congruence|by apply ca_idle|].
      eapply keep_bound; [done|done|exact Hex| |(done || exact Hran)|left]; [split; simpl; [done|by rewrite Hx]|apply unpromised; simpl; auto].
    + destruct (routed _ _ _ _ _ _ _ _ _ _ _ _ _ H Hid Hend Hen Hco Hse) as (-> & Hcur & _ & ps' & Hs).
      assert (∀ x, o = Some x → call_of c i wt x → body x = wBody wt → carried c i wt (set_stage (QBound (wDst wt) s (reliable (net (lab c)))
        (longReordering (net (lab c)))) q) o) as Hbind.
      { intros x -> Hx0 Hb0. eapply ca_bound; [exact Hs|by split; simpl; [|rewrite Hx]|done|]. left. split_and!; [done| |by left].
        apply unpromised; simpl; auto. }
      destruct Hc as [? Hg|bs ???|x ???|s' ps1 x ? Ht ? [(Hb & _)|(bs & Hbs & _)]]; [congruence|congruence|by eapply Hbind..|congruence].
  - destruct Hsok as (Hx & Ha & _). apply carried_bound in Hc as (s' & ps' & x & -> & Hs & Ht & Hx0 & Hex);
      [|by intros [_ [?|[?|?]]]; congruence|left; congruence].
    eapply keep_bound; [done|done|exact Hex| |(done || exact Hran)|left]; [split; simpl; [done|by rewrite Hx]|apply unpromised; simpl; auto].
  - destruct Hsok as (Hx & Ha & _). apply carried_bound in Hc as (s' & ps' & x & -> & Hs & Ht & Hx0 & Hex);
      [|by intros [_ [?|[?|?]]]; congruence|left; congruence].
    destruct Ht as [Ht _]. rewrite E in Ht. destruct Ht as [-> ->].
    eapply keep_bound; [done|done|exact Hex| |(done || exact Hran)|left]; [by split; simpl|apply unpromised; simpl; auto].
  - assert (ran q = None) as Hn by (unfold ran; by rewrite E).
    apply carried_bound in Hc as (s' & ps' & x & -> & Hs & Ht & Hx0 & Hex); [|by intros [? _]; congruence|by right].
    destruct Ht as [Ht1 Ht2]. rewrite E in Ht2. subst s'. rewrite (sr_service _ (si_servers _ _ _ _ _ _ H) s rs Hrs) in Hy.
    apply lookup_singleton_Some in Hy as [<- <-]. eapply keep_bound; [done|done|exact Hex| |(done || exact Hran)|left]; [by split|].
    destruct Hex as [(_ & Hnp & _)|(bs & Hbs & _)]; [exact Hnp|congruence].
  - exfalso. unfold ran in Hran. simpl in Hran. by rewrite E in Hran.
  - destruct Hsok as (_ & Ha). apply carried_bound in Hc as (s' & ps' & x & -> & Hs & [Ht1 Ht2] & Hx0 & Hex);
      [|by intros [_ [?|[?|?]]]; congruence|left; congruence].
    rewrite E in Ht1. eapply keep_bound; [done|done|exact Hex|by split|(done || exact Hran)|left]. apply unpromised; simpl; auto.
  - destruct Hsok as (_ & Ha). apply carried_bound in Hc as (s' & ps' & x & -> & Hs & [Ht1 Ht2] & Hx0 & Hex);
      [|by intros [_ [?|[?|?]]]; congruence|left; congruence].
    rewrite E in Ht1. eapply keep_bound; [done|done|exact Hex|by split|(done || exact Hran)|left]. apply unpromised; simpl; auto.
  - destruct Hsok as (Ha & Hgot). apply carried_bound in Hc as (s' & ps' & x & -> & Hs & [Ht1 Ht2] & Hx0 & Hex);
      [|by intros [_ [?|[?|?]]]; congruence|left; congruence].
    rewrite E in Ht1. destruct Ht1 as [-> ->].
    destruct (finish_cases (IsServerDead (qEnd q) (wDst wt) s' (net (lab c))) rel longre got draw draw' q)
      as [[-> _]|(reply & -> & Hdead & Hfin)].
    + eapply keep_bound; [done|done|exact Hex|by split|(done || exact Hran)|left]. apply unpromised; simpl; auto.
    + assert (current c s' (wDst wt) = true) as Hcur.
      { unfold IsServerDead in Hdead. apply orb_false_iff in Hdead as [_ Hdead]. apply bool_decide_eq_false, dec_stable in Hdead.
        apply (to_server _ _ _ (si_tables _ _ _ _ _ _ H)) in Hdead. by apply status_current; left. }
      destruct Hfin as [-> | ->]; (eapply keep_bound; [done|done|exact Hex|by split|(done || exact Hran)|right]; exists (rreply reply); split; [|done]; unfold ran;
        by rewrite (Hgot reply)).
  - destruct Hsok as (Ha & Hx). apply carried_bound in Hc as (s' & ps' & x & -> & Hs & [Ht1 Ht2] & Hx0 & Hex);
      [|by intros [_ [?|[?|?]]]; congruence|left; congruence].
    destruct Hex as [(_ & Hnp & _)|Hex]; [by destruct Hnp; left; exists reply|].
    eapply ca_bound; [exact Hs|by split|done|]. by right.
  - destruct Hsok as (Hx & Ha). assert (idle (respond failed q)) as Hidle by (split; simpl; auto).
    destruct Hc as [? Hg|bs ???|x ???|s ps' x ? Ht ? Hex]; [by apply ca_ghost|congruence|by apply ca_idle|].
    eapply keep_bound; [done|done|exact Hex| |(done || exact Hran)|left]; [split; simpl; [done|by rewrite Hx]|apply unpromised; simpl; auto].
Qed.

(** *** Running a handler *)

Definition handlerOf (s : nat) (b : rpc Cmd) : handler (St := procs Cmd) :=
  match b with
  | CRequestVote _ _ _ _ => receive RequestVote s
  | CHeartbeat _ _ _ => receive (λ env a rf, Some (Heartbeat env a rf)) s
  | CAppendEntries _ _ _ _ => receive (λ env a rf, Some (AppendEntries env a rf)) s
  end.

Lemma service_method s b m f :
  splitLast (methodOf b) = Some ("Raft", m) → (raftService s).(methods) !! m = Some f → f = handlerOf s b.
Proof.
  intros Hsp. assert (∀ m', m = m' → (raftService s).(methods) !! m' = Some (handlerOf s b) →
    (raftService s).(methods) !! m = Some f → f = handlerOf s b) as H by (intros m' -> ->; congruence).
  destruct b; vm_compute in Hsp; injection Hsp as Hm; eapply H; [by symmetry|reflexivity|by symmetry|reflexivity|by symmetry|reflexivity].
Qed.

Lemma receive_spec {A R : Type} `{!GobOf A, !GobOf R} (f : Env → A → Raft Cmd → option (Raft Cmd * R)) s bs st st' r it :
  st.(insts) !! s = Some it → st.(crashed) = false → receive f s bs st = (st', r) → st'.(crashed) = false →
  ∃ rf a, f st.(clock) (gdec bs).1 it.(proc).(raft) = Some (rf, a) ∧ r = genc a ∧
    st' = set_inst s (mkInst it.(owner) (update it.(proc) rf [])) st.
Proof.
  intros Hs Hc. unfold receive. rewrite Hs. destruct (f _ _ _) as [[rf a]|]; intros [= <- <-] Hc'; [|done]. by exists rf, a.
Qed.

(** The handler is [deliver]. *)
Lemma handler_delivers s b st st' r it :
  noReply b → st.(insts) !! s = Some it → st.(crashed) = false →
  handlerOf s b (argsOf b) st = (st', r) → st'.(crashed) = false →
  ∃ rf b', deliver st.(clock) b it.(proc).(raft) = Done (rf, b') ∧ decodeReply b r = Some b' ∧
    st' = set_inst s (mkInst it.(owner) (update it.(proc) rf [])) st ∧ rf.(peers) = it.(proc).(raft).(peers).
Proof.
  intros Hb Hs Hc. destruct b as [args t m ro|args t ro|args t rest ro]; simpl in Hb; subst ro; simpl; intros Hr Hc';
    apply (receive_spec _ _ _ _ _ _ _ Hs Hc) in Hr as (rf & a & Hf & -> & ->); try exact Hc';
    rewrite gdec_genc in Hf; cbn [fst] in Hf.
  - rewrite Hf. simpl. exists rf, (CRequestVote args t m (Some a)). rewrite gdec_genc. split_and!; [done..|].
    apply RequestVote_evolves in Hf as [Hev _]. apply Hev.
  - injection Hf as Hf. rewrite Hf. exists rf, (CHeartbeat args t (Some a)). rewrite gdec_genc. split_and!; [done..|].
    destruct (Heartbeat_evolves (clock st) args (raft (proc it))) as [Hev _]. rewrite Hf in Hev. apply Hev.
  - injection Hf as Hf. rewrite Hf. exists rf, (CAppendEntries args t rest (Some a)). rewrite gdec_genc. split_and!; [done..|].
    destruct (AppendEntries_evolves (clock st) args (raft (proc it))) as [Hev _]. rewrite Hf in Hev. apply Hev.
Qed.

(** *** A step of the network *)

(** The abstract cluster makes a step, or none. *)
Definition follows w w' : Prop := w' = w ∨ ∃ lb, step w lb = Done w'.

Lemma simul_same n S c w os pend c' :
  simul n S c w os pend → alike c c' → theInsts c' = theInsts c → servers_are c' → c'.(sent) = c.(sent) →
  c'.(waiters) = c.(waiters) → c'.(lab).(reqs) = c.(lab).(reqs) → simul n S c' w os pend.
Proof.
  intros [Ht Hv Hi Hpe Hc Hl Hr Ha] Hal Hin Hsv Hsent Hw' Hq'. split; rewrite ?Hw', ?Hq', ?Hsent; try done.
  - by eapply alike_tables_ok.
  - intros s i ps. rewrite (al_ident _ _ Hal). intros Hid. by eapply alike_inst, Hi.
  - intros i st. rewrite (al_running _ _ Hal). intros Hst%Hpe. unfold peer_ok in *. by rewrite Hin, (alike_tables _ _ Hal).
  - intros k wt q o Hwt Hq Ho. eapply alike_request; [done|]. by eapply Hr.
Qed.

Lemma theInsts_alike c c' :
  c'.(lab).(net) = c.(lab).(net) → c'.(conf) = c.(conf) → c'.(running) = c.(running) → theInsts c' = theInsts c → alike c c'.
Proof. intros Hn Hc Hr Hi. split; [done..|]. intros s. unfold ident. by rewrite Hi. Qed.

Lemma heap_services c (h' : list (Server (procs Cmd))) :
  servers_are c → heap_le c.(lab).(heap) h' → length h' = length c.(lab).(heap) →
  ∀ s rs, h' !! s = Some rs → rs.(services) = {["Raft" := raftService s]}.
Proof.
  intros [_ H2 _ _] Hle Hlen s rs Hs. destruct (lookup_lt_is_Some_2 c.(lab).(heap) s) as [rs0 Hrs0].
  { rewrite <- Hlen. by eapply lookup_lt_Some. }
  destruct (Hle _ _ Hrs0) as (rs1 & Hrs1 & Heq). rewrite Hs in Hrs1. injection Hrs1 as <-. rewrite Heq. by apply H2.
Qed.

Lemma carrier_net (l : nlabel (procs Cmd)) v v' :
  carrier l = true → nstep v l = Done v' → v'.(net) = v.(net).
Proof. intros Hl Hn. apply nstep_net in Hn. by destruct l. Qed.

(** The function a request has found is the handler of an instance of its destination. *)
Lemma found_handler c wt q o svc m f :
  request_ok c wt q o → q.(qExec) = HFound svc m → svc.(methods) !! m = Some f →
  ∃ s it i ps x, f = handlerOf s wt.(wBody) ∧ o = Some x ∧ ident c wt.(wInst) = Some (i, ps) ∧
    slice_get ps wt.(wDst) = Some q.(qEnd) ∧ theInsts c !! s = Some it ∧ it.(owner) = wt.(wDst) ∧
    target wt.(wDst) s q ∧ call_of c i wt x ∧ x.(body) = wt.(wBody) ∧ ¬ promised q.
Proof.
  intros [Hm _ _ (i & ps & Hid & Hend & Hca)] Hx Hf. assert (ran q = None) as Hn by (unfold ran; by rewrite Hx).
  apply carried_bound in Hca as (s & ps' & x & -> & Hs & Ht & Hxo & Hex); [|by intros [? _]; congruence|by right].
  pose proof Ht as [_ Ht2]. rewrite Hx in Ht2. destruct Ht2 as [-> Hsp]. rewrite Hm in Hsp.
  unfold ident in Hs. destruct (theInsts c !! s) as [it|] eqn:Hit; [|done]. injection Hs as Howner _.
  destruct Hex as [(Hbody & Hnp & _)|(bs & Hbs & _)]; [|congruence].
  exists s, it, i, ps, x. split_and!; [by eapply service_method|done..].
Qed.

(** The network runs the handler of request [k] at instance [s]. *)
Lemma simul_handle n S c w os k wt q o env svc m f b st' c' :
  simul n S c w os [] → c.(lab).(hst).(clock) = env → c.(lab).(hst).(crashed) = false →
  c.(waiters) !! k = Some wt → c.(lab).(reqs) !! k = Some q → os !! k = Some o →
  q.(qExec) = HFound svc m → svc.(methods) !! m = Some f → f q.(qArgs) c.(lab).(hst) = (st', b) → st'.(crashed) = false →
  (length st'.(insts) = length c.(lab).(hst).(insts) → servers_are c') →
  c'.(lab).(hst) = st' → c'.(lab).(net) = c.(lab).(net) → c'.(conf) = c.(conf) → c'.(running) = c.(running) →
  c'.(sent) = c.(sent) → c'.(waiters) = c.(waiters) →
  c'.(lab).(reqs) = <[k := set_exec (HDone (mkReply true b)) q]> c.(lab).(reqs) →
  ∃ w' os', follows w w' ∧ simul n S c' w' os' [].
Proof.
  intros H Henv Hcr Hwt Hq Ho Hx Hf Hst Hcr' Hsv' Hh' Hn' Hc' Hr' Hsent' Hw' Hq'.
  pose proof (si_reqs _ _ _ _ _ _ H k wt q o Hwt Hq Ho) as Hro. pose proof Hro as [Hm Ha Hb _].
  destruct (found_handler c wt q o svc m f Hro Hx Hf) as (s & it & i & ps & x & -> & -> & Hid & Hend & Hit & Howner & Ht & Hxo & Hbody & Hnp).
  rewrite Ha in Hst. destruct (handler_delivers s (wBody wt) _ _ _ it Hb Hit Hcr Hst Hcr') as (rf & b' & Hdel & Hdec & Hset & Hpeers).
  rewrite Henv in Hdel. set (nd' := update (proc it) rf []) in *.
  specialize (Hsv' ltac:(rewrite Hset; apply length_insert)).
  pose proof (put_alike c s it nd' Hit Hpeers) as Hal.
  assert (theInsts c' = theInsts (put_inst s (mkInst (owner it) nd') c)) as Hin' by (unfold theInsts; by rewrite Hh', Hset).
  assert (alike (put_inst s (mkInst (owner it) nd') c) c') as Hal' by (by apply theInsts_alike).
  pose proof (simul_put n S c w os [] s it nd' H Hit Hpeers) as Hput.
  assert (∀ o' cs', cs' = omap id (<[k := o']> os) ++ [] →
    request_ok c wt (set_exec (HDone (mkReply true b)) q) o' →
    simul n S c' (mkWorld (if current c s (owner it) then <[owner it := nd']> (nodes w) else nodes w) cs' (applied w))
      (<[k := o']> os) []) as Hgo.
  { intros o' cs' Hcs Hro'.
    refine (simul_request n S _ _ os [] k wt q (Some x) c' wt _ o' cs' Hput Hwt Hq Ho Hal' Hin' Hsv' Hsent' _ Hq' _ Hcs).
    - rewrite Hw'. simpl. by rewrite list_insert_id.
    - by eapply alike_request. }
  assert (∀ x', call_of c i wt x' → executed c wt (set_exec (HDone (mkReply true b)) q) s (body x') →
    request_ok c wt (set_exec (HDone (mkReply true b)) q) (Some x')) as Hrq.
  { intros x' Hx' Hex'. split; [done..|]. exists i, ps. split_and!; [done..|].
    eapply (ca_bound c i wt _ s (peers (raft (proc it)))); [unfold ident; rewrite Hit; simpl; by rewrite Howner| |done|done].
    split; [apply Ht|done]. }
  destruct (current c s (owner it)) eqn:Hcur.
  - pose proof (current_peer n S c w os [] s it H Hit Hcur) as Hnode.
    destruct (omap_id_lookup os k x Ho) as (k' & Hk' & Hins & _).
    set (x' := mkCall (src x) (dst x) (waiting x) b').
    exists (mkWorld (<[owner it := nd']> (nodes w)) (<[k' := x']> (calls w)) (applied w)), (<[k := Some x']> os). split.
    + right. exists (LDeliver k' env). simpl. rewrite (si_calls _ _ _ _ _ _ H), app_nil_r, Hk'. simpl.
      destruct Hxo as (_ & Hdst & _). rewrite Hdst, <- Howner, Hnode. simpl. rewrite Hbody, Hdel. simpl.
      unfold set_calls, set_node. simpl. unfold x'. by rewrite Hdst, <- Howner.
    + apply Hgo; [by rewrite Hins, (si_calls _ _ _ _ _ _ H), !app_nil_r|]. apply Hrq; [exact Hxo|].
      right. exists b. split; [done|]. done.
  - exists w, os. split; [by left|]. pose proof (Hgo (Some x) (calls w)) as Hg. rewrite list_insert_id in Hg by done.
    destruct w as [nds cs ap]. apply Hg; [apply (si_calls _ _ _ _ _ _ H)|]. apply Hrq; [exact Hxo|].
    left. split_and!; [done| |right; by rewrite <- Howner].
    intros [[rep Hrep]|(rep & Hrep & Hok)]; apply Hnp; [left|right]; by exists rep.
Qed.

Lemma simul_net n S c w os l env c' :
  simul n S c w os [] → xstep c (XNet l env) = Done c' → ∃ w' os', follows w w' ∧ simul n S c' w' os' [].
Proof.
  intros H0. cbn [xstep]. destruct (carrier l) eqn:Hl; [|done].
  set (v := set_hst _ (lab c)). destruct (nstep v l) as [v'| |] eqn:Hn; cbn [outcome_bind]; [|done..].
  destruct (crashed (hst v')) eqn:Hcr'; [done|]. intros [= <-].
  assert (servers_are (set_lab v c)) as Hsv0.
  { destruct (si_servers _ _ _ _ _ _ H0) as [H1 H2 [H3 H4 H5] H6]. by split; [..|split|]. }
  assert (simul n S (set_lab v c) w os []) as H by (by eapply simul_same; [exact H0|by apply theInsts_alike|..]).
  clear H0. set (c1 := set_lab v c) in *.
  destruct Hsv0 as [Hlen0 Hserv0 Hok Hcr]. change (lab c1) with v in *.
  destruct (carrier_lengths l v v' Hl Hn) as [Hlh Hlr]. pose proof (carrier_net l v v' Hl Hn) as Hnet.
  pose proof (nstep_moves v l v' (proj1 (Forall_lookup _ _) (no_reqs _ _ Hok)) Hn) as [Hle Hmv].
  assert (net_ok (λ _ _, True) v') as Hok'.
  { apply (nstep_ok (λ _ _, True) v l v' Hok); [|exact Hn]. destruct l; (done || by simpl in Hl). }
  assert (length (insts (hst v')) = length (insts (hst v)) → servers_are (set_lab v' c1)) as Hsv'.
  { intros Hli. split; [|apply (heap_services c1); [by split|done|done]|done|done]. simpl. rewrite Hlh, Hlen0.
    unfold theInsts. simpl. by rewrite Hli. }
  change (set_lab v' c) with (set_lab v' c1).
  destruct Hmv as [Er Eh|e m args Er _|k q q' Hk Hstep Er He].
  - exists w, os. split; [by left|]. eapply simul_same; [exact H|apply theInsts_alike; try done; unfold theInsts; simpl; by rewrite Eh|..];
      [unfold theInsts; simpl; by rewrite Eh|apply Hsv'; by rewrite Eh|done|done|done].
  - exfalso. rewrite Er, length_app in Hlr. simpl in Hlr. lia.
  - destruct (si_len _ _ _ _ _ _ H) as [Hl1 Hl2].
    destruct (lookup_lt_is_Some_2 (waiters c1) k) as [wt Hwt]; [rewrite Hl1; by eapply lookup_lt_Some|].
    destruct (lookup_lt_is_Some_2 os k) as [o Ho]; [rewrite Hl2; by eapply lookup_lt_Some|].
    destruct He as [[Eh Hran]|(svc & m & f & b & Hx & Hf & Hb & ->)].
    + exists w, os. split; [by left|].
      pose proof (si_reqs _ _ _ _ _ _ H k wt q o Hwt Hk Ho) as [Hm Ha Hbo (i & ps & Hid & Hend & Hca)].
      assert (request_ok c1 wt q' o) as Hro.
      { destruct (req_step_end _ _ _ _ Hstep) as [Hend' Hm']. split; [by rewrite Hm'| |done|].
        - rewrite <- Ha. clear -Hstep. destruct Hstep; try done. unfold finish. by repeat case_match.
        - exists i, ps. split_and!; [done|by rewrite Hend'|]. eapply carried_step; try done.
          by apply (Forall_lookup_1 _ _ _ _ (no_reqs _ _ Hok) Hk). }
      pose proof (simul_request n S c1 w os [] k wt q o (set_lab v' c1) wt q' o (calls w) H Hwt Hk Ho) as Hg.
      rewrite (list_insert_id os) in Hg by done. destruct w as [nds cs ap]. apply Hg; try done.
      * apply theInsts_alike; try done. unfold theInsts. simpl. by rewrite Eh.
      * unfold theInsts. simpl. by rewrite Eh.
      * apply Hsv'. by rewrite Eh.
      * simpl. by rewrite list_insert_id.
      * apply (si_calls _ _ _ _ _ _ H).
    + eapply (simul_handle n S c1 w os k wt q o env svc m f b (hst v')); done.
Qed.

(** ** What an instance does *)

Definition label_of (i : Z) (a : act Cmd) : label Cmd :=
  match a with
  | ALifeRead => LLifeRead i
  | ALifeAct env => LLifeAct i env
  | ARun k env => LRun i k env
  | AApply => LApply i
  | AStart command => LStart i command
  end.

Lemma node_act_step w i nd a :
  w.(nodes) !! i = Some nd →
  step w (label_of i a) =
    outcome_bind (node_act i nd a) (λ '(nd', xs, m),
      Done (mkWorld (<[i := nd']> w.(nodes)) (w.(calls) ++ xs)
        (match m with None => w.(applied) | Some m => w.(applied) ++ [(i, m)] end))).
Proof.
  intros Hi. destruct w as [nds cs ap]. destruct a as [|env|k env| |command]; cbn [node_act label_of step]; simpl in Hi |- *; rewrite Hi; simpl.
  - by rewrite app_nil_r.
  - destruct (lifeSnap nd) as [s|]; simpl; [|done]. destruct (lifeAct env s (raft nd)) as [[rf gs]|]; simpl; [|done].
    by rewrite app_nil_r.
  - destruct (threads nd !! k) as [g|]; simpl; [|done]. by destruct (run_thread env i (raft nd) g) as [[[rf gs] ys]| |].
  - destruct (applyOne (raft nd)) as [[rf m']|]; simpl; [|done]. by rewrite app_nil_r.
  - destruct (Start command (raft nd)) as [[[rf r] gs]|]; simpl; [|done]. by rewrite app_nil_r.
Qed.

Lemma run_thread_spec env i rf g rf' gs xs :
  run_thread env i rf g = Done (rf', gs, xs) →
  rf'.(peers) = rf.(peers) ∧ Forall (λ x, x.(src) = i ∧ x.(waiting) = true ∧ noReply x.(body)) xs.
Proof.
  destruct g as [[|p ps] t|p args t m|p t|]; simpl.
  - intros [= <- <- <-]. by split.
  - destruct (replicateBegin p t rf) as [[rf1 [args|]]|] eqn:E; simpl; [| |done]; intros [= <- <- <-];
      apply replicateBegin_evolves in E as [E _]; (split; [apply E|]); by repeat constructor.
  - intros [= <- <- <-]. split; [done|]. by repeat constructor.
  - intros [= <- <- <-]. split; [done|]. by repeat constructor.
  - intros [= <- <- <-]. by split.
Qed.

Lemma node_act_spec i nd a nd' xs m :
  node_act i nd a = Done (nd', xs, m) →
  nd'.(raft).(peers) = nd.(raft).(peers) ∧ Forall (λ x, x.(src) = i ∧ x.(waiting) = true ∧ noReply x.(body)) xs.
Proof.
  destruct a as [|env|k env| |command]; cbn [node_act].
  - by intros [= <- <- <-].
  - destruct (lifeSnap nd) as [s|]; simpl; [|done]. destruct (lifeAct env s (raft nd)) as [[rf gs]|] eqn:E; simpl; [|done].
    intros [= <- <- <-]. apply lifeAct_evolves in E as [E _]. split; [apply E|done].
  - destruct (threads nd !! k) as [g|]; simpl; [|done].
    destruct (run_thread env i (raft nd) g) as [[[rf gs] ys]| |] eqn:E; simpl; [|done..]. intros [= <- <- <-]. by eapply run_thread_spec.
  - destruct (applyOne (raft nd)) as [[rf m']|] eqn:E; simpl; [|done]. intros [= <- <- <-].
    apply applyOne_evolves in E as [E _]. split; [apply E|done].
  - destruct (Start command (raft nd)) as [[[rf r] gs]|] eqn:E; simpl; [|done]. intros [= <- <- <-].
    apply Start_evolves in E as [E _]. split; [apply E|done].
Qed.

(** A call is issued; [o] is its abstract counterpart. *)
Lemma simul_issue n S c w os pend pend' s i rf x o c' :
  simul n S c w os pend → ident c s = Some (i, rf.(peers)) → noReply x.(body) → issue s rf x c = Done c' →
  (∀ e, carried c i (mkWaiter s x.(dst) x.(body) true) (mkReq e (methodOf x.(body)) (argsOf x.(body)) QNew HNone None) o) →
  omap id os ++ pend = omap id (os ++ [o]) ++ pend' →
  simul n S c' w (os ++ [o]) pend' ∧ alike c c' ∧ theInsts c' = theInsts c.
Proof.
  intros H Hid Hb Hiss Hca Hpend. unfold issue in Hiss. destruct (slice_get (peers rf) (dst x)) as [e|] eqn:He; simpl in Hiss; [|done].
  case_decide as Hin; simpl in Hiss; [|done]. injection Hiss as <-. set (q := mkReq _ _ _ _ _ _). set (c' := mkCluster _ _ _ _ _ _).
  assert (alike c c') as Hal by (by apply theInsts_alike). split; [|by split].
  destruct H as [Ht Hv Hi Hpe Hc [Hl1 Hl2] Hr Ha]. split.
  - by eapply alike_tables_ok.
  - destruct Hv as [H1 H2 H3 H4]. split; [done|done| |done].
    eapply (nstep_ok _ (lab c) (NCall e (methodOf (body x)) (argsOf (body x)))); [done|done|]. simpl. by rewrite decide_True.
  - exact Hi.
  - exact Hpe.
  - by rewrite Hc.
  - simpl. rewrite !length_app. simpl. lia.
  - intros k wt q0 o0 Hwt Hq0 Ho0. eapply alike_request; [exact Hal|]. simpl in Hwt, Hq0.
    destruct (decide (k < length (reqs (lab c)))%nat) as [Hk|Hk].
    { rewrite lookup_app_l in Hwt by lia. rewrite lookup_app_l in Hq0 by lia. rewrite lookup_app_l in Ho0 by lia. by eapply Hr. }
    rewrite lookup_app_r in Hwt by lia. rewrite lookup_app_r in Hq0 by lia. rewrite lookup_app_r in Ho0 by lia. apply list_lookup_singleton_Some in Hwt as [_ <-], Hq0 as [_ <-], Ho0 as [_ <-].
    split; [done..|]. exists i, (peers rf). split_and!; [done|done|]. apply Hca.
  - exact Ha.
Qed.

Lemma simul_issueAll n S c w os s i rf xs c' :
  (if current c s i then simul n S c w os xs else simul n S c w os []) → ident c s = Some (i, rf.(peers)) →
  Forall (λ x, x.(src) = i ∧ x.(waiting) = true ∧ noReply x.(body)) xs → issueAll s rf xs c = Done c' →
  ∃ os', simul n S c' w os' [].
Proof.
  revert c os. induction xs as [|x xs IH]; intros c os H Hid Hxs; cbn [issueAll].
  { intros [= <-]. exists os. by destruct (current c s i). }
  apply Forall_cons in Hxs as [(Hsrc & Hwait & Hb) Hxs].
  destruct (issue s rf x c) as [c1| |] eqn:Hc1; cbn [outcome_bind]; [|done..].
  destruct (current c s i) eqn:Hcur.
  - destruct (simul_issue n S c w os (x :: xs) xs s i rf x (Some x) c1) as (H1 & Hal & Hin); [done..| |by rewrite omap_app, <- app_assoc|].
    { intros e. apply ca_idle; [by split; [|left]| |done]. split_and!; [done|done|]. simpl. by rewrite Hwait, Hcur. }
    apply (IH c1 (os ++ [Some x])); [by rewrite (alike_current _ _ _ _ Hal), Hcur|by rewrite (al_ident _ _ Hal)|done].
  - destruct (simul_issue n S c w os [] [] s i rf x None c1) as (H1 & Hal & Hin); [done..| |by rewrite omap_app; simpl; rewrite !app_nil_r|].
    { intros e. apply ca_ghost; [by split; [|left]|done]. }
    apply (IH c1 (os ++ [None])); [by rewrite (alike_current _ _ _ _ Hal), Hcur|by rewrite (al_ident _ _ Hal)|done].
Qed.

(** Messages are sent, and calls become due. *)
Lemma simul_sent n S c w os pend c' w' pend' :
  simul n S c w os pend → c'.(lab) = c.(lab) → c'.(conf) = c.(conf) → c'.(running) = c.(running) → c'.(waiters) = c.(waiters) →
  w'.(nodes) = w.(nodes) → w'.(calls) = omap id os ++ pend' → w'.(applied) = c'.(sent) → simul n S c' w' os pend'.
Proof.
  intros [Ht Hv Hi Hpe Hc Hl Hr Ha] Hlab Hco Hru Hwa Hn Hca Hap.
  assert (theInsts c' = theInsts c) as Hin by (unfold theInsts; by rewrite Hlab).
  assert (alike c c') as Hal by (apply theInsts_alike; by rewrite ?Hlab). split; rewrite ?Hlab, ?Hwa; try done.
  - by eapply alike_tables_ok.
  - destruct Hv as [H1 H2 H3 H4]. split; by rewrite ?Hlab, ?Hin.
  - intros s i ps. rewrite (al_ident _ _ Hal). intros Hid. by eapply alike_inst, Hi.
  - intros i st. rewrite Hru. intros Hst%Hpe. unfold peer_ok in *. by rewrite Hin, Hn, (alike_tables _ _ Hal).
  - intros k wt q o Hwt Hq Ho. eapply alike_request; [done|]. by eapply Hr.
Qed.

Lemma simul_act n S c w os s a c' :
  simul n S c w os [] → xstep c (XAct s a) = Done c' → ∃ w' os', follows w w' ∧ simul n S c' w' os' [].
Proof.
  intros H. cbn [xstep]. destruct (theInsts c !! s) as [it|] eqn:Hit; cbn [enabled outcome_bind]; [|done].
  destruct (node_act (owner it) (proc it) a) as [[[nd xs] m]| |] eqn:Ha; cbn [outcome_bind]; [|done..]. intros Hiss.
  apply node_act_spec in Ha as Hspec. destruct Hspec as [Hpeers Hxs].
  pose proof (simul_put n S c w os [] s it nd H Hit Hpeers) as Hput. pose proof (put_alike c s it nd Hit Hpeers) as Hal.
  set (c1 := put_inst s (mkInst (owner it) nd) c) in *. set (c2 := put_msg s (owner it) m c1) in *.
  assert (alike c1 c2) as Hal2 by (apply theInsts_alike; unfold c2, put_msg; by repeat case_match).
  assert (current c2 s (owner it) = current c s (owner it)) as Hcur
    by (by rewrite (alike_current _ _ _ _ Hal2), (alike_current _ _ _ _ Hal)).
  assert (ident c2 s = Some (owner it, peers (raft nd))) as Hid.
  { rewrite (al_ident _ _ Hal2), (al_ident _ _ Hal). unfold ident. rewrite Hit. simpl. by rewrite Hpeers. }
  destruct (current c s (owner it)) eqn:Hc.
  - pose proof (current_peer n S c w os [] s it H Hit Hc) as Hnode.
    pose proof (node_act_step w (owner it) (proc it) a Hnode) as Hstep. rewrite Ha in Hstep. cbn [outcome_bind] in Hstep.
    set (w' := mkWorld _ _ _) in Hstep. exists w'.
    destruct (simul_issueAll n S c2 w' os s (owner it) (raft nd) xs c') as [os' H']; [|done..|].
    + rewrite Hcur. assert (Hc1 : current c1 s (owner it) = true) by (by rewrite (alike_current _ _ _ _ Hal)).
      unfold c2, put_msg. rewrite Hc1. eapply simul_sent; [exact Hput|by destruct m..|done| |].
      * simpl. by rewrite (si_calls _ _ _ _ _ _ H), app_nil_r.
      * simpl. rewrite (si_applied _ _ _ _ _ _ H). by destruct m.
    + exists os'. split; [|done]. right. by exists (label_of (owner it) a).
  - exists w. destruct (simul_issueAll n S c2 w os s (owner it) (raft nd) xs c') as [os' H']; [|done..|].
    + rewrite Hcur. assert (Hc1 : current c1 s (owner it) = false) by (by rewrite (alike_current _ _ _ _ Hal)).
      unfold c2, put_msg. rewrite Hc1. eapply simul_sent; [exact Hput|by destruct m..|done| |].
      * apply (si_calls _ _ _ _ _ _ H).
      * rewrite (si_applied _ _ _ _ _ _ H). by destruct m.
    + exists os'. split; [by left|done].
Qed.

(** ** A call returns *)

Lemma return_fail_body b bs b' env p rf :
  decodeReply b bs = Some b' → return_fail env p b' rf = return_fail env p b rf.
Proof. destruct b; simpl; destruct (gdec bs) as [r []]; by intros [= <-]. Qed.

Lemma return_ok_peers env p b rf rf' gs : return_ok env p b rf = Done (rf', gs) → rf'.(peers) = rf.(peers).
Proof.
  destruct b as [args t m [r|]|args t [r|]|args t rest [r|]]; simpl; try done.
  - destruct (voteReply env t m r rf) as [[rf1 gs1]|] eqn:E; simpl; [|done]. intros [= <- <-].
    apply voteReply_evolves in E as [E _]. apply E.
  - intros [= <- <-]. apply heartbeatReply_evolves.
  - destruct (replicateReply env p t args r rf) as [[rf1 next]|] eqn:E; simpl; [|done].
    apply replicateReply_evolves in E as [E _]. destruct next; intros [= <- <-]; apply E.
Qed.

Lemma return_fail_peers env p b rf : (return_fail env p b rf).1.(peers) = rf.(peers).
Proof. destruct b as [args t m r|args t r|args t rest r]; [done| |done]. simpl. apply heartbeatReply_evolves. Qed.

Lemma answered_done h q rep :
  req_ok h q → q.(qAnswer) = Some rep → q.(qStage) = QDone ∧ (rep = failed ∨ q.(qExec) = HDone rep).
Proof.
  intros [_ Hs] Ha. unfold stage_ok in Hs. destruct (qStage q) eqn:E; rewrite Ha in Hs; try naive_solver.
Qed.

(** The caller of request [k] goes on; [o'] is what is left of its call. *)
Lemma simul_resume n S c w os k wt q o it nd' o' cs' :
  simul n S c w os [] → c.(waiters) !! k = Some wt → c.(lab).(reqs) !! k = Some q → os !! k = Some o →
  theInsts c !! wt.(wInst) = Some it → nd'.(raft).(peers) = it.(proc).(raft).(peers) →
  (∀ wt', wt' = mkWaiter wt.(wInst) wt.(wDst) wt.(wBody) false → carried c it.(owner) wt' q o') →
  cs' = omap id (<[k := o']> os) →
  simul n S (unblock k wt (put_inst wt.(wInst) (mkInst it.(owner) nd') c))
    (mkWorld (if current c wt.(wInst) it.(owner) then <[it.(owner) := nd']> w.(nodes) else w.(nodes)) cs' w.(applied))
    (<[k := o']> os) [].
Proof.
  intros H Hwt Hq Ho Hit Hp Hca ->. pose proof (si_reqs _ _ _ _ _ _ H k wt q o Hwt Hq Ho) as [Hm Ha Hb (i & ps & Hid & Hend & _)].
  pose proof Hid as Hid'. unfold ident in Hid'. rewrite Hit in Hid'. injection Hid' as <- <-.
  pose proof (simul_put n S c w os [] (wInst wt) it nd' H Hit Hp) as Hput.
  pose proof (put_alike c (wInst wt) it nd' Hit Hp) as Hal.
  refine (simul_request n S _ _ os [] k wt q o (unblock k wt (put_inst (wInst wt) (mkInst (owner it) nd') c))
    (mkWaiter (wInst wt) (wDst wt) (wBody wt) false) q o' _ Hput Hwt Hq Ho _ eq_refl _ eq_refl eq_refl _ _ _).
  - by apply theInsts_alike.
  - destruct (si_servers _ _ _ _ _ _ Hput) as [H1 H2 H3 H4]. by split.
  - simpl. by rewrite list_insert_id.
  - eapply alike_request; [exact Hal|]. split; [done..|]. exists (owner it), (peers (raft (proc it))). split_and!; [done|done|by apply Hca].
  - by rewrite app_nil_r.
Qed.

Lemma simul_return n S c w os k env c' :
  simul n S c w os [] → xstep c (XReturn k env) = Done c' → ∃ w' os', follows w w' ∧ simul n S c' w' os' [].
Proof.
  intros H. cbn [xstep]. destruct (waiters c !! k) as [wt|] eqn:Hwt; cbn [enabled outcome_bind]; [|done].
  destruct (reqs (lab c) !! k) as [q|] eqn:Hq; cbn [enabled outcome_bind]; [|done].
  destruct (qAnswer q) as [rep|] eqn:Hans; cbn [enabled outcome_bind]; [|done].
  destruct (theInsts c !! wInst wt) as [it|] eqn:Hit; cbn [enabled outcome_bind]; [|done].
  destruct (wBlocked wt) eqn:Hbl; [|done].
  destruct (lookup_lt_is_Some_2 os k) as [o Ho].
  { rewrite (proj2 (si_len _ _ _ _ _ _ H)). by eapply lookup_lt_Some. }
  pose proof (si_reqs _ _ _ _ _ _ H k wt q o Hwt Hq Ho) as [_ _ _ (i & ps & Hid & _ & Hca)].
  unfold ident in Hid. rewrite Hit in Hid. injection Hid as <- <-.
  destruct (answered_done (heap (lab c)) q rep) as [Hdone Hrep];
    [by apply (Forall_lookup_1 _ _ _ _ (no_reqs _ _ (sr_net _ (si_servers _ _ _ _ _ _ H))) Hq)|done|].
  set (res := if rok rep then _ else _). destruct res as [[rf gs]| |] eqn:Hres; cbn [outcome_bind]; [|done..]. intros [= <-].
  assert (peers rf = peers (raft (proc it))) as Hpeers.
  { unfold res in Hres. destruct (rok rep).
    - destruct (decodeReply _ _); cbn [program outcome_bind] in Hres; [|done]. by eapply return_ok_peers.
    - injection Hres as Hres. pose proof (return_fail_peers env (wDst wt) (wBody wt) (raft (proc it))) as Hp. by rewrite Hres in Hp. }
  pose proof (simul_resume n S c w os k wt q o it (update (proc it) rf gs)) as Hres'.
  destruct (current c (wInst wt) (owner it)) eqn:Hcur.
  2: { exists w, os. split; [by left|]. specialize (Hres' o (calls w) H Hwt Hq Ho Hit Hpeers). rewrite list_insert_id in Hres' by done.
       destruct w as [nds cs ap]. apply Hres'; [|by rewrite (si_calls _ _ _ _ _ _ H), app_nil_r]. intros wt' ->.
       assert (∀ x, call_of c (owner it) wt x → call_of c (owner it) (mkWaiter (wInst wt) (wDst wt) (wBody wt) false) x) as Hof
         by (unfold call_of; simpl; intros x (-> & -> & ->); by rewrite Hcur, andb_false_r).
       destruct Hca as [? Hg|bs ???|x ???|s ps x ????]; [by apply ca_ghost|congruence|by apply ca_idle; auto|].
       eapply (ca_bound c (owner it) _ q s ps); eauto. }
  pose proof (current_peer n S c w os [] (wInst wt) it H Hit Hcur) as Hnode.
  assert (∃ x, o = Some x ∧ call_of c (owner it) wt x ∧ (∀ env rf, return_fail env (wDst wt) (body x) rf = return_fail env (wDst wt) (wBody wt) rf) ∧
    (rok rep = true → ran q = Some (rreply rep) ∧ decodeReply (wBody wt) (rreply rep) = Some (body x)) ∧
    carried c (owner it) (mkWaiter (wInst wt) (wDst wt) (wBody wt) false) q (Some (stop_waiting x))) as (x & -> & Hxo & Hfail & Hok & Hstop).
  { destruct Hca as [? Hg|bs ???|x Hidle Hx Hb|s ps x Hs Ht Hx Hex]; [congruence|congruence|exists x|exists x]; (split; [done|]; split; [done|]).
    - split_and!; [by rewrite Hb| |].
      + destruct Hidle as [Hx0 _]. destruct Hrep as [->|Hx1]; [done|congruence].
      + by apply ca_idle; [|destruct Hx as (? & ? & ?)|].
    - split_and!.
      + intros env' rf'. destruct Hex as [(-> & _)|(bs & _ & Hdec)]; [done|]. by eapply return_fail_body.
      + intros Hrok. assert (ran q = Some (rreply rep)) as Hran.
        { destruct Hrep as [->|Hx1]; [done|]. unfold ran. by rewrite Hx1. }
        split; [done|]. destruct Hex as [(_ & Hnp & _)|(bs & Hbs & Hdec)]; [destruct Hnp; right; by exists rep|congruence].
      + destruct Hx as (? & ? & ?). eapply (ca_bound c (owner it) _ q s ps); [done|done|done|exact Hex]. }
  destruct Hxo as (Hsrc & Hdst & Hwaiting). rewrite Hbl, Hcur in Hwaiting. simpl in Hwaiting.
  destruct (omap_id_lookup os k x Ho) as (k' & Hk' & Hins & Hdel). pose proof (si_calls _ _ _ _ _ _ H) as Hcalls. rewrite app_nil_r in Hcalls.
  unfold res in Hres. destruct (rok rep) eqn:Hrok.
  - destruct (Hok eq_refl) as [Hran Hdec]. rewrite Hdec in Hres. cbn [program outcome_bind] in Hres.
    eexists _, (<[k := None]> os). split; [|apply Hres'; [done..| |reflexivity]].
    + right. exists (LReturn k' env). simpl. rewrite Hcalls, Hk'. simpl. rewrite Hwaiting, Hsrc, Hnode. simpl. rewrite Hdst, Hres. simpl.
      unfold set_calls, set_node. simpl. by rewrite Hdel.
    + intros wt' ->. by eapply ca_done.
  - eexists _, (<[k := Some (stop_waiting x)]> os). split; [|apply Hres'; [done..| |reflexivity]].
    + right. exists (LFail k' env). simpl. rewrite Hcalls, Hk'. simpl. rewrite Hwaiting, Hsrc, Hnode. simpl. rewrite Hdst, Hfail.
      injection Hres as ->. unfold set_calls, set_node. simpl. by rewrite Hins.
    + by intros wt' ->.
Qed.
End netsim.
