(* ===== verification/RaftNetRefines.v ===== *)
(** * The cluster on labrpc refines the abstract cluster: the tester's steps

    [connect], [disconnect], [crash1] and [start1] of src/src/raft/config.go
    keep the relation of RaftNetSim.v.  Where [crash1] has copied the persister,
    and again where [start1] makes the new instance, the abstract peer crashes. *)
From S2P Require Import Prelude GoStrings RaftNode RaftInv RaftSystem RaftSafety LabRpc Tester TesterTables RaftNet RaftNetSim.

Section netrefines.
Context {Cmd : Type} `{!Gob Cmd, !GobOk Cmd, !Wire Cmd, !WireOk Cmd}.
Implicit Types (c : cluster Cmd) (w : world Cmd) (wt : waiter Cmd) (q : request (St := procs Cmd)) (x : call Cmd).

(** ** Operations on the tables *)

Lemma tables_retable cfg c : tables (retable cfg c) = cfg.
Proof. by destruct cfg. Qed.

(** An operation on the tables that keeps the ends' names; the status of a peer
    changes at most from running to being crashed. *)
Lemma simul_reconfigure n S S' c w os cfg r' :
  simul n S c w os [] → cfg_ok S' cfg → cfg.(cn) = n → retains (tables c) cfg → cfg.(endnames) = c.(conf).(endnames) →
  (∀ i, i ∈ S' → ∃ s, r' !! i = Some (Up s)) → (∀ i s, serverAt cfg.(cnet) i = Some s → r' !! i = Some (Up s)) →
  (∀ i, r' !! i = c.(running) !! i ∨ ∃ s, c.(running) !! i = Some (Up s) ∧ r' !! i = Some (Leaving s)) →
  simul n S' (set_running r' (retable cfg c)) w os [].
Proof.
  intros [Ht Hv Hi Hpe Hc Hl Hr Ha] Hok Hn [Hre Hrr Hrn] Hnames Hon Hse Hr'. set (c' := set_running r' (retable cfg c)).
  assert (∀ s i, current c' s i = current c s i) as Hcur.
  { intros s i. unfold current. simpl. by destruct (Hr' i) as [->|(s' & -> & ->)]. }
  assert (∀ a s, r' !! a = Some (Up s) → running c !! a = Some (Up s)) as Hup.
  { intros a s. by destruct (Hr' a) as [->|(s' & _ & ->)]. }
  assert (∀ a, row cfg a = row (tables c) a) as Hrow by (intros a; by apply toggles_row).
  assert (tables c' = cfg) as Htab by apply (tables_retable cfg c).
  split; try done.
  - split; rewrite ?Htab; try done. intros i [st Hst]. apply (to_range _ _ _ Ht).
    destruct (Hr' i) as [E|(s & E & _)]; rewrite <- ?E; eexists; [exact Hst|exact E].
  - destruct Hv as [H1 H2 [H3 H4 H5] H6]. split; [done|done| |done]. split; [done|done|]. intros i s Hs%Hse%Hup.
    apply Hpe in Hs as (nd & Hnd & _). simpl. rewrite H1. by eapply lookup_lt_Some.
  - intros s i ps Hid j e He. destruct (Hi s i ps Hid j e He) as (Hin & Hco & Hdead). rewrite Hcur, Htab. split_and!.
    + by apply Hre.
    + simpl. by rewrite Hrr.
    + intros Hd. destruct (Hdead Hd) as [Hen Hno].
      assert (∀ a b s', endAt cfg a b = Some e → r' !! a ≠ Some (Up s')) as Hno'.
      { intros a b s' Hab Hs'%Hup. eapply (Hno a b s'); [|done]. unfold endAt in *. by rewrite <- Hrow. }
      split; [|done]. simpl. destruct (isEnabled (cnet cfg) e) eqn:Hen'; [|done].
      destruct (Hrn e Hin Hen') as [?|(a & b & Hab)]; [simpl in *; congruence|].
      rewrite (co_enabled _ _ Hok a b e Hab) in Hen'. apply andb_true_iff in Hen' as [HaS%bool_decide_eq_true _].
      apply Hon in HaS as [s' Hs']. by destruct (Hno' a b s' Hab).
  - intros i st Hst. simpl in Hst.
    assert (∀ s0, peer_ok c w i (Up s0) → peer_ok c' w i (Up s0) ∧ peer_ok c' w i (Leaving s0)) as Hlive.
    { intros s0 (nd & H1 & H2 & H3). split; exists nd; (split_and!; [done|done|]); by rewrite Htab, Hrow. }
    destruct (Hr' i) as [E|(s & E & E')].
    + rewrite E in Hst. apply Hpe in Hst. destruct st as [saved|s0|s0]; [exact Hst|by apply Hlive|by apply Hlive].
    + rewrite E' in Hst. injection Hst as <-. apply Hlive. by apply (Hpe i (Up s)).
  - intros k wt q o Hwt Hq Ho. eapply (request_ok_mono c); [|by eapply Hr]. intros s i ps Hs. split; [exact Hs|apply Hcur].
Qed.

Lemma retains_flags cfg rn :
  rn.(ends) = cfg.(cnet).(ends) → rn.(enabledEnds) = cfg.(cnet).(enabledEnds) → rn.(connections) = cfg.(cnet).(connections) →
  retains cfg (set_cnet rn cfg) ∧ ∀ S, cfg_ok S cfg → cfg_ok S (set_cnet rn cfg).
Proof.
  intros He Hn Hc. assert (∀ e, isEnabled rn e = isEnabled (cnet cfg) e) as Hen by (intros e; unfold isEnabled; by rewrite Hn).
  assert (∀ e, connectionOf rn e = connectionOf (cnet cfg) e) as Hco by (intros e; unfold connectionOf; by rewrite Hc).
  split.
  - split; simpl; [by rewrite He|by intros; rewrite Hco|]. intros e _. rewrite Hen. by left.
  - intros S [H1 H2 H3 H4 H5 H6 H7 H8 H9]. split; simpl; try done.
    + intros i j e Hij. rewrite He. by eapply H7.
    + intros i j e Hij. rewrite Hco. by eapply H8.
    + intros i j e Hij. rewrite Hen. by eapply H9.
Qed.

Lemma set_running_id c : set_running c.(running) c = c.
Proof. by destruct c. Qed.

(** The status of the peers is what it was. *)
Lemma simul_tables n S S' c w os cfg :
  simul n S c w os [] → cfg_ok S' cfg → cfg.(cn) = c.(conf).(cn) → retains (tables c) cfg → cfg.(endnames) = c.(conf).(endnames) →
  (∀ i, i ∈ S' → ∃ s, c.(running) !! i = Some (Up s)) → cfg.(cnet).(servers) = c.(lab).(net).(servers) →
  simul n S' (retable cfg c) w os [].
Proof.
  intros H Hok Hn Hre Hna Hon Hsv. rewrite <- (set_running_id (retable cfg c)).
  apply (simul_reconfigure n S); try done.
  - rewrite Hn. apply (si_tables _ _ _ _ _ _ H).
  - intros i s. unfold serverAt. rewrite Hsv. apply (si_tables _ _ _ _ _ _ H).
  - intros i. by left.
Qed.

Lemma Make_fields env ends i ps : (Make (Cmd := Cmd) env ends i ps).(persister) = ps ∧ (Make (Cmd := Cmd) env ends i ps).(peers) = ends.
Proof. unfold Make, readPersist. by repeat case_match. Qed.

Lemma omap_orphan i (os : list (option (call Cmd))) : omap id ((λ o : option (call Cmd), orphan i <$> o) <$> os) = orphan i <$> omap id os.
Proof. induction os as [|[x|] os IH]; simpl; [done| |done]. f_equal. exact IH. Qed.

(** The instances peer [i] has had are old now. *)
Lemma orphan_request c c' i wt q o :
  (∀ s j ps, ident c s = Some (j, ps) →
     ident c' s = Some (j, ps) ∧ current c' s j = if decide (j = i) then false else current c s j) →
  request_ok c wt q o → request_ok c' wt q (orphan i <$> o).
Proof.
  intros H [Hm Ha Hb (j & ps & Hid & Hend & Hca)]. split; [done..|]. exists j, ps.
  destruct (H _ _ _ Hid) as [Hid' Hcur]. split_and!; [done|done|].
  assert (∀ x, call_of c j wt x → call_of c' j wt (orphan i x) ∧ body (orphan i x) = body x) as Hof.
  { intros x (Hs & Hd & Hw). unfold call_of, orphan. rewrite Hcur, Hs. destruct (decide (j = i)); simpl; [|by rewrite Hw].
    rewrite andb_false_r. by split_and!. }
  destruct Hca as [? Hg|bs ???|x ? Hx Hbx|s ps' x Hs Ht Hx Hex]; simpl.
  - apply ca_ghost; [done|]. rewrite Hcur. by case_decide.
  - by eapply ca_done.
  - destruct (Hof x Hx) as [? Hbo]. apply ca_idle; [done..|by rewrite Hbo].
  - destruct (Hof x Hx) as [? Hbo], (H _ _ _ Hs) as [Hs' Hcs]. eapply ca_bound; [exact Hs'|done..|]. rewrite Hbo. unfold executed in *.
    destruct Hex as [(? & ? & Hn)|?]; [left|by right]. split_and!; [done|done|]. destruct Hn as [?|Hn]; [by left|right].
    rewrite Hcs. by case_decide.
Qed.

Lemma simul_save n S c w os i c' :
  simul n S c w os [] → xstep c (XSave i) = Done c' → ∃ w' os', follows w w' ∧ simul n S c' w' os' [].
Proof.
  intros [Ht Hv Hi Hpe Hc Hl Hr Ha]. cbn [xstep]. destruct (running c !! i) as [[|s|s]|] eqn:Hs; try done.
  pose proof (Hpe i _ Hs) as (nd & Hnd & Hw & Hrow). rewrite Hnd. cbn [enabled outcome_bind]. intros [= <-].
  set (c' := set_running _ c). set (ps := peers (raft nd)) in *.
  set (nd' := mkNode (Make (mkEnv 0 0) ps i (RaftNode.start1 (persister (raft nd)))) [] None).
  assert (i ∉ S) as HiS by (intros [s' Hs']%(to_online _ _ _ Ht); congruence).
  assert (∀ s0 j, current c' s0 j = if decide (j = i) then false else current c s0 j) as Hcur.
  { intros s0 j. unfold current. simpl. case_decide as Hj; [by rewrite Hj, lookup_insert_eq|by rewrite lookup_insert_ne]. }
  assert (∀ a s', running c' !! a = Some (Up s') → running c !! a = Some (Up s') ∧ a ≠ i) as Hup.
  { intros a s'. simpl. rewrite lookup_insert_Some. intros [[_ ?]|[? ?]]; done. }
  exists (mkWorld (<[i := nd']> (nodes w)) (orphan i <$> calls w) (applied w)), ((λ o : option (call Cmd), orphan i <$> o) <$> os). split.
  { right. exists (LCrash i (mkEnv 0 0) ps). simpl. rewrite Hw. simpl. by rewrite decide_True. }
  split; simpl.
  - destruct Ht as [H1 H2 H3 H4 H5]. split; try done.
    + intros j Hj. destruct (H3 j Hj) as [s' Hs']. exists s'. simpl. rewrite lookup_insert_ne; [done|]. by intros <-.
    + intros j s' Hj. simpl. rewrite lookup_insert_ne; [by apply H4|]. intros <-. apply H4 in Hj. congruence.
    + intros j [st Hj]. apply H5. simpl in Hj. rewrite lookup_insert_Some in Hj. destruct Hj as [[<- _]|[_ Hj]]; by eexists.
  - by destruct Hv; split.
  - intros s0 j qs Hid j' e He. destruct (Hi s0 j qs Hid j' e He) as (Hin & Hco & Hdead). split_and!; [done|done|].
    rewrite Hcur. destruct (decide (j = i ∧ current c s0 j = true)) as [[-> Hcu]|Hn].
    + intros _. apply current_status in Hcu. rewrite Hs in Hcu. destruct Hcu as [?|Hcu]; [done|]. injection Hcu as <-.
      unfold ident in Hid. change (theInsts c') with (theInsts c) in Hid. rewrite Hnd in Hid. injection Hid as <-.
      assert (endAt (tables c) i j' = Some e) as Hend by (unfold endAt; by rewrite Hrow).
      split.
      * change (net (lab c')) with (cnet (tables c)). rewrite (co_enabled _ _ (to_cfg _ _ _ Ht) i j' e Hend). by rewrite bool_decide_false.
      * intros a b s' Hab Hs'%Hup. destruct (co_inj _ _ (to_cfg _ _ _ Ht) _ _ _ _ _ Hab Hend) as [-> _]. by destruct Hs'.
    + intros Hd. destruct Hdead as [Hen Hno]; [case_decide as Hj; [|done]; destruct (current c s0 j); [by destruct Hn|done]|].
      split; [done|]. intros a b s' Hab Hs'%Hup. by apply (Hno a b s'); [|destruct Hs'].
  - intros j st Hst. simpl in Hst. rewrite lookup_insert_Some in Hst. destruct Hst as [[<- <-]|[Hne Hst]].
    + exists nd'. simpl. rewrite lookup_insert_eq. split; [done|]. by rewrite (proj1 (Make_fields _ _ _ _)).
    + pose proof (Hpe j st Hst) as Hp. unfold peer_ok in *. simpl. by rewrite lookup_insert_ne.
  - by rewrite omap_orphan, Hc, !app_nil_r.
  - by rewrite length_fmap.
  - intros k wt q o Hwt Hq Ho. rewrite list_lookup_fmap in Ho. destruct (os !! k) as [o0|] eqn:Ho0; [|done]. injection Ho as <-.
    eapply (orphan_request c); [|by eapply Hr]. intros s0 j qs Hid. split; [exact Hid|apply Hcur].
  - done.
Qed.

(** The network with one more server. *)
Lemma boot_servers c i names env saved cfg s0 :
  servers_are c → s0 = length c.(lab).(heap) →
  (∀ j s, serverAt cfg.(cnet) j = Some s → s = s0 ∨ (s < s0)%nat) →
  let st := c.(lab).(hst) in
  servers_are (mkCluster (mkNet cfg.(cnet) (c.(lab).(heap) ++ [AddService (raftService s0) MakeServer]) c.(lab).(reqs)
    (mkProcs (st.(insts) ++ [mkInst i (mkNode (Make env names i (restored saved)) [] None)]) st.(clock) st.(crashed)))
    cfg (<[i := Up s0]> c.(running)) c.(waiters) c.(sent) c.(stray)).
Proof.
  intros [H1 H2 [H3 H4 H5] H6] Hs0 Hptr. split; unfold theInsts in *; simpl.
  - rewrite !length_app. simpl. lia.
  - intros s rs [Hs|[Hle Hs]]%lookup_app_Some; [by apply H2|]. apply list_lookup_singleton_Some in Hs as [Hk <-].
    replace s with s0 by lia. done.
  - split; simpl.
    + eapply Forall_impl; [exact H3|]. intros q. apply req_ok_mono, heap_le_app.
    + apply Forall_app. split; [done|]. apply Forall_singleton. by apply map_Forall_insert_2; [split|].
    + intros j s Hs. rewrite length_app. simpl. destruct (Hptr j s Hs); lia.
  - done.
Qed.

Lemma simul_boot n S c w os i names env c' :
  world_ok n w → simul n S c w os [] → xstep c (XBoot i names env) = Done c' →
  ∃ S' w' os', follows w w' ∧ simul n S' c' w' os' [].
Proof.
  intros Hwok [Ht Hv Hi Hpe Hc Hl Hr Ha]. cbn [xstep]. destruct (running c !! i) as [[saved|s|s]|] eqn:Hs; try done.
  case_decide as Hlen; [|done]. unfold boot. set (s0 := length (heap (lab c))). set (it := mkInst i _).
  destruct (Tester.start1 i names s0 (tables c)) as [cfg| |] eqn:Hst; simpl; [|done..]. intros [= <-]. set (c' := mkCluster _ _ _ _ _ _).
  pose proof (Hpe i _ Hs) as (nd & Hw & Hsaved). pose proof Ht as [Hcfg Hcn Hon Hsrv Hrg].
  pose proof (Hrg i ltac:(by rewrite Hs)) as Hir. rewrite Hcn in Hlen.
  apply (start1_retains S) in Hst as (Hcn' & Hfresh & Hcfg' & [Hre Hrr Hrn] & Hrow & Hsv); [|done|simpl; lia|simpl; lia].
  assert (i ∉ S) as HiS by (intros [s' Hs']%Hon; congruence).
  assert (tables c' = cfg) as Htab by (by destruct cfg).
  assert (length (theInsts c) = s0) as Hlen0 by (symmetry; apply Hv).
  assert (∀ s j ps, ident c s = Some (j, ps) → ident c' s = Some (j, ps) ∧ (s < s0)%nat) as Hold.
  { intros s j ps Hid. assert (s < length (theInsts c))%nat as Hlt.
    { unfold ident in Hid. destruct (theInsts c !! s) eqn:E; [|done]. by eapply lookup_lt_Some. }
    split; [|lia]. unfold ident, theInsts in *. simpl. by rewrite lookup_app_l. }
  assert (∀ s j, (s < s0)%nat → current c' s j = if decide (j = i) then false else current c s j) as Hcur.
  { intros s j Hlt. unfold current. simpl. case_decide as Hj; [|by rewrite lookup_insert_ne].
    rewrite Hj, lookup_insert_eq. apply bool_decide_false. lia. }
  assert (∀ s, current c s i = false) as Hdown by (intros s; unfold current; by rewrite Hs).
  exists (S ∖ {[i]}), (mkWorld (<[i := proc it]> (nodes w)) (orphan i <$> calls w) (applied w)), ((λ o : option (call Cmd), orphan i <$> o) <$> os). split.
  { right. exists (LCrash i env names). simpl. rewrite Hw. simpl. destruct (wo_nodes _ _ Hwok i nd Hw) as (Hok & _ & _).
    rewrite decide_True by (rewrite (ok_peers _ _ Hok); lia). unfold set_calls, set_node. simpl. by rewrite Hsaved. }
  split; simpl.
  - split; rewrite ?Htab; try done.
    + simpl. rewrite Hcn'. exact Hcn.
    + intros j [Hj Hji]%elem_of_difference. destruct (Hon j Hj) as [s' Hs']. exists s'. simpl. rewrite lookup_insert_ne; [done|]. set_solver.
    + intros j s Hj. simpl in *. rewrite Hsv in Hj. case_decide as Hji; [by rewrite Hji, lookup_insert_eq; injection Hj as ->|].
      rewrite lookup_insert_ne by done. by apply Hsrv.
    + intros j [st Hj]. apply Hrg. simpl in Hj. rewrite lookup_insert_Some in Hj. destruct Hj as [[<- _]|[_ Hj]]; by eexists.
  - apply boot_servers; [done|done|]. intros j s Hj. rewrite Hsv in Hj. case_decide; [left; congruence|]. right.
    by apply (no_ptr _ _ (sr_net _ Hv)) in Hj.
  - intros s j ps Hid k e He. destruct (decide (s < s0)%nat) as [Hlt|Hge].
    + assert (ident c s = Some (j, ps)) as Hid0.
      { unfold ident, theInsts in *. simpl in Hid. by rewrite lookup_app_l in Hid by lia. }
      destruct (Hi s j ps Hid0 k e He) as (Hin & Hco & Hdead). split_and!; [by apply Hre|simpl; by rewrite Hrr|].
      rewrite (Hcur s j Hlt), Htab. intros Hd. destruct Hdead as [Hen Hno]; [case_decide as Hj; [rewrite Hj; apply Hdown|done]|].
      assert (∀ a b s', endAt cfg a b = Some e → running c' !! a ≠ Some (Up s')) as Hno'.
      { intros a b s' Hab. unfold endAt in Hab. rewrite Hrow in Hab. case_decide as Hai.
        - exfalso. simpl in Hab. apply slice_get_lookup in Hab as [_ Hab]. apply (Hfresh e); [by eapply list_elem_of_lookup_2|done].
        - simpl. rewrite lookup_insert_ne by done. by apply (Hno a b s'). }
      split; [|done]. simpl. destruct (isEnabled (cnet cfg) e) eqn:Hen'; [|done].
      destruct (Hrn e Hin Hen') as [?|(a & b & Hab)]; [simpl in *; congruence|].
      rewrite (co_enabled _ _ Hcfg' a b e Hab) in Hen'. apply andb_true_iff in Hen' as [[HaS Hai]%bool_decide_eq_true%elem_of_difference _].
      apply Hon in HaS as [s' Hs']. destruct (Hno' a b s' Hab). simpl. rewrite lookup_insert_ne; [done|]. set_solver.
    + unfold ident, theInsts in Hid. simpl in Hid. rewrite lookup_app_r in Hid by (unfold theInsts in Hlen0; lia).
      destruct ([it] !! (s - length (insts (hst (lab c))))%nat) as [it'|] eqn:E; [|done].
      apply list_lookup_singleton_Some in E as [Hz <-]. injection Hid as <- <-. rewrite (proj2 (Make_fields _ _ _ _)) in He.
      assert (endAt cfg i k = Some e) as Hend by (unfold endAt; by rewrite Hrow, decide_True).
      split_and!; [by eapply (co_ends _ _ Hcfg')|by eapply (co_route _ _ Hcfg')|]. unfold current. simpl. rewrite lookup_insert_eq.
      rewrite bool_decide_true; [done|]. unfold theInsts in Hlen0. lia.
  - intros j st Hst. simpl in Hst. rewrite lookup_insert_Some in Hst. destruct Hst as [[<- <-]|[Hne Hst]].
    + exists (proc it). simpl. rewrite lookup_insert_eq. split_and!; [|done|].
      * unfold theInsts in *. simpl. by rewrite lookup_app_r, Hlen0, Nat.sub_diag by lia.
      * rewrite Htab, Hrow, decide_True by done. by rewrite (proj2 (Make_fields _ _ _ _)).
    + pose proof (Hpe j st Hst) as Hp. unfold peer_ok in *. rewrite Htab. simpl. rewrite lookup_insert_ne, Hrow, decide_False by done.
      destruct st as [saved'|s|s]; [done|..]; destruct Hp as (nd1 & H1 & H2 & H3); exists nd1; (split_and!; [|done|done]);
        unfold theInsts in *; simpl; by apply lookup_app_l_Some.
  - by rewrite omap_orphan, Hc, !app_nil_r.
  - by rewrite length_fmap.
  - intros k wt q o Hwt Hq Ho. rewrite list_lookup_fmap in Ho. destruct (os !! k) as [o0|] eqn:Ho0; [|done]. injection Ho as <-.
    eapply (orphan_request c); [|by eapply Hr]. intros s j ps Hid. destruct (Hold s j ps Hid) as [Hid' Hlt]. split; [done|by apply Hcur].
  - done.
Qed.

(** ** Every step *)

Lemma reconfigured f c c' : reconfigure f c = Done c' → ∃ cfg, f (tables c) = Ok cfg ∧ c' = retable cfg c.
Proof. unfold reconfigure. destruct (f (tables c)) as [cfg| |]; simpl; [|done..]. intros [= <-]. by exists cfg. Qed.

Lemma simul_connect n S c w os i s c' :
  simul n S c w os [] → c.(running) !! i = Some (Up s) → reconfigure (connect i) c = Done c' → simul n ({[i]} ∪ S) c' w os [].
Proof.
  intros H Hi (cfg & Hcfg & ->)%reconfigured. pose proof (si_tables _ _ _ _ _ _ H) as [H1 H2 H3 H4 H5].
  pose proof (H5 i ltac:(by rewrite Hi)) as Hir. pose proof (si_peers _ _ _ _ _ _ H i _ Hi) as (nd & _ & _ & Hrow).
  pose proof (connect_toggles i (tables c) cfg Hcfg) as Htg.
  pose proof (connect_ok S i (tables c) H1 ltac:(simpl; lia) ltac:(by rewrite Hrow)) as Hok. rewrite Hcfg in Hok. destruct Hok as [Hok _].
  eapply simul_tables; [done|exact Hok|by destruct Htg|by eapply toggles_retains|by destruct Htg| |by destruct Htg].
  intros j [->%elem_of_singleton|Hj]%elem_of_union; [by exists s|by apply H3].
Qed.

Lemma simul_disconnect n S c w os i c' :
  simul n S c w os [] → is_Some (c.(running) !! i) → reconfigure (disconnect i) c = Done c' → simul n (S ∖ {[i]}) c' w os [].
Proof.
  intros H Hi (cfg & Hcfg & ->)%reconfigured. pose proof (si_tables _ _ _ _ _ _ H) as [H1 H2 H3 H4 H5]. pose proof (H5 i Hi) as Hir.
  pose proof (disconnect_toggles i (tables c) cfg Hcfg) as Htg.
  pose proof (disconnect_ok S i (tables c) H1 ltac:(simpl; lia)) as Hok. rewrite Hcfg in Hok. destruct Hok as [Hok _].
  eapply simul_tables; [done|exact Hok|by destruct Htg|by eapply toggles_retains|by destruct Htg| |by destruct Htg].
  intros j [Hj _]%elem_of_difference. by apply H3.
Qed.

Lemma simul_crash n S c w os i s c1 :
  simul n S c w os [] → c.(running) !! i = Some (Up s) → reconfigure (Tester.crash1 i) c = Done c1 →
  simul n (S ∖ {[i]}) (set_running (<[i := Leaving s]> c1.(running)) c1) w os [].
Proof.
  intros H Hi (cfg & Hcfg & ->)%reconfigured. pose proof (si_tables _ _ _ _ _ _ H) as [H1 H2 H3 H4 H5].
  pose proof (H5 i ltac:(by rewrite Hi)) as Hir.
  pose proof (crash1_ok S i (tables c) H1 ltac:(simpl; lia)) as Hok. rewrite Hcfg in Hok. destruct Hok as [Hok _].
  apply crash1_retains in Hcfg as (Hn & He & Hends & Hro & Hen & Hsv).
  apply (simul_reconfigure n S (S ∖ {[i]}) c w os cfg (<[i := Leaving s]> (running c))); [done|done|by rewrite Hn| |done|..].
  - split; [by rewrite Hends|by intros; apply Hro|]. intros e _ ?. left. by apply Hen.
  - intros j [Hj Hji]%elem_of_difference. rewrite lookup_insert_ne by set_solver. by apply H3.
  - intros j s' Hj. rewrite Hsv in Hj. case_decide; [done|]. rewrite lookup_insert_ne by done. by apply H4.
  - intros j. destruct (decide (j = i)) as [->|]; [right; exists s; by rewrite lookup_insert_eq|left; by rewrite lookup_insert_ne].
Qed.

Lemma simul_step n S c w os l c' :
  world_ok n w → simul n S c w os [] → xstep c l = Done c' → ∃ S' w' os', follows w w' ∧ simul n S' c' w' os' [].
Proof.
  intros Hw H Hs. destruct l as [l env|s a|k env|b|b|i|i|i|i|i names env].
  - exists S. by eapply simul_net.
  - exists S. by eapply simul_act.
  - exists S. by eapply simul_return.
  - apply reconfigured in Hs as (cfg & [= <-] & ->). exists S, w, os. split; [by left|].
    destruct (retains_flags (tables c) (Reliable (negb b) (net (lab c)))) as [Hre Hok]; [done..|].
    eapply simul_tables; [done|apply Hok, H|done|done|done|apply (si_tables _ _ _ _ _ _ H)|done].
  - apply reconfigured in Hs as (cfg & [= <-] & ->). exists S, w, os. split; [by left|].
    destruct (retains_flags (tables c) (LongReordering b (net (lab c)))) as [Hre Hok]; [done..|].
    eapply simul_tables; [done|apply Hok, H|done|done|done|apply (si_tables _ _ _ _ _ _ H)|done].
  - cbn [xstep] in Hs. destruct (running c !! i) as [[|s|]|] eqn:Hi; try done.
    exists ({[i]} ∪ S), w, os. split; [by left|]. by eapply simul_connect.
  - cbn [xstep] in Hs. destruct (running c !! i) as [st|] eqn:Hi; [|done].
    exists (S ∖ {[i]}), w, os. split; [by left|]. eapply simul_disconnect; [done|by rewrite Hi|done].
  - cbn [xstep] in Hs. destruct (running c !! i) as [[|s|]|] eqn:Hi; try done.
    destruct (reconfigure (Tester.crash1 i) c) as [c1| |] eqn:Hc1; [|done..]. injection Hs as <-.
    exists (S ∖ {[i]}), w, os. split; [by left|]. by eapply simul_crash.
  - exists S. by eapply simul_save.
  - by eapply simul_boot.
Qed.

Lemma simul_init n unreliable env (ends : list string) :
  len ends = n → simul n ∅ (cinit n unreliable) (init env ends) [] [].
Proof.
  intros Hn. assert (∀ i st, running (cinit (Cmd := Cmd) n unreliable) !! i = Some st → 0 ≤ i < n ∧ st = Down None) as Hrun.
  { intros i st Hi. simpl in Hi. apply elem_of_list_to_map_2, list_elem_of_fmap in Hi as (j & [= -> ->] & Hj%elem_of_range). done. }
  split.
  - split; [apply (blank_ok n unreliable); subst n; apply len_nonneg|done|done| |].
    + intros i s. unfold serverAt. simpl. by rewrite lookup_empty.
    + intros i [st Hst]. by apply Hrun in Hst as [? _].
  - split; [done|done| |done]. split; [constructor..|]. intros i s. unfold serverAt. simpl. by rewrite lookup_empty.
  - done.
  - intros i st Hi. apply Hrun in Hi as [Hi ->]. eexists. split; [apply init_lookup; split; [lia|done]|].
    cbn [raft]. by rewrite (proj1 (Make_fields _ _ _ _)).
  - done.
  - done.
  - done.
  - done.
Qed.

Lemma follows_steps w w' : follows w w' → steps w w'.
Proof. intros [->|Hl]; [done|]. by apply rtc_once. Qed.

(** The abstract cluster that a cluster on labrpc stands for. *)
Definition stands_for c w : Prop :=
  (∀ i s, c.(running) !! i = Some (Up s) ∨ c.(running) !! i = Some (Leaving s) →
     ∃ nd, theInsts c !! s = Some (mkInst i nd) ∧ w.(nodes) !! i = Some nd) ∧
  (∀ i saved, c.(running) !! i = Some (Down saved) →
     ∃ nd, w.(nodes) !! i = Some nd ∧ RaftNode.start1 nd.(raft).(persister) = restored saved) ∧
  w.(applied) = c.(sent).

(** Instance [s] is the current one of its peer. *)
Definition live c (s : nat) : Prop := ∃ it, theInsts c !! s = Some it ∧ current c s it.(owner) = true.

(** A step of the network, or of a running instance: an act of its own, the
    continuation of a call that returns to it, or the execution of a request by
    its handler. *)
Definition of_running c (l : xlabel Cmd) : Prop :=
  match l with
  | XAct s _ => live c s
  | XReturn k _ => ∀ wt, c.(waiters) !! k = Some wt → live c wt.(wInst)
  | XNet (NHandle k) _ => ∀ q s m, c.(lab).(reqs) !! k = Some q → q.(qExec) = HFound (raftService s) m → live c s
  | XNet _ _ => True
  | _ => False
  end.

(** None of them panics. *)
Definition runs_safely c : Prop := ∀ l, of_running c l → xstep c l ≠ Panicked.

Lemma step_safe n w lb : world_ok n w → step w lb ≠ Panicked.
Proof. intros Hw E. pose proof (step_ok n w lb Hw) as Hok. by rewrite E in Hok. Qed.

(** The calls an instance makes are to peers it has an end for. *)
Lemma issueAll_safe (xs : list (call Cmd)) s rf c :
  Forall (λ x, 0 ≤ x.(dst) < len rf.(peers)) xs → issueAll s rf xs c ≠ Panicked.
Proof.
  intros Hxs. revert c. induction Hxs as [|x xs Hx _ IH]; intros c; [done|]. cbn [issueAll]. unfold issue.
  destruct (slice_get_inr (peers rf) (dst x) Hx) as [e ->]. cbn [program outcome_bind nstep].
  case_decide; cbn [outcome_bind]; [apply IH|done].
Qed.

Lemma act_safe n S c w os s a :
  world_ok n w → simul n S c w os [] → live c s → xstep c (XAct s a) ≠ Panicked.
Proof.
  intros Hw H (it & Hit & Hcur). cbn [xstep]. rewrite Hit. cbn [enabled outcome_bind].
  pose proof (current_peer n S c w os [] s it H Hit Hcur) as Hnode.
  pose proof (step_ok n w (label_of (owner it) a) Hw) as Hok. rewrite (node_act_step w _ _ a Hnode) in Hok.
  destruct (node_act (owner it) (proc it) a) as [[[nd xs] m]| |]; cbn [outcome_bind] in *; [|done..].
  apply issueAll_safe, Forall_forall. intros x Hx.
  destruct (wo_calls _ _ Hok x) as (_ & Hd & _); [simpl; by apply elem_of_app; right|].
  destruct (wo_nodes _ _ Hok (owner it) nd) as (Hn & _); [simpl; by rewrite lookup_insert_eq|].
  rewrite (ok_peers _ _ Hn). exact Hd.
Qed.

(** The call of the abstract cluster that a running instance is waiting for. *)
Lemma returned_call n S c w os k wt q rep it :
  simul n S c w os [] → c.(waiters) !! k = Some wt → c.(lab).(reqs) !! k = Some q → q.(qAnswer) = Some rep →
  theInsts c !! wt.(wInst) = Some it → wt.(wBlocked) = true → current c wt.(wInst) it.(owner) = true →
  ∃ k' x, w.(calls) !! k' = Some x ∧ x.(waiting) = true ∧ x.(src) = it.(owner) ∧ x.(dst) = wt.(wDst) ∧
    (rep.(rok) = true → decodeReply wt.(wBody) rep.(rreply) = Some x.(body)).
Proof.
  intros H Hwt Hq Hans Hit Hbl Hcur.
  destruct (lookup_lt_is_Some_2 os k) as [o Ho]; [rewrite (proj2 (si_len _ _ _ _ _ _ H)); by eapply lookup_lt_Some|].
  pose proof (si_reqs _ _ _ _ _ _ H k wt q o Hwt Hq Ho) as [_ _ _ (i & ps & Hid & _ & Hca)].
  unfold ident in Hid. rewrite Hit in Hid. injection Hid as <- <-.
  destruct (answered_done (heap (lab c)) q rep) as [Hdone Hrep];
    [by apply (Forall_lookup_1 _ _ _ _ (no_reqs _ _ (sr_net _ (si_servers _ _ _ _ _ _ H))) Hq)|done|].
  assert (∃ x, o = Some x ∧ call_of c (owner it) wt x ∧ (rok rep = true → decodeReply (wBody wt) (rreply rep) = Some (body x)))
    as (x & -> & (Hsrc & Hdst & Hwait) & Hdec).
  { destruct Hca as [? Hg|bs ???|x Hidle Hx Hb|s ps x Hs Ht Hx Hex]; [congruence|congruence|exists x|exists x]; (split_and!; [done|done|]).
    - destruct Hidle as [Hx0 _]. destruct Hrep as [->|Hx1]; [done|congruence].
    - intros Hrok. assert (ran q = Some (rreply rep)) as Hran by (destruct Hrep as [->|Hx1]; [done|]; unfold ran; by rewrite Hx1).
      destruct Hex as [(_ & Hnp & _)|(bs & Hbs & Hd)]; [destruct Hnp; right; by exists rep|congruence]. }
  destruct (omap_id_lookup os k x Ho) as (k' & Hk' & _ & _). exists k', x. rewrite (si_calls _ _ _ _ _ _ H), app_nil_r.
  rewrite Hbl, Hcur in Hwait. by split_and!.
Qed.

Lemma return_safe n S c w os k env :
  world_ok n w → simul n S c w os [] → of_running c (XReturn k env) → xstep c (XReturn k env) ≠ Panicked.
Proof.
  intros Hw H Hlive. cbn [xstep]. destruct (waiters c !! k) as [wt|] eqn:Hwt; cbn [enabled outcome_bind]; [|done].
  destruct (Hlive wt Hwt) as (it & Hit & Hcur). destruct (reqs (lab c) !! k) as [q|] eqn:Hq; cbn [enabled outcome_bind]; [|done].
  destruct (qAnswer q) as [rep|] eqn:Hans; cbn [enabled outcome_bind]; [|done]. rewrite Hit. cbn [enabled outcome_bind].
  destruct (wBlocked wt) eqn:Hbl; [|done].
  destruct (returned_call n S c w os k wt q rep it) as (k' & x & Hk' & Hwait & Hsrc & Hdst & Hdec); [done..|].
  destruct (rok rep); [|by destruct (return_fail _ _ _ _)]. rewrite (Hdec eq_refl). cbn [program outcome_bind].
  pose proof (current_peer n S c w os [] (wInst wt) it H Hit Hcur) as Hnode.
  pose proof (step_safe n w (LReturn k' env) Hw) as Hs. cbn [step] in Hs. rewrite Hk' in Hs. cbn [enabled outcome_bind] in Hs.
  rewrite Hwait, Hsrc, Hnode in Hs. cbn [enabled outcome_bind] in Hs. rewrite Hdst in Hs.
  by destruct (return_ok env (wDst wt) (body x) (raft (proc it))) as [[rf gs]| |].
Qed.

(** The service a request has found is an instance's, and has the method. *)
Lemma found_service n S c w os k wt q o svc m :
  simul n S c w os [] → c.(waiters) !! k = Some wt → c.(lab).(reqs) !! k = Some q → os !! k = Some o →
  q.(qExec) = HFound svc m → ∃ s f, svc = raftService s ∧ svc.(methods) !! m = Some f.
Proof.
  intros H Hwt Hq Ho Hx. pose proof (si_servers _ _ _ _ _ _ H) as [_ Hsv Hok _].
  pose proof (Forall_lookup_1 _ _ _ _ (no_reqs _ _ Hok) Hq) as [He _]. unfold exec_ok in He. rewrite Hx in He.
  destruct He as (rs & y & (s & Hs)%list_elem_of_lookup_1 & Hsp & Hy). rewrite (Hsv s rs Hs) in Hy.
  apply lookup_singleton_Some in Hy as [<- <-]. exists s.
  pose proof (si_reqs _ _ _ _ _ _ H k wt q o Hwt Hq Ho) as [Hm _ _ _]. rewrite Hm in Hsp.
  destruct (wBody wt); vm_compute in Hsp; injection Hsp as <-; eexists; (split; [done|reflexivity]).
Qed.

Lemma serviceDispatch_found (svc : Service (procs Cmd)) m f args st :
  svc.(methods) !! m = Some f → serviceDispatch svc m args st = let '(st, b) := f args st in Ok (st, mkReply true b).
Proof. intros H. unfold serviceDispatch, handler in *. by rewrite H. Qed.

(** The handler of a running instance executes a request. *)
Lemma handle_safe n S c w os k wt q o env svc m :
  world_ok n w → simul n S c w os [] → c.(lab).(hst) = mkProcs (theInsts c) env false →
  c.(waiters) !! k = Some wt → c.(lab).(reqs) !! k = Some q → os !! k = Some o →
  q.(qExec) = HFound svc m → (∀ s, svc = raftService s → live c s) →
  ∃ st r, serviceDispatch svc m q.(qArgs) c.(lab).(hst) = Ok (st, r) ∧ st.(crashed) = false.
Proof.
  intros Hw H Hst Hwt Hq Ho Hx Hlive. destruct (found_service n S c w os k wt q o svc m H Hwt Hq Ho Hx) as (_ & f & _ & Hf).
  pose proof (si_reqs _ _ _ _ _ _ H k wt q o Hwt Hq Ho) as Hro. pose proof Hro as [_ Ha Hb _].
  destruct (found_handler c wt q o svc m f Hro Hx Hf)
    as (s & it & i & ps & x & -> & -> & _ & _ & Hit & Hown & [_ Ht] & (_ & Hxd & _) & Hbody & _).
  rewrite Hx in Ht. destruct Ht as [Hsvc _]. destruct (Hlive s Hsvc) as (it' & Hit' & Hcur).
  rewrite Hit in Hit'. injection Hit' as <-. pose proof (current_peer n S c w os [] s it H Hit Hcur) as Hnode.
  destruct (omap_id_lookup os k x Ho) as (k' & Hk' & _ & _).
  pose proof (step_safe n w (LDeliver k' env) Hw) as Hs. cbn [step] in Hs.
  rewrite (si_calls _ _ _ _ _ _ H), app_nil_r, Hk' in Hs. cbn [enabled outcome_bind] in Hs.
  rewrite Hxd, <- Hown, Hnode in Hs. cbn [enabled outcome_bind] in Hs. rewrite Hbody in Hs.
  rewrite (serviceDispatch_found _ _ _ _ _ Hf), Ha, Hst.
  assert (∃ st b, handlerOf s (wBody wt) (argsOf (wBody wt)) (mkProcs (theInsts c) env false) = (st, b) ∧ crashed st = false)
    as (st & b & -> & Hcr); [|by exists st, (mkReply true b)].
  destruct (wBody wt) as [args t mm ro|args t ro|args t rest ro]; simpl in Hb; subst ro; simpl; unfold receive; simpl; rewrite Hit, gdec_genc; simpl.
  - simpl in Hs. destruct (RequestVote env args (raft (proc it))) as [[rf r]|]; [|done]. by do 2 eexists.
  - destruct (Heartbeat env args (raft (proc it))) as [rf r]. by do 2 eexists.
  - destruct (AppendEntries env args (raft (proc it))) as [rf r]. by do 2 eexists.
Qed.

Lemma net_safe n S c w os l env :
  world_ok n w → simul n S c w os [] → of_running c (XNet l env) → xstep c (XNet l env) ≠ Panicked.
Proof.
  intros Hw H0 Hlive. cbn [xstep]. destruct (carrier l) eqn:Hl; [|done]. set (v := set_hst _ (lab c)).
  pose proof (si_servers _ _ _ _ _ _ H0) as [Hlen Hserv [H3 H4 H5] Hcr].
  assert (servers_are (set_lab v c)) as Hsv0 by (by split; [..|split|]).
  assert (simul n S (set_lab v c) w os []) as H by (by eapply simul_same; [exact H0|by apply theInsts_alike|..]).
  assert (crashed (hst v) = false) as Hcr0 by exact Hcr.
  destruct l as [op|svcs|m s|e m args|k|k draw|k|k|k|k|k draw draw'|k|k]; try done; cbn [nstep].
  all: destruct (reqs v !! k) as [q|] eqn:Hq; cbn [enabled outcome_bind]; [|done].
  3: { destruct (qExec q) as [|s| |] eqn:Hx; try done.
       pose proof (Forall_lookup_1 _ _ _ _ (no_reqs _ _ (sr_net _ Hsv0)) Hq) as [He _]. unfold exec_ok in He. rewrite Hx in He.
       destruct (lookup_lt_is_Some_2 (heap v) s He) as [rs Hrs]. rewrite Hrs. cbn [program outcome_bind].
       destruct (lookup_lt_is_Some_2 (waiters c) k) as [wt Hwt].
       { rewrite (proj1 (si_len _ _ _ _ _ _ H0)). by eapply lookup_lt_Some. }
       destruct (lookup_lt_is_Some_2 os k) as [o Ho]; [rewrite (proj2 (si_len _ _ _ _ _ _ H0)); by eapply lookup_lt_Some|].
       pose proof (si_reqs _ _ _ _ _ _ H0 k wt q o Hwt Hq Ho) as [Hm _ _ _]. unfold serverDispatch.
       rewrite Hm, (Hserv s rs Hrs). assert (∃ m, splitLast (methodOf (wBody wt)) = Some ("Raft", m)) as [m ->]
         by (destruct (wBody wt); eexists; by vm_compute).
       rewrite lookup_singleton_eq. cbn [outcome_of outcome_bind hst]. by rewrite Hcr0. }
  3: { destruct (qExec q) as [| |svc m|] eqn:Hx; try done.
       destruct (lookup_lt_is_Some_2 (waiters c) k) as [wt Hwt].
       { rewrite (proj1 (si_len _ _ _ _ _ _ H0)). by eapply lookup_lt_Some. }
       destruct (lookup_lt_is_Some_2 os k) as [o Ho]; [rewrite (proj2 (si_len _ _ _ _ _ _ H0)); by eapply lookup_lt_Some|].
       destruct (handle_safe n S (set_lab v c) w os k wt q o env svc m) as (st & r & Hd & Hc); try done.
       - simpl. by rewrite Hcr.
       - intros s ->. by apply (Hlive q s m).
       - change (lab (set_lab v c)) with v in Hd. rewrite Hd. cbn [outcome_of outcome_bind hst]. by rewrite Hc. }
  all: repeat (case_match; try done); cbn [outcome_bind set_req hst]; by rewrite Hcr0.
Qed.

(** A running instance does not panic. *)
Lemma simul_safe n S c w os : world_ok n w → simul n S c w os [] → runs_safely c.
Proof.
  intros Hw H l Hl. destruct l as [l env|s a|k env|b|b|i|i|i|i|i names env]; try done.
  - by eapply net_safe.
  - by eapply act_safe.
  - by eapply return_safe.
Qed.
End netrefines.

(** ** Theorems *)

(** C6. The peers on labrpc refine the abstract cluster: whatever the network
    loses, delays and reorders, however the tester connects, disconnects,
    crashes and restarts peers, and although the instances it has crashed go on,
    there is an execution of the abstract cluster in which every peer has the
    state of its running instance, a peer that is down has the persisted state
    the tester has saved, and the commands applied are those the running
    instances have sent.  And no running instance panics, nor does the network:
    neither what an instance does by itself, nor the execution of a request by
    its handler, nor what it does when one of its calls returns, decoding the
    reply included.  (What an instance does after it was crashed is not said to
    be safe.) *)
Theorem raft_on_labrpc {Cmd : Type} `{!Gob Cmd, !GobOk Cmd, !Wire Cmd, !WireOk Cmd} unreliable env (ends : list string) (c : cluster Cmd) :
  xsteps (cinit (len ends) unreliable) c →
  (∃ w, steps (init env ends) w ∧ stands_for c w) ∧ runs_safely c.
Proof.
  intros Hc. assert (∃ S w os, steps (init env ends) w ∧ simul (len ends) S c w os []) as (S & w & os & Hw & H).
  { revert c Hc. apply (rtc_ind_r (λ c, ∃ S w os, steps (init env ends) w ∧ simul (len ends) S c w os [])).
    - exists ∅, (init env ends), []. split; [done|]. by apply simul_init.
    - intros c c' _ [l Hl] (S & w & os & Hw & H).
      destruct (simul_step (len ends) S c w os l c') as (S' & w' & os' & Hf & H');
        [eapply steps_ok; [exact Hw|apply init_ok]|done|done|].
      exists S', w', os'. split; [|done]. etrans; [exact Hw|by apply follows_steps]. }
  split; [|eapply simul_safe; [eapply steps_ok; [exact Hw|apply init_ok]|done]].
  exists w. split; [done|]. destruct H as [_ _ _ Hp _ _ _ Ha]. split_and!; [| |done].
  - intros i s [Hi|Hi]; apply Hp in Hi as (nd & ? & ? & _); by exists nd.
  - intros i saved Hi. by apply Hp in Hi.
Qed.
