(* ===== verification/LabTraces.v ===== *)
(** * Executions of the simulated network and of the tester's set-up

    A counter served over the network: one method that looks like a handler and
    two that do not.  The executions show that the properties of LabRpc.v and
    Tester.v apply. *)
From S2P Require Import Prelude GoStrings LabRpc Tester.

(** [Add] adds its argument to the counter and replies with the new value. *)
Definition add : @handler Z := λ args st, (st + foldr Z.add 0 args, [st + foldr Z.add 0 args]).

Definition counter : Service Z := MakeService "Counter"
  [mkMethod "Add" "" 3 true 0 add;
   mkMethod "Get" "" 1 false 2 add;
   mkMethod "reset" "counter" 3 true 0 add].

(** Only [Counter.Add] is offered. *)
Definition offersAdd (m : string) (h : @handler Z) : Prop := m = "Counter.Add" ∧ h = add.

Lemma counter_ok : service_ok offersAdd counter.
Proof.
  intros m h Hm. unfold counter, MakeService in Hm. cbn in Hm.
  apply lookup_insert_Some in Hm as [[<- <-]|[_ Hm]]; [done|]. by rewrite lookup_empty in Hm.
Qed.

Fixpoint nrun (w : labnet Z) (ls : list (nlabel Z)) : outcome (labnet Z) :=
  match ls with
  | [] => Done w
  | l :: ls => (w <~ nstep w l; nrun w ls)%outcome
  end.

Definition nfinal (w : labnet Z) (ls : list (nlabel Z)) : labnet Z :=
  match nrun w ls with Done w' => w' | _ => w end.

Lemma nfinal_steps (P : nlabel Z → Prop) w ls :
  Forall P ls → is_Done (nrun w ls) = true → nsteps P w (nfinal w ls).
Proof.
  unfold nfinal. intros Hls. revert w. induction Hls as [|l ls Hl _ IH]; intros w; cbn; [by constructor|].
  destruct (nstep w l) as [w1| |] eqn:Hw; cbn; [|done..]. intros Hd. eapply rtc_l; [by eauto|].
  specialize (IH w1 Hd). by destruct (nrun w1 ls).
Qed.

(** One server, called 7, and one enabled end that leads to it. *)
Definition setup : list (nlabel Z) :=
  [NMakeServer [counter]; NAddServer 7 0; NAdmin (AMakeEnd "e"); NAdmin (AConnect "e" 7);
   NAdmin (AEnable "e" true)].

Definition call5 : list (nlabel Z) := [NCall "e" "Counter.Add" [5]; NRoute 0; NSend 0 0].
Definition execute5 : list (nlabel Z) := [NDispatch 0; NHandle 0; NReceive 0; NCheck 0 0 0].

Definition w_setup : labnet Z := nfinal (ninit 0) setup.
Definition w_sent : labnet Z := nfinal w_setup call5.
Definition w_replied : labnet Z := nfinal w_setup (call5 ++ execute5).
Definition w_deleted : labnet Z := nfinal w_sent [NAdmin (ADeleteServer 7)].

Lemma setup_steps : nsteps (label_ok offersAdd) (ninit 0) w_setup.
Proof.
  apply nfinal_steps; [|done]. constructor; [|by repeat constructor].
  constructor; [apply counter_ok|constructor].
Qed.

Lemma sent_steps : nsteps (label_ok offersAdd) (ninit 0) w_sent.
Proof. etrans; [apply setup_steps|]. apply nfinal_steps; [by repeat constructor|done]. Qed.

Lemma deleted_steps : nsteps (label_ok offersAdd) (ninit 0) w_deleted.
Proof. etrans; [apply sent_steps|]. apply nfinal_steps; [by repeat constructor|done]. Qed.

Definition request0 (w : labnet Z) : request (St := Z) :=
  default (mkReq "" "" [] QNew HNone None) (w.(reqs) !! 0%nat).

(** The call returns with the counter's new value. *)
Lemma labrpc_refines_witness :
  rtc (astep offersAdd) (0, []) (5, [mkACall "Counter.Add" [5] (Some [5]) (Some (Some [5]))]).
Proof.
  change (rtc (astep offersAdd) (0, []) (abs w_replied)). apply labrpc_refines.
  etrans; [apply setup_steps|]. apply nfinal_steps; [by repeat constructor|done].
Defined.

(** The server is deleted while the request is on its way; the handler still
    runs, and the call fails. *)
Lemma no_reply_after_delete_witness :
  ∃ q, (nfinal w_deleted execute5).(reqs) !! 0%nat = Some q ∧
       ∀ reply, q.(qAnswer) = Some reply → reply = failed.
Proof.
  apply (no_reply_after_delete offersAdd 0 w_deleted _ 7 0%nat 0%nat (request0 w_deleted)).
  - apply deleted_steps.
  - reflexivity.
  - vm_compute. done.
  - vm_compute. discriminate.
  - apply nfinal_steps; [|reflexivity]. repeat constructor; discriminate.
Defined.

Lemma reliable_calls_succeed_witness :
  ∃ reply, (request0 w_replied).(qAnswer) = Some reply ∧ reply.(rok) = true.
Proof.
  eexists. split; [reflexivity|].
  eapply (reliable_calls_succeed offersAdd 0 w_setup w_replied "e" 7 0%nat).
  - apply setup_steps.
  - reflexivity.
  - reflexivity.
  - reflexivity.
  - reflexivity.
  - reflexivity.
  - apply (nfinal_steps _ w_setup (call5 ++ execute5)); [by repeat constructor|reflexivity].
  - exact (eq_refl (Some (request0 w_replied)) : w_replied.(reqs) !! 0%nat = _).
  - reflexivity.
  - reflexivity.
Defined.

Lemma call_returns_witness :
  ∃ w' q', nsteps (carries 0) w_sent w' ∧ w'.(reqs) !! 0%nat = Some q' ∧ is_Some q'.(qAnswer).
Proof.
  apply (call_returns offersAdd 0 w_sent 0 (request0 w_sent)).
  - apply sent_steps.
  - reflexivity.
  - constructor; [|constructor]. exists "Counter", "Add", counter.
    split_and!; [reflexivity|reflexivity|]. by eexists.
Defined.

(** ** Three servers *)

Definition names3 (i : Z) : list string :=
  (λ j, "end-" +:+ Itoa i +:+ "-" +:+ Itoa j) <$> range 3.

(** Server 1 crashes, 2 is cut off and comes back, 1 is restarted and connected. *)
Definition ops3 : list cfgOp :=
  [OCrash 1; ODisconnect 2; OConnect 2; OStart 1 ["a"; "b"; "c"] 3; OConnect 1; ODisconnect 0].

Lemma partition_matrix_witness :
  ∃ cfg0 cfg, make_config 3 false names3 Z.to_nat = Ok cfg0 ∧ forEach runOp ops3 cfg0 = Ok cfg ∧
    ∃ e, endAt cfg 1 2 = Some e ∧ connectionOf cfg.(cnet) e = Some 2 ∧ isEnabled cfg.(cnet) e = true.
Proof.
  destruct (partition_matrix 3 false names3 Z.to_nat ops3) as (cfg0 & cfg & H0 & H1 & Hm).
  - lia.
  - done.
  - repeat (apply Forall_cons_2; [cbn; lia || (split; [lia|done])|]). apply Forall_nil_2.
  - apply (bool_decide_unpack _). by vm_compute.
  - exists cfg0, cfg. split_and!; [done..|]. destruct (Hm 1 2) as (e & He & Hc & Hen); [lia..|].
    exists e. split_and!; [done..|]. apply Hen. split; apply (bool_decide_unpack _); by vm_compute.
Defined.
