(* ===== verification/GobWire.v ===== *)
(** * A byte codec for persisted state

    A self-delimiting byte code for terms, votes and logs of [int] commands
    (the commands of the tester, src/src/raft/config.go), which satisfies
    what RaftNode.v asks of encoding/gob ([GobOk]).  It makes the executions
    of RaftTraces.v runnable. *)
From S2P Require Import Prelude RaftNode.

Fixpoint enc_pos (p : positive) : list Z :=
  match p with
  | xH => [3]
  | xO p => 0 :: enc_pos p
  | xI p => 1 :: enc_pos p
  end.

Fixpoint dec_pos (bs : list Z) : option (positive * list Z) :=
  match bs with
  | 3 :: rest => Some (xH, rest)
  | 0 :: bs => '(p, rest) ← dec_pos bs; Some (xO p, rest)
  | 1 :: bs => '(p, rest) ← dec_pos bs; Some (xI p, rest)
  | _ => None
  end.

Definition wire_int (z : Z) : list Z :=
  match z with
  | Z0 => [0]
  | Zpos p => 1 :: enc_pos p
  | Zneg p => 2 :: enc_pos p
  end.

Definition unwire_int (bs : list Z) : option (Z * list Z) :=
  match bs with
  | 0 :: rest => Some (0, rest)
  | 1 :: rest => '(p, rest) ← dec_pos rest; Some (Zpos p, rest)
  | 2 :: rest => '(p, rest) ← dec_pos rest; Some (Zneg p, rest)
  | _ => None
  end.

Definition wire_entry (e : LogEntry Z) : list Z :=
  wire_int e.(eTerm) ++
  match e.(eCommand) with None => [0] | Some c => 1 :: wire_int c end.

Definition unwire_entry (bs : list Z) : option (LogEntry Z * list Z) :=
  '(t, bs) ← unwire_int bs;
  match bs with
  | 0 :: rest => Some (mkEntry t None, rest)
  | 1 :: rest => '(c, rest) ← unwire_int rest; Some (mkEntry t (Some c), rest)
  | _ => None
  end.

Fixpoint unwire_entries (n : nat) (bs : list Z) : option (list (LogEntry Z) * list Z) :=
  match n with
  | O => Some ([], bs)
  | S n =>
    '(e, bs) ← unwire_entry bs;
    '(es, bs) ← unwire_entries n bs;
    Some (e :: es, bs)
  end.

Definition wire_log (l : list (LogEntry Z)) : list Z :=
  wire_int (len l) ++ (l ≫= wire_entry).

Definition unwire_log (bs : list Z) : option (list (LogEntry Z) * list Z) :=
  '(n, bs) ← unwire_int bs; unwire_entries (Z.to_nat n) bs.

#[export] Instance gob_wire : Gob Z :=
  {| enc_int := wire_int; enc_log := wire_log;
     dec_int := unwire_int; dec_log := unwire_log |}.

Lemma dec_enc_pos p rest : dec_pos (enc_pos p ++ rest) = Some (p, rest).
Proof. induction p; simpl; by rewrite ?IHp. Qed.

Lemma unwire_wire_int z rest : unwire_int (wire_int z ++ rest) = Some (z, rest).
Proof. destruct z; simpl; by rewrite ?dec_enc_pos. Qed.

Lemma unwire_wire_entry e rest : unwire_entry (wire_entry e ++ rest) = Some (e, rest).
Proof.
  destruct e as [t [c|]]; unfold unwire_entry, wire_entry; simpl;
    rewrite <- app_assoc, unwire_wire_int; simpl; by rewrite ?unwire_wire_int.
Qed.

Lemma unwire_wire_entries l rest :
  unwire_entries (length l) ((l ≫= wire_entry) ++ rest) = Some (l, rest).
Proof.
  induction l as [|e l IH]; [done|].
  rewrite bind_cons, <- app_assoc. cbn [unwire_entries length].
  rewrite unwire_wire_entry. cbn [mbind option_bind]. by rewrite IH.
Qed.

#[export] Instance gob_wire_ok : GobOk Z.
Proof.
  split; simpl.
  - apply unwire_wire_int.
  - intros l rest. unfold unwire_log, wire_log.
    rewrite <- app_assoc, unwire_wire_int. simpl. unfold len.
    by rewrite Nat2Z.id, unwire_wire_entries.
  - by intros [].
Qed.
