(* ===== verification/RaftTraces.v ===== *)
(** * Executions of the Raft cluster

    Concrete executions of RaftSystem.v, run by evaluation: an ordinary
    election, replication and commit, and the executions in which the code
    leaves the Raft protocol. *)
From S2P Require Import Prelude RaftNode RaftLog RaftInv RaftSystem RaftSafety RaftHistory RaftApply RaftPeer RaftReplication RaftElection RaftMatching RaftChecks GobWire.

Definition at_ms (ms : Z) : Env := mkEnv (ms * Millisecond) 0.

(** Three and five freshly started peers. *)
Definition cluster3 : world Z := init (at_ms 0) ["e0"; "e1"; "e2"].
Definition cluster5 : world Z := init (at_ms 0) ["e0"; "e1"; "e2"; "e3"; "e4"].

(** One round of [life] of peer [i] at time [ms]. *)
Definition life (i ms : Z) : list (label Z) := [LLifeRead i; LLifeAct i (at_ms ms)].

(** Goroutine [k] of peer [i] makes its RPC, call [c]; it is executed and its
    reply comes back. *)
Definition rpc (i : Z) (k c : nat) (ms : Z) : list (label Z) :=
  [LRun i k (at_ms ms); LDeliver c (at_ms ms); LReturn c (at_ms ms)].

(** Peer 0 is elected in term 1 with the vote of peer 1. *)
Definition elect0 : list (label Z) := life 0 1000 ++ rpc 0 0 0 1000.

(** Peer 0 heartbeats peer 1, which is already a candidate of term 2 and says
    so.  Before that reply arrives peer 0 votes for peer 2 in term 2; the
    reply then makes it forget this vote and it votes for peer 1 as well. *)
Definition stale_heartbeat_trace : list (label Z) :=
  elect0 ++
  [LRun 0 2 (at_ms 1000); LRun 0 2 (at_ms 1000)] ++
  life 1 2000 ++
  [LDeliver 0 (at_ms 2000)] ++
  life 2 2000 ++ life 2 3000 ++
  rpc 2 2 1 3000 ++
  [LReturn 0 (at_ms 3000)] ++
  rpc 1 0 0 3000.

(** Peer 0 counts, in its election of term 2, a vote it was given in term 1. *)
Definition stale_vote_trace : list (label Z) :=
  life 0 1000 ++
  [LRun 0 0 (at_ms 1000); LDeliver 0 (at_ms 1000)] ++
  life 0 2000 ++
  [LReturn 0 (at_ms 2000)] ++
  life 4 2000 ++ life 4 3000 ++
  rpc 4 6 0 3000 ++ rpc 4 6 0 3000 ++
  rpc 0 3 0 3000.

(** Peer 0 sends its first entry to peer 1, then both entries; the second
    request overtakes the first.  The late first request cuts the second
    entry, committed by then, off the log of peer 1. *)
Definition stale_append_trace : list (label Z) :=
  elect0 ++
  [LStart 0 10; LRun 0 3 (at_ms 1000)] ++
  LStart 0 20 :: rpc 0 4 1 1000 ++
  [LApply 0; LApply 0] ++
  [LDeliver 0 (at_ms 1000)] ++
  life 1 3000 ++ rpc 1 1 1 3000 ++
  LStart 1 30 :: rpc 1 4 1 3000 ++ rpc 1 4 1 3000 ++
  [LApply 1; LApply 1].

(** ** Running an execution *)

(** The world an execution ends in; [w] itself if the execution is not
    possible. *)
Definition final (w : world Z) (ls : list (label Z)) : world Z :=
  match run w ls with Done w' => w' | _ => w end.

(** Every step of the execution is timely. *)
Fixpoint timely_run (w : world Z) (ls : list (label Z)) : bool :=
  match ls with
  | [] => true
  | l :: ls => timely w l &&
               match step w l with Done w' => timely_run w' ls | _ => false end
  end.

(** Every heartbeat reply that is processed is timely; vote replies need not be. *)
Definition timely_heartbeat (w : world Z) (l : label Z) : bool :=
  match l with
  | LReturn k _ =>
    match body <$> w.(calls) !! k with Some (CHeartbeat _ _ _) => timely w l | _ => true end
  | _ => true
  end.
Definition timely_heartbeats_steps : world Z → world Z → Prop :=
  rtc (λ w w', ∃ l, timely_heartbeat w l = true ∧ step w l = Done w').

Fixpoint timely_heartbeats_run (w : world Z) (ls : list (label Z)) : bool :=
  match ls with
  | [] => true
  | l :: ls => timely_heartbeat w l &&
               match step w l with Done w' => timely_heartbeats_run w' ls | _ => false end
  end.

Definition leads (w : world Z) (i t : Z) : bool :=
  match w.(nodes) !! i with
  | Some nd => bool_decide (nd.(raft).(rstate) = leader ∧ nd.(raft).(term) = t)
  | None => false
  end.

Lemma final_steps w ls : is_Done (run w ls) = true → steps w (final w ls).
Proof.
  unfold final. revert w. induction ls as [|l ls IH]; intros w; simpl; [done|].
  destruct (step w l) as [w1| |] eqn:E; simpl; [|done..]. intros H.
  eapply rtc_l; [by exists l|]. specialize (IH w1 H). by destruct (run w1 ls).
Qed.

Lemma final_timely_steps w ls : timely_run w ls = true → timely_steps w (final w ls).
Proof.
  unfold final. revert w. induction ls as [|l ls IH]; intros w; simpl; [done|].
  intros [Htl H]%andb_true_iff. destruct (step w l) as [w1| |] eqn:E; simpl; [|done..].
  eapply rtc_l; [by exists l|]. specialize (IH w1 H).
  destruct (run w1 ls) eqn:E'; [done|..].
  all: exfalso; clear -H E'; revert w1 H E'; induction ls as [|l ls IH]; intros w1; simpl; [done|].
  all: intros [_ H]%andb_true_iff; destruct (step w1 l); simpl in *; naive_solver.
Qed.

Lemma final_timely_heartbeats w ls : timely_heartbeats_run w ls = true → timely_heartbeats_steps w (final w ls).
Proof.
  intros Hr. assert (∃ w', run w ls = Done w' ∧ timely_heartbeats_steps w w') as (w' & E & ?); [|by unfold final; rewrite E].
  revert w Hr. induction ls as [|l ls IH]; intros w; simpl; [by exists w|].
  intros [Htl H]%andb_true_iff. destruct (step w l) as [w1| |] eqn:E; simpl; [|done..].
  destruct (IH w1 H) as (w' & -> & ?). exists w'. split; [done|]. eapply rtc_l; [by exists l|done].
Qed.

Lemma leads_isLeader w i t : leads w i t = true → isLeader w i t.
Proof.
  unfold leads, isLeader. destruct (nodes w !! i) as [nd|]; [|done].
  intros [??]%bool_decide_eq_true. by exists nd.
Qed.

(** ** What the executions show *)

(** C21. Timely heartbeat replies are necessary for election safety: the reply
    handler of [StartHeartbeat] compares the replier's term with the term the
    heartbeat was sent in, not with the current one, and [stepDownLocked] then
    clears a vote cast since; peers 1 and 2 both lead term 2. *)
Theorem stale_heartbeat_two_leaders :
  ∃ w, steps cluster3 w ∧ isLeader w 1 2 ∧ isLeader w 2 2.
Proof.
  exists (final cluster3 stale_heartbeat_trace). split_and!.
  - apply final_steps. by vm_compute.
  - apply leads_isLeader. by vm_compute.
  - apply leads_isLeader. by vm_compute.
Qed.

(** C22. Timely vote replies are necessary for election safety, even when every
    heartbeat reply that is processed is timely: [StartElection] counts every
    granted reply, also one of an earlier election, so with five peers two
    votes are enough; peers 0 and 4 both lead term 2. *)
Theorem stale_vote_two_leaders :
  ∃ w, timely_heartbeats_steps cluster5 w ∧ isLeader w 0 2 ∧ isLeader w 4 2.
Proof.
  exists (final cluster5 stale_vote_trace). split_and!.
  - apply final_timely_heartbeats. by vm_compute.
  - apply leads_isLeader. by vm_compute.
  - apply leads_isLeader. by vm_compute.
Qed.

(** C23. A late AppendEntries request can undo a commit, even when every reply
    is timely: [syncLocked] cuts the log after the entries it is given although
    they all match, so a reordered request shortens the log of a follower
    whose acknowledgement has been counted.  Two peers then apply different
    commands at index 2. *)
Theorem stale_append_diverges :
  ∃ w m0 m1, timely_steps cluster3 w ∧
    (0, m0) ∈ w.(applied) ∧ (1, m1) ∈ w.(applied) ∧
    m0.(amIndex) = 2 ∧ m1.(amIndex) = 2 ∧ m0.(amCommand) ≠ m1.(amCommand).
Proof.
  exists (final cluster3 stale_append_trace),
    (mkApplyMsg 2 (Some 20) false []), (mkApplyMsg 2 (Some 30) false []).
  split_and!; [| | |done..].
  - apply final_timely_steps. by vm_compute.
  - eapply (list_elem_of_lookup_2 _ 1). by vm_compute.
  - eapply (list_elem_of_lookup_2 _ 3). by vm_compute.
Qed.

(** ** Witnesses *)

(** Peer 0 leads term 1 after the election and still does when it has
    replicated, committed and applied a command. *)
Definition commit0 : list (label Z) := LStart 0 7 :: rpc 0 3 0 1000 ++ [LApply 0].
Definition w_elected : world Z := final cluster3 elect0.
Definition w_committed : world Z := final w_elected commit0.

Lemma election_safety_witness :
  isLeader w_elected 0 1 ∧ isLeader w_committed 0 1 ∧ (0 : Z) = 0.
Proof.
  split_and!; [apply leads_isLeader; by vm_compute..|].
  apply (election_safety (at_ms 0) ["e0"; "e1"; "e2"] w_elected w_committed 0 0 1).
  - apply final_timely_steps. by vm_compute.
  - apply final_timely_steps. by vm_compute.
  - apply leads_isLeader. by vm_compute.
  - apply leads_isLeader. by vm_compute.
Defined.

Lemma raft_never_panics_witness : step w_elected (LStart 0 7) ≠ Panicked.
Proof.
  apply (raft_never_panics (at_ms 0) ["e0"; "e1"; "e2"]).
  apply final_steps. by vm_compute.
Defined.

(** The node and the state of peer [i]. *)
Definition node_at (w : world Z) (i : Z) : node Z :=
  default (mkNode (Make (at_ms 0) [] i MakePersister) [] None) (w.(nodes) !! i).
Definition peer_at (w : world Z) (i : Z) : Raft Z := (node_at w i).(raft).
Definition has_node (w : world Z) (i : Z) : bool :=
  match w.(nodes) !! i with Some _ => true | None => false end.

Lemma node_at_lookup w i : has_node w i = true → w.(nodes) !! i = Some (node_at w i).
Proof. unfold has_node, node_at. by destruct (nodes w !! i). Qed.

Lemma peer_at_ok ls i :
  is_Done (run cluster3 ls) = true → has_node (final cluster3 ls) i = true →
  node_ok 3 (peer_at (final cluster3 ls) i).
Proof.
  intros Hd Hi%node_at_lookup.
  assert (world_ok 3 (final cluster3 ls)) as Hw.
  { apply (reachable_ok (at_ms 0) ["e0"; "e1"; "e2"]). by apply final_steps. }
  by apply (wo_nodes _ _ Hw _ _ Hi).
Qed.

Definition trace0 : list (label Z) := elect0 ++ commit0.
Definition w0 : world Z := final cluster3 trace0.

(** The term, vote and log of a peer, as one value. *)
Definition durable (rf : Raft Z) : Z * Z * list (LogEntry Z) := (rf.(term), rf.(votedFor), rf.(log)).

Lemma crash_recovers_witness :
  durable (Make (at_ms 2000) ["a"; "b"; "c"] 0 (start1 (peer_at w0 0).(persister))) =
    (1, 0, [mkEntry 0 None; mkEntry 1 (Some 7)]).
Proof.
  destruct (crash_recovers (at_ms 0) ["e0"; "e1"; "e2"] w0 0 (node_at w0 0) (at_ms 2000) ["a"; "b"; "c"])
    as (Ht & Hv & Hl & _).
  - apply final_steps. by vm_compute.
  - apply node_at_lookup. by vm_compute.
  - unfold durable, peer_at. rewrite Ht, Hv, Hl. by vm_compute.
Defined.

Lemma terms_never_decrease_witness : (peer_at cluster3 1).(term) ≤ (peer_at w0 1).(term).
Proof.
  apply (terms_never_decrease (at_ms 0) ["e0"; "e1"; "e2"] cluster3 w0 1).
  - apply rtc_refl.
  - apply final_steps. by vm_compute.
  - apply node_at_lookup. by vm_compute.
  - apply node_at_lookup. by vm_compute.
Defined.

Lemma vote_is_kept_witness :
  (peer_at w_committed 1).(votedFor) = (peer_at w_elected 1).(votedFor).
Proof.
  apply (vote_is_kept (at_ms 0) ["e0"; "e1"; "e2"] w_elected w_committed 1).
  - apply final_timely_steps. by vm_compute.
  - apply final_timely_steps. by vm_compute.
  - apply node_at_lookup. by vm_compute.
  - apply node_at_lookup. by vm_compute.
  - by vm_compute.
  - by vm_compute.
Defined.

(** A request peer 2 accepts in its initial state. *)
Definition append7 : AppendEntriesArgs Z := mkAEArgs 1 0 0 0 [mkEntry 1 (Some 7)] 1.

Lemma AppendEntries_spec_witness :
  (AppendEntries (at_ms 1) append7 (peer_at cluster3 2)).2.(aerSuccess) = true ∧
  (AppendEntries (at_ms 1) append7 (peer_at cluster3 2)).1.(commitIndex) = 1.
Proof.
  destruct (AppendEntries (at_ms 1) append7 (peer_at cluster3 2)) as [rf' r] eqn:E.
  destruct (AppendEntries_spec (at_ms 1) append7 (peer_at cluster3 2) rf' r) as (Hs & Ha & _).
  - done.
  - done.
  - assert (aerSuccess r = true) as Hr by (apply Hs; by vm_compute).
    split; [done|]. simpl. destruct (Ha Hr) as (Hl & _ & _ & Hc). rewrite Hc.
    pose proof (ap_length _ _ _ _ Hl) as Hlen. unfold lastLogIndexLocked, len. rewrite Hlen by done. by vm_compute.
Defined.

Lemma syncLocked_spec_witness :
  len (syncLocked 1 [mkEntry 1 (Some 8)] (peer_at w0 0)).(log) = 2.
Proof.
  destruct (syncLocked_spec 1 [mkEntry 1 (Some 8)] (peer_at w0 0)) as (_ & Hl & _).
  - vm_compute. split; congruence.
  - exact Hl.
Defined.

Lemma RequestVote_spec_witness :
  ∃ rf' r, RequestVote (at_ms 1) (mkRVArgs 1 0 0 0) (peer_at cluster3 2) = Some (rf', r) ∧
           r.(rvrVote) = true.
Proof.
  destruct (RequestVote_spec 3 (at_ms 1) (mkRVArgs 1 0 0 0) (peer_at cluster3 2))
    as (rf' & r & lt & Hr & Hlt & _ & Hg & _).
  - apply (peer_at_ok []); by vm_compute.
  - exists rf', r. split; [done|]. apply Hg. vm_compute in Hlt. injection Hlt as <-.
    vm_compute. split_and!; [congruence|right; split; congruence|by left].
Defined.

Lemma Start_spec_witness : ∃ rf' gs, Start 9 (peer_at w0 0) = Some (rf', (2, 1, true), gs).
Proof.
  destruct (Start_spec 3 9 (peer_at w0 0)) as (rf' & ix & t & b & gs & Hs & _).
  - apply peer_at_ok; by vm_compute.
  - rewrite Hs. exists rf', gs. vm_compute in Hs. injection Hs as _ <- <- <- _. done.
Defined.

Lemma majority_elects_witness :
  ∃ rf1 gs rf2, StartElection (at_ms 1000) (peer_at cluster3 1) = Some (rf1, gs) ∧
    collectVotes (at_ms 1000) 1 3 [mkRVReply 1 true] rf1 = Some rf2 ∧ rf2.(rstate) = leader.
Proof.
  destruct (StartElection (at_ms 1000) (peer_at cluster3 1)) as [[rf1 gs]|] eqn:E;
    [|by vm_compute in E].
  destruct (majority_elects 3 (at_ms 1000) (peer_at cluster3 1) rf1 gs [mkRVReply 1 true])
    as (rf2 & Hc & _ & Hl).
  - apply (peer_at_ok []); by vm_compute.
  - done.
  - constructor; [by vm_compute|constructor].
  - exists rf1, gs, rf2. done.
Defined.

Lemma applied_in_order_witness :
  ∃ logs err, readAll (emptyLogs 3) w0.(applied) = Some (logs, err) ∧ err ≠ Some OutOfOrder.
Proof.
  apply (applied_in_order (at_ms 0) ["e0"; "e1"; "e2"] w0). apply final_steps. by vm_compute.
Defined.

(** Peer 0 after it committed, before it applied. *)
Definition before_apply : list (label Z) := elect0 ++ LStart 0 7 :: rpc 0 3 0 1000.

Lemma applier_sends_committed_witness :
  ∃ rf' ms, applierLoop 2 (peer_at (final cluster3 before_apply) 0) = Some (rf', ms) ∧
            amIndex <$> ms = [1].
Proof.
  destruct (applier_sends_committed 3 (peer_at (final cluster3 before_apply) 0)) as (ms & Ha & Hi & _).
  - apply peer_at_ok; by vm_compute.
  - do 2 eexists. split; [exact Ha|]. rewrite Hi. by vm_compute.
Defined.

Lemma log_matching_witness :
  take 2 (peer_at w0 0).(log) = take 2 (peer_at w0 1).(log).
Proof.
  apply (log_matching (at_ms 0) ["e0"; "e1"; "e2"] w0 0 1 (node_at w0 0) (node_at w0 1) 1
           (mkEntry 1 (Some 7)) (mkEntry 1 (Some 7))).
  - apply (final_timely_steps cluster3 trace0); by vm_compute.
  - by apply node_at_lookup; vm_compute.
  - by apply node_at_lookup; vm_compute.
  - by vm_compute.
  - by vm_compute.
  - done.
Defined.

(** Peer 0 has taken a second command, and its goroutine 3 is about to replicate
    to peer 2, which has nothing yet. *)
Definition w_behind : world Z := final cluster3 (trace0 ++ [LStart 0 9]).

Lemma replicateTo_repairs_witness :
  ∃ ndp', (peer_at w_behind 0).(log) `prefix_of` (raft ndp').(log) ∧ length (peer_at w_behind 2).(log) = 1%nat.
Proof.
  destruct (replicateTo_repairs (at_ms 0) ["e0"; "e1"; "e2"] w_behind 0 2 3 []
    (node_at w_behind 0) (node_at w_behind 2) (at_ms 2)) as (r & w' & nd' & ndp' & _ & _ & _ & _ & _ & _ & _ & Hpre & _).
  - apply (final_timely_steps cluster3 (trace0 ++ [LStart 0 9])); by vm_compute.
  - done.
  - by apply node_at_lookup; vm_compute.
  - by apply node_at_lookup; vm_compute.
  - by vm_compute.
  - by vm_compute.
  - by vm_compute.
  - exists ndp'. split; [exact Hpre|by vm_compute].
Defined.

Lemma tryAdvanceCommit_spec_witness :
  ∃ rf' gs, tryAdvanceCommitLocked (peer_at w0 0) = Some (rf', gs) ∧ gs = [].
Proof.
  destruct (tryAdvanceCommit_spec 3 (peer_at w0 0)) as (rf' & gs & Ht & [(N & HN & _)|(_ & _ & Hg)]).
  - apply peer_at_ok; by vm_compute.
  - by vm_compute.
  - exfalso. assert ((peer_at w0 0).(commitIndex) = lastLogIndexLocked (peer_at w0 0)) by (by vm_compute). lia.
  - eauto.
Defined.

(** ** The tester's checks *)


(** The first round sees nobody lead, the second peer 0. *)
Definition rounds3 : list (list (world Z)) :=
  [[cluster3; cluster3; cluster3]; [w_elected; w_elected; w_elected]].

Lemma moments3 : moments cluster3 (concat rounds3).
Proof.
  assert (timely_steps cluster3 w_elected) as H by (apply final_timely_steps; by vm_compute).
  by repeat split.
Qed.

Lemma one_leader_check_witness :
  checkOneLeader [true; true; true] rounds3 3 = Passed 0 ∧
  ∃ round, round ∈ rounds3 ∧ last_leader [true; true; true] round 3 0.
Proof.
  assert (checkOneLeader [true; true; true] rounds3 3 = Passed 0) as E by (by vm_compute).
  split; [done|].
  pose proof (one_leader_check (at_ms 0) ["e0"; "e1"; "e2"] [true; true; true] rounds3) as H.
  change (len ["e0"; "e1"; "e2"]) with 3 in H. rewrite E in H. apply H.
  - reflexivity.
  - by repeat constructor.
  - apply moments3.
Defined.

(** Two of three servers have applied command 5 at index 1. *)
Definition applied2 : poll :=
  mkPoll [None; None; None] [{[1 := 5]}; {[1 := 5]}; ∅] [1; 1; 1].

Lemma applied2_recorded : recorded 3 applied2.
Proof.
  exists [(0, mkApplyMsg 1 (Some 5) false []); (1, mkApplyMsg 1 (Some 5) false [])].
  split; [by vm_compute|done].
Qed.

Lemma wait_agreement_witness :
  wait [applied2] applied2 3 1 2 1 = Passed 5 ∧ 2 ≤ holders 1 applied2.(pLogs).
Proof.
  assert (wait [applied2] applied2 3 1 2 1 = Passed 5) as E by (by vm_compute).
  split; [done|]. pose proof (wait_agreement 3 1 2 1 [applied2] applied2) as H. rewrite E in H.
  destruct H as [(? & _)|(? & _)]; [lia|constructor; [apply applied2_recorded|constructor]|apply applied2_recorded|discriminate|done].
Defined.

(** Peer 0 leads; the command goes in at index 1 and is applied by two. *)
Lemma one_agreement_witness :
  one [true; true; true] [([cluster3], []); ([w_elected; w_elected; w_elected], [applied2])] 3 5 2 0 = Passed 1 ∧
  committed applied2 1 2 5.
Proof.
  assert (one [true; true; true] [([cluster3], []); ([w_elected; w_elected; w_elected], [applied2])] 3 5 2 0 = Passed 1)
    as E by (by vm_compute).
  split; [done|].
  pose proof (one_agreement (at_ms 0) ["e0"; "e1"; "e2"] [true; true; true]
    [([cluster3], []); ([w_elected; w_elected; w_elected], [applied2])] 5 2 0) as H.
  change (len ["e0"; "e1"; "e2"]) with 3 in H. rewrite E in H.
  assert (steps cluster3 w_elected) as Hs by (apply final_steps; by vm_compute).
  destruct H as (ws & polls & p & Hin & Hp & _ & Hc).
  - discriminate.
  - reflexivity.
  - repeat constructor; first [exact Hs|apply applied2_recorded].
  - assert (polls = [] ∨ polls = [applied2]) as [Ep|Ep].
    { apply elem_of_cons in Hin as [Hin|Hin]; [left; exact (f_equal snd Hin)|].
      apply list_elem_of_singleton in Hin. right. exact (f_equal snd Hin). }
    + exfalso. rewrite Ep in Hp. clear -Hp. by apply elem_of_nil in Hp.
    + rewrite Ep in Hp. apply list_elem_of_singleton in Hp. rewrite <- Hp. exact Hc.
Defined.
