(* ===== verification/RaftNetTraces.v ===== *)
(** * An execution of the peers on labrpc

    A wire format for the RPCs, built from the codec of the persisted state, and
    an execution of two peers: an election carried by the network, then a crash
    and a restart during which the old instance goes on. *)
From S2P Require Import Prelude GoStrings RaftNode RaftSystem LabRpc Tester RaftNet RaftNetSim RaftNetRefines GobWire.

Section codec.
Context {Cmd : Type} `{!Gob Cmd}.

Definition enc_bool (b : bool) : list Z := enc_int (if b then 1 else 0).
Definition dec_bool (bs : list Z) : option (bool * list Z) := '(z, bs) ← dec_int bs; Some (bool_decide (z = 1), bs).

(** A decoder of a fresh variable. *)
Definition whole {A} (zero : A) (o : option (A * list Z)) : A * bool :=
  match o with Some (a, _) => (a, true) | None => (zero, false) end.

#[export] Instance wire : Wire Cmd := {|
  wire_rva := {|
    genc a := enc_int a.(rvElectionTerm) ++ enc_int a.(rvCandidateID) ++ enc_int a.(rvLastLogIndex) ++ enc_int a.(rvLastLogTerm) ++ [];
    gdec bs := whole (mkRVArgs 0 0 0 0)
      ('(a, bs) ← dec_int bs; '(b, bs) ← dec_int bs; '(c, bs) ← dec_int bs; '(d, bs) ← dec_int bs; Some (mkRVArgs a b c d, bs)) |};
  wire_rvr := {|
    genc a := enc_int a.(rvrElectionTerm) ++ enc_bool a.(rvrVote) ++ [];
    gdec bs := whole (mkRVReply 0 false) ('(a, bs) ← dec_int bs; '(b, bs) ← dec_bool bs; Some (mkRVReply a b, bs)) |};
  wire_hba := {|
    genc a := enc_int a.(hbLeaderID) ++ enc_int a.(hbTerm) ++ enc_int a.(hbEntry) ++ [];
    gdec bs := whole (mkHBArgs 0 0 0)
      ('(a, bs) ← dec_int bs; '(b, bs) ← dec_int bs; '(c, bs) ← dec_int bs; Some (mkHBArgs a b c, bs)) |};
  wire_hbr := {|
    genc a := enc_int a.(hbrTerm) ++ enc_bool a.(hbrStatus) ++ [];
    gdec bs := whole (mkHBReply 0 false) ('(a, bs) ← dec_int bs; '(b, bs) ← dec_bool bs; Some (mkHBReply a b, bs)) |};
  wire_aea := {|
    genc a := enc_int a.(aeTerm) ++ enc_int a.(aeLeaderID) ++ enc_int a.(aePrevLogIndex) ++ enc_int a.(aePrevLogTerm) ++
              enc_log a.(aeEntries) ++ enc_int a.(aeLeaderCommit) ++ [];
    gdec bs := whole (mkAEArgs 0 0 0 0 [] 0)
      ('(a, bs) ← dec_int bs; '(b, bs) ← dec_int bs; '(c, bs) ← dec_int bs; '(d, bs) ← dec_int bs;
       '(e, bs) ← dec_log bs; '(f, bs) ← dec_int bs; Some (mkAEArgs a b c d e f, bs)) |};
  wire_aer := {|
    genc a := enc_int a.(aerTerm) ++ enc_bool a.(aerSuccess) ++ enc_int a.(aerConflictTerm) ++ enc_int a.(aerConflictIndex) ++ [];
    gdec bs := whole (mkAEReply 0 false 0 0)
      ('(a, bs) ← dec_int bs; '(b, bs) ← dec_bool bs; '(c, bs) ← dec_int bs; '(d, bs) ← dec_int bs; Some (mkAEReply a b c d, bs)) |}
|}.

Context `{!GobOk Cmd}.

Lemma dec_enc_bool b bs : dec_bool (enc_bool b ++ bs) = Some (b, bs).
Proof. unfold dec_bool, enc_bool. rewrite dec_enc_int. by destruct b. Qed.

Ltac decode := intros []; cbn -[enc_int dec_int enc_log dec_log enc_bool dec_bool];
  repeat (first [rewrite dec_enc_int | rewrite dec_enc_bool | rewrite dec_enc_log]; cbn -[enc_int dec_int enc_log dec_log enc_bool dec_bool]);
  reflexivity.

#[export] Instance wire_ok : WireOk Cmd.
Proof. split; unfold GobOfOk; decode. Qed.
End codec.

Definition xrun_all (c : cluster Z) (ls : list (xlabel Z)) : outcome (cluster Z) :=
  foldl (λ o l, c <~ o; xstep c l)%outcome (Done c) ls.

Lemma xrun_all_steps ls c c' : xrun_all c ls = Done c' → xsteps c c'.
Proof.
  unfold xrun_all. revert c. induction ls as [|l ls IH]; intros c; cbn [foldl]; [by intros [= <-]|]. cbn [outcome_bind].
  destruct (xstep c l) as [c1| |] eqn:E.
  - intros H%IH. eapply rtc_l; [by exists l|done].
  - intros H. exfalso. clear IH. induction ls; simpl in H; [done|auto].
  - intros H. exfalso. clear IH. induction ls; simpl in H; [done|auto].
Qed.

Definition t0 : Env := mkEnv 0 0.
Definition late : Env := mkEnv (2000 * Millisecond) 0.
Definition carry (k : nat) : list (xlabel Z) :=
  (λ l, XNet l late) <$> [NRoute k; NSend k 500; NDispatch k; NHandle k; NReceive k; NCheck k 500 800].

(** Peer 0 is elected by peer 1, accepts a command and sends it; peer 1 is
    crashed, its instance executes the request all the same and then stands for
    election, in vain, and peer 1 is started again. *)
Definition election : list (xlabel Z) :=
  [XBoot 0 ["00"; "01"] t0; XBoot 1 ["10"; "11"] t0; XConnect 0; XConnect 1;
   XAct 0 ALifeRead; XAct 0 (ALifeAct late); XAct 0 (ARun 0 late)] ++ carry 0 ++ [XReturn 0 late].
Definition isolation : list (xlabel Z) :=
  [XAct 0 (AStart 7); XAct 0 (ARun 0 late)] ++ ((λ l, XNet l late) <$> [NRoute 1; NSend 1 500]) ++
  [XCrash 1; XSave 1] ++ ((λ l, XNet l late) <$> [NDispatch 1; NHandle 1]) ++
  [XAct 1 ALifeRead; XAct 1 (ALifeAct (mkEnv (9000 * Millisecond) 0)); XAct 1 (ARun 0 late); XBoot 1 ["20"; "21"] t0; XConnect 1] ++
  ((λ l, XNet l late) <$> [NReceive 1; NCheck 1 500 800; NRoute 2; NTimeout 2]) ++ [XReturn 1 late; XReturn 2 late].

Definition cfinal : cluster Z :=
  match xrun_all (cinit 2 false) (election ++ isolation) with Done c => c | _ => cinit 2 false end.

(** Whose instance, its state, its term and the length of its log. *)
Definition glance (it : inst Z) : Z * state * Z * Z :=
  (it.(owner), it.(proc).(raft).(rstate), it.(proc).(raft).(term), len it.(proc).(raft).(log)).

Lemma raft_on_labrpc_witness :
  glance <$> theInsts cfinal = [(0, leader, 1, 2); (1, candidate, 2, 2); (1, follower, 1, 1)] ∧
  cfinal.(running) !! 1 = Some (Up 2) ∧
  ∃ w, steps (init t0 ["a"; "b"]) w ∧ stands_for cfinal w.
Proof.
  split; [by vm_compute|]. split; [by vm_compute|]. apply (raft_on_labrpc false t0 ["a"; "b"] cfinal).
  apply (xrun_all_steps (election ++ isolation)). unfold cfinal.
  assert (is_Done (xrun_all (cinit 2 false) (election ++ isolation)) = true) as Hd by (by vm_compute).
  by destruct (xrun_all _ _).
Defined.
