(* ===== verification/RaftCommitTraces.v ===== *)
(** * Executions with a commit

    Concrete timely and orderly executions for the theorems of
    RaftCompleteness.v, RaftAgreement.v and RaftService.v: peer 0 replicates a command to peer
    1, both apply it, peer 1 leads the next term; and that orderliness is what
    the execution of RaftTraces.v that undoes a commit lacks. *)
From S2P Require Import Prelude RaftNode RaftSystem RaftElection RaftCommit RaftCompleteness RaftAgreement RaftApply RaftProgress RaftService GobWire RaftTraces.

(** Every step of the execution is timely and orderly. *)
Fixpoint orderly_run (w : world Z) (ls : list (label Z)) : bool :=
  match ls with
  | [] => true
  | l :: ls => timely w l && orderly w l &&
               match step w l with Done w' => orderly_run w' ls | _ => false end
  end.

Lemma final_orderly_steps w ls : orderly_run w ls = true → orderly_steps w (final w ls).
Proof.
  assert (∀ ls w, orderly_run w ls = true → ∃ w', run w ls = Done w' ∧ orderly_steps w w') as H.
  { clear w ls. induction ls as [|l ls IH]; intros w; simpl; [by eexists; split; [|apply rtc_refl]|].
    intros [[Htl Hor]%andb_true_iff H]%andb_true_iff. destruct (step w l) as [w1| |] eqn:E; simpl; [|done..].
    destruct (IH w1 H) as (w' & Hr & Hs). exists w'. split; [done|]. eapply rtc_l; [by exists l|done]. }
  intros (w' & Hr & Hs)%H. unfold final. by rewrite Hr.
Qed.

(** Peer 0 tells peer 1 of the commit, and peer 1 applies the command too. *)
Definition both_apply : list (label Z) := trace0 ++ rpc 0 4 0 1000 ++ [LApply 1].
Definition w_both : world Z := final cluster3 both_apply.

(** Peer 1 is then elected in term 2, with the vote of peer 2. *)
Definition elect1 : list (label Z) := life 1 3000 ++ rpc 1 1 0 3000.
Definition w_next : world Z := final w_both elect1.

Lemma both_orderly : orderly_steps cluster3 w_both.
Proof. apply final_orderly_steps. by vm_compute. Qed.

Lemma leader_completeness_witness :
  isLeader w_next 1 2 ∧ take 2 (peer_at w_both 0).(log) `prefix_of` (peer_at w_next 1).(log).
Proof.
  split; [apply leads_isLeader; by vm_compute|].
  refine (proj2 (leader_completeness (at_ms 0) ["e0"; "e1"; "e2"] w_both w_next 0 1
                   (node_at w_both 0) (node_at w_next 1) 1 _ _ _ _ _ _ _)).
  - apply both_orderly.
  - apply final_orderly_steps. by vm_compute.
  - by apply node_at_lookup; vm_compute.
  - by apply node_at_lookup; vm_compute.
  - vm_compute. by split.
  - by vm_compute.
  - by vm_compute.
Defined.

Lemma state_machine_safety_witness :
  ∃ m0 m1, (0, m0) ∈ w_both.(applied) ∧ (1, m1) ∈ w_both.(applied) ∧ m0.(amIndex) = 1 ∧
    m0.(amCommand) = m1.(amCommand).
Proof.
  exists (mkApplyMsg 1 (Some 7) false []), (mkApplyMsg 1 (Some 7) false []).
  assert ((0, mkApplyMsg 1 (Some 7) false []) ∈ w_both.(applied)) as H0
    by (eapply (list_elem_of_lookup_2 _ 0); by vm_compute).
  assert ((1, mkApplyMsg 1 (Some 7) false []) ∈ w_both.(applied)) as H1
    by (eapply (list_elem_of_lookup_2 _ 1); by vm_compute).
  split_and!; [done|done|done|].
  by apply (state_machine_safety (at_ms 0) ["e0"; "e1"; "e2"] w_both 0 _ 1 _ both_orderly H0 H1).
Defined.

Lemma readers_never_fail_witness :
  ∃ logs, readAll (emptyLogs 3) w_both.(applied) = Some (logs, None).
Proof. apply (readers_never_fail (at_ms 0) ["e0"; "e1"; "e2"] w_both both_orderly). Defined.

(** The execution that undoes a commit is timely but not orderly. *)
Lemma stale_append_disorderly :
  timely_run cluster3 stale_append_trace = true ∧ orderly_run cluster3 stale_append_trace = false.
Proof. split; by vm_compute. Qed.

(** Peers 1 and 2 can go on without peer 0, the leader. *)
Lemma majority_commits_witness :
  ∃ w' idx ms, quorum_steps {[1; 2]} w_both w' ∧ w'.(applied) = w_both.(applied) ++ ms ∧
    ∀ p, p ∈ ({[1; 2]} : gset Z) → (p, mkApplyMsg idx (Some 40) false []) ∈ ms.
Proof.
  apply (majority_commits (at_ms 0) ["e0"; "e1"; "e2"] w_both {[1; 2]} 40).
  - apply both_orderly.
  - by vm_compute.
  - intros p Hp. change (len ["e0"; "e1"; "e2"]) with 3. set_solver by lia.
  - by vm_compute.
Defined.

(** A peer on its own leads term 1 and takes a command, and tries to apply it. *)
Definition cluster1 : world Z := init (at_ms 0) ["e0"].
Definition w_alone : world Z := final cluster1 (life 0 1000 ++ [LStart 0 7; LApply 0]).

Lemma alone_never_commits_witness :
  isLeader w_alone 0 1 ∧ slice_get (peer_at w_alone 0).(log) 1 = Some (mkEntry 1 (Some 7)) ∧ w_alone.(applied) = [].
Proof.
  split; [apply leads_isLeader; by vm_compute|]. split; [by vm_compute|].
  apply (alone_never_commits (at_ms 0) "e0"). apply timely_steps_steps, orderly_timely_steps, final_orderly_steps. by vm_compute.
Defined.
